(* ===== verification/_CoqProject ===== *)
-Q . S2P
Prelude.v
Checksum.v
Packet.v
Memory.v
RingBuffer.v
RingProtocol.v
PayloadGenerator.v
VectorLanes.v
PacketBuilder.v
PacketValidator.v
Stats.v
ShmRegion.v
RegionOwnership.v
Transport.v
TransportRegion.v
ByteSize.v
Float64.v
Rounding.v
Figures.v
Cli.v
Options.v
OptionsText.v
RateLimiter.v
Accuracy.v
Control.v
ProducerApp.v
ConsumerApp.v
Reporters.v
Objects.v
Main.v
EndToEnd.v
SharedRing.v
System.v
SystemApps.v
Crash.v
Definedness.v
Liveness.v
