(* ===== verification/Prelude.v ===== *)
(** Producer / consumer over POSIX shared memory: root of the development.

    The repository holds two programs.  The producer builds packets (a 32-byte
    header and a generated payload) in place in a ring buffer that lives in
    POSIX shared memory; the consumer reads them in place, validates them and
    keeps statistics.  Each program runs a main loop that is steered by
    signals and the keyboard through a shared [RunControl].

    ** Files, in dependency order

    - [Prelude.v]: machine integers ([u8] ... [u64], [checked_i64] for signed
      arithmetic that must not overflow), exceptions ([outcome]), bit-level
      lemmas, byte strings, [overwrite] and [slice] of buffers, tactics.
    - [Checksum.v]: [common/src/checksum.cpp].  CRC tables, the slice-by-8
      loop, the x86 and ARM hardware paths over parameter instructions
      ([CpuSpec] states what they compute) and their choice, the registry and the factory.  The interface
      [ChecksumLaws] is what [IChecksum] promises its clients, [RegistryLaws]
      what [ChecksumRegistry] promises.
    - [Packet.v]: [common/src/packet.cpp].  Header layout, [write_header],
      [seal_packet], [read_header], [packet_checksum].
    - [Memory.v]: the mirrored data area, and its view as a window on an
      infinite stream.
    - [RingBuffer.v]: [common/src/ring_buffer.cpp].  The control block and
      the operations of both ends.
    - [RingProtocol.v]: both ends running concurrently, as a step relation;
      its specification, a bounded queue; the invariant [ring_rel].
    - [PayloadGenerator.v]: [producer/payload_generator.cpp], as eight
      independent generators and a counter; the interface [GeneratorLaws].
    - [VectorLanes.v]: the random generator as it is written, on vectors of
      four lanes, in two clones; equal to the eight generators.
    - [PacketBuilder.v]: [producer/packet_builder.cpp], a client of
      [GeneratorLaws] and [ChecksumLaws].
    - [PacketValidator.v]: [consumer/packet_validator.cpp], a client of
      [RegistryLaws].
    - [Stats.v]: [common/src/stats.cpp], [consumer/consumer_stats.cpp].
    - [ShmRegion.v]: [common/src/shm_region.cpp] over a record [posix] of
      system calls with documented behaviour: [PosixLaws] (mappings, sizes, the
      errors of [shm_unlink] included), [NameLaws] and [DescriptorLaws]; that the
      process may remove a name is a separate condition, [may_unlink].
      [RegionOwnership.v]: programs that move regions between variables, with
      their system calls recorded.
    - [Transport.v]: [common/src/shm_transport.cpp], [backoff.hpp].  Waiting,
      construction of the sink, attaching and detaching of the source, as
      steps on the control block.  [TransportRegion.v]: the same constructors
      and destructors with their regions and system calls, a refinement of
      [Transport.v].
    - [ByteSize.v], [Cli.v], [Options.v]: [common/src/byte_size.cpp],
      [common/src/cli.cpp], [producer/producer_options.cpp],
      [consumer/consumer_options.cpp].  [OptionsText.v]: both programs'
      options as arguments, in any order and notation, and back.
    - [Float64.v]: [double] as the Standard Library's binary64
      ([SpecFloat]), its casts to integers, its text; lemmas that give each
      operation on normal numbers as one rounding to nearest.
      [Rounding.v]: the same as relative errors of rationals.
    - [Figures.v]: [format_bytes], [format_duration_ns], rates, averages and
      [describe].
    - [RateLimiter.v]: [producer/rate_limiter.cpp].  [Accuracy.v]: its
      interval and the reported rates against the exact quotients.
    - [Control.v]: [control.hpp], [signal_source.cpp], [keyboard_source.cpp],
      constructors and destructors included.
    - [ProducerApp.v]: [producer/producer_app.cpp], a client of the builder
      and of the limiter.
    - [ConsumerApp.v]: [consumer/consumer_app.cpp],
      [consumer/pause_policy.cpp], a client of the validator and the
      statistics.
    - [Reporters.v]: [producer/producer_reporter.cpp],
      [consumer/consumer_reporter.cpp]: the line each event prints.
    - [Objects.v]: computations with exceptions, scoped objects and handlers.
      [Main.v]: [producer/main.cpp], [consumer/main.cpp] in these terms.
    - [EndToEnd.v]: the producer's run, the ring and the consumer's session
      composed through the records they exchange.
    - [SharedRing.v]: the ring's operations on the shared state, with the
      choice of each load, and their contract in terms of the queue.
      [System.v]: both applications on that ring, step by step; a client of the
      contract.  [SystemApps.v]: its events are those of the applications'
      loops.  [Crash.v]: consumers that die at any step and are replaced.
      [Definedness.v]: with bounded clocks no step overflows.
      [Liveness.v]: turns end without the other process, and a finished
      stream is drained, by measures on the steps of [System.v].

    ** Modelling conventions

    A member function becomes a function of its object's state (a record named
    after the class) that returns the result and the next state.  [option]
    distinguishes undefined behaviour ([None]: an access outside a buffer or
    the mapping, a signed overflow) from an ordinary result; [outcome] is a
    value or a thrown exception.  What the program reads from outside - clock
    values, stop requests, values returned by atomic loads of counters another
    process stores, results of system calls - is an argument; loops that read
    such values each turn take the list of the values of all turns and are
    recursive in it, so no fuel is needed: a result that says "still waiting"
    ([Waiting], [Pacing], [Running], [None]) means that the list was too short,
    and termination is stated as a condition on the values
    ([wait_until_ends], [session_ends]).  The only fuel is the 64 of
    [normalize_capacity], enough because each turn doubles a 64-bit number
    ([capacity_is_normalized] proves that a result is always reached).

    Sums of clock readings and intervals (deadlines, the limiter's slots, the
    report timer, latencies) are checked: they are undefined where they leave
    63 bits.  The elapsed times of the statistics ([window_take], [elapsed], the
    summaries) are differences of two readings of the steady clock, and taken as
    integers: that clock counts up from zero, so that the difference of a later
    and an earlier reading fits.

    Concurrency on the ring: an acquire load of [head] or [tail] returns any
    value of the modification order not older than the last one the reader
    observed ([acquires]); the record bytes are plain memory, which is sound
    because the window the producer may write and the record the consumer may
    read are disjoint in every reachable state ([disjoint_windows]).

    ** What the theorems show

    - The whole system: [no_packet_lost], over every schedule of the two
      processes; [crash_repeats_at_most_one], over the lives of successive
      consumers; [stream_drains] and [turns_end_alone], progress;
      [system_runs_the_applications], the steps as runs of the two loops;
      [system_is_defined], no overflow of clock arithmetic, the limiter's
      included; [end_to_end], on complete runs.
    - The ring: refinement of a bounded queue, FIFO delivery, absence of
      faults, disjointness, exactness of [try_reserve] and [try_peek], and
      containment on arbitrary (hostile) shared memory.
    - Producer: the committed stream; one fill per payload however it is
      chunked; generators; the rate limit.
    - Consumer: [validate] on every branch, no false alarms, detection of
      damage, loss accounting, exact statistics and sessions, pause policies.
    - Checksums: equivalence with the bit-at-a-time definition, hardware and
      software alike, and burst detection.
    - Set-up: the mirrored mapping, clean-up after failure, exclusive attach,
      the handshake, capacities.
    - Lifetimes: regions are unmapped once however they are moved, a sink and
      an attachment leave the system as they found it, and so do both [main]s
      (terminal, threads, mappings), with the exit code and the very message
      that belong to the way they ended ([answers]).
    - Figures: the interval of a rate and the reported rates against the exact
      quotients; exact byte sizes.
    - Text: byte sizes, numbers, command lines, options, defect names, and
      counters read back from the reports.

    ** Not modelled

    What the operating system decides is an argument: the scheduling of the
    threads, the clocks ([wall_clock_ns], [steady_clock], the local time), the bytes of a thread's start-up
    error.  [consumer_main] is given the results of its attempts to attach; the
    attempt itself, with its mappings, is [TransportRegion.source_attach].  The
    tests and build files are not part of the programs. *)
From Stdlib Require Import ZArith Lia.
From stdpp Require Import base numbers list strings.
#[export] Set Default Goal Selector "!".

(** ** Notations of the development *)

Declare Scope pc_scope.
Delimit Scope pc_scope with pc.
Infix "⊕" := Z.lxor (at level 50, left associativity) : pc_scope.
Infix "&&&" := Z.land (at level 40, left associativity) : pc_scope.
Infix "|||" := Z.lor (at level 50, left associativity) : pc_scope.

#[global] Open Scope Z_scope.
#[global] Open Scope pc_scope.

(** ** Machine integers

    An unsigned integer of [w] bits is a [Z] in [0, 2^w); the arithmetic of the
    source wraps, which is written out with [u8] ... [u64] at every place
    where the C++ code computes.  Signed 64-bit values are a [Z] in
    [-2^63, 2^63). *)

(** [mod_lia]: linear arithmetic with [div] and [mod] by constants. *)
Ltac mod_lia := Z.div_mod_to_equations; lia.

Definition u8 (z : Z) : Z := z mod 2 ^ 8.
Definition u16 (z : Z) : Z := z mod 2 ^ 16.
Definition u32 (z : Z) : Z := z mod 2 ^ 32.
Definition u64 (z : Z) : Z := z mod 2 ^ 64.
Definition i64 (z : Z) : Z := (z + 2 ^ 63) mod 2 ^ 64 - 2 ^ 63.

#[global] Arguments u8 _ : simpl never.
#[global] Arguments u16 _ : simpl never.
#[global] Arguments u32 _ : simpl never.
#[global] Arguments u64 _ : simpl never.
#[global] Arguments i64 _ : simpl never.

(** Signed arithmetic of the source must not overflow: [None] is undefined
    behaviour. *)
Definition checked_i64 (z : Z) : option Z :=
  if Z.leb (- 2 ^ 63) z && Z.ltb z (2 ^ 63) then Some z else None.

Definition U64_MAX : Z := 2 ^ 64 - 1.
Definition U32_MAX : Z := 2 ^ 32 - 1.
Definition I64_MAX : Z := 2 ^ 63 - 1.
Definition I64_MIN : Z := - 2 ^ 63.

Definition is_u (w z : Z) : Prop := 0 <= z < 2 ^ w.
Definition is_byte (b : Z) : Prop := 0 <= b < 256.
Definition is_i64 (z : Z) : Prop := I64_MIN <= z <= I64_MAX.

#[export] Instance is_u_dec w z : Decision (is_u w z).
Proof. unfold is_u. apply _. Defined.
#[export] Instance is_byte_dec b : Decision (is_byte b).
Proof. unfold is_byte. apply _. Defined.
#[export] Instance is_i64_dec z : Decision (is_i64 z).
Proof. unfold is_i64. apply _. Defined.

Create HintDb pc.
Create Rewrite HintDb pc_rw.

Lemma u8_range z : is_byte (u8 z).
Proof. unfold u8, is_byte. mod_lia. Qed.

Lemma u16_range z : is_u 16 (u16 z).
Proof. unfold u16, is_u. mod_lia. Qed.

Lemma u32_range z : is_u 32 (u32 z).
Proof. unfold u32, is_u. mod_lia. Qed.

Lemma u64_range z : is_u 64 (u64 z).
Proof. unfold u64, is_u. mod_lia. Qed.

Lemma i64_range z : is_i64 (i64 z).
Proof. unfold i64, is_i64, I64_MIN, I64_MAX. mod_lia. Qed.

Lemma u8_small z : is_byte z -> u8 z = z.
Proof. unfold u8, is_byte. intros. apply Z.mod_small. lia. Qed.

Lemma u16_small z : is_u 16 z -> u16 z = z.
Proof. unfold u16, is_u. intros. apply Z.mod_small. lia. Qed.

Lemma u32_small z : is_u 32 z -> u32 z = z.
Proof. unfold u32, is_u. intros. apply Z.mod_small. lia. Qed.

Lemma u64_small z : is_u 64 z -> u64 z = z.
Proof. unfold u64, is_u. intros. apply Z.mod_small. lia. Qed.

Lemma i64_small z : is_i64 z -> i64 z = z.
Proof. unfold i64, is_i64, I64_MIN, I64_MAX. intros. rewrite Z.mod_small; lia. Qed.

Lemma checked_i64_Some z : is_i64 z -> checked_i64 z = Some z.
Proof.
  unfold is_i64, I64_MIN, I64_MAX, checked_i64. intros H.
  by rewrite (proj2 (Z.leb_le _ _)), (proj2 (Z.ltb_lt _ _)) by lia.
Qed.

Lemma checked_i64_inv z z' : checked_i64 z = Some z' -> z' = z /\ is_i64 z.
Proof.
  unfold checked_i64, is_i64, I64_MIN, I64_MAX.
  destruct (Z.leb_spec (- 2 ^ 63) z), (Z.ltb_spec z (2 ^ 63)); cbn [andb]; [|discriminate..].
  intros [= <-]. lia.
Qed.

Lemma u64_u64 z : u64 (u64 z) = u64 z.
Proof. apply u64_small, u64_range. Qed.

Lemma u64_add_l a b : u64 (u64 a + b) = u64 (a + b).
Proof. unfold u64. apply Zplus_mod_idemp_l. Qed.

Lemma u64_sub_u64 a b : u64 (u64 a - u64 b) = u64 (a - b).
Proof. unfold u64. symmetry. apply Zminus_mod. Qed.

#[export] Hint Resolve u8_range u16_range u32_range u64_range i64_range : pc.
#[export] Hint Rewrite u64_u64 u64_add_l u64_sub_u64 : pc_rw.

(** ** Exceptions

    The exception classes the program throws and catches by name, and the
    outcome of an operation that may throw. *)

Inductive exn :=
  | UsageError (what : string)
  | InvalidArgument (what : string)
  | RuntimeError (what : string)
  | SystemError (errno : Z) (what : string).

Inductive outcome (A : Type) :=
  | Ret (a : A)
  | Throw (e : exn).
Arguments Ret {A} _.
Arguments Throw {A} _.

#[export] Instance outcome_ret : MRet outcome := fun A a => Ret a.
#[export] Instance outcome_bind : MBind outcome :=
  fun A B f m => match m with Ret a => f a | Throw e => Throw e end.

#[export] Instance exn_eq_dec : EqDecision exn.
Proof. solve_decision. Defined.

(** ** Bit-level reasoning *)

Ltac bitwise :=
  apply Z.bits_inj'; intros ?k ?Hk;
  repeat first
    [ rewrite Z.lxor_spec | rewrite Z.land_spec | rewrite Z.lor_spec
    | rewrite Z.shiftr_spec by lia | rewrite Z.shiftl_spec by lia ].

Lemma lxor_swap a b c d : (a ⊕ b) ⊕ (c ⊕ d) = (a ⊕ c) ⊕ (b ⊕ d).
Proof. rewrite !Z.lxor_assoc. f_equal. rewrite <- !Z.lxor_assoc. f_equal. apply Z.lxor_comm. Qed.

Lemma testbit_high a w k : is_u w a -> 0 <= w <= k -> Z.testbit a k = false.
Proof.
  intros Ha Hk. rewrite <- (Z.mod_small a (2 ^ w)) by exact Ha.
  apply Z.mod_pow2_bits_high. lia.
Qed.

Lemma is_u_bits w a : 0 <= w -> 0 <= a -> (forall k, w <= k -> Z.testbit a k = false) -> is_u w a.
Proof.
  intros Hw Ha Hbits. split; [exact Ha|].
  destruct (Z.eq_dec a 0) as [-> | Hne]; [lia|].
  apply Z.log2_lt_pow2; [lia|].
  destruct (Z.lt_ge_cases (Z.log2 a) w) as [Hlt | Hge]; [exact Hlt|].
  specialize (Hbits _ Hge). rewrite Z.bit_log2 in Hbits by lia. discriminate.
Qed.

Lemma lxor_is_u w a b : 0 <= w -> is_u w a -> is_u w b -> is_u w (a ⊕ b).
Proof.
  intros Hw Ha Hb. apply is_u_bits; [exact Hw | |].
  - apply Z.lxor_nonneg. unfold is_u in *. lia.
  - intros k Hk. rewrite Z.lxor_spec, (testbit_high a w k), (testbit_high b w k); auto.
Qed.

Lemma lor_is_u w a b : 0 <= w -> is_u w a -> is_u w b -> is_u w (a ||| b).
Proof.
  intros Hw Ha Hb. apply is_u_bits; [done | |].
  - apply Z.lor_nonneg. unfold is_u in *. lia.
  - intros k Hk. by rewrite Z.lor_spec, (testbit_high a w k), (testbit_high b w k).
Qed.

Lemma shiftr_is_u w a n : 0 <= n -> is_u w a -> is_u w (a ≫ n).
Proof.
  intros Hn [Ha1 Ha2]. rewrite Z.shiftr_div_pow2 by lia. split.
  - apply Z.div_pos; lia.
  - apply Z.le_lt_trans with a; [|lia]. apply Z.div_le_upper_bound; [lia|]. nia.
Qed.

Lemma is_u_mono w w' a : 0 <= w <= w' -> is_u w a -> is_u w' a.
Proof. intros Hw [H1 H2]. split; [lia|]. apply Z.lt_le_trans with (2 ^ w); [lia|]. apply Z.pow_le_mono_r; lia. Qed.

Lemma is_byte_u b : is_byte b <-> is_u 8 b.
Proof. reflexivity. Qed.

Lemma land_255_mod a : a &&& 255 = a mod 256.
Proof. exact (Z.land_ones a 8 ltac:(lia)). Qed.

Lemma land_255_byte a : is_byte (a &&& 255).
Proof. rewrite land_255_mod. unfold is_byte. mod_lia. Qed.

(** [a & (2^k - 1)] is the remainder modulo [2^k]: positions in the ring. *)
Lemma land_pow2_mask a k : 0 <= k -> a &&& (2 ^ k - 1) = a mod 2 ^ k.
Proof.
  intros Hk. replace (2 ^ k - 1) with (Z.ones k) by (rewrite Z.ones_equiv; lia).
  apply Z.land_ones. exact Hk.
Qed.

#[export] Hint Resolve land_255_byte : pc.

(** ** Byte strings

    [le_bytes n z] is the object representation of an [n]-byte unsigned
    integer on the (little-endian) machines the program targets; [le_value]
    reads it back.  Both are what [memcpy] from and to an integer does. *)

Abbreviation bytes := (list Z).

Fixpoint le_bytes (n : nat) (z : Z) : bytes :=
  match n with
  | O => []
  | S n => z mod 256 :: le_bytes n (z / 256)
  end.

Fixpoint le_value (bs : bytes) : Z :=
  match bs with
  | [] => 0
  | b :: bs => b + 256 * le_value bs
  end.

Abbreviation all_bytes := (Forall is_byte).

Lemma le_bytes_length n z : length (le_bytes n z) = n.
Proof. revert z; induction n as [|n IH]; intros z; simpl; [done|]. by rewrite IH. Qed.

Lemma le_bytes_bytes n z : all_bytes (le_bytes n z).
Proof. revert z; induction n as [|n IH]; intros z; simpl; constructor; [unfold is_byte; mod_lia | apply IH]. Qed.

Lemma le_value_range bs : all_bytes bs -> 0 <= le_value bs < 256 ^ Z.of_nat (length bs).
Proof.
  induction 1 as [|b bs Hb Hbs IH]; cbn [le_value length]; [lia|].
  rewrite Nat2Z.inj_succ, Z.pow_succ_r by lia. unfold is_byte in Hb. lia.
Qed.

Lemma le_value_bytes n z : 0 <= z < 256 ^ Z.of_nat n -> le_value (le_bytes n z) = z.
Proof.
  revert z; induction n as [|n IH]; intros z Hz; cbn [le_value le_bytes].
  - change (256 ^ Z.of_nat 0) with 1 in Hz. lia.
  - rewrite Nat2Z.inj_succ, Z.pow_succ_r in Hz by lia.
    rewrite IH by mod_lia. mod_lia.
Qed.

Lemma le_value_bytes_u n z : is_u (8 * Z.of_nat n) z -> le_value (le_bytes n z) = z.
Proof. unfold is_u. rewrite Z.pow_mul_r by lia. apply le_value_bytes. Qed.

Lemma le_bytes_value bs : all_bytes bs -> le_bytes (length bs) (le_value bs) = bs.
Proof.
  induction 1 as [|b bs Hb Hbs IH]; cbn [le_value length le_bytes]; [done|].
  unfold is_byte in Hb. f_equal; [mod_lia|].
  replace ((b + 256 * le_value bs) / 256) with (le_value bs) by mod_lia. exact IH.
Qed.

Lemma le_value_app a b : le_value (a ++ b) = le_value a + 256 ^ Z.of_nat (length a) * le_value b.
Proof.
  induction a as [|x a IH]; cbn [le_value length app]; [change (256 ^ Z.of_nat 0) with 1; lia|].
  rewrite IH, Nat2Z.inj_succ, Z.pow_succ_r by lia. lia.
Qed.

Lemma le_bytes_app n m z :
  le_bytes (n + m) z = le_bytes n z ++ le_bytes m (z / 256 ^ Z.of_nat n).
Proof.
  revert z; induction n as [|n IH]; intros z.
  - cbn [le_bytes app Nat.add]. change (256 ^ Z.of_nat 0) with 1. by rewrite Z.div_1_r.
  - rewrite Nat2Z.inj_succ, Z.pow_succ_r by lia. cbn [le_bytes app Nat.add].
    rewrite IH, <- Z.div_div by lia. done.
Qed.

Lemma le_value_inj a b :
  all_bytes a -> all_bytes b -> length a = length b -> le_value a = le_value b -> a = b.
Proof.
  intros Ha Hb Hlen Heq. rewrite <- (le_bytes_value a), <- (le_bytes_value b) by done. congruence.
Qed.

(** [overwrite off src buf] is [memcpy(buf + off, src, |src|)]. *)
Definition overwrite (off : nat) (src buf : bytes) : bytes :=
  take off buf ++ src ++ drop (off + length src) buf.

Lemma overwrite_length off src buf :
  (off + length src <= length buf)%nat -> length (overwrite off src buf) = length buf.
Proof. intros H. unfold overwrite. rewrite !length_app, length_take, length_drop. lia. Qed.

Lemma overwrite_bytes off src buf :
  all_bytes src -> all_bytes buf -> all_bytes (overwrite off src buf).
Proof. intros Hs Hb. unfold overwrite. rewrite !Forall_app. auto using Forall_take, Forall_drop. Qed.

Lemma overwrite_prefix src rest tail :
  length rest = length src -> overwrite 0 src (rest ++ tail) = src ++ tail.
Proof. intros H. unfold overwrite. cbn [take app Nat.add]. by rewrite drop_app_length' by done. Qed.

Lemma overwrite_app pre src old post :
  length old = length src ->
  overwrite (length pre) src (pre ++ old ++ post) = pre ++ src ++ post.
Proof.
  intros H. unfold overwrite. rewrite take_app_length. do 2 f_equal.
  rewrite app_assoc. apply drop_app_length'. rewrite length_app. lia.
Qed.

Lemma overwrite_app_l off src a b :
  (off + length src <= length a)%nat -> overwrite off src (a ++ b) = overwrite off src a ++ b.
Proof. intros H. unfold overwrite. rewrite take_app_le, drop_app_le by lia. by rewrite <- !app_assoc. Qed.

Lemma overwrite_app_r off src a b :
  (length a <= off)%nat -> overwrite off src (a ++ b) = a ++ overwrite (off - length a) src b.
Proof.
  intros H. unfold overwrite. rewrite take_app_ge, drop_app_ge, <- app_assoc by lia.
  do 4 f_equal. lia.
Qed.

Lemma overwrite_split off n (buf : bytes) :
  (off + n <= length buf)%nat ->
  exists pre old post, buf = pre ++ old ++ post /\ length pre = off /\ length old = n.
Proof.
  intros H. exists (take off buf), (take n (drop off buf)), (drop n (drop off buf)).
  rewrite !take_drop, !length_take, length_drop. split; [done | lia].
Qed.

Lemma overwrite_overwrite off a b buf :
  length a = length b -> (off + length a <= length buf)%nat ->
  overwrite off b (overwrite off a buf) = overwrite off b buf.
Proof.
  intros Hab Hlen. destruct (overwrite_split off (length a) buf Hlen) as (pre & old & post & -> & <- & Hold).
  by rewrite !overwrite_app by congruence.
Qed.

(** Ranges of concrete numbers, and decidable facts about concrete data. *)
Ltac concrete_range := vm_compute; intuition congruence.
Ltac by_decide := apply (bool_decide_eq_true_1 _); vm_compute; reflexivity.

(** [slice off n buf] is the sub-span [buf[off .. off+n)]. *)
Definition slice (off n : nat) (buf : bytes) : bytes := take n (drop off buf).

Lemma slice_length off n buf : (off + n <= length buf)%nat -> length (slice off n buf) = n.
Proof. intros H. unfold slice. rewrite length_take, length_drop. lia. Qed.

Lemma slice_bytes off n buf : all_bytes buf -> all_bytes (slice off n buf).
Proof. intros H. by apply Forall_take, Forall_drop. Qed.

Lemma slice_app pre mid post : slice (length pre) (length mid) (pre ++ mid ++ post) = mid.
Proof. unfold slice. by rewrite drop_app_length, take_app_length. Qed.

#[export] Hint Resolve le_bytes_bytes overwrite_bytes slice_bytes : pc.
#[export] Hint Rewrite le_bytes_length length_app : pc_rw.

(** Bytes packed with [|] and [<<] are the little-endian value. *)
Lemma land_shiftl_disjoint a b n : is_u n a -> 0 <= n -> a &&& (b ≪ n) = 0.
Proof.
  intros Ha Hn. bitwise. rewrite Z.bits_0. destruct (Z.lt_ge_cases k n) as [Hlt | Hge].
  - rewrite (Z.testbit_neg_r b) by lia. apply andb_false_r.
  - by rewrite (testbit_high a n k) by (auto; lia).
Qed.

Lemma lxor_shiftl_add a b n : is_u n a -> 0 <= n -> a ⊕ (b ≪ n) = a + b * 2 ^ n.
Proof.
  intros Ha Hn. rewrite <- Z.shiftl_mul_pow2 by lia.
  symmetry. by apply Z.add_nocarry_lxor, land_shiftl_disjoint.
Qed.

Lemma lor_shiftl_add a b n : is_u n a -> 0 <= n -> a ||| (b ≪ n) = a + b * 2 ^ n.
Proof.
  intros Ha Hn. rewrite <- Z.lxor_lor by (by apply land_shiftl_disjoint). by apply lxor_shiftl_add.
Qed.

Lemma byte_of_shift v k : 0 <= k -> (v ≫ k) &&& 255 = (v / 2 ^ k) mod 256.
Proof. intros Hk. by rewrite land_255_mod, Z.shiftr_div_pow2. Qed.

(** Ring positions survive the wrap-around of the 64-bit counters: the
    capacity [2^k] divides [2^64]. *)
Lemma u64_land_mask x k : 0 <= k <= 64 -> u64 x &&& (2 ^ k - 1) = x mod 2 ^ k.
Proof.
  intros Hk. rewrite land_pow2_mask by lia. unfold u64.
  replace (2 ^ 64) with (2 ^ k * 2 ^ (64 - k)) by (rewrite <- Z.pow_add_r by lia; f_equal; lia).
  rewrite Z.rem_mul_r by (try apply Z.pow_nonzero; try apply Z.pow_pos_nonneg; lia).
  rewrite Z.mul_comm, Z.mod_add by (apply Z.pow_nonzero; lia).
  apply Z.mod_mod, Z.pow_nonzero; lia.
Qed.

Lemma u64_diff a b : 0 <= a - b < 2 ^ 64 -> u64 (u64 a - u64 b) = a - b.
Proof. intros H. rewrite u64_sub_u64. by apply u64_small. Qed.

Lemma u64_eq a b : 0 <= a - b < 2 ^ 64 -> u64 a = u64 b -> a = b.
Proof. intros H Heq. pose proof (u64_diff a b H) as Hd. rewrite Heq, Z.sub_diag in Hd. change (u64 0) with 0 in Hd. lia. Qed.

(** The test [(c & (c - 1)) == 0] of a non-zero word: powers of two. *)
Lemma land_pred_pow2 c : 0 < c -> (c &&& (c - 1) = 0 <-> exists k, 0 <= k /\ c = 2 ^ k).
Proof.
  intros Hc. split.
  - intros H0. exists (Z.log2 c). split; [apply Z.log2_nonneg|].
    pose proof (Z.log2_spec c Hc) as [Hlo Hhi]. destruct (Z.eq_dec c (2 ^ Z.log2 c)) as [|Hne]; [done|].
    exfalso. apply (f_equal (fun z => Z.testbit z (Z.log2 c))) in H0.
    rewrite Z.land_spec, Z.bits_0, Z.bit_log2 in H0 by done. cbn in H0.
    assert (Hlog : Z.log2 (c - 1) = Z.log2 c) by (apply Z.log2_unique; [apply Z.log2_nonneg | lia]).
    pose proof (Z.pow_pos_nonneg 2 (Z.log2 c) ltac:(lia) (Z.log2_nonneg c)).
    rewrite <- Hlog, Z.bit_log2 in H0 by lia. discriminate.
  - intros (k & Hk & ->). rewrite land_pow2_mask by done. apply Z.mod_same, Z.pow_nonzero; lia.
Qed.
