(* ===== verification/Checksum.v ===== *)
(** Checksums: [common/include/pc/checksum.hpp], [common/src/checksum.cpp].

    The slice-by-8 table CRC, the hardware CRC-32C loop over the CPU's
    instructions, the two algorithm classes behind the [IChecksum] interface,
    the registry and the factory. *)
From Stdlib Require Import ZArith Lia Btauto Wf_nat.
From stdpp Require Import base numbers list strings.
From S2P Require Import Prelude.

(** ** Table construction *)

Definition kSlices : nat := 8.
Definition CrcTable : Type := list (list Z).

(** One round of the inner loop of [make_crc_table]:
    [crc = (crc & 1u) ? (polynomial ^ (crc >> 1)) : (crc >> 1)]. *)
Definition crc_bit (polynomial crc : Z) : Z :=
  if Z.eqb (crc &&& 1) 0 then crc ≫ 1 else polynomial ⊕ (crc ≫ 1).

(** The eight rounds ([for (int bit = 0; bit < 8; ++bit)]). *)
Definition crc_byte (polynomial crc : Z) : Z := Nat.iter 8 (crc_bit polynomial) crc.

(** [table[slice][i]]; reads are in range by [table_wf] below. *)
Definition table_at (table : CrcTable) (slice : nat) (i : Z) : Z :=
  nth (Z.to_nat i) (nth slice table []) 0.

Definition next_slice (row0 prev_row : list Z) : list Z :=
  map (fun prev => (prev ≫ 8) ⊕ nth (Z.to_nat (prev &&& 255)) row0 0) prev_row.

Fixpoint more_slices (n : nat) (row0 prev_row : list Z) : CrcTable :=
  match n with
  | O => []
  | S n => let row := next_slice row0 prev_row in row :: more_slices n row0 row
  end.

Definition make_crc_table (polynomial : Z) : CrcTable :=
  let row0 := map (fun i => crc_byte polynomial (Z.of_nat i)) (seq 0 256) in
  row0 :: more_slices (kSlices - 1) row0 row0.

Definition crc32_polynomial : Z := 0xEDB88320.
Definition crc32c_polynomial : Z := 0x82F63B78.
Definition kCrc32Table : CrcTable := make_crc_table crc32_polynomial.
Definition kCrc32cTable : CrcTable := make_crc_table crc32c_polynomial.

(** ** The slice-by-8 loop *)

Definition load_le32 (p0 p1 p2 p3 : Z) : Z := p0 ||| (p1 ≪ 8) ||| (p2 ≪ 16) ||| (p3 ≪ 24).

(** The trailing loop [while (n-- > 0)]. *)
Fixpoint crc_tail (table : CrcTable) (crc : Z) (data : bytes) : Z :=
  match data with
  | [] => crc
  | b :: data => crc_tail table (table_at table 0 ((crc ⊕ b) &&& 255) ⊕ (crc ≫ 8)) data
  end.

Fixpoint crc_slice_by_8 (table : CrcTable) (crc : Z) (data : bytes) : Z :=
  match data with
  | p0 :: p1 :: p2 :: p3 :: p4 :: p5 :: p6 :: p7 :: rest =>
      let one := load_le32 p0 p1 p2 p3 ⊕ crc in
      let two := load_le32 p4 p5 p6 p7 in
      crc_slice_by_8 table
        (table_at table 0 ((two ≫ 24) &&& 255) ⊕ table_at table 1 ((two ≫ 16) &&& 255)
         ⊕ table_at table 2 ((two ≫ 8) &&& 255) ⊕ table_at table 3 (two &&& 255)
         ⊕ table_at table 4 ((one ≫ 24) &&& 255) ⊕ table_at table 5 ((one ≫ 16) &&& 255)
         ⊕ table_at table 6 ((one ≫ 8) &&& 255) ⊕ table_at table 7 (one &&& 255))
        rest
  | _ => crc_tail table crc data
  end.

(** ** The hardware loop

    The CPU's CRC instructions are not part of the program: the two
    intrinsics [_mm_crc32_u64] and [_mm_crc32_u8] are parameters. *)

Section Hardware.
Context (mm_crc32_u64 : Z -> Z -> Z) (mm_crc32_u8 : Z -> Z -> Z).

Fixpoint crc32c_hardware_tail (narrow : Z) (data : bytes) : Z :=
  match data with
  | [] => narrow
  | b :: data => crc32c_hardware_tail (mm_crc32_u8 narrow b) data
  end.

Fixpoint crc32c_hardware_wide (wide : Z) (data : bytes) : Z :=
  match data with
  | p0 :: p1 :: p2 :: p3 :: p4 :: p5 :: p6 :: p7 :: rest =>
      crc32c_hardware_wide (mm_crc32_u64 wide (le_value [p0; p1; p2; p3; p4; p5; p6; p7])) rest
  | _ => crc32c_hardware_tail (u32 wide) data
  end.

Definition crc32c_hardware (crc : Z) (data : bytes) : Z := crc32c_hardware_wide crc data.

(** The ARM build keeps the 32-bit state throughout. *)
Fixpoint crc32c_hardware_arm (crc : Z) (data : bytes) : Z :=
  match data with
  | p0 :: p1 :: p2 :: p3 :: p4 :: p5 :: p6 :: p7 :: rest =>
      crc32c_hardware_arm (mm_crc32_u64 crc (le_value [p0; p1; p2; p3; p4; p5; p6; p7])) rest
  | _ => crc32c_hardware_tail crc data
  end.
End Hardware.

(** ** The [IChecksum] interface and its implementations *)

Inductive ChecksumKind := Crc32Kind | Crc32cKind.

#[export] Instance ChecksumKind_eq_dec : EqDecision ChecksumKind.
Proof. solve_decision. Defined.

(** [enum class ChecksumKind : std::uint8_t]. *)
Definition kind_code (k : ChecksumKind) : Z :=
  match k with Crc32Kind => 1 | Crc32cKind => 2 end.

(** The virtual operations of [IChecksum]. *)
Record IChecksum := {
  ck_kind : ChecksumKind;
  ck_name : string;
  ck_begin : Z;
  ck_update : Z -> bytes -> Z;
  ck_finish : Z -> Z;
}.

Definition compute (c : IChecksum) (data : bytes) : Z :=
  ck_finish c (ck_update c (ck_begin c) data).

Definition Crc32 : IChecksum := {|
  ck_kind := Crc32Kind;
  ck_name := "crc32 (software, slice-by-8)";
  ck_begin := 0xFFFFFFFF;
  ck_update := crc_slice_by_8 kCrc32Table;
  ck_finish := fun state => state ⊕ 0xFFFFFFFF;
|}.

(** The builds the conditional compilation distinguishes. *)
Inductive target := X86 | ArmLinux | ArmApple | OtherTarget.

(** What the machine offers: the build, what the run-time test reports
    ([__builtin_cpu_supports("sse4.2")], or [HWCAP_CRC32] in [AT_HWCAP]), and
    the instructions ([_mm_crc32_u64] and [_mm_crc32_u8], or [__crc32cd] and
    [__crc32cb]). *)
Record cpu := {
  cpu_target : target;
  cpu_crc32c : bool;
  cpu_crc32_u64 : Z -> Z -> Z;
  cpu_crc32_u8 : Z -> Z -> Z;
}.

Definition hardware_available (m : cpu) : bool :=
  match cpu_target m with
  | X86 | ArmLinux => cpu_crc32c m
  | ArmApple => true
  | OtherTarget => false
  end.

Definition crc32c_update (m : cpu) (hardware : bool) (state : Z) (data : bytes) : Z :=
  match cpu_target m, hardware with
  | X86, true => crc32c_hardware (cpu_crc32_u64 m) (cpu_crc32_u8 m) state data
  | ArmLinux, true | ArmApple, true => crc32c_hardware_arm (cpu_crc32_u64 m) (cpu_crc32_u8 m) state data
  | _, _ => crc_slice_by_8 kCrc32cTable state data
  end.

(** [Crc32c(allow_hardware)]: [hardware_(allow_hardware && hardware_available())]. *)
Definition Crc32c (m : cpu) (allow_hardware : bool) : IChecksum :=
  let hardware := allow_hardware && hardware_available m in {|
  ck_kind := Crc32cKind;
  ck_name := if hardware then "crc32c (hardware)" else "crc32c (software, slice-by-8)";
  ck_begin := 0xFFFFFFFF;
  ck_update := crc32c_update m hardware;
  ck_finish := fun state => state ⊕ 0xFFFFFFFF;
|}.

(** [ChecksumRegistry::find] on the raw byte the header carries. *)
Definition registry_find (m : cpu) (kind : Z) : option IChecksum :=
  if Z.eqb kind (kind_code Crc32Kind) then Some Crc32
  else if Z.eqb kind (kind_code Crc32cKind) then Some (Crc32c m true)
  else None.

Definition make_checksum (m : cpu) (name : string) : outcome IChecksum :=
  if String.eqb name "crc32" then Ret Crc32
  else if String.eqb name "crc32c" then Ret (Crc32c m true)
  else Throw (InvalidArgument ("unknown checksum '" +:+ name +:+ "' (expected: crc32, crc32c)")).

(** ** Reference definition

    The bit-at-a-time CRC of [tests/test_crc32.cpp] ([reference_crc]), split
    into its state transition (so that it can be compared with the
    incremental API) and the complete function. *)

Definition crc_step (polynomial crc byte : Z) : Z := crc_byte polynomial (crc ⊕ byte).
Definition crc_bytewise (polynomial crc : Z) (data : bytes) : Z :=
  foldl (crc_step polynomial) crc data.
Definition reference_crc (polynomial : Z) (data : bytes) : Z :=
  crc_bytewise polynomial 0xFFFFFFFF data ⊕ 0xFFFFFFFF.

(** ** The state transition is linear over xor *)

Lemma land_1_testbit a : Z.eqb (a &&& 1) 0 = negb (Z.testbit a 0).
Proof.
  change 1 with (Z.ones 1). rewrite Z.land_ones by lia.
  change (2 ^ 1) with 2. rewrite <- Z.bit0_mod. destruct (Z.testbit a 0); reflexivity.
Qed.

Section Linear.
Context (p : Z) (Hp : is_u 32 p).

Lemma crc_bit_alt c : crc_bit p c = (if Z.testbit c 0 then p else 0) ⊕ (c ≫ 1).
Proof. unfold crc_bit. rewrite land_1_testbit. destruct (Z.testbit c 0); reflexivity. Qed.

Lemma crc_bit_lxor a b : crc_bit p (a ⊕ b) = crc_bit p a ⊕ crc_bit p b.
Proof.
  rewrite !crc_bit_alt, lxor_swap, Z.shiftr_lxor, Z.lxor_spec. f_equal.
  destruct (Z.testbit a 0), (Z.testbit b 0); cbn [xorb];
    rewrite ?Z.lxor_0_r, ?Z.lxor_0_l, ?Z.lxor_nilpotent; reflexivity.
Qed.

Lemma crc_bit_range c : is_u 32 c -> is_u 32 (crc_bit p c).
Proof.
  intros Hc. rewrite crc_bit_alt. apply lxor_is_u; [lia| |apply shiftr_is_u; [lia|exact Hc]].
  destruct (Z.testbit c 0); [exact Hp | unfold is_u; lia].
Qed.

Lemma crc_bit_shiftl x n : 0 <= n -> crc_bit p (x ≪ (n + 1)) = x ≪ n.
Proof.
  intros Hn. rewrite crc_bit_alt, Z.shiftl_spec_low by lia.
  rewrite Z.lxor_0_l, Z.shiftr_shiftl_l by lia. f_equal. lia.
Qed.

Lemma crc_byte_lxor a b : crc_byte p (a ⊕ b) = crc_byte p a ⊕ crc_byte p b.
Proof.
  unfold crc_byte. cut (forall n, Nat.iter n (crc_bit p) (a ⊕ b)
    = Nat.iter n (crc_bit p) a ⊕ Nat.iter n (crc_bit p) b); [intros H; apply H|].
  induction n as [|n IH]; cbn [Nat.iter nat_rect]; [reflexivity|].
  unfold Nat.iter in IH. rewrite IH. apply crc_bit_lxor.
Qed.

Lemma crc_byte_range c : is_u 32 c -> is_u 32 (crc_byte p c).
Proof.
  intros Hc. unfold crc_byte. generalize 8%nat as n.
  induction n as [|n IH]; cbn [Nat.iter nat_rect]; [exact Hc | apply crc_bit_range, IH].
Qed.

(** Eight rounds shift a byte out of a value whose low byte is zero. *)
Lemma crc_byte_shiftl x : crc_byte p (x ≪ 8) = x.
Proof.
  unfold crc_byte. change 8 with (Z.of_nat 8). generalize 8%nat as n. intros n. revert x.
  induction n as [|n IH]; intros x; [apply Z.shiftl_0_r|].
  rewrite Nat.iter_succ_r, Nat2Z.inj_succ, <- Z.add_1_r, crc_bit_shiftl by lia. apply IH.
Qed.

Lemma byte_split c : c = (c &&& 255) ⊕ ((c ≫ 8) ≪ 8).
Proof.
  change 255 with (Z.ones 8). bitwise.
  destruct (Z.lt_ge_cases k 8) as [Hlt | Hge].
  - rewrite Z.ones_spec_low, (Z.testbit_neg_r _ (k - 8)) by lia. by rewrite andb_true_r, xorb_false_r.
  - rewrite Z.ones_spec_high, Z.shiftr_spec by lia. rewrite andb_false_r, xorb_false_l. f_equal. lia.
Qed.

(** The table step: [table[0][c & 0xFF] ^ (c >> 8)] is eight rounds. *)
Lemma crc_byte_split c : crc_byte p c = crc_byte p (c &&& 255) ⊕ (c ≫ 8).
Proof. rewrite (byte_split c) at 1. rewrite crc_byte_lxor, crc_byte_shiftl. reflexivity. Qed.

(** [F n] is the transition by [n] zero bytes. *)
Definition crc_zeros (n : nat) (c : Z) : Z := Nat.iter n (crc_byte p) c.

Lemma crc_zeros_O c : crc_zeros 0 c = c.
Proof. reflexivity. Qed.

Lemma crc_zeros_S n c : crc_zeros (S n) c = crc_byte p (crc_zeros n c).
Proof. reflexivity. Qed.

Lemma crc_zeros_lxor n a b : crc_zeros n (a ⊕ b) = crc_zeros n a ⊕ crc_zeros n b.
Proof. induction n as [|n IH]; [reflexivity|]. by rewrite !crc_zeros_S, IH, crc_byte_lxor. Qed.

Lemma crc_zeros_range n c : is_u 32 c -> is_u 32 (crc_zeros n c).
Proof. intros Hc. induction n as [|n IH]; [exact Hc|]. rewrite crc_zeros_S. by apply crc_byte_range. Qed.
End Linear.

#[local] Opaque crc_byte.

(** ** The tables *)

Definition row_spec (g : Z -> Z) (row : list Z) : Prop :=
  length row = 256%nat /\ forall i, is_byte i -> nth (Z.to_nat i) row 0 = g i.

Lemma row_spec_map (g h : Z -> Z) row :
  row_spec g row -> row_spec (fun i => h (g i)) (map h row).
Proof.
  intros [Hlen Hg]. split; [by rewrite length_map|]. intros i Hi.
  rewrite (nth_indep _ 0 (h 0)) by (rewrite length_map; unfold is_byte in Hi; lia).
  rewrite map_nth, Hg by exact Hi. reflexivity.
Qed.

Lemma row_spec_ext g h row : (forall i, is_byte i -> g i = h i) -> row_spec g row -> row_spec h row.
Proof. intros Hext [Hlen Hg]. split; [exact Hlen|]. intros i Hi. rewrite Hg, Hext; auto. Qed.

Lemma row0_spec p : row_spec (crc_byte p) (map (fun i => crc_byte p (Z.of_nat i)) (seq 0 256)).
Proof.
  split; [by rewrite length_map, length_seq|]. intros i Hi. unfold is_byte in Hi.
  rewrite (nth_indep _ 0 (crc_byte p (Z.of_nat 0))) by (rewrite length_map, length_seq; lia).
  rewrite (map_nth (fun i => crc_byte p (Z.of_nat i))), seq_nth by lia. f_equal. lia.
Qed.

Lemma next_slice_spec p g row0 prev :
  row_spec (crc_byte p) row0 -> row_spec g prev ->
  row_spec (fun i => crc_byte p (g i)) (next_slice row0 prev).
Proof.
  intros H0 Hprev. unfold next_slice.
  eapply row_spec_ext; [|apply row_spec_map, Hprev]. intros i Hi. cbn beta.
  rewrite (proj2 H0) by apply land_255_byte. rewrite Z.lxor_comm. symmetry. apply crc_byte_split.
Qed.

Lemma more_slices_spec p row0 : row_spec (crc_byte p) row0 ->
  forall n m prev, row_spec (crc_zeros p (S m)) prev ->
  forall k, (k < n)%nat -> row_spec (crc_zeros p (S (S m + k))) (nth k (more_slices n row0 prev) []).
Proof.
  intros H0. induction n as [|n IH]; intros m prev Hprev k Hk; [lia|].
  cbn [more_slices]. pose proof (next_slice_spec _ _ _ _ H0 Hprev) as Hnext.
  destruct k as [|k]; cbn [nth].
  - rewrite Nat.add_0_r. exact Hnext.
  - replace (S m + S k)%nat with (S (S m) + k)%nat by lia. apply IH; [exact Hnext | lia].
Qed.

(** Every entry of the table: slice [k] advances a byte by [k + 1] zero bytes. *)
Lemma table_at_spec p k i :
  (k < kSlices)%nat -> is_byte i -> table_at (make_crc_table p) k i = crc_zeros p (S k) i.
Proof.
  intros Hk Hi. unfold table_at, make_crc_table. pose proof (row0_spec p) as H0.
  destruct k as [|k]; cbn [nth]; [exact (proj2 H0 i Hi)|].
  refine (proj2 (more_slices_spec p _ H0 (kSlices - 1) 0 _ H0 k _) i Hi).
  unfold kSlices in *. lia.
Qed.

Lemma crc_tail_spec p crc data :
  all_bytes data -> crc_tail (make_crc_table p) crc data = crc_bytewise p crc data.
Proof.
  intros Hd. revert crc. induction Hd as [|b data Hb Hd IH]; intros crc; [reflexivity|].
  cbn [crc_tail crc_bytewise foldl]. rewrite IH. unfold crc_bytewise. f_equal.
  rewrite table_at_spec by (unfold kSlices; auto using land_255_byte with lia).
  unfold crc_step. rewrite (crc_byte_split p (crc ⊕ b)). f_equal.
  rewrite Z.shiftr_lxor, (Z.shiftr_div_pow2 b) by lia. unfold is_byte in Hb.
  rewrite (Z.div_small b) by lia. by rewrite Z.lxor_0_r.
Qed.

(** ** Slice-by-8 equals the bytewise CRC *)

Lemma load_le32_value p0 p1 p2 p3 :
  all_bytes [p0; p1; p2; p3] -> load_le32 p0 p1 p2 p3 = le_value [p0; p1; p2; p3].
Proof.
  rewrite !Forall_cons. unfold is_byte. intros (H0 & H1 & H2 & H3 & _). unfold load_le32.
  rewrite (lor_shiftl_add p0 p1 8), (lor_shiftl_add _ p2 16), (lor_shiftl_add _ p3 24)
    by (unfold is_u; lia).
  cbn [le_value]. lia.
Qed.

Lemma le_value_shift_byte p0 p1 p2 p3 : all_bytes [p0; p1; p2; p3] ->
  let v := le_value [p0; p1; p2; p3] in
  v &&& 255 = p0 /\ (v ≫ 8) &&& 255 = p1 /\ (v ≫ 16) &&& 255 = p2 /\ (v ≫ 24) &&& 255 = p3.
Proof.
  rewrite !Forall_cons. unfold is_byte. intros (H0 & H1 & H2 & H3 & _). cbn [le_value].
  rewrite land_255_mod, !byte_of_shift by lia. repeat split; mod_lia.
Qed.

Lemma crc_bytewise_app p crc a b :
  crc_bytewise p crc (a ++ b) = crc_bytewise p (crc_bytewise p crc a) b.
Proof. apply foldl_app. Qed.

Lemma crc_bytewise_range p crc data :
  is_u 32 p -> is_u 32 crc -> all_bytes data -> is_u 32 (crc_bytewise p crc data).
Proof.
  intros Hp Hc Hd. revert crc Hc. induction Hd as [|b data Hb Hd IH]; intros crc Hc; [exact Hc|].
  apply IH, crc_byte_range, lxor_is_u; [exact Hp | lia | exact Hc |].
  apply (is_u_mono 8); [lia | exact Hb].
Qed.

Section Slice.
Context (p : Z).
Local Abbreviation F := (crc_zeros p).

Lemma crc_zeros_step n c : F (S n) c = F (S n) (c &&& 255) ⊕ F n (c ≫ 8).
Proof.
  induction n as [|n IH]; [rewrite !crc_zeros_S; apply crc_byte_split|].
  rewrite (crc_zeros_S p (S n) c), IH, crc_byte_lxor. reflexivity.
Qed.

Lemma crc_zeros_4 c : is_u 32 c ->
  F 4 c = F 4 (c &&& 255) ⊕ F 3 ((c ≫ 8) &&& 255) ⊕ F 2 ((c ≫ 16) &&& 255) ⊕ F 1 ((c ≫ 24) &&& 255).
Proof.
  intros Hc. rewrite (crc_zeros_step 3), (crc_zeros_step 2), (crc_zeros_step 1), (crc_zeros_step 0).
  rewrite !Z.shiftr_shiftr by lia. change (8 + 8) with 16. change (16 + 8) with 24. change (24 + 8) with 32.
  rewrite crc_zeros_O, (Z.shiftr_div_pow2 c 32), (Z.div_small c), Z.lxor_0_r by (unfold is_u in Hc; lia).
  rewrite <- !Z.lxor_assoc. reflexivity.
Qed.

Lemma crc_zeros_add n m c : F n (F m c) = F (n + m) c.
Proof. unfold crc_zeros. symmetry. apply Nat.iter_add. Qed.

Lemma crc_zeros_8 c : is_u 32 c ->
  F 8 c = F 8 (c &&& 255) ⊕ F 7 ((c ≫ 8) &&& 255) ⊕ F 6 ((c ≫ 16) &&& 255) ⊕ F 5 ((c ≫ 24) &&& 255).
Proof.
  intros Hc. rewrite <- (crc_zeros_add 4 4), (crc_zeros_4 c Hc).
  rewrite !crc_zeros_lxor, !crc_zeros_add. reflexivity.
Qed.

Lemma crc_bytewise_linear crc data d :
  crc_bytewise p (crc ⊕ d) data = crc_bytewise p crc data ⊕ F (length data) d.
Proof.
  revert crc d. induction data as [|b data IH]; intros crc d; [reflexivity|].
  cbn [crc_bytewise foldl length]. fold (crc_bytewise p).
  unfold crc_step at 2. rewrite Z.lxor_assoc, (Z.lxor_comm d b), <- Z.lxor_assoc, crc_byte_lxor.
  unfold crc_bytewise in IH. rewrite IH. f_equal.
  unfold crc_zeros. by rewrite Nat.iter_succ_r.
Qed.

Lemma crc_bytewise_8 crc p0 p1 p2 p3 p4 p5 p6 p7 :
  crc_bytewise p crc [p0; p1; p2; p3; p4; p5; p6; p7]
  = F 8 crc ⊕ F 8 p0 ⊕ F 7 p1 ⊕ F 6 p2 ⊕ F 5 p3 ⊕ F 4 p4 ⊕ F 3 p5 ⊕ F 2 p6 ⊕ F 1 p7.
Proof.
  cbn [crc_bytewise foldl]. unfold crc_step, crc_zeros. cbn [Nat.iter nat_rect].
  rewrite !crc_byte_lxor. reflexivity.
Qed.
End Slice.

Lemma land_lxor_distr a b c : (a ⊕ b) &&& c = (a &&& c) ⊕ (b &&& c).
Proof. bitwise. btauto. Qed.

Lemma crc_slice_step p crc p0 p1 p2 p3 p4 p5 p6 p7 :
  is_u 32 crc -> all_bytes [p0; p1; p2; p3] -> all_bytes [p4; p5; p6; p7] ->
  let table := make_crc_table p in
  let one := load_le32 p0 p1 p2 p3 ⊕ crc in
  let two := load_le32 p4 p5 p6 p7 in
  table_at table 0 ((two ≫ 24) &&& 255) ⊕ table_at table 1 ((two ≫ 16) &&& 255)
    ⊕ table_at table 2 ((two ≫ 8) &&& 255) ⊕ table_at table 3 (two &&& 255)
    ⊕ table_at table 4 ((one ≫ 24) &&& 255) ⊕ table_at table 5 ((one ≫ 16) &&& 255)
    ⊕ table_at table 6 ((one ≫ 8) &&& 255) ⊕ table_at table 7 (one &&& 255)
  = crc_bytewise p crc [p0; p1; p2; p3; p4; p5; p6; p7].
Proof.
  intros Hc Ha Hb. cbv zeta.
  rewrite !table_at_spec by (unfold kSlices; auto using land_255_byte with lia).
  rewrite (load_le32_value p0), (load_le32_value p4) by assumption.
  destruct (le_value_shift_byte _ _ _ _ Ha) as (E0 & E1 & E2 & E3).
  destruct (le_value_shift_byte _ _ _ _ Hb) as (E4 & E5 & E6 & E7).
  rewrite !Z.shiftr_lxor, !land_lxor_distr, E0, E1, E2, E3, E4, E5, E6, E7.
  rewrite crc_bytewise_8, (crc_zeros_8 p crc) by exact Hc.
  rewrite !crc_zeros_lxor. bitwise. btauto.
Qed.

Lemma crc_slice_by_8_bytewise p crc data :
  is_u 32 p -> is_u 32 crc -> all_bytes data ->
  crc_slice_by_8 (make_crc_table p) crc data = crc_bytewise p crc data.
Proof.
  intros Hp. revert crc. induction data as [data IH] using (induction_ltof1 _ (@length Z)).
  intros crc Hc Hd. unfold ltof in IH.
  destruct data as [|p0 [|p1 [|p2 [|p3 [|p4 [|p5 [|p6 [|p7 rest]]]]]]]];
    try (apply crc_tail_spec; exact Hd).
  cbn [crc_slice_by_8]. cbv zeta.
  assert (Hsplit : all_bytes [p0; p1; p2; p3] /\ all_bytes [p4; p5; p6; p7] /\ all_bytes rest).
  { rewrite !Forall_cons in Hd |- *. rewrite !Forall_nil. tauto. }
  destruct Hsplit as (Ha & Hb & Hr).
  rewrite (crc_slice_step p crc p0 p1 p2 p3 p4 p5 p6 p7) by assumption.
  change (p0 :: p1 :: p2 :: p3 :: p4 :: p5 :: p6 :: p7 :: rest)
    with ([p0; p1; p2; p3; p4; p5; p6; p7] ++ rest).
  rewrite crc_bytewise_app. apply IH; [cbn; lia | | exact Hr].
  apply crc_bytewise_range; [exact Hp | exact Hc |].
  change [p0; p1; p2; p3; p4; p5; p6; p7] with ([p0; p1; p2; p3] ++ [p4; p5; p6; p7]).
  by apply Forall_app.
Qed.

(** ** Error detection

    The transition by zero bytes is injective on 32-bit states as soon as the
    polynomial's top bit is set, which makes the CRC sensitive to every error
    confined to four consecutive bytes. *)

Section Injective.
Context (p : Z) (Hp : is_u 32 p) (Htop : Z.testbit p 31 = true).
Local Abbreviation F := (crc_zeros p).

Lemma crc_bit_zero d : is_u 32 d -> crc_bit p d = 0 -> d = 0.
Proof.
  intros Hd H0. rewrite crc_bit_alt in H0.
  destruct (Z.testbit d 0) eqn:Hbit.
  - apply (f_equal (fun z => Z.testbit z 31)) in H0.
    rewrite Z.lxor_spec, Z.shiftr_spec, Htop, Z.bits_0, (testbit_high d 32) in H0 by (auto; lia).
    discriminate.
  - rewrite Z.lxor_0_l, Z.shiftr_div_pow2 in H0 by lia.
    pose proof (Z.bit0_mod d) as Hmod. rewrite Hbit in Hmod. cbn in Hmod.
    unfold is_u in Hd. mod_lia.
Qed.

Transparent crc_byte.
Lemma crc_byte_zero d : is_u 32 d -> crc_byte p d = 0 -> d = 0.
Proof.
  unfold crc_byte. generalize 8%nat as n. induction n as [|n IH]; intros Hd H0; [exact H0|].
  apply IH; [exact Hd|]. apply crc_bit_zero; [|exact H0].
  clear IH H0. induction n as [|n IH]; [exact Hd | apply crc_bit_range, IH; exact Hp].
Qed.
Opaque crc_byte.

Lemma crc_zeros_zero n d : is_u 32 d -> F n d = 0 -> d = 0.
Proof.
  intros Hd. induction n as [|n IH]; [done|]. rewrite crc_zeros_S. intros H0.
  apply IH, crc_byte_zero; [|exact H0]. by apply crc_zeros_range.
Qed.

Lemma crc_zeros_inj n a b : is_u 32 a -> is_u 32 b -> F n a = F n b -> a = b.
Proof.
  intros Ha Hb Heq. apply Z.lxor_eq, (crc_zeros_zero n); [apply lxor_is_u; [lia | done..]|].
  rewrite crc_zeros_lxor, Heq. apply Z.lxor_nilpotent.
Qed.
End Injective.

Lemma crc_zeros_shiftl p n x : crc_zeros p (S n) (x ≪ 8) = crc_zeros p n x.
Proof. unfold crc_zeros. by rewrite Nat.iter_succ_r, crc_byte_shiftl. Qed.

(** The CRC of a word is the zero-byte transition of the word itself. *)
Lemma crc_bytewise_le p c w : all_bytes w ->
  crc_bytewise p c w = crc_zeros p (length w) (c ⊕ le_value w).
Proof.
  intros Hw. revert c. induction Hw as [|b w Hb Hw IH]; intros c.
  - cbn [length le_value crc_bytewise foldl]. by rewrite Z.lxor_0_r.
  - cbn [crc_bytewise foldl]. fold (crc_bytewise p (crc_step p c b) w). rewrite IH.
    pose proof (le_value_range w Hw) as Hrange.
    assert (Hsplit : le_value (b :: w) = b ⊕ (le_value w ≪ 8)).
    { cbn [le_value]. rewrite lxor_shiftl_add by (done || lia). lia. }
    rewrite Hsplit, <- Z.lxor_assoc, (crc_zeros_lxor p (length (b :: w)) (c ⊕ b)). cbn [length].
    rewrite crc_zeros_shiftl, (crc_zeros_lxor p (length w)). f_equal.
    unfold crc_step, crc_zeros. by rewrite Nat.iter_succ_r.
Qed.

Lemma crc_bytewise_burst p s pre w w' post :
  is_u 32 p -> Z.testbit p 31 = true -> is_u 32 s ->
  all_bytes pre -> all_bytes w -> all_bytes w' -> all_bytes post ->
  length w = length w' -> (length w <= 4)%nat ->
  crc_bytewise p s (pre ++ w ++ post) = crc_bytewise p s (pre ++ w' ++ post) -> w = w'.
Proof.
  intros Hp Htop Hs Hpre Hw Hw' Hpost Hlen H4 Heq.
  assert (Hr : forall x, all_bytes x -> (length x <= 4)%nat -> is_u 32 (le_value x)).
  { intros x Hx Hx4. pose proof (le_value_range x Hx) as [H1 H2]. split; [lia|].
    apply Z.lt_le_trans with (256 ^ Z.of_nat (length x)); [lia|].
    change (2 ^ 32) with (256 ^ 4). apply Z.pow_le_mono_r; lia. }
  rewrite !crc_bytewise_app in Heq. set (t := crc_bytewise p s pre) in *.
  rewrite !(crc_bytewise_le p _ post), !crc_zeros_lxor in Heq by done.
  apply (f_equal (fun z => z ⊕ crc_zeros p (length post) (le_value post))) in Heq.
  rewrite !Z.lxor_assoc, !Z.lxor_nilpotent, !Z.lxor_0_r in Heq.
  assert (Ht : is_u 32 t) by (apply crc_bytewise_range; done).
  apply (crc_zeros_inj p Hp Htop) in Heq; [|by apply crc_bytewise_range..].
  rewrite !crc_bytewise_le, Hlen in Heq by done.
  assert (Hw4 : is_u 32 (le_value w)) by auto.
  assert (Hw4' : is_u 32 (le_value w')) by (apply Hr; [done | lia]).
  apply (crc_zeros_inj p Hp Htop) in Heq; [|by apply lxor_is_u..].
  apply (f_equal (Z.lxor t)) in Heq.
  rewrite <- !Z.lxor_assoc, Z.lxor_nilpotent, !Z.lxor_0_l in Heq.
  by apply le_value_inj.
Qed.

(** ** What a checksum promises its clients

    [PacketBuilder], [seal_packet] and [packet_checksum] only rely on these
    laws of [IChecksum]. *)

Class ChecksumLaws (c : IChecksum) : Prop := {
  cl_begin_range : is_u 32 (ck_begin c);
  cl_update_range s d : is_u 32 s -> all_bytes d -> is_u 32 (ck_update c s d);
  cl_finish_range s : is_u 32 s -> is_u 32 (ck_finish c s);
  cl_finish_inj s t : ck_finish c s = ck_finish c t -> s = t;
  cl_update_nil s : is_u 32 s -> ck_update c s [] = s;
  cl_update_app s a b : is_u 32 s -> all_bytes a -> all_bytes b ->
    ck_update c (ck_update c s a) b = ck_update c s (a ++ b);
  cl_update_burst s pre w w' post :
    is_u 32 s -> all_bytes pre -> all_bytes w -> all_bytes w' -> all_bytes post ->
    length w = length w' -> (length w <= 4)%nat ->
    ck_update c s (pre ++ w ++ post) = ck_update c s (pre ++ w' ++ post) -> w = w';
}.

(** What makes an implementation a CRC with a given polynomial. *)
Record implements_crc (c : IChecksum) (p : Z) : Prop := {
  ic_poly : is_u 32 p;
  ic_top : Z.testbit p 31 = true;
  ic_begin : ck_begin c = 0xFFFFFFFF;
  ic_update s d : is_u 32 s -> all_bytes d -> ck_update c s d = crc_bytewise p s d;
  ic_finish s : ck_finish c s = s ⊕ 0xFFFFFFFF;
}.

Lemma implements_crc_laws c p : implements_crc c p -> ChecksumLaws c.
Proof.
  intros [Hp Htop Hb Hu Hf]. constructor.
  - rewrite Hb. unfold is_u. lia.
  - intros s d Hs Hd. rewrite Hu by done. by apply crc_bytewise_range.
  - intros s Hs. rewrite Hf. apply lxor_is_u; [lia | done | unfold is_u; lia].
  - intros s t. rewrite !Hf. intros Heq. apply (f_equal (fun z => z ⊕ 0xFFFFFFFF)) in Heq.
    by rewrite !Z.lxor_assoc, !Z.lxor_nilpotent, !Z.lxor_0_r in Heq.
  - intros s Hs. by rewrite Hu by (done || constructor).
  - intros s a b Hs Ha Hb'. rewrite (Hu s a), (Hu s (a ++ b)), Hu by
      (try apply crc_bytewise_range; try apply Forall_app; done).
    symmetry. apply crc_bytewise_app.
  - intros s pre w w' post Hs Hpre Hw Hw' Hpost Hlen H4.
    rewrite !Hu by (rewrite ?Forall_app; done). by apply crc_bytewise_burst.
Qed.

Lemma implements_crc_compute c p data :
  implements_crc c p -> all_bytes data -> compute c data = reference_crc p data.
Proof.
  intros [Hp Htop Hb Hu Hf] Hd. unfold compute, reference_crc.
  rewrite Hf, Hu, Hb by (rewrite ?Hb; unfold is_u; auto with lia). done.
Qed.

(** The documented behaviour of the CPU's CRC32 instructions: when they are
    present, they run the CRC-32C transition over the operand's bytes, least
    significant first, and zero-extend the 32-bit result. *)
Class CpuSpec (m : cpu) : Prop := {
  cpu_u64_spec crc word : hardware_available m = true -> is_u 32 crc -> is_u 64 word ->
    cpu_crc32_u64 m crc word = crc_bytewise crc32c_polynomial crc (le_bytes 8 word);
  cpu_u8_spec crc byte : hardware_available m = true -> is_u 32 crc -> is_byte byte ->
    cpu_crc32_u8 m crc byte = crc_step crc32c_polynomial crc byte;
}.

Section Hardware_correct.
Context (m : cpu) `{!CpuSpec m} (Havail : hardware_available m = true).

Lemma crc32c_hardware_tail_spec crc data : is_u 32 crc -> all_bytes data ->
  crc32c_hardware_tail (cpu_crc32_u8 m) crc data = crc_bytewise crc32c_polynomial crc data.
Proof.
  intros Hc Hd. revert crc Hc. induction Hd as [|b data Hb Hd IH]; intros crc Hc; [reflexivity|].
  cbn [crc32c_hardware_tail]. rewrite cpu_u8_spec, IH by
    (try apply (crc_bytewise_range _ _ [b]); unfold is_u; auto; by vm_compute). done.
Qed.

Lemma crc32c_hardware_spec crc data : is_u 32 crc -> all_bytes data ->
  crc32c_hardware (cpu_crc32_u64 m) (cpu_crc32_u8 m) crc data
  = crc_bytewise crc32c_polynomial crc data.
Proof.
  unfold crc32c_hardware. revert crc. induction data as [data IH] using (induction_ltof1 _ (@length Z)).
  intros crc Hc Hd. unfold ltof in IH.
  destruct data as [|p0 [|p1 [|p2 [|p3 [|p4 [|p5 [|p6 [|p7 rest]]]]]]]];
    try (cbn [crc32c_hardware_wide]; rewrite (u32_small crc) by exact Hc;
         apply crc32c_hardware_tail_spec; assumption).
  set (chunk := [p0; p1; p2; p3; p4; p5; p6; p7]).
  change (p0 :: p1 :: p2 :: p3 :: p4 :: p5 :: p6 :: p7 :: rest) with (chunk ++ rest) in Hd |- *.
  apply Forall_app in Hd as [Hchunk Hrest].
  change (crc32c_hardware_wide (cpu_crc32_u64 m) (cpu_crc32_u8 m) crc (chunk ++ rest))
    with (crc32c_hardware_wide (cpu_crc32_u64 m) (cpu_crc32_u8 m) (cpu_crc32_u64 m crc (le_value chunk)) rest).
  pose proof (le_value_range chunk Hchunk) as Hrange. change (256 ^ Z.of_nat (length chunk)) with (2 ^ 64) in Hrange.
  rewrite cpu_u64_spec by done. rewrite (le_bytes_value chunk Hchunk : le_bytes 8 (le_value chunk) = chunk).
  rewrite crc_bytewise_app. apply IH; [cbn; lia | | done].
  apply crc_bytewise_range; [concrete_range | done..].
Qed.

(** On a 32-bit state the ARM loop does what the x86 loop does. *)
Lemma crc32c_arm_is_wide crc data : is_u 32 crc -> all_bytes data ->
  crc32c_hardware_arm (cpu_crc32_u64 m) (cpu_crc32_u8 m) crc data =
  crc32c_hardware (cpu_crc32_u64 m) (cpu_crc32_u8 m) crc data.
Proof.
  unfold crc32c_hardware. revert crc. induction data as [data IH] using (induction_ltof1 _ (@length Z)).
  intros crc Hc Hd. unfold ltof in IH.
  destruct data as [|p0 [|p1 [|p2 [|p3 [|p4 [|p5 [|p6 [|p7 rest]]]]]]]];
    try (cbn [crc32c_hardware_wide crc32c_hardware_arm]; by rewrite (u32_small crc)).
  set (chunk := [p0; p1; p2; p3; p4; p5; p6; p7]).
  change (p0 :: p1 :: p2 :: p3 :: p4 :: p5 :: p6 :: p7 :: rest) with (chunk ++ rest) in Hd.
  apply Forall_app in Hd as [Hchunk Hrest]. cbn [crc32c_hardware_wide crc32c_hardware_arm]. fold chunk.
  pose proof (le_value_range chunk Hchunk) as Hrange. change (256 ^ Z.of_nat (length chunk)) with (2 ^ 64) in Hrange.
  apply IH; [cbn; lia | | done]. rewrite cpu_u64_spec by done.
  apply crc_bytewise_range; [concrete_range | done|]. apply le_bytes_bytes.
Qed.
End Hardware_correct.

Lemma crc32_implements : implements_crc Crc32 crc32_polynomial.
Proof.
  constructor; try reflexivity; [concrete_range|].
  intros s d Hs Hd. cbn [ck_update Crc32]. unfold kCrc32Table.
  by apply crc_slice_by_8_bytewise; [concrete_range|..].
Qed.

Lemma crc32c_implements m allow `{!CpuSpec m} : implements_crc (Crc32c m allow) crc32c_polynomial.
Proof.
  constructor; try reflexivity; [concrete_range|].
  intros s d Hs Hd. cbn [ck_update Crc32c]. unfold crc32c_update.
  assert (Hslice : crc_slice_by_8 kCrc32cTable s d = crc_bytewise crc32c_polynomial s d)
    by (unfold kCrc32cTable; by apply crc_slice_by_8_bytewise; [concrete_range|..]).
  destruct (allow && hardware_available m) eqn:Hhw; [|by destruct (cpu_target m)].
  apply andb_prop in Hhw as [_ Hhw].
  destruct (cpu_target m); [| rewrite crc32c_arm_is_wide by done.. | done]; by apply crc32c_hardware_spec.
Qed.

#[export] Instance Crc32_laws : ChecksumLaws Crc32 := implements_crc_laws _ _ crc32_implements.
#[export] Instance Crc32c_laws m allow `{!CpuSpec m} : ChecksumLaws (Crc32c m allow) :=
  implements_crc_laws _ _ (crc32c_implements m allow).

Lemma registry_laws m k c `{!CpuSpec m} : registry_find m k = Some c -> ChecksumLaws c.
Proof.
  unfold registry_find. destruct (Z.eqb k _); [intros [= <-]; apply _|].
  destruct (Z.eqb k _); [intros [= <-]; apply _ | discriminate].
Qed.

(** What the validator relies on in [IChecksumRegistry]: the algorithm found
    for a byte is the one with that byte, and it obeys the checksum laws. *)
Class RegistryLaws (find : Z -> option IChecksum) : Prop := {
  rl_kind k c : find k = Some c -> kind_code (ck_kind c) = k;
  rl_laws k c : find k = Some c -> ChecksumLaws c;
}.

#[export] Instance registry_find_laws m `{!CpuSpec m} : RegistryLaws (registry_find m).
Proof.
  constructor; intros k c Hfind; [|by apply (registry_laws m k c)]. revert Hfind. unfold registry_find.
  destruct (Z.eqb_spec k (kind_code Crc32Kind)) as [-> |]; [by intros [= <-]|].
  destruct (Z.eqb_spec k (kind_code Crc32cKind)) as [-> |]; [by intros [= <-] | discriminate].
Qed.

(** A CPU with the instructions, by their documentation (for the witnesses). *)
Definition sse42 : cpu := {|
  cpu_target := X86;
  cpu_crc32c := true;
  cpu_crc32_u64 := fun crc word => crc_bytewise crc32c_polynomial crc (le_bytes 8 word);
  cpu_crc32_u8 := crc_step crc32c_polynomial;
|}.

#[export] Instance sse42_spec : CpuSpec sse42.
Proof. by constructor. Qed.

(** ** Properties *)

(** C16. The slice-by-8 CRC-32 computes, on every byte string, the value of the
    bit-at-a-time definition of CRC-32 (IEEE). *)
Theorem crc32_matches_reference data :
  all_bytes data -> compute Crc32 data = reference_crc crc32_polynomial data.
Proof. apply implements_crc_compute, crc32_implements. Qed.

Lemma crc32_matches_reference_witness :
  compute Crc32 [49; 50; 51; 52; 53; 54; 55; 56; 57] = 0xCBF43926 /\
  compute Crc32 [49; 50; 51; 52; 53; 54; 55; 56; 57]
  = reference_crc crc32_polynomial [49; 50; 51; 52; 53; 54; 55; 56; 57].
Proof.
  split; [vm_compute; reflexivity|]. apply crc32_matches_reference.
  by_decide.
Defined.

(** C17. CRC-32C gives the bit-at-a-time Castagnoli value whether or not the
    hardware path is taken, on x86 and on ARM: on every CPU whose instructions behave as
    documented, allowing or forbidding the hardware changes nothing. *)
Theorem crc32c_hardware_is_software m allow data :
  CpuSpec m -> all_bytes data ->
  compute (Crc32c m allow) data = compute (Crc32c m false) data /\
  compute (Crc32c m allow) data = reference_crc crc32c_polynomial data.
Proof.
  intros Hm Hd. rewrite !(implements_crc_compute _ _ _ (crc32c_implements m _)) by done. done.
Qed.

Lemma crc32c_hardware_is_software_witness :
  compute (Crc32c sse42 true) [49; 50; 51; 52; 53; 54; 55; 56; 57] = 0xE3069283 /\
  ck_name (Crc32c sse42 true) = "crc32c (hardware)"%string /\
  compute (Crc32c sse42 true) [49; 50; 51; 52; 53; 54; 55; 56; 57]
  = compute (Crc32c sse42 false) [49; 50; 51; 52; 53; 54; 55; 56; 57].
Proof.
  split; [vm_compute; reflexivity|]. split; [reflexivity|].
  refine (proj1 (crc32c_hardware_is_software sse42 true _ sse42_spec _)).
  by_decide.
Defined.

(** Every algorithm of the registry can be fed in pieces: hashing two
    regions one after the other is hashing their concatenation. *)
Theorem registry_incremental m k c s a b :
  CpuSpec m -> registry_find m k = Some c ->
  is_u 32 s -> all_bytes a -> all_bytes b ->
  ck_update c (ck_update c s a) b = ck_update c s (a ++ b).
Proof. intros Hm Hfind Hs Ha Hb. pose proof (registry_laws m k c Hfind). by apply cl_update_app. Qed.

Lemma registry_incremental_witness :
  ck_update Crc32 (ck_update Crc32 (ck_begin Crc32) [1; 2; 3]) [4; 5; 6; 7; 8; 9; 10; 11; 12]
  = ck_update Crc32 (ck_begin Crc32) [1; 2; 3; 4; 5; 6; 7; 8; 9; 10; 11; 12].
Proof.
  apply (registry_incremental sse42 1 Crc32 0xFFFFFFFF [1; 2; 3] [4; 5; 6; 7; 8; 9; 10; 11; 12]);
    [apply sse42_spec | reflexivity | unfold is_u; lia | |];
    by_decide.
Defined.

(** Error detection: replacing up to four consecutive bytes of a message
    by different ones changes its checksum, for every algorithm of the
    registry. *)
Theorem registry_detects_bursts m k c pre w w' post :
  CpuSpec m -> registry_find m k = Some c ->
  all_bytes pre -> all_bytes w -> all_bytes w' -> all_bytes post ->
  length w = length w' -> (length w <= 4)%nat -> w <> w' ->
  compute c (pre ++ w ++ post) <> compute c (pre ++ w' ++ post).
Proof.
  intros Hm Hfind Hpre Hw Hw' Hpost Hlen H4 Hne Heq. pose proof (registry_laws m k c Hfind) as Hl.
  apply Hne, (cl_update_burst (ck_begin c) pre w w' post); try done; [apply cl_begin_range|].
  by apply cl_finish_inj.
Qed.

Lemma registry_detects_bursts_witness :
  compute Crc32 ([1; 2] ++ [3; 4; 5; 6] ++ [7]) <> compute Crc32 ([1; 2] ++ [6; 5; 4; 3] ++ [7]).
Proof.
  apply (registry_detects_bursts sse42 1 Crc32 [1; 2] [3; 4; 5; 6] [6; 5; 4; 3] [7]);
    try discriminate; try reflexivity; [apply sse42_spec | ..];
    by_decide.
Defined.

(** The producer's factory and the consumer's registry agree: the
    algorithm made for a name is the one the registry finds under the kind
    that algorithm writes into the headers; every other name is refused with
    [std::invalid_argument], and kinds other than 1 and 2 are unknown. *)
Theorem factory_registry_agree m name :
  match make_checksum m name with
  | Ret c => registry_find m (kind_code (ck_kind c)) = Some c /\ (name = "crc32" \/ name = "crc32c")%string
  | Throw e => (exists what, e = InvalidArgument what) /\ name <> "crc32"%string /\ name <> "crc32c"%string
  end /\ forall k, registry_find m k = None <-> k <> 1 /\ k <> 2.
Proof.
  split.
  - unfold make_checksum. destruct (String.eqb_spec name "crc32") as [-> | H1]; [by auto|].
    destruct (String.eqb_spec name "crc32c") as [-> | H2]; [split; [reflexivity | by right]|].
    split; [by eexists | done].
  - intros k. unfold registry_find. cbn [kind_code].
    destruct (Z.eqb_spec k 1), (Z.eqb_spec k 2); (split; [try discriminate; done | intros [? ?]; done]).
Qed.
