(* ===== verification/Packet.v ===== *)
(** The packet format: [common/include/pc/packet.hpp], [common/src/packet.cpp].

    A record is a 32-byte header in native (little-endian) layout followed by
    the payload.  [None] is an access outside the record, which the C++ code
    rules out by the precondition [record.size() >= kHeaderSize]. *)
From Stdlib Require Import ZArith Lia.
From stdpp Require Import base numbers list strings.
From S2P Require Import Prelude Checksum.

Definition kPacketMagic : Z := 0x544B4350.
Definition kPacketVersion : Z := 2.
Definition kHeaderSize : Z := 32.

Record PacketHeader := {
  magic : Z;
  version : Z;
  checksum_kind : Z;
  header_size : Z;
  payload_size : Z;
  checksum : Z;
  sequence : Z;
  timestamp_ns : Z;
}.

#[export] Instance PacketHeader_eq_dec : EqDecision PacketHeader.
Proof. solve_decision. Defined.

(** The object representation of [PacketHeader] (standard layout, no padding). *)
Definition header_bytes (h : PacketHeader) : bytes :=
  le_bytes 4 (magic h) ++ le_bytes 1 (version h) ++ le_bytes 1 (checksum_kind h)
  ++ le_bytes 2 (header_size h) ++ le_bytes 4 (payload_size h) ++ le_bytes 4 (checksum h)
  ++ le_bytes 8 (sequence h) ++ le_bytes 8 (u64 (timestamp_ns h)).

Definition header_of_bytes (bs : bytes) : PacketHeader := {|
  magic := le_value (slice 0 4 bs);
  version := le_value (slice 4 1 bs);
  checksum_kind := le_value (slice 5 1 bs);
  header_size := le_value (slice 6 2 bs);
  payload_size := le_value (slice 8 4 bs);
  checksum := le_value (slice 12 4 bs);
  sequence := le_value (slice 16 8 bs);
  timestamp_ns := i64 (le_value (slice 24 8 bs));
|}.

Definition set_checksum (h : PacketHeader) (c : Z) : PacketHeader := {|
  magic := magic h; version := version h; checksum_kind := checksum_kind h;
  header_size := header_size h; payload_size := payload_size h; checksum := c;
  sequence := sequence h; timestamp_ns := timestamp_ns h |}.

(** [memcpy] into a record, with the bounds the C++ code must respect. *)
Definition memcpy_into (off : nat) (src record : bytes) : option bytes :=
  if decide (off + length src <= length record)%nat then Some (overwrite off src record) else None.

(** The header [write_header] builds for a record of [size] bytes. *)
Definition fresh_header (size sequence timestamp_ns : Z) (kind : ChecksumKind) : PacketHeader := {|
  magic := kPacketMagic;
  version := kPacketVersion;
  checksum_kind := kind_code kind;
  header_size := u16 kHeaderSize;
  payload_size := u32 (u64 (size - kHeaderSize));
  checksum := 0;
  sequence := sequence;
  timestamp_ns := timestamp_ns;
|}.

Definition write_header (record : bytes) (sequence timestamp_ns : Z) (kind : ChecksumKind) : option bytes :=
  memcpy_into 0 (header_bytes (fresh_header (Z.of_nat (length record)) sequence timestamp_ns kind)) record.

(** [offsetof(PacketHeader, checksum)] is 12. *)
Definition patch_checksum (record : bytes) (checksum : Z) : option bytes :=
  memcpy_into 12 (le_bytes 4 checksum) record.

Definition seal_packet (record : bytes) (sequence timestamp_ns : Z) (c : IChecksum) : option bytes :=
  record ← write_header record sequence timestamp_ns (ck_kind c);
  patch_checksum record (compute c record).

Definition read_header (record : bytes) : option PacketHeader :=
  if decide (32 <= length record)%nat then Some (header_of_bytes (take 32 record)) else None.

Definition packet_checksum (record : bytes) (c : IChecksum) : option Z :=
  header ← read_header record;
  let hb := header_bytes (set_checksum header 0) in
  let state := ck_begin c in
  let state := ck_update c state hb in
  let state := ck_update c state (drop 32 record) in
  Some (ck_finish c state).

(** ** Layout lemmas *)

Record header_wf (h : PacketHeader) : Prop := {
  hw_magic : is_u 32 (magic h);
  hw_version : is_byte (version h);
  hw_kind : is_byte (checksum_kind h);
  hw_header_size : is_u 16 (header_size h);
  hw_payload_size : is_u 32 (payload_size h);
  hw_checksum : is_u 32 (checksum h);
  hw_sequence : is_u 64 (sequence h);
  hw_timestamp : is_i64 (timestamp_ns h);
}.

Lemma header_bytes_length h : length (header_bytes h) = 32%nat.
Proof. unfold header_bytes. by autorewrite with pc_rw. Qed.

Lemma header_bytes_bytes h : all_bytes (header_bytes h).
Proof. unfold header_bytes. rewrite !Forall_app. auto 10 with pc. Qed.

#[export] Hint Resolve header_bytes_bytes : pc.
#[export] Hint Rewrite header_bytes_length : pc_rw.

(** Reading a field of a concatenation: skip the fields before it. *)
Lemma slice_skip pre rest off n :
  (length pre <= off)%nat -> slice off n (pre ++ rest) = slice (off - length pre) n rest.
Proof. intros H. unfold slice. by rewrite drop_app_ge. Qed.

Lemma slice_here mid rest n : length mid = n -> slice 0 n (mid ++ rest) = mid.
Proof. intros <-. unfold slice. by rewrite drop_0, take_app_length. Qed.

Lemma slice_whole mid n : length mid = n -> slice 0 n mid = mid.
Proof. intros <-. unfold slice. by rewrite drop_0, firstn_all. Qed.

Ltac read_field :=
  unfold header_bytes;
  repeat (rewrite slice_skip by (rewrite le_bytes_length; lia); rewrite le_bytes_length; cbn [Nat.sub]);
  first [rewrite slice_here by apply le_bytes_length | rewrite slice_whole by apply le_bytes_length];
  reflexivity.

Lemma header_bytes_fields h :
  slice 0 4 (header_bytes h) = le_bytes 4 (magic h) /\
  slice 4 1 (header_bytes h) = le_bytes 1 (version h) /\
  slice 5 1 (header_bytes h) = le_bytes 1 (checksum_kind h) /\
  slice 6 2 (header_bytes h) = le_bytes 2 (header_size h) /\
  slice 8 4 (header_bytes h) = le_bytes 4 (payload_size h) /\
  slice 12 4 (header_bytes h) = le_bytes 4 (checksum h) /\
  slice 16 8 (header_bytes h) = le_bytes 8 (sequence h) /\
  slice 24 8 (header_bytes h) = le_bytes 8 (u64 (timestamp_ns h)).
Proof. repeat split; read_field. Qed.

Lemma header_round_trip h : header_wf h -> header_of_bytes (header_bytes h) = h.
Proof.
  intros [H1 H2 H3 H4 H5 H6 H7 H8].
  destruct (header_bytes_fields h) as (E1 & E2 & E3 & E4 & E5 & E6 & E7 & E8).
  unfold header_of_bytes. rewrite E1, E2, E3, E4, E5, E6, E7, E8.
  rewrite !le_value_bytes_u by (assumption || apply u64_range).
  assert (Hts : i64 (u64 (timestamp_ns h)) = timestamp_ns h).
  { unfold is_i64, I64_MIN, I64_MAX in H8. unfold i64, u64. mod_lia. }
  rewrite Hts. by destruct h.
Qed.

Lemma fresh_header_wf size seq ts kind : is_u 64 seq -> is_i64 ts -> header_wf (fresh_header size seq ts kind).
Proof.
  intros Hseq Hts. constructor; cbn; auto with pc; try (unfold is_u, is_byte, kPacketMagic, kPacketVersion; lia).
  destruct kind; unfold is_byte; cbn; lia.
Qed.

Lemma set_checksum_wf h c : header_wf h -> is_u 32 c -> header_wf (set_checksum h c).
Proof. intros [] Hc. by constructor. Qed.

(** Reading a header and writing it back is the identity on 32 bytes. *)
Lemma split_bytes n m (bs : bytes) : slice n m bs ++ drop (n + m) bs = drop n bs.
Proof. unfold slice. by rewrite <- drop_drop, take_drop. Qed.

Lemma header_bytes_of_bytes bs :
  all_bytes bs -> length bs = 32%nat -> header_bytes (header_of_bytes bs) = bs.
Proof.
  intros Hb Hlen. unfold header_bytes, header_of_bytes. cbn [magic version checksum_kind
    header_size payload_size Packet.checksum sequence timestamp_ns].
  assert (Hf : forall off n, (off + n <= 32)%nat -> le_bytes n (le_value (slice off n bs)) = slice off n bs).
  { intros off n H. rewrite <- (slice_length off n bs) at 1 by lia.
    apply le_bytes_value. by apply slice_bytes. }
  assert (Hts : u64 (i64 (le_value (slice 24 8 bs))) = le_value (slice 24 8 bs)).
  { assert (Hr : is_u 64 (le_value (slice 24 8 bs))).
    { pose proof (le_value_range (slice 24 8 bs) (slice_bytes _ _ _ Hb)) as Hr.
      rewrite slice_length in Hr by lia. exact Hr. }
    unfold is_u in Hr. unfold i64, u64. mod_lia. }
  rewrite Hts, !Hf by lia.
  assert (Hend : slice 24 8 bs = drop 24 bs).
  { unfold slice. apply firstn_all2. rewrite length_drop. lia. }
  rewrite Hend, (split_bytes 16 8), (split_bytes 12 4), (split_bytes 8 4), (split_bytes 6 2),
    (split_bytes 5 1), (split_bytes 4 1), (split_bytes 0 4). by rewrite drop_0.
Qed.

Lemma header_of_bytes_wf bs : all_bytes bs -> length bs = 32%nat -> header_wf (header_of_bytes bs).
Proof.
  intros Hb Hlen.
  assert (Hf : forall off n, (off + n <= 32)%nat -> is_u (8 * Z.of_nat n) (le_value (slice off n bs))).
  { intros off n H. pose proof (le_value_range (slice off n bs) (slice_bytes _ _ _ Hb)) as Hr.
    rewrite slice_length in Hr by lia. unfold is_u. by rewrite Z.pow_mul_r by lia. }
  constructor; cbn; try apply i64_range.
  - apply (Hf 0%nat 4%nat). lia.
  - apply (Hf 4%nat 1%nat). lia.
  - apply (Hf 5%nat 1%nat). lia.
  - apply (Hf 6%nat 2%nat). lia.
  - apply (Hf 8%nat 4%nat). lia.
  - apply (Hf 12%nat 4%nat). lia.
  - apply (Hf 16%nat 8%nat). lia.
Qed.

(** The record with its checksum field zeroed: what the checksum covers. *)
Definition zero_checksum (record : bytes) : bytes := overwrite 12 [0; 0; 0; 0] record.

Lemma header_bytes_set_checksum h c :
  header_bytes (set_checksum h c) = overwrite 12 (le_bytes 4 c) (header_bytes h).
Proof.
  unfold header_bytes, set_checksum. cbn [magic version checksum_kind header_size payload_size
    Packet.checksum sequence timestamp_ns].
  do 5 (rewrite overwrite_app_r by (rewrite le_bytes_length; lia); rewrite le_bytes_length; cbn [Nat.sub];
    f_equal).
Qed.

Lemma memcpy_into_Some off src record :
  (off + length src <= length record)%nat -> memcpy_into off src record = Some (overwrite off src record).
Proof. intros H. unfold memcpy_into. by rewrite decide_True. Qed.

Lemma record_split record : (32 <= length record)%nat -> all_bytes record ->
  record = header_bytes (header_of_bytes (take 32 record)) ++ drop 32 record.
Proof.
  intros Hlen Hb. rewrite header_bytes_of_bytes; [by rewrite take_drop | by apply Forall_take |].
  rewrite length_take. lia.
Qed.

Lemma read_header_app h payload : header_wf h -> read_header (header_bytes h ++ payload) = Some h.
Proof.
  intros Hw. unfold read_header. rewrite decide_True by (rewrite length_app, header_bytes_length; lia).
  by rewrite take_app_length' , header_round_trip by (done || apply header_bytes_length).
Qed.

Lemma write_header_app old payload seq ts kind : length old = 32%nat ->
  write_header (old ++ payload) seq ts kind
  = Some (header_bytes (fresh_header (32 + Z.of_nat (length payload)) seq ts kind) ++ payload).
Proof.
  intros Hold. unfold write_header. rewrite memcpy_into_Some
    by (rewrite header_bytes_length, length_app; lia).
  rewrite overwrite_prefix by (rewrite header_bytes_length; done).
  rewrite length_app, Hold, Nat2Z.inj_add. done.
Qed.

Lemma patch_checksum_app h payload c :
  patch_checksum (header_bytes h ++ payload) c = Some (header_bytes (set_checksum h c) ++ payload).
Proof.
  unfold patch_checksum. rewrite memcpy_into_Some
    by (rewrite le_bytes_length, length_app, header_bytes_length; lia).
  by rewrite overwrite_app_l, <- header_bytes_set_checksum
    by (rewrite le_bytes_length, header_bytes_length; lia).
Qed.

Section Sealing.
Context (c : IChecksum) `{!ChecksumLaws c}.

Lemma seal_packet_app old payload seq ts : length old = 32%nat ->
  let h := fresh_header (32 + Z.of_nat (length payload)) seq ts (ck_kind c) in
  seal_packet (old ++ payload) seq ts c
  = Some (header_bytes (set_checksum h (compute c (header_bytes h ++ payload))) ++ payload).
Proof.
  intros Hold h. unfold seal_packet. rewrite write_header_app by done. cbn [mbind option_bind].
  apply patch_checksum_app.
Qed.

Lemma packet_checksum_app h payload : header_wf h -> all_bytes payload ->
  packet_checksum (header_bytes h ++ payload) c
  = Some (compute c (header_bytes (set_checksum h 0) ++ payload)).
Proof.
  intros Hw Hp. unfold packet_checksum. rewrite read_header_app by done. cbn [mbind option_bind].
  rewrite drop_app_length' by (by rewrite header_bytes_length).
  unfold compute. rewrite cl_update_app by (auto using cl_begin_range with pc). done.
Qed.

Lemma compute_range data : all_bytes data -> is_u 32 (compute c data).
Proof. intros Hd. apply cl_finish_range, cl_update_range, Hd. apply cl_begin_range. Qed.

Lemma packet_checksum_zeroed record : all_bytes record -> (32 <= length record)%nat ->
  packet_checksum record c = Some (compute c (zero_checksum record)).
Proof.
  intros Hb Hlen. rewrite (record_split record Hlen Hb) at 1.
  rewrite packet_checksum_app by
    first [by apply Forall_drop | apply header_of_bytes_wf; [by apply Forall_take | rewrite length_take; lia]].
  do 2 f_equal. rewrite header_bytes_set_checksum. change (le_bytes 4 0) with [0; 0; 0; 0].
  rewrite <- overwrite_app_l by (rewrite header_bytes_length; cbn; lia).
  by rewrite <- record_split.
Qed.

(** Sealing succeeds, and the sealed record verifies. *)
Lemma seal_packet_sealed record seq ts :
  all_bytes record -> (32 <= length record)%nat -> Z.of_nat (length record) < 2 ^ 32 -> is_u 64 seq -> is_i64 ts ->
  exists h, seal_packet record seq ts c = Some (header_bytes h ++ drop 32 record) /\ header_wf h /\
    packet_checksum (header_bytes h ++ drop 32 record) c = Some (checksum h) /\
    magic h = kPacketMagic /\ version h = kPacketVersion /\ checksum_kind h = kind_code (ck_kind c) /\
    header_size h = 32 /\ payload_size h = Z.of_nat (length record) - 32 /\
    sequence h = seq /\ timestamp_ns h = ts.
Proof.
  intros Hb Hlen Hsize Hseq Hts. set (payload := drop 32 record).
  assert (Hp : all_bytes payload) by (by apply Forall_drop).
  assert (Hpl : length record = (32 + length payload)%nat) by (unfold payload; rewrite length_drop; lia).
  set (h := fresh_header (32 + Z.of_nat (length payload)) seq ts (ck_kind c)).
  assert (Hh : header_wf h) by (by apply fresh_header_wf).
  set (sum := compute c (header_bytes h ++ payload)).
  assert (Hsum : is_u 32 sum) by (apply compute_range; apply Forall_app; auto with pc).
  assert (Hw : header_wf (set_checksum h sum)) by (by apply set_checksum_wf).
  exists (set_checksum h sum). rewrite <- (take_drop 32 record) at 1. fold payload.
  rewrite seal_packet_app, packet_checksum_app by (done || rewrite length_take; lia).
  split_and!; try done. cbn. rewrite (u64_small (_ - _)), u32_small by (unfold is_u, kHeaderSize; lia).
  unfold kHeaderSize. lia.
Qed.

Lemma compute_burst pre w w' post :
  all_bytes pre -> all_bytes w -> all_bytes w' -> all_bytes post ->
  length w = length w' -> (length w <= 4)%nat ->
  compute c (pre ++ w ++ post) = compute c (pre ++ w' ++ post) -> w = w'.
Proof.
  intros ????? H4 Heq. apply cl_finish_inj in Heq.
  apply (cl_update_burst (ck_begin c) pre w w' post); auto using cl_begin_range.
Qed.
End Sealing.

Lemma zero_checksum_bytes record : all_bytes record -> all_bytes (zero_checksum record).
Proof. intros H. apply overwrite_bytes; [repeat constructor; unfold is_byte; lia | done]. Qed.

(** A window that does not touch the checksum field survives the zeroing. *)
Lemma zero_checksum_window (pre w post : bytes) :
  (length pre + length w <= 12 \/ 16 <= length pre)%nat ->
  exists pre' post', forall x : bytes, length x = length w ->
    zero_checksum (pre ++ x ++ post) = pre' ++ x ++ post' /\
    (all_bytes pre -> all_bytes pre') /\ (all_bytes post -> all_bytes post').
Proof.
  assert (H0 : all_bytes [0; 0; 0; 0]) by (repeat constructor; unfold is_byte; lia).
  intros [H | H].
  - exists pre, (overwrite (12 - length pre - length w) [0; 0; 0; 0] post). intros x Hx.
    unfold zero_checksum. rewrite !overwrite_app_r by lia. rewrite Hx. auto using overwrite_bytes.
  - exists (overwrite 12 [0; 0; 0; 0] pre), post. intros x Hx.
    unfold zero_checksum. rewrite overwrite_app_l by (cbn; lia). auto using overwrite_bytes.
Qed.

Lemma zeroed_burst c `{!ChecksumLaws c} (pre w w' post : bytes) :
  all_bytes pre -> all_bytes w -> all_bytes w' -> all_bytes post ->
  length w = length w' -> (length w <= 4)%nat -> (length pre + length w <= 12 \/ 16 <= length pre)%nat ->
  compute c (zero_checksum (pre ++ w ++ post)) = compute c (zero_checksum (pre ++ w' ++ post)) -> w = w'.
Proof.
  intros Hpre Hw Hw' Hpost Hlen H4 Hwin Heq.
  destruct (zero_checksum_window pre w post Hwin) as (pre' & post' & Hz).
  destruct (Hz w eq_refl) as (Ez & Hpre' & Hpost'). destruct (Hz w' (eq_sym Hlen)) as (Ez' & _).
  rewrite Ez, Ez' in Heq. apply (compute_burst c pre' w w' post'); auto.
Qed.

(** ** Properties *)

(** The header codec is a bijection between well-formed headers and
    32-byte strings: [memcpy] out of a record and back loses nothing. *)
Theorem header_codec_bijective h bs :
  header_wf h -> all_bytes bs -> length bs = 32%nat ->
  header_of_bytes (header_bytes h) = h /\ length (header_bytes h) = 32%nat /\
  header_bytes (header_of_bytes bs) = bs /\ header_wf (header_of_bytes bs).
Proof.
  intros Hw Hb Hlen. auto using header_round_trip, header_bytes_length, header_bytes_of_bytes,
    header_of_bytes_wf.
Qed.

Definition sample_header : PacketHeader := {|
  magic := kPacketMagic; version := 2; checksum_kind := 1; header_size := 32; payload_size := 7;
  checksum := 0xDEADBEEF; sequence := 2 ^ 40 + 5; timestamp_ns := -3 |}.

Lemma header_codec_bijective_witness :
  header_of_bytes (header_bytes sample_header) = sample_header.
Proof.
  apply (header_codec_bijective sample_header (header_bytes sample_header)).
  - constructor; concrete_range.
  - apply header_bytes_bytes.
  - reflexivity.
Defined.

(** [packet_checksum] is the checksum of the whole record with the
    checksum field zeroed, as the format documents, although the code hashes
    a private copy of the header and then the payload in place. *)
Theorem packet_checksum_covers_record m k c record :
  CpuSpec m -> registry_find m k = Some c -> all_bytes record -> (32 <= length record)%nat ->
  packet_checksum record c = Some (compute c (zero_checksum record)).
Proof.
  intros Hm Hfind Hb Hlen. pose proof (registry_laws m k c Hfind). by apply packet_checksum_zeroed.
Qed.

Lemma packet_checksum_covers_record_witness :
  packet_checksum (repeat 9 40) Crc32 = Some (compute Crc32 (zero_checksum (repeat 9 40))).
Proof.
  apply (packet_checksum_covers_record sse42 1 Crc32 (repeat 9 40)); try done; by_decide.
Defined.

(** C13. Sealing round trip: sealing a record of at least 32 bytes succeeds,
    keeps its length and payload, writes the documented header fields, and
    the recomputed checksum equals the one stored in the header. *)
Theorem sealed_packet_verifies m k c record seq ts :
  CpuSpec m -> registry_find m k = Some c -> all_bytes record ->
  (32 <= length record)%nat -> Z.of_nat (length record) < 2 ^ 32 -> is_u 64 seq -> is_i64 ts ->
  exists sealed h, seal_packet record seq ts c = Some sealed /\ read_header sealed = Some h /\
    packet_checksum sealed c = Some (checksum h) /\
    length sealed = length record /\ drop 32 sealed = drop 32 record /\
    magic h = kPacketMagic /\ version h = kPacketVersion /\ checksum_kind h = k /\
    header_size h = 32 /\ payload_size h = Z.of_nat (length record) - 32 /\
    sequence h = seq /\ timestamp_ns h = ts.
Proof.
  intros Hm Hfind Hb Hlen Hsize Hseq Hts. pose proof (registry_laws m k c Hfind) as Hl.
  destruct (seal_packet_sealed c record seq ts Hb Hlen Hsize Hseq Hts)
    as (h & Hseal & Hw & Hsum & Hmagic & Hver & Hkind & Hhs & Hps & Hs & Ht).
  rewrite (rl_kind k c Hfind) in Hkind. exists (header_bytes h ++ drop 32 record), h.
  rewrite read_header_app by done. rewrite length_app, header_bytes_length, length_drop.
  rewrite drop_app_length' by (by rewrite header_bytes_length). split_and!; try done. lia.
Qed.

Lemma sealed_packet_verifies_witness :
  exists sealed h, seal_packet (repeat 5 40) 3 1000 Crc32 = Some sealed /\ read_header sealed = Some h /\
    packet_checksum sealed Crc32 = Some (checksum h) /\ sequence h = 3.
Proof.
  destruct (sealed_packet_verifies sse42 1 Crc32 (repeat 5 40) 3 1000) as (r & h & H); try done; try by_decide.
  exists r, h. tauto.
Defined.

(** A damaged packet is detected: replacing up to four consecutive bytes
    of a sealed record, anywhere before or after the checksum field, makes
    the recomputed checksum differ from the stored one. *)
Theorem damage_is_detected m k c (pre w w' post : bytes) stored :
  CpuSpec m -> registry_find m k = Some c ->
  all_bytes pre -> all_bytes w -> all_bytes w' -> all_bytes post ->
  length w = length w' -> (length w <= 4)%nat -> w <> w' ->
  (length pre + length w <= 12 \/ 16 <= length pre)%nat ->
  (32 <= length (pre ++ w ++ post))%nat ->
  packet_checksum (pre ++ w ++ post) c = Some stored ->
  packet_checksum (pre ++ w' ++ post) c <> Some stored.
Proof.
  intros Hm Hfind Hpre Hw Hw' Hpost Hlen H4 Hne Hwin H32. pose proof (registry_laws m k c Hfind).
  rewrite !packet_checksum_zeroed by
    (rewrite ?Forall_app; auto; rewrite !length_app in *; lia).
  intros [= <-] [= Heq]. apply Hne. symmetry in Heq. by apply (zeroed_burst c pre w w' post).
Qed.

Lemma damage_is_detected_witness :
  packet_checksum (repeat 5 36 ++ [2; 1] ++ [8]) Crc32 <> Some 2821676574.
Proof.
  apply (damage_is_detected sse42 1 Crc32 (repeat 5 36) [1; 2] [2; 1] [8]); try done; by_decide.
Defined.
