(* ===== verification/Memory.v ===== *)
(** The mirrored data area: [MirroredShmRegion::data()].

    [mem] is the list of physical bytes of the data area, of length [N].  The
    region maps the same pages twice, back to back, so virtual offsets
    [0 .. 2N) are accessible and offset [v >= N] is the byte [v - N]
    ([ShmRegion.v] derives this from the calls of [MirroredShmRegion::map]).
    [None] is an access outside the mapping, i.e. a fault. *)
From Stdlib Require Import ZArith Lia.
From stdpp Require Import base numbers list strings.
From S2P Require Import Prelude.

Definition mirror_index (data_bytes v : Z) : option Z :=
  if decide (0 <= v < data_bytes) then Some v
  else if decide (data_bytes <= v < 2 * data_bytes) then Some (v - data_bytes)
  else None.

Definition area (mem : bytes) : Z := Z.of_nat (length mem).

Definition load8 (mem : bytes) (v : Z) : option Z :=
  i ← mirror_index (area mem) v; mem !! Z.to_nat i.

Definition store8 (mem : bytes) (v b : Z) : option bytes :=
  i ← mirror_index (area mem) v; Some (<[Z.to_nat i := b]> mem).

(** [memcpy] out of and into the data area. *)
Fixpoint load_bytes (mem : bytes) (v : Z) (n : nat) : option bytes :=
  match n with
  | O => Some []
  | S n => b ← load8 mem v; bs ← load_bytes mem (v + 1) n; Some (b :: bs)
  end.

Fixpoint store_bytes (mem : bytes) (v : Z) (bs : bytes) : option bytes :=
  match bs with
  | [] => Some mem
  | b :: bs => mem ← store8 mem v b; store_bytes mem (v + 1) bs
  end.

(** ** The data area as a window on an infinite stream

    The ring's counters are offsets into an infinite byte stream; position
    [c] of the stream is the physical byte [c mod N]. *)

Definition at_pos (mem : bytes) (c : Z) : Z := mem !!! Z.to_nat (c mod area mem).

Definition stream (mem : bytes) (c : Z) (n : nat) : bytes :=
  map (fun i => at_pos mem (c + Z.of_nat i)) (seq 0 n).

Lemma stream_length mem c n : length (stream mem c n) = n.
Proof. unfold stream. by rewrite length_map, length_seq. Qed.

Lemma stream_S mem c n : stream mem c (S n) = at_pos mem c :: stream mem (c + 1) n.
Proof.
  unfold stream. cbn [seq map]. f_equal; [f_equal; lia|].
  rewrite <- seq_shift, map_map. apply map_ext. intros i. f_equal. lia.
Qed.

Lemma stream_app mem c n m : stream mem c (n + m) = stream mem c n ++ stream mem (c + Z.of_nat n) m.
Proof.
  revert c. induction n as [|n IH]; intros c; [cbn; by rewrite Z.add_0_r|].
  cbn [Nat.add]. rewrite !stream_S, IH. cbn [app]. do 3 f_equal. lia.
Qed.

Lemma stream_ext mem mem' c n :
  (forall c', c <= c' < c + Z.of_nat n -> at_pos mem' c' = at_pos mem c') -> stream mem' c n = stream mem c n.
Proof. intros H. apply map_ext_in. intros i Hi. apply in_seq in Hi. apply H. lia. Qed.

Lemma at_pos_byte mem c : all_bytes mem -> is_byte (at_pos mem c).
Proof.
  intros Hm. unfold at_pos. rewrite list_lookup_total_alt.
  destruct (mem !! Z.to_nat (c mod area mem)) as [b|] eqn:Hl; cbn; [|unfold is_byte; cbn; lia].
  by apply (Forall_lookup_1 _ _ _ _ Hm Hl).
Qed.

Lemma stream_bytes mem c n : all_bytes mem -> all_bytes (stream mem c n).
Proof. intros Hm. apply Forall_map, Forall_forall. intros i _. by apply at_pos_byte. Qed.

Section Access.
Context (mem : bytes) (Hpos : 0 < area mem).

Lemma mirror_index_mod v c :
  0 <= v < 2 * area mem -> v mod area mem = c mod area mem ->
  mirror_index (area mem) v = Some (c mod area mem).
Proof.
  intros Hv Hmod. rewrite <- Hmod. unfold mirror_index. destruct (decide (0 <= v < area mem)).
  - f_equal. symmetry. by apply Z.mod_small.
  - rewrite decide_True by lia. f_equal.
    replace v with (v - area mem + 1 * area mem) at 2 by lia.
    rewrite Z.mod_add, Z.mod_small; lia.
Qed.

Lemma pos_in_range c : (Z.to_nat (c mod area mem) < length mem)%nat.
Proof. pose proof (Z.mod_pos_bound c (area mem) Hpos). unfold area in *. lia. Qed.

Lemma load8_at_pos v c :
  0 <= v < 2 * area mem -> v mod area mem = c mod area mem -> load8 mem v = Some (at_pos mem c).
Proof.
  intros Hv Hmod. unfold load8. rewrite (mirror_index_mod v c) by done. cbn [mbind option_bind].
  unfold at_pos. apply list_lookup_lookup_total_lt, pos_in_range.
Qed.

Lemma at_pos_period c : at_pos mem (c + area mem) = at_pos mem c.
Proof.
  unfold at_pos. pose proof (Z.mod_add c 1 (area mem) ltac:(lia)) as Hmod.
  rewrite Z.mul_1_l in Hmod. by rewrite Hmod.
Qed.

Lemma store8_spec v c b :
  0 <= v < 2 * area mem -> v mod area mem = c mod area mem ->
  exists mem', store8 mem v b = Some mem' /\ area mem' = area mem /\
    (is_byte b -> all_bytes mem -> all_bytes mem') /\
    forall c', c <= c' < c + area mem -> at_pos mem' c' = if decide (c' = c) then b else at_pos mem c'.
Proof.
  intros Hv Hmod. unfold store8. rewrite (mirror_index_mod v c) by done. cbn [mbind option_bind].
  eexists. split; [done|]. assert (Ha : forall i, area (<[i := b]> mem) = area mem).
  { intros i. unfold area. by rewrite length_insert. }
  split; [apply Ha|]. split; [intros; by apply Forall_insert|].
  intros c' Hc'. unfold at_pos. rewrite Ha. case_decide as Heq.
  - subst c'. apply list_lookup_total_insert_eq, pos_in_range.
  - apply list_lookup_total_insert_ne. intros Hidx. apply Heq.
    pose proof (Z.mod_pos_bound c (area mem) Hpos). pose proof (Z.mod_pos_bound c' (area mem) Hpos).
    apply Z2Nat.inj in Hidx; [|lia..].
    assert (Hd : (c' - c) mod area mem = 0) by (rewrite Zminus_mod, Hidx, Z.sub_diag; apply Z.mod_0_l; lia).
    rewrite Z.mod_small in Hd by lia. lia.
Qed.
End Access.

Lemma load_bytes_stream mem v c n :
  0 < area mem -> 0 <= v -> v + Z.of_nat n <= 2 * area mem -> v mod area mem = c mod area mem ->
  load_bytes mem v n = Some (stream mem c n).
Proof.
  intros Hpos. revert v c. induction n as [|n IH]; intros v c Hv Hend Hmod; [done|].
  cbn [load_bytes]. rewrite (load8_at_pos mem Hpos v c) by (done || lia). cbn [mbind option_bind].
  rewrite (IH (v + 1) (c + 1)) by (lia || rewrite Zplus_mod, Hmod, <- Zplus_mod; done).
  cbn [mbind option_bind]. by rewrite stream_S.
Qed.

(** Storing [n <= N] bytes at stream position [c] changes exactly the stream
    window [c .. c + n) and nothing else up to [c + N). *)
Lemma store_bytes_spec mem v c bs :
  0 < area mem -> 0 <= v -> v + Z.of_nat (length bs) <= 2 * area mem ->
  Z.of_nat (length bs) <= area mem -> v mod area mem = c mod area mem ->
  exists mem', store_bytes mem v bs = Some mem' /\ area mem' = area mem /\
    (all_bytes bs -> all_bytes mem -> all_bytes mem') /\
    stream mem' c (length bs) = bs /\
    forall c', c + Z.of_nat (length bs) <= c' < c + area mem -> at_pos mem' c' = at_pos mem c'.
Proof.
  revert mem v c. induction bs as [|b bs IH]; intros mem v c Hpos Hv Hend Hlen Hmod.
  { exists mem. cbn. auto. }
  cbn [length] in *. destruct (store8_spec mem Hpos v c b ltac:(lia) Hmod) as (m1 & E1 & A1 & B1 & S1).
  destruct (IH m1 (v + 1) (c + 1)) as (m2 & E2 & A2 & B2 & S2 & P2); rewrite ?A1; try lia.
  { by rewrite Zplus_mod, Hmod, <- Zplus_mod. }
  rewrite A1 in *. exists m2. cbn [store_bytes]. rewrite E1. cbn [mbind option_bind].
  split_and!; [done | congruence | | | ].
  - rewrite !Forall_cons. intros [Hb Hbs] Hm. auto.
  - rewrite stream_S, S2. f_equal. rewrite <- at_pos_period, A2 by lia.
    rewrite P2, <- A1, at_pos_period, S1 by lia. by rewrite decide_True.
  - intros c' Hc'. rewrite P2, S1 by lia. rewrite decide_False by lia. done.
Qed.

(** Re-reading a window after a store elsewhere in the ring. *)
Lemma stream_preserved mem mem' c d n m :
  (forall c', c + Z.of_nat n <= c' < c + area mem -> at_pos mem' c' = at_pos mem c') ->
  area mem' = area mem -> 0 < area mem ->
  d + Z.of_nat m <= c -> c + Z.of_nat n <= d + area mem ->
  stream mem' d m = stream mem d m.
Proof.
  intros Hp Ha Hpos Hdc Hcap. apply stream_ext. intros c' Hc'.
  rewrite <- (at_pos_period mem'), <- (at_pos_period mem), Ha by lia. apply Hp. lia.
Qed.
