(* ===== verification/RingBuffer.v ===== *)
(** The ring: [common/include/pc/ring_buffer.hpp], [common/src/ring_buffer.cpp].

    The two ends work on a shared control block and a shared data area.  An
    operation that loads a counter owned by the other side takes the loaded
    value as an argument ([tail_load], [head_load]): which value an acquire
    load may return is fixed by the memory model, in [RingProtocol.v].  An
    operation that stores a counter returns the stored value.  Spans are pairs
    (virtual offset into the mirrored data area, size); [None] is a fault. *)
From Stdlib Require Import ZArith Lia.
From stdpp Require Import base numbers list strings.
From S2P Require Import Prelude Memory.

Definition kRingMagic : Z := 0x42524350.
Definition kRingVersion : Z := 1.

Inductive RingState := Initializing | Ready | ProducerFinished.

Definition state_code (s : RingState) : Z :=
  match s with Initializing => 0 | Ready => 1 | ProducerFinished => 2 end.

Record RingControl := {
  rc_magic : Z;
  rc_version : Z;
  rc_capacity : Z;
  rc_state : Z;
  rc_producer_pid : Z;
  rc_consumer_pid : Z;
  rc_head : Z;
  rc_tail : Z;
}.

(** [sizeof(RecordLength)]. *)
Definition kRecordPrefixSize : Z := 4.

Definition initialize_ring_control (control : RingControl) (capacity producer_pid : Z) : RingControl := {|
  rc_magic := kRingMagic;
  rc_version := kRingVersion;
  rc_capacity := capacity;
  rc_producer_pid := producer_pid;
  rc_consumer_pid := 0;
  rc_head := 0;
  rc_tail := 0;
  rc_state := state_code Ready;
|}.

Definition ring_control_ready (control : RingControl) : bool :=
  if negb (Z.eqb (rc_state control) (state_code Ready)) then false
  else Z.eqb (rc_magic control) kRingMagic && Z.eqb (rc_version control) kRingVersion
       && negb (Z.eqb (rc_capacity control) 0)
       && Z.eqb (rc_capacity control &&& u64 (rc_capacity control - 1)) 0.

(** ** Producer end *)

Record RingProducer := {
  p_capacity : Z;
  p_mask : Z;
  p_head : Z;
  p_cached_tail : Z;
  p_pending : Z;
}.

Definition new_producer (capacity head_load tail_load : Z) : RingProducer := {|
  p_capacity := capacity; p_mask := u64 (capacity - 1);
  p_head := head_load; p_cached_tail := tail_load; p_pending := 0 |}.

Definition set_cached_tail (p : RingProducer) (t : Z) : RingProducer := {|
  p_capacity := p_capacity p; p_mask := p_mask p; p_head := p_head p;
  p_cached_tail := t; p_pending := p_pending p |}.

Definition set_p_pending (p : RingProducer) (n : Z) : RingProducer := {|
  p_capacity := p_capacity p; p_mask := p_mask p; p_head := p_head p;
  p_cached_tail := p_cached_tail p; p_pending := n |}.

Definition max_record_size (p : RingProducer) : Z :=
  let by_capacity := u64 (p_capacity p - kRecordPrefixSize) in
  let by_prefix := U32_MAX in
  if Z.ltb by_capacity by_prefix then by_capacity else by_prefix.

(** [capacity_ - (head_ - cached_tail_) < needed]. *)
Definition lacks_space (p : RingProducer) (needed : Z) : bool :=
  Z.ltb (u64 (p_capacity p - u64 (p_head p - p_cached_tail p))) needed.

(** Whether [try_reserve(bytes)] executes the acquire load of [tail]. *)
Definition reserve_loads_tail (p : RingProducer) (size : Z) : bool :=
  Z.leb size (max_record_size p) && lacks_space p (u64 (kRecordPrefixSize + size)).

Definition try_reserve (p : RingProducer) (tail_load : Z) (mem : bytes) (size : Z)
    : option (option (Z * Z) * RingProducer * bytes) :=
  if Z.ltb (max_record_size p) size then Some (None, p, mem)
  else
    let needed := u64 (kRecordPrefixSize + size) in
    let p := if lacks_space p needed then set_cached_tail p tail_load else p in
    if lacks_space p needed then Some (None, p, mem)
    else
      let offset := p_head p &&& p_mask p in
      let length := u32 size in
      mem ← store_bytes mem offset (le_bytes 4 length);
      Some (Some (offset + kRecordPrefixSize, size), set_p_pending p needed, mem).

(** [commit]: the new producer and the value stored in [head], if any. *)
Definition commit (p : RingProducer) : RingProducer * option Z :=
  if Z.eqb (p_pending p) 0 then (p, None)
  else
    let head := u64 (p_head p + p_pending p) in
    ({| p_capacity := p_capacity p; p_mask := p_mask p; p_head := head;
        p_cached_tail := p_cached_tail p; p_pending := 0 |}, Some head).

Definition producer_used (p : RingProducer) (tail_load : Z) : Z := u64 (p_head p - tail_load).

(** ** Consumer end *)

Record RingConsumer := {
  c_capacity : Z;
  c_mask : Z;
  c_tail : Z;
  c_cached_head : Z;
  c_pending : Z;
  c_corrupted : bool;
}.

Definition new_consumer (capacity tail_load head_load : Z) : RingConsumer := {|
  c_capacity := capacity; c_mask := u64 (capacity - 1);
  c_tail := tail_load; c_cached_head := head_load; c_pending := 0; c_corrupted := false |}.

Definition set_cached_head (c : RingConsumer) (h : Z) : RingConsumer := {|
  c_capacity := c_capacity c; c_mask := c_mask c; c_tail := c_tail c;
  c_cached_head := h; c_pending := c_pending c; c_corrupted := c_corrupted c |}.

Definition set_c_pending (c : RingConsumer) (n : Z) : RingConsumer := {|
  c_capacity := c_capacity c; c_mask := c_mask c; c_tail := c_tail c;
  c_cached_head := c_cached_head c; c_pending := n; c_corrupted := c_corrupted c |}.

Definition set_corrupted (c : RingConsumer) : RingConsumer := {|
  c_capacity := c_capacity c; c_mask := c_mask c; c_tail := c_tail c;
  c_cached_head := c_cached_head c; c_pending := c_pending c; c_corrupted := true |}.

(** Whether [try_peek()] executes the acquire load of [head]. *)
Definition peek_loads_head (c : RingConsumer) : bool :=
  negb (c_corrupted c) && Z.eqb (c_pending c) 0 && Z.eqb (c_cached_head c) (c_tail c).

Definition try_peek (c : RingConsumer) (head_load : Z) (mem : bytes)
    : option (option (Z * Z) * RingConsumer) :=
  if c_corrupted c then Some (None, c)
  else
    let offset := c_tail c &&& c_mask c in
    if negb (Z.eqb (c_pending c) 0) then
      Some (Some (offset + kRecordPrefixSize, u64 (c_pending c - kRecordPrefixSize)), c)
    else
      let c := if Z.eqb (c_cached_head c) (c_tail c) then set_cached_head c head_load else c in
      if Z.eqb (c_cached_head c) (c_tail c) then Some (None, c)
      else
        prefix ← load_bytes mem offset 4;
        let length := le_value prefix in
        let record := kRecordPrefixSize + length in
        if Z.ltb (u64 (c_cached_head c - c_tail c)) record || Z.ltb (c_capacity c) record
        then Some (None, set_corrupted c)
        else Some (Some (offset + kRecordPrefixSize, length), set_c_pending c record).

(** [release]: the new consumer and the value stored in [tail], if any. *)
Definition release (c : RingConsumer) : RingConsumer * option Z :=
  if Z.eqb (c_pending c) 0 then (c, None)
  else
    let tail := u64 (c_tail c + c_pending c) in
    ({| c_capacity := c_capacity c; c_mask := c_mask c; c_tail := tail;
        c_cached_head := c_cached_head c; c_pending := 0; c_corrupted := c_corrupted c |}, Some tail).

Definition consumer_used (c : RingConsumer) (head_load : Z) : Z := u64 (head_load - c_tail c).

(** ** Properties *)

(** The readiness test accepts a control block exactly when it is in the
    [Ready] state with the right magic and version and a capacity that is a
    power of two; the block [initialize_ring_control] writes passes it, and is
    an empty ring without a consumer. *)
Theorem ready_iff control capacity pid :
  0 <= rc_capacity control < 2 ^ 64 ->
  (ring_control_ready control = true <->
   rc_state control = state_code Ready /\ rc_magic control = kRingMagic /\
   rc_version control = kRingVersion /\ exists k, 0 <= k /\ rc_capacity control = 2 ^ k) /\
  (0 < capacity < 2 ^ 64 ->
   ring_control_ready (initialize_ring_control control capacity pid)
   = bool_decide (capacity &&& (capacity - 1) = 0)) /\
  let fresh := initialize_ring_control control capacity pid in
  rc_head fresh = 0 /\ rc_tail fresh = 0 /\ rc_consumer_pid fresh = 0 /\ rc_producer_pid fresh = pid.
Proof.
  intros Hcap. split; [|split; [|done]].
  - unfold ring_control_ready. destruct (Z.eqb_spec (rc_state control) (state_code Ready)) as [Hs | Hs];
      cbn [negb]; [|by split; [|intros []]].
    rewrite !andb_true_iff, negb_true_iff, !Z.eqb_eq, Z.eqb_neq. split.
    + intros (((Hm & Hv) & Hne) & H0). rewrite u64_small in H0 by (unfold is_u; lia).
      apply land_pred_pow2 in H0; [done | lia].
    + intros (_ & Hm & Hv & k & Hk & Ek). pose proof (Z.pow_pos_nonneg 2 k ltac:(lia) Hk).
      rewrite u64_small by (unfold is_u; lia). split_and!; try done; [lia|].
      apply land_pred_pow2; [lia | eauto].
  - intros Hc. unfold ring_control_ready, initialize_ring_control. cbn [rc_state rc_magic rc_version rc_capacity].
    rewrite u64_small by (unfold is_u; lia). rewrite !Z.eqb_refl, (proj2 (Z.eqb_neq capacity 0)) by lia. cbn.
    case_bool_decide as H0; [by rewrite H0 | by apply Z.eqb_neq].
Qed.

Lemma ready_iff_witness :
  ring_control_ready (initialize_ring_control (Build_RingControl 0 0 0 0 0 0 0 0) 4096 77) = true.
Proof.
  refine (proj1 (proj2 (ready_iff (Build_RingControl 0 0 0 0 0 0 0 0) 4096 77 _)) _); by_decide.
Defined.

(** C25. Containment: whatever the control block and the data area contain
    (a foreign or damaged ring), a fresh [try_peek] either refuses or returns
    a span that lies inside the mirrored mapping; it never faults itself. *)
Theorem peek_contained k c h mem :
  2 <= k <= 62 -> area mem = 2 ^ k -> all_bytes mem ->
  c_capacity c = 2 ^ k -> c_mask c = 2 ^ k - 1 -> c_pending c = 0 ->
  exists span c', try_peek c h mem = Some (span, c') /\
    (c_corrupted c = true -> span = None) /\
    (c_corrupted c' = true -> span = None) /\
    forall off len, span = Some (off, len) -> 0 <= off /\ 0 <= len /\ off + len <= 2 * area mem.
Proof.
  intros Hk Ha Hm Hcap Hmask Hp. unfold try_peek. rewrite Hp.
  destruct (c_corrupted c) eqn:Hcor; [by exists None, c|]. cbn [negb Z.eqb].
  assert (Hpos : 4 <= 2 ^ k) by (change 4 with (2 ^ 2); apply Z.pow_le_mono_r; lia).
  set (c1 := if Z.eqb (c_cached_head c) (c_tail c) then set_cached_head c h else c).
  assert (Hc1 : c_capacity c1 = 2 ^ k /\ c_corrupted c1 = false)
    by (unfold c1; destruct (Z.eqb _ _); cbn; by rewrite Hcap).
  destruct (Z.eqb (c_cached_head c1) (c_tail c1)).
  { exists None, c1. split_and!; try done. }
  rewrite Hmask, land_pow2_mask by lia. pose proof (Z.mod_pos_bound (c_tail c) (2 ^ k) ltac:(lia)).
  rewrite (load_bytes_stream mem _ (c_tail c)) by (rewrite ?Ha, ?Z.mod_mod; lia || done). cbn [mbind option_bind].
  pose proof (le_value_range (stream mem (c_tail c) 4) (stream_bytes _ _ _ Hm)) as Hlen.
  set (length := le_value _) in *. unfold kRecordPrefixSize.
  destruct (Z.ltb (u64 _) _); cbn [orb]; [by eexists _, _|].
  destruct (Z.ltb_spec (c_capacity c1) (4 + length)) as [|Hfit]; [by eexists _, _|].
  eexists _, _. split; [done|]. split; [done|]. split; [cbn; intros Ht; destruct Hc1; congruence|].
  intros off len [= <- <-]. rewrite (proj1 Hc1) in Hfit. lia.
Qed.

Lemma peek_contained_witness :
  exists span c', try_peek (new_consumer 16 13 999) 5 (repeat 255 16) = Some (span, c') /\
    (c_corrupted c' = true -> span = None).
Proof.
  destruct (peek_contained 4 (new_consumer 16 13 999) 5 (repeat 255 16)) as (span & c' & H1 & _ & H2 & _);
    try done; try by_decide. by exists span, c'.
Defined.
