(* ===== verification/RingProtocol.v ===== *)
(** The single-producer single-consumer protocol over the ring.

    The two processes interleave the operations of [RingBuffer.v] on one data
    area.  [head] is stored only by the producer and [tail] only by the
    consumer, with release order, and loaded by the other side with acquire
    order.  An acquire load may return a stale value: [r_heads] ([r_tails]) is
    the part of the modification order of [head] ([tail]) that the consumer
    (producer) may still observe, from the last value it observed to the
    newest one; a load picks any of them, after which older ones are gone.
    The bytes of a record are plain data: [disjoint_windows] below shows that
    no reachable state lets the producer write a byte the consumer may read.

    The specification is a bounded FIFO queue of records; the protocol
    refines it. *)
From Stdlib Require Import ZArith Lia Sorted.
From stdpp Require Import base numbers list strings sorting.
From S2P Require Import Prelude Memory RingBuffer.

(** ** Specification: a bounded queue of records *)

Inductive event :=
  | Tau
  | Commit (r : bytes)   (* the producer published record [r] *)
  | Read (r : bytes)     (* the consumer was shown record [r] *)
  | Empty                (* the consumer was told that there is no record *)
  | Release.             (* the consumer gave the record back *)

Definition rec_size (r : bytes) : Z := kRecordPrefixSize + Z.of_nat (length r).

Fixpoint qsize (q : list bytes) : Z :=
  match q with [] => 0 | r :: q => rec_size r + qsize q end.

Inductive queue_step (cap : Z) : list bytes -> event -> list bytes -> Prop :=
  | queue_tau q : queue_step cap q Tau q
  | queue_commit q r : qsize (q ++ [r]) <= cap -> queue_step cap q (Commit r) (q ++ [r])
  | queue_read r q : queue_step cap (r :: q) (Read r) (r :: q)
  | queue_empty q : queue_step cap q Empty q
  | queue_release r q : queue_step cap (r :: q) Release q.

(** ** The protocol *)

Record ring := {
  r_mem : bytes;
  r_prod : RingProducer;
  r_cons : RingConsumer;
  r_heads : list Z;
  r_tails : list Z;
}.

(** An acquire load of a counter: any value not older than the last observed. *)
Inductive acquires : list Z -> Z -> list Z -> Prop :=
  | acquires_intro older v newer : acquires (older ++ v :: newer) v (v :: newer).

(** A load that the operation executes only under [cond]. *)
Definition acquires_if (cond : bool) (l : list Z) (v : Z) (l' : list Z) : Prop :=
  if cond then acquires l v l' else l' = l.

(** Where the reserved record's bytes start. *)
Definition slot_offset (p : RingProducer) : Z := (p_head p &&& p_mask p) + kRecordPrefixSize.

Inductive ring_step : ring -> event -> ring -> Prop :=
  | step_reserve mem p c heads tails size t tails' res p' mem' :
      is_u 64 size ->
      acquires_if (reserve_loads_tail p size) tails t tails' ->
      try_reserve p t mem size = Some (res, p', mem') ->
      ring_step (Build_ring mem p c heads tails) Tau (Build_ring mem' p' c heads tails')
  | step_write mem p c heads tails i bs mem' :
      p_pending p <> 0 -> 0 <= i -> i + Z.of_nat (length bs) <= p_pending p - kRecordPrefixSize ->
      all_bytes bs ->
      store_bytes mem (slot_offset p + i) bs = Some mem' ->
      ring_step (Build_ring mem p c heads tails) Tau (Build_ring mem' p c heads tails)
  | step_commit mem p c heads tails p' h r :
      commit p = (p', Some h) ->
      load_bytes mem (slot_offset p) (Z.to_nat (p_pending p - kRecordPrefixSize)) = Some r ->
      ring_step (Build_ring mem p c heads tails) (Commit r) (Build_ring mem p' c (heads ++ [h]) tails)
  | step_commit_nothing mem p c heads tails p' :
      commit p = (p', None) ->
      ring_step (Build_ring mem p c heads tails) Tau (Build_ring mem p' c heads tails)
  | step_peek mem p c heads tails h heads' off len c' r :
      acquires_if (peek_loads_head c) heads h heads' ->
      try_peek c h mem = Some (Some (off, len), c') ->
      load_bytes mem off (Z.to_nat len) = Some r ->
      ring_step (Build_ring mem p c heads tails) (Read r) (Build_ring mem p c' heads' tails)
  | step_peek_empty mem p c heads tails h heads' c' :
      acquires_if (peek_loads_head c) heads h heads' ->
      try_peek c h mem = Some (None, c') ->
      ring_step (Build_ring mem p c heads tails) Empty (Build_ring mem p c' heads' tails)
  | step_release mem p c heads tails c' t :
      release c = (c', Some t) ->
      ring_step (Build_ring mem p c heads tails) Release (Build_ring mem p c' heads (tails ++ [t]))
  | step_release_nothing mem p c heads tails c' :
      release c = (c', None) ->
      ring_step (Build_ring mem p c heads tails) Tau (Build_ring mem p c' heads tails)
  | step_attach mem p c heads tails h heads' :
      acquires heads h heads' ->
      ring_step (Build_ring mem p c heads tails) Tau
        (Build_ring mem p (new_consumer (p_capacity p) (c_tail c) h) heads' tails).

(** Executions, with the list of their events. *)
Inductive ring_exec : ring -> list event -> ring -> Prop :=
  | exec_refl st : ring_exec st [] st
  | exec_step st evs st' e st'' : ring_exec st evs st' -> ring_step st' e st'' -> ring_exec st (evs ++ [e]) st''.

Inductive queue_exec (cap : Z) : list bytes -> list event -> list bytes -> Prop :=
  | qexec_refl q : queue_exec cap q [] q
  | qexec_step q evs q' e q'' :
      queue_exec cap q evs q' -> queue_step cap q' e q'' -> queue_exec cap q (evs ++ [e]) q''.

(** The ring of a fresh region of [2^k] bytes, after [initialize_ring_control]. *)
Definition initial_ring (mem : bytes) : ring := {|
  r_mem := mem;
  r_prod := new_producer (area mem) 0 0;
  r_cons := new_consumer (area mem) 0 0;
  r_heads := [0];
  r_tails := [0];
|}.

(** ** Invariant

    [q] are the records published and not released, [T] the unbounded value
    of [tail], [T'] that of the producer's cached tail, [m0] how many records
    of [q] the consumer's cached head covers, [ts] and [ms] the same for the
    observable counter values. *)

Definition frame (r : bytes) : bytes := le_bytes 4 (Z.of_nat (length r)) ++ r.
Definition frames (q : list bytes) : bytes := concat (map frame q).
Definition covered (q : list bytes) (m : nat) : Z := qsize (take m q).

Definition record_ok (cap : Z) (r : bytes) : Prop :=
  all_bytes r /\ rec_size r <= cap /\ Z.of_nat (length r) <= U32_MAX.

Record producer_inv (cap T T' : Z) (q : list bytes) (ts : list Z) (mem : bytes) (p : RingProducer) (tails : list Z) : Prop := {
  pi_capacity : p_capacity p = cap;
  pi_mask : p_mask p = cap - 1;
  pi_head : p_head p = u64 (T + qsize q);
  pi_cached : p_cached_tail p = u64 T';
  pi_behind : T' <= T;
  pi_fits : T + qsize q - T' <= cap;
  pi_tails : tails = map u64 ts;
  pi_sorted : StronglySorted Z.le ts;
  pi_range : Forall (fun t => T' <= t <= T) ts;
  pi_last : last ts = Some T;
  pi_pending : p_pending p = 0 \/
    (kRecordPrefixSize <= p_pending p <= kRecordPrefixSize + U32_MAX /\
     T + qsize q + p_pending p - T' <= cap /\
     stream mem (T + qsize q) 4 = le_bytes 4 (p_pending p - kRecordPrefixSize));
}.

Record consumer_inv (cap T : Z) (q : list bytes) (m0 : nat) (ms : list nat) (c : RingConsumer) (heads : list Z) : Prop := {
  ci_capacity : c_capacity c = cap;
  ci_mask : c_mask c = cap - 1;
  ci_tail : c_tail c = u64 T;
  ci_cached : c_cached_head c = u64 (T + covered q m0);
  ci_m0 : (m0 <= length q)%nat;
  ci_heads : heads = map (fun m => u64 (T + covered q m)) ms;
  ci_sorted : StronglySorted le ms;
  ci_range : Forall (fun m => m0 <= m <= length q)%nat ms;
  ci_last : last ms = Some (length q);
  ci_pending : c_pending c = 0 \/
    (exists r q', q = r :: q' /\ c_pending c = rec_size r /\ (1 <= m0)%nat);
  ci_corrupted : c_corrupted c = false;
}.

Record data_inv (cap T : Z) (q : list bytes) (mem : bytes) : Prop := {
  di_area : area mem = cap;
  di_bytes : all_bytes mem;
  di_size : qsize q <= cap;
  di_records : Forall (record_ok cap) q;
  di_stream : stream mem T (Z.to_nat (qsize q)) = frames q;
}.

Definition is_capacity (cap : Z) : Prop := exists k, 2 <= k <= 63 /\ cap = 2 ^ k.

Definition ring_rel (cap : Z) (st : ring) (q : list bytes) : Prop :=
  exists T T' ts m0 ms, 0 <= T /\
    data_inv cap T q (r_mem st) /\
    producer_inv cap T T' q ts (r_mem st) (r_prod st) (r_tails st) /\
    consumer_inv cap T q m0 ms (r_cons st) (r_heads st).

(** ** Sizes and frames *)

Lemma rec_size_pos r : kRecordPrefixSize <= rec_size r.
Proof. unfold rec_size. lia. Qed.

Lemma qsize_nonneg q : 0 <= qsize q.
Proof. induction q as [|r q IH]; cbn; [lia|]. pose proof (rec_size_pos r). unfold kRecordPrefixSize in *. lia. Qed.

Lemma qsize_app q q' : qsize (q ++ q') = qsize q + qsize q'.
Proof. induction q as [|r q IH]; cbn; [lia|]. lia. Qed.

Lemma covered_split q m : qsize q = covered q m + qsize (drop m q).
Proof. unfold covered. rewrite <- qsize_app. by rewrite take_drop. Qed.

Lemma covered_nonneg q m : 0 <= covered q m.
Proof. apply qsize_nonneg. Qed.

Lemma covered_le q m : covered q m <= qsize q.
Proof. rewrite (covered_split q m). pose proof (qsize_nonneg (drop m q)). lia. Qed.

Lemma covered_all q : covered q (length q) = qsize q.
Proof. unfold covered. by rewrite firstn_all. Qed.

Lemma covered_app q q' m : (m <= length q)%nat -> covered (q ++ q') m = covered q m.
Proof. intros H. unfold covered. by rewrite take_app_le. Qed.

Lemma covered_cons r q m : (1 <= m)%nat -> covered (r :: q) m = rec_size r + covered q (m - 1).
Proof. destruct m as [|m]; [lia|]. intros _. unfold covered. cbn. by rewrite Nat.sub_0_r. Qed.

Lemma covered_zero q m : (m <= length q)%nat -> covered q m = 0 -> m = 0%nat.
Proof.
  destruct m as [|m]; [done|]. destruct q as [|r q]; cbn [length]; [lia|].
  rewrite covered_cons by lia. pose proof (covered_nonneg q (S m - 1)). pose proof (rec_size_pos r).
  unfold kRecordPrefixSize in *. lia.
Qed.

Lemma frame_length r : Z.of_nat (length (frame r)) = rec_size r.
Proof. unfold frame, rec_size, kRecordPrefixSize. rewrite length_app, le_bytes_length. lia. Qed.

Lemma frames_length q : Z.of_nat (length (frames q)) = qsize q.
Proof.
  unfold frames. induction q as [|r q IH]; [done|]. cbn [map concat qsize].
  rewrite length_app, Nat2Z.inj_add, frame_length, IH. done.
Qed.

Lemma frames_app q r : frames (q ++ [r]) = frames q ++ frame r.
Proof. unfold frames. rewrite map_app, concat_app. cbn. by rewrite app_nil_r. Qed.

(** ** Capacities and windows *)

Lemma capacity_bounds cap : is_capacity cap -> 4 <= cap <= 2 ^ 63.
Proof.
  intros (k & Hk & ->). change 4 with (2 ^ 2) at 1. split; apply Z.pow_le_mono_r; lia.
Qed.

Lemma capacity_mask cap x : is_capacity cap -> u64 x &&& (cap - 1) = x mod cap.
Proof. intros (k & Hk & ->). apply u64_land_mask. lia. Qed.

Section Windows.
Context (cap : Z) (Hcap : is_capacity cap).

Lemma cap_pos mem : area mem = cap -> 0 < area mem.
Proof. intros ->. pose proof (capacity_bounds cap Hcap). lia. Qed.

Lemma window_mod c i : (c mod cap + i) mod cap = (c + i) mod cap.
Proof. apply Zplus_mod_idemp_l. Qed.

(** A load through a span that starts [i] bytes after stream position [c]. *)
Lemma load_window mem c i n : area mem = cap -> 0 <= i -> i + Z.of_nat n <= cap ->
  load_bytes mem (c mod cap + i) n = Some (stream mem (c + i) n).
Proof.
  intros Ha Hi Hn. pose proof (capacity_bounds cap Hcap). pose proof (Z.mod_pos_bound c cap ltac:(lia)).
  apply load_bytes_stream; rewrite ?Ha; try lia. apply window_mod.
Qed.

(** A store through such a span leaves the window [T, c + i) alone. *)
Lemma store_window mem c i bs T : area mem = cap -> all_bytes mem -> all_bytes bs ->
  0 <= i -> T <= c -> c + i + Z.of_nat (length bs) <= T + cap ->
  exists mem', store_bytes mem (c mod cap + i) bs = Some mem' /\ area mem' = cap /\ all_bytes mem' /\
    stream mem' (c + i) (length bs) = bs /\
    forall d m, T <= d -> d + Z.of_nat m <= c + i -> stream mem' d m = stream mem d m.
Proof.
  intros Ha Hm Hbs Hi HT Hn. pose proof (capacity_bounds cap Hcap).
  pose proof (Z.mod_pos_bound c cap ltac:(lia)).
  destruct (store_bytes_spec mem (c mod cap + i) (c + i) bs) as (mem' & Hs & Ha' & Hb' & Hst & Hp);
    rewrite ?Ha; try lia; [apply window_mod|].
  exists mem'. split_and!; auto; [congruence|]. intros d m Hd Hdm.
  apply (stream_preserved mem mem' (c + i) d (length bs) m); rewrite ?Ha in *; try done; lia.
Qed.
End Windows.

Lemma frames_head cap T r q mem :
  data_inv cap T (r :: q) mem ->
  stream mem T 4 = le_bytes 4 (Z.of_nat (length r)) /\ stream mem (T + 4) (length r) = r /\
  stream mem (T + rec_size r) (Z.to_nat (qsize q)) = frames q.
Proof.
  intros [_ _ _ _ Hs]. cbn [qsize] in Hs. pose proof (qsize_nonneg q).
  replace (Z.to_nat (rec_size r + qsize q)) with (4 + (length r + Z.to_nat (qsize q)))%nat in Hs
    by (unfold rec_size, kRecordPrefixSize; lia).
  rewrite !stream_app in Hs. change (frames (r :: q)) with (frame r ++ frames q) in Hs.
  unfold frame in Hs. rewrite <- app_assoc in Hs.
  apply app_inj_1 in Hs as [H1 Hs]; [|by rewrite stream_length, le_bytes_length].
  apply app_inj_1 in Hs as [H2 H3]; [|by rewrite stream_length].
  change (Z.of_nat 4) with 4 in *. split_and!; [done | done |].
  replace (T + rec_size r) with (T + 4 + Z.of_nat (length r)) by (unfold rec_size, kRecordPrefixSize; lia).
  done.
Qed.

(** ** Acquire loads keep the invariants *)

Lemma sorted_suffix {A} (R : A -> A -> Prop) (l1 : list A) (x : A) (l2 : list A) :
  StronglySorted R (l1 ++ x :: l2) -> StronglySorted R (x :: l2) /\ Forall (R x) l2.
Proof.
  induction l1 as [|y l1 IH]; cbn; intros Hs; inversion Hs; subst; [by split|]. by apply IH.
Qed.

Lemma last_suffix {A} (l1 : list A) (x : A) (l2 : list A) : last (l1 ++ x :: l2) = last (x :: l2).
Proof. by rewrite last_app_cons. Qed.

Lemma acquire_tail cap T T' q ts mem p tails v tails' :
  producer_inv cap T T' q ts mem p tails -> acquires tails v tails' ->
  exists t ts', T' <= t <= T /\ v = u64 t /\
    producer_inv cap T t q ts' mem (set_cached_tail p v) tails'.
Proof.
  intros [] Hacq. inversion Hacq as [older v' newer E1 E2 E3]; subst v' tails'.
  rewrite pi_tails0 in E1. symmetry in E1. apply map_eq_app in E1 as (ts1 & ts2 & -> & _ & E).
  destruct ts2 as [|t ts2]; [discriminate|]. cbn in E. injection E as E1' E2'. subst v newer.
  apply sorted_suffix in pi_sorted0 as [Hs Hge].
  apply Forall_app in pi_range0 as [_ Hr]. apply Forall_cons in Hr as [Ht Hr].
  exists t, (t :: ts2). split; [done|]. split; [done|].
  constructor; cbn; try done; try lia.
  - constructor; [lia|]. rewrite Forall_forall in *. intros x Hx.
    specialize (Hge x Hx). specialize (Hr x Hx). lia.
  - by rewrite last_suffix in pi_last0.
  - destruct pi_pending0 as [H0 | (H1 & H2 & H3)]; [by left | right]. split_and!; try done; lia.
Qed.

Lemma acquire_head cap T q m0 ms c heads v heads' :
  consumer_inv cap T q m0 ms c heads -> acquires heads v heads' ->
  exists m ms', (m0 <= m <= length q)%nat /\ v = u64 (T + covered q m) /\
    consumer_inv cap T q m ms' (set_cached_head c v) heads'.
Proof.
  intros [] Hacq. inversion Hacq as [older v' newer E1 E2 E3]; subst v' heads'.
  rewrite ci_heads0 in E1. symmetry in E1. apply map_eq_app in E1 as (ms1 & ms2 & -> & _ & E).
  destruct ms2 as [|m ms2]; [discriminate|]. cbn in E. injection E as E1' E2'. subst v newer.
  apply sorted_suffix in ci_sorted0 as [Hs Hge].
  apply Forall_app in ci_range0 as [_ Hr]. apply Forall_cons in Hr as [Hm Hr].
  exists m, (m :: ms2). split; [done|]. split; [done|].
  constructor; cbn; try done; try lia.
  - constructor; [lia|]. rewrite Forall_forall in *. intros x Hx.
    specialize (Hge x Hx). specialize (Hr x Hx). lia.
  - by rewrite last_suffix in ci_last0.
  - destruct ci_pending0 as [H0 | (r & q' & H1 & H2 & H3)]; [by left | right].
    exists r, q'. split_and!; try done; lia.
Qed.

(** ** Producer operations *)

Section Preservation.
Context (cap : Z) (Hcap : is_capacity cap).

Lemma slot_offset_mod T T' q ts mem p tails :
  producer_inv cap T T' q ts mem p tails -> p_head p &&& p_mask p = (T + qsize q) mod cap.
Proof. intros []. by rewrite pi_head0, pi_mask0, capacity_mask. Qed.

Lemma lacks_space_spec T T' q ts mem p tails needed :
  producer_inv cap T T' q ts mem p tails ->
  lacks_space p needed = Z.ltb (cap - (T + qsize q - T')) needed.
Proof.
  intros []. unfold lacks_space. pose proof (capacity_bounds cap Hcap). pose proof (qsize_nonneg q).
  rewrite pi_head0, pi_cached0, pi_capacity0, u64_diff, u64_small by (unfold is_u; lia). done.
Qed.

Lemma max_record_size_spec T T' q ts mem p tails :
  producer_inv cap T T' q ts mem p tails -> max_record_size p = Z.min (cap - kRecordPrefixSize) U32_MAX.
Proof.
  intros []. unfold max_record_size. pose proof (capacity_bounds cap Hcap).
  rewrite pi_capacity0, u64_small by (unfold is_u, kRecordPrefixSize; lia).
  destruct (Z.ltb_spec (cap - kRecordPrefixSize) U32_MAX); lia.
Qed.

Lemma producer_inv_pending T T' q ts mem mem' p tails n :
  producer_inv cap T T' q ts mem p tails ->
  kRecordPrefixSize <= n <= kRecordPrefixSize + U32_MAX -> T + qsize q + n - T' <= cap ->
  stream mem' (T + qsize q) 4 = le_bytes 4 (n - kRecordPrefixSize) ->
  producer_inv cap T T' q ts mem' (set_p_pending p n) tails.
Proof. intros [] H1 H2 H3. constructor; cbn; try done. right. done. Qed.

Lemma data_inv_window T q mem mem' :
  data_inv cap T q mem -> area mem' = cap -> all_bytes mem' ->
  stream mem' T (Z.to_nat (qsize q)) = stream mem T (Z.to_nat (qsize q)) -> data_inv cap T q mem'.
Proof. intros [] Ha Hb Hs. constructor; try done. by rewrite Hs. Qed.

(** [try_reserve] never faults, and keeps the invariant on success and on
    refusal. *)
Lemma reserve_preserves T T' q ts mem p tails t tails' size :
  0 <= T -> data_inv cap T q mem -> producer_inv cap T T' q ts mem p tails -> is_u 64 size ->
  acquires_if (reserve_loads_tail p size) tails t tails' ->
  exists res p' mem' T2 ts', try_reserve p t mem size = Some (res, p', mem') /\
    data_inv cap T q mem' /\ producer_inv cap T T2 q ts' mem' p' tails'.
Proof.
  intros HT Hd Hp Hsize Hacq. pose proof (capacity_bounds cap Hcap). pose proof (qsize_nonneg q).
  unfold try_reserve. pose proof (max_record_size_spec _ _ _ _ _ _ _ Hp) as Hmax.
  unfold reserve_loads_tail in Hacq. rewrite Hmax in *.
  destruct (Z.ltb_spec (Z.min (cap - kRecordPrefixSize) U32_MAX) size) as [Hbig | Hfit].
  { rewrite (proj2 (Z.leb_gt _ _) Hbig) in Hacq. cbn in Hacq. subst tails'. by eauto 10. }
  rewrite (proj2 (Z.leb_le _ _) Hfit) in Hacq. cbn [andb] in Hacq.
  unfold is_u in Hsize. set (needed := u64 (kRecordPrefixSize + size)) in *.
  assert (Hneeded : needed = kRecordPrefixSize + size).
  { apply u64_small. unfold is_u, kRecordPrefixSize, U32_MAX in *. lia. }
  assert (Hloaded : exists T2 ts', producer_inv cap T T2 q ts' mem
            (if lacks_space p needed then set_cached_tail p t else p) tails').
  { destruct (lacks_space p needed); cbn in Hacq.
    - destruct (acquire_tail _ _ _ _ _ _ _ _ _ _ Hp Hacq) as (t' & ts' & _ & _ & Hp'). eauto.
    - subst tails'. eauto. }
  destruct Hloaded as (T2 & ts' & Hp'). set (p1 := if lacks_space p needed then _ else _) in *.
  pose proof (slot_offset_mod _ _ _ _ _ _ _ Hp') as Hoff.
  rewrite (lacks_space_spec _ _ _ _ _ _ _ needed Hp').
  destruct (Z.ltb_spec (cap - (T + qsize q - T2)) needed) as [Hno | Hyes]; [by eauto 10|].
  rewrite Hoff, (u32_small size) by (unfold is_u, U32_MAX in *; lia).
  pose proof (pi_behind _ _ _ _ _ _ _ _ Hp') as HT2.
  destruct (store_window cap Hcap mem (T + qsize q) 0 (le_bytes 4 size) T) as (mem' & Hst & Ha & Hb & Hw & Hk);
    try apply Hd; try apply le_bytes_bytes; rewrite ?le_bytes_length; unfold kRecordPrefixSize in *; try lia.
  rewrite Z.add_0_r in *. rewrite Hst. cbn [mbind option_bind].
  eexists _, _, _, T2, ts'. split; [done|]. split.
  - apply (data_inv_window T q mem mem' Hd Ha Hb). apply Hk; lia.
  - apply (producer_inv_pending _ _ _ _ mem); unfold kRecordPrefixSize, U32_MAX in *; try done; try lia.
    rewrite le_bytes_length in Hw. rewrite Hw. f_equal. lia.
Qed.

(** A write through the reserved span never faults and stays inside it. *)
Lemma write_preserves T T' q ts mem p tails i bs :
  0 <= T -> data_inv cap T q mem -> producer_inv cap T T' q ts mem p tails ->
  p_pending p <> 0 -> 0 <= i -> i + Z.of_nat (length bs) <= p_pending p - kRecordPrefixSize -> all_bytes bs ->
  exists mem', store_bytes mem (slot_offset p + i) bs = Some mem' /\
    data_inv cap T q mem' /\ producer_inv cap T T' q ts mem' p tails.
Proof.
  intros HT Hd Hp Hne Hi Hlen Hbs. pose proof (qsize_nonneg q).
  pose proof (slot_offset_mod _ _ _ _ _ _ _ Hp) as Hoff.
  destruct (pi_pending _ _ _ _ _ _ _ _ Hp) as [H0 | (H1 & H2 & H3)]; [done|].
  pose proof (pi_behind _ _ _ _ _ _ _ _ Hp) as HT2.
  destruct (store_window cap Hcap mem (T + qsize q) (kRecordPrefixSize + i) bs T)
    as (mem' & Hst & Ha & Hb & Hw & Hk); try apply Hd; try done; unfold kRecordPrefixSize in *; try lia.
  exists mem'. unfold slot_offset, kRecordPrefixSize. rewrite Hoff, <- Z.add_assoc. split; [done|]. split.
  - apply (data_inv_window T q mem mem' Hd Ha Hb). apply Hk; lia.
  - destruct Hp. constructor; try done. right. unfold kRecordPrefixSize. split_and!; try lia.
    rewrite Hk by lia. done.
Qed.

(** [commit] publishes exactly the bytes of the reserved slot. *)
Lemma commit_preserves T T' q ts m0 ms mem p c heads tails p' h :
  0 <= T -> data_inv cap T q mem -> producer_inv cap T T' q ts mem p tails ->
  consumer_inv cap T q m0 ms c heads -> commit p = (p', Some h) ->
  let n := Z.to_nat (p_pending p - kRecordPrefixSize) in
  let r := stream mem (T + qsize q + kRecordPrefixSize) n in
  load_bytes mem (slot_offset p) n = Some r /\ qsize (q ++ [r]) <= cap /\
  data_inv cap T (q ++ [r]) mem /\ producer_inv cap T T' (q ++ [r]) ts mem p' tails /\
  consumer_inv cap T (q ++ [r]) m0 (ms ++ [length (q ++ [r])]) c (heads ++ [h]).
Proof.
  intros HT Hd Hp Hc Hcommit n r. pose proof (qsize_nonneg q).
  pose proof (slot_offset_mod _ _ _ _ _ _ _ Hp) as Hoff.
  pose proof (pi_behind _ _ _ _ _ _ _ _ Hp) as HT2.
  unfold commit in Hcommit. destruct (Z.eqb_spec (p_pending p) 0) as [|Hne]; [discriminate|].
  destruct (pi_pending _ _ _ _ _ _ _ _ Hp) as [H0 | (H1 & H2 & H3)]; [done|].
  injection Hcommit as <- <-. assert (0 <= p_pending p) by (unfold kRecordPrefixSize in *; lia).
  assert (Hlen : length r = n) by apply stream_length.
  assert (Hrs : rec_size r = p_pending p) by (unfold rec_size; rewrite Hlen; unfold n; lia).
  assert (Hsz : qsize (q ++ [r]) = qsize q + p_pending p) by (rewrite qsize_app; cbn; lia).
  split; [|split; [lia|split; [|split]]].
  - unfold slot_offset. rewrite Hoff.
    apply load_window; try apply Hd; try done; unfold n, kRecordPrefixSize in *; lia.
  - constructor; try apply Hd; [lia | |].
    + apply Forall_app. split; [apply Hd | apply Forall_singleton]. unfold record_ok.
      split_and!; [apply stream_bytes, Hd | lia | lia].
    + rewrite Hsz, frames_app, Z2Nat.inj_add, stream_app, (di_stream _ _ _ _ Hd) by lia. f_equal.
      rewrite Z2Nat.id by lia. replace (Z.to_nat (p_pending p)) with (4 + n)%nat
        by (unfold n, kRecordPrefixSize in *; lia).
      rewrite stream_app, H3. unfold frame. rewrite Hlen. f_equal. f_equal. lia.
  - destruct Hp. constructor; cbn; try done; [|lia|by left].
    rewrite Hsz, pi_head0, u64_add_l. f_equal. lia.
  - destruct Hc. constructor; try done.
    + by rewrite covered_app.
    + rewrite length_app. lia.
    + rewrite map_app. cbn [map]. f_equal.
      * rewrite ci_heads0. apply map_ext_in. intros m Hm%list_elem_of_In.
        rewrite Forall_forall in ci_range0. rewrite covered_app; [done|]. by apply ci_range0.
      * rewrite covered_all, Hsz, (pi_head _ _ _ _ _ _ _ _ Hp), u64_add_l. do 2 f_equal. lia.
    + apply StronglySorted_app_2; [|done|repeat constructor]. intros m1 m2 Hm1 Hm2.
      apply list_elem_of_singleton in Hm2 as ->. rewrite Forall_forall in ci_range0.
      specialize (ci_range0 m1 Hm1). rewrite length_app. lia.
    + apply Forall_app. split; [|apply Forall_singleton; rewrite length_app; lia].
      eapply Forall_impl; [exact ci_range0|]. intros m Hm. cbn in Hm. rewrite length_app. lia.
    + by rewrite last_snoc.
    + destruct ci_pending0 as [? | (r0 & q' & -> & ? & ?)]; [by left | right]. exists r0, (q' ++ [r]). done.
Qed.

Lemma commit_nothing T T' q ts mem p tails p' :
  producer_inv cap T T' q ts mem p tails -> commit p = (p', None) -> p' = p.
Proof.
  intros _. unfold commit. destruct (Z.eqb (p_pending p) 0); [by intros [= <-] | discriminate].
Qed.

(** ** Consumer operations *)

Lemma consumer_offset T q m0 ms c heads :
  consumer_inv cap T q m0 ms c heads -> c_tail c &&& c_mask c = T mod cap.
Proof. intros []. by rewrite ci_tail0, ci_mask0, capacity_mask. Qed.

Lemma looks_empty T q m0 ms c heads : qsize q <= cap ->
  consumer_inv cap T q m0 ms c heads ->
  Z.eqb (c_cached_head c) (c_tail c) = Nat.eqb m0 0.
Proof.
  intros Hq Hc. pose proof (capacity_bounds cap Hcap). destruct Hc.
  pose proof (covered_nonneg q m0). pose proof (covered_le q m0).
  rewrite ci_cached0, ci_tail0. destruct (Nat.eqb_spec m0 0) as [-> | Hne].
  - unfold covered. cbn. rewrite Z.add_0_r. apply Z.eqb_refl.
  - apply Z.eqb_neq. intros Heq. apply u64_eq in Heq; [|lia]. apply Hne, (covered_zero q); [done | lia].
Qed.

(** The bytes behind the prefix of the oldest record are that record. *)
Lemma record_view T r q' mem : 0 <= T -> data_inv cap T (r :: q') mem ->
  load_bytes mem (T mod cap + kRecordPrefixSize) (length r) = Some r.
Proof.
  intros HT Hd. pose proof (capacity_bounds cap Hcap). destruct (frames_head _ _ _ _ _ Hd) as (_ & Hr & _). unfold kRecordPrefixSize.
  rewrite load_window; try apply Hd; try done; [by rewrite Hr|].
  pose proof (di_records _ _ _ _ Hd) as Hrec. apply Forall_cons in Hrec as [(_ & Hrec & _) _].
  unfold rec_size, kRecordPrefixSize in Hrec. lia.
Qed.

(** The oldest record as a consumer finds it whose cached [head] covers it: its
    prefix, and the two bounds it is checked against. *)
Lemma record_found T r q' m1 ms1 mem c heads : 0 <= T -> data_inv cap T (r :: q') mem ->
  consumer_inv cap T (r :: q') m1 ms1 c heads -> (1 <= m1)%nat ->
  load_bytes mem (T mod cap) 4 = Some (le_bytes 4 (Z.of_nat (length r))) /\ is_u 32 (Z.of_nat (length r)) /\
  rec_size r <= u64 (c_cached_head c - c_tail c) /\ rec_size r <= c_capacity c /\
  consumer_inv cap T (r :: q') m1 ms1 (set_c_pending c (rec_size r)) heads.
Proof.
  intros HT Hd Hc Hm1. pose proof (capacity_bounds cap Hcap). destruct (frames_head _ _ _ _ _ Hd) as (Hprefix & _ & _).
  pose proof (di_records _ _ _ _ Hd) as Hrec. apply Forall_cons in Hrec as [(_ & Hsz & Hmax) _].
  pose proof (covered_cons r q' m1 ltac:(lia)) as Hcov. pose proof (covered_nonneg q' (m1 - 1)).
  pose proof (covered_nonneg (r :: q') m1). pose proof (covered_le (r :: q') m1). pose proof (di_size _ _ _ _ Hd).
  assert (Hge : u64 (c_cached_head c - c_tail c) = covered (r :: q') m1).
  { rewrite (ci_cached _ _ _ _ _ _ _ Hc), (ci_tail _ _ _ _ _ _ _ Hc), u64_diff; lia. }
  rewrite Hge, (ci_capacity _ _ _ _ _ _ _ Hc). split_and!; [| unfold is_u, U32_MAX in *; lia.. | lia | lia |].
  - rewrite <- (Z.add_0_r (T mod cap)), (load_window cap Hcap mem T 0 4), Z.add_0_r, Hprefix by (try apply Hd; lia). done.
  - destruct Hc. constructor; cbn; try done. right. by exists r, q'.
Qed.

(** [try_peek] never faults, never declares the ring corrupted, and shows
    the oldest unreleased record; without a record in view it says so. *)
Lemma peek_preserves T q m0 ms mem c heads h heads' :
  0 <= T -> data_inv cap T q mem -> consumer_inv cap T q m0 ms c heads ->
  acquires_if (peek_loads_head c) heads h heads' ->
  exists m1 ms1 c', consumer_inv cap T q m1 ms1 c' heads' /\
    ((m1 = 0%nat /\ c_pending c = 0 /\ try_peek c h mem = Some (None, c')) \/
     exists r q' off, q = r :: q' /\ c_pending c' = rec_size r /\
       try_peek c h mem = Some (Some (off, Z.of_nat (length r)), c') /\
       load_bytes mem off (length r) = Some r).
Proof.
  intros HT Hd Hc Hacq. pose proof (consumer_offset _ _ _ _ _ _ Hc) as Hoff. pose proof (ci_corrupted _ _ _ _ _ _ _ Hc) as Hcor.
  unfold try_peek, peek_loads_head in *. rewrite Hcor, Hoff in *. cbn [negb andb] in *.
  destruct (Z.eqb_spec (c_pending c) 0) as [Hp0 | Hp0]; cbn [negb andb] in *.
  - (* a new record *)
    assert (Hloaded : exists m1 ms1, consumer_inv cap T q m1 ms1
              (if Z.eqb (c_cached_head c) (c_tail c) then set_cached_head c h else c) heads').
    { destruct (Z.eqb (c_cached_head c) (c_tail c)); cbn in Hacq.
      - destruct (acquire_head _ _ _ _ _ _ _ _ _ Hc Hacq) as (m & ms' & _ & _ & Hc'). eauto.
      - subst heads'. eauto. }
    destruct Hloaded as (m1 & ms1 & Hc1). set (c1 := if Z.eqb _ _ then _ else _) in *.
    rewrite (looks_empty _ _ _ _ _ _ (di_size _ _ _ _ Hd) Hc1).
    destruct (Nat.eqb_spec m1 0) as [-> | Hm1]; [by eauto 10|].
    destruct q as [|r q']; [pose proof (ci_m0 _ _ _ _ _ _ _ Hc1); cbn in *; lia|].
    destruct (record_found _ _ _ _ _ _ _ _ HT Hd Hc1 ltac:(lia)) as (Hload & Hlen & Hcovered & Hfits & Hc2).
    cbv zeta. rewrite Hload. cbn [mbind option_bind]. rewrite le_value_bytes_u by exact Hlen. fold (rec_size r).
    rewrite (proj2 (Z.ltb_ge _ _)), (proj2 (Z.ltb_ge (c_capacity c1) _)) by lia. cbn [orb].
    exists m1, ms1, (set_c_pending c1 (rec_size r)). split; [exact Hc2|]. right.
    exists r, q', (T mod cap + kRecordPrefixSize). split_and!; try done. by apply record_view with q'.
  - (* the record already in view *)
    cbn in Hacq. subst heads'. exists m0, ms, c. split; [done|]. right.
    destruct (ci_pending _ _ _ _ _ _ _ Hc) as [? | (r & q' & -> & Hpr & Hm0)]; [done|].
    exists r, q', (T mod cap + kRecordPrefixSize). split_and!; try done; [|by apply record_view with q'].
    rewrite Hpr. pose proof (di_records _ _ _ _ Hd) as Hrec. apply Forall_cons in Hrec as [(_ & Hsz & _) _].
    pose proof (capacity_bounds cap Hcap). unfold rec_size, kRecordPrefixSize in *. rewrite u64_small by (unfold is_u; lia). do 4 f_equal. lia.
Qed.

(** [release] frees exactly the oldest record. *)
Lemma release_preserves T T' q ts m0 ms mem p c heads tails c' t :
  0 <= T -> data_inv cap T q mem -> producer_inv cap T T' q ts mem p tails ->
  consumer_inv cap T q m0 ms c heads -> release c = (c', Some t) ->
  exists r q', q = r :: q' /\ data_inv cap (T + rec_size r) q' mem /\
    producer_inv cap (T + rec_size r) T' q' (ts ++ [T + rec_size r]) mem p (tails ++ [t]) /\
    consumer_inv cap (T + rec_size r) q' (m0 - 1) (map pred ms) c' heads.
Proof.
  intros HT Hd Hp Hc Hrel. unfold release in Hrel.
  destruct (Z.eqb_spec (c_pending c) 0) as [|Hne]; [discriminate|]. injection Hrel as <- <-.
  destruct (ci_pending _ _ _ _ _ _ _ Hc) as [? | (r & q' & -> & Hpr & Hm0)]; [done|].
  exists r, q'. split; [done|]. pose proof (qsize_nonneg q'). pose proof (rec_size_pos r) as Hrp.
  unfold kRecordPrefixSize in Hrp.
  assert (Hshift : forall m, (1 <= m)%nat -> T + covered (r :: q') m = T + rec_size r + covered q' (pred m)).
  { intros m Hm. rewrite covered_cons, <- Nat.sub_1_r by done. lia. }
  split; [|split].
  - pose proof (di_size _ _ _ _ Hd) as Hsz. cbn in Hsz. constructor; try apply Hd; [lia | |].
    + pose proof (di_records _ _ _ _ Hd) as Hrec. by apply Forall_cons in Hrec as [_ ?].
    + by destruct (frames_head _ _ _ _ _ Hd) as (_ & _ & ?).
  - destruct Hp. cbn in *. constructor; cbn; try done; try lia.
    + rewrite pi_head0. f_equal. lia.
    + rewrite map_app, pi_tails0. cbn. by rewrite (ci_tail _ _ _ _ _ _ _ Hc), u64_add_l, Hpr.
    + apply StronglySorted_app_2; [|done|repeat constructor]. intros t1 t2 Ht1 Ht2.
      apply list_elem_of_singleton in Ht2 as ->. rewrite Forall_forall in pi_range0.
      specialize (pi_range0 t1 Ht1). cbn in pi_range0. lia.
    + apply Forall_app. split; [|apply Forall_singleton; lia].
      eapply Forall_impl; [exact pi_range0|]. intros x Hx. cbn in Hx. lia.
    + by rewrite last_snoc.
    + destruct pi_pending0 as [? | (H1 & H2 & H3)]; [by left | right].
      replace (T + rec_size r + qsize q') with (T + (rec_size r + qsize q')) by lia.
      split_and!; try done; lia.
  - destruct Hc. cbn in *. constructor; cbn; try done.
    + by rewrite ci_tail0, u64_add_l, Hpr.
    + rewrite ci_cached0, Hshift by done. by rewrite Nat.sub_1_r.
    + lia.
    + rewrite ci_heads0, map_map. apply map_ext_in. intros m Hm%list_elem_of_In.
      rewrite Forall_forall in ci_range0. specialize (ci_range0 m Hm). cbn in ci_range0.
      rewrite Hshift by lia. done.
    + clear - ci_sorted0. induction ci_sorted0 as [|m ms Hs IH Hle]; cbn; constructor; [done|].
      apply Forall_map. eapply Forall_impl; [exact Hle|]. intros x Hx. cbn in *. lia.
    + apply Forall_map. eapply Forall_impl; [exact ci_range0|]. intros x Hx. cbn in *. lia.
    + rewrite fmap_last, ci_last0. done.
    + by left.
Qed.

(** A consumer that attaches (again) starts at the released position. *)
Lemma attach_preserves T q m0 ms c heads h heads' mem :
  data_inv cap T q mem -> consumer_inv cap T q m0 ms c heads -> acquires heads h heads' ->
  exists m ms', consumer_inv cap T q m ms' (new_consumer cap (c_tail c) h) heads'.
Proof.
  intros Hd Hc Hacq. pose proof (capacity_bounds cap Hcap).
  destruct (acquire_head _ _ _ _ _ _ _ _ _ Hc Hacq) as (m & ms' & _ & _ & []).
  exists m, ms'. cbn in *. constructor; cbn; try done; [|by left].
  apply u64_small. unfold is_u. lia.
Qed.
End Preservation.

(** ** Refinement *)

Lemma ring_rel_step cap st q e st' :
  is_capacity cap -> ring_rel cap st q -> ring_step st e st' ->
  exists q', queue_step cap q e q' /\ ring_rel cap st' q'.
Proof.
  intros Hcap (T & T' & ts & m0 & ms & HT & Hd & Hp & Hc) Hstep.
  destruct Hstep; cbn [r_mem r_prod r_cons r_heads r_tails] in *.
  - destruct (reserve_preserves cap Hcap T T' q ts mem p tails t tails' size)
      as (res' & p'' & mem'' & T2 & ts' & E & Hd' & Hp'); try done.
    rewrite E in H1. injection H1 as <- <- <-. exists q. split; [constructor|]. by exists T, T2, ts', m0, ms.
  - destruct (write_preserves cap Hcap T T' q ts mem p tails i bs) as (mem'' & E & Hd' & Hp'); try done.
    rewrite E in H3. injection H3 as <-. exists q. split; [constructor|]. by exists T, T', ts, m0, ms.
  - destruct (commit_preserves cap Hcap T T' q ts m0 ms mem p c heads tails p' h)
      as (E & Hsz & Hd' & Hp' & Hc'); try done.
    rewrite E in H0. injection H0 as <-. eexists. split; [by constructor|].
    by exists T, T', ts, m0, (ms ++ [length (q ++ [stream mem (T + qsize q + kRecordPrefixSize)
      (Z.to_nat (p_pending p - kRecordPrefixSize))])]).
  - apply (commit_nothing cap T T' q ts mem p tails p' Hp) in H as ->. exists q. split; [constructor|].
    by exists T, T', ts, m0, ms.
  - destruct (peek_preserves cap Hcap T q m0 ms mem c heads h heads') as (m1 & ms1 & c'' & Hc' & Hcase); try done.
    destruct Hcase as [(_ & _ & E) | (r' & q' & off' & -> & _ & E & Hl)]; rewrite E in H0; [discriminate|].
    injection H0 as <- <- <-. rewrite Nat2Z.id, Hl in H1. injection H1 as <-.
    eexists. split; [constructor|]. by exists T, T', ts, m1, ms1.
  - destruct (peek_preserves cap Hcap T q m0 ms mem c heads h heads') as (m1 & ms1 & c'' & Hc' & Hcase); try done.
    destruct Hcase as [(_ & _ & E) | (r' & q' & off' & -> & _ & E & Hl)]; rewrite E in H0; [|discriminate].
    injection H0 as <-. eexists. split; [constructor|]. by exists T, T', ts, m1, ms1.
  - destruct (release_preserves cap T T' q ts m0 ms mem p c heads tails c' t)
      as (r & q' & -> & Hd' & Hp' & Hc'); try done.
    exists q'. split; [constructor|]. pose proof (rec_size_pos r). unfold kRecordPrefixSize in *.
    exists (T + rec_size r), T', (ts ++ [T + rec_size r]), (m0 - 1)%nat, (map pred ms). split; [lia | done].
  - unfold release in H. destruct (Z.eqb (c_pending c) 0); [injection H as <- | discriminate].
    exists q. split; [constructor|]. by exists T, T', ts, m0, ms.
  - rewrite (pi_capacity _ _ _ _ _ _ _ _ Hp) in *.
    destruct (attach_preserves cap Hcap T q m0 ms c heads h heads' mem Hd Hc H) as (m & ms' & Hc').
    exists q. split; [constructor|]. by exists T, T', ts, m, ms'.
Qed.

Lemma initial_ring_rel mem : is_capacity (area mem) -> all_bytes mem -> ring_rel (area mem) (initial_ring mem) [].
Proof.
  intros Hcap Hm. pose proof (capacity_bounds _ Hcap).
  assert (Hmask : u64 (area mem - 1) = area mem - 1) by (apply u64_small; unfold is_u; lia).
  exists 0, 0, [0], 0%nat, [0%nat]. split; [lia|]. split; [|split].
  - constructor; cbn; auto. lia.
  - constructor; cbn; auto; try lia; repeat constructor; lia.
  - constructor; cbn; auto; repeat constructor.
Qed.

Lemma ring_rel_exec cap st q evs st' :
  is_capacity cap -> ring_rel cap st q -> ring_exec st evs st' ->
  exists q', queue_exec cap q evs q' /\ ring_rel cap st' q'.
Proof.
  intros Hcap Hrel Hexec. induction Hexec as [|st evs st1 e st2 Hexec IH Hstep].
  - exists q. split; [constructor | done].
  - destruct (IH Hrel) as (q1 & Hq1 & Hrel1).
    destruct (ring_rel_step cap st1 q1 e st2 Hcap Hrel1 Hstep) as (q2 & Hq2 & Hrel2).
    exists q2. split; [by econstructor | done].
Qed.

(** ** Histories *)

Fixpoint committed (evs : list event) : list bytes :=
  match evs with
  | [] => []
  | Commit r :: evs => r :: committed evs
  | _ :: evs => committed evs
  end.

Fixpoint releases (evs : list event) : nat :=
  match evs with
  | [] => O
  | Release :: evs => S (releases evs)
  | _ :: evs => releases evs
  end.

Lemma committed_app a b : committed (a ++ b) = committed a ++ committed b.
Proof. induction a as [|[] a IH]; cbn; by rewrite ?IH. Qed.

Lemma releases_app a b : releases (a ++ b) = (releases a + releases b)%nat.
Proof. induction a as [|[] a IH]; cbn; by rewrite ?IH. Qed.

(** The queue holds what was committed and not yet released, in order. *)
Lemma queue_exec_history cap evs q :
  queue_exec cap [] evs q -> exists done, committed evs = done ++ q /\ length done = releases evs.
Proof.
  remember [] as q0 eqn:E0. induction 1 as [|q0 evs q1 e q2 Hexec IH Hstep]; [by exists []; subst|].
  destruct (IH E0) as (done & Hc & Hr). rewrite committed_app, releases_app.
  inversion Hstep; subst; cbn [committed releases]; rewrite ?app_nil_r, ?Nat.add_0_r; eauto.
  - exists done. by rewrite Hc, app_assoc.
  - exists (done ++ [r]). rewrite Hc, length_app, <- app_assoc. cbn. split; [done | lia].
Qed.

Lemma queue_exec_bound cap q evs q' : qsize q <= cap -> queue_exec cap q evs q' -> qsize q' <= cap.
Proof.
  intros Hq Hexec. induction Hexec as [|q evs q1 e q2 Hexec IH Hstep]; [done|].
  specialize (IH Hq). inversion Hstep; subst; cbn in *; try done.
  pose proof (rec_size_pos r). unfold kRecordPrefixSize in *. lia.
Qed.

Lemma ring_exec_snoc st evs e st'' :
  ring_exec st (evs ++ [e]) st'' -> exists st', ring_exec st evs st' /\ ring_step st' e st''.
Proof.
  intros Hexec. inversion Hexec as [? H1 H2 | ? evs' st' e' ? Hpre Hstep H1 H2].
  - by destruct evs.
  - apply app_inj_2 in H2 as [-> H2]; [|done]. injection H2 as ->. eauto.
Qed.

(** Everything that holds of [ring_rel] holds of reachable states. *)
Lemma reachable_rel mem evs st :
  is_capacity (area mem) -> all_bytes mem -> ring_exec (initial_ring mem) evs st ->
  exists q, queue_exec (area mem) [] evs q /\ ring_rel (area mem) st q.
Proof. intros Hcap Hm Hexec. by apply (ring_rel_exec _ _ _ _ _ Hcap (initial_ring_rel mem Hcap Hm)). Qed.

(** ** A concrete run, for the witnesses: 16-byte ring, two records, the
    second one wrapping around the end of the data area. *)

Definition demo_mem : bytes := repeat 0 16.

Lemma demo_capacity : is_capacity (area demo_mem).
Proof. exists 4. split; [lia | reflexivity]. Qed.

Lemma demo_bytes : all_bytes demo_mem.
Proof. by_decide. Qed.

Definition demo_ring (mem : bytes) (p : Z * Z * Z) (c : Z * Z * Z) (heads tails : list Z) : ring :=
  let '(ph, pt, pp) := p in let '(ct, ch, cp) := c in {|
  r_mem := mem;
  r_prod := {| p_capacity := 16; p_mask := 15; p_head := ph; p_cached_tail := pt; p_pending := pp |};
  r_cons := {| c_capacity := 16; c_mask := 15; c_tail := ct; c_cached_head := ch; c_pending := cp;
               c_corrupted := false |};
  r_heads := heads; r_tails := tails |}.

Definition demo_record : bytes := [7; 8; 9; 10; 11; 12].

Definition demo_1 := demo_ring ([6] ++ repeat 0 15) (0, 0, 10) (0, 0, 0) [0] [0].
Definition demo_stored : bytes := [6; 0; 0; 0] ++ demo_record ++ repeat 0 6.
Definition demo_2 := demo_ring demo_stored (0, 0, 10) (0, 0, 0) [0] [0].
Definition demo_3 := demo_ring demo_stored (10, 0, 0) (0, 0, 0) [0; 10] [0].
Definition demo_4 := demo_ring demo_stored (10, 0, 0) (0, 10, 10) [10] [0].

Definition demo_prefix : list event := [Tau; Tau; Commit demo_record; Empty].

(** The first peek still observes the old [head] and reports an empty ring. *)
Lemma demo_exec_prefix : ring_exec (initial_ring demo_mem) demo_prefix demo_3.
Proof.
  apply (exec_step _ [Tau; Tau; Commit demo_record] demo_3 Empty).
  2: { apply (step_peek_empty _ _ _ _ _ 0); [apply (acquires_intro [] 0 [10]) | reflexivity]. }
  apply (exec_step _ [Tau; Tau] demo_2 (Commit demo_record)).
  2: { by apply (step_commit _ _ _ [0] _ _ 10). }
  apply (exec_step _ [Tau] demo_1 Tau).
  2: { by apply (step_write _ _ _ _ _ 0 demo_record); try by_decide. }
  apply (exec_step _ [] (initial_ring demo_mem) Tau); [apply exec_refl|].
  by apply (step_reserve _ _ _ _ _ 6 0 _ (Some (4, 6))); try by_decide.
Qed.

Lemma demo_exec_read : ring_exec (initial_ring demo_mem) (demo_prefix ++ [Read demo_record]) demo_4.
Proof.
  apply (exec_step _ _ demo_3); [exact demo_exec_prefix|].
  by apply (step_peek _ _ _ _ _ 10 _ 4 6); [apply (acquires_intro [0] 10 []) | ..].
Qed.

(** With that record still in view, the producer fills the ring. *)
Definition demo_5 := demo_ring ([6; 0; 0; 0] ++ demo_record ++ [2; 0; 0; 0; 0; 0]) (10, 0, 6) (0, 10, 10) [10] [0].

Lemma demo_exec_full : ring_exec (initial_ring demo_mem) ((demo_prefix ++ [Read demo_record]) ++ [Tau]) demo_5.
Proof.
  apply (exec_step _ _ demo_4); [exact demo_exec_read|].
  by apply (step_reserve _ _ _ _ _ 2 0 _ (Some (14, 2))); try by_decide.
Qed.

(** ** Loads that return the newest value *)

Lemma fresh_lacks_space cap T T' q ts mem p tails n :
  is_capacity cap -> producer_inv cap T T' q ts mem p tails -> qsize q <= cap ->
  lacks_space (if lacks_space p n then set_cached_tail p (u64 T) else p) n = Z.ltb (cap - qsize q) n.
Proof.
  intros Hcap Hp Hsz. pose proof (lacks_space_spec cap Hcap _ _ _ _ _ _ _ n Hp) as Hl.
  pose proof (pi_behind _ _ _ _ _ _ _ _ Hp). rewrite Hl. destruct (Z.ltb_spec (cap - (T + qsize q - T')) n).
  - pose proof (capacity_bounds cap Hcap). pose proof (qsize_nonneg q). unfold lacks_space. cbn.
    rewrite (pi_head _ _ _ _ _ _ _ _ Hp), (pi_capacity _ _ _ _ _ _ _ _ Hp), u64_diff by lia.
    rewrite u64_small by (unfold is_u; lia). f_equal. lia.
  - rewrite Hl. by rewrite !(proj2 (Z.ltb_ge _ _)) by lia.
Qed.

Lemma peek_none_cached c h mem c' :
  try_peek c h mem = Some (None, c') -> c_corrupted c' = false -> c_cached_head c' = h.
Proof.
  unfold try_peek. destruct (c_corrupted c) eqn:Hcor; [intros [= <-]; congruence|].
  destruct (Z.eqb (c_pending c) 0); cbn [negb]; [|discriminate].
  destruct (Z.eqb (c_cached_head c) (c_tail c)) eqn:Hload; [|rewrite Hload]; cbn [c_cached_head c_tail set_cached_head].
  - destruct (Z.eqb h (c_tail c)); [by intros [= <-]|].
    destruct (load_bytes _ _ _); cbn; [|discriminate]. destruct (_ || _); [by intros [= <-] | discriminate].
  - destruct (load_bytes _ _ _); cbn; [|discriminate]. destruct (_ || _); [by intros [= <-] | discriminate].
Qed.

Lemma newest_head cap T q m0 ms c heads h :
  consumer_inv cap T q m0 ms c heads -> last heads = Some h ->
  h = u64 (T + qsize q) /\ acquires_if (peek_loads_head c) heads h (if peek_loads_head c then [h] else heads).
Proof.
  intros Hc Hlast. split.
  - rewrite (ci_heads _ _ _ _ _ _ _ Hc), fmap_last, (ci_last _ _ _ _ _ _ _ Hc) in Hlast.
    injection Hlast as <-. by rewrite covered_all.
  - apply last_Some in Hlast as (older & ->). destruct (peek_loads_head c); [apply acquires_intro | done].
Qed.

(** A fresh peek of a non-empty ring is not empty. *)
Lemma nothing_left cap st r q h c' : is_capacity cap -> ring_rel cap st (r :: q) ->
  last (r_heads st) = Some h -> try_peek (r_cons st) h (r_mem st) <> Some (None, c').
Proof.
  intros Hcap (T & T' & ts & m0 & ms & HT & Hd & Hp & Hc) Hlast Hpeek.
  destruct (newest_head _ _ _ _ _ _ _ _ Hc Hlast) as [Hh Hacq].
  destruct (peek_preserves _ Hcap _ _ _ _ _ _ _ _ _ HT Hd Hc Hacq) as (m1 & ms1 & c2 & Hc2 & Hcase).
  destruct Hcase as [(-> & Hp0 & E) | (r' & q' & off & _ & _ & E & _)]; [|congruence].
  apply peek_none_cached in E; [|apply Hc2].
  rewrite (ci_cached _ _ _ _ _ _ _ Hc2), Hh in E. unfold covered in E. cbn [take qsize] in E.
  pose proof (di_size _ _ _ _ Hd) as Hsz. pose proof (capacity_bounds _ Hcap). cbn [qsize] in *.
  pose proof (rec_size_pos r). pose proof (qsize_nonneg q). unfold kRecordPrefixSize in *.
  apply symmetry, u64_eq in E; lia.
Qed.

(** ** Properties *)

(** C6. Refinement: every interleaving of producer and consumer steps, with
    stale acquire loads and with consumers attaching anew, is an execution of
    the bounded FIFO queue of records, starting from an empty ring. *)
Theorem ring_refines_queue mem evs st :
  is_capacity (area mem) -> all_bytes mem -> ring_exec (initial_ring mem) evs st ->
  exists q, queue_exec (area mem) [] evs q /\ qsize q <= area mem.
Proof.
  intros Hcap Hm Hexec. destruct (reachable_rel mem evs st Hcap Hm Hexec) as (q & Hq & _).
  exists q. split; [done|]. pose proof (capacity_bounds _ Hcap).
  apply (queue_exec_bound _ [] evs q); [cbn; lia | done].
Qed.

Lemma ring_refines_queue_witness :
  exists q, queue_exec 16 [] (demo_prefix ++ [Read demo_record]) q /\ qsize q <= 16.
Proof. exact (ring_refines_queue demo_mem _ _ demo_capacity demo_bytes demo_exec_read). Defined.

(** C7. FIFO delivery, byte for byte: a record the consumer is shown after
    [n] releases is the [n]-th record the producer committed, whatever the
    record sizes, the wrap-arounds of the data area and of the 64-bit
    counters, and the staleness of the loads. *)
Theorem fifo_delivery mem evs r st :
  is_capacity (area mem) -> all_bytes mem -> ring_exec (initial_ring mem) (evs ++ [Read r]) st ->
  committed evs !! releases evs = Some r.
Proof.
  intros Hcap Hm Hexec. destruct (ring_exec_snoc _ _ _ _ Hexec) as (st' & Hpre & Hstep).
  destruct (reachable_rel mem evs st' Hcap Hm Hpre) as (q & Hq & Hrel).
  destruct (ring_rel_step _ _ _ _ _ Hcap Hrel Hstep) as (q' & Hread & _).
  destruct (queue_exec_history _ _ _ Hq) as (done & Hc & Hr).
  inversion Hread; subst. rewrite Hc, <- Hr. by rewrite lookup_app_r, Nat.sub_diag by lia.
Qed.

Lemma fifo_delivery_witness : committed demo_prefix !! releases demo_prefix = Some demo_record.
Proof. exact (fifo_delivery demo_mem demo_prefix demo_record demo_4 demo_capacity demo_bytes demo_exec_read). Defined.

(** C8. No faults: in every reachable state, [try_reserve] and [try_peek] stay
    inside the mirrored mapping for every value their acquire load may return,
    every write through the reserved span succeeds, and the consumer never
    declares the ring corrupted. *)
Theorem operations_never_fault mem evs st :
  is_capacity (area mem) -> all_bytes mem -> ring_exec (initial_ring mem) evs st ->
  (forall size t tails', is_u 64 size -> acquires_if (reserve_loads_tail (r_prod st) size) (r_tails st) t tails' ->
     exists res, try_reserve (r_prod st) t (r_mem st) size = Some res) /\
  (forall h heads', acquires_if (peek_loads_head (r_cons st)) (r_heads st) h heads' ->
     exists span c', try_peek (r_cons st) h (r_mem st) = Some (span, c') /\ c_corrupted c' = false) /\
  (forall i bs, p_pending (r_prod st) <> 0 -> 0 <= i -> all_bytes bs ->
     i + Z.of_nat (length bs) <= p_pending (r_prod st) - kRecordPrefixSize ->
     exists mem', store_bytes (r_mem st) (slot_offset (r_prod st) + i) bs = Some mem').
Proof.
  intros Hcap Hm Hexec. destruct (reachable_rel mem evs st Hcap Hm Hexec) as (q & _ & Hrel).
  destruct Hrel as (T & T' & ts & m0 & ms & HT & Hd & Hp & Hc). split; [|split].
  - intros size t tails' Hsize Hacq.
    destruct (reserve_preserves _ Hcap _ _ _ _ _ _ _ _ _ _ HT Hd Hp Hsize Hacq) as (a & b & c & ? & ? & E & _). eauto.
  - intros h heads' Hacq. destruct (peek_preserves _ Hcap _ _ _ _ _ _ _ _ _ HT Hd Hc Hacq) as (? & ? & c' & Hc' & Hcase) .
    pose proof (ci_corrupted _ _ _ _ _ _ _ Hc').
    destruct Hcase as [(_ & _ & E) | (? & ? & ? & _ & _ & E & _)]; eauto.
  - intros i bs Hne Hi Hbs Hlen.
    destruct (write_preserves _ Hcap _ _ _ _ _ _ _ i bs HT Hd Hp Hne Hi Hlen Hbs) as (mem' & E & _). eauto.
Qed.

Lemma operations_never_fault_witness :
  exists span c', try_peek (r_cons demo_3) 10 (r_mem demo_3) = Some (span, c') /\ c_corrupted c' = false.
Proof.
  refine (proj1 (proj2 (operations_never_fault demo_mem _ _ demo_capacity demo_bytes demo_exec_prefix)) 10 [10] _).
  exact (acquires_intro [0] 10 []).
Defined.

(** C9. Data-race freedom: no byte of the slot the producer has reserved is a
    byte of the record the consumer has in view, although both may lie
    anywhere in the doubly mapped area. *)
Theorem disjoint_windows mem evs st i j :
  is_capacity (area mem) -> all_bytes mem -> ring_exec (initial_ring mem) evs st ->
  0 <= i < p_pending (r_prod st) -> 0 <= j < c_pending (r_cons st) ->
  exists a b,
    mirror_index (area mem) ((p_head (r_prod st) &&& p_mask (r_prod st)) + i) = Some a /\
    mirror_index (area mem) ((c_tail (r_cons st) &&& c_mask (r_cons st)) + j) = Some b /\ a <> b.
Proof.
  intros Hcap Hm Hexec Hi Hj. destruct (reachable_rel mem evs st Hcap Hm Hexec) as (q & _ & Hrel).
  destruct Hrel as (T & T' & ts & m0 & ms & HT & Hd & Hp & Hc). pose proof (capacity_bounds _ Hcap).
  rewrite (slot_offset_mod _ Hcap _ _ _ _ _ _ _ Hp), (consumer_offset _ Hcap _ _ _ _ _ _ Hc).
  destruct (pi_pending _ _ _ _ _ _ _ _ Hp) as [? | (Hp1 & Hp2 & _)]; [lia|].
  destruct (ci_pending _ _ _ _ _ _ _ Hc) as [? | (r & q' & -> & Hcp & _)]; [lia|].
  pose proof (pi_behind _ _ _ _ _ _ _ _ Hp). pose proof (qsize_nonneg q'). cbn [qsize] in *.
  set (cap := area mem) in *. set (base := T + (rec_size r + qsize q')) in *.
  pose proof (Z.mod_pos_bound base cap ltac:(lia)). pose proof (Z.mod_pos_bound T cap ltac:(lia)).
  exists ((base + i) mod cap), ((T + j) mod cap).
  unfold cap at 1 3. rewrite (mirror_index_mod mem) with (c := base + i), (mirror_index_mod mem) with (c := T + j);
    fold cap; try apply window_mod; try lia.
  split_and!; [done | done|]. intros Heq.
  assert (Hdiff : (base + i - (T + j)) mod cap = 0) by (rewrite Zminus_mod, Heq, Z.sub_diag; apply Z.mod_0_l; lia).
  rewrite Z.mod_small in Hdiff; lia.
Qed.

Lemma disjoint_windows_witness :
  exists a b, mirror_index 16 (10 + 5) = Some a /\ mirror_index 16 (0 + 9) = Some b /\ a <> b.
Proof.
  apply (disjoint_windows demo_mem _ demo_5 5 9 demo_capacity demo_bytes demo_exec_full); by_decide.
Defined.

(** C24. Back-pressure is exact: when the load of [tail] returns its newest
    value, [try_reserve] grants a slot of the requested size exactly when the
    record with its prefix fits into the free space (and into 32 bits). *)
Theorem reserve_exact mem evs st t size :
  is_capacity (area mem) -> all_bytes mem -> ring_exec (initial_ring mem) evs st ->
  last (r_tails st) = Some t -> is_u 64 size ->
  exists res p' mem', try_reserve (r_prod st) t (r_mem st) size = Some (res, p', mem') /\
    (forall off len, res = Some (off, len) -> len = size /\ p_pending p' = kRecordPrefixSize + size) /\
    (is_Some res <-> size <= U32_MAX /\ kRecordPrefixSize + size <= area mem - producer_used (r_prod st) t).
Proof.
  intros Hcap Hm Hexec Hlast Hsize. destruct (reachable_rel mem evs st Hcap Hm Hexec) as (q & _ & Hrel).
  destruct Hrel as (T & T' & ts & m0 & ms & HT & Hd & Hp & Hc). pose proof (capacity_bounds _ Hcap).
  pose proof (qsize_nonneg q). pose proof (di_size _ _ _ _ Hd).
  pose proof (pi_tails _ _ _ _ _ _ _ _ Hp) as Hts. pose proof (pi_last _ _ _ _ _ _ _ _ Hp) as HlastT.
  rewrite Hts, fmap_last, HlastT in Hlast. injection Hlast as <-.
  assert (Hused : producer_used (r_prod st) (u64 T) = qsize q).
  { unfold producer_used. rewrite (pi_head _ _ _ _ _ _ _ _ Hp), u64_diff; lia. }
  assert (Hacq : acquires_if (reserve_loads_tail (r_prod st) size) (r_tails st) (u64 T)
    (if reserve_loads_tail (r_prod st) size then [u64 T] else r_tails st)).
  { destruct (reserve_loads_tail _ _); cbn; [|done]. rewrite Hts.
    apply last_Some in HlastT as (ts0 & ->). rewrite map_app. apply acquires_intro. }
  destruct (reserve_preserves _ Hcap _ _ _ _ _ _ _ _ _ _ HT Hd Hp Hsize Hacq) as (res & p' & mem' & T2 & ts' & E & _).
  exists res, p', mem'. split; [done|]. rewrite Hused. unfold try_reserve in E.
  rewrite (max_record_size_spec _ Hcap _ _ _ _ _ _ _ Hp) in E. unfold is_u in Hsize.
  destruct (Z.ltb_spec (Z.min (area mem - kRecordPrefixSize) U32_MAX) size) as [Hbig | Hfit].
  { injection E as <- _ _. split; [done|]. split; [by intros [? ?]|]. unfold kRecordPrefixSize in *. lia. }
  assert (Hn : u64 (kRecordPrefixSize + size) = kRecordPrefixSize + size).
  { apply u64_small. unfold is_u, kRecordPrefixSize, U32_MAX in *. lia. }
  cbv zeta in E. rewrite Hn, (fresh_lacks_space _ _ _ _ _ _ _ _ _ Hcap Hp (di_size _ _ _ _ Hd)) in E.
  destruct (Z.ltb_spec (area mem - qsize q) (kRecordPrefixSize + size)) as [Hno | Hyes].
  { injection E as <- _ _. split; [done|]. split; [by intros [? ?] | lia]. }
  destruct (store_bytes _ _ _) as [m|]; cbn in E; [|discriminate]. injection E as <- <- _.
  split; [by intros off len [= _ <-]|]. split; [lia | by eexists].
Qed.

Lemma reserve_exact_witness :
  exists res p' mem', try_reserve (r_prod demo_4) 0 (r_mem demo_4) 2 = Some (res, p', mem') /\ is_Some res.
Proof.
  destruct (reserve_exact demo_mem _ demo_4 0 2 demo_capacity demo_bytes demo_exec_read)
    as (res & p' & mem' & E & _ & Hiff); [reflexivity | by_decide |].
  exists res, p', mem'. split; [exact E|]. apply Hiff. by_decide.
Defined.

(** C23. Nothing is stuck in the ring: when the load of [head] returns its
    newest value, [try_peek] shows the oldest unreleased record if the
    producer has committed more than was released, and reports an empty ring
    only when everything was released. *)
Theorem peek_exact mem evs st h :
  is_capacity (area mem) -> all_bytes mem -> ring_exec (initial_ring mem) evs st ->
  last (r_heads st) = Some h ->
  (releases evs <= length (committed evs))%nat /\
  match committed evs !! releases evs with
  | Some r => exists off c', try_peek (r_cons st) h (r_mem st) = Some (Some (off, Z.of_nat (length r)), c') /\
                load_bytes (r_mem st) off (length r) = Some r
  | None => exists c', try_peek (r_cons st) h (r_mem st) = Some (None, c')
  end.
Proof.
  intros Hcap Hm Hexec Hlast. destruct (reachable_rel mem evs st Hcap Hm Hexec) as (q & Hq & Hrel).
  destruct (queue_exec_history _ _ _ Hq) as (done & Hcom & Hdone).
  destruct Hrel as (T & T' & ts & m0 & ms & HT & Hd & Hp & Hc).
  rewrite Hcom, <- Hdone, lookup_app_r, Nat.sub_diag, length_app by lia. split; [lia|].
  destruct (newest_head _ _ _ _ _ _ _ _ Hc Hlast) as [Hh Hacq].
  destruct (peek_preserves _ Hcap _ _ _ _ _ _ _ _ _ HT Hd Hc Hacq) as (m1 & ms1 & c' & Hc' & Hcase).
  destruct q as [|r q]; cbn [lookup list_lookup].
  - destruct Hcase as [(_ & _ & E) | (? & ? & ? & ? & _)]; [eauto | discriminate].
  - destruct Hcase as [(-> & Hp0 & E) | (r' & q' & off & [= <- <-] & _ & E & Hl)]; [|eauto].
    exfalso. eapply (nothing_left (area mem) st r q); [done | by exists T, T', ts, m0, ms | done | exact E].
Qed.

Lemma peek_exact_witness :
  exists off c', try_peek (r_cons demo_3) 10 (r_mem demo_3) = Some (Some (off, 6), c') /\
    load_bytes (r_mem demo_3) off 6 = Some demo_record.
Proof.
  exact (proj2 (peek_exact demo_mem _ demo_3 10 demo_capacity demo_bytes demo_exec_prefix eq_refl)).
Defined.

(** Fill levels are sound: whatever value the load returns,
    [RingProducer::used] and [RingConsumer::used] are at most the capacity,
    across the wrap-around of the counters. *)
Theorem used_bounded mem evs st :
  is_capacity (area mem) -> all_bytes mem -> ring_exec (initial_ring mem) evs st ->
  (forall t, t ∈ r_tails st -> 0 <= producer_used (r_prod st) t <= area mem) /\
  (forall h, h ∈ r_heads st -> 0 <= consumer_used (r_cons st) h <= area mem).
Proof.
  intros Hcap Hm Hexec. destruct (reachable_rel mem evs st Hcap Hm Hexec) as (q & _ & Hrel).
  destruct Hrel as (T & T' & ts & m0 & ms & HT & Hd & Hp & Hc). pose proof (capacity_bounds _ Hcap).
  pose proof (qsize_nonneg q). pose proof (di_size _ _ _ _ Hd). pose proof (pi_fits _ _ _ _ _ _ _ _ Hp). split.
  - intros t Ht. rewrite (pi_tails _ _ _ _ _ _ _ _ Hp) in Ht. apply list_elem_of_In, in_map_iff in Ht as (x & <- & Hx).
    pose proof (pi_range _ _ _ _ _ _ _ _ Hp) as Hr. rewrite Forall_forall in Hr.
    apply list_elem_of_In, Hr in Hx. unfold producer_used.
    rewrite (pi_head _ _ _ _ _ _ _ _ Hp), u64_diff; lia.
  - intros h Hh. rewrite (ci_heads _ _ _ _ _ _ _ Hc) in Hh. apply list_elem_of_In, in_map_iff in Hh as (m & <- & _).
    pose proof (covered_nonneg q m). pose proof (covered_le q m). unfold consumer_used.
    rewrite (ci_tail _ _ _ _ _ _ _ Hc), u64_diff; lia.
Qed.

Lemma used_bounded_witness : 0 <= producer_used (r_prod demo_5) 0 <= 16.
Proof.
  apply (used_bounded demo_mem _ demo_5 demo_capacity demo_bytes demo_exec_full). by_decide.
Defined.
