(* ===== verification/PayloadGenerator.v ===== *)
(** Payload generators: [producer/payload_generator.hpp], [payload_generator.cpp].

    [fill] produces the bytes it writes into a destination of [n] bytes and
    the generator's next state.  The random generator is here lane by lane;
    [VectorLanes.v] has the vector code and proves the two equal. *)
From Stdlib Require Import ZArith Lia.
From stdpp Require Import base numbers list strings.
From S2P Require Import Prelude.

(** ** SplitMix64: the returned value and the new state *)

Definition splitmix64 (state : Z) : Z * Z :=
  let state := u64 (state + 0x9E3779B97F4A7C15) in
  let z := state in
  let z := u64 ((z ⊕ (z ≫ 30)) * 0xBF58476D1CE4E5B9) in
  let z := u64 ((z ⊕ (z ≫ 27)) * 0x94D049BB133111EB) in
  (z ⊕ (z ≫ 31), state).

(** ** Eight xoshiro256+ lanes

    [State::s[4][kLanes]] is kept lane by lane: lane [l] is [s[0..3][l]].
    The vector code steps all lanes in lock-step, element by element. *)

Record lane := { s0 : Z; s1 : Z; s2 : Z; s3 : Z }.

Definition kLanes : nat := 8.
Definition kBlockBytes : nat := kLanes * 8.

Definition rotl45 (x : Z) : Z := u64 (x ≪ 45) ||| (x ≫ 19).

Definition lane_result (l : lane) : Z := u64 (s0 l + s3 l).

Definition lane_next (l : lane) : lane :=
  let t := u64 (s1 l ≪ 17) in
  let x2 := s2 l ⊕ s0 l in
  let x3 := s3 l ⊕ s1 l in
  let x1 := s1 l ⊕ x2 in
  let x0 := s0 l ⊕ x3 in
  let x2 := x2 ⊕ t in
  let x3 := rotl45 x3 in
  {| s0 := x0; s1 := x1; s2 := x2; s3 := x3 |}.

Definition xoshiro_step (v : list lane) : bytes * list lane :=
  (concat (map (fun l => le_bytes 8 (lane_result l)) v), map lane_next v).

(** [while (remaining >= kBlockBytes)], run [blocks] times. *)
Fixpoint fill_blocks (blocks : nat) (v : list lane) : bytes * list lane :=
  match blocks with
  | O => ([], v)
  | S blocks =>
      let '(out, v) := xoshiro_step v in
      let '(rest, v) := fill_blocks blocks v in
      (out ++ rest, v)
  end.

Definition fill_impl (v : list lane) (size : nat) : bytes * list lane :=
  let '(out, v) := fill_blocks (size / kBlockBytes) v in
  let remaining := (size mod kBlockBytes)%nat in
  if Nat.eqb remaining 0 then (out, v)
  else
    let '(block, v) := xoshiro_step v in
    (out ++ take remaining block, v).

(** The constructor: [for l: for word in s: word[l] = splitmix64(sm)]. *)
Definition seed_lane (sm : Z) : lane * Z :=
  let '(w0, sm) := splitmix64 sm in
  let '(w1, sm) := splitmix64 sm in
  let '(w2, sm) := splitmix64 sm in
  let '(w3, sm) := splitmix64 sm in
  ({| s0 := w0; s1 := w1; s2 := w2; s3 := w3 |}, sm).

Fixpoint seed_lanes (n : nat) (sm : Z) : list lane :=
  match n with
  | O => []
  | S n => let '(l, sm) := seed_lane sm in l :: seed_lanes n sm
  end.

Definition RandomPayloadGenerator (seed : Z) : list lane := seed_lanes kLanes seed.

(** ** The byte counter *)

Fixpoint sequential_fill (next : Z) (size : nat) : bytes * Z :=
  match size with
  | O => ([], next)
  | S size => let '(rest, last) := sequential_fill (u8 (next + 1)) size in (next :: rest, last)
  end.

(** ** The factory and the interface *)

Inductive generator :=
  | Random (state : list lane)
  | Sequential (next : Z).

Definition make_payload_generator (kind : string) (seed : Z) : outcome generator :=
  if String.eqb kind "random" then Ret (Random (RandomPayloadGenerator seed))
  else if String.eqb kind "sequential" then Ret (Sequential 0)
  else Throw (InvalidArgument ("unknown payload generator '" +:+ kind +:+ "' (expected: random, sequential)")).

Definition fill (g : generator) (size : nat) : bytes * generator :=
  match g with
  | Random st => let '(out, st) := fill_impl st size in (out, Random st)
  | Sequential next => let '(out, next) := sequential_fill next size in (out, Sequential next)
  end.

(** What [PacketBuilder] relies on: a generator fills exactly the requested
    bytes, and filling in pieces whose sizes are multiples of the block size
    continues the same stream. *)
Class GeneratorLaws {S : Type} (gen_fill : S -> nat -> bytes * S) (ok : S -> Prop) : Prop := {
  gl_length s n : ok s -> length (gen_fill s n).1 = n;
  gl_bytes s n : ok s -> all_bytes (gen_fill s n).1;
  gl_ok s n : ok s -> ok (gen_fill s n).2;
  gl_empty s : gen_fill s 0%nat = ([], s);
  gl_split s n m : ok s -> (kBlockBytes | n)%nat ->
    gen_fill s (n + m)%nat =
      let '(a, s1) := gen_fill s n in let '(b, s2) := gen_fill s1 m in (a ++ b, s2);
}.

Definition lane_wf (l : lane) : Prop := is_u 64 (s0 l) /\ is_u 64 (s1 l) /\ is_u 64 (s2 l) /\ is_u 64 (s3 l).

Definition generator_ok (g : generator) : Prop :=
  match g with
  | Random st => length st = kLanes /\ Forall lane_wf st
  | Sequential next => is_byte next
  end.

(** ** The random stream *)

Lemma xoshiro_step_length v : length (xoshiro_step v).1 = (8 * length v)%nat.
Proof.
  unfold xoshiro_step. cbn [fst]. induction v as [|l v IH]; [done|]. cbn [map concat length].
  rewrite length_app, le_bytes_length, IH. lia.
Qed.

Lemma xoshiro_step_lanes v : length (xoshiro_step v).2 = length v.
Proof. cbn. apply length_map. Qed.

Lemma xoshiro_step_bytes v : all_bytes (xoshiro_step v).1.
Proof.
  unfold xoshiro_step. cbn [fst]. induction v as [|l v IH]; cbn [map concat]; [constructor|].
  apply Forall_app. auto with pc.
Qed.

Lemma fill_blocks_lanes k v : length (fill_blocks k v).2 = length v.
Proof.
  revert v. induction k as [|k IH]; intros v; [done|]. cbn [fill_blocks].
  pose proof (xoshiro_step_lanes v) as Hl. destruct (xoshiro_step v) as [out v1]. cbn in Hl.
  specialize (IH v1). destruct (fill_blocks k v1) as [rest v2]. cbn in *. congruence.
Qed.

Lemma fill_blocks_spec k v : length v = kLanes ->
  length (fill_blocks k v).1 = (k * kBlockBytes)%nat /\ all_bytes (fill_blocks k v).1.
Proof.
  revert v. induction k as [|k IH]; intros v Hv; [by split; [|constructor]|]. cbn [fill_blocks].
  pose proof (xoshiro_step_length v) as Hlen. pose proof (xoshiro_step_bytes v) as Hb.
  pose proof (xoshiro_step_lanes v) as Hl. destruct (xoshiro_step v) as [out v1]. cbn in *.
  destruct (IH v1 ltac:(congruence)) as [IH1 IH2]. destruct (fill_blocks k v1) as [rest v2]. cbn in *.
  rewrite length_app, Hlen, IH1, Hv. split; [done | by apply Forall_app].
Qed.

Lemma fill_blocks_add k m v :
  fill_blocks (k + m) v =
    let '(a, v1) := fill_blocks k v in let '(b, v2) := fill_blocks m v1 in (a ++ b, v2).
Proof.
  revert v. induction k as [|k IH]; intros v; cbn [Nat.add fill_blocks].
  { by destruct (fill_blocks m v). }
  destruct (xoshiro_step v) as [out v1]. rewrite IH. destruct (fill_blocks k v1) as [a v2].
  destruct (fill_blocks m v2) as [b v3]. by rewrite app_assoc.
Qed.

Lemma fill_impl_blocks v k : fill_impl v (k * kBlockBytes) = fill_blocks k v.
Proof.
  unfold fill_impl. rewrite Nat.div_mul, Nat.Div0.mod_mul by done. by destruct (fill_blocks k v).
Qed.

Lemma fill_impl_split v n m : (kBlockBytes | n)%nat ->
  fill_impl v (n + m) =
    let '(a, v1) := fill_impl v n in let '(b, v2) := fill_impl v1 m in (a ++ b, v2).
Proof.
  intros [k ->]. rewrite fill_impl_blocks. unfold fill_impl.
  rewrite Nat.add_comm, Nat.div_add, Nat.Div0.mod_add, Nat.add_comm, fill_blocks_add by done.
  destruct (fill_blocks k v) as [a v1]. destruct (fill_blocks (m / kBlockBytes) v1) as [b v2].
  destruct (Nat.eqb _ 0); [done|]. destruct (xoshiro_step v2) as [c v3]. by rewrite app_assoc.
Qed.

Lemma fill_impl_spec v n : length v = kLanes ->
  length (fill_impl v n).1 = n /\ all_bytes (fill_impl v n).1 /\ length (fill_impl v n).2 = kLanes.
Proof.
  intros Hv. unfold fill_impl. destruct (fill_blocks_spec (n / kBlockBytes) v Hv) as [Hlen Hb].
  pose proof (fill_blocks_lanes (n / kBlockBytes) v) as Hl.
  destruct (fill_blocks (n / kBlockBytes) v) as [out v1]. cbn [fst snd] in *.
  pose proof (Nat.div_mod_eq n kBlockBytes) as Hdm. pose proof (Nat.mod_upper_bound n kBlockBytes ltac:(done)).
  rewrite Nat.mul_comm in Hdm. destruct (Nat.eqb_spec (n mod kBlockBytes) 0) as [Hz | Hne]; cbn [fst snd].
  { split_and!; [lia | done | congruence]. }
  pose proof (xoshiro_step_length v1) as Hsl. pose proof (xoshiro_step_bytes v1) as Hsb.
  pose proof (xoshiro_step_lanes v1) as Hsv. destruct (xoshiro_step v1) as [block v2]. cbn [fst snd] in *.
  rewrite length_app, length_take, Hsl, Hl, Hv.
  change (8 * kLanes)%nat with kBlockBytes. split_and!; [lia | | congruence].
  apply Forall_app. split; [done | by apply Forall_take].
Qed.

(** ** Machine-word facts of the lanes *)

Lemma rotl45_range x : is_u 64 x -> is_u 64 (rotl45 x).
Proof. intros Hx. apply lor_is_u; [lia | apply u64_range | by apply shiftr_is_u]. Qed.

Lemma lane_next_wf l : lane_wf l -> lane_wf (lane_next l).
Proof.
  intros (H0 & H1 & H2 & H3). unfold lane_wf, lane_next. cbn.
  split_and!; try apply rotl45_range; repeat apply lxor_is_u; try done; try lia; apply u64_range.
Qed.

Lemma xoshiro_step_wf v : Forall lane_wf v -> Forall lane_wf (xoshiro_step v).2.
Proof. intros Hv. apply Forall_map. eapply Forall_impl; [exact Hv | apply lane_next_wf]. Qed.

(** Any property that every step preserves survives a fill. *)
Lemma fill_impl_invariant (P : lane -> Prop) v n :
  (forall l, P l -> P (lane_next l)) -> Forall P v -> Forall P (fill_impl v n).2.
Proof.
  intros Hstep Hv. assert (Hs : forall v, Forall P v -> Forall P (xoshiro_step v).2).
  { intros w Hw. apply Forall_map. eapply Forall_impl; [exact Hw | apply Hstep]. }
  assert (Hb : forall k v, Forall P v -> Forall P (fill_blocks k v).2).
  { induction k as [|k IH]; intros w Hw; [done|]. cbn [fill_blocks]. specialize (Hs w Hw).
    destruct (xoshiro_step w) as [out w1]. specialize (IH w1 Hs). by destruct (fill_blocks k w1). }
  unfold fill_impl. specialize (Hb (n / kBlockBytes)%nat v Hv).
  destruct (fill_blocks _ v) as [out v1]. destruct (Nat.eqb _ 0); [done|]. cbn in Hb.
  specialize (Hs v1 Hb). by destruct (xoshiro_step v1).
Qed.

(** ** The byte counter *)

Lemma sequential_fill_app n m s :
  sequential_fill s (n + m) =
    let '(a, s1) := sequential_fill s n in let '(b, s2) := sequential_fill s1 m in (a ++ b, s2).
Proof.
  revert s. induction n as [|n IH]; intros s; cbn [Nat.add sequential_fill].
  { by destruct (sequential_fill s m). }
  rewrite IH. destruct (sequential_fill _ n) as [a s1]. by destruct (sequential_fill s1 m).
Qed.

Lemma sequential_fill_spec s n : is_byte s ->
  sequential_fill s n = (map (fun i => u8 (s + Z.of_nat i)) (seq 0 n), u8 (s + Z.of_nat n)).
Proof.
  revert s. induction n as [|n IH]; intros s Hs.
  { cbn. rewrite Z.add_0_r, u8_small by done. done. }
  cbn [sequential_fill]. rewrite IH by apply u8_range. unfold u8. f_equal.
  - cbn [seq map]. rewrite Z.add_0_r, (Z.mod_small s) by exact Hs. f_equal.
    rewrite <- seq_shift, map_map. apply map_ext. intros i. rewrite Zplus_mod_idemp_l. f_equal. lia.
  - rewrite Zplus_mod_idemp_l. f_equal. lia.
Qed.

#[export] Instance generator_laws : GeneratorLaws fill generator_ok.
Proof.
  constructor.
  - intros [st|next] n Hok; cbn [fill].
    + destruct Hok as [Hl _]. pose proof (fill_impl_spec st n Hl) as (H & _). by destruct (fill_impl st n).
    + rewrite (sequential_fill_spec next n Hok). cbn. by rewrite length_map, length_seq.
  - intros [st|next] n Hok; cbn [fill].
    + destruct Hok as [Hl _]. pose proof (fill_impl_spec st n Hl) as (_ & H & _). by destruct (fill_impl st n).
    + rewrite (sequential_fill_spec next n Hok). apply Forall_map, Forall_forall. intros i _. apply u8_range.
  - intros [st|next] n Hok; cbn [fill].
    + destruct Hok as [Hl Hw]. pose proof (fill_impl_spec st n Hl) as (_ & _ & H).
      pose proof (fill_impl_invariant lane_wf st n lane_next_wf Hw) as H'. by destruct (fill_impl st n).
    + rewrite (sequential_fill_spec next n Hok). apply u8_range.
  - by intros [st|next].
  - intros [st|next] n m Hok Hdiv; cbn [fill].
    + rewrite fill_impl_split by done. destruct (fill_impl st n) as [a v1]. cbn [fill].
      by destruct (fill_impl v1 m) as [b v2].
    + rewrite sequential_fill_app. destruct (sequential_fill next n) as [a n1]. cbn [fill].
      by destruct (sequential_fill n1 m) as [b n2].
Qed.

(** ** No lane is in, or can reach, the fixed point of xoshiro *)

Definition lane_live (l : lane) : Prop :=
  lane_wf l /\ ~ (s0 l = 0 /\ s1 l = 0 /\ s2 l = 0 /\ s3 l = 0).

Lemma odd_multiple_zero x c inv : is_u 64 x -> (c * inv) mod 2 ^ 64 = 1 -> u64 (x * c) = 0 -> x = 0.
Proof.
  intros Hx Hinv Hz. unfold u64 in Hz. rewrite <- (Z.mod_small x (2 ^ 64)) by exact Hx.
  replace x with (x * 1) by lia. rewrite <- Hinv, Zmult_mod_idemp_r, Z.mul_assoc.
  by rewrite <- Zmult_mod_idemp_l, Hz.
Qed.

Lemma xorshift_zero x n : is_u 64 x -> 0 < n -> x ⊕ (x ≫ n) = 0 -> x = 0.
Proof.
  intros [Hx _] Hn Heq. apply Z.lxor_eq in Heq. rewrite Z.shiftr_div_pow2 in Heq by lia.
  pose proof (proj1 (Z.pow_gt_1 2 n ltac:(lia)) Hn). destruct (Z.eq_dec x 0) as [|Hne]; [done|].
  pose proof (Z.div_lt x (2 ^ n) ltac:(lia) ltac:(lia)). lia.
Qed.

Lemma splitmix64_state state : (splitmix64 state).2 = u64 (state + 0x9E3779B97F4A7C15).
Proof. reflexivity. Qed.

Lemma splitmix64_range state : is_u 64 (splitmix64 state).1.
Proof. apply lxor_is_u; [lia | | apply shiftr_is_u; [lia|]]; apply u64_range. Qed.

(** The finaliser of SplitMix64 maps only the state 0 to 0. *)
Lemma splitmix64_zero state : (splitmix64 state).1 = 0 -> u64 (state + 0x9E3779B97F4A7C15) = 0.
Proof.
  intros Hz. apply xorshift_zero in Hz; [|apply u64_range | lia].
  apply (odd_multiple_zero _ _ 0x319642b2d24d8ec3) in Hz; [| |by_decide].
  - apply xorshift_zero in Hz; [|apply u64_range | lia].
    apply (odd_multiple_zero _ _ 0x96de1b173f119089) in Hz; [| |by_decide].
    + apply xorshift_zero in Hz; [done | apply u64_range | lia].
    + apply lxor_is_u; [lia | apply u64_range | apply shiftr_is_u; [lia | apply u64_range]].
  - apply lxor_is_u; [lia | apply u64_range | apply shiftr_is_u; [lia | apply u64_range]].
Qed.

Lemma seed_lane_live sm : lane_live (seed_lane sm).1.
Proof.
  pose proof (splitmix64_range sm) as R0. pose proof (splitmix64_state sm) as S0.
  pose proof (splitmix64_zero sm) as Z0. unfold seed_lane. destruct (splitmix64 sm) as [w0 sm0].
  pose proof (splitmix64_range sm0) as R1. pose proof (splitmix64_zero sm0) as Z1.
  destruct (splitmix64 sm0) as [w1 sm1].
  pose proof (splitmix64_range sm1) as R2. destruct (splitmix64 sm1) as [w2 sm2].
  pose proof (splitmix64_range sm2) as R3. destruct (splitmix64 sm2) as [w3 sm3].
  cbn [fst snd] in *. split; [done|]. cbn. intros (E0 & E1 & _ & _).
  specialize (Z0 E0). specialize (Z1 E1). rewrite S0, Z0 in Z1. vm_compute in Z1. discriminate.
Qed.

Lemma seed_lanes_live n sm : Forall lane_live (seed_lanes n sm).
Proof.
  revert sm. induction n as [|n IH]; intros sm; cbn [seed_lanes]; [constructor|].
  pose proof (seed_lane_live sm). destruct (seed_lane sm) as [l sm']. by constructor.
Qed.

Lemma seed_lanes_length n sm : length (seed_lanes n sm) = n.
Proof.
  revert sm. induction n as [|n IH]; intros sm; cbn [seed_lanes]; [done|].
  destruct (seed_lane sm) as [l sm']. cbn. by rewrite IH.
Qed.

Lemma rotl45_zero x : is_u 64 x -> rotl45 x = 0 -> x = 0.
Proof.
  unfold rotl45, is_u. intros Hx Hz. apply Z.lor_eq_0_iff in Hz as [Hl Hr].
  rewrite Z.shiftl_mul_pow2 in Hl by lia. rewrite Z.shiftr_div_pow2 in Hr by lia. unfold u64 in Hl. mod_lia.
Qed.

Lemma lane_next_live l : lane_live l -> lane_live (lane_next l).
Proof.
  intros [Hw Hne]. split; [by apply lane_next_wf|]. destruct Hw as (W0 & W1 & W2 & W3).
  unfold lane_next. cbn. intros (E0 & E1 & E2 & E3). apply Hne.
  apply rotl45_zero in E3; [|by apply lxor_is_u]. rewrite E3, Z.lxor_0_r in E0.
  apply Z.lxor_eq in E3. rewrite E0, Z.lxor_0_r in *. apply Z.lxor_eq in E1, E2. subst.
  assert (E : s1 l = 0).
  { apply (odd_multiple_zero _ (2 ^ 17 - 1) 0xfff7fffbfffdffff); [done | by_decide|].
    rewrite Z.shiftl_mul_pow2 in E2 by lia. unfold u64, is_u in *. mod_lia. }
  rewrite E3, <- E1. tauto.
Qed.

(** ** Sequences of fills *)

Fixpoint fills (g : generator) (sizes : list nat) : bytes * generator :=
  match sizes with
  | [] => ([], g)
  | n :: sizes => let '(a, g) := fill g n in let '(b, g) := fills g sizes in (a ++ b, g)
  end.

Lemma make_generator_ok kind seed g : make_payload_generator kind seed = Ret g -> generator_ok g.
Proof.
  unfold make_payload_generator. destruct (String.eqb kind "random").
  - intros [= <-]. split; [apply seed_lanes_length|].
    eapply Forall_impl; [apply seed_lanes_live | by intros l []].
  - destruct (String.eqb kind "sequential"); [intros [= <-]; unfold generator_ok, is_byte; lia | discriminate].
Qed.

Lemma fills_blocks g sizes m : generator_ok g -> Forall (fun n => (kBlockBytes | n)%nat) sizes ->
  fills g (sizes ++ [m]) = fill g (sum_list sizes + m).
Proof.
  intros Hok Hdiv. revert g Hok. induction Hdiv as [|n sizes Hn Hdiv IH]; intros g Hok; cbn [app fills sum_list].
  - cbn [Nat.add]. destruct (fill g m) as [a g1]. by rewrite app_nil_r.
  - unfold sum_list. cbn [sum_list_with id]. rewrite <- Nat.add_assoc, gl_split by done.
    pose proof (gl_ok g n Hok) as Hok1. destruct (fill g n) as [a g1].
    by rewrite (IH g1 Hok1).
Qed.

Lemma fills_sequential next sizes : is_byte next ->
  fills (Sequential next) sizes =
    let '(out, last) := sequential_fill next (sum_list sizes) in (out, Sequential last).
Proof.
  revert next. induction sizes as [|n sizes IH]; intros next Hb; [done|]. cbn [fills fill].
  unfold sum_list. cbn [sum_list_with id]. rewrite sequential_fill_app.
  destruct (sequential_fill next n) as [a n1] eqn:E.
  rewrite IH by (rewrite sequential_fill_spec in E by done; injection E as _ <-; apply u8_range).
  unfold sum_list. by destruct (sequential_fill n1 _).
Qed.

Lemma fills_random_invariant (P : lane -> Prop) st sizes :
  (forall l, P l -> P (lane_next l)) -> Forall P st -> length st = kLanes ->
  exists st', (fills (Random st) sizes).2 = Random st' /\ length st' = kLanes /\ Forall P st'.
Proof.
  intros Hstep. revert st. induction sizes as [|n sizes IH]; intros st Hst Hlen; [by exists st|].
  cbn [fills fill]. pose proof (fill_impl_invariant P st n Hstep Hst) as H1.
  destruct (fill_impl_spec st n Hlen) as (_ & _ & L1).
  destruct (fill_impl st n) as [a st1]. destruct (IH st1 H1 L1) as (st2 & E & H2).
  destruct (fills (Random st1) sizes) as [b g2]. exists st2. by split.
Qed.

(** ** Properties *)

(** C30. A payload filled chunk by chunk is the payload filled at once: for
    every generator of the factory, chunks that are multiples of the 64-byte
    block (the last one excepted) yield the same bytes and the same next
    state, exactly as many bytes as requested, whatever the kind. *)
Theorem chunked_fill_is_one_fill kind seed g sizes m :
  make_payload_generator kind seed = Ret g -> Forall (fun n => (kBlockBytes | n)%nat) sizes ->
  fills g (sizes ++ [m]) = fill g (sum_list sizes + m) /\
  length (fill g (sum_list sizes + m)).1 = (sum_list sizes + m)%nat /\
  all_bytes (fill g (sum_list sizes + m)).1.
Proof.
  intros Hmake Hdiv. apply make_generator_ok in Hmake. split; [by apply fills_blocks|].
  split; [by apply gl_length | by apply gl_bytes].
Qed.

Lemma chunked_fill_is_one_fill_witness :
  fills (Random (RandomPayloadGenerator 42)) ([64; 128] ++ [7])%nat
  = fill (Random (RandomPayloadGenerator 42)) 199.
Proof.
  apply (chunked_fill_is_one_fill "random" 42 _ [64; 128]%nat 7); [done|].
  repeat constructor; [by exists 1%nat | by exists 2%nat].
Defined.

(** The sequential generator counts: over any sequence of fills the bytes
    written are 0, 1, ..., 255, 0, 1, ... without a gap between packets. *)
Theorem sequential_counts seed sizes :
  exists g, make_payload_generator "sequential" seed = Ret g /\
    (fills g sizes).1 = map (fun i => Z.of_nat i mod 256) (seq 0 (sum_list sizes)).
Proof.
  exists (Sequential 0). split; [done|]. rewrite fills_sequential by (unfold is_byte; lia).
  by rewrite sequential_fill_spec by (unfold is_byte; lia).
Qed.

(** The random generator cannot get stuck: whatever the seed and the
    sequence of fills, each of its eight lanes stays a vector of four 64-bit
    words that is not all zero, the fixed point of xoshiro256+. *)
Theorem random_lanes_never_stuck seed sizes :
  exists st, (fills (Random (RandomPayloadGenerator seed)) sizes).2 = Random st /\
    length st = kLanes /\ Forall lane_live st.
Proof. apply fills_random_invariant; [apply lane_next_live | apply seed_lanes_live | apply seed_lanes_length]. Qed.
