(* ===== verification/VectorLanes.v ===== *)
(** The vector code of the random generator: [producer/payload_generator.cpp].

    [PayloadGenerator] keeps the state lane by lane; the program keeps it as
    [s[4][kLanes]], loads each row into two vectors of four lanes, and steps
    the vectors element-wise.  Here is that code, with the order of its
    in-place updates, and its equivalence with the lane-by-lane definition.
    The portable and the AVX2 build compile the same [fill_impl]. *)
From Stdlib Require Import ZArith Lia.
From stdpp Require Import base numbers list strings.
From S2P Require Import Prelude PayloadGenerator.

(** [std::uint64_t s[4][kLanes]] *)
Record State := { row0 : list Z; row1 : list Z; row2 : list Z; row3 : list Z }.

(** [v4u64], and the element-wise operators of the vector extension. *)
Abbreviation v4u64 := (list Z).

Definition vec_add (a b : v4u64) : v4u64 := zip_with (fun x y => u64 (x + y)) a b.
Definition vec_xor (a b : v4u64) : v4u64 := zip_with Z.lxor a b.
Definition vec_or (a b : v4u64) : v4u64 := zip_with Z.lor a b.
Definition vec_shl (a : v4u64) (n : Z) : v4u64 := (fun x => u64 (x ≪ n)) <$> a.
Definition vec_shr (a : v4u64) (n : Z) : v4u64 := (fun x => x ≫ n) <$> a.
Definition vec_bytes (a : v4u64) : bytes := concat (le_bytes 8 <$> a).

Definition kVectors : nat := kLanes / 4.

Record Lanes := { v_s0 : list v4u64; v_s1 : list v4u64; v_s2 : list v4u64; v_s3 : list v4u64 }.

(** [memcpy] between a row of eight words and two vectors of four. *)
Definition vectors_of (row : list Z) : list v4u64 := [take 4 row; drop 4 row].

Definition load_lanes (st : State) : Lanes := {|
  v_s0 := vectors_of (row0 st); v_s1 := vectors_of (row1 st);
  v_s2 := vectors_of (row2 st); v_s3 := vectors_of (row3 st) |}.

Definition store_lanes (v : Lanes) : State := {|
  row0 := concat (v_s0 v); row1 := concat (v_s1 v); row2 := concat (v_s2 v); row3 := concat (v_s3 v) |}.

(** The body of the loop over the vectors: the bytes written at
    [out + j * sizeof(v4u64)] and the updated vectors. *)
Definition step_vector (j : nat) (v : Lanes) : bytes * Lanes :=
  let s0 := nth j (v_s0 v) [] in
  let s1 := nth j (v_s1 v) [] in
  let s2 := nth j (v_s2 v) [] in
  let s3 := nth j (v_s3 v) [] in
  let result := vec_add s0 s3 in
  let t := vec_shl s1 17 in
  let s2 := vec_xor s2 s0 in
  let s3 := vec_xor s3 s1 in
  let s1 := vec_xor s1 s2 in
  let s0 := vec_xor s0 s3 in
  let s2 := vec_xor s2 t in
  let s3 := vec_or (vec_shl s3 45) (vec_shr s3 19) in
  (vec_bytes result,
   {| v_s0 := <[j := s0]> (v_s0 v); v_s1 := <[j := s1]> (v_s1 v);
      v_s2 := <[j := s2]> (v_s2 v); v_s3 := <[j := s3]> (v_s3 v) |}).

Fixpoint step_vectors (count j : nat) (v : Lanes) : bytes * Lanes :=
  match count with
  | O => ([], v)
  | S count =>
      let '(out, v) := step_vector j v in
      let '(rest, v) := step_vectors count (S j) v in
      (out ++ rest, v)
  end.

Definition vector_step (v : Lanes) : bytes * Lanes := step_vectors kVectors 0 v.

Fixpoint vector_blocks (blocks : nat) (v : Lanes) : bytes * Lanes :=
  match blocks with
  | O => ([], v)
  | S blocks =>
      let '(out, v) := vector_step v in
      let '(rest, v) := vector_blocks blocks v in
      (out ++ rest, v)
  end.

(** [fill_impl]: the bytes written to a payload of [size] bytes, and the state. *)
Definition vector_fill_impl (st : State) (size : nat) : bytes * State :=
  let v := load_lanes st in
  let '(out, v) := vector_blocks (size / kBlockBytes) v in
  let remaining := (size mod kBlockBytes)%nat in
  if Nat.eqb remaining 0 then (out, store_lanes v)
  else
    let '(block, v) := vector_step v in
    (out ++ take remaining block, store_lanes v).

Definition fill_portable (st : State) (size : nat) : bytes * State := vector_fill_impl st size.
Definition fill_avx2 (st : State) (size : nat) : bytes * State := vector_fill_impl st size.

(** [RandomPayloadGenerator::fill] and [name]; [avx2] is what
    [avx2_available] found when the generator was made. *)
Definition random_fill (avx2 : bool) (st : State) (size : nat) : bytes * State :=
  if avx2 then fill_avx2 st size else fill_portable st size.

Definition random_name (avx2 : bool) : string :=
  if avx2 then "random (xoshiro256+ x8, AVX2)" else "random (xoshiro256+ x8)".

(** The constructor: [state_{}], then lane by lane, word by word. *)
Definition zero_state : State := {|
  row0 := repeat 0 kLanes; row1 := repeat 0 kLanes; row2 := repeat 0 kLanes; row3 := repeat 0 kLanes |}.

Definition seed_words (l : nat) (st : State) (sm : Z) : State * Z :=
  let '(w, sm) := splitmix64 sm in
  let st := {| row0 := <[l := w]> (row0 st); row1 := row1 st; row2 := row2 st; row3 := row3 st |} in
  let '(w, sm) := splitmix64 sm in
  let st := {| row0 := row0 st; row1 := <[l := w]> (row1 st); row2 := row2 st; row3 := row3 st |} in
  let '(w, sm) := splitmix64 sm in
  let st := {| row0 := row0 st; row1 := row1 st; row2 := <[l := w]> (row2 st); row3 := row3 st |} in
  let '(w, sm) := splitmix64 sm in
  ({| row0 := row0 st; row1 := row1 st; row2 := row2 st; row3 := <[l := w]> (row3 st) |}, sm).

Fixpoint seed_rows (count l : nat) (st : State) (sm : Z) : State :=
  match count with
  | O => st
  | S count => let '(st, sm) := seed_words l st sm in seed_rows count (S l) st sm
  end.

Definition random_state (seed : Z) : State := seed_rows kLanes 0 zero_state seed.

(** ** The state lane by lane *)

Definition shaped (st : State) : Prop :=
  length (row0 st) = kLanes /\ length (row1 st) = kLanes /\ length (row2 st) = kLanes /\ length (row3 st) = kLanes.

Definition lane_at (st : State) (l : nat) : lane := {|
  s0 := nth l (row0 st) 0; s1 := nth l (row1 st) 0; s2 := nth l (row2 st) 0; s3 := nth l (row3 st) 0 |}.

Definition lanes_of (st : State) : list lane := lane_at st <$> seq 0 kLanes.

Lemma shaped_rows (P : State -> Prop) :
  (forall a0 a1 a2 a3 a4 a5 a6 a7 b0 b1 b2 b3 b4 b5 b6 b7 c0 c1 c2 c3 c4 c5 c6 c7 d0 d1 d2 d3 d4 d5 d6 d7,
     P {| row0 := [a0; a1; a2; a3; a4; a5; a6; a7]; row1 := [b0; b1; b2; b3; b4; b5; b6; b7];
          row2 := [c0; c1; c2; c3; c4; c5; c6; c7]; row3 := [d0; d1; d2; d3; d4; d5; d6; d7] |}) ->
  forall st, shaped st -> P st.
Proof.
  intros HP [a b c d] (Ha & Hb & Hc & Hd). cbn [row0 row1 row2 row3] in *.
  do 8 (destruct a as [|? a]; [discriminate Ha|]). destruct a; [|discriminate Ha].
  do 8 (destruct b as [|? b]; [discriminate Hb|]). destruct b; [|discriminate Hb].
  do 8 (destruct c as [|? c]; [discriminate Hc|]). destruct c; [|discriminate Hc].
  do 8 (destruct d as [|? d]; [discriminate Hd|]). destruct d; [|discriminate Hd].
  apply HP.
Qed.

Lemma load_store st : shaped st -> store_lanes (load_lanes st) = st.
Proof. revert st. by apply shaped_rows. Qed.

(** One step of the vectors is one step of every lane. *)
Lemma vector_step_lanes st : shaped st ->
  let '(out, v) := vector_step (load_lanes st) in
  out = (xoshiro_step (lanes_of st)).1 /\ v = load_lanes (store_lanes v) /\ shaped (store_lanes v) /\
  lanes_of (store_lanes v) = (xoshiro_step (lanes_of st)).2.
Proof. revert st. apply shaped_rows. intros. split; [|split; [|split; [repeat split|]]]; reflexivity. Qed.

Lemma vector_blocks_lanes k st : shaped st ->
  let '(out, v) := vector_blocks k (load_lanes st) in
  out = (fill_blocks k (lanes_of st)).1 /\ v = load_lanes (store_lanes v) /\ shaped (store_lanes v) /\
  lanes_of (store_lanes v) = (fill_blocks k (lanes_of st)).2.
Proof.
  revert st. induction k as [|k IH]; intros st Hst; cbn [vector_blocks fill_blocks].
  { by rewrite load_store. }
  pose proof (vector_step_lanes st Hst) as Hstep. destruct (vector_step (load_lanes st)) as [out v].
  destruct (xoshiro_step (lanes_of st)) as [out' v']. cbn [fst snd] in Hstep. destruct Hstep as (-> & Hv & Hsh & <-).
  specialize (IH _ Hsh). rewrite <- Hv in IH. destruct (vector_blocks k v) as [rest v2].
  destruct (fill_blocks k _) as [rest' v2']. cbn [fst snd] in *. destruct IH as (-> & ? & ? & <-). done.
Qed.

Lemma vector_fill_lanes st n : shaped st ->
  (vector_fill_impl st n).1 = (fill_impl (lanes_of st) n).1 /\ shaped (vector_fill_impl st n).2 /\
  lanes_of (vector_fill_impl st n).2 = (fill_impl (lanes_of st) n).2.
Proof.
  intros Hst. unfold vector_fill_impl, fill_impl. pose proof (vector_blocks_lanes (n / kBlockBytes) st Hst) as Hb.
  destruct (vector_blocks _ _) as [out v]. destruct (fill_blocks _ _) as [out' v']. cbn [fst snd] in Hb.
  destruct Hb as (-> & Hv & Hsh & <-). destruct (Nat.eqb _ 0); [done|].
  pose proof (vector_step_lanes _ Hsh) as Hstep. rewrite <- Hv in Hstep. destruct (vector_step v) as [block v2].
  destruct (xoshiro_step _) as [block' v2']. cbn [fst snd] in *. destruct Hstep as (-> & _ & ? & <-). done.
Qed.

Definition set_lane (l : nat) (x : lane) (st : State) : State := {|
  row0 := <[l := s0 x]> (row0 st); row1 := <[l := s1 x]> (row1 st);
  row2 := <[l := s2 x]> (row2 st); row3 := <[l := s3 x]> (row3 st) |}.

Lemma seed_words_lane l st sm : seed_words l st sm = (set_lane l (seed_lane sm).1 st, (seed_lane sm).2).
Proof.
  unfold seed_words, seed_lane. destruct (splitmix64 sm) as [w0 sm0], (splitmix64 sm0) as [w1 sm1] eqn:E1.
  destruct (splitmix64 sm1) as [w2 sm2] eqn:E2, (splitmix64 sm2) as [w3 sm3] eqn:E3. reflexivity.
Qed.

(** Seeding in place gives the lanes of [RandomPayloadGenerator]. *)
Lemma seed_lanes_rows seed : shaped (random_state seed) /\ lanes_of (random_state seed) = RandomPayloadGenerator seed.
Proof.
  unfold random_state, RandomPayloadGenerator, kLanes. cbn [seed_rows seed_lanes].
  repeat (rewrite seed_words_lane; match goal with |- context [seed_lane ?x] => destruct (seed_lane x) as [[] ?] end;
          cbn [fst snd]).
  split; [repeat split|]; reflexivity.
Qed.

(** Consecutive fills of the given sizes: what each writes. *)
Fixpoint fills {S} (step : S -> nat -> bytes * S) (s : S) (sizes : list nat) : list bytes :=
  match sizes with
  | [] => []
  | n :: sizes => let '(out, s) := step s n in out :: fills step s sizes
  end.

Lemma fills_lanes avx2 st sizes : shaped st ->
  fills (random_fill avx2) st sizes = fills fill (Random (lanes_of st)) sizes.
Proof.
  revert st. induction sizes as [|n sizes IH]; intros st Hst; [done|]. cbn [fills fill].
  assert (E : random_fill avx2 st n = vector_fill_impl st n) by (by destruct avx2). rewrite E.
  destruct (vector_fill_lanes st n Hst) as (H1 & H2 & H3).
  destruct (vector_fill_impl st n) as [out st'], (fill_impl (lanes_of st) n) as [out' v']. cbn [fst snd] in *. subst.
  f_equal. by apply IH.
Qed.

(** C18. The vector code is the lane-by-lane generator: seeded alike, any
    sequence of fills of any sizes, in the AVX2 or in the portable build, writes
    the same bytes as eight scalar generators stepped in turn. *)
Theorem vector_code_is_lanes avx2 seed sizes :
  fills (random_fill avx2) (random_state seed) sizes = fills fill (Random (RandomPayloadGenerator seed)) sizes.
Proof. destruct (seed_lanes_rows seed) as [Hsh <-]. by apply fills_lanes. Qed.
