(* ===== verification/PacketBuilder.v ===== *)
(** Packet builder: [producer/packet_builder.hpp], [packet_builder.cpp].

    The builder is a client of two interfaces: [IPayloadGenerator]
    ([gen_fill], with the laws of [GeneratorLaws]) and [IChecksum] (with the
    laws of [ChecksumLaws]).  [None] is an access outside the record. *)
From Stdlib Require Import ZArith Lia.
From stdpp Require Import base numbers list strings.
From S2P Require Import Prelude Checksum Packet PayloadGenerator.

Definition kChunkBytes : nat := 8 * 1024.

Section Builder.
Context {S : Type} (gen_fill : S -> nat -> bytes * S) (c : IChecksum).

(** The chunk loop; [off] is where the span [payload] starts in [record]. *)
Fixpoint build_payload (fuel : nat) (record : bytes) (off : nat) (g : S) (state : Z) : option (bytes * S * Z) :=
  match fuel with
  | O => None
  | Datatypes.S fuel =>
      let remaining := (length record - off)%nat in
      if decide (remaining = 0%nat) then Some (record, g, state)
      else
        let chunk := Nat.min remaining kChunkBytes in
        let '(data, g) := gen_fill g chunk in
        record ← memcpy_into off data record;
        let state := ck_update c state (slice off chunk record) in
        build_payload fuel record (off + chunk)%nat g state
  end.

Definition build (record : bytes) (g : S) (sequence wall_clock_ns : Z) : option (bytes * S) :=
  record ← write_header record sequence wall_clock_ns (ck_kind c);
  let state := ck_update c (ck_begin c) (take 32 record) in
  '(record, g, state) ← build_payload (Datatypes.S (length record)) record 32 g state;
  record ← patch_checksum record (ck_finish c state);
  Some (record, g).
End Builder.

(** ** The chunk loop writes and hashes one uninterrupted fill *)

Section BuilderSpec.
Context {S : Type} (gen_fill : S -> nat -> bytes * S) (ok : S -> Prop) `{!GeneratorLaws gen_fill ok}.
Context (c : IChecksum) `{!ChecksumLaws c}.

Lemma chunk_is_blocks : (kBlockBytes | kChunkBytes)%nat.
Proof. by exists 128%nat. Qed.

Lemma build_payload_step fuel pre old rest g state :
  ok g -> old <> [] -> length old = Nat.min (length (old ++ rest)) kChunkBytes ->
  build_payload gen_fill c (Datatypes.S fuel) (pre ++ old ++ rest) (length pre) g state =
    build_payload gen_fill c fuel (pre ++ (gen_fill g (length old)).1 ++ rest) (length pre + length old)
      (gen_fill g (length old)).2 (ck_update c state (gen_fill g (length old)).1).
Proof.
  intros Hok Hne Hlen. cbn [build_payload].
  replace (length (pre ++ old ++ rest) - length pre)%nat with (length (old ++ rest)) by (rewrite (length_app pre); lia).
  assert (length old <> 0%nat) by (by destruct old).
  rewrite decide_False by (rewrite length_app; lia). rewrite <- Hlen.
  pose proof (gl_length g (length old) Hok) as Hl. destruct (gen_fill g (length old)) as [data g']. cbn [fst snd] in *.
  rewrite memcpy_into_Some by (rewrite !length_app; lia). cbn [mbind option_bind].
  rewrite overwrite_app by congruence. do 2 f_equal. rewrite <- Hl. apply slice_app.
Qed.

Lemma build_payload_spec fuel pre rest g state :
  ok g -> is_u 32 state -> (length rest < fuel)%nat ->
  build_payload gen_fill c fuel (pre ++ rest) (length pre) g state =
    Some (pre ++ (gen_fill g (length rest)).1, (gen_fill g (length rest)).2,
          ck_update c state (gen_fill g (length rest)).1).
Proof.
  revert pre rest g state. induction fuel as [|fuel IH]; intros pre rest g state Hok Hst Hf; [lia|].
  destruct (decide (rest = [])) as [-> | Hne].
  { cbn [build_payload]. rewrite app_nil_r, decide_True by lia. cbn [length]. rewrite gl_empty. cbn [fst snd].
    rewrite app_nil_r. do 2 f_equal. symmetry. by apply cl_update_nil. }
  set (n := Nat.min (length rest) kChunkBytes). rewrite <- (take_drop n rest) at 1.
  assert (Hn : length (take n rest) = n) by (rewrite length_take; lia).
  assert (Hpos : (0 < n)%nat) by (destruct rest; [done | unfold n, kChunkBytes; cbn [length]; lia]).
  rewrite build_payload_step; [ | done | by destruct (take n rest); cbn in *; [lia|] | by rewrite take_drop].
  rewrite Hn. pose proof (gl_length g n Hok) as Hl. pose proof (gl_bytes g n Hok) as Hb.
  pose proof (gl_ok g n Hok) as Hok'.
  assert (Hsplit : gen_fill g (length rest) =
    let '(a, s1) := gen_fill g n in let '(b, s2) := gen_fill s1 (length rest - n)%nat in (a ++ b, s2)).
  { destruct (Nat.le_gt_cases (length rest) kChunkBytes) as [Hle | Hgt].
    - replace n with (length rest) by lia. rewrite Nat.sub_diag. destruct (gen_fill g (length rest)) as [a s1].
      rewrite gl_empty. by rewrite app_nil_r.
    - replace (length rest) with (n + (length rest - n))%nat at 1 by lia. apply gl_split; [done|].
      replace n with kChunkBytes by lia. apply chunk_is_blocks. }
  rewrite Hsplit. destruct (gen_fill g n) as [a g1]. cbn [fst snd] in *.
  rewrite app_assoc, <- Hl, <- length_app.
  rewrite IH; [ | done | by apply cl_update_range | rewrite length_drop; lia].
  rewrite length_drop, Hl. pose proof (gl_bytes g1 (length rest - n) Hok') as Hb1.
  destruct (gen_fill g1 (length rest - n)) as [b g2]. cbn [fst snd] in *.
  by rewrite <- app_assoc, cl_update_app.
Qed.

Lemma build_is_seal record g seq ts :
  ok g -> all_bytes record -> (32 <= length record)%nat ->
  let '(payload, g') := gen_fill g (length record - 32)%nat in
  exists sealed, build gen_fill c record g seq ts = Some (sealed, g') /\
    seal_packet (take 32 record ++ payload) seq ts c = Some sealed /\ drop 32 sealed = payload.
Proof.
  intros Hok Hb Hlen. pose proof (gl_length g (length record - 32) Hok) as Hl.
  pose proof (gl_bytes g (length record - 32) Hok) as Hp.
  assert (H32 : length (take 32 record) = 32%nat) by (rewrite length_take; lia).
  destruct (gen_fill g (length record - 32)) as [payload g'] eqn:Hfill. cbn [fst snd] in *.
  rewrite (seal_packet_app c (take 32 record) payload seq ts H32). eexists. split_and!; [|done|].
  2: { rewrite drop_app_length'; [done | by rewrite header_bytes_length]. }
  unfold build. rewrite <- (take_drop 32 record) at 1.
  rewrite write_header_app by done. cbn [mbind option_bind].
  rewrite take_app_length' by (by rewrite header_bytes_length).
  set (h := fresh_header _ _ _ _). set (fuel := Datatypes.S _).
  pose proof (build_payload_spec fuel (header_bytes h) (drop 32 record) g
    (ck_update c (ck_begin c) (header_bytes h)) Hok) as Hloop.
  rewrite header_bytes_length, length_drop, Hfill in Hloop. cbn [fst snd] in Hloop.
  rewrite Hloop; [ | apply cl_update_range; auto using cl_begin_range with pc
    | unfold fuel; rewrite length_app, length_drop; lia].
  cbn [mbind option_bind]. rewrite patch_checksum_app. cbn [mbind option_bind]. do 3 f_equal.
  - f_equal. unfold h. rewrite length_drop, Hl. unfold compute.
    by rewrite cl_update_app by (auto using cl_begin_range with pc).
Qed.
End BuilderSpec.

(** The precondition [record.size() >= kHeaderSize] is necessary. *)
Lemma build_needs_header {S} (gen_fill : S -> nat -> bytes * S) c record g seq ts :
  (length record < 32)%nat -> build gen_fill c record g seq ts = None.
Proof.
  intros Hlen. unfold build, write_header, memcpy_into.
  by rewrite decide_False by (rewrite header_bytes_length; lia).
Qed.

(** ** Properties *)

(** [PacketBuilder::build] is correct for every generator and every
    checksum of the program: generating and hashing in 8 KiB chunks takes
    exactly the next [size - 32] bytes of the generator's stream, and the
    record is the one [seal_packet] would make of that payload; the loop
    terminates and never leaves the record. *)
Theorem build_seals_one_fill kind seed g m k c record seq ts :
  make_payload_generator kind seed = Ret g -> CpuSpec m -> registry_find m k = Some c ->
  all_bytes record -> (32 <= length record)%nat ->
  let '(payload, g') := fill g (length record - 32) in
  exists sealed, build fill c record g seq ts = Some (sealed, g') /\
    seal_packet (take 32 record ++ payload) seq ts c = Some sealed /\
    drop 32 sealed = payload /\ length payload = (length record - 32)%nat.
Proof.
  intros Hg Hm Hfind Hb Hlen. pose proof (registry_laws m k c Hfind).
  apply make_generator_ok in Hg. pose proof (build_is_seal fill generator_ok c record g seq ts Hg Hb Hlen) as Hs.
  pose proof (gl_length g (length record - 32) Hg) as Hl.
  destruct (fill g (length record - 32)) as [payload g']. destruct Hs as (sealed & H1 & H2 & H3).
  by exists sealed.
Qed.

Lemma build_seals_one_fill_witness :
  exists sealed, build fill Crc32 (repeat 0 40) (Sequential 0) 5 77 = Some (sealed, Sequential 8) /\
    drop 32 sealed = [0; 1; 2; 3; 4; 5; 6; 7].
Proof.
  destruct (build_seals_one_fill "sequential" 0 (Sequential 0) sse42 1 Crc32 (repeat 0 40) 5 77)
    as (sealed & H1 & _ & H3 & _); [done | apply _ | done | by_decide | by_decide |].
  by exists sealed.
Defined.
