(* ===== verification/PacketValidator.v ===== *)
(** Packet validation: [consumer/packet_validator.hpp], [packet_validator.cpp].

    [validate] takes the validator's state and returns the result and the next
    state.  [None] is an access outside the record or an overflow of the
    signed nanosecond arithmetic. *)
From Stdlib Require Import ZArith Lia Ascii.
From stdpp Require Import base numbers list sets strings.
From S2P Require Import Prelude Checksum Packet.

Inductive Defect :=
  | BadMagic | BadVersion | BadHeaderSize | SizeMismatch | BadChecksum
  | SequenceGap | SequenceRewind | TimestampFuture | TimestampBackward | UnknownChecksum.

#[export] Instance Defect_eq_dec : EqDecision Defect.
Proof. solve_decision. Defined.

Definition defect_bit (d : Defect) : Z :=
  match d with
  | BadMagic => 0 | BadVersion => 1 | BadHeaderSize => 2 | SizeMismatch => 3 | BadChecksum => 4
  | SequenceGap => 5 | SequenceRewind => 6 | TimestampFuture => 7 | TimestampBackward => 8
  | UnknownChecksum => 9
  end.

Definition defect_code (d : Defect) : Z := 1 ≪ defect_bit d.

Definition kCorruptionDefects : Z :=
  defect_code BadMagic ||| defect_code BadVersion ||| defect_code BadHeaderSize
  ||| defect_code SizeMismatch ||| defect_code BadChecksum ||| defect_code UnknownChecksum.

Record ValidationResult := {
  defects : Z;
  vr_sequence : Z;
  missing : Z;
  latency_ns : Z;
}.

Definition has (r : ValidationResult) (d : Defect) : bool := negb (Z.eqb (defects r &&& defect_code d) 0).
Definition corrupted (r : ValidationResult) : bool := negb (Z.eqb (defects r &&& kCorruptionDefects) 0).
Definition anomalous (r : ValidationResult) : bool :=
  negb (Z.eqb (defects r &&& u32 (Z.lnot kCorruptionDefects)) 0).
Definition clean (r : ValidationResult) : bool := Z.eqb (defects r) 0.

Definition kNames : list (Defect * string) := [
  (BadMagic, "bad magic"); (BadVersion, "bad version"); (BadHeaderSize, "bad header size");
  (SizeMismatch, "size mismatch"); (BadChecksum, "bad checksum"); (SequenceGap, "sequence gap");
  (SequenceRewind, "sequence rewind"); (TimestampFuture, "timestamp in the future");
  (TimestampBackward, "timestamp went backwards"); (UnknownChecksum, "unknown checksum algorithm")]%string.

Definition describe_step (defects : Z) (text : string) (entry : Defect * string) : string :=
  let '(defect, name) := entry in
  if negb (Z.eqb (defects &&& defect_code defect) 0) then
    (if String.eqb text "" then text else text +:+ ", ") +:+ name
  else text.

Definition describe_defects (defects : Z) : string :=
  let text := fold_left (describe_step defects) kNames ""%string in
  if String.eqb text "" then "ok"%string else text.

Record PacketValidator := {
  future_tolerance_ns : Z;
  has_baseline : bool;
  expected_sequence : Z;
  last_timestamp_ns : Z;
}.

Definition new_validator (future_tolerance : Z) : PacketValidator := {|
  future_tolerance_ns := future_tolerance; has_baseline := false;
  expected_sequence := 0; last_timestamp_ns := 0 |}.

Definition resync (v : PacketValidator) : PacketValidator := {|
  future_tolerance_ns := future_tolerance_ns v; has_baseline := false;
  expected_sequence := expected_sequence v; last_timestamp_ns := last_timestamp_ns v |}.

Definition add_defect (cond : bool) (d : Defect) (defects : Z) : Z :=
  if cond then defects ||| defect_code d else defects.

Section Validate.
Context (find : Z -> option IChecksum).

(** The checks up to [if (result.corrupted())]. *)
Definition content_defects (record : bytes) (header : PacketHeader) : option Z :=
  let d := 0 in
  let d := add_defect (negb (Z.eqb (magic header) kPacketMagic)) BadMagic d in
  let d := add_defect (negb (Z.eqb (version header) kPacketVersion)) BadVersion d in
  let d := add_defect (negb (Z.eqb (header_size header) kHeaderSize)) BadHeaderSize d in
  let d := add_defect (negb (Z.eqb (payload_size header) (Z.of_nat (length record) - kHeaderSize))) SizeMismatch d in
  match find (checksum_kind header) with
  | Some c =>
      sum ← packet_checksum record c;
      Some (add_defect (negb (Z.eqb sum (checksum header))) BadChecksum d)
  | None => Some (add_defect true UnknownChecksum d)
  end.

Definition validate (v : PacketValidator) (record : bytes) (now_ns : Z)
    : option (ValidationResult * PacketValidator) :=
  if Z.ltb (Z.of_nat (length record)) kHeaderSize then
    Some ({| defects := 0 ||| (defect_code BadHeaderSize ||| defect_code SizeMismatch);
             vr_sequence := 0; missing := 0; latency_ns := 0 |}, v)
  else
    header ← read_header record;
    d ← content_defects record header;
    let result := {| defects := d; vr_sequence := sequence header; missing := 0; latency_ns := 0 |} in
    if corrupted result then Some (result, v)
    else
      latency ← checked_i64 (now_ns - timestamp_ns header);
      latest ← checked_i64 (now_ns + future_tolerance_ns v);
      let d := add_defect (Z.ltb latest (timestamp_ns header)) TimestampFuture d in
      let gap := Z.ltb (expected_sequence v) (sequence header) in
      let rewind := Z.ltb (sequence header) (expected_sequence v) in
      let '(d, missing) :=
        if has_baseline v then
          let '(d, missing) :=
            if gap then (add_defect true SequenceGap d, u64 (sequence header - expected_sequence v))
            else (add_defect rewind SequenceRewind d, 0) in
          (add_defect (Z.ltb (timestamp_ns header) (last_timestamp_ns v)) TimestampBackward d, missing)
        else (d, 0) in
      Some ({| defects := d; vr_sequence := sequence header; missing := missing; latency_ns := latency |},
            {| future_tolerance_ns := future_tolerance_ns v; has_baseline := true;
               expected_sequence := u64 (sequence header + 1); last_timestamp_ns := timestamp_ns header |}).
End Validate.

(** ** Sets of defects *)

Definition all_defects : list Defect :=
  [BadMagic; BadVersion; BadHeaderSize; SizeMismatch; BadChecksum;
   SequenceGap; SequenceRewind; TimestampFuture; TimestampBackward; UnknownChecksum].

Definition is_corruption (d : Defect) : bool :=
  match d with
  | BadMagic | BadVersion | BadHeaderSize | SizeMismatch | BadChecksum | UnknownChecksum => true
  | _ => false
  end.

(** The word that has the bits of the defects selected by [f]. *)
Definition encode (f : Defect -> bool) : Z :=
  fold_right (fun d acc => if f d then defect_code d ||| acc else acc) 0 all_defects.

Lemma test_code x d : negb (Z.eqb (x &&& defect_code d) 0) = Z.testbit x (defect_bit d).
Proof.
  assert (Hd : 0 <= defect_bit d) by (by destruct d).
  unfold defect_code. rewrite Z.shiftl_1_l.
  destruct (Z.eqb_spec (x &&& 2 ^ defect_bit d) 0) as [Hz | Hnz]; cbn [negb].
  - apply (f_equal (fun z => Z.testbit z (defect_bit d))) in Hz.
    by rewrite Z.land_spec, Z.pow2_bits_true, andb_true_r, Z.bits_0 in Hz by done.
  - destruct (Z.testbit x (defect_bit d)) eqn:Hb; [done|]. destruct Hnz. bitwise.
    rewrite Z.pow2_bits_eqb, Z.bits_0 by done.
    destruct (Z.eqb_spec (defect_bit d) k) as [<- |]; [by rewrite Hb | apply andb_false_r].
Qed.

Lemma test_defect d d' : Z.testbit (defect_code d) (defect_bit d') = Z.eqb (defect_bit d) (defect_bit d').
Proof. by destruct d, d'. Qed.

Lemma test_add cond d x d' :
  Z.testbit (add_defect cond d x) (defect_bit d') = Z.testbit x (defect_bit d') || cond && Z.eqb (defect_bit d) (defect_bit d').
Proof.
  unfold add_defect. destruct cond; cbn [andb]; [|by rewrite orb_false_r]. by rewrite Z.lor_spec, test_defect.
Qed.

Lemma encode_test f d : Z.testbit (encode f) (defect_bit d) = f d.
Proof.
  assert (Hstep : forall l, Z.testbit (fold_right (fun d acc => if f d then defect_code d ||| acc else acc) 0 l)
                      (defect_bit d) = bool_decide (d ∈ l) && f d).
  { induction l as [|d' l IH]; cbn [fold_right]; [by rewrite Z.bits_0|].
    destruct (f d') eqn:Hf; rewrite ?Z.lor_spec, ?test_defect, IH; destruct (decide (d' = d)) as [-> | Hne].
    - by rewrite Z.eqb_refl, (bool_decide_true (d ∈ d :: l)), Hf by set_solver.
    - rewrite (proj2 (Z.eqb_neq _ _)) by (by destruct d, d'). cbn [orb]. f_equal. apply bool_decide_ext. rewrite elem_of_cons. intuition congruence.
    - by rewrite Hf, !andb_false_r.
    - f_equal. apply bool_decide_ext. rewrite elem_of_cons. intuition congruence. }
  unfold encode. rewrite Hstep, bool_decide_true; [done|]. destruct d; by_decide.
Qed.

Lemma encode_ext f g : (forall d, f d = g d) -> encode f = encode g.
Proof. intros H. unfold encode, all_defects. cbn [fold_right]. by rewrite !H. Qed.

(** A word of defect bits is determined by the defects it has. *)
Definition defects_only (x : Z) : Prop := forall k, Z.testbit x k = true -> exists d, k = defect_bit d.

Lemma defects_only_0 : defects_only 0.
Proof. intros k. by rewrite Z.bits_0. Qed.

Lemma defects_only_code d : defects_only (defect_code d).
Proof.
  intros k Hk. exists d. unfold defect_code in Hk. assert (Hd : 0 <= defect_bit d) by (by destruct d).
  rewrite Z.shiftl_1_l, Z.pow2_bits_eqb in Hk by done. by apply Z.eqb_eq in Hk.
Qed.

Lemma defects_only_lor x y : defects_only x -> defects_only y -> defects_only (x ||| y).
Proof. intros Hx Hy k Hk. rewrite Z.lor_spec in Hk. apply orb_true_iff in Hk as [|]; auto. Qed.

Lemma defects_only_add cond d x : defects_only x -> defects_only (add_defect cond d x).
Proof. intros Hx. unfold add_defect. destruct cond; auto using defects_only_lor, defects_only_code. Qed.

Lemma defects_only_encode f : defects_only (encode f).
Proof.
  unfold encode. induction all_defects as [|d l IH]; cbn [fold_right]; [apply defects_only_0|].
  destruct (f d); auto using defects_only_lor, defects_only_code.
Qed.

Lemma defects_only_eq x f : defects_only x -> (forall d, Z.testbit x (defect_bit d) = f d) -> x = encode f.
Proof.
  intros Hx Hf. apply Z.bits_inj'. intros k Hk.
  destruct (Z.testbit x k) eqn:Ex, (Z.testbit (encode f) k) eqn:Ee; try done.
  - destruct (Hx k Ex) as [d ->]. rewrite encode_test in Ee. rewrite Hf in Ex. congruence.
  - destruct (defects_only_encode f k Ee) as [d ->]. rewrite encode_test in Ee. rewrite Hf in Ex. congruence.
Qed.

Lemma has_encode r f d : defects r = encode f -> has r d = f d.
Proof. intros Hr. unfold has. by rewrite test_code, Hr, encode_test. Qed.

Lemma corrupted_has r : corrupted r = existsb (fun d => is_corruption d && has r d) all_defects.
Proof.
  unfold corrupted, kCorruptionDefects, has. set (x := defects r).
  assert (Hor : forall a b, negb (Z.eqb (x &&& (a ||| b)) 0) = negb (Z.eqb (x &&& a) 0) || negb (Z.eqb (x &&& b) 0)).
  { intros a b. rewrite Z.land_lor_distr_r.
    destruct (Z.eqb_spec (x &&& a) 0) as [-> | Ha]; [by rewrite Z.lor_0_l|].
    destruct (Z.eqb_spec ((x &&& a) ||| (x &&& b)) 0) as [He |]; [|done].
    apply Z.lor_eq_0_iff in He as [? _]. congruence. }
  rewrite !Hor. unfold all_defects. cbn [existsb is_corruption andb orb].
  rewrite orb_false_r, !orb_assoc. done.
Qed.

Lemma clean_has r : defects_only (defects r) -> clean r = forallb (fun d => negb (has r d)) all_defects.
Proof.
  intros Hr. unfold clean. destruct (Z.eqb_spec (defects r) 0) as [Hz | Hnz].
  - symmetry. apply forallb_forall. intros d _. unfold has. by rewrite Hz, Z.land_0_l.
  - symmetry. apply not_true_is_false. rewrite forallb_forall. intros Hall. apply Hnz.
    apply Z.bits_inj'. intros k _. rewrite Z.bits_0. destruct (Z.testbit (defects r) k) eqn:Hk; [|done].
    destruct (Hr k Hk) as [d ->]. specialize (Hall d). unfold has in Hall. rewrite test_code, Hk in Hall.
    discriminate Hall. apply list_elem_of_In. destruct d; by_decide.
Qed.

(** ** What the validator promises: one condition per defect *)

Section Spec.
Context (find : Z -> option IChecksum).

(** A structural defect of the record itself. *)
Definition content_fault (record : bytes) (d : Defect) : bool :=
  match read_header record with
  | None => bool_decide (d = BadHeaderSize \/ d = SizeMismatch)
  | Some h =>
      match d with
      | BadMagic => bool_decide (magic h <> kPacketMagic)
      | BadVersion => bool_decide (version h <> kPacketVersion)
      | BadHeaderSize => bool_decide (header_size h <> 32)
      | SizeMismatch => bool_decide (32 + payload_size h <> Z.of_nat (length record))
      | BadChecksum =>
          match find (checksum_kind h) with
          | Some c => bool_decide (packet_checksum record c <> Some (checksum h))
          | None => false
          end
      | UnknownChecksum => match find (checksum_kind h) with Some _ => false | None => true end
      | _ => false
      end
  end.

Definition intact (record : bytes) : bool := forallb (fun d => negb (content_fault record d)) all_defects.

(** A defect of an intact packet's place in the stream. *)
Definition stream_fault (v : PacketValidator) (h : PacketHeader) (now_ns : Z) (d : Defect) : bool :=
  match d with
  | SequenceGap => has_baseline v && bool_decide (expected_sequence v < sequence h)
  | SequenceRewind => has_baseline v && bool_decide (sequence h < expected_sequence v)
  | TimestampFuture => bool_decide (now_ns + future_tolerance_ns v < timestamp_ns h)
  | TimestampBackward => has_baseline v && bool_decide (timestamp_ns h < last_timestamp_ns v)
  | _ => false
  end.

Definition advance (v : PacketValidator) (h : PacketHeader) : PacketValidator := {|
  future_tolerance_ns := future_tolerance_ns v; has_baseline := true;
  expected_sequence := u64 (sequence h + 1); last_timestamp_ns := timestamp_ns h |}.

Definition skipped (v : PacketValidator) (h : PacketHeader) : Z :=
  if stream_fault v h 0 SequenceGap then u64 (sequence h - expected_sequence v) else 0.

Lemma packet_checksum_total record c : (32 <= length record)%nat -> exists sum, packet_checksum record c = Some sum.
Proof. intros H. unfold packet_checksum, read_header. rewrite decide_True by done. cbn. by eexists. Qed.

(** Solves [f d = g d] for each defect once both sides are conditions on
    integers. *)
Lemma negb_eqb a b : negb (Z.eqb a b) = bool_decide (a <> b).
Proof. destruct (Z.eqb_spec a b); symmetry; [apply bool_decide_eq_false | apply bool_decide_eq_true]; tauto. Qed.

Lemma ltb_decide a b : Z.ltb a b = bool_decide (a < b).
Proof. destruct (Z.ltb_spec a b); symmetry; [apply bool_decide_eq_true | apply bool_decide_eq_false]; lia. Qed.

Ltac defect_cases :=
  rewrite ?test_add, ?Z.bits_0; cbn [defect_bit Z.eqb Pos.eqb andb orb];
  rewrite ?andb_true_r, ?andb_false_r, ?orb_false_r; cbn [orb].

Lemma content_defects_spec record h : read_header record = Some h ->
  content_defects find record h = Some (encode (content_fault record)).
Proof.
  intros Hh. assert (Hlen : (32 <= length record)%nat).
  { unfold read_header in Hh. by destruct (decide _). }
  assert (Hsize : bool_decide (payload_size h <> Z.of_nat (length record) - kHeaderSize)
                  = bool_decide (32 + payload_size h <> Z.of_nat (length record))).
  { apply bool_decide_ext. unfold kHeaderSize. lia. }
  unfold content_defects. rewrite !negb_eqb, Hsize. destruct (find (checksum_kind h)) as [c|] eqn:Hf.
  - destruct (packet_checksum_total record c Hlen) as [sum Hsum]. rewrite Hsum. cbn [mbind option_bind]. f_equal.
    apply defects_only_eq; [auto 10 using defects_only_add, defects_only_0|]. intros d.
    unfold content_fault. rewrite Hh, Hf, Hsum, negb_eqb. destruct d; defect_cases; try done.
    apply bool_decide_ext. split; congruence.
  - f_equal. apply defects_only_eq; [auto 10 using defects_only_add, defects_only_0|]. intros d.
    unfold content_fault. rewrite Hh, Hf. destruct d; defect_cases; try done.
Qed.

Lemma corrupted_encode r f : defects r = encode f ->
  corrupted r = existsb (fun d => is_corruption d && f d) all_defects.
Proof.
  intros Hr. rewrite corrupted_has. induction all_defects as [|d l IH]; [done|]. cbn [existsb].
  by rewrite IH, (has_encode r f d Hr).
Qed.

Lemma intact_corrupted r record h : read_header record = Some h ->
  defects r = encode (content_fault record) -> corrupted r = negb (intact record).
Proof.
  intros Hh Hr. rewrite (corrupted_encode r _ Hr). unfold intact, content_fault. rewrite Hh.
  unfold all_defects. cbn [existsb forallb is_corruption andb].
  by rewrite ?andb_true_r, ?orb_false_r, ?negb_andb, ?negb_involutive.
Qed.

Lemma short_record v record now : (length record < 32)%nat ->
  read_header record = None /\
  validate find v record now =
    Some ({| defects := encode (content_fault record); vr_sequence := 0; missing := 0; latency_ns := 0 |}, v).
Proof.
  intros Hlen. assert (Hh : read_header record = None) by (unfold read_header; by rewrite decide_False by lia).
  split; [done|]. unfold validate. rewrite (proj2 (Z.ltb_lt _ _)) by (unfold kHeaderSize; lia).
  unfold content_fault. by rewrite Hh.
Qed.

Lemma read_header_Some record : (32 <= length record)%nat -> exists h, read_header record = Some h.
Proof. intros H. unfold read_header. rewrite decide_True by done. by eexists. Qed.

Lemma intact_header record : intact record = true -> exists h, read_header record = Some h.
Proof.
  intros Hi. destruct (Nat.le_gt_cases 32 (length record)) as [Hle | Hgt]; [by apply read_header_Some|].
  unfold intact, content_fault, read_header in Hi. by rewrite decide_False in Hi by lia.
Qed.

Lemma validate_corrupted v record now : intact record = false ->
  exists r, validate find v record now = Some (r, v) /\ defects r = encode (content_fault record) /\
    missing r = 0 /\ latency_ns r = 0.
Proof.
  intros Hi. destruct (Nat.le_gt_cases 32 (length record)) as [Hle | Hgt].
  - destruct (read_header_Some record Hle) as [h Hh]. unfold validate.
    rewrite (proj2 (Z.ltb_ge _ _)) by (unfold kHeaderSize; lia).
    rewrite Hh. cbn [mbind option_bind]. rewrite (content_defects_spec record h Hh). cbn [mbind option_bind].
    erewrite (intact_corrupted _ record h Hh) by reflexivity. rewrite Hi. cbn [negb]. by eexists.
  - destruct (short_record v record now Hgt) as [_ E]. by eexists.
Qed.

Lemma validate_intact v record now h : intact record = true -> read_header record = Some h ->
  validate find v record now =
    (latency ← checked_i64 (now - timestamp_ns h);
     latest ← checked_i64 (now + future_tolerance_ns v);
     Some ({| defects := encode (stream_fault v h now); vr_sequence := sequence h;
              missing := skipped v h; latency_ns := latency |}, advance v h)).
Proof.
  intros Hi Hh. assert (Hlen : (32 <= length record)%nat) by (unfold read_header in Hh; by destruct (decide _)).
  unfold validate. rewrite (proj2 (Z.ltb_ge _ _)) by (unfold kHeaderSize; lia).
  rewrite Hh. cbn [mbind option_bind]. rewrite (content_defects_spec record h Hh). cbn [mbind option_bind].
  erewrite (intact_corrupted _ record h Hh) by reflexivity. rewrite Hi. cbn [negb].
  assert (Hz : encode (content_fault record) = 0).
  { assert (He : encode (fun _ => false) = 0) by done. rewrite <- He.
    apply encode_ext. intros d. unfold intact in Hi. rewrite forallb_forall in Hi.
    apply negb_true_iff, Hi, list_elem_of_In. destruct d; by_decide. }
  rewrite Hz. destruct (checked_i64 (now - timestamp_ns h)) as [latency|]; [|done]. cbn [mbind option_bind].
  destruct (checked_i64 (now + future_tolerance_ns v)) as [latest|] eqn:Hl; [|done]. cbn [mbind option_bind].
  apply checked_i64_inv in Hl as [-> _]. unfold skipped, advance, stream_fault. rewrite !ltb_decide.
  destruct (has_baseline v); cbn [andb].
  - destruct (bool_decide (expected_sequence v < sequence h)) eqn:Hgap.
    + do 3 f_equal. apply defects_only_eq; [auto using defects_only_add, defects_only_0|].
      intros d. apply bool_decide_eq_true in Hgap.
      rewrite (bool_decide_false (sequence h < _)) by lia. destruct d; defect_cases; done.
    + do 3 f_equal. apply defects_only_eq; [auto using defects_only_add, defects_only_0|].
      intros d. destruct d; defect_cases; done.
  - reflexivity.
Qed.
End Spec.

(** ** Streams of records *)

Fixpoint validate_all (find : Z -> option IChecksum) (v : PacketValidator) (l : list (bytes * Z))
    : option (list ValidationResult * PacketValidator) :=
  match l with
  | [] => Some ([], v)
  | (record, now) :: l =>
      '(r, v) ← validate find v record now;
      '(rs, v) ← validate_all find v l;
      Some (r :: rs, v)
  end.

(** A record the producer sealed with sequence number [seq] at time [ts]. *)
Definition sealed_record (find : Z -> option IChecksum) (seq ts : Z) (record : bytes) : Prop :=
  exists k c old, find k = Some c /\ all_bytes old /\ (32 <= length old)%nat /\ Z.of_nat (length old) < 2 ^ 32 /\
    seal_packet old seq ts c = Some record.

Section Streams.
Context (find : Z -> option IChecksum) `{!RegistryLaws find}.

Lemma sealed_record_intact seq ts record : is_u 64 seq -> is_i64 ts -> sealed_record find seq ts record ->
  intact find record = true /\ all_bytes record /\ (32 <= length record)%nat /\
  exists h, read_header record = Some h /\ sequence h = seq /\ timestamp_ns h = ts.
Proof.
  intros Hseq Hts (k & c & old & Hfind & Hb & Hlen & Hsize & Hseal). pose proof (rl_laws k c Hfind) as Hl.
  destruct (seal_packet_sealed c old seq ts Hb Hlen Hsize Hseq Hts)
    as (h & E & Hw & Hsum & Hmagic & Hver & Hkind & Hhs & Hps & Hs & Ht).
  rewrite (rl_kind k c Hfind) in Hkind. assert (record = header_bytes h ++ drop 32 old) as -> by congruence.
  assert (Hrb : all_bytes (header_bytes h ++ drop 32 old)).
  { apply Forall_app. split; [apply header_bytes_bytes | by apply Forall_drop]. }
  set (record := header_bytes h ++ drop 32 old) in *.
  assert (Hh : read_header record = Some h) by (by apply read_header_app).
  assert (Hrl : length record = length old).
  { unfold record. rewrite length_app, header_bytes_length, length_drop. lia. }
  clearbody record. split_and!; [ | done | lia | by exists h].
  unfold intact, content_fault. rewrite Hh, Hkind, Hfind, Hsum, Hmagic, Hver, Hhs, Hps, Hrl.
  unfold all_defects. cbn [forallb]. rewrite !bool_decide_false by (rewrite ?Hkind; lia || congruence). done.
Qed.

(** A validator that expects sequence number [seq] and a timestamp from [ts] on. *)
Definition awaits (v : PacketValidator) (seq ts : Z) : Prop :=
  has_baseline v = true -> expected_sequence v = u64 seq /\ last_timestamp_ns v <= ts.

Definition timely (tolerance ts now : Z) : Prop :=
  is_i64 ts /\ is_i64 (now - ts) /\ is_i64 (now + tolerance) /\ ts <= now + tolerance.

Lemma validate_expected v seq ts record now :
  sealed_record find (u64 seq) ts record -> awaits v seq ts -> timely (future_tolerance_ns v) ts now ->
  exists r v', validate find v record now = Some (r, v') /\ defects r = 0 /\ missing r = 0 /\
    vr_sequence r = u64 seq /\ latency_ns r = now - ts /\
    awaits v' (seq + 1) ts /\ future_tolerance_ns v' = future_tolerance_ns v.
Proof.
  intros Hrec Hawait (Hts & Hlat & Htol & Hfut).
  destruct (sealed_record_intact _ _ _ (u64_range seq) Hts Hrec) as (Hi & _ & _ & h & Hh & Hs & Ht).
  assert (Hnone : forall d, stream_fault v h now d = false).
  { intros d. unfold stream_fault. rewrite Hs, Ht. destruct (has_baseline v) eqn:Hbase.
    - destruct (Hawait Hbase) as [-> Hlast]. destruct d; try done; apply bool_decide_eq_false; lia.
    - destruct d; try done. apply bool_decide_eq_false. lia. }
  rewrite (validate_intact find v record now h Hi Hh), Ht, !checked_i64_Some by done. cbn [mbind option_bind].
  do 2 eexists. split; [done|]. cbn [defects missing vr_sequence latency_ns]. split_and!; try done.
  - rewrite (encode_ext _ (fun _ => false) Hnone). done.
  - unfold skipped. by rewrite (Hnone SequenceGap : stream_fault v h 0 SequenceGap = false).
  - unfold awaits, advance. cbn. intros _. rewrite Hs, Ht, u64_add_l. by split.
Qed.
(** Records sealed with consecutive sequence numbers and non-decreasing
    timestamps, each received at [now]. *)
Fixpoint in_order (tolerance seq ts : Z) (l : list (bytes * Z * Z)) : Prop :=
  match l with
  | [] => True
  | (record, ts', now) :: l =>
      sealed_record find (u64 seq) ts' record /\ ts <= ts' /\ timely tolerance ts' now /\
      in_order tolerance (seq + 1) ts' l
  end.

Lemma awaits_later v seq ts ts' : awaits v seq ts -> ts <= ts' -> awaits v seq ts'.
Proof. intros Ha Hle Hb. destruct (Ha Hb). split; [done | lia]. Qed.

Fixpoint clean_results (seq : Z) (l : list (bytes * Z * Z)) : list ValidationResult :=
  match l with
  | [] => []
  | (_, ts, now) :: l =>
      {| defects := 0; vr_sequence := u64 seq; missing := 0; latency_ns := now - ts |} :: clean_results (seq + 1) l
  end.

Definition received (l : list (bytes * Z * Z)) : list (bytes * Z) := map (fun '(record, _, now) => (record, now)) l.

Lemma validate_in_order v seq ts l :
  in_order (future_tolerance_ns v) seq ts l -> awaits v seq ts ->
  exists v' ts', validate_all find v (received l) = Some (clean_results seq l, v') /\
    awaits v' (seq + Z.of_nat (length l)) ts' /\ future_tolerance_ns v' = future_tolerance_ns v.
Proof.
  revert v seq ts. induction l as [|[[record ts'] now] l IH]; intros v seq ts Hl Hv.
  { exists v, ts. cbn. rewrite Z.add_0_r. auto. }
  destruct Hl as (Hrec & Hts & Htime & Hl).
  destruct (validate_expected v seq ts' record now Hrec (awaits_later _ _ _ _ Hv Hts) Htime)
    as (r & v1 & E & Hd & Hm & Hs & Hlat & Hv1 & Htol).
  rewrite <- Htol in Hl. destruct (IH v1 (seq + 1) ts' Hl Hv1) as (v2 & ts2 & E2 & Hv2 & Htol2).
  exists v2, ts2. cbn [received map validate_all clean_results length]. rewrite E. cbn [mbind option_bind].
  unfold received in E2. rewrite E2. cbn [mbind option_bind]. split_and!; [ | | congruence].
  - do 3 f_equal. destruct r; cbn in *. congruence.
  - by replace (seq + Z.of_nat (S (length l))) with (seq + 1 + Z.of_nat (length l)) by lia.
Qed.

(** ** Damage *)

Lemma slice_window off n (pre w w' post : bytes) :
  length w = length w' -> (off + n <= length pre \/ length pre + length w <= off)%nat ->
  slice off n (pre ++ w ++ post) = slice off n (pre ++ w' ++ post).
Proof.
  intros Hlen [Hl | Hr]; unfold slice.
  - rewrite !drop_app_le, !take_app_le by (rewrite ?length_drop; lia). done.
  - rewrite !drop_app_ge by lia. by rewrite Hlen.
Qed.

Lemma slice_take off n m (l : bytes) : (off + n <= m)%nat -> slice off n (take m l) = slice off n l.
Proof.
  intros H. unfold slice. replace m with (off + (m - off))%nat by lia.
  by rewrite <- take_drop_commute, take_take, Nat.min_l by lia.
Qed.

Lemma read_header_fields record h : read_header record = Some h ->
  checksum_kind h = le_value (slice 5 1 record) /\ checksum h = le_value (slice 12 4 record).
Proof.
  unfold read_header. destruct (decide _); [|discriminate]. intros [= <-]. cbn.
  by rewrite !slice_take by lia.
Qed.

(** The windows whose damage the checksum must reveal: outside the byte that
    selects the algorithm, and either outside the checksum field or inside. *)
Definition revealing_window (pre w : bytes) : Prop :=
  (length pre + length w <= 5 \/ 6 <= length pre)%nat /\
  (length pre + length w <= 12 \/ 16 <= length pre \/ 12 <= length pre /\ length pre + length w <= 16)%nat.

Lemma zero_checksum_field (pre w w' post : bytes) :
  length w = length w' -> (12 <= length pre)%nat -> (length pre + length w <= 16)%nat ->
  (16 <= length (pre ++ w ++ post))%nat ->
  zero_checksum (pre ++ w ++ post) = zero_checksum (pre ++ w' ++ post).
Proof.
  intros Hlen H12 H16 Hl. unfold zero_checksum, overwrite. cbn [length Nat.add].
  rewrite !take_app_le by lia. do 2 f_equal. rewrite !app_assoc, !drop_app_ge, !length_app by (rewrite length_app; lia).
  by rewrite Hlen.
Qed.

Lemma damaged_checksum (pre w w' post : bytes) h :
  all_bytes pre -> all_bytes w -> all_bytes w' -> all_bytes post ->
  length w = length w' -> (length w <= 4)%nat -> w <> w' -> revealing_window pre w ->
  read_header (pre ++ w ++ post) = Some h -> intact find (pre ++ w ++ post) = true ->
  content_fault find (pre ++ w' ++ post) BadChecksum = true.
Proof.
  intros Hpre Hw Hw' Hpost Hlen H4 Hne [Hkind Hwin] Hh Hi.
  assert (H32 : (32 <= length (pre ++ w ++ post))%nat) by (unfold read_header in Hh; by destruct (decide _)).
  assert (Hb : all_bytes (pre ++ w ++ post)) by (by rewrite !Forall_app).
  assert (Hb' : all_bytes (pre ++ w' ++ post)) by (by rewrite !Forall_app).
  assert (H32' : (32 <= length (pre ++ w' ++ post))%nat) by (rewrite !length_app in *; lia).
  destruct (read_header_Some _ H32') as [h' Hh'].
  destruct (read_header_fields _ _ Hh) as [Hk Hc]. destruct (read_header_fields _ _ Hh') as [Hk' Hc'].
  assert (Hsame : checksum_kind h' = checksum_kind h).
  { rewrite Hk, Hk'. f_equal. symmetry. apply slice_window; lia. }
  unfold intact in Hi. rewrite forallb_forall in Hi.
  assert (Hin : forall d, content_fault find (pre ++ w ++ post) d = false).
  { intros d. apply negb_true_iff, Hi, list_elem_of_In. destruct d; by_decide. }
  pose proof (Hin BadChecksum) as Hsum. pose proof (Hin UnknownChecksum) as Hknown.
  unfold content_fault in *. rewrite Hh in Hsum, Hknown. rewrite Hh', Hsame.
  destruct (find (checksum_kind h)) as [c|] eqn:Hfind; [|discriminate].
  pose proof (rl_laws _ _ Hfind) as Hlaws. apply bool_decide_eq_false in Hsum.
  apply bool_decide_eq_true. intros Heq. apply Hsum. intros Hold. clear Hsum.
  rewrite packet_checksum_zeroed in Heq, Hold by done.
  assert (Hfield : (length pre + length w <= 12 \/ 16 <= length pre)%nat ->
    slice 12 4 (pre ++ w' ++ post) = slice 12 4 (pre ++ w ++ post)).
  { intros Hout. symmetry. apply slice_window; lia. }
  destruct (decide (length pre + length w <= 12 \/ 16 <= length pre)%nat) as [Hout | Hin12].
  - apply Hne, (zeroed_burst c pre w w' post); auto. rewrite Hc', (Hfield Hout), <- Hc in Heq. congruence.
  - apply Hne. rewrite (zero_checksum_field pre w w' post) in Hold by lia.
    assert (Hs : slice 12 4 (pre ++ w ++ post) = slice 12 4 (pre ++ w' ++ post)).
    { apply le_value_inj; [by apply slice_bytes.. | by rewrite !slice_length by lia |].
      rewrite <- Hc, <- Hc'. congruence. }
    assert (Hall : pre ++ w ++ post = pre ++ w' ++ post).
    { rewrite <- (take_drop 12 (pre ++ w ++ post)), <- (take_drop 12 (pre ++ w' ++ post)).
      rewrite <- (split_bytes 12 4 (pre ++ w ++ post)), <- (split_bytes 12 4 (pre ++ w' ++ post)), Hs.
      rewrite !take_app_le by lia. do 2 f_equal. cbn [Nat.add].
      rewrite !app_assoc, !drop_app_ge, !length_app by (rewrite length_app; lia). by rewrite Hlen. }
    apply app_inv_head in Hall. by apply app_inv_tail in Hall.
Qed.
End Streams.

(** ** Loss accounting *)

Definition total_missing (rs : list ValidationResult) : Z := fold_right (fun r acc => missing r + acc) 0 rs.
Definition uncorrupted (rs : list ValidationResult) : Z :=
  fold_right (fun r acc => (if corrupted r then 0 else 1) + acc) 0 rs.

Section Accounting.
Context (find : Z -> option IChecksum).

Lemma validate_cases v record now r v' : validate find v record now = Some (r, v') ->
  (intact find record = false /\ corrupted r = true /\ defects r = encode (content_fault find record) /\
   missing r = 0 /\ latency_ns r = 0 /\ v' = v) \/
  (intact find record = true /\ corrupted r = false /\ exists h, read_header record = Some h /\
   defects r = encode (stream_fault v h now) /\ vr_sequence r = sequence h /\ missing r = skipped v h /\
   latency_ns r = now - timestamp_ns h /\ v' = advance v h).
Proof.
  intros Hv. destruct (intact find record) eqn:Hi.
  - right. destruct (intact_header find record Hi) as [h Hh]. rewrite (validate_intact find v record now h Hi Hh) in Hv.
    destruct (checked_i64 (now - timestamp_ns h)) as [l|] eqn:E1; cbn [mbind option_bind] in Hv; [|discriminate].
    destruct (checked_i64 (now + future_tolerance_ns v)); cbn [mbind option_bind] in Hv; [|discriminate].
    apply checked_i64_inv in E1 as [-> _]. assert (Hr := f_equal (fun o => fst <$> o) Hv).
    assert (Hv' := f_equal (fun o => snd <$> o) Hv). apply (inj Some) in Hr, Hv'. cbn [fst snd] in Hr, Hv'. subst r v'.
    split_and!; [done | | exists h; done]. erewrite corrupted_encode by reflexivity. done.
  - left. destruct (validate_corrupted find v record now Hi) as (r0 & E & Hd & Hm & Hl).
    rewrite E in Hv. injection Hv as <- <-. split_and!; try done.
    erewrite corrupted_encode by exact Hd. unfold intact in Hi.
    apply not_false_iff_true. intros Hno. apply not_true_iff_false in Hi. apply Hi, forallb_forall. intros d Hd'.
    apply negb_true_iff, not_true_iff_false. intros Hf. apply not_true_iff_false in Hno. apply Hno, existsb_exists.
    exists d. split; [done|]. rewrite Hf, andb_true_r. unfold content_fault in Hf.
    destruct (read_header record); [by destruct d|]. apply bool_decide_eq_true in Hf as [-> | ->]; done.
Qed.

(** How far the rewinds among the results set the expectation back, from what
    it was: read off the results alone. *)
Fixpoint set_back (expected : Z) (rs : list ValidationResult) : Z :=
  match rs with
  | [] => 0
  | r :: rs =>
      if corrupted r then set_back expected rs
      else (if has r SequenceRewind then expected - vr_sequence r else 0) + set_back (u64 (vr_sequence r + 1)) rs
  end.

(** A corrupted packet changes nothing; an uncorrupted one moves the
    expectation past itself and past the packets reported missing, or back to
    itself first. *)
Lemma account_step v record now r v' :
  all_bytes record -> is_u 64 (expected_sequence v) -> has_baseline v = true -> validate find v record now = Some (r, v') ->
  has_baseline v' = true /\ is_u 64 (expected_sequence v') /\
  if corrupted r then missing r = 0 /\ expected_sequence v' = expected_sequence v
  else expected_sequence v' = u64 (vr_sequence r + 1) /\
    u64 (vr_sequence r) = u64 (expected_sequence v + missing r - (if has r SequenceRewind then expected_sequence v - vr_sequence r else 0)).
Proof.
  intros Hb He Hbase Hv. apply validate_cases in Hv
    as [(_ & Hc & _ & Hm & _ & ->) | (Hi & Hc & h & Hh & Hd & Hseq & Hm & _ & ->)]; rewrite Hc; [done|].
  cbn [advance has_baseline expected_sequence]. rewrite Hseq, Hm. split_and!; [done | apply u64_range | done |].
  rewrite (has_encode r _ SequenceRewind Hd). unfold skipped, stream_fault. rewrite Hbase. cbn [andb]. unfold is_u in He.
  assert (Hs : is_u 64 (sequence h)).
  { assert (header_wf h) as []; [|done]. unfold read_header in Hh. destruct (decide _); [|discriminate].
    injection Hh as <-. apply header_of_bytes_wf; [by apply Forall_take | rewrite length_take; lia]. }
  unfold is_u in Hs. repeat case_bool_decide; rewrite ?(u64_small (sequence h - _)) by (unfold is_u; lia); f_equal; lia.
Qed.

Lemma account_all v l rs v' :
  Forall (fun '(record, _) => all_bytes record) l -> is_u 64 (expected_sequence v) -> has_baseline v = true ->
  validate_all find v l = Some (rs, v') ->
  expected_sequence v' = u64 (expected_sequence v + total_missing rs + uncorrupted rs - set_back (expected_sequence v) rs).
Proof.
  revert v rs. induction l as [|[record now] l IH]; intros v rs Hb He Hbase Hv; cbn [validate_all] in Hv.
  { injection Hv as <- <-. cbn. rewrite !Z.add_0_r, Z.sub_0_r. symmetry. by apply u64_small. }
  destruct (validate find v record now) as [[r v1]|] eqn:E; cbn [mbind option_bind] in Hv; [|discriminate].
  destruct (validate_all find v1 l) as [[rs1 v2]|] eqn:E2; cbn [mbind option_bind] in Hv; [|discriminate].
  injection Hv as <- <-. apply Forall_cons in Hb as [Hb1 Hb2].
  destruct (account_step v record now r v1 Hb1 He Hbase E) as (Hbase1 & He1 & Hexp).
  rewrite (IH v1 rs1 Hb2 He1 Hbase1 E2). cbn [total_missing uncorrupted fold_right set_back]. fold (total_missing rs1) (uncorrupted rs1).
  destruct (corrupted r); destruct Hexp as [H1 H2]; rewrite ?H1, ?H2; [by rewrite !Z.add_0_l|].
  set (back := if has r SequenceRewind then _ else _) in *. set (rest := set_back (u64 (vr_sequence r + 1)) rs1).
  unfold u64 in *. apply (f_equal (fun z => (z + (1 + total_missing rs1 + uncorrupted rs1 - rest)) mod 2 ^ 64)) in H2.
  rewrite !Zplus_mod_idemp_l in H2. rewrite <- Z.add_assoc, <- Z.add_sub_assoc, Zplus_mod_idemp_l.
  etransitivity; [|etransitivity; [exact H2|]]; f_equal; lia.
Qed.
End Accounting.

Lemma no_set_back e rs : Forall (fun r => has r SequenceRewind = false) rs -> set_back e rs = 0.
Proof.
  intros H. revert e. induction H as [|r rs Hr H IH]; intros e; cbn [set_back]; [done|].
  destruct (corrupted r); [apply IH|]. by rewrite Hr, IH.
Qed.

(** ** Properties *)

(** C12. Functional correctness of [validate] on every branch: each structural
    defect bit is set exactly when the record has that fault; only when there
    is none are the timestamp and the sequence number judged, each bit exactly
    by its condition, and only then do the sequence expectations advance; a
    corrupted packet leaves the validator as it was. *)
Theorem validate_exact find v record now r v' :
  validate find v record now = Some (r, v') ->
  corrupted r = negb (intact find record) /\
  if intact find record then
    exists h, read_header record = Some h /\ (forall d, has r d = stream_fault v h now d) /\
      vr_sequence r = sequence h /\ missing r = skipped v h /\ latency_ns r = now - timestamp_ns h /\ v' = advance v h
  else (forall d, has r d = content_fault find record d) /\ missing r = 0 /\ latency_ns r = 0 /\ v' = v.
Proof.
  intros Hv. apply validate_cases in Hv
    as [(Hi & Hc & Hd & Hm & Hl & ->) | (Hi & Hc & h & Hh & Hd & Hs & Hm & Hl & ->)]; rewrite Hi, Hc.
  - split_and!; try done. intros d. by apply has_encode.
  - split; [done|]. exists h. split_and!; try done. intros d. by apply has_encode.
Qed.

Definition demo_validator : PacketValidator := {|
  future_tolerance_ns := 1000000000; has_baseline := true; expected_sequence := 7; last_timestamp_ns := 500 |}.

Definition demo_packet (seq ts : Z) : bytes :=
  default [] (seal_packet (repeat 5 40) seq ts Crc32).

Definition demo_result : ValidationResult := {|
  defects := 288; vr_sequence := 9; missing := 2; latency_ns := 600 |}.

Lemma validate_exact_witness :
  map (has demo_result) all_defects
  = map (stream_fault demo_validator (header_of_bytes (take 32 (demo_packet 9 400))) 1000) all_defects.
Proof.
  apply map_ext. intros d. pose proof (validate_exact (registry_find sse42) demo_validator (demo_packet 9 400) 1000 demo_result
    {| future_tolerance_ns := 1000000000; has_baseline := true; expected_sequence := 10; last_timestamp_ns := 400 |}
    ltac:(vm_compute; reflexivity)) as [_ H].
  assert (Hi : intact (registry_find sse42) (demo_packet 9 400) = true) by (vm_compute; reflexivity).
  rewrite Hi in H. destruct H as (h & Hh & Hd & _). rewrite (Hd d). f_equal.
  assert (E : read_header (demo_packet 9 400) = Some (header_of_bytes (take 32 (demo_packet 9 400)))) by (vm_compute; reflexivity).
  congruence.
Defined.

(** [validate] is defined on every record, however short or damaged: it
    never reads outside the record, and its only undefined behaviour is the
    signed overflow of [now - timestamp] or [now + tolerance] on a packet
    whose structure and checksum are right. *)
Theorem validate_undefined_iff find v record now :
  validate find v record now = None <->
  exists h, intact find record = true /\ read_header record = Some h /\
    (~ is_i64 (now - timestamp_ns h) \/ ~ is_i64 (now + future_tolerance_ns v)).
Proof.
  assert (Hchk : forall z, checked_i64 z = None <-> ~ is_i64 z).
  { intros z. split; [intros Hz Hr; by rewrite checked_i64_Some in Hz|].
    destruct (checked_i64 z) eqn:E; [|done]. apply checked_i64_inv in E as [_ ?]. done. }
  split.
  - destruct (intact find record) eqn:Hi.
    + destruct (intact_header find record Hi) as [h Hh]. rewrite (validate_intact find v record now h Hi Hh).
      intros Hn. exists h. split_and!; [done..|]. rewrite <- !Hchk.
      destruct (checked_i64 (now - _)); [|by left]. destruct (checked_i64 (now + _)); [done | by right].
    + destruct (validate_corrupted find v record now Hi) as (? & E & _). by rewrite E.
  - intros (h & Hi & Hh & Hover). rewrite (validate_intact find v record now h Hi Hh). rewrite <- !Hchk in Hover.
    destruct Hover as [-> | ->]; [done|]. by destruct (checked_i64 _).
Qed.

(** C19. No false alarms: packets sealed with any registered algorithm, with
    consecutive sequence numbers (across the 64-bit wrap-around too) and
    non-decreasing timestamps no further ahead than the tolerance, all come
    out clean, with their sequence number and latency. *)
Theorem in_order_stream_is_clean m tolerance seq ts l :
  CpuSpec m -> in_order (registry_find m) tolerance seq ts l ->
  exists v', validate_all (registry_find m) (new_validator tolerance) (received l) = Some (clean_results seq l, v') /\
    Forall (fun r => clean r = true) (clean_results seq l).
Proof.
  intros Hm Hl. destruct (validate_in_order (registry_find m) (new_validator tolerance) seq ts l Hl)
    as (v' & ts' & E & _); [discriminate|].
  exists v'. split; [done|]. clear. revert seq. induction l as [|[[record t] now] l IH]; intros seq; by constructor.
Qed.

Lemma in_order_stream_is_clean_witness :
  exists v', validate_all (registry_find sse42) (new_validator 1000) [(demo_packet (2 ^ 64 - 1) 10, 15); (demo_packet 0 20, 21)]
    = Some ([{| defects := 0; vr_sequence := 2 ^ 64 - 1; missing := 0; latency_ns := 5 |};
             {| defects := 0; vr_sequence := 0; missing := 0; latency_ns := 1 |}], v').
Proof.
  destruct (in_order_stream_is_clean sse42 1000 (2 ^ 64 - 1) 0
    [(demo_packet (2 ^ 64 - 1) 10, 10, 15); (demo_packet 0 20, 20, 21)]) as (v' & E & _); [apply _ | | by exists v'].
  assert (Hrec : forall s t, is_Some (seal_packet (repeat 5 40) s t Crc32) ->
    sealed_record (registry_find sse42) s t (demo_packet s t)).
  { intros s t [r Hr]. exists 1, Crc32, (repeat 5 40). unfold demo_packet. rewrite Hr. split_and!; by_decide || done. }
  cbn [in_order]. change (u64 (2 ^ 64 - 1)) with (2 ^ 64 - 1). change (u64 (2 ^ 64 - 1 + 1)) with 0. unfold timely.
  split_and!; try (apply Hrec; by_decide); by_decide.
Defined.

(** C14. Short damage is caught: in any sealed packet, replace a window of at most
    four consecutive bytes by different ones, where the window does not contain
    the algorithm byte (offset 5) and lies entirely outside or entirely inside
    the checksum field (offsets 12 to 15).  Then [validate] reports
    [BadChecksum], the packet counts as corrupted, and the sequence tracking is
    untouched.  (Damage scattered over more than 32 bits, and a changed
    algorithm byte, can escape a 32-bit CRC.) *)
Theorem damage_is_rejected m v seq ts (pre w w' post : bytes) now :
  CpuSpec m -> is_u 64 seq -> is_i64 ts -> sealed_record (registry_find m) seq ts (pre ++ w ++ post) ->
  all_bytes w' -> length w = length w' -> (length w <= 4)%nat -> w <> w' -> revealing_window pre w ->
  exists r, validate (registry_find m) v (pre ++ w' ++ post) now = Some (r, v) /\
    has r BadChecksum = true /\ corrupted r = true.
Proof.
  intros Hm Hseq Hts Hrec Hw' Hlen H4 Hne Hwin.
  destruct (sealed_record_intact (registry_find m) seq ts _ Hseq Hts Hrec) as (Hi & Hb & _ & h & Hh & _).
  rewrite !Forall_app in Hb. destruct Hb as (Hpre & Hw & Hpost).
  pose proof (damaged_checksum (registry_find m) pre w w' post h Hpre Hw Hw' Hpost Hlen H4 Hne Hwin Hh Hi) as Hbad.
  assert (Hni : intact (registry_find m) (pre ++ w' ++ post) = false).
  { apply not_true_iff_false. unfold intact. rewrite forallb_forall. intros Hall.
    specialize (Hall BadChecksum). rewrite Hbad in Hall. discriminate Hall. cbn. tauto. }
  destruct (validate_corrupted (registry_find m) v _ now Hni) as (r & E & Hd & _). exists r.
  rewrite (has_encode r _ BadChecksum Hd). split_and!; try done.
  apply validate_cases in E as [(_ & Hc & _) | (Hi' & _)]; [done | congruence].
Qed.

Lemma damage_is_rejected_witness :
  exists r, validate (registry_find sse42) demo_validator
    (take 36 (demo_packet 9 400) ++ [5; 4] ++ drop 38 (demo_packet 9 400)) 1000 = Some (r, demo_validator) /\
    has r BadChecksum = true.
Proof.
  set (pre := take 36 (demo_packet 9 400)). set (post := drop 38 (demo_packet 9 400)).
  destruct (damage_is_rejected sse42 demo_validator 9 400 pre [5; 5] [5; 4] post 1000)
    as (r & E & H & _); [apply _ | by_decide | by_decide | | by_decide | reflexivity | cbn; lia | discriminate | | exact (ex_intro _ r (conj E H))].
  - exists 1, Crc32, (repeat 5 40). split_and!; [reflexivity | by_decide | by_decide | by_decide | vm_compute; reflexivity].
  - split; [right | right; left]; by_decide.
Defined.

(** C32. Losses are counted exactly.  Once the validator has a baseline, over
    any received records of bytes, damaged ones and rewinds included, the
    missing packets plus the uncorrupted ones, less what the rewinds set the
    expectation back (read off the results), add up to the distance the expected
    sequence number moved, modulo the 64-bit counter; without rewinds, the
    missing plus the uncorrupted ones are that distance. *)
Theorem loss_accounting find v l rs v' :
  Forall (fun '(record, _) => all_bytes record) l -> is_u 64 (expected_sequence v) -> has_baseline v = true ->
  validate_all find v l = Some (rs, v') ->
  u64 (total_missing rs + uncorrupted rs - set_back (expected_sequence v) rs) = u64 (expected_sequence v' - expected_sequence v) /\
  (Forall (fun r => has r SequenceRewind = false) rs ->
   u64 (total_missing rs + uncorrupted rs) = u64 (expected_sequence v' - expected_sequence v)).
Proof.
  intros Hb He Hbase Hv.
  assert (Hmoved : u64 (total_missing rs + uncorrupted rs - set_back (expected_sequence v) rs) = u64 (expected_sequence v' - expected_sequence v)).
  { rewrite (account_all find v l rs v' Hb He Hbase Hv). unfold u64. rewrite Zminus_mod_idemp_l. f_equal. lia. }
  split; [done|]. intros Hrw. by rewrite no_set_back, Z.sub_0_r in Hmoved.
Qed.

(** A packet after a gap, a damaged one, one after another gap, and a rewind. *)
Lemma loss_accounting_witness :
  exists rs v', validate_all (registry_find sse42) demo_validator
    [(demo_packet 8 600, 700); (repeat 0 50, 701); (demo_packet 12 800, 900); (demo_packet 10 800, 950)] = Some (rs, v') /\
  total_missing rs + uncorrupted rs = 7 /\ set_back 7 rs = 3 /\
  u64 (total_missing rs + uncorrupted rs - set_back 7 rs) = u64 (expected_sequence v' - 7).
Proof.
  set (l := [(demo_packet 8 600, 700); (repeat 0 50, 701); (demo_packet 12 800, 900); (demo_packet 10 800, 950)]).
  destruct (validate_all (registry_find sse42) demo_validator l) as [[rs v']|] eqn:E; [|by vm_compute in E].
  assert (Hrs : total_missing rs + uncorrupted rs = 7 /\ set_back 7 rs = 3) by (vm_compute in E; injection E as <- _; by vm_compute).
  destruct Hrs as [H1 H2]. exists rs, v'. split; [done|]. split; [done|]. split; [done|].
  apply (loss_accounting (registry_find sse42) demo_validator l rs v'); [by_decide | by_decide | reflexivity | exact E].
Defined.

(** Reading the text back: split at [", "], look each name up. *)
Fixpoint split_comma (text word : string) : list string :=
  match text with
  | EmptyString => [word]
  | String "," (String " " text) => word :: split_comma text ""
  | String c text => split_comma text (word +:+ String c "")
  end%char.

Definition defect_named (name : string) : Z :=
  fold_right (fun '(d, n) acc => if String.eqb name n then defect_code d else acc) 0 kNames.

Definition read_defects (text : string) : Z :=
  fold_right (fun name acc => defect_named name ||| acc) 0 (split_comma text "").

(** The text printed for a result names exactly its defects: reading the
    output of [describe_defects] back gives the ten defect bits of the word,
    whatever its other bits, and the text is ["ok"] only when there are none. *)
Theorem describe_defects_readable defects :
  read_defects (describe_defects defects) = defects &&& 1023 /\
  (describe_defects defects = "ok"%string <-> defects &&& 1023 = 0).
Proof.
  assert (Hmask : describe_defects defects = describe_defects (defects &&& 1023)).
  { unfold describe_defects. enough (H : forall l text, fold_left (describe_step defects) l text
      = fold_left (describe_step (defects &&& 1023)) l text) by (by rewrite H).
    induction l as [|[d name] l IH]; intros text; [done|]. cbn [fold_left]. rewrite IH. f_equal.
    unfold describe_step. rewrite <- Z.land_assoc. by replace (1023 &&& defect_code d) with (defect_code d) by (by destruct d). }
  rewrite Hmask. change 1023 with (2 ^ 10 - 1). rewrite land_pow2_mask by lia.
  pose proof (Z.mod_pos_bound defects (2 ^ 10) ltac:(lia)) as Hr. set (x := defects mod 2 ^ 10) in *. clearbody x.
  assert (Hall : forallb (fun i => Z.eqb (read_defects (describe_defects (Z.of_nat i))) (Z.of_nat i)
    && Bool.eqb (String.eqb (describe_defects (Z.of_nat i)) "ok") (Nat.eqb i 0)) (seq 0 1024) = true) by (vm_compute; reflexivity).
  rewrite forallb_forall in Hall. specialize (Hall (Z.to_nat x)). rewrite in_seq, Z2Nat.id in Hall by lia.
  specialize (Hall ltac:(lia)). apply andb_true_iff in Hall as [Hread Hok]. apply Z.eqb_eq in Hread.
  apply eqb_prop in Hok. split; [done|]. rewrite <- String.eqb_eq, Hok, Nat.eqb_eq. lia.
Qed.
