(* ===== verification/Stats.v ===== *)
(** Statistics: [common/src/stats.cpp], [consumer/consumer_stats.hpp],
    [consumer_stats.cpp].

    The steady clock is read by the operations; its value is the argument
    [now] (nanoseconds).  [None] is a signed overflow.  The averages and rates
    derived from these records are in [Figures.v]. *)
From Stdlib Require Import ZArith Lia.
From stdpp Require Import base numbers list.
From S2P Require Import Prelude PacketValidator.

(** ** Rate window *)

Record RateSample := { rs_packets : Z; rs_bytes : Z; rs_elapsed : Z }.

Record RateWindow := { w_packets : Z; w_bytes : Z; w_start : Z }.

Definition new_window (now : Z) : RateWindow := {| w_packets := 0; w_bytes := 0; w_start := now |}.

Definition window_add (w : RateWindow) (size : Z) : RateWindow := {|
  w_packets := u64 (w_packets w + 1); w_bytes := u64 (w_bytes w + size); w_start := w_start w |}.

Definition window_take (w : RateWindow) (now : Z) : RateSample * RateWindow :=
  ({| rs_packets := w_packets w; rs_bytes := w_bytes w; rs_elapsed := now - w_start w |},
   {| w_packets := 0; w_bytes := 0; w_start := now |}).

Definition window_reset (w : RateWindow) (now : Z) : RateWindow :=
  {| w_packets := 0; w_bytes := 0; w_start := now |}.

(** ** Periodic timer *)

Record PeriodicTimer := { t_period : Z; t_next : Z }.

(** The conversion of milliseconds to the nanoseconds of the steady clock. *)
Definition new_timer (period_ms now : Z) : option PeriodicTimer :=
  period ← checked_i64 (period_ms * 1000000);
  next ← checked_i64 (now + period);
  Some {| t_period := period; t_next := next |}.

Definition due (t : PeriodicTimer) (now : Z) : option (bool * PeriodicTimer) :=
  if Z.ltb now (t_next t) then Some (false, t)
  else
    next ← checked_i64 (now + t_period t);
    Some (true, {| t_period := t_period t; t_next := next |}).

(** ** Latency *)

Record LatencySample := { min_ns : Z; max_ns : Z; sum_ns : Z; lat_count : Z }.

Definition empty_latency : LatencySample := {| min_ns := I64_MAX; max_ns := I64_MIN; sum_ns := 0; lat_count := 0 |}.

Definition latency_add (l : LatencySample) (latency : Z) : option LatencySample :=
  sum ← checked_i64 (sum_ns l + latency);
  Some {| min_ns := if Z.ltb latency (min_ns l) then latency else min_ns l;
          max_ns := if Z.ltb (max_ns l) latency then latency else max_ns l;
          sum_ns := sum; lat_count := u64 (lat_count l + 1) |}.

(** ** Totals *)

Record ConsumerTotals := {
  t_received : Z;
  t_bytes : Z;
  t_valid : Z;
  t_corrupted : Z;
  t_sequence_gaps : Z;
  t_missing : Z;
  t_sequence_rewinds : Z;
  t_timestamp_anomalies : Z;
  t_dropped : Z;
  t_dropped_bytes : Z;
}.

Definition zero_totals : ConsumerTotals := {|
  t_received := 0; t_bytes := 0; t_valid := 0; t_corrupted := 0; t_sequence_gaps := 0; t_missing := 0;
  t_sequence_rewinds := 0; t_timestamp_anomalies := 0; t_dropped := 0; t_dropped_bytes := 0 |}.

Record ConsumerStats := {
  totals : ConsumerTotals;
  window : RateWindow;
  latency : LatencySample;
  started : Z;
}.

Record ConsumerSnapshot := { s_totals : ConsumerTotals; s_interval : RateSample; s_latency : LatencySample }.

Definition new_stats (now : Z) : ConsumerStats := {|
  totals := zero_totals; window := new_window now; latency := empty_latency; started := now |}.

(** [if (cond) counter += n] on a [uint64_t]. *)
Definition bump (cond : bool) (n counter : Z) : Z := if cond then u64 (counter + n) else counter.

Definition record (s : ConsumerStats) (r : ValidationResult) (size : Z) : option ConsumerStats :=
  let t := totals s in
  let w := window_add (window s) size in
  let received := u64 (t_received t + 1) in
  let bytes := u64 (t_bytes t + size) in
  let valid := bump (clean r) 1 (t_valid t) in
  if corrupted r then
    Some {| totals := {| t_received := received; t_bytes := bytes; t_valid := valid;
              t_corrupted := u64 (t_corrupted t + 1); t_sequence_gaps := t_sequence_gaps t;
              t_missing := t_missing t; t_sequence_rewinds := t_sequence_rewinds t;
              t_timestamp_anomalies := t_timestamp_anomalies t; t_dropped := t_dropped t;
              t_dropped_bytes := t_dropped_bytes t |};
            window := w; latency := latency s; started := started s |}
  else
    l ← latency_add (latency s) (latency_ns r);
    let gap := has r SequenceGap in
    Some {| totals := {| t_received := received; t_bytes := bytes; t_valid := valid;
              t_corrupted := t_corrupted t;
              t_sequence_gaps := bump gap 1 (t_sequence_gaps t);
              t_missing := bump gap (missing r) (t_missing t);
              t_sequence_rewinds := bump (has r SequenceRewind) 1 (t_sequence_rewinds t);
              t_timestamp_anomalies :=
                bump (has r TimestampFuture || has r TimestampBackward) 1 (t_timestamp_anomalies t);
              t_dropped := t_dropped t; t_dropped_bytes := t_dropped_bytes t |};
            window := w; latency := l; started := started s |}.

Definition record_dropped (s : ConsumerStats) (size : Z) : ConsumerStats :=
  let t := totals s in
  {| totals := {| t_received := t_received t; t_bytes := t_bytes t; t_valid := t_valid t;
       t_corrupted := t_corrupted t; t_sequence_gaps := t_sequence_gaps t; t_missing := t_missing t;
       t_sequence_rewinds := t_sequence_rewinds t; t_timestamp_anomalies := t_timestamp_anomalies t;
       t_dropped := u64 (t_dropped t + 1); t_dropped_bytes := u64 (t_dropped_bytes t + size) |};
     window := window s; latency := latency s; started := started s |}.

Definition take_interval (s : ConsumerStats) (now : Z) : ConsumerSnapshot * ConsumerStats :=
  let '(sample, w) := window_take (window s) now in
  ({| s_totals := totals s; s_interval := sample; s_latency := latency s |},
   {| totals := totals s; window := w; latency := empty_latency; started := started s |}).

Definition elapsed (s : ConsumerStats) (now : Z) : Z := now - started s.

Definition stats_reset (s : ConsumerStats) (now : Z) : ConsumerStats := {|
  totals := zero_totals; window := window_reset (window s) now; latency := empty_latency; started := now |}.

(** ** Sequences of operations and their tallies *)

Inductive stat_op :=
  | Record_ (r : ValidationResult) (size : Z)
  | Dropped (size : Z)
  | Take (now : Z).

Definition stat_step (s : ConsumerStats) (op : stat_op) : option (list ConsumerSnapshot * ConsumerStats) :=
  match op with
  | Record_ r size => s ← record s r size; Some ([], s)
  | Dropped size => Some ([], record_dropped s size)
  | Take now => let '(snap, s) := take_interval s now in Some ([snap], s)
  end.

Fixpoint stat_run (s : ConsumerStats) (ops : list stat_op) : option (list ConsumerSnapshot * ConsumerStats) :=
  match ops with
  | [] => Some ([], s)
  | op :: ops =>
      '(a, s) ← stat_step s op;
      '(b, s) ← stat_run s ops;
      Some (a ++ b, s)
  end.

Definition tally {A} (f : A -> Z) (l : list A) : Z := fold_right (fun x acc => f x + acc) 0 l.

(** What each counter should count, operation by operation. *)
Definition on_record (f : ValidationResult -> Z -> Z) (op : stat_op) : Z :=
  match op with Record_ r size => f r size | _ => 0 end.
Definition on_trusted (f : ValidationResult -> Z) : stat_op -> Z :=
  on_record (fun r _ => if corrupted r then 0 else f r).
Definition on_dropped (f : Z -> Z) (op : stat_op) : Z := match op with Dropped size => f size | _ => 0 end.
Definition indicator (cond : bool) : Z := if cond then 1 else 0.

Lemma bump_eq cond n c : is_u 64 c -> bump cond n c = u64 (c + if cond then n else 0).
Proof. intros Hc. destruct cond; cbn; [done|]. rewrite Z.add_0_r. by rewrite u64_small. Qed.

(** Follow one counter through a run of operations that satisfy [P]. *)
Lemma run_counter (P : stat_op -> bool) (c : ConsumerStats -> Z) (f : stat_op -> Z) :
  (forall s op out s', P op = true -> is_u 64 (c s) -> stat_step s op = Some (out, s') -> c s' = u64 (c s + f op)) ->
  forall ops s snaps s', forallb P ops = true -> is_u 64 (c s) -> stat_run s ops = Some (snaps, s') ->
  c s' = u64 (c s + tally f ops).
Proof.
  intros Hstep. induction ops as [|op ops IH]; intros s snaps s' HP Hc Hrun; cbn [stat_run] in Hrun.
  { injection Hrun as _ <-. cbn. rewrite Z.add_0_r. symmetry. by apply u64_small. }
  cbn [forallb] in HP. apply andb_true_iff in HP as [Hop HP].
  destruct (stat_step s op) as [[a s1]|] eqn:E; cbn [mbind option_bind] in Hrun; [|discriminate].
  destruct (stat_run s1 ops) as [[b s2]|] eqn:E2; cbn [mbind option_bind] in Hrun; [|discriminate].
  injection Hrun as _ <-. specialize (Hstep s op a s1 Hop Hc E).
  rewrite (IH s1 b s2) by (done || rewrite Hstep; apply u64_range). rewrite Hstep, u64_add_l.
  cbn [tally fold_right]. f_equal. unfold tally. lia.
Qed.

(** [record] as one formula, the early return included. *)
Lemma record_inv s r size s' : record s r size = Some s' ->
  let t := totals s in let good := negb (corrupted r) in
  exists l,
    (if corrupted r then l = latency s else latency_add (latency s) (latency_ns r) = Some l) /\
    s' = {| totals := {|
              t_received := u64 (t_received t + 1);
              t_bytes := u64 (t_bytes t + size);
              t_valid := bump (clean r) 1 (t_valid t);
              t_corrupted := bump (corrupted r) 1 (t_corrupted t);
              t_sequence_gaps := bump (good && has r SequenceGap) 1 (t_sequence_gaps t);
              t_missing := bump (good && has r SequenceGap) (missing r) (t_missing t);
              t_sequence_rewinds := bump (good && has r SequenceRewind) 1 (t_sequence_rewinds t);
              t_timestamp_anomalies :=
                bump (good && (has r TimestampFuture || has r TimestampBackward)) 1 (t_timestamp_anomalies t);
              t_dropped := t_dropped t;
              t_dropped_bytes := t_dropped_bytes t |};
            window := window_add (window s) size; latency := l; started := started s |}.
Proof.
  unfold record. destruct (corrupted r); cbn [negb andb].
  - intros [= <-]. exists (latency s). done.
  - destruct (latency_add _ _) as [l|]; cbn [mbind option_bind]; [|discriminate]. intros [= <-]. by exists l.
Qed.

(** A counter that only [record] and [record_dropped] change. *)
Lemma totals_counter (c : ConsumerTotals -> Z) (f : stat_op -> Z) :
  c zero_totals = 0 ->
  (forall s r size s', record s r size = Some s' -> is_u 64 (c (totals s)) ->
     c (totals s') = u64 (c (totals s) + f (Record_ r size))) ->
  (forall s size, is_u 64 (c (totals s)) -> c (totals (record_dropped s size)) = u64 (c (totals s) + f (Dropped size))) ->
  (forall t, f (Take t) = 0) ->
  forall now ops snaps s, stat_run (new_stats now) ops = Some (snaps, s) -> c (totals s) = u64 (tally f ops).
Proof.
  intros H0 Hrec Hdrop Htake now ops snaps s Hrun.
  rewrite (run_counter (fun _ => true) (fun s => c (totals s)) f) with (ops := ops) (s := new_stats now) (snaps := snaps); cbn.
  - by rewrite H0.
  - intros s1 op out s2 _ Hc E. destruct op as [r size | size | t]; cbn [stat_step] in E.
    + destruct (record s1 r size) as [s3|] eqn:Er; cbn [mbind option_bind] in E; [|discriminate].
      injection E as _ <-. by apply Hrec.
    + injection E as _ <-. by apply Hdrop.
    + injection E as _ <-. cbn. by rewrite Htake, Z.add_0_r, u64_small.
  - by apply forallb_forall.
  - rewrite H0. unfold is_u. lia.
  - done.
Qed.

Ltac record_counter :=
  intros s0 r size s' Hrec Hc; apply record_inv in Hrec as (l & _ & ->); cbn in Hc |- *;
  rewrite ?bump_eq by exact Hc; destruct (corrupted r); cbn [negb andb];
  rewrite ?Z.add_0_r, ?u64_small by exact Hc; reflexivity.

Ltac dropped_counter := intros s0 size Hc; cbn in Hc |- *; rewrite ?Z.add_0_r, ?u64_small by exact Hc; reflexivity.

Definition latencies (ops : list stat_op) : list Z :=
  omap (fun op => match op with Record_ r _ => if corrupted r then None else Some (latency_ns r) | _ => None end) ops.

Fixpoint latency_adds (l : LatencySample) (ls : list Z) : option LatencySample :=
  match ls with
  | [] => Some l
  | x :: ls => l ← latency_add l x; latency_adds l ls
  end.

Definition is_take (op : stat_op) : bool := match op with Take _ => true | _ => false end.

Lemma run_latency ops s snaps s' :
  forallb (fun op => negb (is_take op)) ops = true -> stat_run s ops = Some (snaps, s') ->
  snaps = [] /\ latency_adds (latency s) (latencies ops) = Some (latency s') /\ w_start (window s') = w_start (window s).
Proof.
  revert s snaps. induction ops as [|op ops IH]; intros s snaps Hnt Hrun; cbn [stat_run] in Hrun.
  { injection Hrun as <- <-. done. }
  cbn [forallb] in Hnt. apply andb_true_iff in Hnt as [Hop Hnt].
  destruct (stat_step s op) as [[a s1]|] eqn:E; cbn [mbind option_bind] in Hrun; [|discriminate].
  destruct (stat_run s1 ops) as [[b s2]|] eqn:E2; cbn [mbind option_bind] in Hrun; [|discriminate].
  injection Hrun as <- <-. destruct (IH s1 b Hnt E2) as (-> & Hl & Hw).
  destruct op as [r size | size | now]; cbn [stat_step] in E; [| |discriminate].
  - destruct (record s r size) as [s3|] eqn:Hrec; cbn [mbind option_bind] in E; [|discriminate].
    injection E as <- <-. apply record_inv in Hrec as (l & Hlat & ->). cbn [window latency] in *.
    split; [done|]. rewrite Hw. cbn [latencies omap list_omap]. destruct (corrupted r).
    + by subst l.
    + cbn [latency_adds]. by rewrite Hlat.
  - injection E as <- <-. done.
Qed.

Lemma latency_adds_spec ls l l' : latency_adds l ls = Some l' -> is_u 64 (lat_count l) ->
  sum_ns l' = sum_ns l + tally id ls /\ lat_count l' = u64 (lat_count l + Z.of_nat (length ls)) /\
  min_ns l' = fold_right Z.min (min_ns l) ls /\ max_ns l' = fold_right Z.max (max_ns l) ls.
Proof.
  revert l. induction ls as [|x ls IH]; intros l H Hc; cbn [latency_adds] in H.
  { injection H as <-. cbn. rewrite !Z.add_0_r. by rewrite u64_small. }
  unfold latency_add in H. destruct (checked_i64 (sum_ns l + x)) as [sum|] eqn:E; cbn [mbind option_bind] in H; [|discriminate].
  apply checked_i64_inv in E as [-> _]. apply IH in H as (Hs & Hn & Hmin & Hmax); [|apply u64_range].
  cbn in Hs, Hn, Hmin, Hmax. rewrite Hs, Hn, Hmin, Hmax. cbn [tally fold_right length].
  split_and!.
  - unfold tally, id. lia.
  - rewrite u64_add_l. f_equal. lia.
  - clear. destruct (Z.ltb_spec x (min_ns l)); induction ls as [|y ls IH]; cbn [fold_right]; lia.
  - clear. destruct (Z.ltb_spec (max_ns l) x); induction ls as [|y ls IH]; cbn [fold_right]; lia.
Qed.

Lemma stat_run_snoc s ops t snaps s' : stat_run s (ops ++ [Take t]) = Some (snaps, s') ->
  exists a s1, stat_run s ops = Some (a, s1) /\ snaps = a ++ [(take_interval s1 t).1] /\ s' = (take_interval s1 t).2.
Proof.
  revert s snaps. induction ops as [|op ops IH]; intros s snaps Hrun.
  { cbn in Hrun. injection Hrun as <- <-. by exists [], s. }
  cbn [app stat_run] in *. destruct (stat_step s op) as [[a s1]|]; cbn [mbind option_bind] in *; [|discriminate].
  destruct (stat_run s1 (ops ++ [Take t])) as [[b s2]|] eqn:E; cbn [mbind option_bind] in Hrun; [|discriminate].
  injection Hrun as <- <-. destruct (IH s1 b E) as (a' & s3 & -> & -> & ->). exists (a ++ a'), s3.
  cbn [mbind option_bind]. split_and!; [done | by rewrite app_assoc | done].
Qed.

(** A counter of the rate window, over an interval. *)
Lemma window_counter (c : RateWindow -> Z) (f : stat_op -> Z) :
  (forall w size r, is_u 64 (c w) -> c (window_add w size) = u64 (c w + f (Record_ r size))) ->
  (forall size, f (Dropped size) = 0) ->
  forall ops s snaps s', forallb (fun op => negb (is_take op)) ops = true -> c (window s) = 0 ->
  stat_run s ops = Some (snaps, s') -> c (window s') = u64 (tally f ops).
Proof.
  intros Hadd Hdrop ops s snaps s' Hnt H0 Hrun.
  rewrite (run_counter (fun op => negb (is_take op)) (fun s => c (window s)) f) with (ops := ops) (s := s) (snaps := snaps).
  - by rewrite H0.
  - intros s1 op out s2 Hop Hc E. destruct op as [r size | size | t]; cbn [stat_step] in E; [| |discriminate].
    + destruct (record s1 r size) as [s3|] eqn:Er; cbn [mbind option_bind] in E; [|discriminate].
      injection E as _ <-. apply record_inv in Er as (l & _ & ->). by apply Hadd.
    + injection E as _ <-. rewrite Hdrop, Z.add_0_r. cbn. symmetry. by apply u64_small.
  - done.
  - rewrite H0. unfold is_u. lia.
  - done.
Qed.

(** ** Properties *)

(** C31. The statistics are exact: after any sequence of records, drops and
    interval reports, each total is the tally of what it is documented to
    count (modulo [2^64]): gaps, rewinds, missing packets and anomalies over
    uncorrupted packets only, drops apart from receptions. *)
Theorem totals_exact now ops snaps s :
  stat_run (new_stats now) ops = Some (snaps, s) ->
  let t := totals s in
  t_received t = u64 (tally (on_record (fun _ _ => 1)) ops) /\
  t_bytes t = u64 (tally (on_record (fun _ size => size)) ops) /\
  t_valid t = u64 (tally (on_record (fun r _ => indicator (clean r))) ops) /\
  t_corrupted t = u64 (tally (on_record (fun r _ => indicator (corrupted r))) ops) /\
  t_sequence_gaps t = u64 (tally (on_trusted (fun r => indicator (has r SequenceGap))) ops) /\
  t_missing t = u64 (tally (on_trusted (fun r => if has r SequenceGap then missing r else 0)) ops) /\
  t_sequence_rewinds t = u64 (tally (on_trusted (fun r => indicator (has r SequenceRewind))) ops) /\
  t_timestamp_anomalies t =
    u64 (tally (on_trusted (fun r => indicator (has r TimestampFuture || has r TimestampBackward))) ops) /\
  t_dropped t = u64 (tally (on_dropped (fun _ => 1)) ops) /\
  t_dropped_bytes t = u64 (tally (on_dropped (fun size => size)) ops) /\
  started s = now.
Proof.
  intros Hrun t. subst t. split_and!;
    try (eapply totals_counter; [reflexivity | record_counter | dropped_counter | reflexivity | exact Hrun]).
  assert (Hstart : forall ops s0 snaps, stat_run s0 ops = Some (snaps, s) -> started s = started s0).
  { clear. induction ops as [|op ops IH]; intros s0 snaps Hrun; cbn [stat_run] in Hrun; [by injection Hrun as _ ->|].
    destruct (stat_step s0 op) as [[a s1]|] eqn:E; cbn [mbind option_bind] in Hrun; [|discriminate].
    destruct (stat_run s1 ops) as [[b s2]|] eqn:E2; cbn [mbind option_bind] in Hrun; [|discriminate].
    injection Hrun as _ ->. rewrite (IH s1 b E2). destruct op as [r size | size | t]; cbn [stat_step] in E.
    - destruct (record s0 r size) as [s3|] eqn:Er; cbn [mbind option_bind] in E; [|discriminate].
      apply record_inv in Er as (l & _ & ->). by injection E as _ <-.
    - by injection E as _ <-.
    - by injection E as _ <-. }
  by rewrite (Hstart ops (new_stats now) snaps Hrun).
Qed.

Definition sample_ops : list stat_op :=
  [Record_ {| defects := 0; vr_sequence := 4; missing := 0; latency_ns := 30 |} 40;
   Record_ {| defects := 32; vr_sequence := 7; missing := 2; latency_ns := 10 |} 50;
   Dropped 60;
   Record_ {| defects := 16; vr_sequence := 9; missing := 0; latency_ns := 0 |} 70].

Lemma totals_exact_witness :
  exists snaps s, stat_run (new_stats 5) sample_ops = Some (snaps, s) /\ t_missing (totals s) = 2 /\ t_corrupted (totals s) = 1.
Proof.
  destruct (stat_run (new_stats 5) sample_ops) as [[snaps s]|] eqn:E; [|by vm_compute in E].
  exists snaps, s. split; [done|].
  destruct (totals_exact 5 sample_ops snaps s E) as (_ & _ & _ & Hc & _ & Hm & _). rewrite Hc, Hm. by_decide.
Defined.

(** A report covers exactly its interval: between two [take_interval]
    calls the snapshot's packets, bytes and elapsed time are those of the
    records of that interval, and its latency is the minimum, maximum, sum
    and number of the uncorrupted packets' latencies. *)
Theorem report_interval_exact s0 t0 t1 ops snaps s :
  forallb (fun op => negb (is_take op)) ops = true ->
  stat_run (take_interval s0 t0).2 (ops ++ [Take t1]) = Some (snaps, s) ->
  exists snap, snaps = [snap] /\
    rs_packets (s_interval snap) = u64 (tally (on_record (fun _ _ => 1)) ops) /\
    rs_bytes (s_interval snap) = u64 (tally (on_record (fun _ size => size)) ops) /\
    rs_elapsed (s_interval snap) = t1 - t0 /\
    sum_ns (s_latency snap) = tally id (latencies ops) /\
    lat_count (s_latency snap) = u64 (Z.of_nat (length (latencies ops))) /\
    min_ns (s_latency snap) = fold_right Z.min I64_MAX (latencies ops) /\
    max_ns (s_latency snap) = fold_right Z.max I64_MIN (latencies ops) /\
    s_totals snap = totals s.
Proof.
  intros Hnt Hrun. apply stat_run_snoc in Hrun as (a & s1 & Hrun & -> & ->).
  set (s2 := (take_interval s0 t0).2) in *.
  destruct (run_latency ops s2 a s1 Hnt Hrun) as (-> & Hlat & Hstart).
  apply latency_adds_spec in Hlat as (Hsum & Hcount & Hmin & Hmax); [|unfold is_u; cbn; lia].
  exists (take_interval s1 t1).1. split; [done|]. cbn [take_interval window_take fst s_interval s_latency rs_packets rs_bytes rs_elapsed].
  split_and!.
  - by apply (window_counter w_packets _) with (s := s2) (snaps := []).
  - by apply (window_counter w_bytes _) with (s := s2) (snaps := []).
  - by rewrite Hstart.
  - exact Hsum.
  - exact Hcount.
  - exact Hmin.
  - exact Hmax.
  - done.
Qed.

Lemma report_interval_exact_witness :
  exists snap s, stat_run (take_interval (new_stats 5) 10).2 (sample_ops ++ [Take 25]) = Some ([snap], s) /\
    rs_packets (s_interval snap) = 3 /\ rs_elapsed (s_interval snap) = 15 /\ min_ns (s_latency snap) = 10.
Proof.
  destruct (stat_run (take_interval (new_stats 5) 10).2 (sample_ops ++ [Take 25])) as [[snaps s]|] eqn:E; [|by vm_compute in E].
  destruct (report_interval_exact (new_stats 5) 10 25 sample_ops snaps s ltac:(reflexivity) E)
    as (snap & -> & Hp & _ & He & _ & _ & Hmin & _).
  exists snap, s. rewrite Hp, He, Hmin. split; [done | by_decide].
Defined.
