(* ===== verification/ShmRegion.v ===== *)
(** Mirrored shared memory: [common/include/pc/shm_region.hpp],
    [common/src/shm_region.cpp].

    The POSIX calls are parameters ([posix]): each takes the state [W] of the
    operating system and returns its result and the next state.  What the
    code relies on is the class [PosixLaws], documented behaviour of [mmap],
    [munmap], [shm_open] and [shm_unlink], errors included.  [resolve] observes
    the page tables: the object and the offset behind an address of the process;
    [named] the objects under names, [is_open] the process's descriptors. *)
From Stdlib Require Import ZArith Lia Ascii.
From stdpp Require Import base numbers list strings.
From S2P Require Import Prelude Memory.

Record posix (W : Type) := {
  sysconf_pagesize : W -> Z;
  sysconf_errno : W -> Z;
  shm_unlink : W -> string -> option Z * W;      (* errno *)
  shm_create : W -> string -> (Z + Z) * W;       (* [O_CREAT | O_EXCL | O_RDWR]: fd or errno *)
  shm_open : W -> string -> (Z + Z) * W;         (* [O_RDWR]: fd or errno *)
  ftruncate : W -> Z -> Z -> option Z * W;       (* errno *)
  fstat_size : W -> Z -> Z + Z;                  (* [st_size] or errno *)
  close : W -> Z -> W;
  mmap_shared : W -> Z -> Z -> Z -> (Z + Z) * W; (* length, fd, offset: address or errno *)
  mmap_reserve : W -> Z -> (Z + Z) * W;          (* [PROT_NONE], anonymous *)
  mmap_fixed : W -> Z -> Z -> Z -> Z -> (Z + Z) * W; (* address, length, fd, offset *)
  munmap : W -> Z -> Z -> W;
  errno_ENOENT : Z;
  resolve : W -> Z -> option (Z * Z);
  object_of : W -> Z -> Z;
  named : W -> string -> option Z;
  is_open : W -> Z -> bool;
}.
Arguments sysconf_pagesize {W} _.
Arguments sysconf_errno {W} _.
Arguments shm_unlink {W} _.
Arguments shm_create {W} _.
Arguments shm_open {W} _.
Arguments ftruncate {W} _.
Arguments fstat_size {W} _.
Arguments close {W} _.
Arguments mmap_shared {W} _.
Arguments mmap_reserve {W} _.
Arguments mmap_fixed {W} _.
Arguments munmap {W} _.
Arguments errno_ENOENT {W} _.
Arguments resolve {W} _.
Arguments object_of {W} _.
Arguments named {W} _.
Arguments is_open {W} _.

(** A region; a null pointer is [None]. *)
Record MirroredShmRegion := {
  mr_name : string;
  mr_header : option Z;
  mr_data : option Z;
  mr_header_bytes : Z;
  mr_data_bytes : Z;
  mr_owner : bool;
}.

Definition set_mr_header (r : MirroredShmRegion) (p : option Z) : MirroredShmRegion := {|
  mr_name := mr_name r; mr_header := p; mr_data := mr_data r;
  mr_header_bytes := mr_header_bytes r; mr_data_bytes := mr_data_bytes r; mr_owner := mr_owner r |}.

Definition set_mr_data (r : MirroredShmRegion) (p : option Z) : MirroredShmRegion := {|
  mr_name := mr_name r; mr_header := mr_header r; mr_data := p;
  mr_header_bytes := mr_header_bytes r; mr_data_bytes := mr_data_bytes r; mr_owner := mr_owner r |}.

Definition disown (r : MirroredShmRegion) : MirroredShmRegion := {|
  mr_name := mr_name r; mr_header := mr_header r; mr_data := mr_data r;
  mr_header_bytes := mr_header_bytes r; mr_data_bytes := mr_data_bytes r; mr_owner := false |}.

Fixpoint has_char (c : ascii) (s : string) : bool :=
  match s with
  | EmptyString => false
  | String c' s => Ascii.eqb c c' || has_char c s
  end.

Definition valid_name (name : string) : bool :=
  match name with
  | String c rest => (2 <=? String.length name)%nat && Ascii.eqb c "/"%char && negb (has_char "/"%char rest)
  | EmptyString => false
  end.

Definition validate_name (name : string) : outcome unit :=
  if valid_name name then Ret tt
  else Throw (InvalidArgument "shared memory name must look like '/name' (single leading slash)").

Section Region.
Context {W : Type} (os : posix W).

Definition page_size (w : W) : outcome Z :=
  let size := sysconf_pagesize os w in
  if Z.leb size 0 then Throw (SystemError (sysconf_errno os w) "sysconf(_SC_PAGESIZE)") else Ret size.

(** [shm_unlink(name)] as a statement: the code does not look at its result. *)
Definition try_unlink (w : W) (name : string) : W := (shm_unlink os w name).2.

Definition unlink (w : W) (r : MirroredShmRegion) : MirroredShmRegion * W :=
  if mr_owner r then (disown r, try_unlink w (mr_name r)) else (r, w).

Definition region_release (w : W) (r : MirroredShmRegion) : MirroredShmRegion * W :=
  let '(r, w) := unlink w r in
  let '(r, w) := match mr_data r with
                 | Some p => (set_mr_data r None, munmap os w p (u64 (2 * mr_data_bytes r)))
                 | None => (r, w)
                 end in
  match mr_header r with
  | Some p => (set_mr_header r None, munmap os w p (mr_header_bytes r))
  | None => (r, w)
  end.

(** The move constructor: the new object and what is left of [other], whose
    moved-from name [left_name] is unspecified. *)
Definition move_init (other : MirroredShmRegion) (left_name : string) : MirroredShmRegion * MirroredShmRegion :=
  ({| mr_name := mr_name other; mr_header := mr_header other; mr_data := mr_data other;
      mr_header_bytes := mr_header_bytes other; mr_data_bytes := mr_data_bytes other; mr_owner := mr_owner other |},
   {| mr_name := left_name; mr_header := None; mr_data := None; mr_header_bytes := 0; mr_data_bytes := 0;
      mr_owner := false |}).

(** The move assignment to a different object. *)
Definition move_assign (w : W) (this other : MirroredShmRegion) (left_name : string)
    : MirroredShmRegion * MirroredShmRegion * W :=
  let '(_, w) := region_release w this in
  let '(this, other) := move_init other left_name in (this, other, w).

(** The destructor. *)
Definition region_destroy (w : W) (r : MirroredShmRegion) : W := (region_release w r).2.

(** A [throw] inside [map]: the local [region] is destroyed. *)
Definition map_throw {A} (w : W) (r : MirroredShmRegion) (e : exn) : outcome A * W :=
  (Throw e, (region_release w r).2).

(** The loop over the two halves. *)
Fixpoint map_halves (halves : nat) (half : Z) (w : W) (r : MirroredShmRegion) (base fd : Z)
    : outcome MirroredShmRegion * W :=
  match halves with
  | O => (Ret r, w)
  | S halves =>
      let target := base + half * mr_data_bytes r in
      match mmap_fixed os w target (mr_data_bytes r) fd (mr_header_bytes r) with
      | (inr e, w) => map_throw w r (SystemError e "mmap(data)")
      | (inl mapped, w) =>
          if negb (Z.eqb mapped target)
          then map_throw w r (RuntimeError "mmap(MAP_FIXED) returned an unexpected address")
          else map_halves halves (half + 1) w r base fd
      end
  end.

Definition map (w : W) (fd : Z) (name : string) (header_bytes data_bytes : Z) (owner : bool)
    : outcome MirroredShmRegion * W :=
  let region := {| mr_name := name; mr_header := None; mr_data := None;
                   mr_header_bytes := header_bytes; mr_data_bytes := data_bytes; mr_owner := owner |} in
  match mmap_shared os w header_bytes fd 0 with
  | (inr e, w) => map_throw w region (SystemError e "mmap(header)")
  | (inl header, w) =>
      let region := set_mr_header region (Some header) in
      match mmap_reserve os w (u64 (2 * data_bytes)) with
      | (inr e, w) => map_throw w region (SystemError e "mmap(reserve)")
      | (inl base, w) => map_halves 2 0 w (set_mr_data region (Some base)) base fd
      end
  end.

Definition create (w : W) (name : string) (data_capacity : Z) : outcome MirroredShmRegion * W :=
  match validate_name name with
  | Throw e => (Throw e, w)
  | Ret _ =>
      match page_size w with
      | Throw e => (Throw e, w)
      | Ret page =>
          if Z.eqb data_capacity 0 || negb (Z.eqb (data_capacity mod page) 0) then
            (Throw (InvalidArgument "shared memory data capacity must be a non-zero multiple of the page size"), w)
          else
            let w := try_unlink w name in
            match shm_create os w name with
            | (inr e, w) => (Throw (SystemError e "shm_open(O_CREAT)"), w)
            | (inl fd, w) =>
                let total := u64 (page + data_capacity) in
                match ftruncate os w fd (i64 total) with
                | (Some e, w) => (Throw (SystemError e "ftruncate"), close os (try_unlink w name) fd)
                | (None, w) =>
                    match map w fd name page data_capacity true with
                    | (Ret r, w) => (Ret r, close os w fd)
                    | (Throw e, w) => (Throw e, close os (try_unlink w name) fd)
                    end
                end
            end
      end
  end.

Definition try_open (w : W) (name : string) : outcome (option MirroredShmRegion) * W :=
  match validate_name name with
  | Throw e => (Throw e, w)
  | Ret _ =>
      match shm_open os w name with
      | (inr e, w) =>
          if Z.eqb e (errno_ENOENT os) then (Ret None, w) else (Throw (SystemError e "shm_open"), w)
      | (inl fd, w) =>
          match fstat_size os w fd with
          | inr e => (Throw (SystemError e "fstat"), close os w fd)
          | inl st_size =>
              match page_size w with
              | Throw e => (Throw e, close os w fd)
              | Ret page =>
                  let size := u64 st_size in
                  if Z.eqb size 0 then (Ret None, close os w fd)
                  else if Z.ltb size (2 * page) || negb (Z.eqb (u64 (size - page) mod page) 0) then
                    (Throw (RuntimeError ("shared memory object '" +:+ name +:+ "' has an unexpected size")), close os w fd)
                  else
                    match map w fd name page (u64 (size - page)) false with
                    | (Ret r, w) => (Ret (Some r), close os w fd)
                    | (Throw e, w) => (Throw e, close os w fd)
                    end
              end
          end
      end
  end.
End Region.

(** ** What the code relies on *)

Definition inside (x a len : Z) : bool := Z.leb a x && Z.ltb x (a + len).

Class PosixLaws {W : Type} (os : posix W) : Prop := {
  (** A shared mapping is placed over unused addresses. *)
  pl_shared w len fd off a w' : mmap_shared os w len fd off = (inl a, w') ->
    (forall x, inside x a len = true -> resolve os w x = None) /\
    (forall x, resolve os w' x = if inside x a len then Some (object_of os w fd, off + (x - a)) else resolve os w x);
  pl_shared_fail w len fd off e w' : mmap_shared os w len fd off = (inr e, w') ->
    forall x, resolve os w' x = resolve os w x;
  (** An inaccessible reservation, likewise. *)
  pl_reserve w len a w' : mmap_reserve os w len = (inl a, w') ->
    forall x, resolve os w' x = resolve os w x /\ (inside x a len = true -> resolve os w x = None);
  pl_reserve_fail w len e w' : mmap_reserve os w len = (inr e, w') -> forall x, resolve os w' x = resolve os w x;
  (** [MAP_FIXED] replaces what was mapped there. *)
  pl_fixed w a len fd off a' w' : mmap_fixed os w a len fd off = (inl a', w') ->
    a' = a /\ len <= I64_MAX /\   (* the address space of a process is smaller than that *)
    forall x, resolve os w' x = if inside x a len then Some (object_of os w fd, off + (x - a)) else resolve os w x;
  pl_fixed_fail w a len fd off e w' : mmap_fixed os w a len fd off = (inr e, w') ->
    forall x, inside x a len = false -> resolve os w' x = resolve os w x;
  pl_munmap w a len x : resolve os (munmap os w a len) x = if inside x a len then None else resolve os w x;
  (** The calls that do not touch mappings. *)
  pl_resolve_unlink w n x : resolve os (shm_unlink os w n).2 x = resolve os w x;
  pl_resolve_create w n x : resolve os (shm_create os w n).2 x = resolve os w x;
  pl_resolve_open w n x : resolve os (shm_open os w n).2 x = resolve os w x;
  pl_resolve_truncate w fd n x : resolve os (ftruncate os w fd n).2 x = resolve os w x;
  pl_resolve_close w fd x : resolve os (close os w fd) x = resolve os w x;
  (** A descriptor keeps naming its object across mapping calls. *)
  pl_object_shared w len fd off : forall fd', object_of os (mmap_shared os w len fd off).2 fd' = object_of os w fd';
  pl_object_reserve w len : forall fd', object_of os (mmap_reserve os w len).2 fd' = object_of os w fd';
  pl_object_fixed w a len fd off : forall fd', object_of os (mmap_fixed os w a len fd off).2 fd' = object_of os w fd';
  (** [shm_unlink] removes the name if it succeeds, and fails with [ENOENT] if
      there is none; closing does not bring it back. *)
  pl_named_unlink w n w' : shm_unlink os w n = (None, w') -> named os w' n = None;
  pl_unlink_absent w n w' : shm_unlink os w n = (Some (errno_ENOENT os), w') -> named os w' n = None;
  pl_named_create w n e w' : shm_create os w n = (inr e, w') -> named os w' n = named os w n;
  pl_named_close w fd n : named os (close os w fd) n = named os w n;
  (** Sizes: a page size is a [long], a file length is not negative, neither as
      set nor as found. *)
  pl_pagesize w : sysconf_pagesize os w <= I64_MAX;
  pl_truncate w fd n w' : ftruncate os w fd n = (None, w') -> 0 <= n;
  pl_fstat w fd n : fstat_size os w fd = inl n -> 0 <= n <= I64_MAX;
}.

(** The process may remove the name: [shm_unlink] succeeds, or finds nothing
    (it fails with [EACCES] where the permission is missing). *)
Definition may_unlink {W} (os : posix W) (n : string) : Prop :=
  forall w, (shm_unlink os w n).1 = None \/ (shm_unlink os w n).1 = Some (errno_ENOENT os).

(** What descriptors stand for: [shm_open] opens one that was not open, [close]
    closes it, the other calls open and close none; a created object is under
    its name, and a descriptor goes on naming its object. *)
Class DescriptorLaws {W : Type} (os : posix W) : Prop := {
  dl_create w n fd w' : shm_create os w n = (inl fd, w') ->
    is_open os w fd = false /\ (forall x, is_open os w' x = Z.eqb x fd || is_open os w x) /\
    named os w' n = Some (object_of os w' fd);
  dl_create_fail w n e w' : shm_create os w n = (inr e, w') -> forall x, is_open os w' x = is_open os w x;
  dl_open w n fd w' : shm_open os w n = (inl fd, w') ->
    is_open os w fd = false /\ forall x, is_open os w' x = Z.eqb x fd || is_open os w x;
  dl_open_fail w n e w' : shm_open os w n = (inr e, w') -> forall x, is_open os w' x = is_open os w x;
  dl_close w fd x : is_open os (close os w fd) x = negb (Z.eqb x fd) && is_open os w x;
  dl_unlink w n x : is_open os (shm_unlink os w n).2 x = is_open os w x;
  dl_truncate w fd n x : is_open os (ftruncate os w fd n).2 x = is_open os w x;
  dl_shared w len fd off x : is_open os (mmap_shared os w len fd off).2 x = is_open os w x;
  dl_reserve w len x : is_open os (mmap_reserve os w len).2 x = is_open os w x;
  dl_fixed w a len fd off x : is_open os (mmap_fixed os w a len fd off).2 x = is_open os w x;
  dl_munmap w a len x : is_open os (munmap os w a len) x = is_open os w x;
  dl_named_truncate w fd n n' : named os (ftruncate os w fd n).2 n' = named os w n';
  dl_object_truncate w fd n fd' : object_of os (ftruncate os w fd n).2 fd' = object_of os w fd';
}.

(** A mapped region: the header page is the start of the object, and the data
    addresses form the mirrored area of [Memory.v] on the pages after it. *)
Definition mirrors {W} (os : posix W) (w : W) (r : MirroredShmRegion) (obj : Z) : Prop :=
  exists header base, mr_header r = Some header /\ mr_data r = Some base /\
    (forall x, 0 <= x < mr_header_bytes r -> resolve os w (header + x) = Some (obj, x)) /\
    (forall v i, mirror_index (mr_data_bytes r) v = Some i ->
       resolve os w (base + v) = Some (obj, mr_header_bytes r + i)).

Definition mirrored {W} (os : posix W) (w : W) (r : MirroredShmRegion) : Prop := exists obj, mirrors os w r obj.

(** Names are touched by [shm_open] with [O_CREAT] and [shm_unlink] only. *)
Class NameLaws {W : Type} (os : posix W) : Prop := {
  nl_open w n : forall n', named os (shm_open os w n).2 n' = named os w n';
  nl_close w fd : forall n', named os (close os w fd) n' = named os w n';
  nl_shared w len fd off : forall n', named os (mmap_shared os w len fd off).2 n' = named os w n';
  nl_reserve w len : forall n', named os (mmap_reserve os w len).2 n' = named os w n';
  nl_fixed w a len fd off : forall n', named os (mmap_fixed os w a len fd off).2 n' = named os w n';
  nl_munmap w a len : forall n', named os (munmap os w a len) n' = named os w n';
}.

(** The two ranges of a region. *)
Definition covers (r : MirroredShmRegion) (x : Z) : bool :=
  (match mr_header r with Some h => inside x h (mr_header_bytes r) | None => false end)
  || (match mr_data r with Some d => inside x d (u64 (2 * mr_data_bytes r)) | None => false end).

(** From [w] to [w'], the region was mapped over unused addresses and nothing
    else changed. *)
Definition placed {W} (os : posix W) (w w' : W) (r : MirroredShmRegion) : Prop :=
  forall x, if covers r x then resolve os w x = None /\ resolve os w' x <> None
            else resolve os w' x = resolve os w x.

Section RegionSpec.
Context {W : Type} (os : posix W) `{!PosixLaws os}.

Lemma inside_spec x a len : BoolSpec (a <= x < a + len) (x < a \/ a + len <= x) (inside x a len).
Proof.
  unfold inside. destruct (Z.leb_spec a x), (Z.ltb_spec x (a + len)); cbn; constructor; lia.
Qed.

Lemma try_unlink_resolve w n x : resolve os (try_unlink os w n) x = resolve os w x.
Proof. apply pl_resolve_unlink. Qed.

Lemma unlink_resolve w r x : resolve os (unlink os w r).2 x = resolve os w x.
Proof. unfold unlink, try_unlink. destruct (mr_owner r); [apply pl_resolve_unlink | done]. Qed.

Lemma unlink_fields w r :
  mr_data (unlink os w r).1 = mr_data r /\ mr_header (unlink os w r).1 = mr_header r /\
  mr_data_bytes (unlink os w r).1 = mr_data_bytes r /\ mr_header_bytes (unlink os w r).1 = mr_header_bytes r.
Proof. unfold unlink. by destruct (mr_owner r). Qed.

(** Destroying a region unmaps its two ranges and nothing else. *)
Lemma release_resolve w r x :
  resolve os (region_release os w r).2 x =
    if covers r x then None else resolve os w x.
Proof.
  unfold covers. unfold region_release. pose proof (unlink_resolve w r x) as Hr. destruct (unlink_fields w r) as (Hd & Hh & Hdb & Hhb).
  destruct (unlink os w r) as [r1 w1]. cbn [fst snd] in *. rewrite <- Hd, <- Hh, <- Hdb, <- Hhb.
  destruct (mr_data r1) as [d|]; cbn [mr_header mr_header_bytes set_mr_data];
    destruct (mr_header r1) as [h|]; cbn [orb snd]; rewrite ?pl_munmap, ?Hr; try done.
  - by destruct (inside x h _), (inside x d _).
  - by rewrite orb_false_r.
Qed.

Lemma mirror_index_inv n v i : mirror_index n v = Some i -> (0 <= v < n /\ i = v) \/ (n <= v < 2 * n /\ i = v - n).
Proof.
  unfold mirror_index. case_decide; [intros [= <-]; by left|]. case_decide; [intros [= <-]; by right | discriminate].
Qed.

(** The state of [map] after [half] halves, relative to the mappings of [w0]. *)
Record mapping (w0 w : W) (r : MirroredShmRegion) (obj h b fd half : Z) : Prop := {
  mp_header : mr_header r = Some h;
  mp_data : mr_data r = Some b;
  mp_double : u64 (2 * mr_data_bytes r) = 2 * mr_data_bytes r;
  mp_object : object_of os w fd = obj;
  mp_apart x : inside x b (2 * mr_data_bytes r) = true -> inside x h (mr_header_bytes r) = false;
  mp_free x : inside x h (mr_header_bytes r) || inside x b (2 * mr_data_bytes r) = true -> resolve os w0 x = None;
  mp_other x : inside x h (mr_header_bytes r) || inside x b (2 * mr_data_bytes r) = false ->
    resolve os w x = resolve os w0 x;
  mp_header_pages x : inside x h (mr_header_bytes r) = true -> resolve os w x = Some (obj, x - h);
  mp_halves v : 0 <= v < half * mr_data_bytes r ->
    resolve os w (b + v) = Some (obj, mr_header_bytes r + v mod mr_data_bytes r);
}.

Lemma mapping_mirrored w0 w r obj h b fd : 0 < mr_data_bytes r -> mapping w0 w r obj h b fd 2 -> mirrors os w r obj.
Proof.
  intros Hdb [Hh Hb _ _ _ _ _ Hhdr Hdata]. exists h, b. split_and!; try done.
  - intros x Hx. rewrite Hhdr; [do 2 f_equal; lia|]. destruct (inside_spec (h + x) h (mr_header_bytes r)); [done | lia].
  - intros v i Hi. apply mirror_index_inv in Hi as [[Hv ->] | [Hv ->]]; rewrite Hdata by lia; do 3 f_equal.
    + by apply Z.mod_small.
    + symmetry. apply (Z.mod_unique _ _ 1); lia.
Qed.

Lemma mapping_placed w0 w r obj h b fd : 0 < mr_data_bytes r -> mapping w0 w r obj h b fd 2 -> placed os w0 w r.
Proof.
  intros Hdb [Hh Hb H2 _ _ Hfree Hother Hhdr Hdata] x. unfold covers. rewrite Hh, Hb, H2.
  destruct (inside x h _ || inside x b _) eqn:Hin; [|by apply Hother]. split; [by apply Hfree|].
  apply orb_true_iff in Hin as [Hin | Hin]; [by rewrite Hhdr|].
  destruct (inside_spec x b (2 * mr_data_bytes r)) as [Hr|]; [|discriminate].
  replace x with (b + (x - b)) by lia. by rewrite Hdata by lia.
Qed.

Lemma mapping_undone w0 w r obj h b fd half x :
  mapping w0 w r obj h b fd half -> resolve os (region_release os w r).2 x = resolve os w0 x.
Proof.
  intros [Hh Hb H2 _ _ Hfree Hother _ _]. rewrite release_resolve. unfold covers. rewrite Hh, Hb, H2.
  destruct (inside x h _ || inside x b _) eqn:Hin; [by rewrite Hfree | by apply Hother].
Qed.

Lemma mapping_step w0 w r obj h b fd half a' w' :
  0 <= half <= 1 -> 0 < mr_data_bytes r -> mapping w0 w r obj h b fd half ->
  mmap_fixed os w (b + half * mr_data_bytes r) (mr_data_bytes r) fd (mr_header_bytes r) = (inl a', w') ->
  a' = b + half * mr_data_bytes r /\ mapping w0 w' r obj h b fd (half + 1).
Proof.
  intros Hhalf Hdb [Hh Hb H2 Hobj Hapart Hfree Hother Hhdr Hdata] E.
  pose proof (pl_object_fixed w (b + half * mr_data_bytes r) (mr_data_bytes r) fd (mr_header_bytes r) fd) as Hobj'.
  rewrite E in Hobj'. cbn [snd] in Hobj'. destruct (pl_fixed _ _ _ _ _ _ _ E) as (Ha & _ & Hmap). split; [done|].
  set (db := mr_data_bytes r) in *. assert (Hsub : forall x, inside x (b + half * db) db = true -> inside x b (2 * db) = true).
  { intros x Hx. destruct (inside_spec x (b + half * db) db); [|discriminate].
    destruct (inside_spec x b (2 * db)); [done | nia]. }
  split; fold db; try done.
  - congruence.
  - intros x Hx. rewrite Hmap. destruct (inside x (b + half * db) db) eqn:Hin; [|by apply Hother].
    rewrite (Hsub x Hin), orb_true_r in Hx. discriminate.
  - intros x Hx. rewrite Hmap. destruct (inside x (b + half * db) db) eqn:Hin; [|by apply Hhdr].
    rewrite (Hapart x (Hsub x Hin)) in Hx. discriminate.
  - intros v Hv. rewrite Hmap. destruct (inside_spec (b + v) (b + half * db) db) as [Hin | Hout].
    + rewrite Hobj. do 3 f_equal. apply (Z.mod_unique _ _ half); lia.
    + apply Hdata. nia.
Qed.

Lemma map_halves_spec halves half w0 w r obj h b fd :
  half + Z.of_nat halves = 2 -> 0 <= half -> 0 < mr_data_bytes r -> mapping w0 w r obj h b fd half ->
  match map_halves os halves half w r b fd with
  | (Ret r', w') => mirrors os w' r' obj /\ placed os w0 w' r' /\ r' = r
  | (Throw e, w') => forall x, resolve os w' x = resolve os w0 x
  end.
Proof.
  revert half w. induction halves as [|halves IH]; intros half w Hsum Hhalf Hdb Hm; cbn [map_halves].
  { replace half with 2 in Hm by lia. split_and!; [by eapply mapping_mirrored | by eapply mapping_placed | done]. }
  destruct (mmap_fixed os w _ _ fd _) as [[a' | e] w'] eqn:E.
  - assert (Hh1 : 0 <= half <= 1) by lia. destruct (mapping_step _ _ _ _ _ _ _ _ _ _ Hh1 Hdb Hm E) as [-> Hm']. rewrite Z.eqb_refl. cbn [negb].
    apply IH; try lia. done.
  - intros x. unfold map_throw. rewrite release_resolve. unfold covers. rewrite (mp_header _ _ _ _ _ _ _ _ Hm), (mp_data _ _ _ _ _ _ _ _ Hm), (mp_double _ _ _ _ _ _ _ _ Hm).
    destruct (inside x h _ || inside x b _) eqn:Hin; [by rewrite (mp_free _ _ _ _ _ _ _ _ Hm x Hin)|].
    rewrite (pl_fixed_fail _ _ _ _ _ _ _ E); [by apply (mp_other _ _ _ _ _ _ _ _ Hm)|].
    apply orb_false_iff in Hin as [_ Hin]. destruct (inside_spec x b (2 * mr_data_bytes r)); [discriminate|].
    destruct (inside_spec x (b + half * mr_data_bytes r) (mr_data_bytes r)); [nia | done].
Qed.

(** [map] either yields a mirrored region, or throws and leaves every mapping
    that existed before as it was. *)
Lemma map_spec w fd name header_bytes data_bytes owner : 0 < header_bytes -> 0 < data_bytes <= I64_MAX ->
  match map os w fd name header_bytes data_bytes owner with
  | (Ret r, w') => mirrors os w' r (object_of os w fd) /\ placed os w w' r /\ mr_name r = name /\ mr_owner r = owner /\
      mr_header_bytes r = header_bytes /\ mr_data_bytes r = data_bytes
  | (Throw e, w') => forall x, resolve os w' x = resolve os w x
  end.
Proof.
  intros Hhb [Hdb Hmax]. unfold map, map_throw. assert (H2 : u64 (2 * data_bytes) = 2 * data_bytes) by (apply u64_small; unfold is_u, I64_MAX in *; lia).
  pose proof (pl_object_shared w header_bytes fd 0) as Hobj1.
  destruct (mmap_shared os w header_bytes fd 0) as [[h | e] w1] eqn:E1.
  2: { intros x. rewrite release_resolve. cbn. by apply (pl_shared_fail _ _ _ _ _ _ E1). }
  destruct (pl_shared _ _ _ _ _ _ E1) as [Hfree1 Hmap1].
  rewrite H2. pose proof (pl_object_reserve w1 (2 * data_bytes)) as Hobj2.
  destruct (mmap_reserve os w1 (2 * data_bytes)) as [[b | e] w2] eqn:E2.
  2: { intros x. rewrite release_resolve. unfold covers. cbn. rewrite orb_false_r, (pl_reserve_fail _ _ _ _ E2 x), Hmap1.
       destruct (inside x h header_bytes) eqn:Hin; [by rewrite Hfree1 | done]. }
  assert (Hres := pl_reserve _ _ _ _ E2). cbn [snd] in Hobj1, Hobj2.
  assert (Hapart : forall x, inside x b (2 * data_bytes) = true -> inside x h header_bytes = false /\ resolve os w x = None).
  { intros x Hx. destruct (Hres x) as [_ Hnone]. specialize (Hnone Hx). rewrite Hmap1 in Hnone.
    by destruct (inside x h header_bytes). }
  set (r := set_mr_data _ _).
  assert (Hm : mapping w w2 r (object_of os w fd) h b fd 0).
  { split; try done; cbn [mr_data_bytes mr_header_bytes r set_mr_data set_mr_header].
    - by rewrite Hobj2, Hobj1.
    - intros x Hx. by apply Hapart.
    - intros x Hx. apply orb_true_iff in Hx as [Hx | Hx]; [by apply Hfree1 | by apply Hapart].
    - intros x Hx. apply orb_false_iff in Hx as [Hx _]. destruct (Hres x) as [-> _]. by rewrite Hmap1, Hx.
    - intros x Hx. destruct (Hres x) as [-> _]. by rewrite Hmap1, Hx.
    - intros v Hv. lia. }
  pose proof (map_halves_spec 2 0 w w2 r _ h b fd ltac:(lia) ltac:(lia) Hdb Hm) as Hspec.
  destruct (map_halves os 2 0 w2 r b fd) as [[r' | e] w'] eqn:Em; [|done].
  destruct Hspec as (Hmir & Hpl & ->). done.
Qed.

(** A region that [map] returns is not larger than the address space. *)
Lemma map_fits w fd name header_bytes data_bytes owner r w' :
  map os w fd name header_bytes data_bytes owner = (Ret r, w') -> data_bytes <= I64_MAX.
Proof.
  unfold map, map_throw. destruct (mmap_shared _ _ _ _ _) as [[h|e] w1]; [|discriminate].
  destruct (mmap_reserve _ _ _) as [[b|e] w2]; [|discriminate]. cbn [map_halves].
  destruct (mmap_fixed os w2 _ _ _ _) as [[a|e] w3] eqn:E; [|discriminate]. by apply pl_fixed in E as (_ & ? & _).
Qed.

Lemma map_returns w fd name header_bytes data_bytes owner r w' : 0 < header_bytes -> 0 < data_bytes ->
  map os w fd name header_bytes data_bytes owner = (Ret r, w') ->
  mirrors os w' r (object_of os w fd) /\ placed os w w' r /\ mr_name r = name /\ mr_owner r = owner /\
  mr_header_bytes r = header_bytes /\ mr_data_bytes r = data_bytes.
Proof.
  intros Hhb Hdb E. pose proof (map_fits _ _ _ _ _ _ _ _ E) as Hmax. pose proof (map_spec w fd name header_bytes data_bytes owner Hhb ltac:(lia)) as H.
  by rewrite E in H.
Qed.

Lemma mirrors_same w w' r obj : (forall x, resolve os w x <> None -> resolve os w' x = resolve os w x) -> mirrors os w r obj -> mirrors os w' r obj.
Proof.
  intros Hs (h & b & Hh & Hb & Hhdr & Hdata). exists h, b. split_and!; [done | done | |].
  - intros x Hx. rewrite Hs; rewrite Hhdr by done; done.
  - intros v i Hi. rewrite Hs; erewrite Hdata by done; done.
Qed.

Lemma mirrors_close w fd r obj : mirrors os w r obj -> mirrors os (close os w fd) r obj.
Proof. apply mirrors_same. intros x _. apply pl_resolve_close. Qed.

Lemma page_size_pos w page : page_size os w = Ret page -> 0 < page.
Proof. unfold page_size. destruct (Z.leb_spec (sysconf_pagesize os w) 0); [discriminate | intros [= <-]; lia]. Qed.

Lemma create_mirrored w name cap r w' : 0 <= cap -> create os w name cap = (Ret r, w') ->
  mirrored os w' r /\ placed os w w' r /\ mr_name r = name /\ mr_owner r = true /\ mr_data_bytes r = cap /\ valid_name name = true.
Proof.
  intros Hcap. unfold create, validate_name, try_unlink. destruct (valid_name name); [|discriminate].
  destruct (page_size os w) as [page | e] eqn:Hp; [|discriminate]. apply page_size_pos in Hp.
  destruct (Z.eqb_spec cap 0); [discriminate|]. cbn [orb]. destruct (negb _); [discriminate|].
  pose proof (pl_resolve_create (shm_unlink os w name).2 name) as Hc.
  destruct (shm_create os _ name) as [[fd | e] w1]; [|discriminate].
  pose proof (pl_resolve_truncate w1 fd (i64 (u64 (page + cap)))) as Ht.
  destruct (ftruncate os w1 fd _) as [[e|] w2]; [discriminate|]. cbn [snd] in Hc, Ht.
  destruct (map os w2 fd name page cap true) as [[r' | e] w3] eqn:Hm; [|discriminate].
  intros [= <- <-]. apply map_returns in Hm as (Hm & Hpl & Hn & Ho & _ & Hd); [|lia..].
  split; [eexists; by apply mirrors_close|]. split; [|done].
  intros x. specialize (Hpl x). rewrite !pl_resolve_close. rewrite !Ht, !Hc, !pl_resolve_unlink in Hpl. exact Hpl.
Qed.

(** A size of [fstat] less a page is the size of a data area. *)
Lemma opened_size w fd st page : fstat_size os w fd = inl st -> 0 < page -> 2 * page <= u64 st -> 0 < u64 (u64 st - page) <= I64_MAX.
Proof.
  intros Hst Hp H. apply pl_fstat in Hst. rewrite (u64_small st) in * by (unfold is_u, I64_MAX in *; lia).
  rewrite u64_small; unfold is_u, I64_MAX in *; lia.
Qed.

Lemma try_open_mirrored w name r w' : try_open os w name = (Ret (Some r), w') ->
  mirrored os w' r /\ mr_name r = name /\ mr_owner r = false /\ 0 < mr_data_bytes r.
Proof.
  unfold try_open. destruct (validate_name name); [|discriminate].
  destruct (shm_open os w name) as [[fd | e] w1]; [|by destruct (Z.eqb e _)].
  destruct (fstat_size os w1 fd) as [st | e] eqn:Hst; [|discriminate].
  destruct (page_size os w1) as [page | e] eqn:Hp; [|discriminate]. apply page_size_pos in Hp.
  destruct (Z.eqb (u64 st) 0); [discriminate|]. destruct (Z.ltb_spec (u64 st) (2 * page)) as [|Hle]; [discriminate|]. cbn [orb].
  destruct (negb _); [discriminate|]. pose proof (opened_size w1 fd st page Hst Hp Hle) as Hsize.
  pose proof (map_spec w1 fd name page (u64 (u64 st - page)) false Hp Hsize) as Hm.
  destruct (map os w1 fd name page _ false) as [[r' | e] w3]; [|discriminate].
  intros [= <- <-]. destruct Hm as (Hm & _ & Hn & Ho & _ & Hd). split; [eexists; by apply mirrors_close|]. rewrite Hd. split_and!; [done | done | lia].
Qed.

(** *** What a failed [create] leaves *)

Definition same_resolve (w w' : W) : Prop := forall x, resolve os w' x = resolve os w x.

(** The arguments pass the checks at the head of [create]. *)
Definition create_admits (w : W) (name : string) (cap : Z) : Prop :=
  valid_name name = true /\ exists page, page_size os w = Ret page /\ cap <> 0 /\ cap mod page = 0.

Lemma try_unlink_named w n : may_unlink os n -> named os (try_unlink os w n) n = None.
Proof.
  intros H. unfold try_unlink. specialize (H w). destruct (shm_unlink os w n) as [e w'] eqn:E. cbn [fst snd] in *.
  destruct H as [-> | ->]; [by eapply pl_named_unlink | by eapply pl_unlink_absent].
Qed.

Lemma create_throw w name cap e w' : 0 <= cap <= 2 ^ 63 -> create os w name cap = (Throw e, w') ->
  same_resolve w w' /\ (create_admits w name cap -> may_unlink os name -> named os w' name = None) /\ (~ create_admits w name cap -> w' = w).
Proof.
  intros Hcap. unfold create. destruct (validate_name name) eqn:Hname.
  2: { intros [= _ <-]. split; [done|]. split; [|done]. unfold validate_name in Hname. intros [Hv _]. by rewrite Hv in Hname. }
  assert (Hv : valid_name name = true) by (unfold validate_name in Hname; by destruct (valid_name name)).
  destruct (page_size os w) as [page | e'] eqn:Hpage.
  2: { intros [= _ <-]. split; [done|]. split; [|done]. intros (_ & page & E & _). congruence. }
  pose proof (page_size_pos _ _ Hpage) as Hp. assert (Hpmax : page <= I64_MAX).
  { unfold page_size in Hpage. destruct (Z.leb _ 0); [discriminate|]. injection Hpage as <-. apply pl_pagesize. }
  destruct (_ || _) eqn:Hargs.
  { intros [= _ <-]. split; [done|]. split; [|done]. intros (_ & page' & E & H1 & H2). rewrite Hpage in E. injection E as <-.
    apply orb_true_iff in Hargs as [H | H]; [by apply Z.eqb_eq in H|]. by rewrite H2 in H. }
  apply orb_false_iff in Hargs as [Hz Hmod]. apply Z.eqb_neq in Hz. apply negb_false_iff, Z.eqb_eq in Hmod.
  assert (Hadm : create_admits w name cap) by (split; [done | by exists page]).
  set (w0 := try_unlink os w name). assert (H0 : same_resolve w w0) by (intros x; apply try_unlink_resolve).
  pose proof (pl_resolve_create w0 name) as Hc.
  destruct (shm_create os w0 name) as [[fd | e'] w1] eqn:E1; cbn [snd] in Hc.
  2: { intros [= _ <-]. split; [intros x; by rewrite Hc, H0|]. split; [|by intros []]. intros _ Hmay.
       rewrite (pl_named_create _ _ _ _ E1). by apply try_unlink_named. }
  pose proof (pl_resolve_truncate w1 fd (i64 (u64 (page + cap)))) as Ht.
  destruct (ftruncate os w1 fd _) as [[e'|] w2] eqn:Et; cbn [snd] in Ht.
  { intros [= _ <-]. split; [intros x; by rewrite pl_resolve_close, try_unlink_resolve, Ht, Hc, H0|].
    split; [|by intros []]. intros _ Hmay. rewrite pl_named_close. by apply try_unlink_named. }
  assert (Hfit : 0 < cap <= I64_MAX).
  { apply pl_truncate in Et. rewrite u64_small in Et by (unfold is_u, I64_MAX in *; lia). unfold i64 in Et. unfold I64_MAX in *. mod_lia. }
  pose proof (map_spec w2 fd name page cap true Hp Hfit) as Hm.
  destruct (map os w2 fd name page cap true) as [[r' | e'] w3]; [discriminate|].
  intros [= _ <-]. split; [intros x; by rewrite pl_resolve_close, try_unlink_resolve, Hm, Ht, Hc, H0|].
  split; [|by intros []]. intros _ Hmay. rewrite pl_named_close. by apply try_unlink_named.
Qed.

(** Destroying a region gives its addresses back and removes the name it owns. *)
Lemma unlink_owner w r : mr_owner r = true -> may_unlink os (mr_name r) ->
  named os (unlink os w r).2 (mr_name r) = None /\ mr_owner (unlink os w r).1 = false.
Proof. intros Ho Hmay. unfold unlink. rewrite Ho. split; [by apply try_unlink_named | done]. Qed.
End RegionSpec.

(** *** Descriptors *)

Section Descriptors.
Context {W : Type} (os : posix W) `{!DescriptorLaws os}.

Definition same_open (w w' : W) : Prop := forall fd, is_open os w' fd = is_open os w fd.

Lemma try_unlink_open w n : same_open w (try_unlink os w n).
Proof. intros x. apply dl_unlink. Qed.

Lemma release_open w r : same_open w (region_release os w r).2.
Proof.
  intros x. unfold region_release, unlink. destruct (mr_owner r); cbn [mr_data mr_header mr_data_bytes mr_header_bytes disown];
    destruct (mr_data r); cbn [mr_data mr_header mr_header_bytes set_mr_data disown]; destruct (mr_header r);
    cbn [snd]; by rewrite ?dl_munmap, ?try_unlink_open.
Qed.

Lemma map_open w fd name hb db owner : same_open w (map os w fd name hb db owner).2.
Proof.
  intros x. unfold map, map_throw. pose proof (dl_shared w hb fd 0 x) as H1.
  destruct (mmap_shared os w hb fd 0) as [[h | e] w1]; cbn [snd] in *; [|by rewrite release_open].
  pose proof (dl_reserve w1 (u64 (2 * db)) x) as H2. destruct (mmap_reserve os w1 _) as [[b | e] w2]; cbn [snd] in *; [|rewrite release_open; congruence].
  assert (Hloop : forall halves half w r base, is_open os (map_halves os halves half w r base fd).2 x = is_open os w x); [|rewrite Hloop; congruence].
  induction halves as [|halves IH]; intros half w' r base; cbn [map_halves]; [done|].
  pose proof (dl_fixed w' (base + half * mr_data_bytes r) (mr_data_bytes r) fd (mr_header_bytes r) x) as H3.
  destruct (mmap_fixed os w' _ _ fd _) as [[a | e] w3]; cbn [snd] in *; unfold map_throw; cbn [snd]; [|by rewrite release_open].
  destruct (negb _); cbn [snd]; [by rewrite release_open | by rewrite IH].
Qed.

Lemma create_descriptors w name cap result w' : create os w name cap = (result, w') -> same_open w w'.
Proof.
  unfold create. destruct (validate_name name); [|by intros [= _ <-]]. destruct (page_size os w) as [page|]; [|by intros [= _ <-]].
  destruct (_ || _); [by intros [= _ <-]|]. pose proof (try_unlink_open w name) as H0.
  destruct (shm_create os (try_unlink os w name) name) as [[fd | e] w1] eqn:E1.
  2: { intros [= _ <-] x. by rewrite (dl_create_fail _ _ _ _ E1), H0. }
  destruct (dl_create _ _ _ _ E1) as (Hfd & Hall & _).
  (* Whatever happens to the open object, closing it restores the descriptors. *)
  assert (Hclose : forall w2, same_open w1 w2 -> same_open w (close os w2 fd)).
  { intros w2 H2 x. rewrite dl_close, H2, Hall, H0. destruct (Z.eqb_spec x fd) as [-> |]; cbn; [by rewrite <- (H0 fd)|done]. }
  pose proof (fun x => dl_truncate w1 fd (i64 (u64 (page + cap))) x) as Ht. destruct (ftruncate os w1 fd _) as [[e|] w2]; cbn [snd] in Ht.
  { intros [= _ <-]. apply Hclose. intros x. by rewrite try_unlink_open, Ht. }
  pose proof (map_open w2 fd name page cap true) as Hm. destruct (map os w2 fd name page cap true) as [[r | e] w3]; cbn [snd] in Hm.
  - intros [= _ <-]. apply Hclose. intros x. by rewrite Hm, Ht.
  - intros [= _ <-]. apply Hclose. intros x. by rewrite try_unlink_open, Hm, Ht.
Qed.
End Descriptors.

(** ** A small operating system (for the witnesses)

    Objects and descriptors are numbered, a mapping is placed after the end of
    all the earlier ones, and fixed mappings fail beyond 64 KiB. *)

Record toy := {
  toy_names : list (string * Z);
  toy_objects : Z;
  toy_maps : list (Z * Z * option (Z * Z));
  toy_files : list (Z * Z);        (* the object of each descriptor there has been *)
  toy_opened : list Z;
}.

Fixpoint toy_find (maps : list (Z * Z * option (Z * Z))) (x : Z) : option (Z * Z) :=
  match maps with
  | [] => None
  | (a, len, target) :: maps =>
      if inside x a len then (p ← target; Some (p.1, p.2 + (x - a))) else toy_find maps x
  end.

Definition toy_end (maps : list (Z * Z * option (Z * Z))) : Z := fold_right (fun '(a, len, _) m => Z.max (a + len) m) 4096 maps.

Definition toy_map (w : toy) (a len : Z) (target : option (Z * Z)) : toy := {|
  toy_names := toy_names w; toy_objects := toy_objects w; toy_maps := (a, len, target) :: toy_maps w;
  toy_files := toy_files w; toy_opened := toy_opened w |}.

Definition toy_remove (w : toy) (n : string) : toy := {|
  toy_names := filter (fun p => p.1 <> n) (toy_names w); toy_objects := toy_objects w; toy_maps := toy_maps w;
  toy_files := toy_files w; toy_opened := toy_opened w |}.

Definition toy_named (w : toy) (n : string) : option Z := snd <$> List.find (fun p => String.eqb p.1 n) (toy_names w).

Definition toy_fresh (w : toy) : Z := fold_right Z.max 2 (toy_opened w) + 1.

Definition toy_open (w : toy) (object : Z) : toy := {|
  toy_names := toy_names w; toy_objects := toy_objects w; toy_maps := toy_maps w;
  toy_files := (toy_fresh w, object) :: toy_files w; toy_opened := toy_fresh w :: toy_opened w |}.

Definition toy_close (w : toy) (fd : Z) : toy := {|
  toy_names := toy_names w; toy_objects := toy_objects w; toy_maps := toy_maps w;
  toy_files := toy_files w; toy_opened := filter (fun x => x <> fd) (toy_opened w) |}.

Definition toy_object (w : toy) (fd : Z) : Z := default 0 (snd <$> List.find (fun p => Z.eqb p.1 fd) (toy_files w)).

Definition toy_os : posix toy := {|
  sysconf_pagesize := fun _ => 4096;
  sysconf_errno := fun _ => 0;
  shm_unlink := fun w n => (match toy_named w n with Some _ => None | None => Some 2 end, toy_remove w n);
  shm_create := fun w n =>
    match toy_named w n with
    | Some _ => (inr 17, w)
    | None => (inl (toy_fresh w), toy_open {| toy_names := (n, toy_objects w) :: toy_names w; toy_objects := toy_objects w + 1;
                 toy_maps := toy_maps w; toy_files := toy_files w; toy_opened := toy_opened w |} (toy_objects w))
    end;
  shm_open := fun w n => match toy_named w n with Some o => (inl (toy_fresh w), toy_open w o) | None => (inr 2, w) end;
  ftruncate := fun w _ n => (if Z.ltb n 0 then Some 22 else None, w);
  fstat_size := fun _ _ => inl 8192;
  close := toy_close;
  mmap_shared := fun w len fd off => let a := toy_end (toy_maps w) in (inl a, toy_map w a len (Some (toy_object w fd, off)));
  mmap_reserve := fun w len => let a := toy_end (toy_maps w) in (inl a, toy_map w a len None);
  mmap_fixed := fun w a len fd off =>
    if Z.ltb 65536 (a + len) || Z.ltb I64_MAX len then (inr 12, w) else (inl a, toy_map w a len (Some (toy_object w fd, off)));
  munmap := fun w a len => toy_map w a len None;
  errno_ENOENT := 2;
  resolve := fun w x => toy_find (toy_maps w) x;
  object_of := toy_object;
  named := toy_named;
  is_open := fun w fd => existsb (Z.eqb fd) (toy_opened w);
|}.

Lemma toy_find_end maps x : toy_end maps <= x -> toy_find maps x = None.
Proof.
  induction maps as [|[[a len] target] maps IH]; intros Hx; [done|]. cbn [toy_end fold_right toy_find] in *.
  destruct (inside_spec x a len); [lia|]. apply IH. unfold toy_end. lia.
Qed.

Lemma toy_named_remove w n : toy_named (toy_remove w n) n = None.
Proof.
  unfold toy_named, toy_remove. cbn [toy_names]. destruct (List.find _ _) as [p|] eqn:E; [|done].
  apply find_some in E as [Hin Heq]. apply list_elem_of_In, list_elem_of_filter in Hin as [Hne _].
  apply String.eqb_eq in Heq. done.
Qed.

Lemma toy_fresh_closed w : existsb (Z.eqb (toy_fresh w)) (toy_opened w) = false.
Proof.
  apply not_true_iff_false. rewrite existsb_exists. intros (x & Hx & E). apply Z.eqb_eq in E.
  assert (H : forall l, In x l -> x <= fold_right Z.max 2 l).
  { induction l as [|y l IH]; cbn; [done|]. intros [-> | Hl]; [lia|]. specialize (IH Hl). lia. }
  apply H in Hx. unfold toy_fresh in E. lia.
Qed.

#[export] Instance toy_laws : PosixLaws toy_os.
Proof.
  assert (Hfree : forall w x len, inside x (toy_end (toy_maps w)) len = true -> toy_find (toy_maps w) x = None).
  { intros w x len Hx. apply toy_find_end. destruct (inside_spec x (toy_end (toy_maps w)) len); [lia | discriminate]. }
  constructor.
  - intros w len fd off a w' [= <- <-]. cbn. eauto.
  - discriminate.
  - intros w len a w' [= <- <-] x. cbn. split; [|apply Hfree].
    destruct (inside x (toy_end (toy_maps w)) len) eqn:E; [by rewrite (Hfree w x len E) | done].
  - discriminate.
  - intros w a len fd off a' w'. cbn. destruct (Z.ltb_spec I64_MAX len); [by rewrite orb_true_r|].
    destruct (_ || _); [discriminate|]. by intros [= <- <-].
  - intros w a len fd off e w'. cbn. destruct (_ || _); [by intros [= _ <-] | discriminate].
  - intros w a len x. cbn. by destruct (inside x a len).
  - done.
  - intros w n x. cbn. by destruct (toy_named w n).
  - intros w n x. cbn. by destruct (toy_named w n).
  - done.
  - done.
  - done.
  - done.
  - intros w a len fd off fd'. cbn. by destruct (_ || _).
  - intros w n w' [= _ <-]. apply toy_named_remove.
  - intros w n w' [= _ <-]. apply toy_named_remove.
  - intros w n e w'. cbn. destruct (toy_named w n) eqn:E; [by intros [= _ <-] | discriminate].
  - done.
  - intros w. by_decide.
  - intros w fd n w'. cbn. destruct (Z.ltb_spec n 0); [discriminate | done].
  - intros w fd n. cbn. intros [= <-]. split; by_decide.
Qed.

#[export] Instance toy_descriptors : DescriptorLaws toy_os.
Proof.
  constructor; try done.
  - intros w n fd w'. cbn. destruct (toy_named w n); [discriminate|]. intros [= <- <-].
    split; [apply toy_fresh_closed|]. split; [done|]. unfold toy_named, toy_object. cbn. by rewrite String.eqb_refl, Z.eqb_refl.
  - intros w n e w'. cbn. destruct (toy_named w n); [by intros [= _ <-] | discriminate].
  - intros w n fd w'. cbn. destruct (toy_named w n); [|discriminate]. intros [= <- <-]. split; [apply toy_fresh_closed | done].
  - intros w n e w'. cbn. destruct (toy_named w n); [discriminate | by intros [= _ <-]].
  - intros w fd x. cbn [toy_os is_open close toy_close toy_opened].
    destruct (existsb (Z.eqb x) (filter _ _)) eqn:E; symmetry.
    + apply existsb_exists in E as (y & Hy & Ey). apply Z.eqb_eq in Ey as <-. apply list_elem_of_In, list_elem_of_filter in Hy as [Hne Hy].
      rewrite (proj2 (Z.eqb_neq x fd)) by done. apply existsb_exists. exists x. split; [by apply list_elem_of_In | apply Z.eqb_refl].
    + apply not_true_iff_false. intros H. apply andb_true_iff in H as [Hne H]. apply negb_true_iff, Z.eqb_neq in Hne.
      apply existsb_exists in H as (y & Hy & Ey). apply Z.eqb_eq in Ey as <-. apply not_true_iff_false in E. apply E, existsb_exists.
      exists x. split; [|apply Z.eqb_refl]. apply list_elem_of_In, list_elem_of_filter. split; [done | by apply list_elem_of_In].
  - intros w a len fd off x. cbn. by destruct (_ || _).
Qed.

Lemma toy_may_unlink n : may_unlink toy_os n.
Proof. intros w. cbn. destruct (toy_named w n); [by left | by right]. Qed.

Definition toy_start : toy := {| toy_names := []; toy_objects := 7; toy_maps := []; toy_files := []; toy_opened := [] |}.

(** ** Properties *)

(** C27. The mirrored mapping is what the ring relies on: whenever [create] or
    [try_open] returns a region, byte [v] of its data area, for [v] below
    twice the capacity, is the object's byte [header + (v mod capacity)]: the
    two halves share their pages, and no data address reaches the control
    page. *)
Theorem region_is_mirrored {W} (os : posix W) w name cap :
  PosixLaws os -> 0 <= cap ->
  (forall r w', create os w name cap = (Ret r, w') ->
     mirrored os w' r /\ mr_data_bytes r = cap /\ mr_owner r = true) /\
  (forall r w', try_open os w name = (Ret (Some r), w') ->
     mirrored os w' r /\ 0 < mr_data_bytes r /\ mr_owner r = false).
Proof.
  intros Hos Hcap. split; intros r w' E.
  - apply create_mirrored in E; [tauto | done | done].
  - apply try_open_mirrored in E; [tauto | done].
Qed.

Lemma region_is_mirrored_witness :
  match create toy_os toy_start "/ring" 4096 with
  | (Ret r, w) => mirrored toy_os w r /\ mr_data_bytes r = 4096 /\ mr_owner r = true
  | _ => False
  end.
Proof.
  destruct (create toy_os toy_start "/ring" 4096) as [[r | e] w] eqn:E; [|by vm_compute in E].
  apply (proj1 (region_is_mirrored toy_os toy_start "/ring" 4096 toy_laws ltac:(lia)) r w E).
Defined.

(** C28. A failed [create] of a capacity up to 2^63 (all that [normalize_capacity]
    gives) leaves nothing behind, whichever call failed: every
    address of the process resolves as before (partial mappings are undone) and
    exactly the descriptors are open that were; if the arguments pass its checks
    no object is left under the name, provided that the process may unlink it;
    and if they do not, nothing at all has been done.  After success, too, no
    descriptor stays open: the mappings outlive it. *)
Theorem failed_create_is_clean {W} (os : posix W) w name cap result w' :
  PosixLaws os -> DescriptorLaws os -> 0 <= cap <= 2 ^ 63 -> create os w name cap = (result, w') ->
  (forall fd, is_open os w' fd = is_open os w fd) /\
  match result with
  | Ret _ => True
  | Throw _ =>
      (forall x, resolve os w' x = resolve os w x) /\
      (create_admits os w name cap -> may_unlink os name -> named os w' name = None) /\
      (~ create_admits os w name cap -> w' = w)
  end.
Proof.
  intros Hos Hdl Hcap E. split; [by eapply create_descriptors|].
  destruct result as [r|e]; [done | by apply (create_throw os w name cap e w')].
Qed.

(** The second half does not fit under the address limit of the toy system. *)
Lemma failed_create_is_clean_witness :
  exists w', create toy_os toy_start "/ring" 32768 = (Throw (SystemError 12 "mmap(data)"), w') /\
    resolve toy_os w' 10000 = None /\ is_open toy_os w' 3 = false /\ named toy_os w' "/ring" = None.
Proof.
  destruct (create toy_os toy_start "/ring" 32768) as [[r | e] w'] eqn:E; [by vm_compute in E|].
  destruct (failed_create_is_clean toy_os toy_start "/ring" 32768 (Throw e) w' toy_laws toy_descriptors ltac:(lia) E) as (Hopen & Hr & Hn & _).
  exists w'. split; [vm_compute in E |- *; by injection E as <- <-|]. split; [exact (Hr 10000)|]. split; [exact (Hopen 3)|].
  apply Hn; [split; [reflexivity|]; exists 4096; by vm_compute | apply toy_may_unlink].
Defined.
