(* ===== verification/RegionOwnership.v ===== *)
(** Ownership of mappings and names: the move operations and the destructor
    of [MirroredShmRegion] ([common/src/shm_region.cpp]).

    The variables of a program that hold regions, and the operations C++ code
    can perform on them; the system calls are recorded as they are made.
    Whatever the order of moves, each mapping that was made is unmapped once. *)
From Stdlib Require Import ZArith Lia.
From stdpp Require Import base numbers list strings gmap.
From S2P Require Import Prelude Memory ShmRegion.

(** ** Recorded system calls *)

Inductive call := CallUnmap (address length : Z) | CallUnlink (name : string).

Section Trace.
Context {W : Type} (os : posix W).

Definition keep {A} (log : list call) (p : A * W) : A * (W * list call) := (p.1, (p.2, log)).

Definition traced : posix (W * list call) := {|
  sysconf_pagesize w := sysconf_pagesize os w.1;
  sysconf_errno w := sysconf_errno os w.1;
  shm_unlink w n := keep (w.2 ++ [CallUnlink n]) (shm_unlink os w.1 n);
  shm_create w n := keep w.2 (shm_create os w.1 n);
  shm_open w n := keep w.2 (shm_open os w.1 n);
  ftruncate w fd n := keep w.2 (ftruncate os w.1 fd n);
  fstat_size w fd := fstat_size os w.1 fd;
  close w fd := (close os w.1 fd, w.2);
  mmap_shared w len fd off := keep w.2 (mmap_shared os w.1 len fd off);
  mmap_reserve w len := keep w.2 (mmap_reserve os w.1 len);
  mmap_fixed w a len fd off := keep w.2 (mmap_fixed os w.1 a len fd off);
  munmap w a len := (munmap os w.1 a len, w.2 ++ [CallUnmap a len]);
  errno_ENOENT := errno_ENOENT os;
  resolve w x := resolve os w.1 x;
  object_of w fd := object_of os w.1 fd;
  named w n := named os w.1 n;
  is_open w fd := is_open os w.1 fd;
|}.

(** ** Programs over region variables *)

Inductive region_op :=
  | New (x : nat) (r : MirroredShmRegion)            (* a region from [create] or [try_open] *)
  | MoveInit (x y : nat) (left_name : string)        (* [MirroredShmRegion x(std::move(y))] *)
  | MoveAssign (x y : nat) (left_name : string)      (* [x = std::move(y)], [x] and [y] possibly the same *)
  | Unlink (x : nat)
  | Destroy (x : nat).

Abbreviation variables := (gmap nat MirroredShmRegion).

(** [None]: a variable is used outside its lifetime. *)
Definition region_op_step (vars : variables) (w : W * list call) (op : region_op) : option (variables * (W * list call)) :=
  match op with
  | New x r => if decide (vars !! x = None) then Some (<[x := r]> vars, w) else None
  | MoveInit x y left_name =>
      other ← vars !! y;
      if decide (vars !! x = None) then
        let '(this, other) := move_init other left_name in Some (<[x := this]> (<[y := other]> vars), w)
      else None
  | MoveAssign x y left_name =>
      this ← vars !! x;
      other ← vars !! y;
      if Nat.eqb x y then Some (vars, w)
      else
        let '(this, other, w) := move_assign traced w this other left_name in
        Some (<[x := this]> (<[y := other]> vars), w)
  | Unlink x =>
      r ← vars !! x;
      let '(r, w) := unlink traced w r in Some (<[x := r]> vars, w)
  | Destroy x =>
      r ← vars !! x;
      Some (delete x vars, region_destroy traced w r)
  end.

Fixpoint region_ops_run (vars : variables) (w : W * list call) (ops : list region_op) : option (variables * (W * list call)) :=
  match ops with
  | [] => Some (vars, w)
  | op :: ops => '(vars, w) ← region_op_step vars w op; region_ops_run vars w ops
  end.
End Trace.

(** ** What regions hold *)

Definition pointers (r : MirroredShmRegion) : list (Z * Z) :=
  match mr_data r with Some p => [(p, u64 (2 * mr_data_bytes r))] | None => [] end ++
  match mr_header r with Some p => [(p, mr_header_bytes r)] | None => [] end.

Definition owned (r : MirroredShmRegion) : list string := if mr_owner r then [mr_name r] else [].

Definition of_all {A} (f : MirroredShmRegion -> list A) (vars : gmap nat MirroredShmRegion) : list A :=
  concat (List.map (fun v => f v.2) (map_to_list vars)).

Definition unmapped (log : list call) : list (Z * Z) :=
  omap (fun c => match c with CallUnmap a len => Some (a, len) | _ => None end) log.
Definition unlinked (log : list call) : list string :=
  omap (fun c => match c with CallUnlink n => Some n | _ => None end) log.

Definition made {A} (f : MirroredShmRegion -> list A) (ops : list region_op) : list A :=
  concat (List.map (fun op => match op with New _ r => f r | _ => [] end) ops).

Lemma of_all_insert {A} (f : MirroredShmRegion -> list A) vars x r : vars !! x = None ->
  of_all f (<[x := r]> vars) ≡ₚ f r ++ of_all f vars.
Proof. intros Hx. unfold of_all. by rewrite (map_to_list_insert vars x r Hx). Qed.

Lemma of_all_delete {A} (f : MirroredShmRegion -> list A) vars x r : vars !! x = Some r ->
  of_all f vars ≡ₚ f r ++ of_all f (delete x vars).
Proof. intros Hx. unfold of_all. by rewrite <- (map_to_list_delete vars x r Hx). Qed.

Lemma of_all_update {A} (f : MirroredShmRegion -> list A) vars x r : is_Some (vars !! x) ->
  of_all f (<[x := r]> vars) ≡ₚ f r ++ of_all f (delete x vars).
Proof. intros Hx. rewrite <- insert_delete_eq. by rewrite of_all_insert by apply lookup_delete_eq. Qed.

(** A resource that regions hold ([f]) and system calls give back ([logged]). *)
Section Conservation.
Context {W : Type} (os : posix W) {A : Type} (f : MirroredShmRegion -> list A) (logged : list call -> list A).
Context (Hrelease : forall w log r, logged (region_release (traced os) (w, log) r).2.2 ≡ₚ f r ++ logged log).
Context (Hunlink : forall w log r, let u := unlink (traced os) (w, log) r in f u.1 ++ logged u.2.2 ≡ₚ f r ++ logged log).
Context (Hmove : forall other n, f (move_init other n).1 = f other /\ f (move_init other n).2 = []).

Lemma step_conserves vars w log op vars' w' log' : region_op_step os vars (w, log) op = Some (vars', (w', log')) ->
  of_all f vars' ++ logged log' ≡ₚ of_all f vars ++ logged log ++ made f [op].
Proof.
  destruct op as [x r | x y n | x y n | x | x]; cbn [region_op_step]; unfold made; cbn [List.map concat]; rewrite ?app_nil_r.
  - destruct (decide _) as [Hx|]; [|discriminate]. intros [= <- <- <-]. rewrite of_all_insert by done. solve_Permutation.
  - destruct (vars !! y) as [other|] eqn:Hy; cbn [mbind option_bind]; [|discriminate].
    destruct (decide _) as [Hx|]; [|discriminate]. destruct (Hmove other n) as [H1 H2].
    destruct (move_init other n) as [this left]. cbn [fst snd] in *. intros [= <- <- <-].
    assert (Hxy : x <> y) by congruence.
    rewrite of_all_insert by (by rewrite lookup_insert_ne). rewrite of_all_update by (by eexists).
    rewrite (of_all_delete f vars y other Hy), H1, H2. solve_Permutation.
  - destruct (vars !! x) as [this|] eqn:Hx; cbn [mbind option_bind]; [|discriminate].
    destruct (vars !! y) as [other|] eqn:Hy; cbn [mbind option_bind]; [|discriminate].
    destruct (Nat.eqb_spec x y) as [-> | Hxy]; [by intros [= <- <- <-]|]. unfold move_assign.
    pose proof (Hrelease w log this) as Hr. destruct (region_release _ _ _) as [dead [w1 log1]]. cbn [snd] in Hr.
    destruct (Hmove other n) as [H1 H2]. destruct (move_init other n) as [this' left]. cbn [fst snd] in *. intros [= <- <- <-].
    rewrite of_all_update by (rewrite lookup_insert_ne by congruence; by eexists). rewrite delete_insert_ne by congruence.
    rewrite of_all_update by (rewrite lookup_delete_ne by congruence; by eexists). rewrite Hr, H1, H2.
    rewrite (of_all_delete f vars x this Hx), (of_all_delete f (delete x vars) y other) by (by (rewrite lookup_delete_ne by congruence)).
    solve_Permutation.
  - destruct (vars !! x) as [r|] eqn:Hx; cbn [mbind option_bind]; [|discriminate].
    pose proof (Hunlink w log r) as Hu. destruct (unlink _ _ _) as [r' [w1 log1]]. cbn [fst snd] in Hu. intros [= <- <- <-].
    rewrite of_all_update by (by eexists). rewrite (of_all_delete f vars x r Hx). rewrite <- !app_assoc.
    rewrite (Permutation_app_comm (of_all f (delete x vars)) (logged log1)).
    rewrite (Permutation_app_comm (of_all f (delete x vars)) (logged log)). by rewrite !app_assoc, Hu.
  - destruct (vars !! x) as [r|] eqn:Hx; cbn [mbind option_bind]; [|discriminate]. unfold region_destroy.
    pose proof (Hrelease w log r) as Hr. destruct (region_release _ _ _) as [dead [w1 log1]]. cbn [snd] in Hr |- *.
    intros [= <- <- <-]. rewrite Hr, (of_all_delete f vars x r Hx). solve_Permutation.
Qed.

Lemma run_conserves ops vars w log vars' w' log' : region_ops_run os vars (w, log) ops = Some (vars', (w', log')) ->
  of_all f vars' ++ logged log' ≡ₚ of_all f vars ++ logged log ++ made f ops.
Proof.
  revert vars w log. induction ops as [|op ops IH]; intros vars w log H; cbn [region_ops_run] in H.
  { injection H as <- <- <-. unfold made. cbn. by rewrite app_nil_r. }
  destruct (region_op_step os vars (w, log) op) as [[vars1 [w1 log1]]|] eqn:E; cbn [mbind option_bind] in H; [|discriminate].
  apply step_conserves in E. apply IH in H. rewrite H, app_assoc, E. unfold made. cbn [List.map concat].
  rewrite app_nil_r. solve_Permutation.
Qed.
End Conservation.

Section Ownership.
Context {W : Type} (os : posix W).

Lemma traced_unlink w log r : unlink (traced os) (w, log) r =
  (if mr_owner r then disown r else r, ((unlink os w r).2, log ++ List.map CallUnlink (owned r))).
Proof. unfold unlink, try_unlink, owned. destruct (mr_owner r); cbn; by rewrite ?app_nil_r. Qed.

Lemma traced_release w log r :
  (region_release (traced os) (w, log) r).2.2 =
    log ++ List.map CallUnlink (owned r) ++ List.map (fun p => CallUnmap p.1 p.2) (pointers r).
Proof.
  unfold region_release, pointers. rewrite traced_unlink. set (u := (unlink os w r).2). clearbody u.
  destruct r as [n h d hb db []]; unfold owned; destruct d as [d|], h as [h|]; cbn; by rewrite <- ?app_assoc, ?app_nil_r.
Qed.

Lemma unmapped_calls l : unmapped (List.map (fun p => CallUnmap p.1 p.2) l) = l.
Proof. unfold unmapped. induction l as [|[a n] l IH]; cbn; by rewrite ?IH. Qed.

Lemma unmapped_names l : unmapped (List.map CallUnlink l) = [].
Proof. unfold unmapped. by induction l. Qed.

Lemma unlinked_calls l : unlinked (List.map (fun p => CallUnmap p.1 p.2) l) = [].
Proof. unfold unlinked. by induction l. Qed.

Lemma unlinked_names l : unlinked (List.map CallUnlink l) = l.
Proof. unfold unlinked. induction l as [|n l IH]; cbn; by rewrite ?IH. Qed.
End Ownership.

(** C20. Ownership is linear.  In any program over region variables that uses
    them within their lifetimes (constructing, moving, assigning, also onto
    themselves, unlinking and destroying in any order), the mappings that were
    made are, counted with multiplicity, those the live variables hold and those
    that have been unmapped; and the names of the regions that own theirs are
    those still owned and those that have been unlinked.  So nothing is unmapped
    or unlinked twice, and once the variables are gone nothing is left. *)
Theorem regions_are_linear {W} (os : posix W) w ops vars w' log :
  region_ops_run os ∅ (w, []) ops = Some (vars, (w', log)) ->
  of_all pointers vars ++ unmapped log ≡ₚ made pointers ops /\
  of_all owned vars ++ unlinked log ≡ₚ made owned ops /\
  (vars = ∅ -> unmapped log ≡ₚ made pointers ops /\ unlinked log ≡ₚ made owned ops).
Proof.
  intros H.
  assert (Hp : of_all pointers vars ++ unmapped log ≡ₚ made pointers ops).
  { apply (run_conserves os pointers unmapped) in H; [exact H | | | done].
    - intros w0 l r. rewrite traced_release. unfold unmapped. rewrite !omap_app. fold (unmapped l).
      fold (unmapped (List.map CallUnlink (owned r))). rewrite unmapped_names.
      fold (unmapped (List.map (fun p => CallUnmap p.1 p.2) (pointers r))). rewrite unmapped_calls. solve_Permutation.
    - intros w0 l r u. subst u. rewrite traced_unlink. unfold unmapped. cbn [fst snd]. rewrite omap_app. fold (unmapped l).
      fold (unmapped (List.map CallUnlink (owned r))). rewrite unmapped_names, app_nil_r. by destruct (mr_owner r). }
  assert (Ho : of_all owned vars ++ unlinked log ≡ₚ made owned ops).
  { apply (run_conserves os owned unlinked) in H; [exact H | | | done].
    - intros w0 l r. rewrite traced_release. unfold unlinked. rewrite !omap_app. fold (unlinked l).
      fold (unlinked (List.map CallUnlink (owned r))). rewrite unlinked_names.
      fold (unlinked (List.map (fun p => CallUnmap p.1 p.2) (pointers r))). rewrite unlinked_calls. solve_Permutation.
    - intros w0 l r u. subst u. rewrite traced_unlink. unfold unlinked, owned. cbn [fst snd]. rewrite omap_app. fold (unlinked l).
      destruct (mr_owner r) eqn:Hown; cbn; rewrite ?Hown; solve_Permutation. }
  split_and!; [done | done|]. intros ->. done.
Qed.

(** A region is replaced by move assignment, as when a source attaches again,
    then moved onto itself, unlinked and destroyed with its empty shells. *)
Definition demo_region (name : string) (base : Z) (owner : bool) : MirroredShmRegion := {|
  mr_name := name; mr_header := Some base; mr_data := Some (base + 4096); mr_header_bytes := 4096;
  mr_data_bytes := 8192; mr_owner := owner |}.

Definition demo_region_ops : list region_op := [
  New 0 (demo_region "/a" 65536 true); MoveInit 1 0 "";
  New 2 (demo_region "/b" 131072 false); MoveAssign 2 1 ""; MoveAssign 2 2 "";
  Unlink 2; Destroy 0; Destroy 1; Destroy 2].

Lemma regions_are_linear_witness :
  exists w log, region_ops_run toy_os ∅ (toy_start, []) demo_region_ops = Some (∅, (w, log)) /\
    unlinked log ≡ₚ ["/a"%string] /\
    unmapped log ≡ₚ [(69632, 16384); (65536, 4096); (135168, 16384); (131072, 4096)].
Proof.
  destruct (region_ops_run toy_os ∅ (toy_start, []) demo_region_ops) as [[vars [w log]]|] eqn:E; [|by vm_compute in E].
  destruct (regions_are_linear toy_os toy_start demo_region_ops vars w log E) as (_ & _ & H).
  assert (Hv : vars = ∅) by (vm_compute in E; by injection E as <- _ _). destruct (H Hv) as [H1 H2]. rewrite Hv.
  exists w, log. split; [done | split; [exact H2 | exact H1]].
Defined.
