(* ===== verification/Transport.v ===== *)
(** The shared-memory transport: [common/include/pc/transport.hpp],
    [shm_transport.hpp], [backoff.hpp], [common/src/shm_transport.cpp].

    What another process or the operating system decides is an argument: the
    values atomic loads return, the clock, the stop request, whether [kill]
    reports a process, and the outcome of opening or creating the region. *)
From Stdlib Require Import ZArith Lia.
From stdpp Require Import base numbers list gmap sets strings pretty.
From S2P Require Import Prelude Memory RingBuffer RingProtocol.

(** ** Backoff *)

Definition kSpinSteps : Z := 64.
Definition kYieldSteps : Z := 16.
Definition kMaxSleep : Z := 1000.

Inductive pause := CpuRelax | Yield | Sleep (microseconds : Z).

Definition backoff_wait (step : Z) : pause * Z :=
  let action :=
    if Z.ltb step kSpinSteps then CpuRelax
    else if Z.ltb step (kSpinSteps + kYieldSteps) then Yield
    else
      let exponent := step - kSpinSteps - kYieldSteps in
      let delay := 50 * (1 ≪ (if Z.ltb exponent 5 then exponent else 4)) in
      Sleep (if Z.ltb kMaxSleep delay then kMaxSleep else delay) in
  (action, if Z.ltb step (kSpinSteps + kYieldSteps + 8) then step + 1 else step).

Definition sleeping (step : Z) : bool := Z.leb (kSpinSteps + kYieldSteps) step.

(** The longest sleep is 800 microseconds: the clamp to [kMaxSleep] never acts. *)
Lemma backoff_longest_sleep step us next : 0 <= step -> backoff_wait step = (Sleep us, next) -> us <= 800 /\ us < kMaxSleep.
Proof.
  intros H0. unfold backoff_wait, kSpinSteps, kYieldSteps, kMaxSleep.
  destruct (Z.ltb_spec step 64); [discriminate|]. destruct (Z.ltb_spec step (64 + 16)); [discriminate|].
  assert (Hd : 50 * (1 ≪ (if Z.ltb (step - 64 - 16) 5 then step - 64 - 16 else 4)) <= 800).
  { change 800 with (50 * 2 ^ 4). rewrite Z.shiftl_1_l. apply Z.mul_le_mono_nonneg_l; [lia|].
    apply Z.pow_le_mono_r; [lia|]. destruct (Z.ltb_spec (step - 64 - 16) 5); lia. }
  rewrite (proj2 (Z.ltb_ge 1000 _)) by lia. intros [= <- _]. lia.
Qed.

(** ** Waiting *)

(** One turn of the loop in [wait_until]: the stop request it sees, what the
    attempt loads, and the clock after the attempt. *)
Record poll := { p_stop : bool; p_load : Z; p_now : Z }.

Inductive waited (A S : Type) :=
  | Done (result : option A) (s : S)
  | Waiting (s : S)
  | Fault.
Arguments Done {A S} _ _.
Arguments Waiting {A S} _.
Arguments Fault {A S}.

Section Wait.
Context {A S : Type} (attempt : S -> Z -> option (option A * S)).

Fixpoint wait_loop (deadline step : Z) (polls : list poll) (s : S) : waited A S :=
  match polls with
  | [] => Waiting s
  | p :: polls =>
      if p_stop p then Done None s
      else
        let step := (backoff_wait step).2 in
        match attempt s (p_load p) with
        | None => Fault
        | Some (Some a, s) => Done (Some a) s
        | Some (None, s) =>
            if sleeping step && Z.leb deadline (p_now p) then Done None s
            else wait_loop deadline step polls s
        end
  end.

(** [load] is what the first attempt loads, [now] the clock behind it. *)
Definition wait_until (timeout_ms load now : Z) (polls : list poll) (s : S) : waited A S :=
  match attempt s load with
  | None => Fault
  | Some (Some a, s) => Done (Some a) s
  | Some (None, s) =>
      if Z.leb timeout_ms 0 then Done None s
      else wait_loop (now + timeout_ms * 1000000) 0 polls s
  end.
End Wait.

(** ** Ring capacity *)

Fixpoint grow_capacity (fuel : nat) (capacity requested : Z) : option (outcome Z) :=
  match fuel with
  | O => None
  | S fuel =>
      if Z.ltb capacity requested then
        if Z.ltb (1 ≪ 62) capacity then Some (Throw (InvalidArgument "ring capacity is too large"))
        else grow_capacity fuel (u64 (capacity ≪ 1)) requested
      else Some (Ret capacity)
  end.

Definition normalize_capacity (page requested : Z) : option (outcome Z) := grow_capacity 64 page requested.

(** ** Peers *)

Record PeerStatus := { present : bool; peer_alive : bool; finished : bool }.
Record QueueStatus := { used_bytes : Z; capacity_bytes : Z }.

(** [kill_ok pid]: [kill(pid, 0)] succeeds or fails with [EPERM]. *)
Definition process_alive (kill_ok : Z -> bool) (pid : Z) : bool :=
  if Z.leb pid 0 then false else kill_ok pid.

Definition set_consumer_pid (c : RingControl) (pid : Z) : RingControl := {|
  rc_magic := rc_magic c; rc_version := rc_version c; rc_capacity := rc_capacity c; rc_state := rc_state c;
  rc_producer_pid := rc_producer_pid c; rc_consumer_pid := pid; rc_head := rc_head c; rc_tail := rc_tail c |}.

Definition set_state (c : RingControl) (s : RingState) : RingControl := {|
  rc_magic := rc_magic c; rc_version := rc_version c; rc_capacity := rc_capacity c; rc_state := state_code s;
  rc_producer_pid := rc_producer_pid c; rc_consumer_pid := rc_consumer_pid c; rc_head := rc_head c; rc_tail := rc_tail c |}.

Definition zero_control : RingControl := {|
  rc_magic := 0; rc_version := 0; rc_capacity := 0; rc_state := 0;
  rc_producer_pid := 0; rc_consumer_pid := 0; rc_head := 0; rc_tail := 0 |}.

Section Ends.
Context (kill_ok : Z -> bool).

(** *** Sink *)

(** The constructor: [existing] is what [try_open] produced, [create] the
    outcome of creating a region of the given capacity (its data capacity). *)
Definition ShmPacketSink (existing : outcome (option RingControl)) (create : Z -> outcome Z)
    (name : string) (page capacity me : Z) : option (outcome (RingControl * RingProducer)) :=
  let taken :=
    match existing with
    | Ret (Some control) =>
        let pid := rc_producer_pid control in
        if ring_control_ready control && (process_alive kill_ok pid && negb (Z.eqb pid me)) then Some pid else None
    | _ => None
    end in
  match taken with
  | Some pid =>
      Some (Throw (RuntimeError ("another producer (pid " +:+ pretty pid +:+ ") is already using " +:+ name)))
  | None =>
    normalized ← normalize_capacity page capacity;
    Some (normalized ← normalized;
          data_capacity ← create normalized;
          let control := initialize_ring_control zero_control data_capacity me in
          Ret (control, new_producer (rc_capacity control) (rc_head control) (rc_tail control)))
  end.

(** The destructor's store, before it unlinks the name. *)
Definition sink_finish (control : RingControl) : RingControl := set_state control ProducerFinished.

Definition sink_reserve (p : RingProducer * bytes) (size : Z) (timeout_ms load now : Z) (polls : list poll) :=
  wait_until (fun '(p, mem) tail_load =>
      '(slot, p, mem) ← try_reserve p tail_load mem size; Some (slot, (p, mem)))
    timeout_ms load now polls p.

Definition sink_peer_status (consumer_pid : Z) : PeerStatus :=
  {| present := negb (Z.eqb consumer_pid 0); peer_alive := process_alive kill_ok consumer_pid; finished := false |}.

(** Per turn: the stop request and the consumer pid it loads. *)
Fixpoint wait_for_peer (turns : list (bool * Z)) : option bool :=
  match turns with
  | [] => None
  | (stop, pid) :: turns =>
      if stop then Some false
      else if peer_alive (sink_peer_status pid) then Some true
      else wait_for_peer turns
  end.

Definition sink_queue_status (p : RingProducer) (tail_load : Z) : QueueStatus :=
  {| used_bytes := producer_used p tail_load; capacity_bytes := p_capacity p |}.

(** *** Source *)

(** [try_attach]: [region] is the outcome of [try_open], with the control
    block and the mapped data capacity; [at_cas] is the consumer pid the
    compare-and-exchange finds.  The result is the control block afterwards
    and the consumer end, if attached. *)
Definition try_attach (name : string) (region : outcome (option (RingControl * Z))) (me at_cas : Z)
    : outcome (option (RingControl * RingConsumer)) :=
  region ← region;
  match region with
  | None => Ret None
  | Some (control, data_capacity) =>
      if negb (ring_control_ready control) then Ret None
      else if negb (Z.eqb (rc_capacity control) data_capacity) then
        Throw (RuntimeError "shared memory ring capacity does not match the mapped size")
      else if negb (process_alive kill_ok (rc_producer_pid control)) then Ret None
      else
        let expected := rc_consumer_pid control in
        if negb (Z.eqb expected 0) && negb (Z.eqb expected me) && process_alive kill_ok expected then
          Throw (RuntimeError ("another consumer (pid " +:+ pretty expected +:+ ") is already attached to " +:+ name))
        else if negb (Z.eqb at_cas expected) then Ret None
        else
          let control := set_consumer_pid control me in
          Ret (Some (control, new_consumer (rc_capacity control) (rc_tail control) (rc_head control)))
  end.

(** [connect]: per turn the stop request and the outcome of [try_attach]. *)
Fixpoint connect {X} (connected : option X) (turns : list (bool * outcome (option X))) : option (outcome (bool * option X)) :=
  match connected with
  | Some x => Some (Ret (true, Some x))
  | None =>
      match turns with
      | [] => None
      | (stop, attached) :: turns =>
          if stop then Some (Ret (false, None))
          else
            match attached with
            | Throw e => Some (Throw e)
            | Ret (Some x) => Some (Ret (true, Some x))
            | Ret None => connect None turns
            end
      end
  end.

(** [disconnect]: the tail store, if any, and the consumer pid left behind. *)
Definition disconnect (ring : option RingConsumer) (me consumer_pid : Z) : option RingConsumer * option Z * Z :=
  match ring with
  | None => (None, None, consumer_pid)
  | Some c => (None, (release c).2, if Z.eqb consumer_pid me then 0 else consumer_pid)
  end.

(** [receive]: the tail store of the implied release, then the wait. *)
Definition receive (ring : option RingConsumer) (mem : bytes) (timeout_ms load now : Z) (polls : list poll)
    : option Z * waited (Z * Z) (option RingConsumer) :=
  match ring with
  | None => (None, Done None None)
  | Some c =>
      let '(c, store) := release c in
      (store,
       match wait_until (fun c head_load => try_peek c head_load mem) timeout_ms load now polls c with
       | Done span c => Done span (Some c)
       | Waiting c => Waiting (Some c)
       | Fault => Fault
       end)
  end.

Definition source_release (ring : option RingConsumer) : option RingConsumer * option Z :=
  match ring with
  | None => (None, None)
  | Some c => let '(c, store) := release c in (Some c, store)
  end.

Definition source_queue_status (ring : option RingConsumer) (head_load : Z) : QueueStatus :=
  match ring with
  | None => {| used_bytes := 0; capacity_bytes := 0 |}
  | Some c => {| used_bytes := consumer_used c head_load; capacity_bytes := c_capacity c |}
  end.

Definition source_peer_status (ring : option RingConsumer) (producer_pid state : Z) : PeerStatus :=
  match ring with
  | None => {| present := false; peer_alive := false; finished := false |}
  | Some c => {| present := negb (Z.eqb producer_pid 0); peer_alive := process_alive kill_ok producer_pid;
                 finished := Z.eqb state (state_code ProducerFinished) || c_corrupted c |}
  end.
End Ends.

(** ** Waiting ends *)

Section WaitSpec.
Context {A S : Type} (attempt : S -> Z -> option (option A * S)).

(** A wait without result saw a stop request or the deadline, and its last
    attempt failed. *)
Lemma wait_loop_spec deadline step polls s r s' :
  wait_loop attempt deadline step polls s = Done r s' ->
  match r with
  | Some a => exists s1 p, p ∈ polls /\ attempt s1 (p_load p) = Some (Some a, s')
  | None => exists p, p ∈ polls /\ (p_stop p = true \/ deadline <= p_now p)
  end.
Proof.
  revert step s. induction polls as [|p polls IH]; intros step s H; cbn [wait_loop] in H; [discriminate|].
  destruct (p_stop p) eqn:Hstop.
  { injection H as <- _. exists p. split; [constructor | by left]. }
  destruct (attempt s (p_load p)) as [[[a|] s1]|] eqn:E; [| |discriminate].
  - injection H as <- <-. exists s, p. split; [constructor | done].
  - destruct (sleeping _ && Z.leb deadline (p_now p)) eqn:Hd.
    + injection H as <- _. exists p. split; [constructor|]. right. apply andb_true_iff in Hd as [_ Hd]. lia.
    + apply IH in H. destruct r.
      * destruct H as (s2 & p' & Hin & H). exists s2, p'. split; [by constructor | done].
      * destruct H as (p' & Hin & H). exists p'. split; [by constructor | done].
Qed.

Lemma wait_loop_ends deadline step polls s k p :
  0 <= step -> polls !! k = Some p ->
  (p_stop p = true \/ (80 <= step + Z.of_nat k + 1 /\ deadline <= p_now p)) ->
  exists r, wait_loop attempt deadline step polls s = r /\ forall s', r <> Waiting s'.
Proof.
  revert step s k. induction polls as [|q polls IH]; intros step s k Hstep Hk Hend; [done|]. cbn [wait_loop].
  destruct (p_stop q) eqn:Hstop; [by eexists|].
  destruct (attempt s (p_load q)) as [[[a|] s1]|]; [by eexists | | by eexists].
  assert (Hnext : 0 <= (backoff_wait step).2 /\ Z.min 80 (step + 1) <= (backoff_wait step).2).
  { unfold backoff_wait, kSpinSteps, kYieldSteps. cbn [snd]. destruct (Z.ltb_spec step (64 + 16 + 8)); lia. }
  destruct (sleeping _ && Z.leb deadline (p_now q)) eqn:Hd; [by eexists|].
  destruct k as [|k]; cbn [lookup list_lookup] in Hk.
  - injection Hk as ->. destruct Hend as [? | [Hs Hdl]]; [congruence|]. exfalso.
    unfold sleeping, kSpinSteps, kYieldSteps in Hd.
    rewrite (proj2 (Z.leb_le (64 + 16) _)), (proj2 (Z.leb_le deadline _)) in Hd by lia. discriminate.
  - apply (IH _ _ k); [lia | done|]. destruct Hend as [? | [Hs Hdl]]; [by left | right; lia].
Qed.
End WaitSpec.

(** ** Capacities *)

Lemma grow_capacity_spec fuel j requested : 0 <= j <= 63 -> 64 - j <= Z.of_nat fuel ->
  grow_capacity fuel (2 ^ j) requested =
    Some (if Z.leb requested (2 ^ 63) then Ret (2 ^ Z.max j (Z.log2_up requested))
          else Throw (InvalidArgument "ring capacity is too large")).
Proof.
  revert j. induction fuel as [|fuel IH]; intros j Hj Hf; [lia|]. cbn [grow_capacity].
  destruct (Z.ltb_spec (2 ^ j) requested) as [Hlt | Hge].
  - rewrite Z.shiftl_1_l. destruct (Z.ltb_spec (2 ^ 62) (2 ^ j)) as [Hbig | Hsmall].
    + assert (j = 63) as ->.
      { apply Z.pow_lt_mono_r_iff in Hbig; lia. }
      by rewrite (proj2 (Z.leb_gt _ _)).
    + apply Z.pow_le_mono_r_iff in Hsmall; [|lia..].
      assert (Hnext : u64 (2 ^ j ≪ 1) = 2 ^ (j + 1)).
      { rewrite Z.shiftl_mul_pow2, <- Z.pow_add_r by lia. apply u64_small. split; [lia|].
        apply Z.pow_lt_mono_r; lia. }
      rewrite Hnext, IH by lia. do 2 f_equal. destruct (Z.leb requested (2 ^ 63)); [|done]. do 2 f_equal.
      assert (j < Z.log2_up requested); [|lia]. apply Z.log2_up_lt_pow2; lia.
  - rewrite (proj2 (Z.leb_le _ _)) by (etrans; [exact Hge | apply Z.pow_le_mono_r; lia]).
    do 3 f_equal. destruct (Z.le_gt_cases requested 1).
    + rewrite Z.log2_up_eqn0 by lia. lia.
    + pose proof (proj1 (Z.log2_up_le_pow2 requested j ltac:(lia)) Hge). lia.
Qed.

Lemma log2_up_range n : 0 <= n <= 2 ^ 63 -> 0 <= Z.log2_up n <= 63.
Proof.
  intros Hn. split; [apply Z.log2_up_nonneg|]. destruct (Z.le_gt_cases n 1).
  - rewrite Z.log2_up_eqn0; lia.
  - apply Z.log2_up_le_pow2; lia.
Qed.

(** ** Consumers racing for the ring

    Any number of consumer processes attach to and detach from one ring,
    interleaved at the granularity of their atomic accesses to
    [consumer_pid]: [try_attach] loads the control block in one step and
    compares and exchanges in a later one.  A process may die at any point;
    its pid is not reused. *)

Inductive phase :=
  | Detached
  | Loaded (control : RingControl) (data_capacity : Z)
  | Attached (ring : RingConsumer).

Record race := { consumer_pid : Z; phases : gmap Z phase; dead : gset Z }.

Definition phase_of (st : race) (me : Z) : phase := default Detached (phases st !! me).

Inductive race_step (name : string) : race -> race -> Prop :=
  | race_load st me control data_capacity :
      0 < me -> me ∉ dead st -> phase_of st me = Detached -> rc_consumer_pid control = consumer_pid st ->
      race_step name st
        {| consumer_pid := consumer_pid st; phases := <[me := Loaded control data_capacity]> (phases st); dead := dead st |}
  | race_attach st me control data_capacity kill_ok control' ring :
      me ∉ dead st -> phase_of st me = Loaded control data_capacity ->
      (forall pid, kill_ok pid = false -> pid ∈ dead st) ->
      try_attach kill_ok name (Ret (Some (control, data_capacity))) me (consumer_pid st) = Ret (Some (control', ring)) ->
      race_step name st
        {| consumer_pid := rc_consumer_pid control'; phases := <[me := Attached ring]> (phases st); dead := dead st |}
  | race_give_up st me control data_capacity :
      phase_of st me = Loaded control data_capacity ->
      race_step name st
        {| consumer_pid := consumer_pid st; phases := <[me := Detached]> (phases st); dead := dead st |}
  | race_detach st me ring ring' store pid :
      me ∉ dead st -> phase_of st me = Attached ring ->
      disconnect (Some ring) me (consumer_pid st) = (ring', store, pid) ->
      race_step name st {| consumer_pid := pid; phases := <[me := Detached]> (phases st); dead := dead st |}
  | race_die st me :
      race_step name st {| consumer_pid := consumer_pid st; phases := phases st; dead := {[me]} ∪ dead st |}.

Definition fresh_race : race := {| consumer_pid := 0; phases := ∅; dead := ∅ |}.

Definition race_inv (st : race) : Prop :=
  (forall me ring, me ∉ dead st -> phase_of st me = Attached ring -> consumer_pid st = me) /\
  (forall me, phase_of st me <> Detached -> 0 < me).

Lemma phase_insert st me ph pid d k :
  phase_of {| consumer_pid := pid; phases := <[me := ph]> (phases st); dead := d |} k =
    if decide (k = me) then ph else phase_of st k.
Proof.
  unfold phase_of. cbn [phases]. case_decide as Hk.
  - subst k. by rewrite lookup_insert_eq.
  - by rewrite lookup_insert_ne.
Qed.

(** What a successful [try_attach] has established. *)
Lemma try_attach_Some kill_ok name control cap me at_cas control' ring :
  try_attach kill_ok name (Ret (Some (control, cap))) me at_cas = Ret (Some (control', ring)) ->
  ring_control_ready control = true /\ rc_capacity control = cap /\
  process_alive kill_ok (rc_producer_pid control) = true /\
  at_cas = rc_consumer_pid control /\
  (at_cas = 0 \/ at_cas = me \/ process_alive kill_ok at_cas = false) /\
  control' = set_consumer_pid control me /\ ring = new_consumer cap (rc_tail control) (rc_head control).
Proof.
  unfold try_attach. cbn [mbind outcome_bind]. destruct (ring_control_ready control); [|discriminate]. cbn [negb].
  destruct (Z.eqb_spec (rc_capacity control) cap) as [<- |]; [|discriminate]. cbn [negb].
  destruct (process_alive kill_ok (rc_producer_pid control)); [|discriminate]. cbn [negb].
  destruct (Z.eqb_spec (rc_consumer_pid control) 0) as [H0 | H0]; cbn [negb andb].
  - destruct (Z.eqb_spec at_cas (rc_consumer_pid control)) as [-> |]; [|discriminate].
    intros [= <- <-]. auto 10.
  - destruct (Z.eqb_spec (rc_consumer_pid control) me) as [Hm | Hm]; cbn [negb andb];
      [|destruct (process_alive kill_ok (rc_consumer_pid control)) eqn:Ha; [discriminate|]];
      (destruct (Z.eqb_spec at_cas (rc_consumer_pid control)) as [-> |]; [|discriminate]);
      intros [= <- <-]; auto 10.
Qed.

Lemma race_step_inv name st st' : race_inv st -> race_step name st st' -> race_inv st'.
Proof.
  intros [Hown Hpos] Hstep. destruct Hstep as
    [st me control cap Hme Hal Hph Hc | st me control cap kill_ok control' ring Hal Hph Hkill Hatt
    | st me control cap Hph | st me ring ring' store pid Hal Hph Hdis | st me];
    (split; [intros k r Hk | intros k]); rewrite ?phase_insert; cbn [dead consumer_pid] in *; try case_decide; try discriminate; try done.
  - by apply Hown.
  - by intros _; subst.
  - apply Hpos.
  - subst k. intros _. apply try_attach_Some in Hatt as (_ & _ & _ & _ & _ & -> & _). done.
  - intros Hk'. exfalso. specialize (Hown k r Hk Hk'). pose proof (Hpos k ltac:(by rewrite Hk')) as Hk0.
    apply try_attach_Some in Hatt as (_ & _ & _ & _ & Hcase & _ & _). rewrite Hown in Hcase.
    destruct Hcase as [? | [? | Hdead]]; [lia | done|]. unfold process_alive in Hdead.
    destruct (Z.leb_spec k 0); [lia|]. apply Hkill in Hdead. done.
  - subst k. intros _. apply Hpos. by rewrite Hph.
  - apply Hpos.
  - by apply Hown.
  - apply Hpos.
  - intros Hk'. specialize (Hown k r Hk Hk'). cbn in Hdis. injection Hdis as _ _ <-.
    destruct (Z.eqb_spec (consumer_pid st) me); congruence.
  - apply Hpos.
  - intros Hk'. apply (Hown k r); [set_solver | done].
  - apply Hpos.
Qed.

Inductive race_steps (name : string) : race -> race -> Prop :=
  | race_refl st : race_steps name st st
  | race_trans st1 st2 st3 : race_steps name st1 st2 -> race_step name st2 st3 -> race_steps name st1 st3.

Lemma race_steps_inv name st : race_steps name fresh_race st -> race_inv st.
Proof.
  remember fresh_race as st0 eqn:E. induction 1 as [st | st1 st2 st3 _ IH Hstep]; subst.
  - split; [|intros me; unfold phase_of, fresh_race; cbn; by rewrite lookup_empty].
    intros me ring _. unfold phase_of, fresh_race. cbn. by rewrite lookup_empty.
  - apply (race_step_inv name st2 st3); auto.
Qed.

(** ** Properties *)

(** C26. At most one consumer: however the attach attempts of any number of
    processes interleave, with crashes and detaches, two live processes are
    never attached to the ring at the same time, and the control block names
    the one that is. *)
Theorem exclusive_consumer name st a b ra rb :
  race_steps name fresh_race st -> a ∉ dead st -> b ∉ dead st ->
  phase_of st a = Attached ra -> phase_of st b = Attached rb -> a = b /\ consumer_pid st = a.
Proof.
  intros Hsteps Ha Hb Hra Hrb. destruct (race_steps_inv name st Hsteps) as [Hown _].
  pose proof (Hown a ra Ha Hra). pose proof (Hown b rb Hb Hrb). split; congruence.
Qed.

Definition demo_control (consumer : Z) : RingControl :=
  set_consumer_pid (initialize_ring_control zero_control 4096 50) consumer.

Definition demo_race : race := {|
  consumer_pid := 70;
  phases := <[70 := Attached (new_consumer 4096 0 0)]> (<[70 := Loaded (demo_control 0) 4096]> ∅);
  dead := ∅ |}.

Lemma exclusive_consumer_witness : 70 = 70 /\ consumer_pid demo_race = 70.
Proof.
  apply (exclusive_consumer "/r" demo_race 70 70 (new_consumer 4096 0 0) (new_consumer 4096 0 0)); try reflexivity;
    try (cbn; set_solver).
  eapply race_trans; [eapply race_trans; [apply race_refl|]|].
  - apply (race_load "/r" fresh_race 70 (demo_control 0) 4096); [lia | cbn; set_solver | reflexivity..].
  - refine (race_attach "/r" {| consumer_pid := 0; phases := <[70 := Loaded (demo_control 0) 4096]> ∅; dead := ∅ |}
      70 (demo_control 0) 4096 (fun _ => true) (demo_control 70) (new_consumer 4096 0 0) _ _ _ _);
      [cbn; set_solver | reflexivity | discriminate | reflexivity].
Defined.

(** C34. Waiting ends and answers correctly: [wait_until] returns as soon as a
    stop request is seen, and at the latest when, from the eightieth turn on
    (the sleeping phase), the clock has reached the deadline; a result comes
    from an attempt, and no result means a non-positive timeout, a stop
    request or an expired deadline. *)
Theorem wait_until_ends {A S} (attempt : S -> Z -> option (option A * S)) timeout load now polls s k p :
  polls !! k = Some p ->
  (p_stop p = true \/ (79 <= Z.of_nat k /\ now + timeout * 1000000 <= p_now p)) ->
  match wait_until attempt timeout load now polls s with
  | Waiting _ => False
  | Done (Some a) s' => exists s1 l, (l = load \/ exists q, q ∈ polls /\ l = p_load q) /\ attempt s1 l = Some (Some a, s')
  | Done None _ => timeout <= 0 \/ exists q, q ∈ polls /\ (p_stop q = true \/ now + timeout * 1000000 <= p_now q)
  | Fault => exists s1 l, attempt s1 l = None
  end.
Proof.
  intros Hk Hend. unfold wait_until. destruct (attempt s load) as [[[a|] s1]|] eqn:E; [by exists s, load; auto | | by eauto].
  destruct (Z.leb_spec timeout 0) as [Ht | Ht]; [by left|]. set (deadline := now + timeout * 1000000) in *.
  destruct (wait_loop_ends attempt deadline 0 polls s1 k p ltac:(lia) Hk) as (r & Hr & Hnw); [destruct Hend as [|[]]; auto with lia|].
  rewrite Hr. destruct r as [[a|] s' | s' |].
  - destruct (wait_loop_spec attempt deadline 0 polls s1 _ s' Hr) as (s2 & q & Hin & Ha). exists s2, (p_load q). eauto.
  - destruct (wait_loop_spec attempt deadline 0 polls s1 _ s' Hr) as (q & Hin & Ha). right. eauto.
  - by apply (Hnw s').
  - revert Hr. clear. generalize 0 at 1. revert s1. induction polls as [|q polls IH]; intros s1 step Hr; [discriminate|].
    cbn [wait_loop] in Hr. destruct (p_stop q); [discriminate|].
    destruct (attempt s1 (p_load q)) as [[[a|] s2]|] eqn:E; [discriminate | | by eauto].
    destruct (sleeping _ && _); [discriminate | by apply IH in Hr].
Qed.

Definition demo_polls : list poll :=
  [{| p_stop := false; p_load := 2; p_now := 9 |}; {| p_stop := true; p_load := 9; p_now := 10 |}].

Lemma wait_until_ends_witness :
  3 <= 0 \/ exists q, q ∈ demo_polls /\ (p_stop q = true \/ 0 + 3 * 1000000 <= p_now q).
Proof.
  exact (wait_until_ends (fun (s : Z) l => Some (if Z.ltb 5 l then Some l else None, s + 1)) 3 1 0
    demo_polls 0 1 {| p_stop := true; p_load := 9; p_now := 10 |} eq_refl (or_introl eq_refl)).
Defined.

(** Ring capacities: for a page size that is a power of two, the
    normalised capacity is the smallest power of two that is at least the page
    size and the requested size, and a request is refused exactly when no
    power of two of 64 bits is large enough. *)
Theorem capacity_is_normalized p requested :
  0 <= p <= 62 -> 0 <= requested < 2 ^ 64 ->
  if Z.leb requested (2 ^ 63) then
    exists k, normalize_capacity (2 ^ p) requested = Some (Ret (2 ^ k)) /\ p <= k <= 63 /\ requested <= 2 ^ k /\
      (forall j, p <= j -> requested <= 2 ^ j -> k <= j)
  else normalize_capacity (2 ^ p) requested = Some (Throw (InvalidArgument "ring capacity is too large")).
Proof.
  intros Hp Hr. unfold normalize_capacity. rewrite grow_capacity_spec by lia.
  destruct (Z.leb_spec requested (2 ^ 63)) as [Hle | Hgt]; [|done].
  exists (Z.max p (Z.log2_up requested)). pose proof (log2_up_range requested ltac:(lia)). split_and!; [done | lia | lia | |].
  - destruct (Z.le_gt_cases requested 1) as [H1 | H1].
    + pose proof (Z.pow_pos_nonneg 2 (Z.max p (Z.log2_up requested)) ltac:(lia) ltac:(lia)). lia.
    + etrans; [apply (Z.log2_up_spec requested H1) | apply Z.pow_le_mono_r; lia].
  - intros j Hj Hfit. destruct (Z.le_gt_cases requested 1) as [H1 | H1].
    + rewrite Z.log2_up_eqn0 by lia. lia.
    + apply Z.log2_up_le_pow2 in Hfit; lia.
Qed.

Lemma capacity_is_normalized_witness :
  exists k, normalize_capacity (2 ^ 12) 67108865 = Some (Ret (2 ^ k)) /\ 12 <= k <= 63 /\ 67108865 <= 2 ^ k.
Proof.
  destruct (capacity_is_normalized 12 67108865) as (k & H1 & H2 & H3 & _); [by_decide | by_decide |]. by exists k.
Defined.

(** Handshake: a sink that could be constructed publishes a ready control
    block whose capacity is a power of two; a consumer that attaches to it
    then starts with the producer exactly in the empty ring of the protocol;
    and once the sink has finished, nobody can attach any more. *)
Theorem handshake_is_initial_ring kill_ok name existing create p capacity me control producer you mem :
  2 <= p <= 62 -> 0 <= capacity < 2 ^ 64 -> (forall n, create n = Ret n) ->
  ShmPacketSink kill_ok existing create name (2 ^ p) capacity me = Some (Ret (control, producer)) ->
  0 < me -> kill_ok me = true -> area mem = rc_capacity control ->
  ring_control_ready control = true /\ is_capacity (rc_capacity control) /\
  (exists control' consumer,
     try_attach kill_ok name (Ret (Some (control, area mem))) you 0 = Ret (Some (control', consumer)) /\
     rc_consumer_pid control' = you /\
     initial_ring mem = {| r_mem := mem; r_prod := producer; r_cons := consumer;
                           r_heads := [rc_head control]; r_tails := [rc_tail control] |}) /\
  try_attach kill_ok name (Ret (Some (sink_finish control, area mem))) you 0 = Ret None.
Proof.
  intros Hp Hcap Hcreate Hsink Hme Halive Harea. unfold ShmPacketSink in Hsink.
  destruct (match existing with Ret (Some _) => _ | _ => _ end); [discriminate|].
  unfold normalize_capacity in Hsink. rewrite grow_capacity_spec in Hsink by lia.
  destruct (Z.leb_spec capacity (2 ^ 63)) as [Hle |]; [|discriminate]. cbn [mbind option_bind outcome_bind] in Hsink.
  rewrite Hcreate in Hsink. pose proof (log2_up_range capacity ltac:(lia)).
  set (k := Z.max p (Z.log2_up capacity)) in *. assert (Hk : 2 <= k <= 63) by lia. clearbody k.
  cbn [rc_capacity initialize_ring_control rc_head rc_tail] in Hsink. injection Hsink as <- <-.
  cbn [rc_capacity initialize_ring_control rc_head rc_tail] in *.
  assert (Hready : ring_control_ready (initialize_ring_control zero_control (2 ^ k) me) = true).
  { unfold ring_control_ready. cbn. pose proof (Z.pow_pos_nonneg 2 k ltac:(lia) ltac:(lia)).
    pose proof (Z.pow_lt_mono_r 2 k 64 ltac:(lia) ltac:(lia) ltac:(lia)).
    rewrite u64_small, land_pow2_mask, Z.mod_same by (unfold is_u; lia). by rewrite (proj2 (Z.eqb_neq _ _)) by lia. }
  split; [done|]. split; [by exists k|]. split; [|done].
  unfold try_attach. cbn [mbind outcome_bind]. rewrite Hready. cbn [negb rc_capacity initialize_ring_control].
  rewrite Harea, Z.eqb_refl. cbn [negb]. unfold process_alive. cbn [rc_producer_pid initialize_ring_control].
  rewrite (proj2 (Z.leb_gt me 0)), Halive by lia. cbn. do 2 eexists. split; [done|]. split; [done|].
  unfold initial_ring. by rewrite Harea.
Qed.

Lemma handshake_is_initial_ring_witness :
  try_attach (fun _ => true) "/r" (Ret (Some (sink_finish (demo_control 0), 4096))) 70 0 = Ret None.
Proof.
  apply (handshake_is_initial_ring (fun _ => true) "/r" (Ret None) Ret 12 4096 50 (demo_control 0) (new_producer 4096 0 0) 70 (repeat 0 4096));
    try reflexivity; try lia; by_decide.
Defined.
