(* ===== verification/TransportRegion.v ===== *)
(** The transport over the operating system: the constructors and
    destructors of [ShmPacketSink] and [ShmPacketSource]
    ([common/src/shm_transport.cpp]) composed with [MirroredShmRegion].

    [Transport] models the decisions these constructors take from given
    outcomes of opening and creating regions; here the regions are real, in the
    order in which the code makes and destroys them.  [peek] reads the control
    block in the header page of a mapped region. *)
From Stdlib Require Import ZArith Lia.
From stdpp Require Import base numbers list strings pretty.
From S2P Require Import Prelude Memory RingBuffer ShmRegion Transport.

Section Regions.
Context {W : Type} (os : posix W) (peek : W -> MirroredShmRegion -> RingControl) (kill_ok : Z -> bool).

(** ** Sink *)

Record sink := { sk_region : MirroredShmRegion; sk_control : RingControl; sk_ring : RingProducer }.

(** A local [std::optional<MirroredShmRegion>] goes out of scope. *)
Definition drop_region (w : W) (r : option MirroredShmRegion) : W :=
  match r with Some r => region_destroy os w r | None => w end.

(** The other producer that is using the name, if any. *)
Definition other_producer (w : W) (existing : option MirroredShmRegion) (me : Z) : option Z :=
  match existing with
  | Some r =>
      let control := peek w r in
      let pid := rc_producer_pid control in
      if ring_control_ready control && (process_alive kill_ok pid && negb (Z.eqb pid me)) then Some pid else None
  | None => None
  end.

(** [std::nullopt] where [normalize_capacity] needs more steps than modelled
    (never: [sink_construct_total]). *)
Definition sink_construct (name : string) (capacity me : Z) (w : W) : option (outcome sink * W) :=
  let '(existing, w) := try_open os w name in
  let existing := match existing with Ret existing => existing | Throw _ => None end in
  match other_producer w existing me with
  | Some pid =>
      Some (Throw (RuntimeError ("another producer (pid " +:+ pretty pid +:+ ") is already using " +:+ name)),
            drop_region w existing)
  | None =>
      match page_size os w with
      | Throw e => Some (Throw e, drop_region w existing)
      | Ret page =>
          normalized ← normalize_capacity page capacity;
          Some match normalized with
               | Throw e => (Throw e, drop_region w existing)
               | Ret data_capacity =>
                   match create os w name data_capacity with
                   | (Throw e, w) => (Throw e, drop_region w existing)
                   | (Ret region, w) =>
                       let w := drop_region w existing in
                       let control := initialize_ring_control zero_control (mr_data_bytes region) me in
                       (Ret {| sk_region := region; sk_control := control;
                               sk_ring := new_producer (rc_capacity control) (rc_head control) (rc_tail control) |}, w)
                   end
               end
      end
  end.

(** The destructor's body, then the members: the control block it leaves in
    the object, and the system. *)
Definition sink_destroy (s : sink) (w : W) : RingControl * W :=
  let control := sink_finish (sk_control s) in
  let '(region, w) := unlink os w (sk_region s) in
  (control, region_destroy os w region).

(** ** Source *)

Record attached := { at_region : MirroredShmRegion; at_control : RingControl; at_ring : RingConsumer }.

(** [try_attach]: [at_cas] is the consumer pid the compare-and-exchange finds;
    on the paths that do not attach, the local [region] is destroyed. *)
Definition source_attach (name : string) (me at_cas : Z) (w : W) : outcome (option attached) * W :=
  match try_open os w name with
  | (Throw e, w) => (Throw e, w)
  | (Ret None, w) => (Ret None, w)
  | (Ret (Some region), w) =>
      match try_attach kill_ok name (Ret (Some (peek w region, mr_data_bytes region))) me at_cas with
      | Throw e => (Throw e, region_destroy os w region)
      | Ret None => (Ret None, region_destroy os w region)
      | Ret (Some (control, ring)) => (Ret (Some {| at_region := region; at_control := control; at_ring := ring |}), w)
      end
  end.

(** [disconnect] of a connected source, and the destructor. *)
Definition source_detach (a : attached) (w : W) : W := region_destroy os w (at_region a).
End Regions.

(** ** Mappings across a sequence of calls *)

Section Placement.
Context {W : Type} (os : posix W) `{!PosixLaws os} `{!NameLaws os}.
Context (peek : W -> MirroredShmRegion -> RingControl) (kill_ok : Z -> bool).

Definition same_maps (w w' : W) : Prop := forall x, resolve os w' x = resolve os w x.
Definition same_names (w w' : W) : Prop := forall n, named os w' n = named os w n.

Lemma destroy_resolve w r x : resolve os (region_destroy os w r) x = if covers r x then None else resolve os w x.
Proof. apply release_resolve. apply _. Qed.

(** Destroying a region that was placed restores the mappings. *)
Lemma destroy_placed w w1 w2 r : placed os w w1 r -> same_maps w1 w2 -> same_maps w (region_destroy os w2 r).
Proof.
  intros Hp Hs x. rewrite destroy_resolve, Hs. specialize (Hp x). destruct (covers r x); [by destruct Hp as [-> _] | done].
Qed.

(** Destroying an earlier region leaves a later one placed. *)
Lemma destroy_earlier w w1 w2 r1 r2 : placed os w w1 r1 -> placed os w1 w2 r2 ->
  placed os w (region_destroy os w2 r1) r2.
Proof.
  intros H1 H2 x. rewrite destroy_resolve. specialize (H1 x). specialize (H2 x).
  destruct (covers r2 x) eqn:E2, (covers r1 x) eqn:E1; destruct_and?; try done; try congruence.
  split; [congruence | done].
Qed.

Lemma placed_same w w1 w2 r : same_maps w w1 -> placed os w1 w2 r -> placed os w w2 r.
Proof. intros Hs Hp x. specialize (Hp x). rewrite !(Hs x) in Hp. done. Qed.

Lemma try_open_maps w name :
  match try_open os w name with
  | (Ret (Some r), w') => placed os w w' r /\ mr_owner r = false
  | (_, w') => same_maps w w'
  end.
Proof.
  unfold try_open. destruct (validate_name name); [|done]. pose proof (pl_resolve_open w name) as Hop.
  destruct (shm_open os w name) as [[fd | e] w1]; cbn [snd] in Hop; [|by destruct (Z.eqb e _)].
  assert (Hc : same_maps w (close os w1 fd)) by (intros x; by rewrite pl_resolve_close).
  destruct (fstat_size os w1 fd) as [st | e] eqn:Hst; [|done].
  destruct (page_size os w1) as [page | e] eqn:Hp; [|done]. apply page_size_pos in Hp.
  destruct (Z.eqb (u64 st) 0); [done|]. destruct (Z.ltb_spec (u64 st) (2 * page)) as [|Hle]; [done|]. cbn [orb].
  destruct (negb _); [done|]. pose proof (opened_size os w1 fd st page Hst Hp Hle) as Hsize.
  pose proof (map_spec os w1 fd name page (u64 (u64 st - page)) false Hp Hsize) as Hm.
  destruct (map os w1 fd name page _ false) as [[r' | e] w3].
  - destruct Hm as (_ & Hpl & _ & Ho & _). split; [|done]. intros x. specialize (Hpl x).
    rewrite pl_resolve_close. rewrite !Hop in Hpl. exact Hpl.
  - intros x. by rewrite pl_resolve_close, Hm.
Qed.

(** ** Names *)

Lemma destroy_names w r : mr_owner r = false -> same_names w (region_destroy os w r).
Proof.
  intros Ho n. unfold region_destroy, region_release, unlink. rewrite Ho.
  destruct (mr_data r); destruct (mr_header _); cbn [snd]; by rewrite ?nl_munmap.
Qed.

Lemma map_throw_names {A} w r e : mr_owner r = false -> same_names w (@map_throw W os A w r e).2.
Proof. intros Ho. unfold map_throw. by apply destroy_names. Qed.

Lemma map_halves_names halves half w r base fd : mr_owner r = false ->
  same_names w (map_halves os halves half w r base fd).2.
Proof.
  intros Ho. revert half w. induction halves as [|halves IH]; intros half w; cbn [map_halves]; [done|].
  pose proof (nl_fixed w (base + half * mr_data_bytes r) (mr_data_bytes r) fd (mr_header_bytes r)) as Hf.
  destruct (mmap_fixed os w _ _ fd _) as [[a | e] w1]; cbn [snd] in Hf.
  - destruct (negb _); intros n; [rewrite (map_throw_names w1 r _ Ho) | rewrite IH]; apply Hf.
  - intros n. rewrite (map_throw_names w1 r _ Ho). apply Hf.
Qed.

Lemma map_names w fd name hb db : same_names w (map os w fd name hb db false).2.
Proof.
  unfold map. pose proof (nl_shared w hb fd 0) as Hs.
  destruct (mmap_shared os w hb fd 0) as [[h | e] w1]; cbn [snd] in Hs.
  2: { intros n. rewrite map_throw_names by done. apply Hs. }
  pose proof (nl_reserve w1 (u64 (2 * db))) as Hr. destruct (mmap_reserve os w1 _) as [[b | e] w2]; cbn [snd] in Hr.
  - intros n. rewrite map_halves_names by done. by rewrite Hr.
  - intros n. rewrite map_throw_names by done. by rewrite Hr.
Qed.

(** Where it succeeds, whoever owns the region. *)
Lemma map_halves_kept halves half w r base fd r' w' :
  map_halves os halves half w r base fd = (Ret r', w') -> same_names w w'.
Proof.
  revert half w. induction halves as [|halves IH]; intros half w; cbn [map_halves]; [by intros [= _ <-]|].
  pose proof (nl_fixed w (base + half * mr_data_bytes r) (mr_data_bytes r) fd (mr_header_bytes r)) as Hf.
  destruct (mmap_fixed os w _ _ fd _) as [[a | e] w1]; [|discriminate]. destruct (negb _); [discriminate|].
  intros E n. apply IH in E. by rewrite E, Hf.
Qed.

Lemma map_kept w fd name hb db owner r w' : map os w fd name hb db owner = (Ret r, w') -> same_names w w'.
Proof.
  unfold map. pose proof (nl_shared w hb fd 0) as Hs. destruct (mmap_shared os w hb fd 0) as [[h | e] w1]; [|discriminate].
  pose proof (nl_reserve w1 (u64 (2 * db))) as Hr. destruct (mmap_reserve os w1 _) as [[b | e] w2]; [|discriminate].
  intros E n. apply map_halves_kept in E. by rewrite E, Hr, Hs.
Qed.

Lemma try_open_names w name : same_names w (try_open os w name).2.
Proof.
  unfold try_open. destruct (validate_name name); [|done]. pose proof (nl_open w name) as Hop.
  destruct (shm_open os w name) as [[fd | e] w1]; cbn [snd] in Hop; [|by destruct (Z.eqb e _)].
  assert (Hc : same_names w (close os w1 fd)) by (intros n; by rewrite nl_close).
  destruct (fstat_size os w1 fd) as [st | e]; [|done]. destruct (page_size os w1) as [page | e]; [|done].
  destruct (Z.eqb _ 0); [done|]. destruct (_ || _); [done|].
  pose proof (map_names w1 fd name page (u64 (u64 st - page))) as Hm.
  destruct (map os w1 fd name page _ false) as [[r | e] w2]; cbn [snd] in *; intros n; by rewrite nl_close, Hm.
Qed.

(** ** The object of a created region *)

(** Its own mapping is all that a region's view depends on. *)
Lemma mirrors_covered w w' r obj : mr_data_bytes r <= I64_MAX ->
  (forall x, covers r x = true -> resolve os w' x = resolve os w x) -> mirrors os w r obj -> mirrors os w' r obj.
Proof.
  intros Hmax Hs (h & b & Hh & Hb & Hhdr & Hdata). exists h, b. split_and!; [done | done | |].
  - intros x Hx. rewrite Hs; [by apply Hhdr|]. unfold covers. rewrite Hh. by destruct (inside_spec (h + x) h (mr_header_bytes r)); [|lia].
  - intros v i Hi. rewrite Hs; [by apply Hdata|]. unfold covers. rewrite Hb. apply orb_true_iff. right.
    apply mirror_index_inv in Hi. rewrite u64_small by (unfold is_u, I64_MAX in *; lia).
    by destruct (inside_spec (b + v) b (2 * mr_data_bytes r)); [|lia].
Qed.

(** [create] puts the object that it maps under the name. *)
Lemma create_names `{!DescriptorLaws os} w name cap r w' : 0 <= cap -> create os w name cap = (Ret r, w') ->
  mr_data_bytes r <= I64_MAX /\ exists obj, named os w' name = Some obj /\ mirrors os w' r obj.
Proof.
  intros Hcap. unfold create. destruct (validate_name name); [|discriminate].
  destruct (page_size os w) as [page | e] eqn:Hp; [|discriminate]. apply page_size_pos in Hp.
  destruct (Z.eqb_spec cap 0); [discriminate|]. cbn [orb]. destruct (negb _); [discriminate|].
  destruct (shm_create os _ name) as [[fd | e] w1] eqn:Ec; [|discriminate]. apply dl_create in Ec as (_ & _ & Hname).
  pose proof (dl_named_truncate w1 fd (i64 (u64 (page + cap))) name) as Hn.
  pose proof (dl_object_truncate w1 fd (i64 (u64 (page + cap))) fd) as Ho.
  destruct (ftruncate os w1 fd _) as [[e|] w2]; [discriminate|]. cbn [snd] in Hn, Ho.
  destruct (map os w2 fd name page cap true) as [[r' | e] w3] eqn:Hm; [|discriminate].
  intros [= <- <-]. pose proof (map_kept _ _ _ _ _ _ _ _ Hm) as Hkept. pose proof (map_fits _ _ _ _ _ _ _ _ _ Hm) as Hmax.
  apply map_returns in Hm as (Hm & _ & _ & _ & _ & Hd); [|done || lia..]. split; [by rewrite Hd|].
  exists (object_of os w2 fd). split; [|by apply mirrors_close]. by rewrite pl_named_close, Hkept, Hn, Hname, Ho.
Qed.
End Placement.

(** ** The constructors *)

Lemma grow_capacity_total fuel c requested : (1 <= fuel)%nat -> 2 ^ (64 - Z.of_nat fuel) <= c -> 0 < c <= 2 ^ 63 ->
  exists r, grow_capacity fuel c requested = Some r /\ (forall cap, r = Ret cap -> 0 < cap <= 2 ^ 63).
Proof.
  revert c. induction fuel as [|fuel IH]; intros c Hf Hc Hpos; [lia|]. cbn [grow_capacity].
  destruct (Z.ltb_spec c requested); [|eexists; split; [done|]; by intros cap [= <-]].
  change (1 ≪ 62) with (2 ^ 62). destruct (Z.ltb_spec (2 ^ 62) c) as [|Hle]; [by eexists|].
  destruct fuel as [|fuel]; [change (64 - Z.of_nat 1) with 63 in Hc; lia|].
  rewrite Z.shiftl_mul_pow2, u64_small by (unfold is_u; lia). apply IH; [lia | | lia].
  replace (64 - Z.of_nat (S fuel)) with (64 - Z.of_nat (S (S fuel)) + 1) by lia.
  destruct (Z.le_gt_cases 0 (64 - Z.of_nat (S (S fuel)))).
  - rewrite Z.pow_add_r by lia. lia.
  - destruct (Z.eq_dec (64 - Z.of_nat (S (S fuel)) + 1) 0) as [-> |]; [lia|]. rewrite Z.pow_neg_r by lia. lia.
Qed.

Lemma normalize_total page capacity : 0 < page <= I64_MAX ->
  exists r, normalize_capacity page capacity = Some r /\ (forall cap, r = Ret cap -> 0 < cap <= 2 ^ 63).
Proof. intros Hp. apply grow_capacity_total; [lia | | unfold I64_MAX in *; lia]. change (64 - Z.of_nat 64) with 0. lia. Qed.

Lemma page_size_range {W} (os : posix W) `{!PosixLaws os} w page : page_size os w = Ret page -> 0 < page <= I64_MAX.
Proof.
  intros H. split; [by eapply page_size_pos|]. unfold page_size in H. destruct (Z.leb_spec (sysconf_pagesize os w) 0); [discriminate|].
  injection H as <-. apply pl_pagesize.
Qed.

(** What a successful constructor hands out: the ring's object is under the
    name and mapped twice in a row, of the capacity asked for, and the control
    block and the writing side are those of an empty ring. *)
Record fresh_sink {W} (os : posix W) (w : W) (name : string) (capacity me : Z) (s : sink) : Prop := {
  fs_object : exists object, named os w name = Some object /\ mirrors os w (sk_region s) object;
  fs_capacity : mr_data_bytes (sk_region s) = capacity /\ rc_capacity (sk_control s) = capacity;
  fs_marks : rc_magic (sk_control s) = kRingMagic /\ rc_version (sk_control s) = kRingVersion /\
    rc_state (sk_control s) = state_code Ready;
  fs_empty : rc_head (sk_control s) = 0 /\ rc_tail (sk_control s) = 0;
  fs_peers : rc_producer_pid (sk_control s) = me /\ rc_consumer_pid (sk_control s) = 0;
  fs_ring : sk_ring s = new_producer capacity 0 0;
}.

Section Lifetimes.
Context {W : Type} (os : posix W) (peek : W -> MirroredShmRegion -> RingControl) (kill_ok : Z -> bool).
Context `{!PosixLaws os}.

Lemma drop_placed w w1 existing : (match existing with Some r => placed os w w1 r | None => same_maps os w w1 end) ->
  same_maps os w (drop_region os w1 existing).
Proof. destruct existing as [r|]; cbn; [|done]. intros Hp. by apply (destroy_placed os w w1 w1). Qed.

Lemma try_open_existing w name : let '(existing, w1) := try_open os w name in
  let existing := match existing with Ret existing => existing | Throw _ => None end in
  match existing with Some r => placed os w w1 r /\ mr_owner r = false | None => same_maps os w w1 end.
Proof. pose proof (try_open_maps os w name) as H. by destruct (try_open os w name) as [[[r|]|e] w1]. Qed.

Lemma sink_construct_maps name capacity me w result w' :
  sink_construct os peek kill_ok name capacity me w = Some (result, w') ->
  match result with
  | Throw _ => same_maps os w w'
  | Ret s => placed os w w' (sk_region s) /\ mr_name (sk_region s) = name /\ mr_owner (sk_region s) = true
  end.
Proof.
  unfold sink_construct. pose proof (try_open_existing w name) as Hopen.
  destruct (try_open os w name) as [opened w1]. set (existing := match opened with Ret r => r | Throw _ => None end) in *.
  assert (Hdrop : same_maps os w (drop_region os w1 existing)) by (apply drop_placed; destruct existing; [by destruct Hopen | done]).
  destruct (other_producer _ _ _ _ _) as [pid|]; [by intros [= <- <-]|].
  destruct (page_size os w1) as [page|e] eqn:Hpage; [|by intros [= <- <-]]. apply page_size_range in Hpage; [|done].
  destruct (normalize_total page capacity Hpage) as ([cap|e] & -> & Hcap); cbn [mbind option_bind]; [|by intros [= <- <-]].
  specialize (Hcap cap eq_refl). destruct (create os w1 name cap) as [[r|e] w2] eqn:Ec.
  - apply create_mirrored in Ec as (_ & Hpl & Hn & Ho & _); [|done | lia]. intros [= <- <-]. cbn [sk_region]. split; [|done].
    destruct existing as [r0|]; cbn [drop_region]; [|by apply (placed_same os w w1)].
    destruct Hopen as [Hp0 _]. by apply (destroy_earlier os w w1).
  - apply create_throw in Ec as [Hsame _]; [|done | lia]. intros [= <- <-]. apply drop_placed.
    destruct existing as [r0|]; cbn.
    + destruct Hopen as [Hp0 _]. intros x. specialize (Hp0 x). rewrite !(Hsame x). exact Hp0.
    + intros x. by rewrite Hsame.
Qed.

Lemma sink_construct_total name capacity me w : exists r, sink_construct os peek kill_ok name capacity me w = Some r.
Proof.
  unfold sink_construct. destruct (try_open os w name) as [opened w1]. destruct (other_producer _ _ _ _ _); [by eexists|].
  destruct (page_size os w1) as [page|e] eqn:Hp; [|by eexists]. apply page_size_range in Hp; [|done].
  destruct (normalize_total page capacity Hp) as (r & -> & _). by eexists.
Qed.

(** A region placed later outlives the one that is dropped. *)
Lemma mirrors_drop w w1 w2 r0 r object : placed os w w1 r0 -> placed os w1 w2 r -> mr_data_bytes r <= I64_MAX ->
  mirrors os w2 r object -> mirrors os (region_destroy os w2 r0) r object.
Proof.
  intros H0 H1 Hmax. apply mirrors_covered; [done|]. intros x Hx. rewrite destroy_resolve by done.
  destruct (covers r0 x) eqn:E; [|done]. specialize (H0 x). specialize (H1 x). rewrite E in H0. rewrite Hx in H1.
  destruct H0, H1. congruence.
Qed.

Lemma sink_construct_fresh `{!NameLaws os} `{!DescriptorLaws os} name capacity me w s w' :
  sink_construct os peek kill_ok name capacity me w = Some (Ret s, w') ->
  exists page cap, page_size os (try_open os w name).2 = Ret page /\ normalize_capacity page capacity = Some (Ret cap) /\
    fresh_sink os w' name cap me s.
Proof.
  unfold sink_construct. pose proof (try_open_existing w name) as Hopen.
  destruct (try_open os w name) as [opened w1]. set (existing := match opened with Ret r => r | Throw _ => None end) in *.
  destruct (other_producer _ _ _ _ _) as [pid|]; [discriminate|]. cbn [snd].
  destruct (page_size os w1) as [page|e] eqn:Hpage; [|discriminate]. pose proof (page_size_range os _ _ Hpage) as Hp.
  destruct (normalize_total page capacity Hp) as ([cap|e] & Hnorm & Hcap); rewrite Hnorm; cbn [mbind option_bind]; [|discriminate].
  specialize (Hcap cap eq_refl). destruct (create os w1 name cap) as [[r|e] w2] eqn:Ec; [|discriminate].
  intros [= <- <-]. exists page, cap. split; [done|]. split; [done|].
  destruct (create_names os w1 name cap r w2 ltac:(lia) Ec) as (Hmax & object & Hname & Hmir).
  apply create_mirrored in Ec as (_ & Hpl & _ & _ & Hd & _); [|done || lia..].
  constructor; cbn [sk_control sk_region sk_ring]; [|by rewrite Hd..].
  exists object. destruct existing as [r0|]; cbn [drop_region]; [|done]. destruct Hopen as [Hp0 Ho].
  split; [by rewrite destroy_names | by apply (mirrors_drop w w1)].
Qed.
End Lifetimes.

(** A consumer finds the fresh ring ready, whatever the power of two a page is. *)
Lemma fresh_ready {W} (os : posix W) w name page requested capacity me s : 1 <= page <= I64_MAX -> (exists p, page = 2 ^ p) ->
  normalize_capacity page requested = Some (Ret capacity) -> fresh_sink os w name capacity me s ->
  ring_control_ready (sk_control s) = true.
Proof.
  intros Hpage [p ->] Hcap [_ [_ H1] (H2 & H3 & H4) _ _ _]. assert (Hp : 0 <= p <= 63).
  { split; [destruct (Z.le_gt_cases 0 p); [done | rewrite Z.pow_neg_r in Hpage; lia]|].
    destruct (Z.le_gt_cases p 63) as [|H]; [done|]. pose proof (Z.pow_le_mono_r 2 63 p ltac:(lia) ltac:(lia)). unfold I64_MAX in *. lia. }
  unfold normalize_capacity in Hcap. rewrite grow_capacity_spec in Hcap by lia.
  destruct (Z.leb_spec requested (2 ^ 63)); [|discriminate]. injection Hcap as Hcap.
  assert (Hk : 0 <= Z.max p (Z.log2_up requested) <= 63).
  { split; [lia|]. apply Z.max_lub; [lia|]. destruct (Z.le_gt_cases requested 1); [rewrite Z.log2_up_eqn0; lia|].
    apply Z.log2_up_le_pow2; lia. }
  set (k := Z.max p (Z.log2_up requested)) in *. clearbody k.
  pose proof (Z.pow_pos_nonneg 2 k ltac:(lia) ltac:(lia)). pose proof (Z.pow_lt_mono_r 2 k 64 ltac:(lia) ltac:(lia) ltac:(lia)).
  unfold ring_control_ready. rewrite H2, H3, H4, H1, <- Hcap, !Z.eqb_refl. cbn [negb andb].
  rewrite u64_small, land_pow2_mask, Z.mod_same by (unfold is_u; lia). by rewrite (proj2 (Z.eqb_neq _ _)) by lia.
Qed.

(** The constructor decides as [Transport.ShmPacketSink] does, on what opening
    and creating the region gave. *)
Definition sink_state (s : sink) : RingControl * RingProducer := (sk_control s, sk_ring s).

Lemma sink_construct_refines {W} (os : posix W) peek kill_ok name capacity me w page :
  page_size os (try_open os w name).2 = Ret page ->
  (fun r => match r.1 with Ret s => Ret (sink_state s) | Throw e => Throw e end)
    <$> sink_construct os peek kill_ok name capacity me w =
  let '(existing, w1) := try_open os w name in
  ShmPacketSink kill_ok
    (match existing with Ret (Some r) => Ret (Some (peek w1 r)) | Ret None => Ret None | Throw e => Throw e end)
    (fun cap => match (create os w1 name cap).1 with Ret r => Ret (mr_data_bytes r) | Throw e => Throw e end)
    name page capacity me.
Proof.
  unfold sink_construct, ShmPacketSink, other_producer. destruct (try_open os w name) as [[[r|]|e] w1]; cbn [snd]; intros ->.
  1: destruct (_ && _); [done|].
  all: destruct (normalize_capacity page capacity) as [[cap|e']|]; try done; cbn [mbind option_bind outcome_bind fmap option_fmap option_map].
  all: by destruct (create os w1 name cap) as [[r'|e'] w2].
Qed.

(** What the destructor leaves. *)
Lemma sink_destroy_leaves {W} (os : posix W) `{!PosixLaws os} `{!NameLaws os} s w w' w2 :
  placed os w w' (sk_region s) -> mr_owner (sk_region s) = true -> same_maps os w' w2 ->
  same_maps os w (sink_destroy os s w2).2 /\
  (may_unlink os (mr_name (sk_region s)) -> named os (sink_destroy os s w2).2 (mr_name (sk_region s)) = None) /\
  (sink_destroy os s w2).1 = sink_finish (sk_control s).
Proof.
  intros Hpl Ho Hsame. unfold sink_destroy, unlink. rewrite Ho. split_and!; [| |done].
  - intros x. cbn [snd]. rewrite destroy_resolve by done. specialize (Hpl x). rewrite try_unlink_resolve, Hsame by done.
    change (covers (disown (sk_region s)) x) with (covers (sk_region s) x).
    destruct (covers (sk_region s) x); [by destruct Hpl as [-> _] | done].
  - intros Hmay. cbn [snd]. rewrite destroy_names by done. by apply try_unlink_named.
Qed.

(** ** Properties *)

(** C21. The life of the producer's transport, over any operating system with the
    documented behaviour.  Its constructor always decides.  If it throws, every
    mapping of the process is as before; if another live producer uses the name,
    it throws and leaves every name untouched too.  If it succeeds, the object
    under the name is mapped as a mirrored region of the normalized capacity, and
    the control block and the ring are those of an empty ring that is ready
    ([fresh_sink]; a consumer's check accepts it where a page is a power of two).
    Once it is destroyed, whatever happened in between to anything but the
    mappings, the mappings are again those from before, the name is gone if the
    process may unlink it, and the control block tells a consumer that the
    stream has finished. *)
Theorem sink_lifetime {W} (os : posix W) peek kill_ok name capacity me w :
  PosixLaws os -> NameLaws os -> DescriptorLaws os ->
  exists result w', sink_construct os peek kill_ok name capacity me w = Some (result, w') /\
    (forall r w1 pid, try_open os w name = (Ret (Some r), w1) -> other_producer peek kill_ok w1 (Some r) me = Some pid ->
       same_names os w w' /\ exists e, result = Throw e) /\
    match result with
    | Throw e => same_maps os w w'
    | Ret s =>
        (exists page cap, page_size os (try_open os w name).2 = Ret page /\ normalize_capacity page capacity = Some (Ret cap) /\
           fresh_sink os w' name cap me s /\ ((exists p, page = 2 ^ p) -> ring_control_ready (sk_control s) = true)) /\
        forall w2, same_maps os w' w2 ->
          let '(control, w3) := sink_destroy os s w2 in
          same_maps os w w3 /\ (may_unlink os name -> named os w3 name = None) /\
          forall c pid, finished (source_peer_status kill_ok (Some c) pid (rc_state control)) = true
    end.
Proof.
  intros Hos Hnames Hdl. destruct (sink_construct_total os peek kill_ok name capacity me w) as [[result w'] E].
  exists result, w'. split; [done|]. pose proof (sink_construct_maps os peek kill_ok name capacity me w result w' E) as Hmaps.
  split.
  { intros r w1 pid Hopen Htaken. pose proof (try_open_names os w name) as Hn. pose proof (try_open_maps os w name) as Ho.
    unfold sink_construct in E. rewrite Hopen in E, Hn, Ho. cbn [snd] in Hn. destruct Ho as [_ Ho].
    rewrite Htaken in E. injection E as <- <-. split; [|by eexists]. intros n. cbn [drop_region]. by rewrite destroy_names. }
  destruct result as [s|e]; [|done]. split.
  { destruct (sink_construct_fresh os peek kill_ok name capacity me w s w' E) as (page & cap & Hp & Hcap & Hfresh).
    exists page, cap. split_and!; [done..|]. intros H2. apply page_size_range in Hp; [|done].
    by apply (fresh_ready os w' name page capacity cap me); [lia|..]. }
  destruct Hmaps as (Hpl & Hn & Ho). intros w2 Hsame. destruct (sink_destroy_leaves os s w w' w2 Hpl Ho Hsame) as (H1 & H2 & H3).
  destruct (sink_destroy os s w2) as [control w3]. cbn [fst snd] in *. rewrite Hn in H2. subst control. done.
Qed.

#[export] Instance toy_names_laws : NameLaws toy_os.
Proof.
  constructor; try done.
  - intros w n n'. cbn. by destruct (toy_named w n).
  - intros w a len fd off n'. cbn. by destruct (_ || _).
Qed.

(** On the toy system the constructor succeeds, and the destructor undoes it. *)
Lemma sink_lifetime_witness :
  match sink_construct toy_os (fun _ _ => zero_control) (fun _ => false) "/ring" 4096 42 toy_start with
  | Some (Ret s, w) =>
      let '(control, w3) := sink_destroy toy_os s w in
      named toy_os w "/ring" = Some 7 /\ ring_control_ready (sk_control s) = true /\
      named toy_os w3 "/ring" = None /\ resolve toy_os w3 5000 = None
  | _ => False
  end.
Proof.
  destruct (sink_lifetime toy_os (fun _ _ => zero_control) (fun _ => false) "/ring" 4096 42 toy_start toy_laws toy_names_laws toy_descriptors)
    as (result & w' & E & _ & H). rewrite E. destruct result as [s|e]; [|by vm_compute in E].
  destruct H as [(page & cap & Hp & _ & _ & Hready) H].
  specialize (H w' (fun _ => eq_refl)). destruct (sink_destroy toy_os s w') as [control w3].
  destruct H as (Hm & Hn & _). split_and!; [vm_compute in E; by injection E as <- <- | |exact (Hn (toy_may_unlink _)) | exact (Hm 5000)].
  apply Hready. exists 12. vm_compute in Hp. by injection Hp as <-.
Defined.

(** C22. The life of the consumer's attachment: an attempt that does not attach
    (no object yet, not ready, no live producer, a race lost, or an exception)
    leaves every mapping as before; an attachment undone by [disconnect] does
    too; and neither ever touches a name. *)
Theorem attachment_lifetime {W} (os : posix W) peek kill_ok name me at_cas w :
  PosixLaws os -> NameLaws os ->
  let '(result, w') := source_attach os peek kill_ok name me at_cas w in
  same_names os w w' /\
  match result with
  | Ret (Some a) =>
      forall w2, same_maps os w' w2 -> same_maps os w (source_detach os a w2) /\
        (same_names os w' w2 -> same_names os w (source_detach os a w2))
  | _ => same_maps os w w'
  end.
Proof.
  intros Hos Hnames. unfold source_attach. pose proof (try_open_maps os w name) as Hm. pose proof (try_open_names os w name) as Hn.
  destruct (try_open os w name) as [[[r|]|e] w1]; cbn [snd] in Hn; [|done..]. destruct Hm as [Hpl Ho].
  assert (Hgone : same_names os w (region_destroy os w1 r) /\ same_maps os w (region_destroy os w1 r)).
  { split; [intros n; by rewrite destroy_names | by apply (destroy_placed os w w1 w1)]. }
  destruct (try_attach _ _ _ _ _) as [[[control ring]|]|e]; [|done..].
  split; [done|]. intros w2 Hsame. unfold source_detach. cbn [at_region].
  split; [by apply (destroy_placed os w w1 w2)|]. intros Hn2 n. rewrite destroy_names by done. by rewrite Hn2.
Qed.

(** The region of the toy system, opened by a consumer and closed again. *)
Definition ready_control : RingControl := initialize_ring_control zero_control 4096 41.

Lemma attachment_lifetime_witness :
  let start := {| toy_names := [("/ring"%string, 7)]; toy_objects := 8; toy_maps := []; toy_files := []; toy_opened := [] |} in
  match source_attach toy_os (fun _ _ => ready_control) (fun pid => Z.eqb pid 41) "/ring" 50 0 start with
  | (Ret (Some a), w) =>
      mr_data_bytes (at_region a) = 4096 /\ resolve toy_os w 4096 = Some (7, 0) /\
      resolve toy_os (source_detach toy_os a w) 4096 = None /\ named toy_os (source_detach toy_os a w) "/ring" = Some 7
  | _ => False
  end.
Proof.
  intros start. pose proof (attachment_lifetime toy_os (fun _ _ => ready_control) (fun pid => Z.eqb pid 41) "/ring" 50 0 start
    toy_laws toy_names_laws) as H.
  destruct (source_attach _ _ _ _ _ _ start) as [[[a|]|e] w] eqn:E; [|by vm_compute in E..].
  destruct H as [Hn H]. destruct (H w (fun _ => eq_refl)) as [Hm Hn'].
  split_and!; [vm_compute in E; by injection E as <- <- | vm_compute in E; by injection E as <- <- | exact (Hm 4096) |].
  exact (Hn' (fun _ => eq_refl) "/ring").
Defined.
