(* ===== verification/ByteSize.v ===== *)
(** Sizes and numbers as text: [common/include/pc/byte_size.hpp],
    [common/src/byte_size.cpp].

    Characters are [ascii]; [std::from_chars], [std::isdigit], [std::tolower]
    and [std::to_string] of the C++ library are modelled as far as they are
    used (decimal, the "C" locale).  The formatters of doubles are in
    [Figures.v]. *)
From Stdlib Require Import ZArith Lia Ascii.
From stdpp Require Import base numbers list strings.
From S2P Require Import Prelude.

Definition char_code (c : ascii) : Z := Z.of_nat (nat_of_ascii c).
Definition digit_char (d : Z) : ascii := ascii_of_nat (Z.to_nat (48 + d)).

Definition isdigit (c : ascii) : bool := Z.leb 48 (char_code c) && Z.leb (char_code c) 57.

#[global] Arguments isdigit _ : simpl never.

Definition tolower (c : ascii) : Z :=
  if Z.leb 65 (char_code c) && Z.leb (char_code c) 90 then char_code c + 32 else char_code c.

(** The digits at the front of a string, and the rest. *)
Fixpoint span_digits (s : string) : string * string :=
  match s with
  | String c rest =>
      if isdigit c then let '(ds, rest) := span_digits rest in (String c ds, rest) else (EmptyString, s)
  | EmptyString => (EmptyString, EmptyString)
  end.

Fixpoint digits_value (acc : Z) (s : string) : Z :=
  match s with
  | String c s => digits_value (10 * acc + (char_code c - 48)) s
  | EmptyString => acc
  end.

(** [std::from_chars] on an unsigned 64-bit integer: the value and the rest,
    or no value (no digit, or out of range). *)
Definition from_chars (s : string) : option Z * string :=
  let '(ds, rest) := span_digits s in
  match ds with
  | EmptyString => (None, s)
  | _ => (if Z.leb (digits_value 0 ds) U64_MAX then Some (digits_value 0 ds) else None, rest)
  end.

Definition parse_uint (text : string) : option Z :=
  match text with
  | EmptyString => None
  | _ => match from_chars text with
         | (Some value, EmptyString) => Some value
         | _ => None
         end
  end.

Definition unit_multiplier (c : ascii) : option Z :=
  let lc := tolower c in
  if Z.eqb lc (char_code "k") then Some (1 ≪ 10)
  else if Z.eqb lc (char_code "m") then Some (1 ≪ 20)
  else if Z.eqb lc (char_code "g") then Some (1 ≪ 30)
  else if Z.eqb lc (char_code "t") then Some (1 ≪ 40)
  else if Z.eqb lc (char_code "b") then Some 1
  else None.

(** [for (const char c : suffix)]: every character is an 'i' or a 'b'. *)
Fixpoint all_i_or_b (s : string) : bool :=
  match s with
  | String c s => (Z.eqb (tolower c) (char_code "i") || Z.eqb (tolower c) (char_code "b")) && all_i_or_b s
  | EmptyString => true
  end.

(** The multiplier of a suffix, [None] where the function returns [nullopt]. *)
Definition suffix_multiplier (suffix : string) : option Z :=
  match suffix with
  | EmptyString => Some 1
  | String c suffix =>
      multiplier ← unit_multiplier c;
      if negb (Z.eqb multiplier 1) && negb (String.eqb suffix "") then
        if (2 <? String.length suffix)%nat then None
        else if all_i_or_b suffix then Some multiplier else None
      else if negb (String.eqb suffix "") then None
      else Some multiplier
  end.

Definition parse_byte_size (text : string) : option Z :=
  let '(digits, suffix) := span_digits text in
  match digits with
  | EmptyString => None
  | _ =>
      value ← parse_uint digits;
      multiplier ← suffix_multiplier suffix;
      if Z.ltb (U64_MAX / multiplier) value then None else Some (u64 (value * multiplier))
  end.

(** [std::to_string] on a 64-bit integer (at most 20 digits). *)
Fixpoint to_digits (fuel : nat) (n : Z) (acc : string) : string :=
  match fuel with
  | O => acc
  | S fuel =>
      let acc := String (digit_char (n mod 10)) acc in
      if Z.ltb n 10 then acc else to_digits fuel (n / 10) acc
  end.

Definition to_string (n : Z) : string := to_digits 20 n "".

Fixpoint insert_commas (digits : string) : string :=
  match digits with
  | EmptyString => ""
  | String c rest =>
      let n := String.length rest in
      String c ((if negb (Nat.eqb n 0) && Nat.eqb (n mod 3) 0 then "," else "") +:+ insert_commas rest)
  end.

Definition format_count (value : Z) : string := insert_commas (to_string value).

(** ** Digits *)

Fixpoint all_digits (s : string) : bool :=
  match s with String c s => isdigit c && all_digits s | EmptyString => true end.

Definition starts_with_digit (s : string) : bool :=
  match s with String c _ => isdigit c | EmptyString => false end.

Lemma append_Empty s : "" +:+ s = s.
Proof. reflexivity. Qed.

Lemma append_String c s t : String c s +:+ t = String c (s +:+ t).
Proof. reflexivity. Qed.

Lemma append_nil_r s : s +:+ "" = s.
Proof. induction s as [|c s IH]; [done|]. by rewrite append_String, IH. Qed.

Lemma append_assoc a b c : (a +:+ b) +:+ c = a +:+ b +:+ c.
Proof. induction a as [|x a IH]; [done|]. by rewrite !append_String, IH. Qed.

Lemma digit_char_spec d : 0 <= d < 10 -> isdigit (digit_char d) = true /\ char_code (digit_char d) - 48 = d.
Proof.
  intros Hd. unfold isdigit, digit_char, char_code. rewrite nat_ascii_embedding by lia.
  rewrite Z2Nat.id by lia. split; [|lia]. by rewrite (proj2 (Z.leb_le _ _)), (proj2 (Z.leb_le _ _)) by lia.
Qed.

Lemma span_digits_app ds rest :
  all_digits ds = true -> starts_with_digit rest = false -> span_digits (ds +:+ rest) = (ds, rest).
Proof.
  intros Hd Hr. induction ds as [|c ds IH].
  - rewrite append_Empty. destruct rest as [|c rest]; [done|]. cbn in *. by rewrite Hr.
  - cbn [all_digits] in Hd. apply andb_true_iff in Hd as [Hc Hd]. rewrite append_String. cbn. by rewrite Hc, IH.
Qed.

Lemma digits_value_app a s t : digits_value a (s +:+ t) = digits_value (digits_value a s) t.
Proof. revert a. induction s as [|c s IH]; intros a; [done|]. rewrite append_String. apply IH. Qed.

Lemma to_digits_spec fuel n acc : 0 <= n < 10 ^ Z.of_nat fuel -> (0 < fuel)%nat ->
  exists ds, to_digits fuel n acc = ds +:+ acc /\ all_digits ds = true /\ ds <> EmptyString /\ digits_value 0 ds = n.
Proof.
  revert n acc. induction fuel as [|fuel IH]; intros n acc Hn Hf; [lia|]. cbn [to_digits].
  pose proof (Z.mod_pos_bound n 10 ltac:(lia)) as Hm. destruct (digit_char_spec (n mod 10) Hm) as [Hd Hv].
  destruct (Z.ltb_spec n 10) as [Hlt | Hge].
  - exists (String (digit_char (n mod 10)) ""). cbn. rewrite Hd. split_and!; try done.
    rewrite Hv. apply Z.mod_small. lia.
  - rewrite Nat2Z.inj_succ, Z.pow_succ_r in Hn by lia.
    assert (Hf' : (0 < fuel)%nat) by (destruct fuel; [cbn in Hn; lia | lia]).
    destruct (IH (n / 10) (String (digit_char (n mod 10)) acc) ltac:(mod_lia) Hf') as (ds & E & Hds & Hne & Hval).
    exists (ds +:+ String (digit_char (n mod 10)) ""). rewrite E. split_and!.
    + by rewrite append_assoc.
    + clear - Hds Hd. induction ds as [|c ds IH]; [rewrite append_Empty; cbn; by rewrite Hd|]. rewrite append_String.
      cbn [all_digits] in *. apply andb_true_iff in Hds as [Hc Hds]. by rewrite Hc, IH.
    + by destruct ds.
    + rewrite digits_value_app, Hval. cbn [digits_value]. rewrite Hv. mod_lia.
Qed.

Lemma to_string_spec n : is_u 64 n ->
  all_digits (to_string n) = true /\ to_string n <> EmptyString /\ digits_value 0 (to_string n) = n.
Proof.
  intros Hn. destruct (to_digits_spec 20 n "" ltac:(unfold is_u in Hn; lia) ltac:(lia)) as (ds & E & Hd & Hne & Hv).
  unfold to_string. by rewrite E, append_nil_r.
Qed.

Lemma parse_uint_digits ds : all_digits ds = true -> ds <> EmptyString ->
  parse_uint ds = if Z.leb (digits_value 0 ds) U64_MAX then Some (digits_value 0 ds) else None.
Proof.
  intros Hd Hne. assert (Hs : span_digits ds = (ds, EmptyString)).
  { pose proof (span_digits_app ds "" Hd eq_refl) as H.
    by rewrite append_nil_r in H. }
  unfold parse_uint, from_chars. rewrite Hs. destruct ds as [|c ds]; [done|]. by destruct (Z.leb _ _).
Qed.

Lemma digits_value_nonneg ds a : all_digits ds = true -> 0 <= a -> 0 <= digits_value a ds.
Proof.
  revert a. induction ds as [|c ds IH]; intros a Hd Ha; cbn [digits_value]; [done|].
  cbn [all_digits] in Hd. apply andb_true_iff in Hd as [Hc Hd]. apply IH; [done|].
  unfold isdigit in Hc. apply andb_true_iff in Hc as [Hc _]. lia.
Qed.

Lemma suffix_multiplier_pos s m : suffix_multiplier s = Some m -> 0 < m.
Proof.
  assert (Hunit : forall c u, unit_multiplier c = Some u -> 0 < u).
  { intros c u. unfold unit_multiplier. repeat (destruct (Z.eqb _ _); [by intros [= <-]|]). discriminate. }
  unfold suffix_multiplier. destruct s as [|c s]; [by intros [= <-]|].
  destruct (unit_multiplier c) as [u|] eqn:Hu; cbn [mbind option_bind]; [|discriminate]. apply Hunit in Hu.
  repeat (case_match; try discriminate); intros [= <-]; done.
Qed.

(** Dropping the separators. *)
Fixpoint strip_commas (s : string) : string :=
  match s with
  | String c s => if Ascii.eqb c "," then strip_commas s else String c (strip_commas s)
  | EmptyString => EmptyString
  end.

Lemma strip_commas_insert ds : all_digits ds = true -> strip_commas (insert_commas ds) = ds.
Proof.
  induction ds as [|c ds IH]; [done|]. cbn [all_digits insert_commas]. intros Hd.
  apply andb_true_iff in Hd as [Hc Hd]. cbn [strip_commas].
  destruct (Ascii.eqb_spec c ","%char) as [-> | _]; [done|].
  f_equal. destruct (_ && _); rewrite ?append_String, ?append_Empty; exact (IH Hd).
Qed.

(** The positions of the separators: between digits, exactly where the number
    of digits that follow is a multiple of three. *)
Fixpoint well_grouped (s : string) : bool :=
  match s with
  | EmptyString => true
  | String c rest =>
      let threes := Nat.eqb (String.length (strip_commas rest) mod 3) 0 in
      (if Ascii.eqb c "," then starts_with_digit rest && threes
       else isdigit c && negb (starts_with_digit rest && threes))
      && well_grouped rest
  end.

Lemma insert_commas_start ds : starts_with_digit (insert_commas ds) = starts_with_digit ds.
Proof. by destruct ds. Qed.

Lemma well_grouped_insert ds : all_digits ds = true -> well_grouped (insert_commas ds) = true.
Proof.
  induction ds as [|c ds IH]; [done|]. cbn [all_digits insert_commas]. intros Hd.
  apply andb_true_iff in Hd as [Hc Hd]. specialize (IH Hd).
  assert (Hcomma : Ascii.eqb c "," = false) by (destruct (Ascii.eqb_spec c ","%char) as [-> |]; done).
  destruct (negb (Nat.eqb (String.length ds) 0) && Nat.eqb (String.length ds mod 3) 0) eqn:Hsep.
  - rewrite append_String, append_Empty. cbn [well_grouped]. rewrite Hcomma, Hc. cbn [Ascii.eqb].
    rewrite IH, insert_commas_start, strip_commas_insert by done.
    apply andb_true_iff in Hsep as [Hne H3]. rewrite H3. cbn.
    destruct ds as [|d ds]; [done|]. cbn [all_digits] in Hd. apply andb_true_iff in Hd as [Hd _]. cbn. by rewrite Hd.
  - rewrite append_Empty. cbn [well_grouped]. rewrite Hcomma, Hc, IH, strip_commas_insert, insert_commas_start by done.
    rewrite andb_true_r. cbn [andb]. destruct ds as [|d ds]; [done|]. cbn [String.length Nat.eqb negb andb] in Hsep.
    cbn [String.length]. by rewrite Hsep, andb_false_r.
Qed.

Lemma span_digits_inv text : let '(ds, rest) := span_digits text in
  text = ds +:+ rest /\ all_digits ds = true /\ starts_with_digit rest = false.
Proof.
  induction text as [|c text IH]; cbn [span_digits]; [done|]. destruct (isdigit c) eqn:Hc.
  - destruct (span_digits text) as [ds rest]. destruct IH as (-> & Hd & Hr). cbn [all_digits]. rewrite Hc, Hd.
    by rewrite append_String.
  - cbn [starts_with_digit]. by rewrite append_Empty.
Qed.

Lemma parse_byte_size_app ds suffix :
  all_digits ds = true -> ds <> EmptyString -> starts_with_digit suffix = false ->
  parse_byte_size (ds +:+ suffix) =
    (m ← suffix_multiplier suffix;
     let v := digits_value 0 ds * m in if Z.leb v U64_MAX then Some v else None).
Proof.
  intros Hd Hne Hs. unfold parse_byte_size. rewrite span_digits_app by done.
  destruct ds as [|c ds]; [done|]. rewrite parse_uint_digits by done. set (n := digits_value 0 (String c ds)) in *.
  assert (Hn : 0 <= n) by (by apply digits_value_nonneg). clearbody n.
  destruct (Z.leb_spec n U64_MAX) as [Hle | Hgt]; cbn [mbind option_bind].
  - destruct (suffix_multiplier suffix) as [m|] eqn:Hm; cbn [mbind option_bind]; [|done].
    apply suffix_multiplier_pos in Hm. cbv zeta. destruct (Z.leb_spec (n * m) U64_MAX) as [Hfit | Hover].
    + rewrite (proj2 (Z.ltb_ge _ _)) by (apply Z.div_le_lower_bound; lia).
      f_equal. apply u64_small. unfold is_u, U64_MAX in *. lia.
    + by rewrite (proj2 (Z.ltb_lt _ _)) by (apply Z.div_lt_upper_bound; lia).
  - destruct (suffix_multiplier suffix) as [m|] eqn:Hm; cbn [mbind option_bind]; [|done].
    apply suffix_multiplier_pos in Hm. cbv zeta. by rewrite (proj2 (Z.leb_gt _ _)) by nia.
Qed.

(** The suffixes [byte_size.hpp] documents. *)
Definition documented_suffixes : list (string * Z) :=
  concat (map (fun '(letters, m) =>
      concat (map (fun l => map (fun deco => (l +:+ deco, m)) [""; "B"; "b"; "iB"; "ib"]) letters))
    [(["k"; "K"], 2 ^ 10); (["m"; "M"], 2 ^ 20); (["g"; "G"], 2 ^ 30); (["t"; "T"], 2 ^ 40)])
  ++ [("", 1); ("b", 1); ("B", 1)].

(** The suffixes the function accepts, listed: nothing, "b", or a unit letter
    and then up to two characters out of "i" and "b", in either case. *)
Definition unit_letters : list (string * Z) :=
  concat (map (fun '(letters, m) => map (fun l => (l, m)) letters)
    [(["k"; "K"], 2 ^ 10); (["m"; "M"], 2 ^ 20); (["g"; "G"], 2 ^ 30); (["t"; "T"], 2 ^ 40)]).

Definition decorations : list string :=
  let letters := ["i"; "I"; "b"; "B"]%string in
  "" :: letters ++ concat (map (fun a => map (fun b => a +:+ b) letters) letters).

Definition accepted_suffixes : list (string * Z) :=
  [("", 1); ("b", 1); ("B", 1)] ++ concat (map (fun '(l, m) => map (fun deco => (l +:+ deco, m)) decorations) unit_letters).

Lemma elem_of_concat_map {A B} (f : A -> list B) x y l : x ∈ l -> y ∈ f x -> y ∈ concat (map f l).
Proof. intros Hx Hy. apply list_elem_of_In, in_concat. exists (f x). split; [by apply in_map, list_elem_of_In | by apply list_elem_of_In]. Qed.

(** A decision on all characters. *)
Lemma all_characters (P : ascii -> bool) : forallb (fun n => P (ascii_of_nat n)) (seq 0 256) = true -> forall c, P c = true.
Proof.
  rewrite forallb_forall. intros H c. rewrite <- (ascii_nat_embedding c). apply H, in_seq.
  pose proof (nat_ascii_bounded c). lia.
Qed.

Definition is_unit_letter (c : ascii) (m : Z) : Prop :=
  (m = 1 /\ (String c "", m) ∈ [("b", 1); ("B", 1)]%string) \/ (m <> 1 /\ (String c "", m) ∈ unit_letters).

#[local] Instance is_unit_letter_dec c m : Decision (is_unit_letter c m).
Proof. unfold is_unit_letter. apply _. Defined.

Lemma unit_multiplier_letter c m : unit_multiplier c = Some m -> is_unit_letter c m.
Proof.
  set (P c := match unit_multiplier c with Some m => bool_decide (is_unit_letter c m) | None => true end).
  assert (H : P c = true) by (apply all_characters; vm_compute; reflexivity).
  unfold P in H. intros E. rewrite E in H. by apply bool_decide_eq_true in H.
Qed.

Lemma i_or_b_letter c : Z.eqb (tolower c) (char_code "i") || Z.eqb (tolower c) (char_code "b") = true -> String c "" ∈ ["i"; "I"; "b"; "B"]%string.
Proof.
  set (P c := implb (Z.eqb (tolower c) (char_code "i") || Z.eqb (tolower c) (char_code "b"))
    (bool_decide (String c "" ∈ ["i"; "I"; "b"; "B"]%string))).
  assert (H : P c = true) by (apply all_characters; vm_compute; reflexivity).
  unfold P in H. intros E. rewrite E in H. by apply bool_decide_eq_true in H.
Qed.

Lemma decoration_listed s : (String.length s <= 2)%nat -> all_i_or_b s = true -> s ∈ decorations.
Proof.
  intros Hl Hs. unfold decorations. destruct s as [|a [|b [|c s]]]; cbn [String.length all_i_or_b] in *; [by left| | |lia].
  - rewrite andb_true_r in Hs. right. apply elem_of_app. left. by apply i_or_b_letter.
  - rewrite andb_true_r in Hs. apply andb_true_iff in Hs as [Ha Hb]. apply i_or_b_letter in Ha, Hb.
    right. apply elem_of_app. right. apply (elem_of_concat_map _ (String a "") _ _ Ha).
    apply list_elem_of_In, in_map_iff. exists (String b ""). split; [done | by apply list_elem_of_In].
Qed.

(** The function accepts the listed suffixes and no others. *)
Lemma suffix_multiplier_listed s m : suffix_multiplier s = Some m <-> (s, m) ∈ accepted_suffixes.
Proof.
  split.
  - unfold suffix_multiplier, accepted_suffixes. destruct s as [|c s]; [intros [= <-]; by left|].
    destruct (unit_multiplier c) as [u|] eqn:Hu; cbn [mbind option_bind]; [|discriminate]. apply unit_multiplier_letter in Hu.
    destruct Hu as [[-> Hc] | [Hne Hc]].
    + cbn [Z.eqb Pos.eqb negb andb]. destruct (String.eqb_spec s "") as [-> |]; [|discriminate]. intros [= <-].
      apply elem_of_app. left. by right.
    + rewrite (proj2 (Z.eqb_neq u 1)) by done. cbn [negb andb]. intros H. apply elem_of_app. right.
      assert (Hs : u = m /\ s ∈ decorations).
      { destruct (String.eqb_spec s "") as [-> |]; cbn [negb] in H; [injection H as ->; split; [done | by left]|].
        destruct (Nat.ltb_spec 2 (String.length s)); [discriminate|]. destruct (all_i_or_b s) eqn:Hs; [|discriminate].
        injection H as ->. split; [done | by apply decoration_listed]. }
      destruct Hs as [-> Hs]. apply (elem_of_concat_map _ (String c "", m) _ _ Hc). apply list_elem_of_In, in_map_iff.
      exists s. split; [done | by apply list_elem_of_In].
  - intros H. assert (Hall : Forall (fun '(suffix, m) => suffix_multiplier suffix = Some m) accepted_suffixes) by (repeat constructor).
    rewrite Forall_forall in Hall. by apply (Hall (s, m)).
Qed.

Lemma suffix_no_digit s m : (s, m) ∈ accepted_suffixes -> starts_with_digit s = false.
Proof.
  assert (Hall : Forall (fun p => starts_with_digit p.1 = false) accepted_suffixes) by (repeat constructor).
  rewrite Forall_forall in Hall. intros H. apply (Hall _ H).
Qed.

Lemma list_subseteq_listed {A} `{EqDecision A} (l k : list A) : Forall (fun x => x ∈ k) l -> l ⊆ k.
Proof. rewrite Forall_forall. done. Qed.

(** ** Properties *)

(** C40. Byte sizes are read exactly.  A text is accepted precisely when it is a
    non-empty digit string, then one of the listed suffixes - nothing, "b", or
    one of the letters k, m, g, t with up to two letters out of "i" and "b", all
    in either case - and the product with the suffix's binary multiple fits into
    64 bits; the value is that product (the division-based guard never lets the
    multiplication wrap), and every other text is refused.  The suffixes that
    byte_size.hpp documents are among the listed ones; the others, such as "Kbb",
    are accepted beyond its documentation. *)
Theorem byte_size_exact text v :
  (parse_byte_size text = Some v <->
   exists ds suffix m, text = ds +:+ suffix /\ ds <> EmptyString /\ all_digits ds = true /\
     (suffix, m) ∈ accepted_suffixes /\ v = digits_value 0 ds * m /\ v <= U64_MAX) /\
  documented_suffixes ⊆ accepted_suffixes.
Proof.
  split; [|apply list_subseteq_listed; by_decide]. split.
  - pose proof (span_digits_inv text) as Hspan. intros Hp. assert (Hp' := Hp). unfold parse_byte_size in Hp'.
    destruct (span_digits text) as [ds suffix]. destruct Hspan as (-> & Hd & Hs).
    assert (Hne : ds <> EmptyString) by (by destruct ds). clear Hp'. rewrite parse_byte_size_app in Hp by done.
    destruct (suffix_multiplier suffix) as [m|] eqn:Hm; cbn [mbind option_bind] in Hp; [|discriminate].
    cbv zeta in Hp. destruct (Z.leb_spec (digits_value 0 ds * m) U64_MAX); [|discriminate].
    injection Hp as <-. exists ds, suffix, m. split_and!; try done. by apply suffix_multiplier_listed.
  - intros (ds & suffix & m & -> & Hne & Hd & Hm & -> & Hle).
    rewrite parse_byte_size_app by (done || by eapply suffix_no_digit). apply suffix_multiplier_listed in Hm. rewrite Hm.
    cbn [mbind option_bind]. cbv zeta. by rewrite (proj2 (Z.leb_le _ _)).
Qed.

(** Numbers as text round-trip: printing a 64-bit integer and parsing it
    gives it back, as a plain integer, as a byte size, and with thousands
    separators, which stand exactly between the groups of three digits. *)
Theorem number_text_round_trip n : is_u 64 n ->
  parse_uint (to_string n) = Some n /\ parse_byte_size (to_string n) = Some n /\
  strip_commas (format_count n) = to_string n /\ well_grouped (format_count n) = true.
Proof.
  intros Hn. destruct (to_string_spec n Hn) as (Hd & Hne & Hv). unfold is_u in Hn. split_and!.
  - rewrite parse_uint_digits, Hv by done. by rewrite (proj2 (Z.leb_le _ _)) by (unfold U64_MAX; lia).
  - rewrite <- (append_nil_r (to_string n)), parse_byte_size_app, Hv by done. cbn [suffix_multiplier mbind option_bind].
    cbv zeta. rewrite Z.mul_1_r. by rewrite (proj2 (Z.leb_le _ _)) by (unfold U64_MAX; lia).
  - by apply strip_commas_insert.
  - by apply well_grouped_insert.
Qed.

Lemma number_text_round_trip_witness :
  parse_uint "18446744073709551615" = Some U64_MAX /\ well_grouped "18,446,744,073,709,551,615" = true.
Proof.
  destruct (number_text_round_trip U64_MAX ltac:(by_decide)) as (H1 & _ & _ & H4). split; [exact H1 | exact H4].
Defined.

(** More than the documented suffixes is accepted. *)
Lemma undocumented_suffixes :
  parse_byte_size "4Kbb" = Some 4096 /\ parse_byte_size "4Kii" = Some 4096 /\ parse_byte_size "4Kbi" = Some 4096.
Proof. by vm_compute. Qed.
