(* ===== verification/Float64.v ===== *)
(** Binary floating point: the [double] of the program.

    The standard library's executable IEEE 754 specification ([SpecFloat]) at
    53 bits of precision and maximal exponent 1024, and the conversions and
    formats of the C++ library that the program applies to doubles: integer
    to double, truncation to integer ([None] is undefined behaviour: the
    truncated value does not fit), [std::from_chars], and the formats
    [{:.0f}], [{:.1f}], [{:.2f}] and [{:3.0f}], which round the exact value
    half to even. *)
From Stdlib Require Import ZArith Lia Ascii SpecFloat.
From stdpp Require Import base numbers list strings.
From S2P Require Import Prelude ByteSize.

Abbreviation double := spec_float.

Definition kPrecision : Z := 53.
Definition kMaxExponent : Z := 1024.

Definition of_int (z : Z) : double := binary_normalize kPrecision kMaxExponent z 0 false.
Definition fdiv (x y : double) : double := SFdiv kPrecision kMaxExponent x y.
Definition fmul (x y : double) : double := SFmul kPrecision kMaxExponent x y.
Definition fltb (x y : double) : bool := SFltb x y.
Definition fgeb (x y : double) : bool := SFleb y x.
Definition fzero : double := S754_zero false.

(** The value [m * 2^e] truncated to an integer. *)
Definition trunc_pos (m : positive) (e : Z) : Z := if Z.leb 0 e then Z.pos m * 2 ^ e else Z.pos m / 2 ^ (- e).

Definition trunc (x : double) : option Z :=
  match x with
  | S754_zero _ => Some 0
  | S754_finite s m e => Some (cond_Zopp s (trunc_pos m e))
  | _ => None
  end.

Definition to_u64 (x : double) : option Z := z ← trunc x; if decide (is_u 64 z) then Some z else None.
Definition to_i64 (x : double) : option Z := z ← trunc x; checked_i64 z.

(** ** Fixed-point formats *)

(** [a / 2^k], rounded half to even. *)
Definition round_even (a k : Z) : Z :=
  let q := a / 2 ^ k in
  let r := 2 * (a mod 2 ^ k) in
  if Z.ltb r (2 ^ k) then q
  else if Z.eqb r (2 ^ k) then (if Z.even q then q else q + 1)
  else q + 1.

(** The value [m * 2^e] in units of [10^-digits]. *)
Definition scaled (digits : nat) (m : positive) (e : Z) : Z :=
  let a := Z.pos m * 10 ^ Z.of_nat digits in
  if Z.leb 0 e then a * 2 ^ e else round_even a (- e).

Fixpoint repeat_char (c : ascii) (n : nat) : string :=
  match n with O => "" | S n => String c (repeat_char c n) end.

Definition pad_left (width : nat) (c : ascii) (s : string) : string := repeat_char c (width - String.length s) +:+ s.

(** The decimal digits of any finite double (at most 309 before the point). *)
Definition decimal (n : Z) : string := to_digits 320 n "".

Definition fixed_text (digits : nat) (v : Z) : string :=
  match digits with
  | O => decimal v
  | _ => decimal (v / 10 ^ Z.of_nat digits) +:+ "." +:+ pad_left digits "0" (decimal (v mod 10 ^ Z.of_nat digits))
  end.

(** [std::format("{:.<digits>f}", x)] *)
Definition format_fixed (digits : nat) (x : double) : string :=
  let sign (s : bool) (text : string) := if s then String "-" text else text in
  match x with
  | S754_zero s => sign s (fixed_text digits 0)
  | S754_infinity s => sign s "inf"
  | S754_nan => "nan"
  | S754_finite s m e => sign s (fixed_text digits (scaled digits m e))
  end.

(** ** Reading: [std::from_chars] with the general format

    [sign] [digits [. digits] | . digits] [e [+-] digits], or an infinity or
    NaN; the nearest double, a value that rounds to infinity or to zero being
    out of range. *)

(** [d * 10^x], correctly rounded: an integer, or a quotient of integers
    whose rounding location [SFdiv_core_binary] computes. *)
Definition of_decimal (d : positive) (x : Z) : double :=
  if Z.leb 0 x then of_int (Z.pos d * 10 ^ x)
  else
    let '(q, e, l) := SFdiv_core_binary kPrecision kMaxExponent (Z.pos d) 0 (10 ^ (- x)) 0 in
    binary_round_aux kPrecision kMaxExponent false q e l.

Inductive read_double := NotANumber | OutOfRange | IsDouble (x : double).

(** Decimal digits of value [d] and a decimal exponent [x].  Where the value
    is beyond [2^1100] or below [2^-1200] the power of ten is not computed. *)
Definition double_of_digits (s : bool) (d x : Z) : read_double :=
  match d with
  | Z.pos p =>
      if Z.leb 0 x && Z.ltb 1100 (Z.log2 d + 3 * x) || Z.ltb (Z.log2 d + 1 + 3 * x) (- 1200) then OutOfRange
      else
        match of_decimal p x with
        | S754_finite _ m e => IsDouble (S754_finite s m e)
        | _ => OutOfRange
        end
  | _ => IsDouble (S754_zero s)
  end.

Fixpoint lower (s : string) : string :=
  match s with EmptyString => "" | String c s => String (ascii_of_nat (Z.to_nat (tolower c))) (lower s) end.

(** The exponent part, up to the end of the text: nothing, or [e], a sign and digits. *)
Definition read_exponent (text : string) : option Z :=
  match text with
  | EmptyString => Some 0
  | String c rest =>
      if Z.eqb (tolower c) 101 then
        let '(negative, rest) :=
          match rest with
          | String "-" rest => (true, rest)
          | String "+" rest => (false, rest)
          | _ => (false, rest)
          end in
        match span_digits rest with
        | (EmptyString, _) => None
        | (ds, EmptyString) => Some (if negative then - digits_value 0 ds else digits_value 0 ds)
        | _ => None
        end
      else None
  end%char.

(** The characters of [nan(...)]. *)
Fixpoint nan_payload (text : string) : bool :=
  match text with
  | EmptyString => false
  | String ")" EmptyString => true
  | String c text =>
      (isdigit c || (Z.leb 97 (tolower c) && Z.leb (tolower c) 122) || Ascii.eqb c "_") && nan_payload text
  end%char.

Definition read_special (s : bool) (text : string) : read_double :=
  let text := lower text in
  if String.eqb text "inf" || String.eqb text "infinity" then IsDouble (S754_infinity s)
  else if String.eqb text "nan" then IsDouble S754_nan
  else
    match text with
    | String "n" (String "a" (String "n" (String "(" payload))) =>
        if nan_payload payload then IsDouble S754_nan else NotANumber
    | _ => NotANumber
    end%char.

Definition read_unsigned (s : bool) (text : string) : read_double :=
  let '(whole, rest) := span_digits text in
  let '(fraction, rest) :=
    match rest with String "." rest => span_digits rest | _ => (EmptyString, rest) end%char in
  match whole, fraction with
  | EmptyString, EmptyString => read_special s text
  | _, _ =>
      match read_exponent rest with
      | Some x => double_of_digits s (digits_value (digits_value 0 whole) fraction) (x - Z.of_nat (String.length fraction))
      | None => NotANumber
      end
  end.

(** [std::from_chars] on a whole text. *)
Definition double_from_chars (text : string) : read_double :=
  match text with
  | String "-" text => read_unsigned true text
  | _ => read_unsigned false text
  end%char.

(** ** Rounding *)

(** [n / d], rounded half to even. *)
Definition nearest_even (n d : Z) : Z :=
  let q := n / d in
  let r := 2 * (n mod d) in
  if Z.ltb r d then q else if Z.eqb r d then (if Z.even q then q else q + 1) else q + 1.

(** The rounding state that stands for the exact quotient [n / d]. *)
Definition exactly (n d : Z) : shr_record := {|
  shr_m := n / d;
  shr_r := Z.leb d (2 * (n mod d));
  shr_s := negb (Z.eqb (n mod d) 0) && negb (Z.eqb (2 * (n mod d)) d) |}.

Lemma round_even_nearest a k : round_even a k = nearest_even a (2 ^ k).
Proof. reflexivity. Qed.

Lemma round_exactly n d : 0 < d -> round_nearest_even (n / d) (loc_of_shr_record (exactly n d)) = nearest_even n d.
Proof.
  intros Hd. unfold exactly, nearest_even, loc_of_shr_record. pose proof (Z.mod_pos_bound n d Hd).
  destruct (Z.leb_spec d (2 * (n mod d))), (Z.eqb_spec (n mod d) 0), (Z.eqb_spec (2 * (n mod d)) d),
    (Z.ltb_spec (2 * (n mod d)) d); cbn [negb andb round_nearest_even]; reflexivity || lia.
Qed.

Lemma shr_1_cases m r s : 0 <= m -> shr_1 (Build_shr_record m r s) = Build_shr_record (m / 2) (Z.odd m) (r || s).
Proof.
  intros Hm. rewrite <- Z.div2_div. destruct m as [|[m|m|]|]; try reflexivity. lia.
Qed.

Lemma shr_1_exactly n d : 0 <= n -> 0 < d -> shr_1 (exactly n d) = exactly n (d * 2).
Proof.
  intros Hn Hd. unfold exactly. rewrite shr_1_cases by (apply Z.div_pos; lia).
  pose proof (Z.mod_pos_bound n d Hd) as Hr. rewrite Z.rem_mul_r, <- Z.div_div by lia.
  pose proof (Z.mod_pos_bound (n / d) 2 ltac:(lia)) as Hb.
  rewrite <- (Z.bit0_odd (n / d)), Z.bit0_eqb. set (r := n mod d) in *. set (b := (n / d) mod 2) in *.
  assert (Hb01 : b = 0 \/ b = 1) by lia. f_equal.
  - destruct Hb01 as [-> | ->]; cbn [Z.eqb]; symmetry; [apply Z.leb_gt | apply Z.leb_le]; lia.
  - destruct Hb01 as [-> | ->].
    + destruct (Z.leb_spec d (2 * r)), (Z.eqb_spec r 0), (Z.eqb_spec (2 * r) d),
        (Z.eqb_spec (r + d * 0) 0), (Z.eqb_spec (2 * (r + d * 0)) (d * 2)); cbn [negb andb orb]; reflexivity || lia.
    + destruct (Z.leb_spec d (2 * r)), (Z.eqb_spec r 0), (Z.eqb_spec (2 * r) d),
        (Z.eqb_spec (r + d * 1) 0), (Z.eqb_spec (2 * (r + d * 1)) (d * 2)); cbn [negb andb orb]; reflexivity || lia.
Qed.

Lemma shr_exactly n d e k : 0 <= n -> 0 < d -> 0 <= k -> shr (exactly n d) e k = (exactly n (d * 2 ^ k), e + k).
Proof.
  intros Hn Hd Hk. unfold shr. destruct k as [|k|k]; [by rewrite Z.mul_1_r, Z.add_0_r | | lia]. f_equal.
  assert (Hiter : forall (k : positive) (d : Z), 0 < d -> SpecFloat.iter_pos shr_1 k (exactly n d) = exactly n (d * 2 ^ Z.pos k)).
  { clear - Hn. induction k as [k IH|k IH|]; intros d Hd; cbn [SpecFloat.iter_pos].
    - rewrite shr_1_exactly, !IH by (done || nia). f_equal.
      replace (Z.pos k~1) with (1 + Z.pos k + Z.pos k) by lia. rewrite !Z.pow_add_r by lia. lia.
    - rewrite !IH by (done || nia). f_equal. replace (Z.pos k~0) with (Z.pos k + Z.pos k) by lia. rewrite Z.pow_add_r by lia. lia.
    - by apply shr_1_exactly. }
  by apply Hiter.
Qed.

(** What a division hands to the rounding. *)
Lemma location_exactly n d : 0 < d -> shr_record_of_loc (n / d) (new_location d (n mod d)) = exactly n d.
Proof.
  intros Hd. pose proof (Z.mod_pos_bound n d Hd). unfold exactly, new_location, new_location_even, new_location_odd.
  destruct (Z.eqb_spec (n mod d) 0) as [E | E].
  - rewrite E, (proj2 (Z.leb_gt d (2 * 0))) by lia. by destruct (Z.even d).
  - destruct (Z.even d) eqn:Hev; match goal with |- context [if ?b then loc_Exact else _] => replace b with false end;
      try (symmetry; by apply Z.eqb_neq).
    + destruct (Z.compare_spec (2 * (n mod d)) d), (Z.leb_spec d (2 * (n mod d))), (Z.eqb_spec (2 * (n mod d)) d);
        cbn [shr_record_of_loc negb andb]; reflexivity || lia.
    + assert (2 * (n mod d) <> d) by (intros Heq; rewrite <- Heq, Z.even_mul in Hev; discriminate).
      destruct (Z.compare_spec (2 * (n mod d) + 1) d), (Z.leb_spec d (2 * (n mod d))), (Z.eqb_spec (2 * (n mod d)) d);
        cbn [shr_record_of_loc negb andb]; reflexivity || lia.
Qed.

Lemma exact_exactly n : shr_record_of_loc n loc_Exact = exactly n 1.
Proof. unfold exactly. rewrite Z.div_1_r, Z.mod_1_r. reflexivity. Qed.


Lemma nearest_even_cases n d : nearest_even n d = n / d \/ nearest_even n d = n / d + 1.
Proof. unfold nearest_even. repeat case_match; auto. Qed.

(** The distance to the nearest integer is at most a half. *)
Lemma nearest_even_error n d : 0 < d -> 2 * Z.abs (nearest_even n d * d - n) <= d.
Proof.
  intros Hd. pose proof (Z.div_mod n d ltac:(lia)). pose proof (Z.mod_pos_bound n d Hd). unfold nearest_even.
  destruct (Z.ltb_spec (2 * (n mod d)) d); [nia|]. destruct (Z.eqb_spec (2 * (n mod d)) d); [destruct (Z.even _)|]; nia.
Qed.

Lemma nearest_even_exact q d : 0 < d -> nearest_even (q * d) d = q.
Proof.
  intros Hd. unfold nearest_even. rewrite Z.mod_mul, Z.div_mul by lia. by rewrite (proj2 (Z.ltb_lt _ _)) by lia.
Qed.

Lemma digits_log2 p : Z.pos (digits2_pos p) = Z.log2 (Z.pos p) + 1.
Proof.
  induction p as [p IH|p IH|]; cbn [digits2_pos]; [| |done]; rewrite Pos2Z.inj_succ, IH.
  - rewrite Pos2Z.inj_xI, Z.log2_succ_double by lia. lia.
  - rewrite Pos2Z.inj_xO, Z.log2_double by lia. lia.
Qed.

Lemma Zdigits_log2 m : 0 < m -> Zdigits2 m = Z.log2 m + 1.
Proof. destruct m; [lia | intros _; apply digits_log2 | lia]. Qed.

(** A rounded mantissa that has reached [2^53] is renormalised. *)
Definition rounded (s : bool) (q e : Z) : double :=
  if Z.ltb q (2 ^ kPrecision) then S754_finite s (Z.to_pos q) e else S754_finite s (Z.to_pos (q / 2)) (e + 1).

Lemma fexp_normal e : -1021 <= e -> fexp kPrecision kMaxExponent e = e - 53.
Proof. unfold fexp, emin, kPrecision, kMaxExponent. lia. Qed.

Lemma shr_fexp_exactly m ex l N D : 0 < m -> 0 < D -> 0 <= N -> shr_record_of_loc m l = exactly N D ->
  52 <= Z.log2 m -> -1074 <= ex + (Z.log2 m - 52) ->
  shr_fexp kPrecision kMaxExponent m ex l = (exactly N (D * 2 ^ (Z.log2 m - 52)), ex + (Z.log2 m - 52)).
Proof.
  intros Hm HD HN Hrec Hlog He. unfold shr_fexp. rewrite Hrec, Zdigits_log2, fexp_normal by lia.
  rewrite <- shr_exactly by lia. f_equal. lia.
Qed.

Lemma mantissa_range m k : 0 < m -> Z.log2 m = 52 + k -> 0 <= k -> 2 ^ 52 <= m / 2 ^ k < 2 ^ 53.
Proof.
  intros Hm Hlog Hk. pose proof (Z.log2_spec m Hm) as [Hlo Hhi]. rewrite Hlog in *.
  replace (Z.succ (52 + k)) with (53 + k) in Hhi by lia. rewrite Z.pow_add_r in Hlo, Hhi by lia.
  split; [apply Z.div_le_lower_bound | apply Z.div_lt_upper_bound]; lia.
Qed.

Lemma round_aux_normal s m ex l N D : 0 < m -> 0 < D -> 0 <= N -> m = N / D -> shr_record_of_loc m l = exactly N D ->
  52 <= Z.log2 m -> -1074 <= ex + (Z.log2 m - 52) <= 970 ->
  binary_round_aux kPrecision kMaxExponent s m ex l =
    rounded s (nearest_even N (D * 2 ^ (Z.log2 m - 52))) (ex + (Z.log2 m - 52)).
Proof.
  intros Hm HD HN Hq Hrec Hlog He. unfold binary_round_aux. rewrite (shr_fexp_exactly m ex l N D) by (done || lia).
  set (k := Z.log2 m - 52) in *. set (e := ex + k) in *. assert (Hpow : 0 < 2 ^ k) by lia.
  cbn [shr_m exactly]. rewrite round_exactly by nia. set (q := nearest_even N (D * 2 ^ k)).
  assert (Hrange : 2 ^ 52 <= q <= 2 ^ 53).
  { pose proof (mantissa_range m k Hm ltac:(lia) ltac:(lia)). rewrite Hq, Z.div_div in H by lia.
    destruct (nearest_even_cases N (D * 2 ^ k)); lia. }
  unfold rounded, kPrecision. destruct (Z.ltb_spec q (2 ^ 53)) as [Hlt | Hge].
  - assert (Hl : Z.log2 q = 52) by (apply Z.log2_unique; lia).
    rewrite (shr_fexp_exactly q e _ q 1) by (apply exact_exactly || lia).
    rewrite Hl. change (1 * 2 ^ (52 - 52)) with 1. cbn [exactly shr_m]. rewrite Z.div_1_r.
    destruct q as [|p|p] eqn:Eq; [lia | | lia]. replace (Z.leb (e + (52 - 52)) _) with true by (symmetry; apply Z.leb_le; cbv [kMaxExponent kPrecision]; lia).
    cbn [Z.to_pos]. f_equal. lia.
  - assert (Eq : q = 2 ^ 53) by lia. rewrite Eq. assert (Hl : Z.log2 (2 ^ 53) = 53) by reflexivity.
    rewrite (shr_fexp_exactly (2 ^ 53) e _ (2 ^ 53) 1) by (apply exact_exactly || lia).
    change (Z.log2 (2 ^ 53) - 52) with 1. change (1 * 2 ^ 1) with 2. cbn [exactly shr_m].
    change (2 ^ 53 / 2) with (Z.pos (2 ^ 52)%positive). cbn [Z.to_pos].
    by replace (Z.leb (e + 1) _) with true by (symmetry; apply Z.leb_le; cbv [kMaxExponent kPrecision]; lia).
Qed.

Lemma iter_xO m d : Z.pos (Pos.iter xO m d) = Z.pos m * 2 ^ Z.pos d.
Proof.
  induction d as [|d IH] using Pos.peano_ind; [cbn; lia|].
  rewrite Pos.iter_succ, Pos2Z.inj_xO, IH, Pos2Z.inj_succ, Z.pow_succ_r by lia. lia.
Qed.

(** ** Integers to doubles *)

(** Integers of at most 53 bits are exact. *)
Lemma of_int_exact n : 0 < n -> Z.log2 n <= 52 ->
  of_int n = S754_finite false (Z.to_pos (n * 2 ^ (52 - Z.log2 n))) (Z.log2 n - 52).
Proof.
  intros Hn Hlog. pose proof (Z.log2_nonneg n). destruct n as [|p|p]; [lia | | lia].
  unfold of_int, binary_normalize, binary_round. rewrite Z.add_0_r, digits_log2, fexp_normal by lia.
  set (l := Z.log2 (Z.pos p)) in *. unfold shl_align.
  assert (Hround : forall m e, Z.log2 (Z.pos m) = 52 -> e = l - 52 ->
    binary_round_aux kPrecision kMaxExponent false (Z.pos m) e loc_Exact = S754_finite false m e).
  { intros m e Hm ->. pose proof (Z.log2_spec (Z.pos m) ltac:(lia)) as Hs. rewrite Hm in Hs.
    rewrite (round_aux_normal false (Z.pos m) _ _ (Z.pos m) 1) by (rewrite ?Z.div_1_r; apply exact_exactly || lia).
    rewrite Hm. change (1 * 2 ^ (52 - 52)) with 1. replace (nearest_even (Z.pos m) 1) with (Z.pos m) by
      (rewrite <- (Z.mul_1_r (Z.pos m)) at 2; by rewrite nearest_even_exact).
    unfold rounded. rewrite (proj2 (Z.ltb_lt _ _)) by (unfold kPrecision; lia). cbn [Z.to_pos]. f_equal. lia. }
  destruct (l + 1 - 53 - 0) as [|d|d] eqn:E; [| lia |].
  - rewrite Hround by lia. replace (52 - l) with 0 by lia. rewrite Z.mul_1_r. cbn [Z.to_pos]. f_equal. lia.
  - rewrite Hround by (rewrite ?iter_xO, ?Z.log2_mul_pow2; lia).
    replace (52 - l) with (Z.pos d) by lia. rewrite <- iter_xO. cbn [Z.to_pos]. f_equal. lia.
Qed.

(** Larger integers are rounded to 53 bits. *)
Lemma of_int_rounded n : 52 <= Z.log2 n <= 970 ->
  of_int n = rounded false (nearest_even n (2 ^ (Z.log2 n - 52))) (Z.log2 n - 52).
Proof.
  intros Hlog. destruct n as [|p|p]; [cbn in Hlog; lia | | cbn in Hlog; lia].
  unfold of_int, binary_normalize, binary_round. rewrite Z.add_0_r, digits_log2, fexp_normal by lia.
  unfold shl_align. destruct (Z.log2 (Z.pos p) + 1 - 53 - 0) as [|d|d] eqn:E; [| | lia];
    rewrite (round_aux_normal false (Z.pos p) _ _ (Z.pos p) 1) by (rewrite ?Z.div_1_r; apply exact_exactly || lia);
    by rewrite Z.mul_1_l, Z.add_0_l.
Qed.

(** ** Quotients and products of normal numbers *)

Lemma log2_mantissa m : Z.log2 (Z.pos m) = 52 -> 2 ^ 52 <= Z.pos m < 2 ^ 53.
Proof. intros H. pose proof (Z.log2_spec (Z.pos m) ltac:(lia)) as Hs. by rewrite H in Hs. Qed.

(** The quotient is rounded at 53 bits: its first bit is the one above the
    point exactly where the mantissas are in order. *)
Definition quotient_shift (mx my : positive) : Z := if Z.leb (Z.pos my) (Z.pos mx) then 1 else 0.

Lemma quotient_log2 mx my : Z.log2 (Z.pos mx) = 52 -> Z.log2 (Z.pos my) = 52 ->
  Z.log2 (Z.pos mx * 2 ^ 53 / Z.pos my) = 52 + quotient_shift mx my.
Proof.
  intros Hx%log2_mantissa Hy%log2_mantissa. unfold quotient_shift.
  destruct (Z.leb_spec (Z.pos my) (Z.pos mx)); apply Z.log2_unique; try lia.
  - split; [apply Z.div_le_lower_bound | apply Z.div_lt_upper_bound]; lia.
  - split; [apply Z.div_le_lower_bound | apply Z.div_lt_upper_bound]; lia.
Qed.

Lemma fdiv_normal sx sy mx my ex ey : Z.log2 (Z.pos mx) = 52 -> Z.log2 (Z.pos my) = 52 -> -1021 <= ex - ey <= 1000 ->
  let k := quotient_shift mx my in
  fdiv (S754_finite sx mx ex) (S754_finite sy my ey) =
    rounded (xorb sx sy) (nearest_even (Z.pos mx * 2 ^ 53) (Z.pos my * 2 ^ k)) (ex - ey - 53 + k).
Proof.
  intros Hx Hy He k. pose proof (quotient_log2 mx my Hx Hy) as Hlog. fold k in Hlog.
  assert (Hk : 0 <= k <= 1) by (unfold k, quotient_shift; destruct (Z.leb _ _); lia).
  unfold fdiv, SFdiv, SFdiv_core_binary. rewrite !Zdigits_log2, Hx, Hy, fexp_normal by lia.
  replace (Z.min _ (ex - ey)) with (ex - ey - 53) by lia. replace (ex - ey - (ex - ey - 53)) with 53 by lia.
  rewrite Z.shiftl_mul_pow2 by lia. rewrite (surjective_pairing (Z.div_eucl _ _)).
  change (fst (Z.div_eucl ?a ?b)) with (a / b). change (snd (Z.div_eucl ?a ?b)) with (a mod b).
  rewrite (round_aux_normal _ _ _ _ (Z.pos mx * 2 ^ 53) (Z.pos my)); try lia.
  - rewrite Hlog. replace (52 + k - 52) with k by lia. done.
  - apply Z.log2_lt_cancel. rewrite Hlog. cbn. lia.
  - by apply location_exactly.
Qed.

(** Division by a power of two [2^52 * 2^ey] is exact. *)
Lemma fdiv_pow2 m ex ey : Z.log2 (Z.pos m) = 52 -> -1021 <= ex - ey <= 1000 ->
  fdiv (S754_finite false m ex) (S754_finite false (2 ^ 52) ey) = S754_finite false m (ex - ey - 52).
Proof.
  intros Hm He. pose proof (log2_mantissa m Hm) as Hr. rewrite fdiv_normal by done. unfold quotient_shift.
  replace (Z.leb _ _) with true by (symmetry; apply Z.leb_le; lia).
  replace (nearest_even _ _) with (Z.pos m) by
    (symmetry; replace (Z.pos (2 ^ 52) * 2 ^ 1) with (2 ^ 53) by done; by apply nearest_even_exact).
  unfold rounded. rewrite (proj2 (Z.ltb_lt _ _)) by (unfold kPrecision; lia). cbn [Z.to_pos]. f_equal. lia.
Qed.

Lemma product_log2 mx my : Z.log2 (Z.pos mx) = 52 -> Z.log2 (Z.pos my) = 52 ->
  104 <= Z.log2 (Z.pos (mx * my)) <= 105.
Proof.
  intros Hx%log2_mantissa Hy%log2_mantissa. rewrite Pos2Z.inj_mul.
  split; [apply Z.log2_le_pow2 | apply Z.lt_succ_r, Z.log2_lt_pow2]; nia.
Qed.

Lemma fmul_normal sx sy mx my ex ey : Z.log2 (Z.pos mx) = 52 -> Z.log2 (Z.pos my) = 52 -> -1100 <= ex + ey <= 900 ->
  let k := Z.log2 (Z.pos (mx * my)) - 52 in
  fmul (S754_finite sx mx ex) (S754_finite sy my ey) =
    rounded (xorb sx sy) (nearest_even (Z.pos (mx * my)) (2 ^ k)) (ex + ey + k).
Proof.
  intros Hx Hy He k. pose proof (product_log2 mx my Hx Hy) as Hlog. unfold fmul, SFmul.
  rewrite (round_aux_normal _ _ _ _ (Z.pos (mx * my)) 1) by (rewrite ?Z.div_1_r; apply exact_exactly || lia).
  by rewrite Z.mul_1_l.
Qed.

(** Rounding a positive value with a mantissa of 53 bits gives such a number. *)
Lemma rounded_normal s q e : 2 ^ 52 <= q <= 2 ^ 53 ->
  exists m e', rounded s q e = S754_finite s m e' /\ Z.log2 (Z.pos m) = 52 /\ e <= e' <= e + 1 /\
    Z.pos m * 2 ^ (e' - e) = q.
Proof.
  intros Hq. unfold rounded, kPrecision. destruct (Z.ltb_spec q (2 ^ 53)).
  - exists (Z.to_pos q), e. rewrite Z2Pos.id, Z.sub_diag, Z.mul_1_r by lia.
    split_and!; [done | apply Z.log2_unique; lia | lia..].
  - assert (q = 2 ^ 53) as -> by lia. exists (2 ^ 52)%positive, (e + 1).
    replace (e + 1 - e) with 1 by lia. split_and!; [done | done | lia..].
Qed.

(** ** Comparisons of positive normal numbers *)

Lemma fltb_normal mx my ex ey : Z.log2 (Z.pos mx) = 52 -> Z.log2 (Z.pos my) = 52 ->
  fltb (S754_finite false mx ex) (S754_finite false my ey) =
    Z.ltb (Z.pos mx * 2 ^ (ex - Z.min ex ey)) (Z.pos my * 2 ^ (ey - Z.min ex ey)).
Proof.
  intros Hx%log2_mantissa Hy%log2_mantissa. unfold fltb, SFltb, SFcompare.
  change IntDef.Z.compare with Z.compare. change (Pos.compare_cont Eq mx my) with (Z.compare (Z.pos mx) (Z.pos my)).
  destruct (Z.compare_spec ex ey) as [-> | Hlt | Hlt].
  - rewrite Z.min_id, Z.sub_diag, !Z.mul_1_r. done.
  - symmetry. apply Z.ltb_lt. rewrite Z.min_l, Z.sub_diag by lia.
    pose proof (Z.pow_le_mono_r 2 1 (ey - ex) ltac:(lia) ltac:(lia)). nia.
  - symmetry. apply Z.ltb_ge. rewrite Z.min_r, Z.sub_diag by lia.
    pose proof (Z.pow_le_mono_r 2 1 (ex - ey) ltac:(lia) ltac:(lia)). nia.
Qed.

Lemma fgeb_normal mx my ex ey : Z.log2 (Z.pos mx) = 52 -> Z.log2 (Z.pos my) = 52 ->
  fgeb (S754_finite false mx ex) (S754_finite false my ey) = negb (fltb (S754_finite false mx ex) (S754_finite false my ey)).
Proof.
  intros Hx%log2_mantissa Hy%log2_mantissa. unfold fgeb, fltb, SFltb, SFleb, SFcompare.
  change IntDef.Z.compare with Z.compare.
  change (Pos.compare_cont Eq ?a ?b) with (Z.compare (Z.pos a) (Z.pos b)).
  rewrite (Z.compare_antisym ex ey), (Z.compare_antisym (Z.pos mx) (Z.pos my)).
  destruct (Z.compare ex ey), (Z.compare (Z.pos mx) (Z.pos my)); done.
Qed.

(** [n / d] depends on the ratio only. *)
Lemma nearest_even_scale n d c : 0 < d -> 0 < c -> nearest_even (n * c) (d * c) = nearest_even n d.
Proof.
  intros Hd Hc. unfold nearest_even. rewrite Z.div_mul_cancel_r, Z.mul_mod_distr_r by lia.
  destruct (Z.ltb_spec (2 * (n mod d * c)) (d * c)), (Z.ltb_spec (2 * (n mod d)) d); try done; try nia.
  destruct (Z.eqb_spec (2 * (n mod d * c)) (d * c)), (Z.eqb_spec (2 * (n mod d)) d); done || nia.
Qed.
