(* ===== verification/Rounding.v ===== *)
(** Rounding errors of [Float64] arithmetic.

    The value of a double as a rational number, and the relative error of the
    conversions, quotients and products of positive normal numbers: at most
    [2^-53], half a unit in the last place. *)
From Stdlib Require Import ZArith Lia SpecFloat QArith Qabs Lqa Qpower.
From stdpp Require Import base numbers.
From S2P Require Import Prelude Float64.
#[local] Open Scope Q_scope.

Definition pow2 (e : Z) : Q := 2 ^ e.

Lemma pow2_pos e : 0 < pow2 e.
Proof. by apply Qpower_0_lt. Qed.

Lemma pow2_add a b : pow2 (a + b) == pow2 a * pow2 b.
Proof. by apply Qpower_plus. Qed.

Lemma pow2_Z e : (0 <= e)%Z -> inject_Z (2 ^ e) == pow2 e.
Proof. intros He. by rewrite Zpower_Qpower. Qed.

(** A positive number with a mantissa of 53 bits, far from the ends of the
    exponent range. *)
Definition normal (x : double) (lo hi : Z) : Prop :=
  match x with
  | S754_finite false m e => Z.log2 (Z.pos m) = 52%Z /\ (lo <= e <= hi)%Z
  | _ => False
  end.

(** The value of a number that is not negative. *)
Definition value (x : double) : Q :=
  match x with S754_finite false m e => inject_Z (Z.pos m) * pow2 e | _ => 0 end.

(** [2^-53] *)
Definition eps : Q := 1 # 9007199254740992.

(** [x] is [v] up to half a unit in the last place. *)
Definition nearly (x v : Q) : Prop := v * (1 - eps) <= x <= v * (1 + eps).

Lemma normal_pos x lo hi : normal x lo hi -> 0 < value x.
Proof.
  destruct x as [| | |[] m e]; try done. intros _. cbn [value].
  pose proof (pow2_pos e). assert (0 < inject_Z (Z.pos m)) by (rewrite <- (Zlt_Qlt 0); lia). nra.
Qed.

Lemma normal_mono x lo hi lo' hi' : normal x lo hi -> (lo' <= lo)%Z -> (hi <= hi')%Z -> normal x lo' hi'.
Proof. destruct x as [| | |[] m e]; try done. cbn. lia. Qed.

(** The rounded mantissa stands for [N / D * 2^e] at [k] bits fewer. *)
Lemma rounded_value q e lo hi : (2 ^ 52 <= q <= 2 ^ 53)%Z -> (lo <= e < hi)%Z ->
  normal (rounded false q e) lo hi /\ value (rounded false q e) == inject_Z q * pow2 e.
Proof.
  intros Hq He. destruct (rounded_normal false q e Hq) as (m & e' & -> & Hm & He' & Hval). split; [split; [done | lia]|].
  cbn [value]. rewrite <- Hval, inject_Z_mult, pow2_Z, <- Qmult_assoc, <- pow2_add by lia.
  replace (e' - e + e)%Z with e' by lia. reflexivity.
Qed.

Lemma rounded_nearly N D k e V : (0 < D)%Z -> (0 <= k)%Z -> (2 ^ 52 * (D * 2 ^ k) <= N < 2 ^ 53 * (D * 2 ^ k))%Z ->
  V * inject_Z D == inject_Z N * pow2 e -> forall lo hi, (lo <= e + k < hi)%Z ->
  let x := rounded false (nearest_even N (D * 2 ^ k)) (e + k) in normal x lo hi /\ nearly (value x) V.
Proof.
  intros HD Hk HN HV lo hi He x. assert (Hd : (0 < D * 2 ^ k)%Z) by lia.
  set (d := (D * 2 ^ k)%Z) in *. set (q := nearest_even N d) in *.
  assert (Hq : (2 ^ 52 <= q <= 2 ^ 53)%Z).
  { assert (2 ^ 52 <= N / d)%Z by (apply Z.div_le_lower_bound; lia).
    assert (N / d < 2 ^ 53)%Z by (apply Z.div_lt_upper_bound; lia). destruct (nearest_even_cases N d); lia. }
  destruct (rounded_value q (e + k) lo hi Hq He) as [Hn Hv]. split; [done|]. unfold x, nearly. rewrite Hv, pow2_add.
  pose proof (nearest_even_error N d Hd) as Herr. fold q in Herr.
  assert (Hlo : (N * (2 ^ 53 - 1) <= 2 ^ 53 * (q * d) <= N * (2 ^ 53 + 1))%Z) by lia.
  assert (Hd' : inject_Z d == inject_Z D * pow2 k) by (unfold d; by rewrite inject_Z_mult, pow2_Z).
  pose proof (pow2_pos e) as Hpe. assert (HD' : 0 < inject_Z D) by (by rewrite <- (Zlt_Qlt 0)).
  destruct Hlo as [H1 H2]. rewrite Zle_Qle, !inject_Z_mult, Hd' in H1, H2.
  change (inject_Z (2 ^ 53)) with (9007199254740992 # 1) in *. change (inject_Z (2 ^ 53 - 1)) with (9007199254740991 # 1) in *.
  change (inject_Z (2 ^ 53 + 1)) with (9007199254740993 # 1) in *. change eps with (1 # 9007199254740992) in *.
  apply (Qmult_le_compat_r _ _ (pow2 e)) in H1, H2; [|lra..].
  assert (E : inject_Z q * (pow2 e * pow2 k) * inject_Z D == inject_Z q * (inject_Z D * pow2 k) * pow2 e) by ring.
  assert (EV : forall c, V * c * inject_Z D == inject_Z N * pow2 e * c)
    by (intros c; rewrite <- HV; ring).
  split; apply (Qmult_le_r _ _ (inject_Z D) HD'); rewrite EV, E; lra.
Qed.

(** ** Conversions *)

(** An integer below [2^53] is itself. *)
Lemma of_int_value n : (0 < n < 2 ^ 53)%Z -> normal (of_int n) (-52) 0 /\ value (of_int n) == inject_Z n.
Proof.
  intros Hn. pose proof (Z.log2_nonneg n). assert (Hl : (Z.log2 n < 53)%Z) by (apply Z.log2_lt_pow2; lia).
  rewrite of_int_exact by lia. cbn [normal value]. rewrite Z2Pos.id, Z.log2_mul_pow2 by nia. split; [lia|].
  rewrite inject_Z_mult, pow2_Z, <- Qmult_assoc, <- pow2_add by lia.
  replace (52 - Z.log2 n + (Z.log2 n - 52))%Z with 0%Z by lia. change (pow2 0) with 1. ring.
Qed.

Lemma nearly_refl v : 0 <= v -> nearly v v.
Proof. intros Hv. unfold nearly, eps. split; lra. Qed.

Lemma of_int_nearly n : (0 < n < 2 ^ 64)%Z -> normal (of_int n) (-52) 13 /\ nearly (value (of_int n)) (inject_Z n).
Proof.
  intros Hn. destruct (Z.lt_ge_cases n (2 ^ 53)) as [Hlt | Hge].
  - destruct (of_int_value n ltac:(lia)) as [Hnorm Hv]. split; [by eapply normal_mono|].
    unfold nearly. rewrite Hv. apply nearly_refl. rewrite <- (Zle_Qle 0). lia.
  - pose proof (Z.log2_spec n ltac:(lia)) as [Hlo Hhi].
    assert (53 <= Z.log2 n < 64)%Z by (split; [apply Z.log2_le_pow2 | apply Z.log2_lt_pow2]; lia).
    rewrite of_int_rounded by lia. set (k := (Z.log2 n - 52)%Z) in *.
    rewrite <- (Z.mul_1_l (2 ^ k)). change k with (0 + k)%Z at 2 3.
    apply (rounded_nearly n 1 k 0 (inject_Z n)); [lia | lia | | reflexivity | lia].
    rewrite Z.mul_1_l, <- !Z.pow_add_r by lia. replace (52 + k)%Z with (Z.log2 n) by lia.
    replace (53 + k)%Z with (Z.succ (Z.log2 n)) by lia. lia.
Qed.

(** ** Operations *)

Lemma fdiv_nearly x y lx hx ly hy : normal x lx hx -> normal y ly hy -> (-1000 <= lx - hy)%Z -> (hx - ly <= 900)%Z ->
  normal (fdiv x y) (lx - hy - 53) (hx - ly - 51) /\ nearly (value (fdiv x y)) (value x / value y).
Proof.
  destruct x as [| | |[] mx ex]; try done. destruct y as [| | |[] my ey]; try done.
  intros [Hx Hex] [Hy Hey] Hlo Hhi. rewrite fdiv_normal by (done || lia). cbn [xorb].
  apply log2_mantissa in Hx, Hy. cbn [value].
  apply rounded_nearly; unfold quotient_shift; destruct (Z.leb_spec (Z.pos my) (Z.pos mx)); try lia.
  all: rewrite inject_Z_mult, (pow2_Z 53) by lia.
  all: replace (ex - ey - 53)%Z with (ex + - ey + - 53)%Z by lia; rewrite !pow2_add.
  all: assert (Hinv : forall e, pow2 e * pow2 (- e) == 1) by (intros e; rewrite <- pow2_add; by rewrite Z.add_opp_diag_r).
  all: assert (Hpy := pow2_pos ey); assert (Hmy : 0 < inject_Z (Z.pos my)) by (rewrite <- (Zlt_Qlt 0); lia).
  all: assert (E : pow2 (- ey) == / pow2 ey)
    by (apply (Qmult_inj_l _ _ (pow2 ey)); [lra | rewrite Hinv, Qmult_inv_r; [reflexivity | lra]]).
  all: transitivity (inject_Z (Z.pos mx) * pow2 ex * pow2 (- ey));
    [rewrite E; field; split; lra | transitivity (inject_Z (Z.pos mx) * pow2 ex * pow2 (- ey) * (pow2 53 * pow2 (- 53))); [rewrite Hinv|]; ring].
Qed.

Lemma fmul_nearly x y lx hx ly hy : normal x lx hx -> normal y ly hy -> (-1000 <= lx + ly)%Z -> (hx + hy <= 800)%Z ->
  normal (fmul x y) (lx + ly + 52) (hx + hy + 54) /\ nearly (value (fmul x y)) (value x * value y).
Proof.
  destruct x as [| | |[] mx ex]; try done. destruct y as [| | |[] my ey]; try done.
  intros [Hx Hex] [Hy Hey] Hlo Hhi. rewrite fmul_normal by (done || lia). cbn [xorb].
  pose proof (product_log2 mx my Hx Hy) as Hlog. set (k := (Z.log2 (Z.pos (mx * my)) - 52)%Z).
  pose proof (Z.log2_spec (Z.pos (mx * my)) ltac:(lia)) as Hs.
  rewrite <- (Z.mul_1_l (2 ^ k)). cbn [value]. apply rounded_nearly; try lia.
  - rewrite Z.mul_1_l, <- !Z.pow_add_r by lia. replace (52 + k)%Z with (Z.log2 (Z.pos (mx * my))) by lia.
    replace (53 + k)%Z with (Z.succ (Z.log2 (Z.pos (mx * my)))) by lia. lia.
  - rewrite Pos2Z.inj_mul, inject_Z_mult, pow2_add. change (inject_Z 1) with 1. ring.
Qed.

(** Truncation is the floor. *)
Lemma trunc_value x lo hi : normal x lo hi ->
  exists i, trunc x = Some i /\ (0 <= i)%Z /\ inject_Z i <= value x < inject_Z (i + 1).
Proof.
  destruct x as [| | |[] m e]; try done. intros _. cbn [trunc cond_Zopp value]. unfold trunc_pos.
  destruct (Z.leb_spec 0 e) as [He | He]; eexists; (split; [done|]).
  - split; [lia|]. rewrite inject_Z_plus, inject_Z_mult, pow2_Z by lia. change (inject_Z 1) with 1. lra.
  - assert (Hp : (0 < 2 ^ (- e))%Z) by lia. pose proof (Z.div_mod (Z.pos m) (2 ^ (- e)) ltac:(lia)).
    pose proof (Z.mod_pos_bound (Z.pos m) _ Hp). set (i := (Z.pos m / 2 ^ (- e))%Z) in *.
    split; [apply Z.div_pos; lia|].
    assert (Hinv : pow2 e * pow2 (- e) == 1) by (rewrite <- pow2_add; by rewrite Z.add_opp_diag_r).
    pose proof (pow2_pos (- e)) as Hpe. pose proof (pow2_pos e).
    assert (Hfl : (i * 2 ^ (- e) <= Z.pos m)%Z) by lia. assert (Hce : (Z.pos m < (i + 1) * 2 ^ (- e))%Z) by lia.
    rewrite Zle_Qle, inject_Z_mult, pow2_Z in Hfl by lia. rewrite Zlt_Qlt, inject_Z_mult, pow2_Z in Hce by lia.
    split; [apply (Qmult_le_r _ _ (pow2 (- e)) Hpe) | apply (Qmult_lt_r _ _ (pow2 (- e)) Hpe)];
      rewrite <- Qmult_assoc, Hinv, Qmult_1_r; done.
Qed.
