(* ===== verification/Figures.v ===== *)
(** Figures derived from the counters, and their text:
    [format_bytes] and [format_duration_ns] of [common/src/byte_size.cpp], the
    rates of [common/src/stats.cpp], [LatencySample::average_ns]
    ([consumer_stats.hpp]), [QueueStatus::fill_ratio] ([transport.hpp]) and the
    [describe] functions of [common/src/shm_transport.cpp].

    Every figure is a [double]; the arithmetic is that of [Float64], and the
    properties compare what is printed with the exact quotient. *)
From Stdlib Require Import ZArith Lia Ascii SpecFloat.
From stdpp Require Import base numbers list strings pretty.
From S2P Require Import Prelude ByteSize Float64 RingBuffer PacketValidator Stats Transport.

(** ** Sizes and durations *)

Definition kUnits : list string := ["B"; "KiB"; "MiB"; "GiB"; "TiB"; "PiB"].

(** [while (bytes >= 1024.0 && unit + 1 < std::size(kUnits))]: [remaining] units follow. *)
Fixpoint scale_bytes (remaining : nat) (bytes : double) (unit : nat) : double * nat :=
  match remaining with
  | O => (bytes, unit)
  | S remaining =>
      if fgeb bytes (of_int 1024) then scale_bytes remaining (fdiv bytes (of_int 1024)) (S unit) else (bytes, unit)
  end.

Definition format_bytes (bytes : double) : string :=
  let '(bytes, unit) := scale_bytes (length kUnits - 1) bytes 0 in
  if Nat.eqb unit 0 then format_fixed 0 bytes +:+ " B"
  else format_fixed 2 bytes +:+ " " +:+ nth unit kUnits "".

Definition format_duration_ns (nanoseconds : Z) : string :=
  let ns := of_int nanoseconds in
  let abs_ns := SFabs ns in
  if fltb abs_ns (of_int 1000) then format_fixed 0 ns +:+ " ns"
  else if fltb abs_ns (of_int 1000000) then format_fixed 1 (fdiv ns (of_int 1000)) +:+ " us"
  else if fltb abs_ns (of_int 1000000000) then format_fixed 1 (fdiv ns (of_int 1000000)) +:+ " ms"
  else format_fixed 2 (fdiv ns (of_int 1000000000)) +:+ " s".

(** ** Rates and averages *)

(** [std::chrono::duration<double>(elapsed).count()] *)
Definition seconds (s : RateSample) : double := fdiv (of_int (rs_elapsed s)) (of_int 1000000000).

Definition packets_per_second (sample : RateSample) : double :=
  let s := seconds sample in
  if fltb fzero s then fdiv (of_int (rs_packets sample)) s else fzero.

Definition bytes_per_second (sample : RateSample) : double :=
  let s := seconds sample in
  if fltb fzero s then fdiv (of_int (rs_bytes sample)) s else fzero.

Definition latency_empty (l : LatencySample) : bool := Z.eqb (lat_count l) 0.

Definition average_ns (l : LatencySample) : double :=
  if Z.eqb (lat_count l) 0 then fzero else fdiv (of_int (sum_ns l)) (of_int (lat_count l)).

Definition fill_ratio (q : QueueStatus) : double :=
  if Z.eqb (capacity_bytes q) 0 then fzero else fdiv (of_int (used_bytes q)) (of_int (capacity_bytes q)).

(** ** Descriptions of the transport *)

Definition sink_describe (name : string) (p : RingProducer) : string :=
  "shm:" +:+ name +:+ " (" +:+ format_bytes (of_int (p_capacity p)) +:+ " ring)".

(** [producer_pid]: the value the relaxed load returns. *)
Definition source_describe (name : string) (ring : option RingConsumer) (producer_pid : Z) : string :=
  match ring with
  | None => "shm:" +:+ name
  | Some c =>
      "shm:" +:+ name +:+ " (" +:+ format_bytes (of_int (c_capacity c)) +:+ " ring, producer pid " +:+
      pretty producer_pid +:+ ")"
  end.

(** ** Integers as doubles *)

(** The integer a 64-bit counter is converted to: itself below [2^53]. *)
Definition nearest53 (n : Z) : Z :=
  let k := Z.max 0 (Z.log2 n - 52) in nearest_even n (2 ^ k) * 2 ^ k.

Lemma nearest53_small n : 0 <= n < 2 ^ 53 -> nearest53 n = n.
Proof.
  intros Hn. unfold nearest53. replace (Z.max 0 (Z.log2 n - 52)) with 0.
  - rewrite Z.mul_1_r. rewrite <- (Z.mul_1_r n) at 1. by apply nearest_even_exact.
  - destruct (Z.eq_dec n 0) as [-> | Hne]; [done|]. pose proof (Z.log2_lt_pow2 n 53 ltac:(lia)). lia.
Qed.

(** The double of a counter: a mantissa of 53 bits and the exponent that its
    magnitude determines. *)
Lemma of_int_counter n : 0 < n < 2 ^ 64 ->
  exists m e, of_int n = S754_finite false m e /\ Z.log2 (Z.pos m) = 52 /\ e = Z.log2 (nearest53 n) - 52 /\
    0 < nearest53 n /\ -52 <= e <= 12 /\ Z.pos m * 2 ^ Z.max 0 e = nearest53 n * 2 ^ Z.max 0 (- e).
Proof.
  intros Hn. pose proof (Z.log2_nonneg n). destruct (Z.le_gt_cases (Z.log2 n) 52) as [Hle | Hgt].
  - rewrite of_int_exact by lia.
    assert (Hlt : n < 2 ^ 53) by (apply Z.log2_lt_pow2; lia). rewrite nearest53_small by lia.
    exists (Z.to_pos (n * 2 ^ (52 - Z.log2 n))), (Z.log2 n - 52). rewrite Z2Pos.id by nia.
    rewrite Z.log2_mul_pow2, Z.max_l, Z.max_r by lia. replace (- (Z.log2 n - 52)) with (52 - Z.log2 n) by lia.
    split_and!; try done; lia.
  - assert (Hl : Z.log2 n < 64) by (apply Z.log2_lt_pow2; lia). rewrite of_int_rounded by lia.
    unfold nearest53. rewrite Z.max_r by lia. set (k := Z.log2 n - 52) in *. set (q := nearest_even n (2 ^ k)).
    assert (Hq : 2 ^ 52 <= q <= 2 ^ 53).
    { pose proof (mantissa_range n k ltac:(lia) ltac:(lia) ltac:(lia)). destruct (nearest_even_cases n (2 ^ k)); lia. }
    destruct (rounded_normal false q k Hq) as (m & e & -> & Hm & He & Hval).
    assert (Hn' : q * 2 ^ k = Z.pos m * 2 ^ e) by (rewrite <- Hval, <- Z.mul_assoc, <- Z.pow_add_r by lia; do 2 f_equal; lia).
    exists m, e. rewrite Hn', Z.log2_mul_pow2, Hm, Z.max_r, (Z.max_l 0 (- e)) by lia.
    split_and!; try done; try lia. 
Qed.

(** ** Sizes *)

Lemma fgeb_1024 m e : Z.log2 (Z.pos m) = 52 -> fgeb (S754_finite false m e) (of_int 1024) = Z.leb 10 (52 + e).
Proof.
  intros Hm. pose proof (log2_mantissa m Hm). change (of_int 1024) with (S754_finite false (2 ^ 52) (- 42)).
  rewrite fgeb_normal, fltb_normal by done.
  destruct (Z.leb_spec 10 (52 + e)) as [Hle | Hgt].
  - apply negb_true_iff, Z.ltb_ge. rewrite Z.min_r by lia. rewrite Z.sub_diag.
    pose proof (Z.pow_pos_nonneg 2 (e - -42) ltac:(lia) ltac:(lia)). nia.
  - apply negb_false_iff, Z.ltb_lt. rewrite Z.min_l, Z.sub_diag by lia.
    pose proof (Z.pow_le_mono_r 2 1 (-42 - e) ltac:(lia) ltac:(lia)). lia.
Qed.

Lemma scale_bytes_normal r m e unit : Z.log2 (Z.pos m) = 52 -> -52 <= e <= 900 ->
  let u := Z.min (Z.of_nat r) ((52 + e) / 10) in
  scale_bytes r (S754_finite false m e) unit = (S754_finite false m (e - 10 * u), (unit + Z.to_nat u)%nat).
Proof.
  intros Hm. revert e unit. induction r as [|r IH]; intros e unit He u.
  - unfold u. rewrite Z.min_l by (apply Z.div_pos; lia). cbn. by rewrite Z.sub_0_r, Nat.add_0_r.
  - cbn [scale_bytes]. rewrite fgeb_1024 by done. destruct (Z.leb_spec 10 (52 + e)) as [Hle | Hgt].
    + change (of_int 1024) with (S754_finite false (2 ^ 52) (- 42)). rewrite fdiv_pow2 by (done || lia).
      replace (e - -42 - 52) with (e - 10) by lia. rewrite IH by lia. cbv zeta.
      assert (Hu : u = 1 + Z.min (Z.of_nat r) ((52 + (e - 10)) / 10)).
      { unfold u. replace ((52 + e) / 10) with (1 + (52 + (e - 10)) / 10) by mod_lia. lia. }
      assert (0 <= (52 + (e - 10)) / 10) by (apply Z.div_pos; lia).
      rewrite Hu. f_equal; [f_equal|]; lia.
    + replace u with 0 by (unfold u; rewrite Z.div_small by lia; lia). cbn. by rewrite Z.sub_0_r, Nat.add_0_r.
Qed.

Lemma scaled_counter d m e v (u : Z) : 0 <= u -> Z.pos m * 2 ^ Z.max 0 e = v * 2 ^ Z.max 0 (- e) -> e - 10 * u < 0 ->
  scaled d m (e - 10 * u) = nearest_even (10 ^ Z.of_nat d * v) (1024 ^ u).
Proof.
  intros Hu Hv He. unfold scaled. rewrite (proj2 (Z.leb_gt _ _)), round_even_nearest by lia.
  change 1024 with (2 ^ 10). rewrite <- Z.pow_mul_r by lia. set (t := 10 ^ Z.of_nat d).
  rewrite <- (nearest_even_scale _ _ (2 ^ Z.max 0 e)) by lia.
  rewrite <- (nearest_even_scale (t * v) _ (2 ^ Z.max 0 (- e))) by lia.
  rewrite <- !Z.pow_add_r by lia. f_equal; [nia | f_equal; lia].
Qed.

(** C38. [format_bytes] on a counter prints the largest unit (up to PiB) that
    does not exceed it and the exact quotient by [1024^u], rounded half to even
    at two decimals (whole bytes exactly): the repeated division loses nothing.
    The only inexact step is the conversion of counters above [2^53]. *)
Theorem format_bytes_exact n : is_u 64 n ->
  let v := nearest53 n in
  (n < 2 ^ 53 -> v = n) /\
  exists u : nat, (u <= 5)%nat /\ (u = 0%nat \/ 1024 ^ Z.of_nat u <= v) /\ (u = 5%nat \/ v < 1024 ^ (Z.of_nat u + 1)) /\
    format_bytes (of_int n) =
      if Nat.eqb u 0 then decimal v +:+ " B"
      else fixed_text 2 (nearest_even (100 * v) (1024 ^ Z.of_nat u)) +:+ " " +:+ nth u kUnits "".
Proof.
  intros Hn v. unfold is_u in Hn. split; [intros; apply nearest53_small; lia|].
  destruct (Z.eq_dec n 0) as [-> | Hne]; [exists 0%nat; split_and!; [lia | by left | by right | by vm_compute]|].
  destruct (of_int_counter n ltac:(lia)) as (m & e & Hof & Hm & He & Hpos & Hrange & Hv). fold v in He, Hpos, Hv.
  rewrite Hof. unfold format_bytes. change (length kUnits - 1)%nat with 5%nat. rewrite scale_bytes_normal by (done || lia).
  replace (52 + e) with (Z.log2 v) by lia. set (u := Z.min (Z.of_nat 5) (Z.log2 v / 10)).
  assert (Hlog : 0 <= Z.log2 v) by apply Z.log2_nonneg. assert (Hu : 0 <= u <= 5) by (unfold u; mod_lia).
  assert (Hfrac : e - 10 * u < 0) by (unfold u; mod_lia).
  pose proof (Z.log2_spec v Hpos) as [Hlo Hhi].
  exists (Z.to_nat u). rewrite Nat.add_0_l, Z2Nat.id by lia. cbn [format_fixed].
  rewrite !(scaled_counter _ m e v u) by (assumption || lia).
  change 1024 with (2 ^ 10). rewrite <- !Z.pow_mul_r by lia. split_and!.
  - lia.
  - destruct (Z.eq_dec u 0); [left; lia | right]. apply Z.le_trans with (2 ^ Z.log2 v); [|done].
    apply Z.pow_le_mono_r; [lia | unfold u; mod_lia].
  - destruct (Z.eq_dec u 5); [left; lia | right]. apply Z.lt_le_trans with (2 ^ Z.succ (Z.log2 v)); [done|].
    apply Z.pow_le_mono_r; [lia | unfold u in *; mod_lia].
  - destruct (Nat.eqb_spec (Z.to_nat u) 0) as [E | E]; [|done].
    replace u with 0 by lia. unfold fixed_text. rewrite Z.mul_1_l. change (2 ^ (10 * 0)) with 1.
    rewrite <- (Z.mul_1_r v) at 1. by rewrite nearest_even_exact.
Qed.

Lemma format_bytes_exact_witness : format_bytes (of_int 1572864) = "1.50 MiB".
Proof.
  destruct (format_bytes_exact 1572864 ltac:(by_decide)) as (Hv & u & Hu & Hlo & Hhi & ->). rewrite (Hv eq_refl) in *.
  destruct u as [|[|[|[|[|[|u]]]]]]; [vm_compute in Hhi; intuition congruence | vm_compute in Hhi; intuition congruence | | | | | lia].
  all: try (vm_compute in Hlo; intuition congruence).
Defined.
