(* ===== verification/Cli.v ===== *)
(** Command-line parsing: [common/include/pc/cli.hpp], [common/src/cli.cpp].

    [argv[1 ..]] is a list of strings.  The parser is generic in the declared
    options ([CommandLine]); the programs' declarations are in [Options.v]. *)
From Stdlib Require Import ZArith Lia Ascii.
From stdpp Require Import base numbers list strings.
From S2P Require Import Prelude.

Record Spec := {
  sp_name : string;
  sp_short : ascii;         (* [zero] when there is none *)
  sp_value_name : string;   (* empty for flags *)
  sp_description : string;
  sp_default : string;
}.

Definition is_flag (s : Spec) : bool := String.eqb (sp_value_name s) "".

Record Entry := { en_name : string; en_value : string; en_explicit : bool }.

Record Parsed := { entries : list Entry; positionals : list string }.

Record CommandLine := {
  cl_program : string;
  cl_summary : string;
  cl_specs : list Spec;
  cl_positionals : list (string * string);
}.

(** ** Declaring *)

Definition flag (name : string) (short : ascii) (description : string) (c : CommandLine) : CommandLine := {|
  cl_program := cl_program c; cl_summary := cl_summary c;
  cl_specs := cl_specs c ++ [{| sp_name := name; sp_short := short; sp_value_name := "";
                                sp_description := description; sp_default := "" |}];
  cl_positionals := cl_positionals c |}.

Definition option_ (name : string) (short : ascii) (value_name description default_value : string) (c : CommandLine)
    : CommandLine := {|
  cl_program := cl_program c; cl_summary := cl_summary c;
  cl_specs := cl_specs c ++ [{| sp_name := name; sp_short := short; sp_value_name := value_name;
                                sp_description := description; sp_default := default_value |}];
  cl_positionals := cl_positionals c |}.

Definition positional (name description : string) (c : CommandLine) : CommandLine := {|
  cl_program := cl_program c; cl_summary := cl_summary c; cl_specs := cl_specs c;
  cl_positionals := cl_positionals c ++ [(name, description)] |}.

Definition command_line (program summary : string) : CommandLine :=
  flag "help" "h" "Show this help and exit"
    {| cl_program := program; cl_summary := summary; cl_specs := []; cl_positionals := [] |}.

(** ** Querying *)

Fixpoint value_in (es : list Entry) (name : string) : option string :=
  match es with
  | [] => None
  | e :: es => if String.eqb (en_name e) name then Some (en_value e) else value_in es name
  end.

Definition value (p : Parsed) (name : string) : option string := value_in (entries p) name.

Definition given (p : Parsed) (name : string) : bool :=
  existsb (fun e => String.eqb (en_name e) name && en_explicit e) (entries p).

(** ** Parsing *)

Fixpoint find_long (specs : list Spec) (name : string) : option Spec :=
  match specs with
  | [] => None
  | s :: specs => if String.eqb (sp_name s) name then Some s else find_long specs name
  end.

Fixpoint find_short (specs : list Spec) (c : ascii) : option Spec :=
  match specs with
  | [] => None
  | s :: specs =>
      if negb (Ascii.eqb (sp_short s) zero) && Ascii.eqb (sp_short s) c then Some s else find_short specs c
  end.

Fixpoint assign (es : list Entry) (name value : string) : list Entry :=
  match es with
  | [] => [{| en_name := name; en_value := value; en_explicit := true |}]
  | e :: es =>
      if String.eqb (en_name e) name
      then {| en_name := en_name e; en_value := value; en_explicit := true |} :: es
      else e :: assign es name value
  end.

(** The part before the first ['='], and the part behind it. *)
Fixpoint split_eq (s : string) : string * option string :=
  match s with
  | EmptyString => (EmptyString, None)
  | String c rest =>
      if Ascii.eqb c "=" then (EmptyString, Some rest)
      else let '(name, v) := split_eq rest in (String c name, v)
  end.

(** How one argument is read: as a positional, as ["--"], or as an option
    with its inline value. *)
Inductive token :=
  | Positional
  | EndOfOptions
  | Option_ (s : Spec) (inline_value : option string).

Definition read_arg (specs : list Spec) (arg : string) : outcome token :=
  match arg with
  | String "-" (String "-" EmptyString) => Ret EndOfOptions
  | String "-" (String "-" text) =>
      let '(name, inline_value) := split_eq text in
      match find_long specs name with
      | None => Throw (UsageError ("unknown option '--" +:+ name +:+ "'"))
      | Some s => Ret (Option_ s inline_value)
      end
  | String "-" (String c text) =>
      match find_short specs c with
      | None => Throw (UsageError ("unknown option '-" +:+ String c "'"))
      | Some s => Ret (Option_ s (if String.eqb text "" then None else Some text))
      end
  | _ => Ret Positional
  end.

Fixpoint parse_loop (specs : list Spec) (args : list string) (only_positionals : bool) (p : Parsed) : outcome Parsed :=
  match args with
  | [] => Ret p
  | arg :: args =>
      let as_positional := {| entries := entries p; positionals := positionals p ++ [arg] |} in
      if only_positionals then parse_loop specs args true as_positional
      else
        match read_arg specs arg with
        | Throw e => Throw e
        | Ret Positional => parse_loop specs args false as_positional
        | Ret EndOfOptions => parse_loop specs args true p
        | Ret (Option_ s inline_value) =>
            let assigned v := {| entries := assign (entries p) (sp_name s) v; positionals := positionals p |} in
            if is_flag s then
              match inline_value with
              | Some _ => Throw (UsageError ("option '--" +:+ sp_name s +:+ "' does not take a value"))
              | None => parse_loop specs args false (assigned "true")
              end
            else
              match inline_value with
              | Some v => parse_loop specs args false (assigned v)
              | None =>
                  match args with
                  | v :: args => parse_loop specs args false (assigned v)
                  | [] => Throw (UsageError ("option '--" +:+ sp_name s +:+ "' requires a value"))
                  end
              end
        end
  end.

Definition default_entries (specs : list Spec) : list Entry :=
  omap (fun s => if is_flag s then None
                 else Some {| en_name := sp_name s; en_value := sp_default s; en_explicit := false |}) specs.

Definition parse (c : CommandLine) (args : list string) : outcome Parsed :=
  p ← parse_loop (cl_specs c) args false {| entries := default_entries (cl_specs c); positionals := [] |};
  match positionals p !! length (cl_positionals c) with
  | Some extra => Throw (UsageError ("unexpected argument '" +:+ extra +:+ "'"))
  | None => Ret p
  end.

(** ** Help text *)

Definition newline : string := String "010" "".

Definition pad_right (width : nat) (s : string) : string :=
  s +:+ String.concat "" (repeat " " (width - String.length s)).

Definition help_row (left right : string) : string := "  " +:+ pad_right 26 left +:+ " " +:+ right +:+ newline.

Definition help_option (s : Spec) : string :=
  let left := if negb (Ascii.eqb (sp_short s) zero) then "-" +:+ String (sp_short s) ", --" +:+ sp_name s
              else "    --" +:+ sp_name s in
  let left := if is_flag s then left else left +:+ " <" +:+ sp_value_name s +:+ ">" in
  let right := if String.eqb (sp_default s) "" then sp_description s
               else sp_description s +:+ " (default: " +:+ sp_default s +:+ ")" in
  help_row left right.

Definition help (c : CommandLine) : string :=
  "Usage: " +:+ cl_program c +:+ " [options]"
  +:+ String.concat "" (map (fun '(name, _) => " [" +:+ name +:+ "]") (cl_positionals c))
  +:+ newline +:+ newline +:+ cl_summary c +:+ newline
  +:+ (match cl_positionals c with
       | [] => ""
       | ps => newline +:+ "Arguments:" +:+ newline
               +:+ String.concat "" (map (fun '(name, description) => help_row name description) ps)
       end)
  +:+ newline +:+ "Options:" +:+ newline +:+ String.concat "" (map help_option (cl_specs c)).

(** ** What a command line means *)

Inductive item :=
  | LongEq (s : Spec) (v : string)        (* --name=v *)
  | LongNext (s : Spec) (v : string)      (* --name v *)
  | ShortNext (s : Spec) (v : string)     (* -c v *)
  | ShortJoined (s : Spec) (v : string)   (* -cv *)
  | LongFlag (s : Spec)                   (* --name *)
  | ShortFlag (s : Spec)                  (* -c *)
  | Plain (s : string).                   (* a positional *)

Definition render (i : item) : list string :=
  match i with
  | LongEq s v => [String "-" (String "-" (sp_name s +:+ String "=" v))]
  | LongNext s v => [String "-" (String "-" (sp_name s)); v]
  | ShortNext s v => [String "-" (String (sp_short s) ""); v]
  | ShortJoined s v => [String "-" (String (sp_short s) v)]
  | LongFlag s => [String "-" (String "-" (sp_name s))]
  | ShortFlag s => [String "-" (String (sp_short s) "")]
  | Plain s => [s]
  end.

Fixpoint has_eq (s : string) : bool :=
  match s with String c s => Ascii.eqb c "=" || has_eq s | EmptyString => false end.

Definition long_ok (specs : list Spec) (s : Spec) : Prop :=
  find_long specs (sp_name s) = Some s /\ has_eq (sp_name s) = false /\ sp_name s <> "".

Definition short_ok (specs : list Spec) (s : Spec) : Prop :=
  find_short specs (sp_short s) = Some s /\ sp_short s <> "-"%char.

Definition plain_ok (s : string) : Prop :=
  match s with String "-" (String _ _) => False | _ => True end.

Definition item_ok (specs : list Spec) (i : item) : Prop :=
  match i with
  | LongEq s v | LongNext s v => long_ok specs s /\ is_flag s = false
  | ShortNext s v => short_ok specs s /\ is_flag s = false
  | ShortJoined s v => short_ok specs s /\ is_flag s = false /\ v <> ""
  | LongFlag s => long_ok specs s /\ is_flag s = true
  | ShortFlag s => short_ok specs s /\ is_flag s = true
  | Plain s => plain_ok s
  end.

(** The setting an item makes, if any, and the positional it adds, if any. *)
Definition setting (i : item) : option (string * string) :=
  match i with
  | LongEq s v | LongNext s v | ShortNext s v | ShortJoined s v => Some (sp_name s, v)
  | LongFlag s | ShortFlag s => Some (sp_name s, "true")
  | Plain _ => None
  end%string.

Definition plain (i : item) : option string := match i with Plain s => Some s | _ => None end.

Definition settings_of (items : list item) : list (string * string) := omap setting items.

Definition apply_items (p : Parsed) (items : list item) : Parsed := {|
  entries := fold_left (fun es '(name, v) => assign es name v) (settings_of items) (entries p);
  positionals := positionals p ++ omap plain items |}.

Lemma split_eq_app name v : has_eq name = false -> split_eq (name +:+ String "=" v) = (name, Some v).
Proof.
  induction name as [|c name IH]; intros H; [done|]. change (String c name +:+ String "=" v) with (String c (name +:+ String "=" v)).
  cbn [split_eq has_eq] in *. apply orb_false_iff in H as [Hc Hn]. by rewrite Hc, IH.
Qed.

Lemma split_eq_none name : has_eq name = false -> split_eq name = (name, None).
Proof.
  induction name as [|c name IH]; intros H; [done|]. cbn [split_eq has_eq] in *.
  apply orb_false_iff in H as [Hc Hn]. by rewrite Hc, IH.
Qed.

Lemma read_long specs (tail : string) :
  tail <> "" -> read_arg specs (String "-" (String "-" tail)) =
    let '(name, inline_value) := split_eq tail in
    match find_long specs name with
    | None => Throw (UsageError ("unknown option '--" +:+ name +:+ "'"))
    | Some s => Ret (Option_ s inline_value)
    end.
Proof. by destruct tail. Qed.

Lemma read_short specs c text : c <> "-"%char ->
  read_arg specs (String "-" (String c text)) =
    match find_short specs c with
    | None => Throw (UsageError ("unknown option '-" +:+ String c "'"))
    | Some s => Ret (Option_ s (if String.eqb text "" then None else Some text))
    end.
Proof. intros Hc. destruct c as [[] [] [] [] [] [] [] []]; try done. Qed.

Lemma read_plain specs s : plain_ok s -> read_arg specs s = Ret Positional.
Proof.
  intros H. destruct s as [|c [|d s]]; [done | by destruct c as [[] [] [] [] [] [] [] []] |].
  destruct c as [[] [] [] [] [] [] [] []]; done.
Qed.

Lemma parse_item specs i args p : item_ok specs i ->
  parse_loop specs (render i ++ args) false p = parse_loop specs args false (apply_items p [i]).
Proof.
  unfold apply_items, settings_of. destruct i as [s v | s v | s v | s v | s | s | s]; cbn [item_ok render app omap list_omap setting plain fold_left].
  - intros [(Hf & Heq & Hne) Hflag]. cbn [parse_loop]. rewrite read_long by (by destruct (sp_name s)).
    by rewrite split_eq_app, Hf, Hflag, app_nil_r.
  - intros [(Hf & Heq & Hne) Hflag]. cbn [parse_loop]. rewrite read_long by done.
    by rewrite split_eq_none, Hf, Hflag, app_nil_r.
  - intros [(Hf & Hc) Hflag]. cbn [parse_loop]. rewrite read_short by done. cbn [String.eqb].
    by rewrite Hf, Hflag, app_nil_r.
  - intros [(Hf & Hc) [Hflag Hne]]. cbn [parse_loop]. rewrite read_short by done.
    apply String.eqb_neq in Hne. by rewrite Hf, Hflag, Hne, app_nil_r.
  - intros [(Hf & Heq & Hne) Hflag]. cbn [parse_loop]. rewrite read_long by done.
    by rewrite split_eq_none, Hf, Hflag, app_nil_r.
  - intros [(Hf & Hc) Hflag]. cbn [parse_loop]. rewrite read_short by done. cbn [String.eqb].
    by rewrite Hf, Hflag, app_nil_r.
  - intros Hp. cbn [parse_loop]. by rewrite read_plain.
Qed.

Lemma apply_items_cons p i items : apply_items (apply_items p [i]) items = apply_items p (i :: items).
Proof.
  unfold apply_items, settings_of. cbn [entries positionals omap list_omap].
  destruct (setting i) as [[n v]|], (plain i) as [s|]; cbn [fold_left]; by rewrite <- ?app_assoc, ?app_nil_r.
Qed.

Lemma parse_items specs items args p : Forall (item_ok specs) items ->
  parse_loop specs (concat (map render items) ++ args) false p = parse_loop specs args false (apply_items p items).
Proof.
  intros Hok. revert p. induction Hok as [|i items Hi Hok IH]; intros p; cbn [map concat app].
  - unfold apply_items. cbn. rewrite app_nil_r. by destruct p.
  - by rewrite <- app_assoc, parse_item, IH, apply_items_cons by done.
Qed.

Lemma parse_rest specs rest p :
  parse_loop specs rest true p = Ret {| entries := entries p; positionals := positionals p ++ rest |}.
Proof.
  revert p. induction rest as [|s rest IH]; intros p; cbn [parse_loop].
  - rewrite app_nil_r. by destruct p.
  - rewrite IH. cbn. by rewrite <- app_assoc.
Qed.

(** The value an option has after a list of settings: the last one. *)
Definition last_setting (name : string) (start : option string) (l : list (string * string)) : option string :=
  fold_left (fun acc '(n, v) => if String.eqb n name then Some v else acc) l start.

Lemma value_assign es n v name :
  value_in (assign es n v) name = if String.eqb n name then Some v else value_in es name.
Proof.
  induction es as [|e es IH]; cbn [assign value_in en_name en_value]; [done|].
  destruct (String.eqb_spec (en_name e) n) as [<- | Hne]; cbn [value_in en_name en_value].
  - by destruct (String.eqb (en_name e) name).
  - rewrite IH. destruct (String.eqb_spec (en_name e) name) as [<- |]; [|done].
    by rewrite (proj2 (String.eqb_neq n (en_name e))).
Qed.

Lemma given_assign es n v name :
  existsb (fun e => String.eqb (en_name e) name && en_explicit e) (assign es n v)
  = String.eqb n name || existsb (fun e => String.eqb (en_name e) name && en_explicit e) es.
Proof.
  induction es as [|e es IH]; cbn [assign existsb en_name en_explicit]; [by rewrite andb_true_r|].
  destruct (String.eqb_spec (en_name e) n) as [<- | Hne]; cbn [existsb en_name en_explicit].
  - destruct (String.eqb (en_name e) name); [done|]. done.
  - rewrite IH. by destruct (String.eqb n name), (String.eqb (en_name e) name && en_explicit e).
Qed.

Lemma value_settings es l name :
  value_in (fold_left (fun es '(n, v) => assign es n v) l es) name = last_setting name (value_in es name) l.
Proof.
  revert es. induction l as [|[n v] l IH]; intros es; [done|]. cbn [fold_left]. rewrite IH, value_assign. done.
Qed.

Lemma given_settings es l name :
  existsb (fun e => String.eqb (en_name e) name && en_explicit e) (fold_left (fun es '(n, v) => assign es n v) l es)
  = existsb (fun '(n, _) => String.eqb n name) l
    || existsb (fun e => String.eqb (en_name e) name && en_explicit e) es.
Proof.
  revert es. induction l as [|[n v] l IH]; intros es; [done|]. cbn [fold_left existsb]. rewrite IH, given_assign.
  by destruct (String.eqb n name), (existsb _ l).
Qed.

Lemma default_not_given specs name :
  existsb (fun e => String.eqb (en_name e) name && en_explicit e) (default_entries specs) = false.
Proof.
  induction specs as [|s specs IH]; [done|]. unfold default_entries in *. cbn [omap list_omap].
  destruct (is_flag s); [done|]. cbn. by rewrite andb_false_r.
Qed.

Lemma default_value specs name :
  value_in (default_entries specs) name =
    sp_default <$> List.find (fun s => String.eqb (sp_name s) name && negb (is_flag s)) specs.
Proof.
  induction specs as [|s specs IH]; [done|]. unfold default_entries in *. cbn [omap list_omap List.find].
  destruct (is_flag s); cbn [value_in en_name en_value negb]; [by rewrite andb_false_r|].
  rewrite andb_true_r. by destruct (String.eqb (sp_name s) name).
Qed.

(** ** Properties *)

(** Parsing inverts writing a command line: for any declared options,
    settings in any of the five notations, mixed in any order with positional
    arguments, and everything after ["--"] as positionals, parse to exactly
    those settings and positionals; an option's value is its last setting or
    else its default, and it counts as given when it was set; too many
    positionals are refused. *)
Theorem cli_round_trip c items rest :
  Forall (item_ok (cl_specs c)) items ->
  let args := concat (map render items) ++ "--"%string :: rest in
  let ps := omap plain items ++ rest in
  match ps !! length (cl_positionals c) with
  | Some extra => parse c args = Throw (UsageError ("unexpected argument '" +:+ extra +:+ "'"))
  | None =>
      exists p, parse c args = Ret p /\ positionals p = ps /\
        (forall name, value p name = last_setting name
           (sp_default <$> List.find (fun s => String.eqb (sp_name s) name && negb (is_flag s)) (cl_specs c))
           (settings_of items)) /\
        (forall name, given p name = existsb (fun '(n, _) => String.eqb n name) (settings_of items))
  end.
Proof.
  intros Hok args ps. unfold parse, args. rewrite parse_items by done. cbn [parse_loop read_arg].
  rewrite parse_rest. cbn [mbind outcome_bind positionals apply_items entries app]. fold ps.
  destruct (ps !! length (cl_positionals c)); [done|]. eexists. split; [done|]. split; [done|]. split; intros name.
  - unfold value. cbn [entries]. by rewrite value_settings, default_value.
  - unfold given. cbn [entries]. by rewrite given_settings, default_not_given, orb_false_r.
Qed.

Definition demo_cli : CommandLine :=
  positional "size" "" (option_ "rate" "r" "pps" "" "5" (flag "wait" "w" "" (command_line "demo" ""))).

Definition demo_rate : Spec :=
  {| sp_name := "rate"; sp_short := "r"; sp_value_name := "pps"; sp_description := ""; sp_default := "5" |}.

Lemma cli_round_trip_witness :
  exists p, parse demo_cli ["--rate=7"; "-r9"; "--"; "-x"] = Ret p /\ value p "rate" = Some "9"%string /\
    given p "wait" = false /\ positionals p = ["-x"%string].
Proof.
  destruct (cli_round_trip demo_cli [LongEq demo_rate "7"; ShortJoined demo_rate "9"] ["-x"%string]) as (p & Hp & Hps & Hv & Hg).
  - repeat constructor; try discriminate.
  - exists p. split; [exact Hp|]. split; [rewrite Hv; reflexivity|]. split; [rewrite Hg; reflexivity | exact Hps].
Defined.
