(* ===== verification/Options.v ===== *)
(** The programs' options: [producer/producer_options.*],
    [consumer/consumer_options.*].

    The floating-point [--rate] is read by [double_from_chars] (Float64).
    [inr text] is the [--help] exit, with the text that is printed. *)
From Stdlib Require Import ZArith Lia Ascii.
From stdpp Require Import base numbers list strings.
From S2P Require Import Prelude ByteSize Float64 Cli Stats.

Definition kDefaultShmName : string := "/pc-ring".

Definition value_or (p : Parsed) (name fallback : string) : string := default fallback (value p name).

Definition byte_size_option (p : Parsed) (name : string) : outcome Z :=
  let text := value_or p name "" in
  match parse_byte_size text with
  | Some v => Ret v
  | None => Throw (UsageError ("--" +:+ name +:+ ": '" +:+ text +:+ "' is not a byte size (e.g. 4096, 64K, 16M)"))
  end.

Definition uint_option (p : Parsed) (name : string) : outcome Z :=
  let text := value_or p name "" in
  match parse_uint text with
  | Some v => Ret v
  | None => Throw (UsageError ("--" +:+ name +:+ ": '" +:+ text +:+ "' is not a non-negative integer"))
  end.

(** [std::chrono::milliseconds(interval)] from an unsigned 64-bit integer. *)
Definition report_interval_option (p : Parsed) : outcome Z :=
  interval ← uint_option p "report-interval";
  if Z.eqb interval 0 then Throw (UsageError "--report-interval must be positive") else Ret (i64 interval).

(** ** Producer *)

Definition producer_cli : CommandLine :=
  flag "no-keyboard" zero "Do not read keys from the terminal" (
  flag "wait-for-consumer" "w" "Do not start until a consumer attaches" (
  option_ "report-interval" zero "ms" "Statistics report period in milliseconds" "1000" (
  option_ "count" "c" "n" "Stop after this many packets, 0 = unlimited" "0" (
  option_ "rate" zero "pps" "Packets per second, 0 = as fast as possible" "0" (
  option_ "seed" zero "n" "Seed for the random generator" "1" (
  option_ "checksum" "k" "algo" "Checksum: crc32c (CPU-accelerated where available) | crc32" "crc32c" (
  option_ "generator" "g" "kind" "Payload generator: random | sequential" "random" (
  option_ "ring-size" "r" "bytes" "Ring buffer capacity (rounded up to a power of two)" "64M" (
  option_ "shm-name" "n" "name" "POSIX shared memory object name" kDefaultShmName (
  option_ "payload-size" "s" "bytes" "Payload size per packet, e.g. 1024 or 4K" "" (
  positional "payload-size" "Payload size in bytes (same as --payload-size)" (
  command_line "producer"
    ("Generates packets (header + payload) and streams them to the consumer through" +:+ newline +:+
     "a shared-memory ring buffer. Any key toggles pause; 'q' or Ctrl-C quits." +:+ newline +:+
     "Signals: SIGUSR1 pause, SIGUSR2 resume, SIGINT/SIGTERM stop."))))))))))))).

Record ProducerOptions := {
  po_payload_size : Z;
  po_shm_name : string;
  po_ring_size : Z;
  po_generator : string;
  po_checksum : string;
  po_seed : Z;
  po_rate : double;
  po_count : Z;
  po_report_interval : Z;
  po_keyboard : bool;
  po_wait_for_consumer : bool;
}.

(** A value below zero is refused; the comparison lets a NaN and [-0] pass. *)
Definition double_option (p : Parsed) (name : string) : outcome double :=
  let text := value_or p name "" in
  let refuse := Throw (UsageError ("--" +:+ name +:+ ": '" +:+ text +:+ "' is not a non-negative number")) in
  match double_from_chars text with
  | IsDouble v => if fltb v fzero then refuse else Ret v
  | NotANumber | OutOfRange => refuse
  end.

Definition payload_required : string :=
  "payload size is required (e.g. 'producer 1024' or 'producer --payload-size 4K')".

Definition payload_text (p : Parsed) : outcome (option string) :=
  match positionals p with
  | [] => Ret (value p "payload-size")
  | first :: _ =>
      if given p "payload-size"
      then Throw (UsageError "payload size given both as an argument and as --payload-size")
      else Ret (Some first)
  end.

Definition parse_producer_options (args : list string) : outcome (ProducerOptions + string) :=
  parsed ← parse producer_cli args;
  if given parsed "help" then Ret (inr (help producer_cli))
  else
    text ← payload_text parsed;
    match text with
    | None => Throw (UsageError payload_required)
    | Some text =>
        match parse_byte_size text with
        | None => Throw (UsageError ("'" +:+ text +:+ "' is not a byte size (e.g. 4096, 64K, 16M)"))
        | Some payload =>
            ring_size ← byte_size_option parsed "ring-size";
            seed ← uint_option parsed "seed";
            rate ← double_option parsed "rate";
            count ← uint_option parsed "count";
            interval ← report_interval_option parsed;
            Ret (inl {| po_payload_size := payload; po_shm_name := value_or parsed "shm-name" kDefaultShmName;
                        po_ring_size := ring_size; po_generator := value_or parsed "generator" "random";
                        po_checksum := value_or parsed "checksum" "crc32c"; po_seed := seed; po_rate := rate;
                        po_count := count; po_report_interval := interval;
                        po_keyboard := negb (given parsed "no-keyboard");
                        po_wait_for_consumer := given parsed "wait-for-consumer" |})
        end
    end.

(** ** Consumer *)

Record ConsumerOptions := {
  co_shm_name : string;
  co_pause_policy : string;
  co_report_interval : Z;
  co_max_defect_logs : Z;
  co_keyboard : bool;
  co_once : bool;
}.

Definition consumer_cli : CommandLine :=
  flag "no-keyboard" zero "Do not read keys from the terminal" (
  flag "once" "1" "Exit when the producer finishes instead of waiting for the next one" (
  option_ "log-defects" zero "n" "Print details for at most n defective packets per session" "10" (
  option_ "report-interval" zero "ms" "Statistics report period in milliseconds" "1000" (
  option_ "pause-policy" "p" "policy"
    "What happens while paused: block (producer blocks, nothing lost) | discard (drop packets)" "block" (
  option_ "shm-name" "n" "name" "POSIX shared memory object name" kDefaultShmName (
  command_line "consumer"
    ("Receives packets from the producer through a shared-memory ring buffer, verifies" +:+ newline +:+
     "their metadata and checksum and prints statistics once per report interval." +:+ newline +:+
     "Any key toggles pause; 'q' or Ctrl-C quits." +:+ newline +:+
     "Signals: SIGUSR1 pause, SIGUSR2 resume, SIGINT/SIGTERM stop."))))))).

Definition parse_consumer_options (args : list string) : outcome (ConsumerOptions + string) :=
  parsed ← parse consumer_cli args;
  if given parsed "help" then Ret (inr (help consumer_cli))
  else
    interval ← report_interval_option parsed;
    log_defects ← uint_option parsed "log-defects";
    Ret (inl {| co_shm_name := value_or parsed "shm-name" kDefaultShmName;
                co_pause_policy := value_or parsed "pause-policy" "block";
                co_report_interval := interval;
                co_max_defect_logs := u32 log_defects;
                co_keyboard := negb (given parsed "no-keyboard");
                co_once := given parsed "once" |}).

(** ** Lemmas *)

(** An option with a default always has a value: parsing only reassigns. *)
Lemma parse_loop_keeps specs n args b p p' name : (length args <= n)%nat ->
  is_Some (value_in (entries p) name) -> parse_loop specs args b p = Ret p' -> is_Some (value_in (entries p') name).
Proof.
  assert (Hassign : forall es k v, is_Some (value_in es name) -> is_Some (value_in (assign es k v) name)).
  { intros es k v H. rewrite value_assign. by destruct (String.eqb k name). }
  revert args b p. induction n as [|n IH]; intros args b p Hn Hv Hp.
  { destruct args; [|cbn in Hn; lia]. injection Hp as <-. done. }
  destruct args as [|arg args]; [injection Hp as <-; done|]. cbn [length] in Hn. cbn [parse_loop] in Hp.
  destruct b; [apply IH in Hp; [done | lia | done]|].
  destruct (read_arg specs arg) as [[| |s inline_value]|e]; [apply IH in Hp; [done | lia | done].. | | discriminate].
  destruct (is_flag s), inline_value as [v|]; [discriminate | | |].
  - apply IH in Hp; [done | lia | by apply Hassign].
  - apply IH in Hp; [done | lia | by apply Hassign].
  - destruct args as [|v args]; [discriminate|]. cbn [length] in Hn.
    apply IH in Hp; [done | lia | by apply Hassign].
Qed.

Lemma parse_keeps c args p name : is_Some (value_in (default_entries (cl_specs c)) name) ->
  parse c args = Ret p -> is_Some (value p name).
Proof.
  unfold parse. intros Hd Hp.
  destruct (parse_loop _ _ _ _) as [p1 | e] eqn:E; cbn [mbind outcome_bind] in Hp; [|discriminate].
  destruct (positionals p1 !! _); [discriminate|]. injection Hp as <-.
  eapply parse_loop_keeps in E; [exact E | done | done].
Qed.

Lemma uint_option_error p name e : uint_option p name = Throw e ->
  exists text, e = UsageError ("--" +:+ name +:+ ": '" +:+ text +:+ "' is not a non-negative integer").
Proof. unfold uint_option. destruct (parse_uint _); [discriminate|]. intros [= <-]. by eexists. Qed.

(** Reading the command line throws usage errors only. *)
Definition usage_only {A} (r : outcome A) : Prop := match r with Ret _ => True | Throw e => exists text, e = UsageError text end.

Lemma usage_bind {A B} (r : outcome A) (k : A -> outcome B) : usage_only r -> (forall a, usage_only (k a)) -> usage_only (r ≫= k).
Proof. intros Hr Hk. destruct r; [apply Hk | exact Hr]. Qed.

Lemma usage_throw {A} text : usage_only (A := A) (Throw (UsageError text)).
Proof. by exists text. Qed.

Lemma read_arg_usage specs arg : usage_only (read_arg specs arg).
Proof.
  unfold read_arg. repeat case_match; try done; by eexists.
Qed.

Lemma parse_loop_usage specs n args b p : (length args <= n)%nat -> usage_only (parse_loop specs args b p).
Proof.
  revert args b p. induction n as [|n IH]; intros [|arg args] b p Hn; cbn [length] in Hn; try lia; [done..|]. cbn [parse_loop].
  destruct b; [apply IH; lia|]. pose proof (read_arg_usage specs arg) as Hr.
  destruct (read_arg specs arg) as [[| |s inline_value]|e]; [apply IH; lia.. | | exact Hr].
  destruct (is_flag s), inline_value; try apply usage_throw; try (apply IH; lia).
  destruct args as [|v args]; [apply usage_throw | cbn [length] in Hn; apply IH; lia].
Qed.

Lemma parse_usage c args : usage_only (parse c args).
Proof.
  apply usage_bind; [by eapply parse_loop_usage|]. intros p. destruct (positionals p !! _); [apply usage_throw | done].
Qed.

Lemma uint_option_usage p name : usage_only (uint_option p name).
Proof. unfold uint_option. destruct (parse_uint _); [done | apply usage_throw]. Qed.

Lemma report_interval_usage p : usage_only (report_interval_option p).
Proof. apply usage_bind; [apply uint_option_usage|]. intros i. destruct (Z.eqb i 0); [apply usage_throw | done]. Qed.

Lemma producer_options_usage args : usage_only (parse_producer_options args).
Proof.
  apply usage_bind; [apply parse_usage|]. intros p. destruct (given p "help"); [done|].
  apply usage_bind; [unfold payload_text; destruct (positionals p), (given p "payload-size"); done || apply usage_throw|].
  intros [text|]; [|apply usage_throw]. destruct (parse_byte_size text); [|apply usage_throw].
  apply usage_bind; [unfold byte_size_option; destruct (parse_byte_size _); [done | apply usage_throw]|]. intros ring.
  apply usage_bind; [apply uint_option_usage|]. intros seed.
  apply usage_bind; [unfold double_option; repeat case_match; done || apply usage_throw|].
  intros rate. apply usage_bind; [apply uint_option_usage|]. intros count.
  by apply usage_bind; [apply report_interval_usage|].
Qed.

Lemma consumer_options_usage args : usage_only (parse_consumer_options args).
Proof.
  apply usage_bind; [apply parse_usage|]. intros p. destruct (given p "help"); [done|].
  apply usage_bind; [apply report_interval_usage|]. intros i. by apply usage_bind; [apply uint_option_usage|].
Qed.

(** What a 64-bit report interval becomes in the nanoseconds of the timer. *)
Lemma huge_interval_overflows :
  exists o, parse_consumer_options ["--report-interval=9223372036855"%string] = Ret (inl o) /\
    new_timer (co_report_interval o) 0 = None.
Proof. eexists. split; [vm_compute; reflexivity | vm_compute; reflexivity]. Qed.

(** The number of logged defects is taken modulo [2^32]. *)
Lemma huge_log_defects_is_zero :
  exists o, parse_consumer_options ["--log-defects=4294967296"%string] = Ret (inl o) /\ co_max_defect_logs o = 0.
Proof. eexists. split; [vm_compute; reflexivity | reflexivity]. Qed.

Lemma byte_size_plain text n : parse_byte_size text = Some n -> plain_ok text.
Proof.
  unfold parse_byte_size. destruct text as [|c [|d text]]; [done | by destruct c as [[] [] [] [] [] [] [] []] |].
  destruct c as [[] [] [] [] [] [] [] []]; done.
Qed.

(** The settings that are not about the payload, all at their defaults. *)
Definition at_defaults (p : Parsed) : Prop :=
  given p "help" = false /\ given p "no-keyboard" = false /\ given p "wait-for-consumer" = false /\
  value p "shm-name" = Some kDefaultShmName /\ value p "ring-size" = Some "64M"%string /\
  value p "generator" = Some "random"%string /\ value p "checksum" = Some "crc32c"%string /\
  value p "seed" = Some "1"%string /\ value p "rate" = Some "0"%string /\ value p "count" = Some "0"%string /\
  value p "report-interval" = Some "1000"%string.

Definition default_options (payload : Z) : ProducerOptions := {|
  po_payload_size := payload; po_shm_name := "/pc-ring"; po_ring_size := 64 * 2 ^ 20; po_generator := "random";
  po_checksum := "crc32c"; po_seed := 1; po_rate := fzero; po_count := 0; po_report_interval := 1000;
  po_keyboard := true; po_wait_for_consumer := false |}.

Definition payload_spec : Spec := {|
  sp_name := "payload-size"; sp_short := "s"; sp_value_name := "bytes";
  sp_description := "Payload size per packet, e.g. 1024 or 4K"; sp_default := "" |}.

Lemma options_at_defaults args p text n :
  parse producer_cli args = Ret p -> at_defaults p -> payload_text p = Ret (Some text) ->
  parse_byte_size text = Some n -> parse_producer_options args = Ret (inl (default_options n)).
Proof.
  intros Hp (Hh & Hk & Hw & Hn & Hr & Hg & Hc & Hs & Hra & Hco & Hri) Ht Hsize.
  unfold parse_producer_options. rewrite Hp. cbn [mbind outcome_bind]. rewrite Hh, Ht. cbn [mbind outcome_bind].
  unfold byte_size_option, uint_option, double_option, report_interval_option, uint_option, value_or.
  rewrite Hsize, Hr, Hs, Hra, Hco, Hri, Hn, Hg, Hc, Hk, Hw. reflexivity.
Qed.

Lemma parse_one_item i : item_ok (cl_specs producer_cli) i -> (length (omap plain [i]) <= 1)%nat ->
  parse producer_cli (render i) =
    Ret (apply_items {| entries := default_entries (cl_specs producer_cli); positionals := [] |} [i]).
Proof.
  intros Hok Hlen. unfold parse. rewrite <- (app_nil_r (render i)), parse_item by done.
  cbn [parse_loop mbind outcome_bind]. set (p := apply_items _ _).
  assert (Hps : positionals p !! length (cl_positionals producer_cli) = None).
  { apply lookup_ge_None. unfold p, apply_items. cbn [positionals app]. exact Hlen. }
  by rewrite Hps.
Qed.

Lemma payload_is_set args p : parse producer_cli args = Ret p -> is_Some (value p "payload-size").
Proof. apply parse_keeps. by eexists. Qed.

Lemma payload_text_some args p : parse producer_cli args = Ret p -> payload_text p <> Ret None.
Proof.
  intros Hp. destruct (payload_is_set args p Hp) as [t Ht]. unfold payload_text. rewrite Ht.
  destruct (positionals p); [done|]. by destruct (given p "payload-size").
Qed.

(** ** Properties *)

(** The payload size of the producer: given as an argument, as
    [--payload-size=], as [--payload-size] or as [-s], it is read the same
    way and everything else takes its documented default; an argument and an
    option together are refused; the check for a missing size can never fire,
    so that a missing size is reported as a malformed one. *)
Theorem payload_size_argument text n : parse_byte_size text = Some n ->
  let parse_options := parse_producer_options in
  parse_options [text] = Ret (inl (default_options n)) /\
  parse_options ["--payload-size=" +:+ text]%string = Ret (inl (default_options n)) /\
  parse_options ["--payload-size"%string; text] = Ret (inl (default_options n)) /\
  parse_options ["-s"%string; text] = Ret (inl (default_options n)) /\
  parse_options ["-s"%string; text; text]
    = Throw (UsageError "payload size given both as an argument and as --payload-size") /\
  (forall args p, parse producer_cli args = Ret p -> payload_text p <> Ret None) /\
  parse_options [] = Throw (UsageError "'' is not a byte size (e.g. 4096, 64K, 16M)").
Proof.
  intros Hsize parse_options. pose proof (byte_size_plain text n Hsize) as Hplain.
  assert (Hform : forall i, item_ok (cl_specs producer_cli) i -> (length (omap plain [i]) <= 1)%nat ->
    let p := apply_items {| entries := default_entries (cl_specs producer_cli); positionals := [] |} [i] in
    at_defaults p -> payload_text p = Ret (Some text) ->
    parse_options (render i) = Ret (inl (default_options n))).
  { intros i Hok Hlen p Hd Ht. apply (options_at_defaults _ p text n); auto.
    by apply parse_one_item. }
  split_and!.
  - apply (Hform (Plain text)); [done | cbn; lia | repeat split | done].
  - apply (Hform (LongEq payload_spec text)); [repeat split; discriminate | cbn; lia | repeat split | done].
  - apply (Hform (LongNext payload_spec text)); [repeat split; discriminate | cbn; lia | repeat split | done].
  - apply (Hform (ShortNext payload_spec text)); [repeat split; discriminate | cbn; lia | repeat split | done].
  - unfold parse_options, parse_producer_options.
    assert (Hp : parse producer_cli ["-s"%string; text; text] =
      Ret (apply_items {| entries := default_entries (cl_specs producer_cli); positionals := [] |} [ShortNext payload_spec text; Plain text])).
    { unfold parse. rewrite <- (app_nil_r ["-s"%string; text; text]).
      change ["-s"%string; text; text] with (concat (map render [ShortNext payload_spec text; Plain text])).
      rewrite parse_items; [done|]. repeat constructor; try done. }
    by rewrite Hp.
  - apply payload_text_some.
  - done.
Qed.

Lemma payload_size_argument_witness :
  parse_producer_options ["-s"%string; "4K"%string] = Ret (inl (default_options 4096)).
Proof.
  apply (payload_size_argument "4K" 4096); reflexivity.
Defined.
