(* ===== verification/OptionsText.v ===== *)
(** Options written as arguments and read back: [producer/producer_options.cpp],
    [consumer/consumer_options.cpp] over [CommandLine].

    A command line is a list of [Cli.item]s, each setting in one of the
    notations the parser knows; what it says is the multiset of its settings. *)
From Stdlib Require Import ZArith Lia Ascii SpecFloat.
From stdpp Require Import base numbers list strings.
From S2P Require Import Prelude ByteSize Float64 Cli Options.

(** ** Settings in any order *)

Lemma last_setting_absent name start l : name ∉ map fst l -> last_setting name start l = start.
Proof.
  revert start. induction l as [|[n v] l IH]; intros start H; [done|]. cbn [map fst] in H. apply not_elem_of_cons in H as [Hn Hl].
  cbn [last_setting fold_left]. rewrite (proj2 (String.eqb_neq n name)) by congruence. by apply IH.
Qed.

Lemma last_setting_present name v start l : NoDup (map fst l) -> (name, v) ∈ l -> last_setting name start l = Some v.
Proof.
  revert start. induction l as [|[n w] l IH]; intros start Hnd Hin; [by apply not_elem_of_nil in Hin|].
  cbn [map fst] in Hnd. apply NoDup_cons in Hnd as [Hn Hnd]. cbn [last_setting fold_left].
  apply elem_of_cons in Hin as [[= <- <-] | Hin]; [rewrite String.eqb_refl; by apply last_setting_absent | by apply IH].
Qed.

Lemma existsb_named name (l : list (string * string)) :
  existsb (fun '(n, _) => String.eqb n name) l = bool_decide (name ∈ map fst l).
Proof.
  induction l as [|[n v] l IH]; [done|]. cbn [existsb map fst]. rewrite IH.
  destruct (String.eqb_spec n name) as [-> | Hne]; cbn [orb].
  - symmetry. apply bool_decide_eq_true. by constructor.
  - apply bool_decide_ext. rewrite elem_of_cons. intuition congruence.
Qed.

(** What a command line that says [settings] parses to. *)
Record says (c : CommandLine) (settings : list (string * string)) (p : Parsed) : Prop := {
  sa_value : forall i name v, settings !! i = Some (name, v) -> value p name = Some v;
  sa_given : forall name, given p name = bool_decide (name ∈ map fst settings);
  sa_positionals : positionals p = [];
}.

Lemma parse_says c items settings :
  Forall (item_ok (cl_specs c)) items -> settings_of items ≡ₚ settings -> omap plain items = [] -> NoDup (map fst settings) ->
  exists p, parse c (concat (map render items)) = Ret p /\ says c settings p.
Proof.
  intros Hok Hperm Hplain Hnd. unfold parse. rewrite <- (app_nil_r (concat _)), parse_items by done.
  cbn [parse_loop mbind outcome_bind]. cbn [apply_items positionals app]. rewrite Hplain. cbn [lookup list_lookup].
  assert (Hnd' : NoDup (map fst (settings_of items))).
  { by rewrite Hperm. }
  eexists. split; [by rewrite lookup_nil|]. constructor; cbn [entries positionals apply_items].
  - intros i name v Hin. unfold value, apply_items. cbn [entries]. rewrite value_settings. apply last_setting_present; [done|].
    rewrite Hperm. by eapply list_elem_of_lookup_2.
  - intros name. unfold given, apply_items. cbn [entries]. rewrite given_settings, default_not_given, orb_false_r, existsb_named.
    apply bool_decide_ext. by rewrite Hperm.
  - by rewrite Hplain.
Qed.

(** ** Values as text *)

Lemma value_or_some p name v fallback : value p name = Some v -> value_or p name fallback = v.
Proof. unfold value_or. by intros ->. Qed.

Lemma uint_read p name n : is_u 64 n -> value p name = Some (to_string n) -> uint_option p name = Ret n.
Proof.
  intros Hn Hv. destruct (to_string_spec n Hn) as (Hd & Hne & Hval). unfold uint_option. rewrite (value_or_some _ _ _ _ Hv). cbv zeta.
  rewrite parse_uint_digits, Hval by done. by rewrite (proj2 (Z.leb_le _ _)) by (unfold is_u, U64_MAX in *; lia).
Qed.

Lemma byte_size_read n : is_u 64 n -> parse_byte_size (to_string n) = Some n.
Proof.
  intros Hn. destruct (to_string_spec n Hn) as (Hd & Hne & Hval).
  rewrite <- (append_nil_r (to_string n)), parse_byte_size_app, Hval by done. cbn [suffix_multiplier mbind option_bind].
  cbv zeta. rewrite Z.mul_1_r. by rewrite (proj2 (Z.leb_le _ _)) by (unfold is_u, U64_MAX in *; lia).
Qed.

Lemma interval_read p n : 0 < n < 2 ^ 63 -> value p "report-interval" = Some (to_string n) -> report_interval_option p = Ret n.
Proof.
  intros Hn Hv. unfold report_interval_option. rewrite (uint_read p _ n) by (done || (unfold is_u; lia)). cbn [mbind outcome_bind].
  rewrite (proj2 (Z.eqb_neq n 0)) by lia. by rewrite i64_small by (unfold is_i64, I64_MIN, I64_MAX; lia).
Qed.

(** A whole number below [2^53] is read as exactly that double. *)
Lemma whole_double n : 0 <= n < 2 ^ 53 -> double_from_chars (to_string n) = IsDouble (of_int n).
Proof.
  intros Hn. destruct (to_string_spec n ltac:(unfold is_u; lia)) as (Hd & Hne & Hval).
  assert (Hspan : span_digits (to_string n) = (to_string n, EmptyString)).
  { rewrite <- (append_nil_r (to_string n)) at 1. by rewrite span_digits_app. }
  assert (Hread : double_from_chars (to_string n) = read_unsigned false (to_string n)).
  { destruct (to_string n) as [|c text]; [done|]. cbn [all_digits] in Hd. apply andb_true_iff in Hd as [Hc _].
    destruct c as [[] [] [] [] [] [] [] []]; try done. }
  rewrite Hread. unfold read_unsigned. rewrite Hspan. destruct (to_string n) as [|c text] eqn:E; [done|]. cbn [read_exponent].
  rewrite Hval. cbn [digits_value String.length]. change (0 - Z.of_nat 0) with 0. unfold double_of_digits.
  destruct n as [|p|p]; [by vm_compute | | lia]. pose proof (Z.log2_nonneg (Z.pos p)).
  assert (Hlog : Z.log2 (Z.pos p) <= 52) by (assert (Z.log2 (Z.pos p) < 53); [apply Z.log2_lt_pow2; lia | lia]).
  rewrite (proj2 (Z.ltb_ge _ _)) by lia. rewrite andb_false_r. rewrite (proj2 (Z.ltb_ge _ _)) by lia. cbn [orb].
  unfold of_decimal. cbn [Z.leb Z.compare]. change (10 ^ 0) with 1. rewrite Z.mul_1_r. by rewrite of_int_exact by lia.
Qed.

Lemma rate_read p n : 0 <= n < 2 ^ 53 -> value p "rate" = Some (to_string n) -> double_option p "rate" = Ret (of_int n).
Proof.
  intros Hn Hv. unfold double_option. rewrite (value_or_some _ _ _ _ Hv). cbv zeta. rewrite whole_double by done.
  destruct (Z.eq_dec n 0) as [-> | Hne]; [by vm_compute|].
  rewrite of_int_exact; [done | lia |]. assert (Z.log2 n < 53); [apply Z.log2_lt_pow2; lia | lia].
Qed.

(** ** The programs' options as settings *)

Definition switch (on : bool) (name : string) : list (string * string) := if on then [(name, "true"%string)] else [].

Definition producer_settings (o : ProducerOptions) (rate : Z) : list (string * string) :=
  [("payload-size", to_string (po_payload_size o)); ("shm-name", po_shm_name o); ("ring-size", to_string (po_ring_size o));
   ("generator", po_generator o); ("checksum", po_checksum o); ("seed", to_string (po_seed o)); ("rate", to_string rate);
   ("count", to_string (po_count o)); ("report-interval", to_string (po_report_interval o))]%string
  ++ switch (negb (po_keyboard o)) "no-keyboard" ++ switch (po_wait_for_consumer o) "wait-for-consumer".

Definition consumer_settings (o : ConsumerOptions) : list (string * string) :=
  [("shm-name", co_shm_name o); ("pause-policy", co_pause_policy o);
   ("report-interval", to_string (co_report_interval o)); ("log-defects", to_string (co_max_defect_logs o))]%string
  ++ switch (negb (co_keyboard o)) "no-keyboard" ++ switch (co_once o) "once".

(** The values a command line can give. *)
Definition producer_writable (o : ProducerOptions) (rate : Z) : Prop :=
  is_u 64 (po_payload_size o) /\ is_u 64 (po_ring_size o) /\ is_u 64 (po_seed o) /\ is_u 64 (po_count o) /\
  0 < po_report_interval o < 2 ^ 63 /\ 0 <= rate < 2 ^ 53 /\ po_rate o = of_int rate.

Definition consumer_writable (o : ConsumerOptions) : Prop :=
  0 < co_report_interval o < 2 ^ 63 /\ is_u 32 (co_max_defect_logs o).

(** C33. Options round-trip: whatever options the producer or the consumer can
    be given, written as settings in any order and in any of the notations
    ([--name=value], [--name value], [-c value], [-cvalue]), parsing gives
    exactly those options back; nothing leaks from one setting into another. *)
Theorem options_round_trip po rate co pitems citems :
  producer_writable po rate ->
  Forall (item_ok (cl_specs producer_cli)) pitems -> settings_of pitems ≡ₚ producer_settings po rate -> omap plain pitems = [] ->
  consumer_writable co ->
  Forall (item_ok (cl_specs consumer_cli)) citems -> settings_of citems ≡ₚ consumer_settings co -> omap plain citems = [] ->
  parse_producer_options (concat (map render pitems)) = Ret (inl po) /\
  parse_consumer_options (concat (map render citems)) = Ret (inl co).
Proof.
  intros (Hp & Hr & Hs & Hc & Hi & Hrate & Edouble) Hpok Hps Hpp (Hci & Hcl) Hcok Hcs Hcp. split.
  - destruct (parse_says _ _ _ Hpok Hps Hpp) as (p & Hparse & [Hv Hg Hpos]).
    { unfold producer_settings, switch. destruct (po_keyboard po), (po_wait_for_consumer po); by_decide. }
    unfold parse_producer_options, payload_text. rewrite Hparse. cbn [mbind outcome_bind].
    rewrite Hpos, (Hv 0%nat _ _ eq_refl). cbn [mbind outcome_bind]. rewrite byte_size_read by done.
    unfold byte_size_option. rewrite (value_or_some _ _ _ _ (Hv 2%nat _ _ eq_refl)). cbv zeta. rewrite byte_size_read by done. cbn [mbind outcome_bind].
    rewrite (uint_read p _ _ Hs (Hv 5%nat _ _ eq_refl)), (rate_read p _ Hrate (Hv 6%nat _ _ eq_refl)),
      (uint_read p _ _ Hc (Hv 7%nat _ _ eq_refl)), (interval_read p _ Hi (Hv 8%nat _ _ eq_refl)).
    cbn [mbind outcome_bind]. rewrite (value_or_some _ _ _ _ (Hv 1%nat _ _ eq_refl)), (value_or_some _ _ _ _ (Hv 3%nat _ _ eq_refl)),
      (value_or_some _ _ _ _ (Hv 4%nat _ _ eq_refl)), <- Edouble, !Hg.
    destruct po as [? ? ? ? ? ? ? ? ? [] []]; reflexivity.
  - destruct (parse_says _ _ _ Hcok Hcs Hcp) as (p & Hparse & [Hv Hg Hpos]).
    { unfold consumer_settings, switch. destruct (co_keyboard co), (co_once co); by_decide. }
    unfold parse_consumer_options. rewrite Hparse. cbn [mbind outcome_bind].
    assert (Hlogs : is_u 64 (co_max_defect_logs co)) by (unfold is_u in *; lia).
    rewrite (interval_read p _ Hci (Hv 2%nat _ _ eq_refl)), (uint_read p _ _ Hlogs (Hv 3%nat _ _ eq_refl)).
    cbn [mbind outcome_bind]. rewrite (value_or_some _ _ _ _ (Hv 0%nat _ _ eq_refl)), (value_or_some _ _ _ _ (Hv 1%nat _ _ eq_refl)), u32_small, !Hg by done.
    destruct co as [? ? ? ? [] []]; reflexivity.
Qed.

(** [producer --rate=250 -c 7 -w --seed 9 --report-interval 500 --no-keyboard
    -s64 -n/a=b --ring-size=4096 -g sequential -kcrc32] and
    [consumer --log-defects=3 -1 -n /a=b -pdiscard --report-interval=500]. *)
Definition spec_of (c : CommandLine) (name : string) : Spec := default payload_spec (find_long (cl_specs c) name).

Definition demo_producer : ProducerOptions := {|
  po_payload_size := 64; po_shm_name := "/a=b"; po_ring_size := 4096; po_generator := "sequential"; po_checksum := "crc32";
  po_seed := 9; po_rate := of_int 250; po_count := 7; po_report_interval := 500; po_keyboard := false;
  po_wait_for_consumer := true |}.

Definition demo_consumer : ConsumerOptions := {|
  co_shm_name := "/a=b"; co_pause_policy := "discard"; co_report_interval := 500; co_max_defect_logs := 3;
  co_keyboard := true; co_once := true |}.

Definition demo_producer_items : list item :=
  let s := spec_of producer_cli in
  [LongEq (s "rate") "250"; ShortNext (s "count") "7"; LongNext (s "report-interval") "500"; LongFlag (s "no-keyboard");
   ShortFlag (s "wait-for-consumer"); ShortJoined (s "payload-size") "64"; ShortJoined (s "shm-name") "/a=b";
   LongEq (s "ring-size") "4096"; ShortNext (s "generator") "sequential"; ShortJoined (s "checksum") "crc32";
   LongNext (s "seed") "9"]%string.

Definition demo_consumer_items : list item :=
  let s := spec_of consumer_cli in
  [LongEq (s "log-defects") "3"; ShortFlag (s "once"); ShortNext (s "shm-name") "/a=b"; ShortJoined (s "pause-policy") "discard";
   LongEq (s "report-interval") "500"]%string.

Lemma options_round_trip_witness :
  parse_producer_options ["--rate=250"; "-c"; "7"; "--report-interval"; "500"; "--no-keyboard"; "-w"; "-s64"; "-n/a=b";
    "--ring-size=4096"; "-g"; "sequential"; "-kcrc32"; "--seed"; "9"]%string = Ret (inl demo_producer) /\
  parse_consumer_options ["--log-defects=3"; "-1"; "-n"; "/a=b"; "-pdiscard"; "--report-interval=500"]%string
    = Ret (inl demo_consumer).
Proof.
  apply (options_round_trip demo_producer 250 demo_consumer demo_producer_items demo_consumer_items).
  - repeat split; by vm_compute.
  - repeat constructor; by vm_compute.
  - exact (Permutation_app_comm (settings_of (take 5 demo_producer_items)) (settings_of (drop 5 demo_producer_items))).
  - done.
  - repeat split; by vm_compute.
  - repeat constructor; by vm_compute.
  - exact (Permutation_app_comm (settings_of (take 2 demo_consumer_items)) (settings_of (drop 2 demo_consumer_items))).
  - done.
Defined.
