(* ===== verification/RateLimiter.v ===== *)
(** Packet pacing: [producer/rate_limiter.hpp], [rate_limiter.cpp].

    Times are nanoseconds of the steady clock.  The constructor takes the rate
    as a double ([limiter_of_rate]); [new_limiter] is its part behind the
    conversion.  The clock readings and stop requests the loop sees are the
    list [polls]. *)
From Stdlib Require Import ZArith Lia.
From stdpp Require Import base numbers list.
From S2P Require Import Prelude Float64.

Record RateLimiter := { interval : Z; next_slot : Z }.

(** [positive]: [packets_per_second > 0.0]. *)
Definition new_limiter (positive : bool) (cast now : Z) : RateLimiter := {|
  interval := if positive then (if Z.eqb cast 0 then 1 else cast) else 0;
  next_slot := now |}.

(** [duration_cast<Clock::duration>(duration<double>(1.0 / packets_per_second))]:
    [None] is undefined behaviour, an interval beyond 63 bits of nanoseconds. *)
Definition rate_interval (packets_per_second : double) : option Z :=
  to_i64 (fmul (fdiv (of_int 1) packets_per_second) (of_int 1000000000)).

Definition limiter_of_rate (packets_per_second : double) (now : Z) : option RateLimiter :=
  if fltb fzero packets_per_second then
    cast ← rate_interval packets_per_second;
    Some (new_limiter true cast now)
  else Some (new_limiter false 0 now).

Definition enabled (l : RateLimiter) : bool := Z.ltb 0 (interval l).

Definition kSpinThreshold : Z := 200000.
Definition kMaxNap : Z := 20000000.

Inductive rest := Spin | Nap (nanoseconds : Z).

Definition rest_until (next now : Z) : rest :=
  let remaining := next - now in
  if Z.ltb kSpinThreshold remaining then
    let nap := remaining - kSpinThreshold / 2 in
    Nap (if Z.ltb nap kMaxNap then nap else kMaxNap)
  else Spin.

(** [while (now < next_ && !stop.stop_requested())]: each poll is the stop
    request seen and the clock read after the rest.  The result is the last
    clock reading, whether the stop request ended the loop, and the rests. *)
Fixpoint limiter_loop (next now : Z) (polls : list (bool * Z)) : option (Z * bool * list rest) :=
  if Z.ltb now next then
    match polls with
    | [] => None
    | (stop, now') :: polls =>
        if stop then Some (now, true, [])
        else
          '(last, stopped, rests) ← limiter_loop next now' polls;
          Some (last, stopped, rest_until next now :: rests)
    end
  else Some (now, false, []).

Definition wait_for_slot (l : RateLimiter) (now : Z) (polls : list (bool * Z))
    : option (Z * bool * list rest * RateLimiter) :=
  if negb (enabled l) then Some (now, false, [], l)
  else
    '(now, stopped, rests) ← limiter_loop (next_slot l) now polls;
    Some (now, stopped, rests,
          {| interval := interval l;
             next_slot := if Z.ltb (now - next_slot l) (interval l) then next_slot l + interval l
                          else now + interval l |}).

(** The signed 64-bit sums and differences of a wait, in the order of the code:
    the remaining times of the loop, the lateness, and the next slot. *)
Fixpoint loop_sums (next now : Z) (polls : list (bool * Z)) : list Z :=
  if Z.ltb now next then
    match polls with
    | (false, now') :: polls => next - now :: loop_sums next now' polls
    | _ => []
    end
  else [].

Definition wait_sums (l : RateLimiter) (now : Z) (polls : list (bool * Z)) : list Z :=
  if negb (enabled l) then []
  else
    loop_sums (next_slot l) now polls ++
    match wait_for_slot l now polls with
    | Some (now, _, _, l') => [now - next_slot l; next_slot l']
    | None => []
    end.

(** No sum of the wait overflows. *)
Definition slot_defined (l : RateLimiter) (now : Z) (polls : list (bool * Z)) : bool :=
  forallb (fun sum => bool_decide (is_i64 sum)) (wait_sums l now polls).

Lemma limiter_loop_spec next now polls last stopped rests :
  limiter_loop next now polls = Some (last, stopped, rests) ->
  (stopped = false -> next <= last) /\ Forall (fun r => match r with Nap n => 0 < n | Spin => True end) rests.
Proof.
  revert now last stopped rests. induction polls as [|[stop now'] polls IH]; intros now last stopped rests H;
    cbn [limiter_loop] in H; destruct (Z.ltb_spec now next) as [Hlt | Hge]; try discriminate.
  - injection H as <- <- <-. split; [lia | constructor].
  - destruct stop; [by injection H as <- <- <-|].
    destruct (limiter_loop next now' polls) as [[[l s] rs]|] eqn:E; cbn [mbind option_bind] in H; [|discriminate].
    injection H as <- <- <-. destruct (IH _ _ _ _ E) as [H1 H2]. split; [done|]. constructor; [|done].
    unfold rest_until, kSpinThreshold, kMaxNap. destruct (Z.ltb_spec 200000 (next - now)); [|done].
    change (200000 / 2) with 100000. destruct (Z.ltb_spec (next - now - 100000) 20000000); lia.
  - injection H as <- <- <-. split; [lia | constructor].
Qed.

(** A sleep never passes the slot it waits for. *)
Lemma nap_before_slot next now n : rest_until next now = Nap n -> 0 < n < next - now.
Proof.
  unfold rest_until, kSpinThreshold, kMaxNap. destruct (Z.ltb_spec 200000 (next - now)); [|discriminate].
  change (200000 / 2) with 100000. intros [= <-]. destruct (Z.ltb_spec (next - now - 100000) 20000000); lia.
Qed.

(** ** A run of slots *)

Fixpoint slots (l : RateLimiter) (waits : list (Z * list (bool * Z))) : option (list Z) :=
  match waits with
  | [] => Some []
  | (now, polls) :: waits =>
      match wait_for_slot l now polls with
      | Some (t, false, _, l) => ts ← slots l waits; Some (t :: ts)
      | _ => None
      end
  end.

Lemma wait_for_slot_spec l now polls t rests l' : enabled l = true ->
  wait_for_slot l now polls = Some (t, false, rests, l') ->
  next_slot l <= t /\ interval l' = interval l /\ t < next_slot l' <= t + interval l /\
  next_slot l + interval l <= next_slot l'.
Proof.
  intros He. unfold wait_for_slot. rewrite He. cbn [negb].
  destruct (limiter_loop _ _ _) as [[[last s] rs]|] eqn:E; cbn [mbind option_bind]; [|discriminate].
  intros [= -> -> -> <-]. apply limiter_loop_spec in E as [Hnext _]. specialize (Hnext eq_refl).
  unfold enabled in He. cbn. destruct (Z.ltb_spec (t - next_slot l) (interval l)); lia.
Qed.

Lemma slots_spec waits l ts i t : enabled l = true -> slots l waits = Some ts -> ts !! i = Some t ->
  next_slot l + Z.of_nat i * interval l <= t.
Proof.
  revert l ts i. induction waits as [|[now polls] waits IH]; intros l ts i He H Hi; cbn [slots] in H.
  { by injection H as <-. }
  destruct (wait_for_slot l now polls) as [[[[t0 []] rs] l']|] eqn:E; try discriminate. destruct (slots l' waits) as [ts'|] eqn:E2; cbn [mbind option_bind] in H; [|discriminate].
  injection H as <-. destruct (wait_for_slot_spec _ _ _ _ _ _ He E) as (H1 & H2 & H3 & H4).
  destruct i as [|i]; cbn [lookup list_lookup] in Hi.
  - injection Hi as <-. lia.
  - apply (IH l' ts' i) in Hi; [| by unfold enabled in *; rewrite H2 | done]. rewrite H2 in Hi. lia.
Qed.

Lemma slots_drop waits l ts i : enabled l = true -> slots l waits = Some ts -> (i < length ts)%nat ->
  exists l' waits', enabled l' = true /\ interval l' = interval l /\ slots l' waits' = Some (drop (S i) ts) /\
    forall t, ts !! i = Some t -> t < next_slot l'.
Proof.
  revert l ts i. induction waits as [|[now polls] waits IH]; intros l ts i He H Hi; cbn [slots] in H.
  { injection H as <-. cbn in Hi. lia. }
  destruct (wait_for_slot l now polls) as [[[[t0 []] rs] l']|] eqn:E; try discriminate. destruct (slots l' waits) as [ts'|] eqn:E2; cbn [mbind option_bind] in H; [|discriminate].
  injection H as <-. destruct (wait_for_slot_spec _ _ _ _ _ _ He E) as (H1 & H2 & H3 & H4).
  assert (He' : enabled l' = true) by (unfold enabled in *; by rewrite H2).
  destruct i as [|i]; cbn [length] in Hi.
  - exists l', waits. cbn [drop lookup list_lookup]. split_and!; try done. intros t [= <-]. lia.
  - destruct (IH l' ts' i He' E2 ltac:(lia)) as (l2 & w2 & A & B & C & F).
    exists l2, w2. split_and!; [done | congruence | done | done].
Qed.

(** ** The signed sums fit *)

(** Those of a run of waits. *)
Fixpoint pacing_sums (l : RateLimiter) (waits : list (Z * list (bool * Z))) : list Z :=
  match waits with
  | [] => []
  | (now, polls) :: waits =>
      wait_sums l now polls ++ match wait_for_slot l now polls with Some (_, _, _, l) => pacing_sums l waits | None => [] end
  end.

(** All clock readings of a wait lie in an interval. *)
Definition reads_in (lo hi : Z) (wait : Z * list (bool * Z)) : Prop :=
  lo <= wait.1 <= hi /\ Forall (fun poll => lo <= poll.2 <= hi) wait.2.

Lemma loop_sums_fit lo hi next now polls : reads_in lo hi (now, polls) -> next - lo <= I64_MAX ->
  Forall is_i64 (loop_sums next now polls) /\
  (forall last stopped rests, limiter_loop next now polls = Some (last, stopped, rests) -> lo <= last <= hi).
Proof.
  intros [Hnow Hp] Hnext. cbn [fst snd] in *. revert now Hnow. induction Hp as [|[stop now'] polls Hn' Hp IH]; intros now Hnow;
    cbn [loop_sums limiter_loop]; destruct (Z.ltb_spec now next) as [Hlt | Hge].
  - by split.
  - split; [done|]. intros last stopped rests. by intros [= <- _ _].
  - destruct stop; [split; [done|]; intros last stopped rests; by intros [= <- _ _]|].
    destruct (IH now' Hn') as [IH1 IH2]. split.
    + constructor; [|exact IH1]. unfold is_i64, I64_MIN, I64_MAX in *. lia.
    + intros last stopped rests H. destruct (limiter_loop next now' polls) as [[[last' s'] rs]|] eqn:E; cbn [mbind option_bind] in H; [|discriminate].
      injection H as <- _ _. by eapply IH2.
  - split; [done|]. intros last stopped rests. by intros [= <- _ _].
Qed.

(** The limiter has room for [k] more waits with clock readings in an interval. *)
Definition limiter_fits (lo hi k : Z) (l : RateLimiter) : Prop :=
  enabled l = true -> is_i64 lo /\ lo <= next_slot l /\
    Z.max hi (next_slot l) + k * interval l <= I64_MAX /\ Z.max hi (next_slot l) + k * interval l - lo <= I64_MAX.

Lemma limiter_fits_mono lo hi k k' l : k' <= k -> limiter_fits lo hi k l -> limiter_fits lo hi k' l.
Proof. intros Hk H He. assert (0 < interval l) by (unfold enabled in He; lia). destruct (H He) as (? & ? & ? & ?). split_and!; [done | done | nia | nia]. Qed.

Lemma wait_enabled l now polls t s rests l' : enabled l = true -> wait_for_slot l now polls = Some (t, s, rests, l') ->
  limiter_loop (next_slot l) now polls = Some (t, s, rests) /\ interval l' = interval l /\
  next_slot l' = (if Z.ltb (t - next_slot l) (interval l) then next_slot l + interval l else t + interval l).
Proof.
  intros He. unfold wait_for_slot. rewrite He. cbn [negb].
  destruct (limiter_loop _ _ _) as [[[last s'] rs]|]; cbn [mbind option_bind]; [|discriminate]. by intros [= -> -> -> <-].
Qed.

(** A wait stays within its room and leaves the rest; unless it was stopped, one
    interval past the latest reading is as far as the next slot gets. *)
Lemma wait_fits lo hi k l now polls : 0 <= k -> reads_in lo hi (now, polls) -> limiter_fits lo hi (k + 1) l ->
  Forall is_i64 (wait_sums l now polls) /\
  (forall t s rests l', wait_for_slot l now polls = Some (t, s, rests, l') ->
     limiter_fits lo hi k l' /\ (enabled l = true -> interval l' = interval l /\ lo <= next_slot l' /\ (s = false -> next_slot l' <= hi + interval l))).
Proof.
  intros Hk Hin Hfit. unfold wait_sums. destruct (enabled l) eqn:He; cbn [negb].
  2: { split; [constructor|]. intros t s rests l'. unfold wait_for_slot. rewrite He. intros [= _ _ _ <-]. split; [|done].
       intros He'. congruence. }
  destruct (Hfit He) as (Hlo & Hnext & H1 & H2). assert (0 < interval l) by (unfold enabled in He; lia).
  destruct (loop_sums_fit lo hi (next_slot l) now polls Hin ltac:(nia)) as [Hloop Hlast].
  assert (Hres : forall t s rests l', wait_for_slot l now polls = Some (t, s, rests, l') ->
    lo <= t <= hi /\ interval l' = interval l /\ lo <= next_slot l' <= Z.max hi (next_slot l) + interval l /\
    (s = false -> next_slot l' <= hi + interval l)).
  { intros t s rests l' E. destruct (wait_enabled _ _ _ _ _ _ _ He E) as (El & Ei & En). specialize (Hlast _ _ _ El).
    split_and!; [lia | lia | done | rewrite En; destruct (Z.ltb_spec (t - next_slot l) (interval l)); lia.. |].
    intros ->. apply limiter_loop_spec in El as [El _]. specialize (El eq_refl). rewrite En.
    destruct (Z.ltb_spec (t - next_slot l) (interval l)); lia. }
  split.
  - apply Forall_app. split; [exact Hloop|]. destruct (wait_for_slot l now polls) as [[[[t s] rests] l']|] eqn:E; [|constructor].
    destruct (Hres _ _ _ _ eq_refl) as (? & ? & ? & _). unfold is_i64, I64_MIN, I64_MAX in *. repeat constructor; nia.
  - intros t s rests l' E. destruct (Hres _ _ _ _ E) as (Ht & Hi & Hn & Hs). split; [|by intros _; split_and!; [done | lia | done]].
    intros _. rewrite Hi. split_and!; [done | lia | nia | nia].
Qed.

Lemma slot_defined_fits lo hi k l now polls : 0 <= k -> reads_in lo hi (now, polls) -> limiter_fits lo hi (k + 1) l ->
  slot_defined l now polls = true.
Proof.
  intros Hk Hin Hfit. unfold slot_defined. apply forallb_forall. intros x Hx. apply bool_decide_eq_true.
  destruct (wait_fits lo hi k l now polls Hk Hin Hfit) as [Hall _]. rewrite Forall_forall in Hall. by apply Hall, list_elem_of_In.
Qed.

Lemma pacing_sums_fit lo hi waits l ts : enabled l = true -> slots l waits = Some ts -> Forall (reads_in lo hi) waits -> is_i64 lo ->
  lo <= next_slot l <= hi + interval l -> hi + 2 * interval l <= I64_MAX -> hi + 2 * interval l - lo <= I64_MAX ->
  Forall is_i64 (pacing_sums l waits).
Proof.
  intros He Hs Hin Hlo. revert l ts He Hs. induction Hin as [|[now polls] waits Hw Hin IH]; intros l ts He Hs Hnext H1 H2; [constructor|].
  cbn [pacing_sums slots] in *. assert (0 < interval l) by (unfold enabled in He; lia).
  destruct (wait_fits lo hi 0 l now polls ltac:(lia) Hw) as [Hsums Hstep]; [intros _; split_and!; [done | lia..]|].
  destruct (wait_for_slot l now polls) as [[[[t []] rs] l']|]; try discriminate.
  destruct (slots l' waits) as [ts'|] eqn:E; cbn [mbind option_bind] in Hs; [|discriminate].
  destruct (Hstep _ _ _ _ eq_refl) as [_ Hn]. destruct (Hn He) as (Hi & Hlow & Hhigh). specialize (Hhigh eq_refl).
  apply Forall_app. split; [exact Hsums|]. apply (IH l' ts'); rewrite ?Hi; try done. unfold enabled in *. by rewrite Hi.
Qed.

(** ** Properties *)

(** C36. The rate is never exceeded, not even after a stall: the [i]-th slot is
    granted no earlier than [i] intervals after the limiter was created, and
    any [k + 2] consecutive slots span more than [k] intervals.  And while the
    clock's readings leave room for two intervals in 63 bits, no sum or
    difference of the waits overflows. *)
Theorem rate_is_respected positive cast created waits ts :
  enabled (new_limiter positive cast created) = true ->
  slots (new_limiter positive cast created) waits = Some ts ->
  let d := interval (new_limiter positive cast created) in
  (forall i t, ts !! i = Some t -> created + Z.of_nat i * d <= t) /\
  (forall i k a b, ts !! i = Some a -> ts !! (i + S k)%nat = Some b -> a + Z.of_nat k * d < b) /\
  (forall lo hi, Forall (reads_in lo hi) waits -> is_i64 lo -> lo <= created <= hi -> hi + 2 * d <= I64_MAX -> hi + 2 * d - lo <= I64_MAX ->
     Forall is_i64 (pacing_sums (new_limiter positive cast created) waits)).
Proof.
  intros He H d. split_and!.
  - intros i t Hi. apply (slots_spec waits _ ts i t He H Hi).
  - intros i k a b Ha Hb. apply lookup_lt_Some in Ha as Hlt.
    destruct (slots_drop waits _ ts i He H Hlt) as (l' & w' & He' & Hi' & H' & Hnext).
    specialize (Hnext a Ha). fold d in Hi'.
    pose proof (slots_spec w' l' _ k b He' H') as Hk. rewrite lookup_drop in Hk.
    replace (S i + k)%nat with (i + S k)%nat in Hk by lia. specialize (Hk Hb). rewrite Hi' in Hk. lia.
  - intros lo hi Hin Hlo Hc H1 H2. eapply pacing_sums_fit; try done. fold d.
    assert (0 < d) by (by apply Z.ltb_lt). cbn [next_slot new_limiter]. lia.
Qed.

Lemma rate_is_respected_witness : 100 + 2 * 10 <= 120 /\ 111 + 0 * 10 < 120 /\
  Forall is_i64 (pacing_sums (new_limiter true 10 100) [(100, []); (111, []); (115, [(false, 120)])]).
Proof.
  destruct (rate_is_respected true 10 100 [(100, []); (111, []); (115, [(false, 120)])] [100; 111; 120] eq_refl eq_refl) as (H1 & H2 & H3).
  split_and!; [exact (H1 2%nat 120 eq_refl) | exact (H2 1%nat 0%nat 111 120 eq_refl eq_refl)|].
  apply (H3 100 120); by_decide.
Defined.
