(* ===== verification/Accuracy.v ===== *)
(** Accuracy of what the program computes with doubles.

    [RateLimiter] converts packets per second to whole nanoseconds with two
    roundings and a truncation, the reports divide counters by an elapsed time;
    here the results are compared with the exact quotients. *)
From Stdlib Require Import ZArith Lia SpecFloat QArith Lqa.
From stdpp Require Import base numbers list strings.
From S2P Require Import Prelude ByteSize Float64 Rounding RateLimiter Stats Figures.
#[local] Open Scope Z_scope.

(** [i] is the integer quotient of [n] by [d], or one less where [d] divides [n]. *)
Definition near_quotient (i n d : Z) : Prop := i * d <= n <= (i + 1) * d.

(** Two roundings of [10^9 / p] stay within one part in [2^51]. *)
Lemma interval_value p : 0 < p < 2 ^ 53 ->
  let x := fmul (fdiv (of_int 1) (of_int p)) (of_int 1000000000) in
  normal x (-300) 300 /\
  (inject_Z 1000000000 * (1 - 4 * eps) <= value x * inject_Z p <= inject_Z 1000000000 * (1 + 4 * eps))%Q.
Proof.
  intros Hp x. destruct (of_int_value p Hp) as [Hnp Hvp]. destruct (of_int_value 1 ltac:(lia)) as [Hn1 Hv1].
  destruct (of_int_value 1000000000 ltac:(lia)) as [Hng Hvg].
  destruct (fdiv_nearly _ _ _ _ _ _ Hn1 Hnp ltac:(lia) ltac:(lia)) as [Hnq Hvq].
  destruct (fmul_nearly _ _ _ _ _ _ Hnq Hng ltac:(lia) ltac:(lia)) as [Hnx Hvx].
  fold x in Hnx, Hvx. split; [by eapply normal_mono|].
  unfold nearly in *. rewrite Hvg in Hvx. rewrite Hv1, Hvp in Hvq.
  assert (Hpq : (0 < inject_Z p)%Q) by (rewrite <- (Zlt_Qlt 0); lia).
  set (q := value (fdiv (of_int 1) (of_int p))) in *. set (v := value x) in *. set (P := inject_Z p) in *.
  assert (E : (inject_Z 1 / P * P == 1)%Q) by (field; lra).
  destruct Hvq as [Hq1 Hq2]. apply (Qmult_le_compat_r _ _ P) in Hq1, Hq2; [|lra..].
  destruct Hvx as [Hx1 Hx2]. apply (Qmult_le_compat_r _ _ P) in Hx1, Hx2; [|lra..].
  assert (Eq1 : (inject_Z 1 / P * (1 - eps) * P == 1 - eps)%Q) by (transitivity (inject_Z 1 / P * P * (1 - eps))%Q; [ring | rewrite E; ring]).
  assert (Eq2 : (inject_Z 1 / P * (1 + eps) * P == 1 + eps)%Q) by (transitivity (inject_Z 1 / P * P * (1 + eps))%Q; [ring | rewrite E; ring]).
  rewrite Eq1 in Hq1. rewrite Eq2 in Hq2. set (w := (q * P)%Q) in *.
  assert (Ex : forall c, (q * inject_Z 1000000000 * c * P == w * (inject_Z 1000000000 * c))%Q) by (intros c; unfold w; ring).
  rewrite Ex in Hx1, Hx2. unfold eps in *. change (inject_Z 1000000000) with (1000000000 # 1)%Q in *. split; lra.
Qed.

(** C37. The limiter of an integer rate [p] (packets per second, below [2^53]) is
    always built and enabled, and its interval is the exact [10^9 / p]
    truncated, or that minus one where the division is exact and the rounding
    falls below; never more, and at least one nanosecond. *)
Theorem interval_is_quotient p now : 0 < p < 2 ^ 53 ->
  exists i l, rate_interval (of_int p) = Some i /\ limiter_of_rate (of_int p) now = Some l /\
    near_quotient i (10 ^ 9) p /\ enabled l = true /\ interval l = Z.max 1 i /\ next_slot l = now.
Proof.
  intros Hp. destruct (interval_value p Hp) as [Hn Hv]. destruct (trunc_value _ _ _ Hn) as (i & Ht & Hi0 & Hi1 & Hi2).
  assert (Hbounds : near_quotient i (10 ^ 9) p).
  { unfold near_quotient. assert (Hpq : (0 < inject_Z p)%Q) by (rewrite <- (Zlt_Qlt 0); lia). set (v := value _) in *.
    apply (Qmult_le_compat_r _ _ (inject_Z p)) in Hi1; [|lra]. apply (Qmult_lt_compat_r _ _ (inject_Z p)) in Hi2; [|done].
    rewrite <- inject_Z_mult in Hi1, Hi2. change (10 ^ 9) with 1000000000.
    assert (H1 : (inject_Z (i * p) < inject_Z (1000000000 + 1))%Q)
      by (change (inject_Z (1000000000 + 1)) with (1000000001 # 1)%Q; unfold eps in *; change (inject_Z 1000000000) with (1000000000 # 1)%Q in *; lra).
    assert (H2 : (inject_Z (1000000000 - 1) < inject_Z ((i + 1) * p))%Q)
      by (change (inject_Z (1000000000 - 1)) with (999999999 # 1)%Q; unfold eps in *; change (inject_Z 1000000000) with (1000000000 # 1)%Q in *; lra).
    rewrite <- Zlt_Qlt in H1, H2. lia. }
  assert (Hcast : rate_interval (of_int p) = Some i).
  { unfold rate_interval, to_i64. rewrite Ht. cbn [mbind option_bind]. apply checked_i64_Some. unfold near_quotient, is_i64, I64_MIN, I64_MAX in *. nia. }
  destruct (of_int_value p Hp) as [Hnp _].
  assert (Hpos : fltb fzero (of_int p) = true) by (destruct (of_int p) as [| | |[] m e]; done).
  exists i, (new_limiter true i now). unfold limiter_of_rate, enabled, new_limiter. rewrite Hpos, Hcast.
  cbn [mbind option_bind interval next_slot]. split_and!; try done; try lia.
  - destruct (Z.eqb_spec i 0); apply Z.ltb_lt; lia.
  - destruct (Z.eqb_spec i 0); lia.
Qed.

Lemma interval_is_quotient_witness : rate_interval (of_int 3) = Some 333333333.
Proof. destruct (interval_is_quotient 3 0 ltac:(lia)) as (i & l & -> & _ & Hi & _). f_equal. unfold near_quotient in Hi. lia. Defined.

(** Rates that the option accepts and the limiter cannot convert: below about
    [1.1 * 10^-10] the interval exceeds 63 bits. *)
Lemma tiny_rate_overflows :
  exists x, double_from_chars "1e-10" = IsDouble x /\ limiter_of_rate x 0 = None.
Proof. eexists. split; [vm_compute; reflexivity | vm_compute; reflexivity]. Qed.

(** A NaN passes the test for negative rates and disables the limiter, an
    infinite rate paces at one nanosecond. *)
Lemma special_rates now :
  double_from_chars "nan" = IsDouble S754_nan /\ limiter_of_rate S754_nan now = Some (new_limiter false 0 now) /\
  double_from_chars "inf" = IsDouble (S754_infinity false) /\
  limiter_of_rate (S754_infinity false) now = Some (new_limiter true 1 now).
Proof. by vm_compute. Qed.

(** ** Rates of the reports *)

(** [count] divided by [elapsed] nanoseconds in seconds: two roundings. *)
Lemma rate_value count elapsed : 0 < count < 2 ^ 64 -> 0 < elapsed < 2 ^ 53 ->
  let s := fdiv (of_int elapsed) (of_int 1000000000) in let x := fdiv (of_int count) s in
  fltb fzero s = true /\ normal x (-300) 300 /\
  (inject_Z (count * 1000000000) * (1 - 4 * eps) <= value x * inject_Z elapsed
    <= inject_Z (count * 1000000000) * (1 + 4 * eps))%Q.
Proof.
  intros Hc He s x. destruct (of_int_nearly count Hc) as [Hnc Hvc]. destruct (of_int_value elapsed He) as [Hne Hve].
  destruct (of_int_value 1000000000 ltac:(lia)) as [Hng Hvg].
  destruct (fdiv_nearly _ _ _ _ _ _ Hne Hng ltac:(lia) ltac:(lia)) as [Hns Hvs]. fold s in Hns, Hvs.
  destruct (fdiv_nearly _ _ _ _ _ _ Hnc Hns ltac:(lia) ltac:(lia)) as [Hnx Hvx]. fold x in Hnx, Hvx.
  split_and!; [by destruct s as [| | |[] m e] | by eapply normal_mono |..].
  all: pose proof (normal_pos _ _ _ Hns) as Hsp; pose proof (normal_pos _ _ _ Hnx) as Hxp.
  all: unfold nearly in *; rewrite Hve, Hvg in Hvs; rewrite inject_Z_mult.
  all: set (v := value x) in *; set (t := value s) in *; set (c' := value (of_int count)) in *.
  all: destruct Hvx as [Hx1 Hx2]; apply (Qmult_le_compat_r _ _ t) in Hx1, Hx2; [|lra..].
  all: assert (E : forall d, (c' / t * d * t == c' * d)%Q) by (intros d; field; lra); rewrite E in Hx1, Hx2.
  all: destruct Hvs as [Hs1 Hs2]; apply (Qmult_le_compat_r _ _ v) in Hs1, Hs2; [|lra..].
  all: assert (Es : (t * v == v * t)%Q) by ring; rewrite Es in Hs1, Hs2; set (a := (v * t)%Q) in *.
  all: assert (Ee : forall d, (inject_Z elapsed / inject_Z 1000000000 * d * v == v * inject_Z elapsed * (d * (1 # 1000000000)))%Q)
    by (intros d; change (inject_Z 1000000000) with (1000000000 # 1)%Q; field); rewrite Ee in Hs1, Hs2.
  all: set (w := (v * inject_Z elapsed)%Q) in *; unfold eps in *; change (inject_Z 1000000000) with (1000000000 # 1)%Q in *; lra.
Qed.

(** The rates of a report: a count per second over [elapsed] nanoseconds is
    the exact quotient up to one part in [2^51], whatever the counter; it fits
    the 64-bit cast of the reports as long as the exact rate is below [2^63],
    and a sample without elapsed time or without packets has rate zero. *)
Theorem rates_are_accurate packets size elapsed : is_u 64 packets -> 0 <= elapsed < 2 ^ 53 ->
  packets * 10 ^ 9 < 2 ^ 63 * elapsed \/ elapsed = 0 ->
  let sample := {| rs_packets := packets; rs_bytes := size; rs_elapsed := elapsed |} in
  exists r, to_u64 (packets_per_second sample) = Some r /\
    (elapsed = 0 -> r = 0) /\
    (0 < elapsed -> r * elapsed * 2 ^ 51 <= packets * 10 ^ 9 * (2 ^ 51 + 1) /\
                    packets * 10 ^ 9 * (2 ^ 51 - 1) <= (r + 1) * elapsed * 2 ^ 51).
Proof.
  intros Hp He Hfit sample. unfold packets_per_second, seconds. cbn [rs_packets rs_elapsed sample].
  destruct (Z.eq_dec elapsed 0) as [-> | Hne]; [exists 0; split_and!; [by vm_compute | done | lia]|].
  destruct (Z.eq_dec packets 0) as [-> | Hnp].
  { exists 0. split_and!; [|done | lia]. destruct (of_int_value elapsed ltac:(lia)) as [Hne' _].
    destruct (of_int_value 1000000000 ltac:(lia)) as [Hng _].
    destruct (fdiv_nearly _ _ _ _ _ _ Hne' Hng ltac:(lia) ltac:(lia)) as [Hns _].
    destruct (fltb _ _); [|done]. by destruct (fdiv (of_int elapsed) _) as [| | |[] m e]. }
  destruct (rate_value packets elapsed) as (-> & Hn & Hv1 & Hv2); [unfold is_u in Hp; lia..|].
  destruct (trunc_value _ _ _ Hn) as (r & Ht & Hr0 & Hr1 & Hr2). exists r.
  assert (Heq : (0 < inject_Z elapsed)%Q) by (rewrite <- (Zlt_Qlt 0); lia).
  set (x := value _) in *. apply (Qmult_le_compat_r _ _ (inject_Z elapsed)) in Hr1; [|lra].
  apply (Qmult_lt_compat_r _ _ (inject_Z elapsed)) in Hr2; [|done]. rewrite <- inject_Z_mult in Hr1, Hr2.
  assert (Hup : r * elapsed * 2 ^ 51 <= packets * 10 ^ 9 * (2 ^ 51 + 1)).
  { rewrite Zle_Qle, inject_Z_mult, (inject_Z_mult (packets * _)).
    change (inject_Z (2 ^ 51)) with (2251799813685248 # 1)%Q. change (inject_Z (2 ^ 51 + 1)) with (2251799813685249 # 1)%Q.
    change (10 ^ 9) with 1000000000. unfold eps in *. lra. }
  assert (Hlo : packets * 10 ^ 9 * (2 ^ 51 - 1) <= (r + 1) * elapsed * 2 ^ 51).
  { rewrite Zle_Qle, inject_Z_mult, (inject_Z_mult ((r + 1) * _)).
    change (inject_Z (2 ^ 51)) with (2251799813685248 # 1)%Q. change (inject_Z (2 ^ 51 - 1)) with (2251799813685247 # 1)%Q.
    change (10 ^ 9) with 1000000000. unfold eps in *. lra. }
  split_and!; [|lia | done]. unfold to_u64. rewrite Ht. cbn [mbind option_bind].
  rewrite decide_True; [done|]. unfold is_u in *. split; [done|]. nia.
Qed.

Lemma rates_are_accurate_witness :
  exists r, to_u64 (packets_per_second {| rs_packets := 1000000; rs_bytes := 0; rs_elapsed := 3000000000 |}) = Some r /\
    333332 <= r <= 333333.
Proof.
  destruct (rates_are_accurate 1000000 0 3000000000 ltac:(by_decide) ltac:(lia) ltac:(lia)) as (r & E & _ & H).
  exists r. split; [exact E | lia].
Defined.
