(* ===== verification/Control.v ===== *)
(** Run control: [common/include/pc/control.hpp], [signal_source.*],
    [keyboard_source.*].

    [RunControl] is shared by the main loop and the control threads; each of
    its operations is one atomic access, so an execution is a sequence of
    [control_op]s.  The threads are given what their system calls return. *)
From Stdlib Require Import ZArith Lia Ascii.
From stdpp Require Import base numbers list strings.
From S2P Require Import Prelude.

Record RunControl := { stop_requested : bool; paused_word : Z }.

Definition new_control : RunControl := {| stop_requested := false; paused_word := 0 |}.

Inductive control_op := RequestStop | Pause | Resume | TogglePause.

Definition control_step (c : RunControl) (op : control_op) : RunControl :=
  match op with
  | RequestStop => {| stop_requested := true; paused_word := paused_word c |}
  | Pause => {| stop_requested := stop_requested c; paused_word := 1 |}
  | Resume => {| stop_requested := stop_requested c; paused_word := 0 |}
  | TogglePause => {| stop_requested := stop_requested c; paused_word := u32 (paused_word c ⊕ 1) |}
  end.

Definition paused (c : RunControl) : bool := negb (Z.eqb (paused_word c) 0).

(** ** The signal thread *)

Inductive signal := SIGINT | SIGTERM | SIGHUP | SIGUSR1 | SIGUSR2 | OtherSignal.

Definition signal_op (sig : signal) : option control_op :=
  match sig with
  | SIGINT | SIGTERM | SIGHUP => Some RequestStop
  | SIGUSR1 => Some Pause
  | SIGUSR2 => Some Resume
  | OtherSignal => None
  end.

(** Per turn: what [sigwait] delivers ([None] on error) and [stopping_].  The
    result is the operations performed and whether the thread has returned. *)
Fixpoint signal_run (turns : list (option signal * bool)) : list control_op * bool :=
  match turns with
  | [] => ([], false)
  | (None, _) :: turns => signal_run turns
  | (Some sig, stopping) :: turns =>
      if stopping then ([], true)
      else
        let '(ops, returned) := signal_run turns in
        (match signal_op sig with Some op => op :: ops | None => ops end, returned)
  end.

(** ** The keyboard thread *)

Definition key_op (key : ascii) : control_op :=
  if Ascii.eqb key "q" || Ascii.eqb key "Q" then RequestStop else TogglePause.

(** What [poll] and [read] report in one turn. *)
Inductive key_event :=
  | NoInput              (* poll: timeout or error *)
  | HangUp               (* POLLHUP, POLLERR or POLLNVAL *)
  | EndOfInput           (* read returns 0 *)
  | ReadError            (* read returns -1 *)
  | Key (key : ascii).

(** Per turn: the thread's own stop token and the event; [other] are the
    operations other threads perform on the control before the turn. *)
Fixpoint keyboard_run (c : RunControl) (turns : list (list control_op * bool * key_event))
    : list control_op * RunControl * bool :=
  match turns with
  | [] => ([], c, false)
  | (other, stop, event) :: turns =>
      let c := fold_left control_step other c in
      if stop || stop_requested c then ([], c, true)
      else
        match event with
        | NoInput | ReadError => keyboard_run c turns
        | HangUp | EndOfInput => ([], c, true)
        | Key key =>
            let '(ops, c, returned) := keyboard_run (control_step c (key_op key)) turns in
            (key_op key :: ops, c, returned)
        end
  end.

(** ** The signal source as an object

    [thread] errors are those of starting a [std::thread]; the message text of
    that exception is the library's. *)

Record signal_calls := {
  sc_sigmask : Z;                     (* what [pthread_sigmask] returns *)
  sc_thread : option Z;               (* the error of starting the thread *)
  sc_thread_text : string;
}.

(** What the process holds: the five signals blocked in its threads, and the
    threads it has started and not joined. *)
Record process_state := { blocked : bool; signal_thread : bool; keyboard_thread : bool }.

Definition SignalControlSource (c : signal_calls) (p : process_state) : outcome unit * process_state :=
  if negb (Z.eqb (sc_sigmask c) 0) then (Throw (SystemError (sc_sigmask c) "pthread_sigmask"), p)
  else
    let p := {| blocked := true; signal_thread := signal_thread p; keyboard_thread := keyboard_thread p |} in
    match sc_thread c with
    | Some e => (Throw (SystemError e (sc_thread_text c)), p)
    | None => (Ret tt, {| blocked := blocked p; signal_thread := true; keyboard_thread := keyboard_thread p |})
    end.

(** The destructor: [stopping_], the signal that wakes the thread, [join]. *)
Definition signal_source_destroy (p : process_state) : process_state :=
  {| blocked := blocked p; signal_thread := false; keyboard_thread := keyboard_thread p |}.

(** ** The terminal and the keyboard source as objects *)

(** [struct termios]: the fields the code writes, and all the others. *)
Record termios := { c_lflag : Z; c_vmin : Z; c_vtime : Z; c_others : list Z }.

(** The platform's flag values and what the terminal calls report ([None]: success). *)
Record terminal_calls := {
  ICANON : Z;
  ECHO : Z;
  tc_isatty : Z;
  tc_tcgetpgrp : Z;
  tc_getpgrp : Z;
  tc_getattr : option Z;
  tc_setattr : option Z;
  tc_restore : option Z;              (* the [tcsetattr] of the destructor *)
  tc_thread : option Z;
  tc_thread_text : string;
}.

Definition raw_mode (c : terminal_calls) (saved : termios) : termios := {|
  c_lflag := c_lflag saved &&& u32 (Z.lnot (ICANON c ||| ECHO c));
  c_vmin := 1; c_vtime := 0; c_others := c_others saved |}.

(** The constructor: the saved attributes, and the terminal's afterwards. *)
Definition RawTerminal (c : terminal_calls) (tty : termios) : outcome termios * termios :=
  match tc_getattr c with
  | Some e => (Throw (SystemError e "tcgetattr"), tty)
  | None =>
      let saved := tty in
      match tc_setattr c with
      | Some e => (Throw (SystemError e "tcsetattr"), tty)
      | None => (Ret saved, raw_mode c saved)
      end
  end.

Definition raw_terminal_destroy (c : terminal_calls) (saved tty : termios) : termios :=
  match tc_restore c with Some _ => tty | None => saved end.

Definition available (c : terminal_calls) : bool :=
  Z.eqb (tc_isatty c) 1 && Z.eqb (tc_tcgetpgrp c) (tc_getpgrp c).

(** The members in order: the terminal, then the thread; if the thread cannot
    be started, the terminal member is destroyed. *)
Definition KeyboardControlSource (c : terminal_calls) (tty : termios) (p : process_state)
    : outcome termios * (termios * process_state) :=
  match RawTerminal c tty with
  | (Throw e, tty) => (Throw e, (tty, p))
  | (Ret saved, tty) =>
      match tc_thread c with
      | Some e => (Throw (SystemError e (tc_thread_text c)), (raw_terminal_destroy c saved tty, p))
      | None =>
          (Ret saved, (tty, {| blocked := blocked p; signal_thread := signal_thread p; keyboard_thread := true |}))
      end
  end.

(** The members in reverse order: the thread is stopped and joined, then the
    terminal restored. *)
Definition keyboard_source_destroy (c : terminal_calls) (saved tty : termios) (p : process_state) : termios * process_state :=
  let p := {| blocked := blocked p; signal_thread := signal_thread p; keyboard_thread := false |} in
  (raw_terminal_destroy c saved tty, p).

(** The joins end: whatever the threads still observe, the keyboard thread
    returns in the turn that follows its stop request, and the signal thread on
    the signal that wakes it, without acting on it. *)
Lemma keyboard_join c other event turns :
  let '(ops, _, returned) := keyboard_run c ((other, true, event) :: turns) in ops = [] /\ returned = true.
Proof. done. Qed.

Lemma signal_join failures sig turns : signal_run (repeat (None, true) failures ++ (Some sig, true) :: turns) = ([], true).
Proof. by induction failures. Qed.

(** ** Any interleaving of the threads' operations *)

(** Paused: by the last [Pause] or [Resume], flipped by every toggle since. *)
Fixpoint paused_after (now : bool) (ops : list control_op) : bool :=
  match ops with
  | [] => now
  | Pause :: ops => paused_after true ops
  | Resume :: ops => paused_after false ops
  | TogglePause :: ops => paused_after (negb now) ops
  | RequestStop :: ops => paused_after now ops
  end.

Lemma control_run c ops : paused_word c = 0 \/ paused_word c = 1 ->
  let c' := fold_left control_step ops c in
  (paused_word c' = 0 \/ paused_word c' = 1) /\ paused c' = paused_after (paused c) ops /\
  stop_requested c' = stop_requested c || existsb (fun op => match op with RequestStop => true | _ => false end) ops.
Proof.
  revert c. induction ops as [|op ops IH]; intros c Hc; cbn [fold_left paused_after existsb].
  { by rewrite orb_false_r. }
  destruct (IH (control_step c op)) as (H1 & H2 & H3); [destruct op; cbn; auto; by destruct Hc as [-> | ->]; auto|].
  split; [done|]. rewrite H2, H3. split.
  - destruct op; try done. unfold paused. cbn. by destruct Hc as [-> | ->].
  - destruct op; cbn; [by rewrite orb_true_r | done..].
Qed.

(** The keyboard thread performs nothing after a stop request it can see. *)
Lemma keyboard_quits c other stop event turns : stop_requested (fold_left control_step other c) = true ->
  keyboard_run c ((other, stop, event) :: turns) = ([], fold_left control_step other c, true).
Proof. intros H. cbn [keyboard_run]. by rewrite H, orb_true_r. Qed.

Lemma key_q_quits c k stop other event turns :
  k = "q"%char \/ k = "Q"%char -> stop_requested c = false ->
  let '(ops, _, returned) := keyboard_run c (([], false, Key k) :: (other, stop, event) :: turns) in
  ops = [RequestStop] /\ returned = true.
Proof.
  intros Hk Hc. cbn [keyboard_run fold_left]. rewrite Hc. cbn [orb]. unfold key_op.
  destruct Hk as [-> | ->]; cbn [Ascii.eqb Bool.eqb andb orb];
    (assert (Hs : stop_requested (fold_left control_step other (control_step c RequestStop)) = true);
     [ assert (Hgen : forall d, stop_requested d = true -> stop_requested (fold_left control_step other d) = true);
       [induction other as [|o other IH]; intros d Hd; [done|]; cbn [fold_left]; apply IH; by destruct o
       |by apply Hgen]
     | rewrite Hs, orb_true_r; done ]).
Qed.
