(* ===== verification/ProducerApp.v ===== *)
(** The producer's main loop: [producer/producer_app.hpp], [producer_app.cpp].

    [run] is driven by the list of turns its environment gives it: per turn
    the stop request and the pause flag it loads, what [reserve] returns, and
    the clocks.  [RateLimiter] and the sink act through their models
    ([RateLimiter.v], [Transport.v]); the interface promise used here is that
    a reserved slot has the requested size.  Reporter calls and commits are
    the events of the run. *)
From Stdlib Require Import ZArith Lia.
From stdpp Require Import base numbers list strings.
From S2P Require Import Prelude Checksum Packet PayloadGenerator PacketBuilder PacketValidator Stats Transport RateLimiter ByteSize.

Record ProducerConfig := {
  pc_payload_size : Z;
  pc_max_packets : Z;
  pc_report_interval : Z;
  pc_wait_for_consumer : bool;
}.

Record ProducerSnapshot := {
  ps_packets : Z; ps_bytes : Z; ps_interval : RateSample; ps_queue : QueueStatus; ps_paused : bool }.

Inductive producer_event :=
  | PStateChanged (paused : bool)
  | PReport (s : ProducerSnapshot)
  | PCommit (record : bytes)
  | PSummary (packets bytes_ elapsed : Z).

(** One turn of the environment. *)
Record producer_turn := {
  pt_stop : bool;                    (* [stop_requested()] at the loop head *)
  pt_paused : bool;                  (* [control_.paused()] *)
  pt_clock : Z * list (bool * Z);    (* what the rate limiter sees *)
  pt_slot : option bytes;            (* what [reserve] returns: the slot's old bytes *)
  pt_wall_clock : Z;                 (* [wall_clock_ns()] *)
  pt_now : Z;                        (* the steady clock of the report timer *)
  pt_queue : QueueStatus;
}.

Record producer_state (G : Type) := {
  pr_gen : G;
  pr_limiter : RateLimiter;
  pr_timer : PeriodicTimer;
  pr_window : RateWindow;
  pr_started : Z;
  pr_sequence : Z;
  pr_total_bytes : Z;
  pr_was_paused : bool;
}.
Arguments pr_gen {G} _.
Arguments pr_limiter {G} _.
Arguments pr_timer {G} _.
Arguments pr_window {G} _.
Arguments pr_started {G} _.
Arguments pr_sequence {G} _.
Arguments pr_total_bytes {G} _.
Arguments pr_was_paused {G} _.

(** A run is waiting for its environment, has returned, or has met undefined
    behaviour. *)
Inductive run_result (S E : Type) :=
  | Running (s : S) (events : list E)
  | Returned (code : Z) (s : S) (events : list E)
  | Undefined.
Arguments Running {S E} _ _.
Arguments Returned {S E} _ _ _.
Arguments Undefined {S E}.

Definition prepend {S E} (es : list E) (r : run_result S E) : run_result S E :=
  match r with
  | Running s events => Running s (es ++ events)
  | Returned code s events => Returned code s (es ++ events)
  | Undefined => Undefined
  end.

Section Producer.
Context {G : Type} (gen_fill : G -> nat -> bytes * G) (checksum : IChecksum).

Definition p_report_if_due (s : producer_state G) (t : producer_turn)
    : option (list producer_event * producer_state G) :=
  match due (pr_timer s) (pt_now t) with
  | None => None
  | Some (fired, timer) =>
      let taken := window_take (pr_window s) (pt_now t) in
      Some (if fired then
              [PReport {| ps_packets := pr_sequence s; ps_bytes := pr_total_bytes s; ps_interval := taken.1;
                          ps_queue := pt_queue t; ps_paused := pr_was_paused s |}]
            else [],
            {| pr_gen := pr_gen s; pr_limiter := pr_limiter s; pr_timer := timer;
               pr_window := if fired then taken.2 else pr_window s;
               pr_started := pr_started s; pr_sequence := pr_sequence s; pr_total_bytes := pr_total_bytes s;
               pr_was_paused := pr_was_paused s |})
  end.

Definition set_paused (s : producer_state G) (p : bool) : producer_state G := {|
  pr_gen := pr_gen s; pr_limiter := pr_limiter s; pr_timer := pr_timer s; pr_window := pr_window s;
  pr_started := pr_started s; pr_sequence := pr_sequence s; pr_total_bytes := pr_total_bytes s; pr_was_paused := p |}.

Definition set_limiter (s : producer_state G) (l : RateLimiter) : producer_state G := {|
  pr_gen := pr_gen s; pr_limiter := l; pr_timer := pr_timer s; pr_window := pr_window s;
  pr_started := pr_started s; pr_sequence := pr_sequence s; pr_total_bytes := pr_total_bytes s;
  pr_was_paused := pr_was_paused s |}.

(** [++sequence; total_bytes += record_size; window.add(record_size);] *)
Definition count_packet (s : producer_state G) (gen : G) (record_size : Z) : producer_state G := {|
  pr_gen := gen; pr_limiter := pr_limiter s; pr_timer := pr_timer s;
  pr_window := window_add (pr_window s) record_size;
  pr_started := pr_started s; pr_sequence := u64 (pr_sequence s + 1);
  pr_total_bytes := u64 (pr_total_bytes s + record_size); pr_was_paused := pr_was_paused s |}.

(** The body of the loop, after the two exits at its head. *)
Inductive body_result :=
  | Next (events : list producer_event) (s : producer_state G)
  | Pacing (events : list producer_event) (s : producer_state G) (* still in [wait_for_slot] *)
  | Overflow.                                                    (* undefined behaviour *)

Definition reporting (before : list producer_event) (s : producer_state G) (t : producer_turn) : body_result :=
  match p_report_if_due s t with
  | Some (reports, s) => Next (before ++ reports) s
  | None => Overflow
  end.

Definition producer_body (record_size : Z) (s : producer_state G) (t : producer_turn) : body_result :=
  let changed := negb (Bool.eqb (pt_paused t) (pr_was_paused s)) in
  let notes := if changed then [PStateChanged (pt_paused t)] else [] in
  let s := if changed then set_paused s (pt_paused t) else s in
  if pt_paused t then reporting notes s t
  else if negb (slot_defined (pr_limiter s) (pt_clock t).1 (pt_clock t).2) then Overflow
  else
    match wait_for_slot (pr_limiter s) (pt_clock t).1 (pt_clock t).2 with
    | None => Pacing notes s
    | Some (_, _, _, limiter) =>
        let s := set_limiter s limiter in
        match pt_slot t with
        | None => reporting notes s t
        | Some slot =>
            match build gen_fill checksum slot (pr_gen s) (pr_sequence s) (pt_wall_clock t) with
            | None => Overflow
            | Some (record, gen) => reporting (notes ++ [PCommit record]) (count_packet s gen record_size) t
            end
        end
    end.

Fixpoint producer_loop (config : ProducerConfig) (record_size : Z) (turns : list producer_turn) (s : producer_state G)
    : run_result (producer_state G) producer_event :=
  match turns with
  | [] => Running s []
  | t :: turns =>
      let summary := PSummary (pr_sequence s) (pr_total_bytes s) (pt_now t - pr_started s) in
      if pt_stop t then Returned 0 s [summary]
      else if negb (Z.eqb (pc_max_packets config) 0) && Z.leb (pc_max_packets config) (pr_sequence s) then
        Returned 0 s [summary]
      else
        match producer_body record_size s t with
        | Overflow => Undefined
        | Pacing events s => Running s events
        | Next events s => prepend events (producer_loop config record_size turns s)
        end
  end.

Definition initial_producer (gen : G) (limiter : RateLimiter) (timer : PeriodicTimer) (now : Z) : producer_state G := {|
  pr_gen := gen; pr_limiter := limiter; pr_timer := timer; pr_window := new_window now;
  pr_started := now; pr_sequence := 0; pr_total_bytes := 0; pr_was_paused := false |}.

(** [run]: [attached] is what [wait_for_peer] returns, [now] the steady clock.
    Where it returns before the loop's variables exist, the state is nominal. *)
Definition run (config : ProducerConfig) (max_packet_size : Z) (attached : bool) (now : Z)
    (gen : G) (limiter : RateLimiter) (turns : list producer_turn)
    : outcome (run_result (producer_state G) producer_event) :=
  let record_size := u64 (kHeaderSize + pc_payload_size config) in
  if Z.ltb max_packet_size record_size then
    Throw (InvalidArgument ("a " +:+ to_string record_size +:+ " byte packet does not fit into the transport (max "
                            +:+ to_string max_packet_size +:+ " bytes)"))
  else
    if pc_wait_for_consumer config && negb attached then
      Ret (Returned 0 (initial_producer gen limiter {| t_period := 0; t_next := 0 |} now) [])
    else
      match new_timer (pc_report_interval config) now with
      | None => Ret Undefined
      | Some timer => Ret (producer_loop config record_size turns (initial_producer gen limiter timer now))
      end.
End Producer.

(** ** What a run commits *)

Definition commits (es : list producer_event) : list bytes :=
  omap (fun e => match e with PCommit r => Some r | _ => None end) es.

Lemma commits_app a b : commits (a ++ b) = commits a ++ commits b.
Proof. apply omap_app. Qed.

(** Records sealed with consecutive sequence numbers from [n] on. *)
Fixpoint sealed_from (find : Z -> option IChecksum) (size : nat) (n : Z) (records : list bytes) : Prop :=
  match records with
  | [] => True
  | r :: records =>
      (exists ts, is_i64 ts /\ sealed_record find (u64 n) ts r) /\ length r = size /\
      sealed_from find size (n + 1) records
  end.

Lemma sealed_from_app find size n a b :
  sealed_from find size n a -> sealed_from find size (n + Z.of_nat (length a)) b -> sealed_from find size n (a ++ b).
Proof.
  revert n. induction a as [|r a IH]; intros n Ha Hb; cbn [app sealed_from length] in *; [by rewrite Z.add_0_r in Hb|].
  destruct Ha as (H1 & H2 & H3). split_and!; [done | done|]. apply IH; [done|].
  by replace (n + 1 + Z.of_nat (length a)) with (n + Z.of_nat (S (length a))) by lia.
Qed.

(** [k] consecutive payloads of [n] bytes. *)
Fixpoint payloads {G} (gen_fill : G -> nat -> bytes * G) (n k : nat) (g : G) : list bytes :=
  match k with
  | O => []
  | S k => let '(p, g) := gen_fill g n in p :: payloads gen_fill n k g
  end.

Section ProducerSpec.
Context {G : Type} (gen_fill : G -> nat -> bytes * G) (ok : G -> Prop) `{!GeneratorLaws gen_fill ok}.
Context (find : Z -> option IChecksum) `{!RegistryLaws find} (k : Z) (checksum : IChecksum) (Hfind : find k = Some checksum).
Context (size : nat) (Hsize : (32 <= size)%nat) (Hsmall : Z.of_nat size < 2 ^ 32).
Context (period : Z).

(** What the environment guarantees about a turn. *)
Definition turn_ok (t : producer_turn) : Prop :=
  (forall slot, pt_slot t = Some slot -> length slot = size /\ all_bytes slot) /\
  is_i64 (pt_wall_clock t) /\ is_i64 (pt_now t + period).

(** The state after [n] packets. *)
Definition after (n : Z) (bytes0 : Z) (m : Z) (s : producer_state G) : Prop :=
  ok (pr_gen s) /\ pr_sequence s = u64 n /\ pr_total_bytes s = u64 (bytes0 + m * Z.of_nat size) /\ t_period (pr_timer s) = period.

Lemma report_after n b m s t : turn_ok t -> after n b m s ->
  exists reports s', p_report_if_due s t = Some (reports, s') /\ commits reports = [] /\
    after n b m s' /\ pr_gen s' = pr_gen s.
Proof.
  intros (_ & _ & Hnow) (Hok & Hs & Hb & Hp). unfold p_report_if_due, due. rewrite Hp.
  destruct (Z.ltb (pt_now t) (t_next (pr_timer s))).
  - do 2 eexists. split; [done|]. split; [done|]. by split_and!.
  - rewrite checked_i64_Some by done. cbn [mbind option_bind]. do 2 eexists. split; [done|]. by split_and!.
Qed.

(** One turn: no packet, or the next one. *)
(** What a turn may do: nothing to the stream, or the next sealed packet. *)
Definition body_ok (n b m : Z) (g : G) (result : body_result) : Prop :=
  match result with
  | Overflow => False
  | Pacing es s' => commits es = [] /\ after n b m s' /\ pr_gen s' = g
  | Next es s' =>
      (commits es = [] /\ after n b m s' /\ pr_gen s' = g) \/
      (exists r, commits es = [r] /\ sealed_from find size n [r] /\
         (drop 32 r, pr_gen s') = gen_fill g (size - 32)%nat /\ after (n + 1) b (m + 1) s')
  end.

(** The packet a turn builds in its slot. *)
Lemma built_packet n (g : G) slot wall_clock : ok g -> length slot = size -> all_bytes slot -> is_i64 wall_clock ->
  exists sealed, build gen_fill checksum slot g (u64 n) wall_clock = Some (sealed, (gen_fill g (size - 32)%nat).2) /\
    sealed_from find size n [sealed] /\ drop 32 sealed = (gen_fill g (size - 32)%nat).1.
Proof.
  intros Hok Hlen Hbytes Hwall. pose proof (rl_laws k checksum Hfind) as Hlaws.
  pose proof (build_is_seal gen_fill ok checksum slot g (u64 n) wall_clock Hok Hbytes ltac:(lia)) as Hbuild.
  pose proof (gl_bytes g (length slot - 32) Hok) as Hpb. pose proof (gl_length g (length slot - 32) Hok) as Hpl.
  rewrite Hlen in *. destruct (gen_fill g (size - 32)%nat) as [payload g'] eqn:Hfill. cbn [fst snd] in *.
  destruct Hbuild as (sealed & E & Hseal & Hdrop). exists sealed. split; [exact E|]. split; [|exact Hdrop].
  assert (Hold : length (take 32 slot) = 32%nat) by (rewrite length_take; lia).
  assert (Hsl : length sealed = size).
  { pose proof Hseal as Hs. rewrite seal_packet_app in Hs by done. apply (f_equal (fun o => match o with Some x => length x | None => 0%nat end)) in Hs.
    rewrite length_app, header_bytes_length, Hpl in Hs. lia. }
  split_and!; [|done | done]. exists wall_clock. split; [done|].
  exists k, checksum, (take 32 slot ++ payload). rewrite length_app, Hold, Hpl. split_and!; try done; try lia.
  apply Forall_app. split; [by apply Forall_take | done].
Qed.

(** The turn's pacing does not overflow. *)
Definition paces (s : producer_state G) (t : producer_turn) : Prop :=
  pt_paused t = true \/ slot_defined (pr_limiter s) (pt_clock t).1 (pt_clock t).2 = true.

Lemma body_after n b m s t : 0 <= n -> turn_ok t -> paces s t -> after n b m s ->
  body_ok n b m (pr_gen s) (producer_body gen_fill checksum (Z.of_nat size) s t).
Proof.
  intros Hn Ht Hpace Hs. unfold producer_body. set (changed := negb _). set (notes := if changed then _ else _).
  set (s1 := if changed then _ else s). assert (Hnotes : commits notes = []) by (unfold notes; by destruct changed).
  assert (Hs1 : after n b m s1 /\ pr_gen s1 = pr_gen s /\ pr_limiter s1 = pr_limiter s) by (unfold s1; by destruct changed).
  clearbody s1 notes. destruct Hs1 as (Hs1 & Hg1 & Hl1).
  assert (Hidle : forall s2, after n b m s2 -> pr_gen s2 = pr_gen s -> body_ok n b m (pr_gen s) (reporting notes s2 t)).
  { intros s2 Hs2 Hg2. unfold reporting. destruct (report_after n b m s2 t Ht Hs2) as (reports & s3 & E & Hc & Hs3 & Hg3).
    rewrite E. left. rewrite commits_app, Hnotes, Hc. split_and!; [done | done | congruence]. }
  destruct (pt_paused t) eqn:Hpaused; [by apply Hidle|].
  destruct Hpace as [Hpace | Hpace]; [congruence|]. rewrite Hl1, Hpace. cbn [negb].
  destruct (wait_for_slot _ _ _) as [[[[tm st] rs] l]|]; [|by split_and!].
  destruct (pt_slot t) as [slot|] eqn:Hslot; [|by apply Hidle].
  pose proof Ht as (Hslots & Hwall & _). destruct (Hslots slot Hslot) as [Hlen Hbytes].
  destruct Hs1 as (Hok & Hseq & Htot & Hper). cbn [pr_gen pr_sequence set_limiter]. rewrite Hseq.
  destruct (built_packet n (pr_gen s1) slot (pt_wall_clock t) Hok Hlen Hbytes Hwall) as (sealed & E & Hsealed & Hdrop). rewrite E.
  pose proof (gl_ok (pr_gen s1) (size - 32) Hok) as Hok'. unfold reporting.
  destruct (report_after (n + 1) b (m + 1) (count_packet (set_limiter s1 l) (gen_fill (pr_gen s1) (size - 32)%nat).2 (Z.of_nat size)) t Ht)
    as (reports & s3 & E3 & Hc & Hs3 & Hg3).
  { split_and!; cbn [pr_gen pr_sequence pr_total_bytes pr_timer count_packet set_limiter]; try done.
    - by rewrite Hseq, u64_add_l.
    - rewrite Htot, u64_add_l. f_equal. lia. }
  rewrite E3. right. exists sealed. rewrite !commits_app, Hnotes, Hc. split_and!; [done | exact Hsealed | | done].
  rewrite Hg3, Hdrop, <- Hg1. cbn [pr_gen count_packet]. by destruct (gen_fill (pr_gen s1) (size - 32)%nat).
Qed.

(** A turn uses up the room of one wait. *)
Lemma body_limiter lo hi j s t es s' : 0 <= j -> reads_in lo hi (pt_clock t) -> limiter_fits lo hi (j + 1) (pr_limiter s) ->
  producer_body gen_fill checksum (Z.of_nat size) s t = Next es s' -> limiter_fits lo hi j (pr_limiter s').
Proof.
  intros Hj Hin Hfit. unfold producer_body. set (changed := negb _). set (notes := if changed then _ else _).
  set (s1 := if changed then _ else s). assert (Hl1 : pr_limiter s1 = pr_limiter s) by (unfold s1; by destruct changed).
  assert (Hrep : forall before s2, reporting before s2 t = Next es s' -> pr_limiter s' = pr_limiter s2).
  { intros before s2. unfold reporting, p_report_if_due. destruct (due _ _) as [[fired timer]|]; [|discriminate]. by intros [= _ <-]. }
  destruct (pt_paused t).
  { intros H. apply Hrep in H. rewrite H, Hl1. by apply (limiter_fits_mono lo hi (j + 1)); [lia|]. }
  rewrite Hl1. destruct (slot_defined _ _ _); cbn [negb]; [|discriminate]. destruct (pt_clock t) as [now polls]. cbn [fst snd].
  destruct (wait_fits lo hi j (pr_limiter s) now polls Hj Hin Hfit) as [_ Hstep].
  destruct (wait_for_slot _ _ _) as [[[[tm st] rs] l]|]; [|discriminate]. destruct (Hstep _ _ _ _ eq_refl) as [Hl _].
  destruct (pt_slot t) as [slot|]; [destruct (build _ _ _ _ _ _) as [[record g]|]; [|discriminate]|]; intros H; apply Hrep in H; by rewrite H.
Qed.

Lemma reads_pace lo hi j s t : 0 <= j -> reads_in lo hi (pt_clock t) -> limiter_fits lo hi (j + 1) (pr_limiter s) -> paces s t.
Proof. intros Hj Hin Hfit. right. apply (slot_defined_fits lo hi j); [done | by destruct (pt_clock t) | done]. Qed.

(** The records of a result and the promise about them. *)
Definition run_ok (max n b m : Z) (g : G) (r : run_result (producer_state G) producer_event) : Prop :=
  let good (s : producer_state G) es :=
    let records := commits es in let sent := Z.of_nat (length records) in
    sealed_from find size n records /\ map (drop 32) records = payloads gen_fill (size - 32) (length records) g /\
    pr_sequence s = u64 (n + sent) /\ pr_total_bytes s = u64 (b + (m + sent) * Z.of_nat size) /\
    (max <> 0 -> n <= max -> n + sent <= max) in
  match r with
  | Undefined => False
  | Running s es => good s es
  | Returned code s es => code = 0 /\ good s es /\
      exists elapsed, last es = Some (PSummary (pr_sequence s) (pr_total_bytes s) elapsed)
  end.

Lemma run_ok_cons max n b m g g' events r rest : commits events = [r] -> sealed_from find size n [r] ->
  (drop 32 r, g') = gen_fill g (size - 32)%nat -> (max <> 0 -> n < max) ->
  run_ok max (n + 1) b (m + 1) g' rest -> run_ok max n b m g (prepend events rest).
Proof.
  intros Hev (Hseal & Hlen & _) Hfill Hmax Hrest.
  assert (Hgood : forall (s : producer_state G) es,
    sealed_from find size (n + 1) (commits es) /\
    map (drop 32) (commits es) = payloads gen_fill (size - 32) (length (commits es)) g' /\
    pr_sequence s = u64 (n + 1 + Z.of_nat (length (commits es))) /\
    pr_total_bytes s = u64 (b + (m + 1 + Z.of_nat (length (commits es))) * Z.of_nat size) /\
    (max <> 0 -> n + 1 <= max -> n + 1 + Z.of_nat (length (commits es)) <= max) ->
    let records := commits (events ++ es) in let sent := Z.of_nat (length records) in
    sealed_from find size n records /\ map (drop 32) records = payloads gen_fill (size - 32) (length records) g /\
    pr_sequence s = u64 (n + sent) /\ pr_total_bytes s = u64 (b + (m + sent) * Z.of_nat size) /\
    (max <> 0 -> n <= max -> n + sent <= max)).
  { intros s es (H1 & H2 & H3 & H4 & H5) records sent. subst records sent. rewrite commits_app, Hev.
    cbn [app length sealed_from map payloads]. rewrite <- Hfill, H2, Nat2Z.inj_succ. split_and!; try done.
    - rewrite H3. f_equal. lia.
    - rewrite H4. do 2 f_equal. lia.
    - intros Hne _. specialize (Hmax Hne). specialize (H5 Hne). lia. }
  destruct rest as [s es | code s es |]; cbn [run_ok prepend] in *; [by apply Hgood | | done].
  destruct Hrest as (-> & H & elapsed & Hlast). split; [done|]. split; [by apply Hgood|]. exists elapsed.
  by rewrite last_app, Hlast.
Qed.

Lemma run_ok_skip max n b m g events rest : commits events = [] ->
  run_ok max n b m g rest -> run_ok max n b m g (prepend events rest).
Proof.
  intros Hev Hrest. destruct rest as [s es | code s es |]; cbn [run_ok prepend] in *; rewrite ?commits_app, ?Hev; try done.
  destruct Hrest as (-> & H & elapsed & Hlast). split_and!; [done | apply H.. |]. exists elapsed. by rewrite last_app, Hlast.
Qed.

Lemma run_ok_stop max n b m s elapsed : after n b m s ->
  run_ok max n b m (pr_gen s) (Returned 0 s [PSummary (pr_sequence s) (pr_total_bytes s) elapsed]).
Proof.
  intros (Hok & Hs & Hb & _). cbn. rewrite !Z.add_0_r, Hs, Hb. split_and!; try done; try lia. by exists elapsed.
Qed.

Lemma loop_ok lo hi config n b m s turns :
  Forall (fun t => reads_in lo hi (pt_clock t)) turns -> limiter_fits lo hi (Z.of_nat (length turns)) (pr_limiter s) ->
  0 <= n -> 0 <= pc_max_packets config < 2 ^ 64 -> (pc_max_packets config <> 0 -> n <= pc_max_packets config) ->
  after n b m s -> Forall turn_ok turns ->
  run_ok (pc_max_packets config) n b m (pr_gen s)
    (producer_loop gen_fill checksum config (Z.of_nat size) turns s).
Proof.
  intros Hin Hfit Hn Hmax Hle Hs Hturns. revert n m s Hin Hfit Hn Hle Hs.
  induction Hturns as [|t turns Ht Hturns IH]; intros n m s Hin Hfit Hn Hle Hs; cbn [producer_loop].
  { destruct Hs as (Hok & Hs & Hb & _). cbn. rewrite !Z.add_0_r. split_and!; try done. }
  destruct (pt_stop t); [by apply run_ok_stop|].
  destruct (negb (Z.eqb (pc_max_packets config) 0) && Z.leb (pc_max_packets config) (pr_sequence s)) eqn:Hdone; [by apply run_ok_stop|].
  apply Forall_cons in Hin as [Hread Hin]. cbn [length] in Hfit. rewrite Nat2Z.inj_succ in Hfit.
  pose proof (body_after n b m s t Hn Ht (reads_pace lo hi _ s t (Nat2Z.is_nonneg _) Hread Hfit) Hs) as Hbody.
  assert (Hfit' := fun es s' => body_limiter lo hi (Z.of_nat (length turns)) s t es s' (Nat2Z.is_nonneg _) Hread Hfit).
  destruct (producer_body gen_fill checksum (Z.of_nat size) s t) as [es s' | es s' |]; [specialize (Hfit' _ _ eq_refl)| |done].
  - destruct Hbody as [(Hc & Hs' & Hg) | (r & Hc & Hseal & Hfill & Hs')].
    + rewrite <- Hg. apply run_ok_skip; [done|]. by apply IH.
    + assert (Hlt : pc_max_packets config <> 0 -> n < pc_max_packets config).
      { intros Hne. specialize (Hle Hne). destruct Hs as (_ & Hseq & _). rewrite Hseq in Hdone.
        rewrite u64_small in Hdone by (unfold is_u; lia). apply andb_false_iff in Hdone as [Hd | Hd]; [|lia].
        apply negb_false_iff, Z.eqb_eq in Hd. done. }
      eapply run_ok_cons; [done.. |]. apply IH; [done | done | lia | | done]. intros Hne. specialize (Hlt Hne). lia.
  - destruct Hbody as (Hc & (Hok & Hseq & Hb & _) & Hg). cbn. rewrite Hc. cbn. rewrite !Z.add_0_r. split_and!; try done.
Qed.
End ProducerSpec.

(** A payload so large that the record size wraps: the size check passes and
    the first packet is built outside its slot. *)
Lemma huge_payload_undefined :
  exists config t, pc_payload_size config = U64_MAX - 31 /\
    run fill Crc32 config 4092 true 0 (Sequential 0) (new_limiter false 0 0) [t] = Ret Undefined /\
    parse_byte_size (to_string (pc_payload_size config)) = Some (pc_payload_size config).
Proof.
  exists {| pc_payload_size := U64_MAX - 31; pc_max_packets := 0; pc_report_interval := 1000; pc_wait_for_consumer := false |}.
  exists {| pt_stop := false; pt_paused := false; pt_clock := (0, []); pt_slot := Some []; pt_wall_clock := 0; pt_now := 0;
            pt_queue := {| used_bytes := 0; capacity_bytes := 0 |} |}.
  split_and!; [done | vm_compute; reflexivity | vm_compute; reflexivity].
Qed.

(** The latest clock reading considered: 146 years in nanoseconds. *)
Definition kLatest : Z := 2 ^ 62.

(** A turn of the environment: slots of the packet's size, clocks below that. *)
Definition turn_given (size : Z) (t : producer_turn) : Prop :=
  (forall slot, pt_slot t = Some slot -> Z.of_nat (length slot) = size /\ all_bytes slot) /\
  0 <= pt_wall_clock t <= kLatest /\ 0 <= pt_now t <= kLatest /\ reads_in 0 kLatest (pt_clock t).

(** What a run is given: a generator and a checksum from their factories, a
    packet that fits the ring, a report interval of at most 2^42 milliseconds
    (139 years), and clocks and a limiter within [kLatest], whose interval
    leaves 2^61 nanoseconds for all the turns together.  ([huge_payload_undefined]
    and [Options.huge_interval_overflows] are what [main] does not exclude.) *)
Record producer_setup (m : cpu) (kind : string) (seed k : Z) (checksum : IChecksum) (config : ProducerConfig)
    (max_packet now : Z) (g : generator) (limiter : RateLimiter) (turns : list producer_turn) : Prop := {
  ps_generator : make_payload_generator kind seed = Ret g;
  ps_checksum : registry_find m k = Some checksum;
  ps_payload : 0 <= pc_payload_size config;
  ps_max_packet : max_packet <= U32_MAX;
  ps_fits : kHeaderSize + pc_payload_size config <= max_packet;
  ps_count : 0 <= pc_max_packets config < 2 ^ 64;
  ps_report_interval : 0 <= pc_report_interval config <= 2 ^ 42;
  ps_started : 0 <= now <= kLatest;
  ps_turns : Forall (turn_given (kHeaderSize + pc_payload_size config)) turns;
  ps_limiter : 0 <= next_slot limiter <= kLatest /\ Z.of_nat (length turns) * interval limiter <= 2 ^ 61;
}.

(** None of the timer's and the limiter's sums can then overflow. *)
Lemma given_ok size config t : Z.of_nat size = kHeaderSize + pc_payload_size config -> 0 <= pc_report_interval config <= 2 ^ 42 ->
  turn_given (kHeaderSize + pc_payload_size config) t -> turn_ok size (pc_report_interval config * 1000000) t.
Proof.
  intros Hsize Hint (Hslot & Hwall & Hnow & _). unfold kLatest in *. split; [|split; unfold is_i64, I64_MIN, I64_MAX; lia].
  intros slot Hs. destruct (Hslot slot Hs). split; [lia | done].
Qed.

Lemma given_room k l : 0 <= next_slot l <= kLatest -> k * interval l <= 2 ^ 61 -> limiter_fits 0 kLatest k l.
Proof. intros Hn Hk _. unfold kLatest, is_i64, I64_MIN, I64_MAX in *. lia. Qed.

(** The promise about the records a run has committed. *)
Definition sent_stream (find : Z -> option IChecksum) (size : nat) (max : Z) (g : generator)
    (s : producer_state generator) (es : list producer_event) : Prop :=
  let records := commits es in let sent := Z.of_nat (length records) in
  sealed_from find size 0 records /\
  map (drop 32) records = payloads fill (size - 32) (length records) g /\
  pr_sequence s = u64 sent /\ pr_total_bytes s = u64 (sent * Z.of_nat size) /\
  (max <> 0 -> sent <= max).

Lemma run_sound m kind seed k checksum config max_packet now g turns attached limiter :
  CpuSpec m -> producer_setup m kind seed k checksum config max_packet now g limiter turns ->
  exists r, run fill checksum config max_packet attached now g limiter turns = Ret r /\
    let good := sent_stream (registry_find m) (Z.to_nat (kHeaderSize + pc_payload_size config)) (pc_max_packets config) g in
    match r with Undefined => False | Running s es => good s es | Returned code s es => code = 0 /\ good s es end.
Proof.
  intros Hm [Hg Hfind Hp Hmaxp Hfit Hmax Hint Hstart Hgiven [Hnext Hroom]]. apply make_generator_ok in Hg.
  set (size := Z.to_nat _) in *. set (period := pc_report_interval config * 1000000).
  assert (Hper : is_i64 period /\ is_i64 (now + period)) by (unfold period, kLatest, is_i64, I64_MIN, I64_MAX in *; lia).
  destruct Hper as [Hper Hnow]. apply given_room in Hroom; [|done].
  assert (Hread : Forall (fun t => reads_in 0 kLatest (pt_clock t)) turns) by (eapply Forall_impl; [exact Hgiven | by intros t (_ & _ & _ & ?)]).
  assert (Hturns : Forall (turn_ok size period) turns).
  { eapply Forall_impl; [exact Hgiven|]. intros t. apply given_ok; [unfold size, kHeaderSize in *; lia | done]. }
  unfold run, kHeaderSize in *. rewrite u64_small by (unfold is_u, U32_MAX in *; lia).
  rewrite (proj2 (Z.ltb_ge _ _)) by lia. destruct (pc_wait_for_consumer config && negb attached).
  { eexists. split; [reflexivity|]. cbn. unfold sent_stream. cbn. split_and!; try done. lia. }
  unfold new_timer. fold period. rewrite checked_i64_Some by done.
  cbn [mbind option_bind]. rewrite checked_i64_Some by done. cbn [mbind option_bind].
  set (s0 := initial_producer g limiter {| t_period := period; t_next := now + period |} now).
  assert (Hsize : Z.of_nat size = 32 + pc_payload_size config) by (unfold size; lia).
  pose proof (loop_ok fill generator_ok (registry_find m) k checksum Hfind size ltac:(lia) ltac:(unfold U32_MAX in *; lia)
    period 0 kLatest config 0 0 0 s0 turns Hread Hroom ltac:(lia) Hmax ltac:(lia)) as Hrun.
  rewrite <- Hsize. eexists. split; [done|].
  assert (Ha : after generator_ok size period 0 0 0 s0) by (by split_and!). specialize (Hrun Ha Hturns). unfold sent_stream.
  destruct (producer_loop _ _ _ _ _ _) as [s es | code s es |]; cbn [run_ok pr_gen s0] in Hrun; [| | done];
    [|destruct Hrun as (-> & Hrun & _); split; [done|]]; destruct Hrun as (H1 & H2 & H3 & H4 & H5);
    rewrite !Z.add_0_l in *; split_and!; try done; intros Hne; (apply H5; [done | lia]).
Qed.

(** ** Properties *)

(** C10. The producer's stream, for a packet that fits the ring, clock readings
    below 2^62 nanoseconds, a report interval up to 2^42 milliseconds and a
    limiter with room for the turns ([producer_setup]).  Whatever pauses,
    full-queue timeouts, reports and stop requests the environment interleaves,
    the records that the run commits carry the sequence numbers 0, 1, 2, ...
    without gap or repetition, each one sealed, with consecutive pieces of one
    payload stream; it never sends more than the requested count, its totals are
    exact, if it returns the exit code is 0, and neither the building of a packet
    in its slot nor the sums of the report timer and of the limiter go wrong
    ([Undefined]). *)
Theorem producer_stream m kind seed k checksum config max_packet now g turns attached limiter :
  CpuSpec m -> producer_setup m kind seed k checksum config max_packet now g limiter turns ->
  let size := Z.to_nat (kHeaderSize + pc_payload_size config) in
  exists r, run fill checksum config max_packet attached now g limiter turns = Ret r /\
    match r with
    | Undefined => False
    | Running s es | Returned 0 s es =>
        let records := commits es in let sent := Z.of_nat (length records) in
        sealed_from (registry_find m) size 0 records /\
        map (drop 32) records = payloads fill (size - 32) (length records) g /\
        pr_sequence s = u64 sent /\ pr_total_bytes s = u64 (sent * Z.of_nat size) /\
        (pc_max_packets config <> 0 -> sent <= pc_max_packets config)
    | Returned _ _ _ => False
    end.
Proof.
  intros Hm Hsetup size. destruct (run_sound m kind seed k checksum config max_packet now g turns attached limiter Hm Hsetup)
    as (r & E & Hr).
  exists r. split; [done|]. by destruct r as [s es | code s es |]; [|destruct Hr as [-> Hr]|].
Qed.

Definition demo_turn (slot : option bytes) (t : Z) : producer_turn := {|
  pt_stop := false; pt_paused := false; pt_clock := (t, []); pt_slot := slot; pt_wall_clock := t; pt_now := t;
  pt_queue := {| used_bytes := 0; capacity_bytes := 4096 |} |}.

Definition demo_config : ProducerConfig := {|
  pc_payload_size := 4; pc_max_packets := 2; pc_report_interval := 1000; pc_wait_for_consumer := false |}.

Definition demo_run_turns : list producer_turn :=
  [demo_turn (Some (repeat 9 36)) 10; demo_turn None 20; demo_turn (Some (repeat 8 36)) 30; demo_turn None 40].

Lemma demo_setup m : producer_setup m "sequential" 0 1 Crc32 demo_config 4092 0 (Sequential 0) (new_limiter false 0 0) demo_run_turns.
Proof.
  constructor; try reflexivity; try by_decide.
  assert (Ht : forall slot t, match slot with Some r => length r = 36%nat /\ all_bytes r | None => True end ->
    0 <= t <= kLatest -> turn_given 36 (demo_turn slot t)).
  { intros slot t Hslot H1. split; [|split_and!; try apply H1; by constructor]. intros r Hr. cbn in Hr. rewrite Hr in Hslot. destruct Hslot as [-> Hr2]. by split. }
  unfold demo_run_turns. change (kHeaderSize + pc_payload_size demo_config) with 36.
  repeat (apply Forall_cons; split); try apply Forall_nil; try exact I; apply Ht; try done; try by_decide; split; by_decide.
Qed.

Lemma producer_stream_witness :
  exists s es, run fill Crc32 demo_config 4092 true 0 (Sequential 0) (new_limiter false 0 0) demo_run_turns
      = Ret (Returned 0 s es) /\
    sealed_from (registry_find sse42) 36 0 (commits es) /\ map (drop 32) (commits es) = [[0; 1; 2; 3]; [4; 5; 6; 7]].
Proof.
  destruct (producer_stream sse42 "sequential" 0 1 Crc32 demo_config 4092 0 (Sequential 0) demo_run_turns true
    (new_limiter false 0 0) _ (demo_setup sse42)) as (r & E & Hr).
  assert (Hc : exists s es, run fill Crc32 demo_config 4092 true 0 (Sequential 0) (new_limiter false 0 0) demo_run_turns
    = Ret (Returned 0 s es) /\ length (commits es) = 2%nat).
  { eexists _, _. split; [vm_compute; reflexivity | vm_compute; reflexivity]. }
  destruct Hc as (s & es & Hrun & Hlen). exists s, es. split; [exact Hrun|]. rewrite Hrun in E.
  assert (Hres : Returned 0 s es = r) by congruence. clear E Hrun. subst r.
  destruct Hr as (H1 & H2 & _). split; [exact H1|]. rewrite H2, Hlen. vm_compute. reflexivity.
Defined.
