(* ===== verification/ConsumerApp.v ===== *)
(** The consumer's main loop and its pause policies:
    [consumer/consumer_app.*], [consumer/pause_policy.*].

    [run_session] is driven by the turns its environment gives it: per turn
    the stop request and the pause flag, what [receive] returns, the peer
    status and the clocks.  Reporter calls, releases and processed or
    discarded records are the events of the session. *)
From Stdlib Require Import ZArith Lia.
From stdpp Require Import base numbers list strings.
From S2P Require Import Prelude Checksum Packet PacketValidator Stats Transport ProducerApp.

(** ** Pause policies *)

Inductive pause_policy := BlockingPausePolicy | DiscardingPausePolicy.

Definition make_pause_policy (name : string) : outcome pause_policy :=
  if String.eqb name "block" then Ret BlockingPausePolicy
  else if String.eqb name "discard" then Ret DiscardingPausePolicy
  else Throw (InvalidArgument ("unknown pause policy '" +:+ name +:+ "' (expected: block, discard)")).

Definition on_resume (p : pause_policy) (v : PacketValidator) : PacketValidator :=
  match p with BlockingPausePolicy => v | DiscardingPausePolicy => resync v end.

Inductive consumer_event :=
  | CStateChanged (paused : bool)
  | CReport (s : ConsumerSnapshot) (q : QueueStatus) (paused : bool)
  | CProcess (record : bytes) (wall_clock : Z) (result : ValidationResult)
  | CDefect (result : ValidationResult) (size : Z)
  | CDiscard (record : bytes)
  | CRelease
  | CStreamEnd (finished : bool)
  | CDisconnect
  | CSummary (t : ConsumerTotals) (elapsed : Z).

(** [while_paused]: [packet] is what the discarding policy's [receive] returns. *)
Definition while_paused (p : pause_policy) (packet : option bytes) (stats : ConsumerStats)
    : list consumer_event * ConsumerStats :=
  match p with
  | BlockingPausePolicy => ([CRelease], stats)
  | DiscardingPausePolicy =>
      match packet with
      | Some record => ([CDiscard record], record_dropped stats (Z.of_nat (length record)))
      | None => ([], stats)
      end
  end.

(** ** Sessions *)

Record ConsumerConfig := { cc_report_interval : Z; cc_max_defect_logs : Z; cc_once : bool }.

Record consumer_turn := {
  ct_stop : bool;
  ct_paused : bool;
  ct_packet : option bytes;      (* what [receive] returns *)
  ct_wall_clock : Z;
  ct_peer : PeerStatus;
  ct_last : option bytes;        (* what the final non-blocking [receive] returns *)
  ct_now : Z;
  ct_queue : QueueStatus;
}.

Record consumer_state := {
  cs_validator : PacketValidator;
  cs_stats : ConsumerStats;
  cs_timer : PeriodicTimer;
  cs_defect_logs : Z;
  cs_was_paused : bool;
}.

Definition set_cs_stats (s : consumer_state) (stats : ConsumerStats) : consumer_state := {|
  cs_validator := cs_validator s; cs_stats := stats; cs_timer := cs_timer s;
  cs_defect_logs := cs_defect_logs s; cs_was_paused := cs_was_paused s |}.

Section Consumer.
Context (find : Z -> option IChecksum) (config : ConsumerConfig) (policy : pause_policy).

Definition process (s : consumer_state) (packet : bytes) (wall_clock_ns : Z)
    : option (list consumer_event * consumer_state) :=
  match validate find (cs_validator s) packet wall_clock_ns with
  | None => None
  | Some (result, v) =>
      match record (cs_stats s) result (Z.of_nat (length packet)) with
      | None => None
      | Some stats =>
          let log := negb (clean result) && Z.ltb (cs_defect_logs s) (cc_max_defect_logs config) in
          Some (CProcess packet wall_clock_ns result :: (if log then [CDefect result (Z.of_nat (length packet))] else []),
                {| cs_validator := v; cs_stats := stats; cs_timer := cs_timer s;
                   cs_defect_logs := if log then u32 (cs_defect_logs s + 1) else cs_defect_logs s;
                   cs_was_paused := cs_was_paused s |})
      end
  end.

Definition c_report_if_due (s : consumer_state) (t : consumer_turn) : option (list consumer_event * consumer_state) :=
  match due (cs_timer s) (ct_now t) with
  | None => None
  | Some (fired, timer) =>
      let taken := take_interval (cs_stats s) (ct_now t) in
      Some (if fired then [CReport taken.1 (ct_queue t) (cs_was_paused s)] else [],
            {| cs_validator := cs_validator s; cs_stats := if fired then taken.2 else cs_stats s; cs_timer := timer;
               cs_defect_logs := cs_defect_logs s; cs_was_paused := cs_was_paused s |})
  end.

(** The pause transition at the head of the body. *)
Definition note_pause (s : consumer_state) (paused : bool) : list consumer_event * consumer_state :=
  if Bool.eqb paused (cs_was_paused s) then ([], s)
  else ([CStateChanged paused],
        {| cs_validator := if paused then cs_validator s else on_resume policy (cs_validator s);
           cs_stats := cs_stats s; cs_timer := cs_timer s; cs_defect_logs := cs_defect_logs s;
           cs_was_paused := paused |}).

Inductive turn_result :=
  | Continue (events : list consumer_event) (s : consumer_state)
  | Break (events : list consumer_event) (s : consumer_state)
  | Overflows.

Definition then_report (before : list consumer_event) (s : consumer_state) (t : consumer_turn) : turn_result :=
  match c_report_if_due s t with
  | Some (reports, s) => Continue (before ++ reports) s
  | None => Overflows
  end.

Definition session_body (s : consumer_state) (t : consumer_turn) : turn_result :=
  let '(notes, s) := note_pause s (ct_paused t) in
  if ct_paused t then
    let '(events, stats) := while_paused policy (ct_packet t) (cs_stats s) in
    then_report (notes ++ events) (set_cs_stats s stats) t
  else
    match ct_packet t with
    | Some packet =>
        match process s packet (ct_wall_clock t) with
        | Some (events, s) => then_report (notes ++ events) s t
        | None => Overflows
        end
    | None =>
        if finished (ct_peer t) || negb (peer_alive (ct_peer t)) then
          match ct_last t with
          | Some packet =>
              match process s packet (ct_wall_clock t) with
              | Some (events, s) => Continue (notes ++ events) s
              | None => Overflows
              end
          | None => Break (notes ++ [CStreamEnd (finished (ct_peer t))]) s
          end
        else then_report notes s t
    end.

Fixpoint session_loop (turns : list consumer_turn) (s : consumer_state) : run_result consumer_state consumer_event :=
  match turns with
  | [] => Running s []
  | t :: turns =>
      if ct_stop t then Returned 0 s [CRelease]
      else
        match session_body s t with
        | Overflows => Undefined
        | Break events s => Returned 0 s (events ++ [CRelease])
        | Continue events s => prepend events (session_loop turns s)
        end
  end.

(** [run_session] on the validator and statistics of the previous session;
    [reset_at] and [now] are the clocks of [reset] and of the timer. *)
Definition run_session (v : PacketValidator) (stats : ConsumerStats) (reset_at now : Z) (turns : list consumer_turn)
    : run_result consumer_state consumer_event :=
  match new_timer (cc_report_interval config) now with
  | None => Undefined
  | Some timer =>
      session_loop turns {| cs_validator := resync v; cs_stats := stats_reset stats reset_at; cs_timer := timer;
                            cs_defect_logs := 0; cs_was_paused := false |}
  end.

(** One round of [run]: the stop request at the loop head, what [connect]
    returns, and the session. *)
Record consumer_round := {
  cr_stop : bool;
  cr_connected : bool;
  cr_reset_at : Z;
  cr_now : Z;
  cr_turns : list consumer_turn;
  cr_ended : Z;                  (* the clock of the summary *)
}.

Fixpoint run_consumer (v : PacketValidator) (stats : ConsumerStats) (rounds : list consumer_round)
    : run_result (PacketValidator * ConsumerStats) (list consumer_event) :=
  match rounds with
  | [] => Running (v, stats) []
  | r :: rounds =>
      if cr_stop r || negb (cr_connected r) then Returned 0 (v, stats) []
      else
        match run_session v stats (cr_reset_at r) (cr_now r) (cr_turns r) with
        | Undefined => Undefined
        | Running s events => Running (cs_validator s, cs_stats s) [events]
        | Returned _ s events =>
            let events := events ++ [CDisconnect; CSummary (totals (cs_stats s)) (elapsed (cs_stats s) (cr_ended r))] in
            if cc_once config then Returned 0 (cs_validator s, cs_stats s) [events]
            else prepend [events] (run_consumer (cs_validator s) (cs_stats s) rounds)
        end
  end.
End Consumer.

(** ** What a session reports *)

(** The processed records, each with the clock of its validation and the result. *)
Definition processed (es : list consumer_event) : list (bytes * Z * ValidationResult) :=
  omap (fun e => match e with CProcess record now r => Some (record, now, r) | _ => None end) es.

Definition discarded (es : list consumer_event) : list bytes :=
  omap (fun e => match e with CDiscard record => Some record | _ => None end) es.

Definition defect_reports (es : list consumer_event) : list (ValidationResult * Z) :=
  omap (fun e => match e with CDefect r size => Some (r, size) | _ => None end) es.

(** The processed records with a defect, as the reporter is told of them. *)
Definition faulty (l : list (bytes * Z * ValidationResult)) : list (ValidationResult * Z) :=
  omap (fun '(record, _, r) => if clean r then None else Some (r, Z.of_nat (length record))) l.

(** The operations on the statistics, without the interval reports. *)
Definition recorded (ops : list stat_op) : list (ValidationResult * Z) :=
  omap (fun op => match op with Record_ r size => Some (r, size) | _ => None end) ops.

Definition drops (ops : list stat_op) : list Z :=
  omap (fun op => match op with Dropped size => Some size | _ => None end) ops.

Definition with_size (l : list (bytes * Z * ValidationResult)) : list (ValidationResult * Z) :=
  map (fun '(record, _, r) => (r, Z.of_nat (length record))) l.

Definition sizes (l : list bytes) : list Z := map (fun record => Z.of_nat (length record)) l.

Lemma tally_recorded f ops : tally (on_record f) ops = tally (fun '(r, size) => f r size) (recorded ops).
Proof. unfold tally. induction ops as [|[] ops IH]; cbn [fold_right recorded omap list_omap on_record]; by rewrite ?IH. Qed.

Lemma tally_drops f ops : tally (on_dropped f) ops = tally f (drops ops).
Proof. unfold tally. induction ops as [|[] ops IH]; cbn [fold_right drops omap list_omap on_dropped]; by rewrite ?IH. Qed.

Lemma tally_map {A B} (g : A -> B) f l : tally f (map g l) = tally (fun x => f (g x)) l.
Proof. unfold tally. induction l as [|x l IH]; cbn; by rewrite ?IH. Qed.

Lemma tally_ext {A} (f g : A -> Z) l : (forall x, f x = g x) -> tally f l = tally g l.
Proof. intros H. unfold tally. induction l as [|x l IH]; cbn; by rewrite ?IH, ?H. Qed.

Lemma tally_one {A} (l : list A) : tally (fun _ => 1) l = Z.of_nat (length l).
Proof. unfold tally. induction l as [|x l IH]; cbn [fold_right length]; [done | lia]. Qed.

Lemma stat_run_app s a b snaps s1 snaps' s2 :
  stat_run s a = Some (snaps, s1) -> stat_run s1 b = Some (snaps', s2) -> stat_run s (a ++ b) = Some (snaps ++ snaps', s2).
Proof.
  revert s snaps. induction a as [|op a IH]; intros s snaps Ha Hb; cbn [app stat_run] in *; [by injection Ha as <- <-|].
  destruct (stat_step s op) as [[x s3]|]; cbn [mbind option_bind] in *; [|discriminate].
  destruct (stat_run s3 a) as [[y s4]|] eqn:E; cbn [mbind option_bind] in Ha; [|discriminate].
  injection Ha as <- <-. rewrite (IH s3 y E Hb). cbn [mbind option_bind]. by rewrite app_assoc.
Qed.

Lemma validate_all_app find v a b rs v1 rs' v2 :
  validate_all find v a = Some (rs, v1) -> validate_all find v1 b = Some (rs', v2) ->
  validate_all find v (a ++ b) = Some (rs ++ rs', v2).
Proof.
  revert v rs. induction a as [|[record now] a IH]; intros v rs Ha Hb; cbn [app validate_all] in *; [by injection Ha as <- <-|].
  destruct (validate find v record now) as [[r v3]|]; cbn [mbind option_bind] in *; [|discriminate].
  destruct (validate_all find v3 a) as [[y v4]|] eqn:E; cbn [mbind option_bind] in Ha; [|discriminate].
  injection Ha as <- <-. by rewrite (IH v3 y E Hb).
Qed.

Section Sessions.
Context (find : Z -> option IChecksum) (config : ConsumerConfig) (policy : pause_policy).

(** What a stretch of a session does to the state, read off its events:
    [ops] are the operations on the statistics. *)
Record stretch (s : consumer_state) (es : list consumer_event) (s' : consumer_state) : Prop := {
  st_stats : exists ops snaps, stat_run (cs_stats s) ops = Some (snaps, cs_stats s') /\
    recorded ops = with_size (processed es) /\ drops ops = sizes (discarded es);
  st_defects : 0 <= cs_defect_logs s <= cc_max_defect_logs config ->
    defect_reports es = take (Z.to_nat (cc_max_defect_logs config - cs_defect_logs s)) (faulty (processed es)) /\
    cs_defect_logs s' =
      Z.min (cc_max_defect_logs config) (cs_defect_logs s + Z.of_nat (length (faulty (processed es))));
  st_validator : policy = BlockingPausePolicy -> discarded es = [] /\
    validate_all find (cs_validator s) (map fst (processed es)) = Some (map snd (processed es), cs_validator s');
}.

(** Events that touch neither the validator nor the totals. *)
Lemma stretch_quiet s es s' ops snaps :
  processed es = [] -> defect_reports es = [] -> stat_run (cs_stats s) ops = Some (snaps, cs_stats s') ->
  recorded ops = [] -> drops ops = sizes (discarded es) -> cs_defect_logs s' = cs_defect_logs s ->
  (policy = BlockingPausePolicy -> discarded es = [] /\ cs_validator s' = cs_validator s) -> stretch s es s'.
Proof.
  intros Hp Hd Hrun Hrec Hdrop Hlogs Hval. constructor; rewrite Hp.
  - by exists ops, snaps.
  - intros Hr. cbn. rewrite take_nil. split; [done | lia].
  - intros Hpol. by destruct (Hval Hpol) as [Hdisc ->].
Qed.

Lemma stretch_nil s : stretch s [] s.
Proof. by apply (stretch_quiet s [] s [] []). Qed.

Lemma stretch_app s a s1 b s2 : stretch s a s1 -> stretch s1 b s2 -> stretch s (a ++ b) s2.
Proof.
  intros [(o1 & n1 & Hr1 & Hc1 & Hx1) Hd1 Hv1] [(o2 & n2 & Hr2 & Hc2 & Hx2) Hd2 Hv2].
  constructor; unfold processed, defect_reports, discarded in *; rewrite ?omap_app.
  - exists (o1 ++ o2), (n1 ++ n2). unfold recorded, drops, with_size, sizes in *.
    rewrite !omap_app, !map_app, Hc1, Hc2, Hx1, Hx2. split; [by eapply stat_run_app | done].
  - intros Hr. destruct (Hd1 Hr) as [E1 L1]. destruct (Hd2 ltac:(lia)) as [E2 L2].
    unfold faulty in *. rewrite omap_app, take_app, E1, E2, L1, length_app. split; [do 2 f_equal; lia | lia].
  - intros Hpol. destruct (Hv1 Hpol) as [D1 V1]. destruct (Hv2 Hpol) as [D2 V2].
    split; [by rewrite D1, D2|]. rewrite !map_app. by eapply validate_all_app.
Qed.

Context (Hmax : is_u 32 (cc_max_defect_logs config)).

Lemma stretch_process s packet now es s' : process find config s packet now = Some (es, s') -> stretch s es s'.
Proof.
  unfold process. destruct (validate find (cs_validator s) packet now) as [[r v]|] eqn:Hv; [|discriminate].
  destruct (record (cs_stats s) r (Z.of_nat (length packet))) as [stats|] eqn:Hr; [|discriminate].
  set (log := negb (clean r) && _). intros [= <- <-].
  assert (Hp : forall l, processed (CProcess packet now r :: if log then [CDefect r l] else []) = [(packet, now, r)]) by (by destruct log).
  assert (Hd : forall l, discarded (CProcess packet now r :: if log then [CDefect r l] else []) = []) by (by destruct log).
  constructor; rewrite Hp, ?Hd; cbn [cs_stats cs_defect_logs cs_validator map fst snd].
  - exists [Record_ r (Z.of_nat (length packet))], []. cbn. rewrite Hr. done.
  - intros Hlogs. cbn [faulty omap list_omap]. unfold is_u in Hmax. unfold log.
    destruct (clean r); cbn [negb andb length]; [rewrite take_nil; split; [done | lia]|].
    destruct (Z.ltb_spec (cs_defect_logs s) (cc_max_defect_logs config)) as [Hlt | Hge]; cbn [defect_reports omap list_omap].
    + replace (Z.to_nat (cc_max_defect_logs config - cs_defect_logs s))
        with (S (Z.to_nat (cc_max_defect_logs config - cs_defect_logs s - 1))) by lia.
      rewrite u32_small by (unfold is_u; lia). cbn. rewrite take_nil. split; [done | lia].
    + replace (Z.to_nat (cc_max_defect_logs config - cs_defect_logs s)) with O by lia. cbn. split; [done | lia].
  - intros _. split; [done|]. cbn. by rewrite Hv.
Qed.

Lemma stretch_report s t es s' : c_report_if_due s t = Some (es, s') -> stretch s es s'.
Proof.
  unfold c_report_if_due. destruct (due (cs_timer s) (ct_now t)) as [[[] timer]|]; [| |discriminate]; intros [= <- <-].
  - by apply (stretch_quiet s _ _ [Take (ct_now t)] [(take_interval (cs_stats s) (ct_now t)).1]).
  - by apply (stretch_quiet s _ _ [] []).
Qed.

Lemma stretch_pause s paused : stretch s (note_pause policy s paused).1 (note_pause policy s paused).2.
Proof.
  unfold note_pause. destruct (Bool.eqb paused (cs_was_paused s)); [apply stretch_nil|].
  apply (stretch_quiet s _ _ [] []); try done. cbn. intros ->. by destruct paused.
Qed.

Lemma stretch_while_paused s packet :
  stretch s (while_paused policy packet (cs_stats s)).1 (set_cs_stats s (while_paused policy packet (cs_stats s)).2).
Proof.
  unfold while_paused. destruct policy eqn:Hpol; [by apply (stretch_quiet s _ _ [] [])|].
  destruct packet as [packet|]; [|by apply (stretch_quiet s _ _ [] [])].
  apply (stretch_quiet s _ _ [Dropped (Z.of_nat (length packet))] []); try done. intros Hp; congruence.
Qed.

Lemma stretch_then_report before s t s0 : stretch s0 before s ->
  match then_report before s t with Continue es s' | Break es s' => stretch s0 es s' | Overflows => True end.
Proof.
  intros H0. unfold then_report. destruct (c_report_if_due s t) as [[reports s1]|] eqn:E; [|done].
  eapply stretch_app; [exact H0 | by eapply stretch_report].
Qed.

Lemma stretch_body s t :
  match session_body find config policy s t with Continue es s' | Break es s' => stretch s es s' | Overflows => True end.
Proof.
  unfold session_body. pose proof (stretch_pause s (ct_paused t)) as Hnote.
  destruct (note_pause policy s (ct_paused t)) as [notes s1]. cbn [fst snd] in Hnote. destruct (ct_paused t).
  - pose proof (stretch_while_paused s1 (ct_packet t)) as Hw.
    destruct (while_paused policy (ct_packet t) (cs_stats s1)) as [events stats]. apply stretch_then_report.
    by eapply stretch_app.
  - destruct (ct_packet t) as [packet|].
    + destruct (process _ _ s1 packet (ct_wall_clock t)) as [[events s2]|] eqn:E; [|done].
      apply stretch_then_report. eapply stretch_app; [done | by eapply stretch_process].
    + destruct (finished (ct_peer t) || negb (peer_alive (ct_peer t))); [|by apply stretch_then_report].
      destruct (ct_last t) as [packet|].
      * destruct (process _ _ s1 packet (ct_wall_clock t)) as [[events s2]|] eqn:E; [|done].
        eapply stretch_app; [done | by eapply stretch_process].
      * eapply stretch_app; [done|]. by apply (stretch_quiet _ _ _ [] []).
Qed.

Definition result_stretch (s : consumer_state) (r : run_result consumer_state consumer_event) : Prop :=
  match r with Running s' es | Returned _ s' es => stretch s es s' | Undefined => True end.

Lemma stretch_release s : stretch s [CRelease] s.
Proof. by apply (stretch_quiet s _ s [] []). Qed.

Lemma stretch_loop turns s : result_stretch s (session_loop find config policy turns s).
Proof.
  revert s. induction turns as [|t turns IH]; intros s; cbn [session_loop]; [apply stretch_nil|].
  destruct (ct_stop t); [apply stretch_release|]. pose proof (stretch_body s t) as Hb.
  destruct (session_body find config policy s t) as [es s1 | es s1 |]; [| |done].
  - specialize (IH s1). destruct (session_loop find config policy turns s1); cbn in *; try done; by eapply stretch_app.
  - eapply stretch_app; [done | apply stretch_release].
Qed.
End Sessions.

(** The state and the events of a session, returned or not. *)
Definition session_result find config policy v stats reset_at now turns (s : consumer_state) (es : list consumer_event) : Prop :=
  run_session find config policy v stats reset_at now turns = Running s es \/
  exists code, run_session find config policy v stats reset_at now turns = Returned code s es.

(** A whole session is a stretch from its reset state. *)
Lemma session_stretch find config policy v stats reset_at now turns s es :
  is_u 32 (cc_max_defect_logs config) -> session_result find config policy v stats reset_at now turns s es ->
  exists start, cs_stats start = new_stats reset_at /\ cs_validator start = resync v /\ cs_defect_logs start = 0 /\
    stretch find config policy start es s.
Proof.
  intros Hmax Hrun. unfold session_result, run_session in Hrun.
  destruct (new_timer _ now) as [timer|]; [|by destruct Hrun as [|[]]].
  set (start := {| cs_validator := _ |}) in Hrun. exists start. pose proof (stretch_loop find config policy Hmax turns start) as Hst.
  split_and!; try done. destruct Hrun as [Hr | [code Hr]]; rewrite Hr in Hst; exact Hst.
Qed.

(** A turn whose exits end the session. *)
Definition leaves (t : consumer_turn) : bool :=
  ct_stop t ||
  (negb (ct_paused t) && bool_decide (ct_packet t = None) &&
   (finished (ct_peer t) || negb (peer_alive (ct_peer t))) && bool_decide (ct_last t = None)).

Lemma body_leaves find config policy s t : ct_stop t = false ->
  match session_body find config policy s t with
  | Break es s' => leaves t = true
  | Continue es s' => leaves t = false
  | Overflows => leaves t = false
  end.
Proof.
  intros Hstop. unfold session_body, leaves, then_report. rewrite Hstop.
  destruct (note_pause policy s (ct_paused t)) as [notes s1]. destruct (ct_paused t).
  - destruct (while_paused policy (ct_packet t) (cs_stats s1)) as [events stats].
    by destruct (c_report_if_due _ t) as [[]|].
  - destruct (ct_packet t) as [packet|].
    + destruct (process _ _ s1 packet (ct_wall_clock t)) as [[events s2]|]; [|done].
      by destruct (c_report_if_due _ t) as [[]|].
    + destruct (finished (ct_peer t) || negb (peer_alive (ct_peer t))); cbn [negb andb orb].
      * destruct (ct_last t) as [packet|]; [|done]. by destruct (process _ _ s1 packet (ct_wall_clock t)) as [[events s2]|].
      * rewrite andb_false_r. by destruct (c_report_if_due _ t) as [[]|].
Qed.

Ltac count_total :=
  intros final; eapply totals_counter; [reflexivity | record_counter | dropped_counter | reflexivity].

(** ** Properties *)

(** C11. The session's figures are exact: whatever pauses, timeouts and
    reports occur, when a session has processed and discarded records its
    totals count exactly the processed ones (their bytes, the clean and the
    corrupted ones) and the discarded ones, and the reporter was told of the
    first [max_defect_logs] records with a defect, in order, and of no other. *)
Theorem session_accounting find config policy v stats reset_at now turns s es :
  is_u 32 (cc_max_defect_logs config) ->
  session_result find config policy v stats reset_at now turns s es ->
  let t := totals (cs_stats s) in
  t_received t = u64 (Z.of_nat (length (processed es))) /\
  t_bytes t = u64 (tally (fun '(record, _, _) => Z.of_nat (length record)) (processed es)) /\
  t_valid t = u64 (tally (fun '(_, _, r) => indicator (clean r)) (processed es)) /\
  t_corrupted t = u64 (tally (fun '(_, _, r) => indicator (corrupted r)) (processed es)) /\
  t_dropped t = u64 (Z.of_nat (length (discarded es))) /\
  t_dropped_bytes t = u64 (tally (fun record => Z.of_nat (length record)) (discarded es)) /\
  defect_reports es = take (Z.to_nat (cc_max_defect_logs config)) (faulty (processed es)).
Proof.
  intros Hmax Hrun t. destruct (session_stretch _ _ _ _ _ _ _ _ _ _ Hmax Hrun) as (start & Hstats & _ & Hlogs & Hst).
  destruct Hst as [(ops & snaps & Hops & Hseen & Hdrop) Hdef _]. unfold is_u in Hmax. rewrite Hlogs in Hdef.
  destruct (Hdef ltac:(lia)) as [Hreports _]. rewrite Z.sub_0_r in Hreports. rewrite Hstats in Hops.
  assert (Hcount : forall c f, (forall s, stat_run (new_stats reset_at) ops = Some (snaps, s) -> c (totals s) = u64 (tally (on_record f) ops)) ->
    c t = u64 (tally (fun '(record, _, r) => f r (Z.of_nat (length record))) (processed es))).
  { intros c f Hc. unfold t. rewrite (Hc _ Hops), tally_recorded, Hseen. unfold with_size. rewrite tally_map. f_equal.
    apply tally_ext. by intros [[] ]. }
  assert (Hlost : forall c f, (forall s, stat_run (new_stats reset_at) ops = Some (snaps, s) -> c (totals s) = u64 (tally (on_dropped f) ops)) ->
    c t = u64 (tally (fun record => f (Z.of_nat (length record))) (discarded es))).
  { intros c f Hc. unfold t. rewrite (Hc _ Hops), tally_drops, Hdrop. unfold sizes. by rewrite tally_map. }
  split_and!; [| | | | | | done].
  - rewrite (Hcount t_received (fun _ _ => 1)) by count_total.
    f_equal. rewrite <- tally_one. apply tally_ext. by intros [[] ].
  - apply (Hcount t_bytes (fun _ size => size)). count_total.
  - apply (Hcount t_valid (fun r _ => indicator (clean r))). count_total.
  - apply (Hcount t_corrupted (fun r _ => indicator (corrupted r))). count_total.
  - rewrite (Hlost t_dropped (fun _ => 1)) by count_total.
    by rewrite tally_one.
  - apply (Hlost t_dropped_bytes (fun size => size)). count_total.
Qed.


Definition demo_consumer_turn (packet : option bytes) (paused gone : bool) : consumer_turn := {|
  ct_stop := false; ct_paused := paused; ct_packet := packet; ct_wall_clock := 1000;
  ct_peer := {| present := true; peer_alive := negb gone; finished := gone |}; ct_last := None; ct_now := 20;
  ct_queue := {| used_bytes := 0; capacity_bytes := 4096 |} |}.

(** A good packet, a damaged one, a pause in which one is lost, the next one
    after it, and the end of the stream. *)
Definition demo_turns : list consumer_turn := [
  demo_consumer_turn (Some (demo_packet 8 600)) false false;
  demo_consumer_turn (Some (repeat 0 50)) false false;
  demo_consumer_turn (Some (demo_packet 9 610)) true false;
  demo_consumer_turn (Some (demo_packet 10 620)) false false;
  demo_consumer_turn None false true].

Definition demo_consumer_config : ConsumerConfig := {|
  cc_report_interval := 1000; cc_max_defect_logs := 1; cc_once := true |}.

Definition demo_session : run_result consumer_state consumer_event :=
  run_session (registry_find sse42) demo_consumer_config DiscardingPausePolicy (new_validator 1000)
    (new_stats 0) 5 10 demo_turns.

Lemma session_accounting_witness :
  exists s es, demo_session = Returned 0 s es /\ t_received (totals (cs_stats s)) = 3 /\
    t_corrupted (totals (cs_stats s)) = 1 /\ t_dropped (totals (cs_stats s)) = 1 /\ length (defect_reports es) = 1%nat.
Proof.
  destruct demo_session as [s es | code s es |] eqn:E; [by vm_compute in E | | by vm_compute in E].
  assert (Hcode : code = 0 /\ length (processed es) = 3%nat /\ length (discarded es) = 1%nat /\
    tally (fun '(_, _, r) => indicator (corrupted r)) (processed es) = 1 /\ length (faulty (processed es)) = 1%nat)
    by (vm_compute in E; injection E as <- <- <-; by vm_compute).
  destruct Hcode as (-> & Hp & Hd & Hc & Hf). exists s, es. split; [done|].
  destruct (session_accounting (registry_find sse42) demo_consumer_config DiscardingPausePolicy (new_validator 1000)
    (new_stats 0) 5 10 demo_turns s es ltac:(by_decide) (or_intror (ex_intro _ 0 E))) as (H1 & _ & _ & H4 & H5 & _ & H7).
  rewrite H1, H4, H5, H7, Hp, Hd, Hc, length_take, Hf. by_decide.
Defined.

(** C29. When a session ends: it returns, after releasing the slot it holds,
    exactly when it reaches a turn that was asked to stop, or that is not
    paused, received nothing although the producer has finished or died, and
    found nothing in the final read either; a pause or a late packet keeps it
    alive. *)
Theorem session_ends find config policy turns s :
  (forall code s' es, session_loop find config policy turns s = Returned code s' es ->
     code = 0 /\ last es = Some CRelease /\ existsb leaves turns = true) /\
  (existsb leaves turns = true ->
     session_loop find config policy turns s = Undefined \/
     exists s' es, session_loop find config policy turns s = Returned 0 s' (es ++ [CRelease])) /\
  (forall s' es, session_loop find config policy turns s = Running s' es -> forallb (fun t => negb (leaves t)) turns = true).
Proof.
  revert s. induction turns as [|t turns IH]; intros s; cbn [session_loop existsb forallb].
  { split_and!; [discriminate | discriminate | done]. }
  destruct (ct_stop t) eqn:Hstop.
  { assert (Hl : leaves t = true) by (unfold leaves; by rewrite Hstop). rewrite Hl. split_and!; [|intros _; right; by exists s, [] | discriminate].
    by intros code s' es [= <- <- <-]. }
  pose proof (body_leaves find config policy s t Hstop) as Hb.
  destruct (session_body find config policy s t) as [es s1 | es s1 |]; rewrite Hb; cbn [orb andb negb].
  - destruct (IH s1) as (H1 & H2 & H3). destruct (session_loop find config policy turns s1) as [s2 es2 | c2 s2 es2 |]; cbn [prepend].
    + split_and!; [discriminate | | intros; by eapply H3]. intros He. destruct (H2 He) as [|(s' & es' & E)]; discriminate.
    + split_and!; [|intros _; right |discriminate].
      * intros code s' es' [= <- <- <-]. destruct (H1 c2 s2 es2 eq_refl) as (-> & Hlast & He). by rewrite last_app, Hlast.
      * destruct (H1 c2 s2 es2 eq_refl) as (-> & Hlast & _). apply last_Some in Hlast as (es3 & ->).
        exists s2, (es ++ es3). by rewrite app_assoc.
    + split_and!; [discriminate | by left | discriminate].
  - split_and!; [|intros _; right; by exists s1, es | discriminate]. intros code s' es' [= <- <- <-]. by rewrite last_snoc.
  - split_and!; [discriminate | by left | discriminate].
Qed.

Lemma session_ends_witness :
  existsb leaves demo_turns = true /\
  exists s es, session_loop (registry_find sse42) demo_consumer_config DiscardingPausePolicy
    [demo_consumer_turn None false false; demo_consumer_turn None false true]
    {| cs_validator := new_validator 1000; cs_stats := new_stats 0; cs_timer := {| t_period := 1000; t_next := 1010 |};
       cs_defect_logs := 0; cs_was_paused := false |} = Returned 0 s (es ++ [CRelease]).
Proof.
  split; [reflexivity|].
  destruct (proj1 (proj2 (session_ends (registry_find sse42) demo_consumer_config DiscardingPausePolicy
    [demo_consumer_turn None false false; demo_consumer_turn None false true]
    {| cs_validator := new_validator 1000; cs_stats := new_stats 0; cs_timer := {| t_period := 1000; t_next := 1010 |};
       cs_defect_logs := 0; cs_was_paused := false |})) ltac:(reflexivity)) as [E | E]; [by vm_compute in E | exact E].
Defined.

(** Pausing with the [block] policy is transparent: whatever pauses
    occur, the validator sees the processed records in sequence, as without
    any pause, starting without a baseline. *)
Theorem blocking_pause_is_transparent find config v stats reset_at now turns s es :
  is_u 32 (cc_max_defect_logs config) ->
  session_result find config BlockingPausePolicy v stats reset_at now turns s es ->
  discarded es = [] /\
  validate_all find (resync v) (map fst (processed es)) = Some (map snd (processed es), cs_validator s).
Proof.
  intros Hmax Hrun. destruct (session_stretch _ _ _ _ _ _ _ _ _ _ Hmax Hrun) as (start & _ & <- & _ & [_ _ Hv]).
  by apply Hv.
Qed.

Lemma blocking_pause_is_transparent_witness :
  exists s es, run_session (registry_find sse42) demo_consumer_config BlockingPausePolicy (new_validator 1000)
      (new_stats 0) 5 10 demo_turns = Returned 0 s es /\
    discarded es = [] /\ length (processed es) = 3%nat.
Proof.
  destruct (run_session (registry_find sse42) demo_consumer_config BlockingPausePolicy (new_validator 1000)
      (new_stats 0) 5 10 demo_turns) as [s es | code s es |] eqn:E; [by vm_compute in E | | by vm_compute in E].
  assert (Hcode : code = 0 /\ length (processed es) = 3%nat) by (vm_compute in E; injection E as <- <- <-; by vm_compute).
  destruct Hcode as [-> Hp]. exists s, es. split; [done|].
  destruct (blocking_pause_is_transparent (registry_find sse42) demo_consumer_config (new_validator 1000) (new_stats 0) 5 10
    demo_turns s es ltac:(by_decide) (or_intror (ex_intro _ 0 E))) as [Hd _]. exact (conj Hd Hp).
Defined.
