(* ===== verification/Reporters.v ===== *)
(** The console reporters: [producer/producer_reporter.*],
    [consumer/consumer_reporter.*].

    A reporter writes one line per call to its stream; here each method is the
    text it writes.  [hms] is what [local_time_hms] returns for the local time
    of the call.  [None] is undefined behaviour: a rate
    that does not fit the cast to 64 bits. *)
From Stdlib Require Import ZArith Lia Ascii.
From stdpp Require Import base numbers list strings.
From S2P Require Import Prelude ByteSize Float64 Cli PacketValidator Stats Transport Figures ProducerApp ConsumerApp.

(** ** What both reporters share *)

(** The fields of [std::tm] that [%H:%M:%S] prints. *)
Record tm := { tm_hour : Z; tm_min : Z; tm_sec : Z }.

Definition two_digits (n : Z) : string := String (digit_char (n / 10)) (String (digit_char (n mod 10)) "").

(** [strftime] of [%H:%M:%S] into 16 bytes, which hold the eight characters. *)
Definition local_time_hms (local : tm) : string :=
  two_digits (tm_hour local) +:+ ":" +:+ two_digits (tm_min local) +:+ ":" +:+ two_digits (tm_sec local).

Definition tm_ok (local : tm) : Prop := 0 <= tm_hour local < 24 /\ 0 <= tm_min local < 60 /\ 0 <= tm_sec local <= 60.

Lemma two_digits_inj m n : 0 <= m < 100 -> 0 <= n < 100 -> two_digits m = two_digits n -> m = n.
Proof.
  intros Hm Hn [= Ht Hu]. apply (f_equal char_code) in Ht, Hu.
  destruct (digit_char_spec (m / 10)), (digit_char_spec (n / 10)), (digit_char_spec (m mod 10)), (digit_char_spec (n mod 10)); mod_lia.
Qed.

(** The text of a time is eight characters long and determines it. *)
Lemma local_time_readable a b : tm_ok a -> tm_ok b ->
  String.length (local_time_hms a) = 8%nat /\ (local_time_hms a = local_time_hms b -> a = b).
Proof.
  intros (Ha1 & Ha2 & Ha3) (Hb1 & Hb2 & Hb3). split; [done|]. intros E.
  assert (H : two_digits (tm_hour a) = two_digits (tm_hour b) /\ two_digits (tm_min a) = two_digits (tm_min b) /\
    two_digits (tm_sec a) = two_digits (tm_sec b)) by (unfold local_time_hms, two_digits in *; cbn in E; injection E as -> -> -> -> -> ->; done).
  destruct H as (H1 & H2 & H3). apply two_digits_inj in H1, H2, H3; [|lia..]. destruct a, b; cbn in *. by subst.
Qed.

(** [info]; the consumer's and the producer's are the same text. *)
Definition info (hms message : string) : string := "[" +:+ hms +:+ "] " +:+ message +:+ newline.

Definition state_changed (hms : string) (paused : bool) : string :=
  info hms (if paused then "** PAUSED  (any key / SIGUSR2 to resume)" else "** RESUMED (any key / SIGUSR1 to pause)").

Definition running_text (paused : bool) : string := if paused then "PAUSED" else "RUNNING".

(** [{} pkt/s {}/s] of a sample, in the periodic reports. *)
Definition speed (sample : RateSample) : option string :=
  packets ← to_u64 (packets_per_second sample);
  Some (format_count packets +:+ " pkt/s " +:+ format_bytes (bytes_per_second sample) +:+ "/s").

(** [{:3.0f}%] of the fill ratio. *)
Definition fill_percent (q : QueueStatus) : string :=
  pad_left 3 " " (format_fixed 0 (fmul (fill_ratio q) (of_int 100))) +:+ "%".

(** ** Producer *)

Definition producer_report (hms : string) (s : ProducerSnapshot) : option string :=
  speed ← speed (ps_interval s);
  Some ("[" +:+ hms +:+ "] sent " +:+ format_count (ps_packets s) +:+ " pkt (" +:+ format_bytes (of_int (ps_bytes s)) +:+
        ") | " +:+ speed +:+ " | ring " +:+ fill_percent (ps_queue s) +:+ " | " +:+ running_text (ps_paused s) +:+ newline).

Definition producer_summary (hms : string) (packets size elapsed : Z) : option string :=
  let overall := {| rs_packets := packets; rs_bytes := size; rs_elapsed := elapsed |} in
  rate ← to_u64 (packets_per_second overall);
  Some ("[" +:+ hms +:+ "] done: " +:+ format_count packets +:+ " packets, " +:+ format_bytes (of_int size) +:+ " in " +:+
        format_fixed 2 (seconds overall) +:+ " s (avg " +:+ format_count rate +:+ " pkt/s, " +:+
        format_bytes (bytes_per_second overall) +:+ "/s)" +:+ newline).

(** What a run of the producer prints, event by event; each event comes with
    the time of its line.  A commit prints nothing. *)
Definition producer_line (hms : string) (e : producer_event) : option string :=
  match e with
  | PStateChanged paused => Some (state_changed hms paused)
  | PReport s => producer_report hms s
  | PCommit _ => Some ""
  | PSummary packets size elapsed => producer_summary hms packets size elapsed
  end.

(** ** Consumer *)

Definition latency_text (l : LatencySample) : option string :=
  if latency_empty l then Some "n/a"
  else
    average ← to_i64 (average_ns l);
    Some ("avg " +:+ format_duration_ns average +:+ " max " +:+ format_duration_ns (max_ns l)).

Definition problems_text (t : ConsumerTotals) : string :=
  (if negb (Z.eqb (t_corrupted t) 0) then " | corrupted " +:+ format_count (t_corrupted t) else "") +:+
  (if negb (Z.eqb (t_missing t) 0) || negb (Z.eqb (t_sequence_rewinds t) 0) then
     " | missing " +:+ format_count (t_missing t) +:+ " rewinds " +:+ format_count (t_sequence_rewinds t) else "") +:+
  (if negb (Z.eqb (t_timestamp_anomalies t) 0) then
     " | ts-anomalies " +:+ format_count (t_timestamp_anomalies t) else "") +:+
  (if negb (Z.eqb (t_dropped t) 0) then " | dropped " +:+ format_count (t_dropped t) else "").

Definition consumer_report (hms : string) (s : ConsumerSnapshot) (q : QueueStatus) (paused : bool) : option string :=
  let t := s_totals s in
  latency ← latency_text (s_latency s);
  speed ← speed (s_interval s);
  Some ("[" +:+ hms +:+ "] rx " +:+ format_count (t_received t) +:+ " pkt (" +:+ format_bytes (of_int (t_bytes t)) +:+
        ") | " +:+ speed +:+ " | latency " +:+ latency +:+ " | ring " +:+ fill_percent q +:+ problems_text t +:+ " | " +:+
        running_text paused +:+ newline).

Definition defect_line (hms : string) (r : ValidationResult) (size : Z) : string :=
  let extra := if has r SequenceGap then ", " +:+ format_count (missing r) +:+ " packet(s) missing" else "" in
  info hms ("!! packet #" +:+ to_string (vr_sequence r) +:+ " (" +:+ to_string size +:+ " B): " +:+
            describe_defects (defects r) +:+ extra).

(** The second line of the summary. *)
Definition outcome_text (t : ConsumerTotals) : string :=
  "  valid " +:+ format_count (t_valid t) +:+ " | corrupted " +:+ format_count (t_corrupted t) +:+
  " | sequence gaps " +:+ format_count (t_sequence_gaps t) +:+ " (missing " +:+ format_count (t_missing t) +:+
  ") | rewinds " +:+ format_count (t_sequence_rewinds t) +:+
  " | timestamp anomalies " +:+ format_count (t_timestamp_anomalies t) +:+
  " | dropped while paused " +:+ format_count (t_dropped t) +:+ " (" +:+ format_bytes (of_int (t_dropped_bytes t)) +:+ ")".

(** Two calls of [info], each with its own time. *)
Definition consumer_summary (hms1 hms2 : string) (t : ConsumerTotals) (elapsed : Z) : option string :=
  let overall := {| rs_packets := t_received t; rs_bytes := t_bytes t; rs_elapsed := elapsed |} in
  packets ← to_u64 (packets_per_second overall);
  Some (info hms1 ("session summary: received " +:+ format_count (t_received t) +:+ " packets (" +:+
          format_bytes (of_int (t_bytes t)) +:+ ") in " +:+ format_fixed 2 (seconds overall) +:+ " s, avg " +:+
          format_count packets +:+ " pkt/s " +:+ format_bytes (bytes_per_second overall) +:+ "/s") +:+
        info hms2 (outcome_text t)).

(** What the events of a session print.  [CStreamEnd] is the message of
    [run_session]; processing, discarding, releasing and disconnecting print
    nothing by themselves. *)
Definition consumer_line (hms : string) (e : consumer_event) : option string :=
  match e with
  | CStateChanged paused => Some (state_changed hms paused)
  | CReport s q paused => consumer_report hms s q paused
  | CDefect r size => Some (defect_line hms r size)
  | CStreamEnd finished => Some (info hms (if finished then "Producer finished the stream" else "Producer is gone"))
  | CSummary t elapsed => consumer_summary hms hms t elapsed
  | CProcess _ _ _ | CDiscard _ | CRelease | CDisconnect => Some ""
  end.

(** ** Reading the counters back *)

Definition is_count_char (c : ascii) : bool := isdigit c || Ascii.eqb c ",".

Fixpoint span_count (s : string) : string * string :=
  match s with
  | String c rest =>
      if is_count_char c then let '(ds, rest) := span_count rest in (String c ds, rest) else (EmptyString, s)
  | EmptyString => (EmptyString, EmptyString)
  end.

Fixpoint strip_prefix (prefix s : string) : option string :=
  match prefix, s with
  | EmptyString, _ => Some s
  | String c prefix, String d s => if Ascii.eqb c d then strip_prefix prefix s else None
  | String _ _, EmptyString => None
  end.

(** A label and the count behind it. *)
Definition read_field (label s : string) : option (Z * string) :=
  s ← strip_prefix label s;
  let '(digits, rest) := span_count s in
  n ← parse_uint (strip_commas digits);
  Some (n, rest).

(** A field that is left out where the count is zero. *)
Definition read_optional (label s : string) : Z * string := default (0, s) (read_field label s).

Definition starts_with_count (s : string) : bool :=
  match s with String c _ => is_count_char c | EmptyString => false end.

Lemma strip_prefix_app label s : strip_prefix label (label +:+ s) = Some s.
Proof. induction label as [|c label IH]; [done|]. rewrite append_String. cbn. by rewrite Ascii.eqb_refl. Qed.

Lemma span_count_insert ds rest : all_digits ds = true -> starts_with_count rest = false ->
  span_count (insert_commas ds +:+ rest) = (insert_commas ds, rest).
Proof.
  intros Hd Hr. induction ds as [|c ds IH].
  - cbn [insert_commas]. rewrite append_Empty. destruct rest as [|c rest]; [done|]. cbn in *. by rewrite Hr.
  - cbn [all_digits] in Hd. apply andb_true_iff in Hd as [Hc Hd]. specialize (IH Hd). cbn [insert_commas].
    rewrite append_String. cbn [span_count]. unfold is_count_char at 1. rewrite Hc. cbn [orb].
    destruct (_ && _); rewrite ?append_String, ?append_Empty; cbn [span_count is_count_char Ascii.eqb]; by rewrite IH.
Qed.

Lemma read_field_count label n rest : is_u 64 n -> starts_with_count rest = false ->
  read_field label (label +:+ format_count n +:+ rest) = Some (n, rest).
Proof.
  intros Hn Hr. destruct (to_string_spec n Hn) as (Hd & Hne & Hv). unfold read_field. rewrite strip_prefix_app.
  cbn [mbind option_bind]. unfold format_count. rewrite span_count_insert, strip_commas_insert, parse_uint_digits by done.
  by rewrite Hv, (proj2 (Z.leb_le _ _)) by (unfold is_u, U64_MAX in *; lia).
Qed.

Definition read_problems (s : string) : Z * Z * Z * Z * Z * string :=
  let '(corrupted, s) := read_optional " | corrupted " s in
  let '(missing, s) := read_optional " | missing " s in
  let '(rewinds, s) := read_optional " rewinds " s in
  let '(anomalies, s) := read_optional " | ts-anomalies " s in
  let '(dropped, s) := read_optional " | dropped " s in
  (corrupted, missing, rewinds, anomalies, dropped, s).

Definition read_outcome (s : string) : option (Z * Z * Z * Z * Z * Z * Z * string) :=
  '(valid, s) ← read_field "  valid " s;
  '(corrupted, s) ← read_field " | corrupted " s;
  '(gaps, s) ← read_field " | sequence gaps " s;
  '(missing, s) ← read_field " (missing " s;
  '(rewinds, s) ← read_field ") | rewinds " s;
  '(anomalies, s) ← read_field " | timestamp anomalies " s;
  '(dropped, s) ← read_field " | dropped while paused " s;
  Some (valid, corrupted, gaps, missing, rewinds, anomalies, dropped, s).

Definition totals_in_range (t : ConsumerTotals) : Prop :=
  is_u 64 (t_received t) /\ is_u 64 (t_bytes t) /\ is_u 64 (t_valid t) /\ is_u 64 (t_corrupted t) /\
  is_u 64 (t_sequence_gaps t) /\ is_u 64 (t_missing t) /\ is_u 64 (t_sequence_rewinds t) /\
  is_u 64 (t_timestamp_anomalies t) /\ is_u 64 (t_dropped t) /\ is_u 64 (t_dropped_bytes t).

(** What follows the problems of a report: the field of the run state. *)
Definition report_end (paused : bool) : string := " | " +:+ running_text paused +:+ newline.

Lemma read_optional_count label n rest : is_u 64 n -> starts_with_count rest = false ->
  read_optional label (label +:+ format_count n +:+ rest) = (n, rest).
Proof. intros Hn Hr. unfold read_optional. by rewrite read_field_count. Qed.

Lemma read_optional_skip label s : strip_prefix label s = None -> read_optional label s = (0, s).
Proof. intros H. unfold read_optional, read_field. by rewrite H. Qed.

(** C39. The reports say what was counted: every line of the console reporters
    that lists counters can be read back to exactly those counters.  The
    problem section of a periodic report gives the five problem counters
    (a counter it leaves out is zero) and is empty exactly where there are no
    problems; the summary gives all seven outcomes. *)
Theorem reports_are_readable t paused : totals_in_range t ->
  read_problems (problems_text t +:+ report_end paused) =
    (t_corrupted t, t_missing t, t_sequence_rewinds t, t_timestamp_anomalies t, t_dropped t, report_end paused) /\
  (problems_text t = "" <->
     t_corrupted t = 0 /\ t_missing t = 0 /\ t_sequence_rewinds t = 0 /\ t_timestamp_anomalies t = 0 /\ t_dropped t = 0) /\
  read_outcome (outcome_text t) =
    Some (t_valid t, t_corrupted t, t_sequence_gaps t, t_missing t, t_sequence_rewinds t, t_timestamp_anomalies t,
          t_dropped t, " (" +:+ format_bytes (of_int (t_dropped_bytes t)) +:+ ")").
Proof.
  intros (_ & _ & Hv & Hc & Hg & Hm & Hr & Ha & Hd & _). split_and!.
  - unfold problems_text, read_problems, report_end.
    destruct (Z.eqb_spec (t_corrupted t) 0) as [-> |], (Z.eqb_spec (t_missing t) 0) as [-> |],
      (Z.eqb_spec (t_sequence_rewinds t) 0) as [-> |], (Z.eqb_spec (t_timestamp_anomalies t) 0) as [-> |],
      (Z.eqb_spec (t_dropped t) 0) as [-> |]; cbn [negb orb]; rewrite ?append_assoc, ?append_Empty.
    all: repeat first [rewrite read_optional_count by done | rewrite read_optional_skip by (by destruct paused)]; reflexivity.
  - unfold problems_text.
    destruct (Z.eqb_spec (t_corrupted t) 0), (Z.eqb_spec (t_missing t) 0), (Z.eqb_spec (t_sequence_rewinds t) 0),
      (Z.eqb_spec (t_timestamp_anomalies t) 0), (Z.eqb_spec (t_dropped t) 0); cbn; intuition (discriminate || congruence).
  - unfold outcome_text, read_outcome. repeat (rewrite read_field_count by done; cbn [mbind option_bind]). reflexivity.
Qed.

Lemma reports_are_readable_witness :
  read_problems (" | missing 18,446,744,073,709,551,615 rewinds 2 | RUNNING" +:+ newline) =
    (0, U64_MAX, 2, 0, 0, " | RUNNING" +:+ newline).
Proof.
  apply (reports_are_readable {| t_received := 0; t_bytes := 0; t_valid := 0; t_corrupted := 0; t_sequence_gaps := 0;
    t_missing := U64_MAX; t_sequence_rewinds := 2; t_timestamp_anomalies := 0; t_dropped := 0; t_dropped_bytes := 0 |} false).
  repeat split; by_decide.
Defined.
