(* ===== verification/Objects.v ===== *)
(** Scoped objects: computations on a machine state that may throw, with
    destructors that run when a scope is left, and [try]/[catch].

    A computation of the program ends with a value or an exception, or has not
    ended yet (its environment has given it nothing more to do), or has met
    undefined behaviour.  [scoped] is the life of a local object: if its
    constructor throws, the body and the destructor are skipped; otherwise the
    destructor runs after the body, whether that returned or threw. *)
From stdpp Require Import base list.
From S2P Require Import Prelude.

Inductive exec (M A : Type) :=
  | Finished (r : outcome A) (m : M)
  | Unfinished (m : M)
  | Faulty.
Arguments Finished {M A} _ _.
Arguments Unfinished {M A} _.
Arguments Faulty {M A}.

Section Objects.
Context {M : Type}.

Definition computation (A : Type) : Type := M -> exec M A.

Definition pure {A} (a : A) : computation A := fun m => Finished (Ret a) m.
Definition throwing {A} (r : outcome A) : computation A := fun m => Finished r m.
Definition undefined {A} : computation A := fun _ => Faulty.
Definition doing (f : M -> M) : computation unit := fun m => Finished (Ret tt) (f m).

Definition and_then {A B} (c : computation A) (k : A -> computation B) : computation B := fun m =>
  match c m with
  | Finished (Ret a) m => k a m
  | Finished (Throw e) m => Finished (Throw e) m
  | Unfinished m => Unfinished m
  | Faulty => Faulty
  end.

Definition scoped {R A} (construct : M -> outcome R * M) (destroy : R -> M -> M) (body : R -> computation A)
    : computation A := fun m =>
  match construct m with
  | (Throw e, m) => Finished (Throw e) m
  | (Ret r, m) =>
      match body r m with
      | Finished result m => Finished result (destroy r m)
      | Unfinished m => Unfinished m
      | Faulty => Faulty
      end
  end.

Definition catching {A} (c : computation A) (handler : exn -> computation A) : computation A := fun m =>
  match c m with
  | Finished (Throw e) m => handler e m
  | other => other
  end.

(** ** What a computation that ends leaves behind *)

(** [settles P c]: if [c] ends, with a value or an exception, its initial and
    final states are related by [P]. *)
Definition settles {A} (P : M -> M -> Prop) (c : computation A) : Prop :=
  forall m r m', c m = Finished r m' -> P m m'.

Context (P : M -> M -> Prop) `{!Reflexive P} `{!Transitive P}.

Lemma settles_pure {A} (a : A) : settles P (pure a).
Proof. intros m r m' [= _ <-]. reflexivity. Qed.

Lemma settles_throwing {A} (r : outcome A) : settles P (throwing r).
Proof. intros m r' m' [= _ <-]. reflexivity. Qed.

Lemma settles_undefined {A} : settles P (undefined (A := A)).
Proof. intros m r m' [=]. Qed.

Lemma settles_doing f : (forall m, P m (f m)) -> settles P (doing f).
Proof. intros H m r m' [= _ <-]. apply H. Qed.

Lemma settles_then {A B} (c : computation A) (k : A -> computation B) :
  settles P c -> (forall a, settles P (k a)) -> settles P (and_then c k).
Proof.
  intros Hc Hk m r m'. unfold and_then. destruct (c m) as [[a|e] m1 | m1 |] eqn:E; try discriminate.
  - intros Hr. etrans; [by eapply Hc | by eapply Hk].
  - intros [= _ <-]. by eapply Hc.
Qed.

Lemma settles_catching {A} (c : computation A) (h : exn -> computation A) :
  settles P c -> (forall e, settles P (h e)) -> settles P (catching c h).
Proof.
  intros Hc Hh m r m'. unfold catching. destruct (c m) as [[a|e] m1 | m1 |] eqn:E; try discriminate.
  - intros [= _ <-]. by eapply Hc.
  - intros Hr. etrans; [by eapply Hc | by eapply Hh].
Qed.

(** An object whose failed constructor and whose destructor leave what [P]
    asks for.  [Q r m m1]: the constructor took [m] to [m1], giving [r]. *)
Lemma settles_scoped {R A} construct destroy (body : R -> computation A) :
  (forall m e m1, construct m = (Throw e, m1) -> P m m1) ->
  (forall m r m1 m2, construct m = (Ret r, m1) -> P m1 m2 -> P m (destroy r m2)) ->
  (forall r, settles P (body r)) -> settles P (scoped construct destroy body).
Proof.
  intros Hthrow Hdestroy Hbody m r m'. unfold scoped. destruct (construct m) as [[o|e] m1] eqn:E.
  - destruct (body o m1) as [r2 m2 | m2 |] eqn:Eb; try discriminate. intros [= _ <-].
    eapply Hdestroy; [exact E | by eapply Hbody].
  - intros [= _ <-]. by eapply Hthrow.
Qed.
End Objects.
Arguments computation M A : clear implicits.
