(* ===== verification/Main.v ===== *)
(** The two programs: [producer/main.cpp], [consumer/main.cpp].

    [main] builds its objects in order, runs the application, and maps the
    exceptions to exit codes; its local objects are [Objects.scoped], so that
    every way out runs their destructors.  A [machine] is what the program
    shares with its surroundings: the operating system's mappings and names,
    the terminal, the process's threads, and what has been printed. *)
From Stdlib Require Import ZArith Lia.
From stdpp Require Import base numbers list strings.
From S2P Require Import Prelude Checksum Packet PayloadGenerator VectorLanes PacketBuilder PacketValidator Stats Memory RingBuffer.
From S2P Require Import ShmRegion Transport TransportRegion ByteSize Float64 Figures Cli Options RateLimiter Control Objects.
From S2P Require Import ProducerApp ConsumerApp.

(** What is printed: a line of the reporter, an application event (whose line
    is [Reporters.producer_line] or [consumer_line]), or the help text. *)
Inductive printed :=
  | Info (message : string)
  | Produced (e : producer_event)
  | Consumed (e : consumer_event)
  | HelpText (text : string).

Record machine (W : Type) := {
  m_os : W;
  m_ring : option RingControl;    (* the control block a finished sink left *)
  m_tty : termios;
  m_process : process_state;
  m_out : list printed;
  m_err : list string;
}.
Arguments m_os {W} _.
Arguments m_ring {W} _.
Arguments m_tty {W} _.
Arguments m_process {W} _.
Arguments m_out {W} _.
Arguments m_err {W} _.

(** [what()]: the message of a [std::system_error] ends with the text of the
    error number ([strerror]). *)
Definition what (strerror : Z -> string) (e : exn) : string :=
  match e with
  | UsageError text | InvalidArgument text | RuntimeError text => text
  | SystemError n text => text +:+ ": " +:+ strerror n
  end.

Section Machine.
Context {W : Type}.
Implicit Types m : machine W.

Definition set_os m (w : W) : machine W := {|
  m_os := w; m_ring := m_ring m; m_tty := m_tty m; m_process := m_process m; m_out := m_out m; m_err := m_err m |}.
Definition set_ring m (c : RingControl) : machine W := {|
  m_os := m_os m; m_ring := Some c; m_tty := m_tty m; m_process := m_process m; m_out := m_out m; m_err := m_err m |}.
Definition set_console m (tty : termios) (p : process_state) : machine W := {|
  m_os := m_os m; m_ring := m_ring m; m_tty := tty; m_process := p; m_out := m_out m; m_err := m_err m |}.
Definition print (out : list printed) m : machine W := {|
  m_os := m_os m; m_ring := m_ring m; m_tty := m_tty m; m_process := m_process m; m_out := m_out m ++ out; m_err := m_err m |}.
Definition print_error (text : string) m : machine W := {|
  m_os := m_os m; m_ring := m_ring m; m_tty := m_tty m; m_process := m_process m; m_out := m_out m;
  m_err := m_err m ++ [text] |}.

(** *** Objects both programs have *)

Definition with_signals {A} (c : signal_calls) (body : computation (machine W) A) : computation (machine W) A :=
  scoped (fun m => let '(r, p) := SignalControlSource c (m_process m) in (r, set_console m (m_tty m) p))
    (fun _ m => set_console m (m_tty m) (signal_source_destroy (m_process m)))
    (fun _ => body).

(** The body is told whether there is a keyboard source. *)
Definition with_keyboard {A} (enabled : bool) (c : terminal_calls) (body : bool -> computation (machine W) A)
    : computation (machine W) A :=
  if enabled && available c then
    scoped (fun m => let '(r, (tty, p)) := KeyboardControlSource c (m_tty m) (m_process m) in (r, set_console m tty p))
      (fun saved m => let '(tty, p) := keyboard_source_destroy c saved (m_tty m) (m_process m) in set_console m tty p)
      (fun _ => body true)
  else body false.

Definition keyboard_message (keyboard : bool) : string :=
  if keyboard then "Keyboard: any key = pause/resume, q = quit"
  else "Keyboard: not available (stdin is not an interactive terminal)".

(** The handlers of [main]. *)
Definition handler (program : string) (strerror : Z -> string) (e : exn) : computation (machine W) Z :=
  match e with
  | UsageError _ =>
      and_then (doing (print_error (program +:+ ": " +:+ what strerror e +:+ newline +:+ "Try '" +:+ program +:+
                                    " --help' for usage." +:+ newline))) (fun _ => pure 1)
  | _ => and_then (doing (print_error (program +:+ ": fatal: " +:+ what strerror e +:+ newline))) (fun _ => pure 2)
  end.

(** [const auto options = parse(...); if (!options) return 0;] *)
Definition with_options {O} (parsed : outcome (O + string)) (body : O -> computation (machine W) Z)
    : computation (machine W) Z :=
  and_then (throwing parsed) (fun o =>
    match o with
    | inl options => body options
    | inr help => and_then (doing (print [HelpText help])) (fun _ => pure 0)
    end).
End Machine.

(** ** The producer *)

(** What the surroundings decide in one execution. *)
Record producer_environment := {
  pe_cpu : cpu;
  pe_avx2 : bool;
  pe_kill_ok : Z -> bool;
  pe_pid : Z;
  pe_signals : signal_calls;
  pe_terminal : terminal_calls;
  pe_created : Z;                   (* the clock of the limiter *)
  pe_started : Z;                   (* the clock of [run] *)
  pe_attached : bool;
  pe_turns : list producer_turn;
  pe_strerror : Z -> string;
}.

Definition generator_name (avx2 : bool) (g : generator) : string :=
  match g with Random _ => random_name avx2 | Sequential _ => "sequential" end.

(** The lines [run] prints before its loop. *)
Definition run_messages (config : ProducerConfig) (name : string) (ring : RingProducer) (attached : bool) : list printed :=
  let record_size := u64 (kHeaderSize + pc_payload_size config) in
  [Info ("Transport: " +:+ sink_describe name ring);
   Info ("Packet: " +:+ to_string kHeaderSize +:+ " B header + " +:+ to_string (pc_payload_size config) +:+
         " B payload = " +:+ to_string record_size +:+ " B")] ++
  if pc_wait_for_consumer config then
    Info "Waiting for a consumer to attach..." :: (if attached then [Info "Consumer attached"] else [])
  else [].

Section ProducerMain.
Context {W : Type} (os : posix W) (peek : W -> MirroredShmRegion -> RingControl) (env : producer_environment).

Definition with_sink {A} (name : string) (capacity : Z) (body : sink -> computation (machine W) A)
    : computation (machine W) A := fun m =>
  match sink_construct os peek (pe_kill_ok env) name capacity (pe_pid env) (m_os m) with
  | None => Faulty
  | Some (result, w) =>
      scoped (fun m => (result, set_os m w))
        (fun s m => let '(control, w) := sink_destroy os s (m_os m) in set_ring (set_os m w) control)
        body m
  end.

(** [return app.run();] *)
Definition run_producer (config : ProducerConfig) (name : string) (s : sink) (checksum : IChecksum) (gen : generator)
    (limiter : RateLimiter) : computation (machine W) Z :=
  match run fill checksum config (max_record_size (sk_ring s)) (pe_attached env) (pe_started env) gen limiter
          (pe_turns env) with
  | Throw e => throwing (Throw e)
  | Ret r =>
      and_then (doing (print (run_messages config name (sk_ring s) (pe_attached env)))) (fun _ =>
        match r with
        | Returned code _ events => and_then (doing (print (Produced <$> events))) (fun _ => pure code)
        | Running _ events => fun m => Unfinished (print (Produced <$> events) m)
        | Undefined => undefined
        end)
  end.

Definition producer_config (o : ProducerOptions) : ProducerConfig := {|
  pc_payload_size := po_payload_size o; pc_max_packets := po_count o;
  pc_report_interval := po_report_interval o; pc_wait_for_consumer := po_wait_for_consumer o |}.

Definition producer_program (o : ProducerOptions) : computation (machine W) Z :=
  with_signals (pe_signals env) (
    with_keyboard (po_keyboard o) (pe_terminal env) (fun keyboard =>
      and_then (throwing (make_checksum (pe_cpu env) (po_checksum o))) (fun checksum =>
      and_then (throwing (make_payload_generator (po_generator o) (po_seed o))) (fun gen =>
      with_sink (po_shm_name o) (po_ring_size o) (fun s =>
        match limiter_of_rate (po_rate o) (pe_created env) with
        | None => undefined
        | Some limiter =>
            and_then (doing (print
              [Info (keyboard_message keyboard);
               Info ("Checksum: " +:+ ck_name checksum +:+ ", payload generator: " +:+ generator_name (pe_avx2 env) gen)]))
              (fun _ => run_producer (producer_config o) (po_shm_name o) s checksum gen limiter)
        end))))).

(** [main(argc, argv)], on the arguments behind the program's name. *)
Definition producer_main (args : list string) : computation (machine W) Z :=
  catching (with_options (parse_producer_options args) producer_program) (handler "producer" (pe_strerror env)).
End ProducerMain.

(** ** The consumer *)

Record consumer_environment := {
  ce_cpu : cpu;
  ce_signals : signal_calls;
  ce_terminal : terminal_calls;
  ce_started : Z;                   (* the clock of the statistics *)
  ce_rounds : list consumer_round;
  ce_connect_error : option exn;    (* what [connect] throws after the rounds *)
  ce_strerror : Z -> string;
}.

Definition policy_name (p : pause_policy) : string :=
  match p with BlockingPausePolicy => "block" | DiscardingPausePolicy => "discard" end.

Definition policy_description (p : pause_policy) : string :=
  match p with
  | BlockingPausePolicy => "packets queue up in the ring; the producer blocks when it is full; nothing is lost"
  | DiscardingPausePolicy => "packets are read and discarded; the producer keeps running; drops are counted"
  end.

(** The default of [future_tolerance], one second in nanoseconds. *)
Definition kFutureTolerance : Z := 1000000000.

Section ConsumerMain.
Context {W : Type} (env : consumer_environment).

Definition consumer_config (o : ConsumerOptions) : ConsumerConfig := {|
  cc_report_interval := co_report_interval o; cc_max_defect_logs := co_max_defect_logs o; cc_once := co_once o |}.

(** [return app.run();]: the rounds of the loop, and the exception that ends
    it if the attempt to connect after them throws. *)
Definition run_consumer_app (o : ConsumerOptions) (policy : pause_policy) : computation (machine W) Z :=
  and_then (doing (print [Info ("Pause policy '" +:+ policy_name policy +:+ "': " +:+ policy_description policy)])) (fun _ =>
    match run_consumer (registry_find (ce_cpu env)) (consumer_config o) policy (new_validator kFutureTolerance)
            (new_stats (ce_started env)) (ce_rounds env) with
    | Returned code _ sessions => and_then (doing (print (Consumed <$> concat sessions))) (fun _ => pure code)
    | Running _ sessions =>
        and_then (doing (print (Consumed <$> concat sessions))) (fun _ =>
          match ce_connect_error env with Some e => throwing (Throw e) | None => fun m => Unfinished m end)
    | Undefined => undefined
    end).

Definition consumer_program (o : ConsumerOptions) : computation (machine W) Z :=
  with_signals (ce_signals env) (
    with_keyboard (co_keyboard o) (ce_terminal env) (fun keyboard =>
      and_then (throwing (make_pause_policy (co_pause_policy o))) (fun policy =>
      and_then (doing (print
        [Info (keyboard_message keyboard);
         Info ("Checksums: crc32 (software), crc32c (" +:+
               (if hardware_available (ce_cpu env) then "hardware" else "software") +:+ ")")]))
        (fun _ => run_consumer_app o policy)))).

Definition consumer_main (args : list string) : computation (machine W) Z :=
  catching (with_options (parse_consumer_options args) consumer_program) (handler "consumer" (ce_strerror env)).
End ConsumerMain.

(** ** What every way out leaves behind *)

Section Exits.
Context {W : Type} (maps : W -> W -> Prop) `{!Reflexive maps} `{!Transitive maps}.

(** Mappings (up to [maps]), terminal and threads as they were found, nothing on the error
    stream, and any ring that was made closed. *)
Record restored (m m' : machine W) : Prop := {
  rs_maps : maps (m_os m) (m_os m');
  rs_tty : m_tty m' = m_tty m;
  rs_signal : signal_thread (m_process m) = false -> signal_thread (m_process m') = false;
  rs_keyboard : keyboard_thread (m_process m) = false -> keyboard_thread (m_process m') = false;
  rs_err : m_err m' = m_err m;
  rs_ring : m_ring m' = m_ring m \/ exists c, m_ring m' = Some c /\ rc_state c = state_code ProducerFinished;
}.

#[export] Instance restored_refl : Reflexive restored.
Proof. intros m. by constructor; auto. Qed.

#[export] Instance restored_trans : Transitive restored.
Proof.
  intros a b c [H1 H2 H3 H4 H5 H6] [K1 K2 K3 K4 K5 K6]. constructor.
  - by transitivity (m_os b).
  - congruence.
  - auto.
  - auto.
  - congruence.
  - destruct K6 as [-> | K6]; auto.
Qed.

Lemma restored_print out m : restored m (print out m).
Proof. by constructor; auto. Qed.

Lemma restored_console m tty p : tty = m_tty m ->
  (signal_thread (m_process m) = false -> signal_thread p = false) ->
  (keyboard_thread (m_process m) = false -> keyboard_thread p = false) -> restored m (set_console m tty p).
Proof. intros -> H1 H2. by constructor; auto. Qed.

Lemma with_signals_restores {A} c (body : computation (machine W) A) :
  settles restored body -> settles restored (with_signals c body).
Proof.
  intros Hb. apply settles_scoped; [| |done].
  - intros m e m1. unfold SignalControlSource. destruct (negb _); [|destruct (sc_thread c); [|done]];
      intros [= _ <-]; by apply restored_console.
  - intros m r m1 m2. unfold SignalControlSource. destruct (negb _); [done|]. destruct (sc_thread c); [done|].
    intros [= _ <-] [H1 H2 H3 H4 H5 H6]. by constructor.
Qed.

Lemma with_keyboard_restores {A} enabled c (body : bool -> computation (machine W) A) :
  tc_restore c = None -> (forall b, settles restored (body b)) -> settles restored (with_keyboard enabled c body).
Proof.
  intros Hc Hb. unfold with_keyboard. destruct (_ && _); [|done].
  apply settles_scoped; [| |done].
  - intros m e m1. unfold KeyboardControlSource, RawTerminal, raw_terminal_destroy. rewrite Hc.
    destruct (tc_getattr c); [|destruct (tc_setattr c); [|destruct (tc_thread c); [|done]]];
      intros [= _ <-]; by apply restored_console.
  - intros m saved m1 m2. unfold KeyboardControlSource, RawTerminal, keyboard_source_destroy, raw_terminal_destroy.
    rewrite Hc. destruct (tc_getattr c); [done|]. destruct (tc_setattr c); [done|]. destruct (tc_thread c); [done|].
    intros [= <- <-] [H1 H2 H3 H4 H5 H6]. by constructor.
Qed.

Lemma with_options_restores {O} (parsed : outcome (O + string)) (body : O -> computation (machine W) Z) :
  (forall o, settles restored (body o)) -> settles restored (with_options parsed body).
Proof.
  intros Hb. apply settles_then; [apply _ | by apply settles_throwing; apply _|]. intros [o | help]; [done|].
  apply settles_then; [apply _ | apply settles_doing; intros; apply restored_print | intros; apply settles_pure; apply _].
Qed.

(** [settle]: through the sequential parts of a program. *)
Ltac settle :=
  repeat first
    [ apply with_signals_restores | apply with_keyboard_restores; [done | intros ?]
    | apply settles_then; [apply _ | | intros ?]
    | apply settles_throwing; apply _ | apply settles_pure; apply _ | apply settles_undefined
    | apply settles_doing; intros ?; apply restored_print ].

Lemma run_producer_restores env config name s checksum gen limiter :
  settles restored (run_producer (W := W) env config name s checksum gen limiter).
Proof.
  unfold run_producer. destruct (run _ _ _ _ _ _ _ _ _) as [r|e]; settle.
  destruct r as [st es|code st es|]; settle. by intros m r m'.
Qed.

Lemma consumer_program_restores env o : tc_restore (ce_terminal env) = None ->
  settles restored (consumer_program (W := W) env o).
Proof.
  intros Hc. unfold consumer_program, run_consumer_app. settle.
  destruct (run_consumer _ _ _ _ _ _) as [st es|code st es|]; settle.
  destruct (ce_connect_error env); settle. by intros m r m'.
Qed.

End Exits.

Ltac settle :=
  repeat first
    [ apply with_signals_restores; [apply _..|] | apply with_keyboard_restores; [apply _..| done | intros ?]
    | apply settles_then; [apply _ | | intros ?]
    | apply settles_throwing; apply _ | apply settles_pure; apply _ | apply settles_undefined
    | apply settles_doing; intros ?; apply restored_print; apply _ ].

Section SinkExits.
Context {W : Type} (os : posix W) `{!PosixLaws os} `{!NameLaws os}.

#[export] Instance same_maps_refl : Reflexive (same_maps os).
Proof. intros w x. reflexivity. Qed.

#[export] Instance same_maps_trans : Transitive (same_maps os).
Proof. intros a b c H K x. by rewrite K. Qed.

Lemma with_sink_restores {A} peek env name capacity (body : sink -> computation (machine W) A) :
  (forall s, settles (restored (same_maps os)) (body s)) -> settles (restored (same_maps os)) (with_sink os peek env name capacity body).
Proof.
  intros Hb m r m'. unfold with_sink, scoped.
  destruct (sink_construct os peek (pe_kill_ok env) name capacity (pe_pid env) (m_os m)) as [[[s|e] w]|] eqn:E; [| |done].
  - apply sink_construct_maps in E as (Hpl & _ & Ho); [|done].
    destruct (body s (set_os m w)) as [r2 m2 | m2 |] eqn:Eb; [|done..]. apply Hb in Eb as [H1 H2 H3 H4 H5 H6].
    destruct (sink_destroy_leaves os s (m_os m) w (m_os m2) Hpl Ho H1) as (Hmaps & _ & Hc).
    destruct (sink_destroy os s (m_os m2)) as [control w3]. cbn [fst snd] in *. intros [= _ <-]. constructor; try done.
    right. exists control. by rewrite Hc.
  - apply sink_construct_maps in E; [|done]. intros [= _ <-]. constructor; auto.
Qed.

Lemma producer_program_restores peek env o : tc_restore (pe_terminal env) = None ->
  settles (restored (same_maps os)) (producer_program os peek env o).
Proof.
  intros Hc. unfold producer_program. settle. apply with_sink_restores. intros s.
  destruct (limiter_of_rate _ _); settle. apply run_producer_restores; apply _.
Qed.

End SinkExits.

(** ** How the programs end *)

Definition fatal (e : exn) : bool := match e with UsageError _ => false | _ => true end.

(** [c] ends, if it does, with a value that satisfies [P] or with an exception
    that is not a usage error. *)
Definition ends_with {M A} (P : A -> Prop) (c : computation M A) : Prop :=
  forall m r m', c m = Finished r m' -> match r with Ret a => P a | Throw e => fatal e = true end.

Definition refuses {A} (r : outcome A) : Prop := forall e, r = Throw e -> fatal e = true.

Section Ends.
Context {M : Type}.

Lemma ends_then {A B} (P : B -> Prop) (c : computation M A) k :
  ends_with (fun _ => True) c -> (forall a, ends_with P (k a)) -> ends_with P (and_then c k).
Proof.
  intros Hc Hk m r m'. unfold and_then. destruct (c m) as [[a|e] m1 | m1 |] eqn:E; try done; [apply Hk|].
  intros [= <- _]. by apply Hc in E.
Qed.

Lemma ends_scoped {A R} (P : A -> Prop) construct destroy (body : R -> computation M A) :
  (forall m, refuses (construct m).1) -> (forall r, ends_with P (body r)) -> ends_with P (scoped construct destroy body).
Proof.
  intros Hc Hb m r m'. unfold scoped. specialize (Hc m). destruct (construct m) as [[o|e] m1]; cbn [fst] in Hc.
  - destruct (body o m1) as [c m2 | m2 |] eqn:E; try done. intros [= <- _]. by eapply Hb.
  - intros [= <- _]. by apply Hc.
Qed.

Lemma ends_pure {A} (P : A -> Prop) a : P a -> ends_with (M := M) P (pure a).
Proof. by intros Ha m r m' [= <- _]. Qed.

Lemma ends_doing f : ends_with (M := M) (fun _ => True) (doing f).
Proof. by intros m r m' [= <- _]. Qed.

Lemma ends_throwing {A} (r : outcome A) : refuses r -> ends_with (M := M) (fun _ => True) (throwing r).
Proof. intros Hr m r' m' [= <- _]. destruct r; [done | by apply Hr]. Qed.

Lemma ends_throw {A} (P : A -> Prop) e : fatal e = true -> ends_with (M := M) P (throwing (Throw e)).
Proof. by intros He m r' m' [= <- _]. Qed.

Lemma ends_undefined {A} (P : A -> Prop) : ends_with (M := M) P undefined.
Proof. by intros m r m'. Qed.

Lemma ends_unfinished {A} (P : A -> Prop) f : ends_with (M := M) P (fun m => Unfinished (f m)).
Proof. by intros m r m'. Qed.
End Ends.

(** [conclude]: through the sequential parts of a program. *)
Ltac conclude :=
  repeat first
    [ apply ends_then; [|intros ?] | apply ends_doing | apply ends_pure; reflexivity | apply ends_undefined
    | apply ends_unfinished ].

Section Codes.
Context {W : Type}.

Lemma map_halves_refuses (os : posix W) halves half w r base fd : refuses (map_halves os halves half w r base fd).1.
Proof.
  revert half w. induction halves as [|halves IH]; intros half w; cbn [map_halves]; [done|].
  destruct (mmap_fixed os w _ _ fd _) as [[a|e'] w1]; [|by intros e [= <-]]. destruct (negb _); [by intros e [= <-] | apply IH].
Qed.

Lemma map_refuses (os : posix W) w fd name hb db owner : refuses (map os w fd name hb db owner).1.
Proof.
  unfold map. destruct (mmap_shared os w hb fd 0) as [[h|e'] w1]; [|by intros e [= <-]].
  destruct (mmap_reserve os w1 _) as [[b|e'] w2]; [|by intros e [= <-]]. apply map_halves_refuses.
Qed.

Lemma page_size_refuses (os : posix W) w : refuses (page_size os w).
Proof. unfold page_size. intros e. destruct (Z.leb _ _); [by intros [= <-] | done]. Qed.

Lemma create_refuses (os : posix W) w name cap : refuses (create os w name cap).1.
Proof.
  unfold create, validate_name. destruct (valid_name name); [|by intros e [= <-]]. pose proof (page_size_refuses os w) as Hp.
  destruct (page_size os w) as [page|e0]; [|intros e [= <-]; by apply Hp]. destruct (_ || _); [by intros e [= <-]|].
  destruct (shm_create os _ name) as [[fd|e'] w1]; [|by intros e [= <-]].
  destruct (ftruncate os w1 fd _) as [[e'|] w2]; [by intros e [= <-]|].
  pose proof (map_refuses os w2 fd name page cap true) as Hm. destruct (map os w2 fd name page cap true) as [[r|e0] w3]; [done | intros e [= <-]; by apply Hm].
Qed.

Lemma grow_capacity_refuses fuel c requested r : grow_capacity fuel c requested = Some r -> refuses r.
Proof.
  revert c. induction fuel as [|fuel IH]; intros c; cbn [grow_capacity]; [done|].
  destruct (Z.ltb c requested); [|by intros [= <-]]. destruct (Z.ltb _ c); [by intros [= <-] e [= <-] | apply IH].
Qed.

Lemma sink_construct_refuses (os : posix W) peek kill_ok name capacity me w r w' :
  sink_construct os peek kill_ok name capacity me w = Some (r, w') -> refuses r.
Proof.
  unfold sink_construct. destruct (try_open os w name) as [opened w1].
  destruct (other_producer _ _ _ _ _); [by intros [= <- _] e [= <-]|]. pose proof (page_size_refuses os w1) as Hp.
  destruct (page_size os w1) as [page|e']; [|intros [= <- _] e [= <-]; by apply Hp].
  destruct (normalize_capacity page capacity) as [r1|] eqn:E; [|done]. apply grow_capacity_refuses in E.
  destruct r1 as [cap|e']; cbn [mbind option_bind]; [|intros [= <- _] e [= <-]; by apply E].
  pose proof (create_refuses os w1 name cap) as Hc. destruct (create os w1 name cap) as [[region|e'] w2]; [by intros [= <- _]|].
  intros [= <- _] e [= <-]. by apply Hc.
Qed.

Lemma producer_loop_code {G} gen_fill checksum config size turns (s : producer_state G) :
  match producer_loop gen_fill checksum config size turns s with Returned code _ _ => code = 0 | _ => True end.
Proof.
  revert s. induction turns as [|t turns IH]; intros s; cbn [producer_loop]; [done|].
  destruct (pt_stop t); [done|]. destruct (_ && _); [done|].
  destruct (producer_body _ _ _ _ _) as [es s1|es s1|]; try done. specialize (IH s1).
  by destruct (producer_loop _ _ _ _ _ s1).
Qed.

Lemma run_consumer_code find config policy v stats rounds :
  match run_consumer find config policy v stats rounds with Returned code _ _ => code = 0 | _ => True end.
Proof.
  revert v stats. induction rounds as [|r rounds IH]; intros v stats; cbn [run_consumer]; [done|].
  destruct (_ || _); [done|]. destruct (run_session _ _ _ _ _ _ _ _) as [s es|code s es|]; try done.
  destruct (cc_once config); [done|]. specialize (IH (cs_validator s) (cs_stats s)).
  by destruct (run_consumer _ _ _ _ _ _).
Qed.

Lemma run_code config max_packet_size attached now gen limiter turns checksum :
  match run fill checksum config max_packet_size attached now gen limiter turns with
  | Ret (Returned code _ _) => code = 0
  | Ret _ => True
  | Throw e => fatal e = true
  end.
Proof.
  unfold run. destruct (Z.ltb _ _); [done|]. destruct (_ && _); [done|]. destruct (new_timer _ _) as [p|]; [|done].
  pose proof (producer_loop_code fill checksum config (u64 (kHeaderSize + pc_payload_size config)) turns
    (initial_producer gen limiter p now)) as Hc. by destruct (producer_loop _ _ _ _ _ _).
Qed.

Lemma run_producer_ends env config name s checksum gen limiter :
  ends_with (fun code => code = 0) (run_producer (W := W) env config name s checksum gen limiter).
Proof.
  unfold run_producer. pose proof (run_code config (max_record_size (sk_ring s)) (pe_attached env) (pe_started env) gen limiter
    (pe_turns env) checksum) as Hc.
  destruct (run _ _ _ _ _ _ _ _ _) as [r|e]; [|by apply ends_throw]. destruct r as [st es|code st es|]; [|subst code|]; conclude.
Qed.

Lemma ends_signals {A} P c (body : computation (machine W) A) : ends_with P body -> ends_with P (with_signals c body).
Proof.
  intros Hb. apply ends_scoped; [|done]. intros m e. unfold SignalControlSource.
  destruct (negb _); [by intros [= <-]|]. destruct (sc_thread c); [by intros [= <-] | done].
Qed.

Lemma ends_keyboard {A} P enabled c (body : bool -> computation (machine W) A) :
  (forall b, ends_with P (body b)) -> ends_with P (with_keyboard enabled c body).
Proof.
  intros Hb. unfold with_keyboard. destruct (_ && _); [|done]. apply ends_scoped; [|done].
  intros m e. unfold KeyboardControlSource, RawTerminal. destruct (tc_getattr c); [by intros [= <-]|].
  destruct (tc_setattr c); [by intros [= <-]|]. destruct (tc_thread c); [by intros [= <-] | done].
Qed.

Lemma ends_sink {A} P os peek env name capacity (body : sink -> computation (machine W) A) :
  (forall s, ends_with P (body s)) -> ends_with P (with_sink os peek env name capacity body).
Proof.
  intros Hb m. unfold with_sink. destruct (sink_construct _ _ _ _ _ _ _) as [[r w]|] eqn:E; [|done].
  apply sink_construct_refuses in E. exact (ends_scoped P (fun m => (r, set_os m w)) _ body (fun _ => E) Hb m).
Qed.

Lemma make_checksum_refuses features name : refuses (make_checksum features name).
Proof. unfold make_checksum. intros e. repeat case_match; intros [= <-]; done. Qed.

Lemma make_payload_generator_refuses kind seed : refuses (make_payload_generator kind seed).
Proof. unfold make_payload_generator. intros e. repeat case_match; intros [= <-]; done. Qed.

Lemma make_pause_policy_refuses name : refuses (make_pause_policy name).
Proof. unfold make_pause_policy. intros e. repeat case_match; intros [= <-]; done. Qed.

Lemma producer_program_ends os peek env o : ends_with (fun code => code = 0) (producer_program (W := W) os peek env o).
Proof.
  unfold producer_program. apply ends_signals, ends_keyboard. intros keyboard.
  apply ends_then; [apply ends_throwing, make_checksum_refuses|]. intros checksum.
  apply ends_then; [apply ends_throwing, make_payload_generator_refuses|]. intros gen. apply ends_sink. intros s.
  destruct (limiter_of_rate _ _); conclude. apply run_producer_ends.
Qed.

Lemma consumer_program_ends env o : (forall e, ce_connect_error env = Some e -> fatal e = true) ->
  ends_with (fun code => code = 0) (consumer_program (W := W) env o).
Proof.
  intros Herr. unfold consumer_program, run_consumer_app. apply ends_signals, ends_keyboard. intros keyboard.
  apply ends_then; [apply ends_throwing, make_pause_policy_refuses|]. intros policy. conclude.
  pose proof (run_consumer_code (registry_find (ce_cpu env)) (consumer_config o) policy (new_validator kFutureTolerance)
    (new_stats (ce_started env)) (ce_rounds env)) as Hc.
  destruct (run_consumer _ _ _ _ _ _) as [st es|code st es|]; [|subst code|]; conclude.
  destruct (ce_connect_error env); [by apply ends_throw, Herr | apply ends_unfinished].
Qed.
End Codes.

(** ** Properties *)

(** How [main] answers to the command line and to what the program does with
    it: the exit code, what is written to the error stream, and, after
    [--help], what is printed.  [ended] says how the program's own part ended. *)
Definition answers {W O} (program : string) (strerror : Z -> string) (parsed : outcome (O + string))
    (ended : O -> outcome Z -> Prop) (m m' : machine W) (code : Z) : Prop :=
  match parsed with
  | Throw e =>
      exists text, e = UsageError text /\ code = 1 /\ m_out m' = m_out m /\
        m_err m' = m_err m ++ [program +:+ ": " +:+ text +:+ newline +:+ "Try '" +:+ program +:+ " --help' for usage." +:+ newline]
  | Ret (inr help) => code = 0 /\ m_out m' = m_out m ++ [HelpText help] /\ m_err m' = m_err m
  | Ret (inl o) => exists result, ended o result /\
      match result with
      | Ret _ => result = Ret 0 /\ code = 0 /\ m_err m' = m_err m
      | Throw e => fatal e = true /\ code = 2 /\ m_err m' = m_err m ++ [program +:+ ": fatal: " +:+ what strerror e +:+ newline]
      end
  end.

Lemma main_exit {W O} (maps : W -> W -> Prop) `{!Reflexive maps} `{!Transitive maps} program strerror
    (parsed : outcome (O + string)) (body : O -> computation (machine W) Z) m r m' :
  usage_only parsed -> (forall o, settles (restored maps) (body o)) -> (forall o, ends_with (fun code => code = 0) (body o)) ->
  catching (with_options parsed body) (handler program strerror) m = Finished r m' ->
  (exists m1, restored maps m m1 /\ m_os m' = m_os m1 /\ m_ring m' = m_ring m1 /\ m_tty m' = m_tty m1 /\
    m_process m' = m_process m1) /\
  exists code, r = Ret code /\
    answers program strerror parsed (fun o result => exists m1, body o m = Finished result m1 /\ m_out m' = m_out m1) m m' code.
Proof.
  intros Husage Hs Hz. unfold catching, with_options, and_then, throwing. destruct parsed as [[o|help]|e].
  - destruct (body o m) as [[code|e] m1 | m1 |] eqn:E; [| |done..]; pose proof (Hs _ _ _ _ E) as Hr; pose proof (Hz _ _ _ _ E) as Hend; cbn in Hend.
    + subst code. intros [= <- <-]. split; [by exists m1|]. exists 0. split; [done|]. exists (Ret 0).
      split; [by exists m1|]. by rewrite (rs_err _ _ _ Hr).
    + intros Hh. assert (r = Ret 2 /\ m' = print_error (program +:+ ": fatal: " +:+ what strerror e +:+ newline) m1) as [-> ->].
      { destruct e; [discriminate Hend|..]; by injection Hh as <- <-. }
      split; [by exists m1|]. exists 2. split; [done|]. exists (Throw e). split; [by exists m1|].
      unfold print_error. cbn. by rewrite (rs_err _ _ _ Hr).
  - intros [= <- <-]. split; [by exists (print [HelpText help] m); split; [apply restored_print|]; done|]. by exists 0.
  - destruct Husage as [text ->]. intros [= <- <-]. split; [by exists m|]. exists 1. split; [done|]. by exists text.
Qed.

(** C15. However the producer ends, [main] answers as it should ([answers]): to a
    malformed command line with 1 and the usage message of that very mistake, to
    [--help] with 0 and the help text, to a finished run with 0 and no message, and
    to any other exception, whatever object or call it comes from, with 2 and
    "fatal" and that exception's text.  Whichever it is, the process is left as it
    was found, provided that setting the terminal's saved attributes again
    succeeds: the terminal's attributes restored, both control threads joined,
    every mapping undone; a ring that was made is marked finished. *)
Theorem producer_main_cleans_up {W} (os : posix W) peek env args m r m' :
  PosixLaws os -> NameLaws os -> tc_restore (pe_terminal env) = None ->
  signal_thread (m_process m) = false -> keyboard_thread (m_process m) = false -> m_ring m = None ->
  producer_main os peek env args m = Finished r m' ->
  same_maps os (m_os m) (m_os m') /\ m_tty m' = m_tty m /\
  signal_thread (m_process m') = false /\ keyboard_thread (m_process m') = false /\
  (forall c, m_ring m' = Some c -> rc_state c = state_code ProducerFinished) /\
  exists code, r = Ret code /\
    answers "producer" (pe_strerror env) (parse_producer_options args)
      (fun o result => exists m1, producer_program os peek env o m = Finished result m1 /\ m_out m' = m_out m1) m m' code.
Proof.
  intros Hos Hn Hc Hs Hk Hring Hm. apply (main_exit (same_maps os)) in Hm as [(m1 & [H1 H2 H3 H4 H5 H6] & -> & -> & -> & ->) Hx].
  - split_and!; auto. intros c Hc'. destruct H6 as [H6 | (c' & H6 & Hf)]; [congruence|]. rewrite H6 in Hc'. by injection Hc' as <-.
  - apply producer_options_usage.
  - intros o. by apply producer_program_restores.
  - intros o. apply producer_program_ends.
Qed.

(** A run on the toy system: an interactive terminal, one packet. *)
Definition demo_tty : termios := {| c_lflag := 35387; c_vmin := 4; c_vtime := 9; c_others := [1280; 5; 191] |}.

Definition demo_terminal : terminal_calls := {|
  ICANON := 2; ECHO := 8; tc_isatty := 1; tc_tcgetpgrp := 77; tc_getpgrp := 77; tc_getattr := None; tc_setattr := None;
  tc_restore := None; tc_thread := None; tc_thread_text := "" |}.

Definition demo_signals : signal_calls := {| sc_sigmask := 0; sc_thread := None; sc_thread_text := "" |}.

Definition demo_machine {W} (w : W) : machine W := {|
  m_os := w; m_ring := None; m_tty := demo_tty;
  m_process := {| blocked := false; signal_thread := false; keyboard_thread := false |}; m_out := []; m_err := [] |}.

Definition demo_environment : producer_environment := {|
  pe_cpu := sse42; pe_avx2 := false; pe_kill_ok := fun _ => false; pe_pid := 42; pe_signals := demo_signals;
  pe_terminal := demo_terminal; pe_created := 0; pe_started := 0; pe_attached := true;
  pe_turns := [demo_turn (Some (repeat 9 36)) 10; demo_turn None 20]; pe_strerror := fun _ => "" |}.

Definition demo_arguments : list string :=
  ["4"; "-n"; "/ring"; "-r"; "4K"; "-c"; "1"; "-g"; "sequential"; "-k"; "crc32"]%string.

Definition demo_producer : exec (machine toy) Z :=
  producer_main toy_os (fun _ _ => zero_control) demo_environment demo_arguments (demo_machine toy_start).

(** The exit code, the committed packets, and the terminal mode of the run
    while the application is in it. *)
Definition exit_summary {W} (r : exec (machine W) Z) : option (Z * nat * nat) :=
  match r with
  | Finished (Ret code) m =>
      Some (code, length (m_out m), length (commits (omap (fun o => match o with Produced e => Some e | _ => None end) (m_out m))))
  | _ => None
  end.

Lemma demo_producer_summary : exit_summary demo_producer = Some (0, 6%nat, 1%nat).
Proof. vm_compute. reflexivity. Qed.

Lemma producer_main_cleans_up_witness :
  exists m', demo_producer = Finished (Ret 0) m' /\ m_tty m' = demo_tty /\ keyboard_thread (m_process m') = false /\
    resolve toy_os (m_os m') 5000 = None /\ m_err m' = [].
Proof.
  pose proof demo_producer_summary as Hs.
  destruct demo_producer as [r m' | m' |] eqn:E; [|discriminate Hs..].
  destruct (producer_main_cleans_up toy_os (fun _ _ => zero_control) demo_environment demo_arguments (demo_machine toy_start)
    r m' toy_laws toy_names_laws eq_refl eq_refl eq_refl eq_refl E) as (Hm & Ht & _ & Hk & _ & code & -> & Hx).
  injection Hs as -> _ _. exists m'. split_and!; [done | exact Ht | exact Hk | exact (Hm 5000) |].
  destruct (parse_producer_options demo_arguments) as [[o|help]|e] eqn:Ep; [|by vm_compute in Ep..].
  destruct Hx as ([code|e] & _ & Hx); [by destruct Hx as (_ & _ & Hx) | by destruct Hx as (_ & Hx & _)].
Defined.

(** The consumer's [main] likewise: exit code and message, the terminal
    restored and the threads joined, however it ends.  (Its mappings come and go
    with its attachments: [attachment_lifetime].) *)
Theorem consumer_main_cleans_up {W} env args (m : machine W) r m' :
  tc_restore (ce_terminal env) = None -> (forall e, ce_connect_error env = Some e -> fatal e = true) ->
  signal_thread (m_process m) = false -> keyboard_thread (m_process m) = false ->
  consumer_main env args m = Finished r m' ->
  m_tty m' = m_tty m /\ signal_thread (m_process m') = false /\ keyboard_thread (m_process m') = false /\
  exists code, r = Ret code /\
    answers "consumer" (ce_strerror env) (parse_consumer_options args)
      (fun o result => exists m1, consumer_program env o m = Finished result m1 /\ m_out m' = m_out m1) m m' code.
Proof.
  intros Hc Herr Hs Hk Hm. apply (main_exit eq) in Hm as [(m1 & [H1 H2 H3 H4 H5 H6] & _ & _ & -> & ->) Hx]; [|apply _..| | |].
  - split_and!; auto.
  - apply consumer_options_usage.
  - intros o. by apply consumer_program_restores; try apply _.
  - intros o. by apply consumer_program_ends.
Qed.

Definition demo_consumer_environment : consumer_environment := {|
  ce_cpu := sse42; ce_signals := demo_signals; ce_terminal := demo_terminal; ce_started := 0; ce_rounds := [];
  ce_connect_error := Some (RuntimeError "another consumer (pid 7) is already attached to /pc-ring");
  ce_strerror := fun _ => "" |}.

(** Another consumer is attached: a fatal message and 2, and the terminal is as before. *)
Lemma consumer_main_cleans_up_witness :
  match consumer_main demo_consumer_environment [] (demo_machine tt) with
  | Finished r m' =>
      r = Ret 2 /\ m_tty m' = demo_tty /\ keyboard_thread (m_process m') = false /\ length (m_err m') = 1%nat
  | _ => False
  end.
Proof.
  assert (Hs : match consumer_main demo_consumer_environment [] (demo_machine tt) with
               | Finished (Ret code) _ => Z.eqb code 2 | _ => false end = true) by (vm_compute; reflexivity).
  destruct (consumer_main demo_consumer_environment [] (demo_machine tt)) as [r m' | m' |] eqn:E; [|discriminate Hs..].
  destruct (consumer_main_cleans_up demo_consumer_environment [] (demo_machine tt) r m' eq_refl) as (Ht & _ & Hk & code & -> & Hx);
    [by intros e [= <-] | done | done | done |].
  apply Z.eqb_eq in Hs. subst code. split_and!; [done | exact Ht | exact Hk |].
  destruct (parse_consumer_options []) as [[o|help]|e'] eqn:Ep; [|by vm_compute in Ep..].
  destruct Hx as ([code|e] & _ & Hx); [by destruct Hx as (_ & Hx & _) | destruct Hx as (_ & _ & ->)]. reflexivity.
Defined.
