(* ===== verification/EndToEnd.v ===== *)
(** The whole system: a producer process, the ring, a consumer process.

    The producer's run gives the records it commits, an execution of the ring
    carries them, and a session of the consumer processes the records it was
    shown and released.  The three are connected only through those records. *)
From Stdlib Require Import ZArith Lia.
From stdpp Require Import base numbers list strings.
From S2P Require Import Prelude Checksum Packet Memory RingBuffer RingProtocol PayloadGenerator PacketBuilder PacketValidator Stats Transport RateLimiter ProducerApp ConsumerApp.

(** ** The records a ring execution delivers *)

(** What was delivered, and the record in view: it counts as delivered when
    the consumer releases it. *)
Definition deliver (s : list bytes * option bytes) (e : event) : list bytes * option bytes :=
  match e with
  | Read r => (s.1, Some r)
  | Release => (s.1 ++ option_list s.2, None)
  | _ => s
  end.

Definition delivery (evs : list event) : list bytes * option bytes := fold_left deliver evs ([], None).
Definition delivered (evs : list event) : list bytes := (delivery evs).1.

Lemma delivery_snoc evs e : delivery (evs ++ [e]) = deliver (delivery evs) e.
Proof. unfold delivery. by rewrite fold_left_app. Qed.

Lemma peek_none_pending c h mem c' : try_peek c h mem = Some (None, c') -> c_pending c' = c_pending c.
Proof.
  unfold try_peek. destruct (c_corrupted c); [by intros [= <-]|].
  destruct (Z.eqb (c_pending c) 0); cbn [negb]; [|discriminate].
  set (c1 := if Z.eqb _ _ then _ else c). assert (Hc1 : c_pending c1 = c_pending c) by (unfold c1; by destruct (Z.eqb _ _)).
  destruct (Z.eqb (c_cached_head c1) (c_tail c1)); [by intros [= <-]|].
  destruct (load_bytes _ _ _); cbn [mbind option_bind]; [|discriminate].
  destruct (_ || _); [by intros [= <-] | discriminate].
Qed.

(** The record in view is the oldest unreleased one whenever the consumer
    holds a slot. *)
Definition view_ok (view : option bytes) (c : RingConsumer) (q : list bytes) : Prop :=
  c_pending c <> 0 -> view = head q /\ q <> [].

Lemma view_step cap st q e st' q' view :
  queue_step cap q e q' -> ring_step st e st' -> view_ok view (r_cons st) q ->
  view_ok (deliver ([], view) e).2 (r_cons st') q' /\ (e = Release -> view = head q).
Proof.
  intros Hq Hstep Hv. unfold view_ok in *.
  destruct Hstep; cbn [r_cons deliver snd] in *; (split; [|first [discriminate | intros _]]); inversion Hq; subst; try done.
  - intros Hne. destruct (Hv Hne) as [-> Hq0]. destruct q; [done|]. by split.
  - rewrite (peek_none_pending _ _ _ _ H0). done.
  - unfold release in H. destruct (Z.eqb (c_pending c) 0); [discriminate|]. by injection H as <- _.
  - unfold release in H. destruct (Z.eqb_spec (c_pending c) 0); [discriminate|]. by destruct Hv.
  - unfold release in H. destruct (Z.eqb (c_pending c) 0); [by injection H as <- | discriminate].
Qed.

Lemma delivered_prefix mem evs st :
  is_capacity (area mem) -> all_bytes mem -> ring_exec (initial_ring mem) evs st ->
  exists q, ring_rel (area mem) st q /\ committed evs = delivered evs ++ q /\ length (delivered evs) = releases evs /\
    view_ok (delivery evs).2 (r_cons st) q.
Proof.
  intros Hcap Hm Hexec. remember (initial_ring mem) as st0 eqn:E0.
  induction Hexec as [st0 | st0 evs st1 e st2 Hexec IH Hstep]; subst.
  { exists []. split; [by apply initial_ring_rel|]. by split_and!. }
  destruct (IH eq_refl) as (q & Hrel & Hcom & Hlen & Hview).
  destruct (ring_rel_step _ _ _ _ _ Hcap Hrel Hstep) as (q' & Hqs & Hrel').
  destruct (view_step _ _ _ _ _ _ _ Hqs Hstep Hview) as [Hview' Hreleased].
  exists q'. split; [done|]. unfold delivered in *. rewrite delivery_snoc, committed_app, releases_app, Hcom.
  inversion Hqs; subst; cbn [committed releases deliver fst snd] in *; rewrite ?app_nil_r, ?Nat.add_0_r, ?app_assoc; try done.
  rewrite Hreleased by done. cbn [head option_list]. rewrite <- app_assoc, length_app. cbn. split_and!; [done | lia | done].
Qed.

(** ** What the validator makes of a producer's records *)

(** The record with sequence number [n], and no complaint about its content or
    its place in the sequence. *)
Definition accepted (n : Z) (r : ValidationResult) : Prop :=
  corrupted r = false /\ has r SequenceGap = false /\ has r SequenceRewind = false /\
  missing r = 0 /\ vr_sequence r = u64 n.

Lemma sealed_accepted find `{!RegistryLaws find} v n ts record now r v' :
  is_i64 ts -> sealed_record find (u64 n) ts record -> (has_baseline v = true -> expected_sequence v = u64 n) ->
  validate find v record now = Some (r, v') ->
  accepted n r /\ has_baseline v' = true /\ expected_sequence v' = u64 (n + 1).
Proof.
  intros Hts Hrec Hexp Hv. destruct (sealed_record_intact find _ _ _ (u64_range n) Hts Hrec) as (Hi & _ & _ & h & Hh & Hs & _).
  apply validate_cases in Hv as [(Hi' & _) | (_ & Hc & h' & Hh' & Hd & Hsq & Hm & _ & ->)]; [congruence|].
  assert (h' = h) as -> by congruence. unfold accepted. rewrite Hc, !(has_encode r _ _ Hd), Hm, Hsq, Hs.
  unfold skipped, stream_fault. cbn [advance has_baseline expected_sequence]. rewrite Hs, u64_add_l.
  destruct (has_baseline v); cbn [andb]; [|by split_and!]. rewrite Hexp by done.
  rewrite !bool_decide_false by lia. by split_and!.
Qed.

Lemma sealed_stream_accepted find `{!RegistryLaws find} size v n l rs v' :
  sealed_from find size n (map fst l) -> (has_baseline v = true -> expected_sequence v = u64 n) ->
  validate_all find v l = Some (rs, v') ->
  forall i r, rs !! i = Some r -> accepted (n + Z.of_nat i) r.
Proof.
  revert v n rs. induction l as [|[record now] l IH]; intros v n rs Hsealed Hexp Hv i r Hi.
  { injection Hv as <- _. done. }
  cbn [validate_all map fst] in *. destruct Hsealed as ((ts & Hts & Hrec) & _ & Hsealed).
  destruct (validate find v record now) as [[r0 v1]|] eqn:E; cbn [mbind option_bind] in Hv; [|discriminate].
  destruct (validate_all find v1 l) as [[rs1 v2]|] eqn:E2; cbn [mbind option_bind] in Hv; [|discriminate].
  injection Hv as <- <-. destruct (sealed_accepted find v n ts record now r0 v1 Hts Hrec Hexp E) as (Ha & _ & Hexp1).
  destruct i as [|i]; cbn in Hi.
  - injection Hi as <-. by rewrite Z.add_0_r.
  - replace (n + Z.of_nat (S i)) with (n + 1 + Z.of_nat i) by lia. by apply (IH v1 (n + 1) rs1).
Qed.

Lemma sealed_from_take find size n a b : sealed_from find size n (a ++ b) -> sealed_from find size n a.
Proof.
  revert n. induction a as [|r a IH]; intros n H; [done|]. cbn [app sealed_from] in *. destruct H as (H1 & H2 & H3).
  split_and!; [done | done | by apply IH].
Qed.

(** ** Executable runs of the ring, with loads of the newest values *)

Definition newest (l : list Z) : Z := default 0 (last l).

Definition publish (st : ring) (r : bytes) : option ring :=
  let p := r_prod st in
  let t := newest (r_tails st) in
  let size := Z.of_nat (length r) in
  match try_reserve p t (r_mem st) size with
  | Some (Some _, p', mem) =>
      mem' ← store_bytes mem (slot_offset p' + 0) r;
      match commit p' with
      | (p'', Some h) =>
          stored ← load_bytes mem' (slot_offset p') (Z.to_nat (p_pending p' - kRecordPrefixSize));
          if bool_decide (stored = r /\ Z.ltb size (2 ^ 64) = true /\ Z.leb (0 + size) (p_pending p' - kRecordPrefixSize) = true /\
                          Z.eqb (p_pending p') 0 = false) then
            Some {| r_mem := mem'; r_prod := p''; r_cons := r_cons st; r_heads := r_heads st ++ [h];
                    r_tails := if reserve_loads_tail p size then [t] else r_tails st |}
          else None
      | _ => None
      end
  | _ => None
  end.

Definition take_next (st : ring) : option (event * event * ring) :=
  let '(c, stored) := release (r_cons st) in
  let tails := match stored with Some t => r_tails st ++ [t] | None => r_tails st end in
  let h := newest (r_heads st) in
  let heads := if peek_loads_head c then [h] else r_heads st in
  let first := match stored with Some _ => Release | None => Tau end in
  match try_peek c h (r_mem st) with
  | Some (Some (off, len), c') =>
      r ← load_bytes (r_mem st) off (Z.to_nat len);
      Some (first, Read r, {| r_mem := r_mem st; r_prod := r_prod st; r_cons := c'; r_heads := heads; r_tails := tails |})
  | Some (None, c') =>
      Some (first, Empty, {| r_mem := r_mem st; r_prod := r_prod st; r_cons := c'; r_heads := heads; r_tails := tails |})
  | None => None
  end.

Lemma acquires_newest cond l : l <> [] -> acquires_if cond l (newest l) (if cond then [newest l] else l).
Proof.
  intros Hne. destruct cond; [|done]. unfold newest. destruct l as [|x l] using rev_ind; [done|].
  rewrite last_snoc. apply acquires_intro.
Qed.

Lemma publish_exec st0 evs st r st' : ring_exec st0 evs st -> r_tails st <> [] -> all_bytes r ->
  publish st r = Some st' -> ring_exec st0 (((evs ++ [Tau]) ++ [Tau]) ++ [Commit r]) st'.
Proof.
  intros Hexec Hne Hr Hp. destruct st as [mem p c heads tails]. unfold publish in Hp. cbn [r_prod r_tails r_mem r_cons r_heads] in *.
  destruct (try_reserve p (newest tails) mem (Z.of_nat (length r))) as [[[[span|] p'] mem1]|] eqn:E1; try discriminate.
  destruct (store_bytes mem1 (slot_offset p' + 0) r) as [mem2|] eqn:E2; cbn [mbind option_bind] in Hp; [|discriminate].
  destruct (commit p') as [p2 [h|]] eqn:E3; [|discriminate].
  destruct (load_bytes mem2 (slot_offset p') _) as [stored|] eqn:E4; cbn [mbind option_bind] in Hp; [|discriminate].
  case_bool_decide as Hd; [|discriminate]. destruct Hd as (-> & Hs & Hle & H0). injection Hp as <-.
  apply Z.ltb_lt in Hs. apply Z.leb_le in Hle. apply Z.eqb_neq in H0.
  eapply exec_step; [eapply exec_step; [eapply exec_step; [exact Hexec|]|]|].
  - eapply step_reserve; [| by apply acquires_newest | exact E1]. unfold is_u. lia.
  - eapply step_write; [done | reflexivity | exact Hle | done | exact E2].
  - by eapply step_commit.
Qed.

Lemma take_next_exec st0 evs st e1 e2 st' : ring_exec st0 evs st -> r_heads st <> [] ->
  take_next st = Some (e1, e2, st') -> ring_exec st0 ((evs ++ [e1]) ++ [e2]) st'.
Proof.
  intros Hexec Hne Ht. destruct st as [mem p c heads tails]. unfold take_next in Ht. cbn [r_prod r_tails r_mem r_cons r_heads] in *.
  destruct (release c) as [c1 stored] eqn:Er.
  set (tails1 := match stored with Some t => tails ++ [t] | None => tails end) in Ht.
  assert (Hfirst : ring_step (Build_ring mem p c heads tails) (match stored with Some _ => Release | None => Tau end)
    (Build_ring mem p c1 heads tails1)) by (unfold tails1; destruct stored; by constructor).
  destruct (try_peek c1 (newest heads) mem) as [[[[off len]|] c2]|] eqn:Ep; [| |discriminate].
  - destruct (load_bytes mem off (Z.to_nat len)) as [r|] eqn:El; cbn [mbind option_bind] in Ht; [|discriminate].
    injection Ht as <- <- <-. eapply exec_step; [by eapply exec_step|].
    eapply step_peek; [by apply acquires_newest | exact Ep | exact El].
  - injection Ht as <- <- <-. eapply exec_step; [by eapply exec_step|].
    eapply step_peek_empty; [by apply acquires_newest | exact Ep].
Qed.

Inductive act := Publish (r : bytes) | TakeNext.

Fixpoint drive (acts : list act) (evs : list event) (st : ring) : option (list event * ring) :=
  match acts with
  | [] => Some (evs, st)
  | Publish r :: acts =>
      if bool_decide (all_bytes r) then
        st ← publish st r; drive acts (((evs ++ [Tau]) ++ [Tau]) ++ [Commit r]) st
      else None
  | TakeNext :: acts => '(e1, e2, st) ← take_next st; drive acts ((evs ++ [e1]) ++ [e2]) st
  end.

Lemma drive_exec st0 acts evs st evs' st' : r_heads st <> [] -> r_tails st <> [] -> ring_exec st0 evs st ->
  drive acts evs st = Some (evs', st') -> ring_exec st0 evs' st'.
Proof.
  revert evs st. induction acts as [|[r|] acts IH]; intros evs st Hh Ht Hexec Hd; cbn [drive] in Hd.
  - by injection Hd as <- <-.
  - case_bool_decide as Hr; [|discriminate]. destruct (publish st r) as [st1|] eqn:E; cbn [mbind option_bind] in Hd; [|discriminate].
    eapply IH; [| | by eapply publish_exec | exact Hd].
    all: unfold publish in E; destruct (try_reserve _ _ _ _) as [[[[]] ]|]; try discriminate;
      destruct (store_bytes _ _ _); cbn [mbind option_bind] in E; try discriminate;
      destruct (commit _) as [? []]; try discriminate; destruct (load_bytes _ _ _); cbn [mbind option_bind] in E; try discriminate;
      destruct (bool_decide _); try discriminate; injection E as <-; cbn.
    + by destruct (r_heads st).
    + by destruct (reserve_loads_tail _ _).
  - destruct (take_next st) as [[[e1 e2] st1]|] eqn:E; cbn [mbind option_bind] in Hd; [|discriminate].
    eapply IH; [| | by eapply take_next_exec | exact Hd].
    all: unfold take_next in E; destruct (release _) as [c1 []]; destruct (try_peek _ _ _) as [[[[]|] ]|]; try discriminate;
      try (destruct (load_bytes _ _ _); cbn [mbind option_bind] in E; [|discriminate]); injection E as _ _ <-; cbn;
      try (by destruct (peek_loads_head _)); by destruct (r_tails st).
Qed.

(** ** Properties *)

(** End to end: whatever the schedules of the three parties - pauses,
    stop requests, a full queue, stale loads, timeouts - if the ring carries
    the packets that a run of the producer committed, and a session of the
    consumer processes the packets that the ring showed and the consumer gave
    back, then the processed packets are exactly the first packets of the
    producer's run, in order; each is accepted with its sequence number, none
    is corrupted, missing, or out of sequence, and the payloads are the
    generator's; and when a final read with the newest [head] finds nothing,
    every packet that the producer committed has been processed. *)
Theorem end_to_end m kind seed k checksum config max_packet now g turns attached limiter ps sent_events
    mem evs st cconfig v stats reset_at cnow cturns cs es :
  CpuSpec m -> producer_setup m kind seed k checksum config max_packet now g limiter turns ->
  run fill checksum config max_packet attached now g limiter turns
    ∈ [Ret (Running ps sent_events); Ret (Returned 0 ps sent_events)] ->
  is_capacity (area mem) -> all_bytes mem -> ring_exec (initial_ring mem) evs st ->
  committed evs = commits sent_events ->
  is_u 32 (cc_max_defect_logs cconfig) ->
  session_result (registry_find m) cconfig BlockingPausePolicy v stats reset_at cnow cturns cs es ->
  map fst (map fst (processed es)) = delivered evs ->
  let n := releases evs in
  map fst (map fst (processed es)) = take n (commits sent_events) /\
  (forall i record t r, processed es !! i = Some (record, t, r) -> accepted (Z.of_nat i) r) /\
  map (drop 32) (map fst (map fst (processed es)))
    = take n (payloads fill (Z.to_nat (pc_payload_size config)) (length (commits sent_events)) g) /\
  (forall h c', last (r_heads st) = Some h -> try_peek (r_cons st) h (r_mem st) = Some (None, c') ->
     map fst (map fst (processed es)) = commits sent_events).
Proof.
  intros Hm Hsetup Hrun Hcap Hmem Hexec Hcarried Hlogs Hsession Hshown n.
  destruct (run_sound m kind seed k checksum config max_packet now g turns attached limiter Hm Hsetup) as (r & Er & Hr).
  assert (Hsent : sent_stream (registry_find m) (Z.to_nat (kHeaderSize + pc_payload_size config))
    (pc_max_packets config) g ps sent_events).
  { rewrite Er in Hrun. apply list_elem_of_In in Hrun as [E | [E | []]]; injection E as <-; [done | by destruct Hr]. }
  destruct Hsent as (Hsealed & Hpay & _). pose proof (ps_payload _ _ _ _ _ _ _ _ _ _ _ Hsetup) as Hsize.
  replace (Z.to_nat (kHeaderSize + pc_payload_size config) - 32)%nat with (Z.to_nat (pc_payload_size config)) in Hpay
    by (unfold kHeaderSize; lia).
  destruct (delivered_prefix mem evs st Hcap Hmem Hexec) as (q & Hrel & Hcom & Hlen & _).
  rewrite Hcarried in Hcom. assert (Htake : map fst (map fst (processed es)) = take n (commits sent_events)).
  { rewrite Hshown, Hcom. symmetry. by apply take_app_length'. }
  split; [done|]. split; [|split].
  - assert (Hst := session_stretch (registry_find m) cconfig BlockingPausePolicy v stats reset_at cnow cturns cs es Hlogs Hsession).
    destruct Hst as (start & _ & Hv & _ & [_ _ Hval]). destruct (Hval eq_refl) as [_ Hall].
    intros i record t r0 Hi. rewrite <- (Z.add_0_l (Z.of_nat i)).
    eapply (sealed_stream_accepted (registry_find m) _ _ 0 (map fst (processed es))); [| |exact Hall|].
    + rewrite Hshown. eapply sealed_from_take. by rewrite <- Hcom.
    + by rewrite Hv.
    + by rewrite list_lookup_fmap, Hi.
  - by rewrite <- Hpay, Htake, firstn_map.
  - intros h c' Hh Hpeek. rewrite Hshown, Hcom. destruct q as [|r0 q]; [by rewrite app_nil_r|]. exfalso.
    by eapply nothing_left.
Qed.

(** Both packets of the demo run go through a ring of 64 bytes, which holds
    one of them at a time. *)
Definition demo_sent : list bytes :=
  match run fill Crc32 demo_config 4092 true 0 (Sequential 0) (new_limiter false 0 0) demo_run_turns with
  | Ret (Returned _ _ es) => commits es
  | _ => []
  end.

Definition demo_acts : list act :=
  match demo_sent with [a; b] => [Publish a; TakeNext; TakeNext; Publish b; TakeNext; TakeNext] | _ => [] end.

Definition demo_received : list consumer_turn :=
  map (fun r => demo_consumer_turn (Some r) false false) demo_sent ++ [demo_consumer_turn None false true].

Definition demo_run : outcome (run_result (producer_state generator) producer_event) :=
  run fill Crc32 demo_config 4092 true 0 (Sequential 0) (new_limiter false 0 0) demo_run_turns.

Definition demo_transfer : option (list event * ring) := drive demo_acts [] (initial_ring (repeat 0 64)).

Definition demo_consumption : run_result consumer_state consumer_event :=
  run_session (registry_find sse42) demo_consumer_config BlockingPausePolicy (new_validator 0) (new_stats 0) 5 10 demo_received.

Lemma demo_run_sent :
  match demo_run with Ret (Returned 0 _ es) => bool_decide (commits es = demo_sent) | _ => false end = true.
Proof. vm_compute. reflexivity. Qed.

Lemma demo_transfer_events :
  match demo_transfer with
  | Some (evs, _) => bool_decide (committed evs = demo_sent /\ delivered evs = demo_sent /\ releases evs = 2%nat)
  | None => false
  end = true.
Proof. vm_compute. reflexivity. Qed.

Lemma demo_consumption_records :
  match demo_consumption with Returned 0 _ es => bool_decide (map fst (map fst (processed es)) = demo_sent) | _ => false end = true.
Proof. vm_compute. reflexivity. Qed.

Lemma end_to_end_witness :
  exists cs es, demo_consumption = Returned 0 cs es /\ map fst (map fst (processed es)) = take 2 demo_sent.
Proof.
  pose proof demo_run_sent as Hrun. destruct demo_run as [[|[] ps sent|]|] eqn:Erun; try discriminate Hrun.
  pose proof demo_transfer_events as Hevs. destruct demo_transfer as [[evs st]|] eqn:Etr; [|discriminate Hevs].
  pose proof demo_consumption_records as Hes. destruct demo_consumption as [|[] cs es|] eqn:Econ; try discriminate Hes.
  assert (Hexec : ring_exec (initial_ring (repeat 0 64)) evs st).
  { eapply (drive_exec _ demo_acts []); [| | apply exec_refl | exact Etr]; cbn; discriminate. }
  apply bool_decide_eq_true in Hrun, Hevs, Hes. destruct Hevs as (Hcom & Hdel & Hn). exists cs, es. split; [reflexivity|].
  rewrite <- Hn, <- Hrun. destruct (end_to_end sse42 "sequential" 0 1 Crc32 demo_config 4092 0 (Sequential 0)
    demo_run_turns true (new_limiter false 0 0) ps sent (repeat 0 64) evs st demo_consumer_config (new_validator 0)
    (new_stats 0) 5 10 demo_received cs es) as (H & _).
  - apply _.
  - apply demo_setup.
  - apply list_elem_of_In. right. left. symmetry. exact Erun.
  - exists 6. split; [lia | reflexivity].
  - by_decide.
  - exact Hexec.
  - congruence.
  - by_decide.
  - right. exists 0. exact Econ.
  - congruence.
  - exact H.
Defined.
