(* ===== verification/SharedRing.v ===== *)
(** The ring as its two users see it: the operations of
    [common/src/ring_buffer.cpp] on the shared state, with the value each
    atomic load returns chosen by its position in the modification order, and
    their contract in terms of the queue of records.

    [Unavailable]: the chosen value is not (or no longer) one the load may
    return.  [Faults]: an access outside the mapping. *)
From Stdlib Require Import ZArith Lia Sorted.
From stdpp Require Import base numbers list sorting.
From S2P Require Import Prelude Memory RingBuffer RingProtocol.

Inductive shared (A : Type) :=
  | Unavailable
  | Faults
  | Gives (a : A) (r : ring).
Arguments Unavailable {A}.
Arguments Faults {A}.
Arguments Gives {A} _ _.

(** The [n]-th oldest value a load may still return, and what later loads may. *)
Definition visible (n : nat) (l : list Z) : option (Z * list Z) :=
  match drop n l with [] => None | v :: newer => Some (v, v :: newer) end.

(** ** Producer *)

(** One [try_reserve(size)]; the span it returns, if any. *)
Definition shared_reserve (n : nat) (size : Z) (r : ring) : shared (option (Z * Z)) :=
  match visible n (r_tails r) with
  | None => Unavailable
  | Some (t, newer) =>
      match try_reserve (r_prod r) t (r_mem r) size with
      | None => Faults
      | Some (span, p, mem) =>
          Gives span {| r_mem := mem; r_prod := p; r_cons := r_cons r; r_heads := r_heads r;
                        r_tails := if reserve_loads_tail (r_prod r) size then newer else r_tails r |}
      end
  end.

(** The bytes in the reserved slot. *)
Definition slot_bytes (r : ring) : option bytes :=
  load_bytes (r_mem r) (slot_offset (r_prod r)) (Z.to_nat (p_pending (r_prod r) - kRecordPrefixSize)).

Definition shared_write (record : bytes) (r : ring) : shared unit :=
  match store_bytes (r_mem r) (slot_offset (r_prod r)) record with
  | None => Faults
  | Some mem => Gives tt {| r_mem := mem; r_prod := r_prod r; r_cons := r_cons r; r_heads := r_heads r; r_tails := r_tails r |}
  end.

Definition shared_commit (r : ring) : ring :=
  let '(p, stored) := commit (r_prod r) in
  {| r_mem := r_mem r; r_prod := p; r_cons := r_cons r;
     r_heads := match stored with Some h => r_heads r ++ [h] | None => r_heads r end; r_tails := r_tails r |}.

(** ** Consumer *)

(** One [try_peek()]; the record it shows, if any. *)
Definition shared_peek (n : nat) (r : ring) : shared (option bytes) :=
  match visible n (r_heads r) with
  | None => Unavailable
  | Some (h, newer) =>
      let heads := if peek_loads_head (r_cons r) then newer else r_heads r in
      match try_peek (r_cons r) h (r_mem r) with
      | None => Faults
      | Some (None, c) =>
          Gives None {| r_mem := r_mem r; r_prod := r_prod r; r_cons := c; r_heads := heads; r_tails := r_tails r |}
      | Some (Some (offset, size), c) =>
          match load_bytes (r_mem r) offset (Z.to_nat size) with
          | None => Faults
          | Some record =>
              Gives (Some record)
                {| r_mem := r_mem r; r_prod := r_prod r; r_cons := c; r_heads := heads; r_tails := r_tails r |}
          end
      end
  end.

Definition shared_release (r : ring) : ring :=
  let '(c, stored) := release (r_cons r) in
  {| r_mem := r_mem r; r_prod := r_prod r; r_cons := c; r_heads := r_heads r;
     r_tails := match stored with Some t => r_tails r ++ [t] | None => r_tails r end |}.

(** The constructor of the consumer end on an existing ring: it loads [tail],
    which only consumers store and whose newest value it finds (it holds
    [consumer_pid], which the last one has released or left), and [head]. *)
Definition shared_attach (n : nat) (r : ring) : shared unit :=
  match visible n (r_heads r), last (r_tails r) with
  | Some (h, newer), Some tail =>
      Gives tt {| r_mem := r_mem r; r_prod := r_prod r;
                  r_cons := new_consumer (p_capacity (r_prod r)) tail h;
                  r_heads := newer; r_tails := r_tails r |}
  | _, _ => Unavailable
  end.

(** An acquire load by the consumer that reads a value the producer released
    after its last [commit]: every earlier value of [head] is out of sight. *)
Definition shared_sync (r : ring) : ring :=
  {| r_mem := r_mem r; r_prod := r_prod r; r_cons := r_cons r;
     r_heads := match last (r_heads r) with Some h => [h] | None => [] end; r_tails := r_tails r |}.

(** ** Contract *)

Section Contract.
Context (cap : Z) (Hcap : is_capacity cap).
Implicit Types (r : ring) (q : list bytes).

Lemma visible_acquires n l v l' : visible n l = Some (v, l') -> acquires l v l'.
Proof.
  unfold visible. destruct (drop n l) as [|x newer] eqn:E; [discriminate|]. intros [= -> <-].
  rewrite <- (take_drop n l), E. constructor.
Qed.

Lemma visible_acquires_if c n l v l' : visible n l = Some (v, l') -> acquires_if c l v (if c then l' else l).
Proof. intros H. destruct c; [by eapply visible_acquires | done]. Qed.

(** A silent step keeps the queue. *)
Lemma tau_rel r q r' : ring_rel cap r q -> ring_step r Tau r' -> ring_rel cap r' q.
Proof.
  intros Hrel Hstep. destruct (ring_rel_step cap r q Tau r' Hcap Hrel Hstep) as (q' & Hq & Hrel').
  inversion Hq; by subst.
Qed.

Lemma reserve_contract n size r q : ring_rel cap r q -> is_u 64 size ->
  match shared_reserve n size r with
  | Unavailable => True
  | Faults => False
  | Gives span r' => ring_rel cap r' q /\ r_cons r' = r_cons r /\ r_heads r' = r_heads r /\
      (is_Some span -> p_pending (r_prod r') = kRecordPrefixSize + size)
  end.
Proof.
  intros Hrel Hsize. unfold shared_reserve. destruct (visible n (r_tails r)) as [[t newer]|] eqn:Hv; [|done].
  apply (visible_acquires_if (reserve_loads_tail (r_prod r) size)) in Hv.
  destruct Hrel as (T & T' & ts & m0 & ms & HT & Hd & Hp & Hc).
  destruct (reserve_preserves cap Hcap _ _ _ _ _ _ _ _ _ _ HT Hd Hp Hsize Hv) as (span & p & mem & T2 & ts' & E & Hd' & Hp').
  rewrite E. split; [by exists T, T2, ts', m0, ms|]. split; [done|]. split; [done|]. intros [[off len] ->]. cbn [r_prod].
  pose proof (max_record_size_spec cap Hcap _ _ _ _ _ _ _ Hp) as Hmax. pose proof (capacity_bounds cap Hcap).
  unfold try_reserve in E. rewrite Hmax in E.
  destruct (Z.ltb_spec (Z.min (cap - kRecordPrefixSize) U32_MAX) size) as [|Hfit]; [discriminate|].
  cbv zeta in E. match type of E with (if ?b then _ else _) = _ => destruct b; [discriminate|] end.
  match type of E with mbind _ ?o = _ => destruct o; cbn [mbind option_bind] in E; [|discriminate] end.
  injection E as _ _ <- _. apply u64_small; unfold is_u, kRecordPrefixSize, U32_MAX in *; lia.
Qed.

Lemma slot_contract r q : ring_rel cap r q -> p_pending (r_prod r) <> 0 ->
  exists old, slot_bytes r = Some old /\ all_bytes old /\
    Z.of_nat (length old) = p_pending (r_prod r) - kRecordPrefixSize.
Proof.
  intros (T & T' & ts & m0 & ms & HT & Hd & Hp & Hc) Hne. unfold slot_bytes, slot_offset.
  destruct (pi_pending _ _ _ _ _ _ _ _ Hp) as [? | (Hrange & Hfit & _)]; [done|].
  pose proof (qsize_nonneg q). pose proof (pi_behind _ _ _ _ _ _ _ _ Hp).
  rewrite (slot_offset_mod cap Hcap _ _ _ _ _ _ _ Hp).
  rewrite (load_window cap Hcap); [| apply Hd | unfold kRecordPrefixSize; lia | unfold kRecordPrefixSize in *; lia].
  eexists. split; [done|]. split; [apply stream_bytes, Hd|]. rewrite stream_length. lia.
Qed.

Lemma write_contract record r q : ring_rel cap r q -> p_pending (r_prod r) <> 0 -> all_bytes record ->
  Z.of_nat (length record) = p_pending (r_prod r) - kRecordPrefixSize ->
  exists r', shared_write record r = Gives tt r' /\ ring_rel cap r' q /\ slot_bytes r' = Some record /\
    r_prod r' = r_prod r /\ r_cons r' = r_cons r /\ r_heads r' = r_heads r.
Proof.
  intros (T & T' & ts & m0 & ms & HT & Hd & Hp & Hc) Hne Hb Hlen. unfold shared_write.
  destruct (write_preserves cap Hcap _ _ _ _ _ _ _ 0 record HT Hd Hp Hne ltac:(lia) ltac:(lia) Hb) as (mem' & E & Hd' & Hp').
  rewrite Z.add_0_r in E. rewrite E. eexists. split; [done|]. split; [by exists T, T', ts, m0, ms|]. split; [|done].
  unfold slot_bytes, slot_offset in *. cbn [r_prod r_mem]. pose proof (slot_offset_mod cap Hcap _ _ _ _ _ _ _ Hp) as Hoff.
  rewrite Hoff in *. destruct (pi_pending _ _ _ _ _ _ _ _ Hp) as [? | (Hrange & Hfit & _)]; [done|].
  pose proof (pi_behind _ _ _ _ _ _ _ _ Hp). pose proof (qsize_nonneg q).
  destruct (store_window cap Hcap (r_mem r) (T + qsize q) kRecordPrefixSize record T (di_area _ _ _ _ Hd) (di_bytes _ _ _ _ Hd) Hb)
    as (mem2 & E2 & Ha & _ & Hs & _); [unfold kRecordPrefixSize in *; lia..|].
  assert (mem2 = mem') as -> by congruence.
  rewrite (load_window cap Hcap); [|done | unfold kRecordPrefixSize; lia | unfold kRecordPrefixSize in *; lia].
  rewrite <- Hlen, Nat2Z.id. by rewrite Hs.
Qed.

Lemma commit_contract record r q : ring_rel cap r q -> p_pending (r_prod r) <> 0 -> slot_bytes r = Some record ->
  ring_rel cap (shared_commit r) (q ++ [record]) /\ r_cons (shared_commit r) = r_cons r.
Proof.
  intros Hrel Hne Hslot. unfold shared_commit. destruct (commit (r_prod r)) as [p [h|]] eqn:E.
  - split; [|done]. destruct (ring_rel_step cap r q (Commit record)
      {| r_mem := r_mem r; r_prod := p; r_cons := r_cons r; r_heads := r_heads r ++ [h]; r_tails := r_tails r |} Hcap Hrel)
      as (q' & Hq & Hrel'); [destruct r; by eapply step_commit|]. inversion Hq; by subst.
  - unfold commit in E. destruct (Z.eqb_spec (p_pending (r_prod r)) 0); [done | discriminate].
Qed.

(** What the consumer holds: nothing, or the oldest record. *)
Definition holds (r : ring) (q : list bytes) (view : option bytes) : Prop :=
  match view with
  | None => c_pending (r_cons r) = 0
  | Some record => c_pending (r_cons r) <> 0 /\ head q = Some record
  end.

Lemma peek_contract n r q : ring_rel cap r q -> c_pending (r_cons r) = 0 ->
  match shared_peek n r with
  | Unavailable => True
  | Faults => False
  | Gives view r' => ring_rel cap r' q /\ holds r' q view /\ r_prod r' = r_prod r /\ r_mem r' = r_mem r /\
      (forall h, r_heads r = [h] -> r_heads r' = [h] /\ (view = None -> q = []))
  end.
Proof.
  intros Hrel H0. unfold shared_peek. destruct (visible n (r_heads r)) as [[h newer]|] eqn:Hv; [|done].
  pose proof (visible_acquires_if (peek_loads_head (r_cons r)) _ _ _ _ Hv) as Hacq.
  set (heads := if peek_loads_head (r_cons r) then newer else r_heads r) in *.
  destruct (Hrel) as (T & T' & ts & m0 & ms & HT & Hd & Hp & Hc).
  destruct (peek_preserves cap Hcap _ _ _ _ _ _ _ _ _ HT Hd Hc Hacq) as (m1 & ms1 & c' & Hc' & Hcase).
  assert (Hone : forall h0, r_heads r = [h0] -> heads = [h0] /\ h = h0).
  { intros h0 E. unfold heads. unfold visible in Hv. rewrite E in *. destruct n as [|[|n]]; cbn in Hv; try discriminate.
    injection Hv as <- <-. by destruct (peek_loads_head _). }
  assert (Hrel' : ring_rel cap {| r_mem := r_mem r; r_prod := r_prod r; r_cons := c'; r_heads := heads; r_tails := r_tails r |} q)
    by (by exists T, T', ts, m1, ms1).
  destruct Hcase as [(-> & Hpend & E) | (record & q' & off & -> & Hpend & E & Hl)]; rewrite E.
  - split; [done|]. split; [|split; [done | split; [done|]]].
    + cbn. destruct (ci_pending _ _ _ _ _ _ _ Hc') as [? | (? & ? & _ & _ & ?)]; [done | lia].
    + intros h0 Eh. destruct (Hone h0 Eh) as [Eh' ->]. split; [done|]. intros _. destruct q as [|record q]; [done|]. exfalso.
      eapply (nothing_left cap r record q h0 c' Hcap Hrel); [by rewrite Eh | done].
  - rewrite Nat2Z.id, Hl. split; [done|]. split; [|split; [done | split; [done|]]].
    + cbn. rewrite Hpend. pose proof (rec_size_pos record). unfold kRecordPrefixSize in *. split; [lia | done].
    + intros h0 Eh. split; [by apply Hone | discriminate].
Qed.

Lemma release_contract r q view : ring_rel cap r q -> holds r q view ->
  exists q', q = option_list view ++ q' /\ ring_rel cap (shared_release r) q' /\ c_pending (r_cons (shared_release r)) = 0 /\
    r_prod (shared_release r) = r_prod r /\ r_mem (shared_release r) = r_mem r /\ r_heads (shared_release r) = r_heads r.
Proof.
  intros Hrel Hv. unfold shared_release. destruct (release (r_cons r)) as [c stored] eqn:E.
  assert (Hpend : c_pending c = 0).
  { unfold release in E. destruct (Z.eqb_spec (c_pending (r_cons r)) 0); injection E as <- _; done. }
  destruct stored as [t|].
  - destruct (ring_rel_step cap r q Release
      {| r_mem := r_mem r; r_prod := r_prod r; r_cons := c; r_heads := r_heads r; r_tails := r_tails r ++ [t] |} Hcap Hrel)
      as (q' & Hq & Hrel'); [destruct r; by eapply step_release|]. inversion Hq; subst. exists q'.
    destruct view as [record|]; cbn [holds head option_list] in *.
    + destruct Hv as [_ [= <-]]. by split_and!.
    + unfold release in E. rewrite (proj2 (Z.eqb_eq _ _) Hv) in E. discriminate.
  - assert (Hc : c = r_cons r /\ c_pending (r_cons r) = 0).
    { unfold release in E. destruct (Z.eqb_spec (c_pending (r_cons r)) 0); [by injection E as <- | discriminate]. }
    destruct Hc as [-> Hzero]. destruct view as [record|]; cbn [holds] in Hv; [by destruct Hv|]. exists q.
    destruct r. by split_and!.
Qed.

(** The newest [tail] is the consumer's own. *)
Lemma newest_tail r q : ring_rel cap r q -> last (r_tails r) = Some (c_tail (r_cons r)).
Proof.
  intros (T & T' & ts & m0 & ms & _ & _ & Hp & Hc).
  by rewrite (pi_tails _ _ _ _ _ _ _ _ Hp), fmap_last, (pi_last _ _ _ _ _ _ _ _ Hp), (ci_tail _ _ _ _ _ _ _ Hc).
Qed.

Lemma attach_contract n r q : ring_rel cap r q ->
  match shared_attach n r with
  | Unavailable => True
  | Faults => False
  | Gives _ r' => ring_rel cap r' q /\ c_pending (r_cons r') = 0 /\ r_prod r' = r_prod r /\ r_mem r' = r_mem r
  end.
Proof.
  intros Hrel. unfold shared_attach. rewrite (newest_tail r q Hrel). destruct (visible n (r_heads r)) as [[h newer]|] eqn:Hv; [|done].
  split_and!; [|done..]. eapply tau_rel; [exact Hrel|]. destruct r. eapply step_attach. by eapply visible_acquires.
Qed.

Lemma sync_contract r q : ring_rel cap r q ->
  ring_rel cap (shared_sync r) q /\ r_cons (shared_sync r) = r_cons r /\ exists h, r_heads (shared_sync r) = [h].
Proof.
  intros (T & T' & ts & m0 & ms & HT & Hd & Hp & Hc). pose proof (ci_last _ _ _ _ _ _ _ Hc) as Hlast.
  assert (Hh : last (r_heads r) = Some (u64 (T + covered q (length q)))).
  { by rewrite (ci_heads _ _ _ _ _ _ _ Hc), fmap_last, Hlast. }
  unfold shared_sync. rewrite Hh. split; [|split; [done | by eexists]].
  exists T, T', ts, m0, [length q]. split_and!; try done. cbn. destruct Hc as [? ? ? ? ? ? ? ? ? ? ?].
  constructor; try done; repeat constructor; done.
Qed.

Lemma not_corrupted r q : ring_rel cap r q -> c_corrupted (r_cons r) = false.
Proof. intros (T & T' & ts & m0 & ms & _ & _ & _ & Hc). apply Hc. Qed.
End Contract.
