(* ===== verification/System.v ===== *)
(** The running system: both applications on one ring.

    [ProducerApp] and [ConsumerApp] are given what their transport returns;
    here the transport is the ring.  A step is a call that one of the two
    processes makes on the shared state, with the work that process does up to
    its next such call; a schedule is any sequence of steps, so it interleaves
    the processes and picks the value of every atomic load that may be stale.
    One turn of an application's loop is: its choices ([PTurn], [CTurn]), the
    attempts of [wait_until] ([PReserve], [CPeek]), and the result.

    Any number of consumer sessions may follow each other on the ring. *)
From Stdlib Require Import ZArith Lia.
From stdpp Require Import base numbers list strings.
From S2P Require Import Prelude Checksum Packet Memory RingBuffer RingProtocol PayloadGenerator PacketBuilder PacketValidator Stats Transport RateLimiter.
From S2P Require Import ProducerApp ConsumerApp EndToEnd SharedRing.

(** ** States *)

Inductive producer_place :=
  | AtHead (s : producer_state generator)
  | Reserving (s : producer_state generator) (t : producer_turn) (tried : bool)   (* in [sink_.reserve] *)
  | Building (s : producer_state generator) (t : producer_turn)                   (* holds a slot *)
  | Committing (s : producer_state generator) (rest : list producer_event)        (* the packet is in its slot *)
  | RunReturned
  | SinkDestroyed.

Inductive consumer_place :=
  | Detached (v : PacketValidator) (stats : ConsumerStats)
  | InSession (s : consumer_state)
  | Receiving (s : consumer_state) (t : consumer_turn) (tried : bool)             (* in [source_.receive] *)
  | LastCall (s : consumer_state) (t : consumer_turn).                            (* the final non-blocking one *)

Record system := {
  y_ring : ring;
  y_state : RingState;             (* the newest value of [control_->state] *)
  y_producer : producer_place;
  y_consumer : consumer_place;
  y_sent : list producer_event;
  y_got : list consumer_event;
}.

Definition producer_moves (y : system) (r : ring) (p : producer_place) (events : list producer_event) : system := {|
  y_ring := r; y_state := y_state y; y_producer := p; y_consumer := y_consumer y;
  y_sent := y_sent y ++ events; y_got := y_got y |}.

Definition consumer_moves (y : system) (r : ring) (c : consumer_place) (events : list consumer_event) : system := {|
  y_ring := r; y_state := y_state y; y_producer := y_producer y; y_consumer := c;
  y_sent := y_sent y; y_got := y_got y ++ events |}.

(** ** Steps *)

Inductive choice :=
  | PTurn (t : producer_turn)      (* the loop head and what the turn's other calls return *)
  | PReserve (n : nat)             (* an attempt, with the value of [tail] it loads *)
  | PGiveUp                        (* timeout or stop request *)
  | PBuild
  | PCommitSlot
  | PDestroy                       (* [~ShmPacketSink]: the stream is marked finished *)
  | CAttach (n : nat) (reset_at now : Z)
  | CTurn (t : consumer_turn)
  | CPeek (n : nat)
  | CGiveUp (sees_finished alive : bool)   (* no packet: what [peer_status] finds *)
  | CLastPeek (n : nat).

(** [NotEnabled]: the choice does not fit the state.  [Overflowed]: signed
    overflow of clock arithmetic.  [Faulted]: an access outside the mapping or
    the slot. *)
Inductive step_result := NotEnabled | Overflowed | Faulted | Goes (y : system).

Definition with_slot (t : producer_turn) (slot : option bytes) : producer_turn := {|
  pt_stop := pt_stop t; pt_paused := pt_paused t; pt_clock := pt_clock t; pt_slot := slot;
  pt_wall_clock := pt_wall_clock t; pt_now := pt_now t; pt_queue := pt_queue t |}.

Definition with_packet (t : consumer_turn) (packet : option bytes) (peer : PeerStatus) (last : option bytes) : consumer_turn := {|
  ct_stop := ct_stop t; ct_paused := ct_paused t; ct_packet := packet; ct_wall_clock := ct_wall_clock t;
  ct_peer := peer; ct_last := last; ct_now := ct_now t; ct_queue := ct_queue t |}.

Section System.
Context (checksum : IChecksum) (pconfig : ProducerConfig).
Context (find : Z -> option IChecksum) (cconfig : ConsumerConfig) (policy : pause_policy) (producer_pid : Z).

Definition record_size : Z := u64 (kHeaderSize + pc_payload_size pconfig).

(** A turn that ends without a packet. *)
Definition producer_idles (y : system) (s : producer_state generator) (t : producer_turn) : step_result :=
  match producer_body fill checksum record_size s (with_slot t None) with
  | Next events s => Goes (producer_moves y (y_ring y) (AtHead s) events)
  | Pacing _ _ => NotEnabled
  | Overflow => Overflowed
  end.

Definition producer_step (y : system) (c : choice) : step_result :=
  match y_producer y, c with
  | AtHead s, PTurn t =>
      if pt_stop t || (negb (Z.eqb (pc_max_packets pconfig) 0) && Z.leb (pc_max_packets pconfig) (pr_sequence s)) then
        Goes (producer_moves y (y_ring y) RunReturned [PSummary (pr_sequence s) (pr_total_bytes s) (pt_now t - pr_started s)])
      else if pt_paused t then producer_idles y s t
      else if negb (slot_defined (pr_limiter s) (pt_clock t).1 (pt_clock t).2) then Overflowed
      else
        match wait_for_slot (pr_limiter s) (pt_clock t).1 (pt_clock t).2 with
        | None => NotEnabled
        | Some _ => Goes (producer_moves y (y_ring y) (Reserving s t false) [])
        end
  | Reserving s t _, PReserve n =>
      match shared_reserve n record_size (y_ring y) with
      | Unavailable => NotEnabled
      | Faults => Faulted
      | Gives None r => Goes (producer_moves y r (Reserving s t true) [])
      | Gives (Some _) r => Goes (producer_moves y r (Building s t) [])
      end
  | Reserving s t true, PGiveUp => producer_idles y s t
  | Building s t, PBuild =>
      match slot_bytes (y_ring y) with
      | None => Faulted
      | Some old =>
          match producer_body fill checksum record_size s (with_slot t (Some old)) with
          | Next events s =>
              match commits events with
              | [record] =>
                  match shared_write record (y_ring y) with
                  | Gives _ r => Goes (producer_moves y r (Committing s events) [])
                  | _ => Faulted
                  end
              | _ => Faulted
              end
          | Pacing _ _ => NotEnabled
          | Overflow => Overflowed
          end
      end
  | Committing s events, PCommitSlot => Goes (producer_moves y (shared_commit (y_ring y)) (AtHead s) events)
  | RunReturned, PDestroy =>
      Goes {| y_ring := y_ring y; y_state := ProducerFinished; y_producer := SinkDestroyed; y_consumer := y_consumer y;
              y_sent := y_sent y; y_got := y_got y |}
  | _, _ => NotEnabled
  end.

(** [run_session] returns: the final release, [disconnect] and the summary. *)
Definition session_over (y : system) (r : ring) (s : consumer_state) (now : Z) (events : list consumer_event) : step_result :=
  Goes (consumer_moves y (shared_release r) (Detached (cs_validator s) (cs_stats s))
          (events ++ [CRelease; CDisconnect; CSummary (totals (cs_stats s)) (elapsed (cs_stats s) now)])).

(** The rest of a turn whose calls on the ring have returned, which left [r]. *)
Definition consumer_completes (y : system) (r : ring) (s : consumer_state) (t : consumer_turn) : step_result :=
  match session_body find cconfig policy s t with
  | Continue events s => Goes (consumer_moves y r (InSession s) events)
  | Break events s => session_over y r s (ct_now t) events
  | Overflows => Overflowed
  end.

Definition no_peer : PeerStatus := {| present := false; peer_alive := true; finished := false |}.

Definition consumer_step (y : system) (c : choice) : step_result :=
  match y_consumer y, c with
  | Detached v stats, CAttach n reset_at now =>
      match shared_attach n (y_ring y), new_timer (cc_report_interval cconfig) now with
      | Gives _ r, Some timer =>
          Goes (consumer_moves y r (InSession
            {| cs_validator := resync v; cs_stats := stats_reset stats reset_at; cs_timer := timer;
               cs_defect_logs := 0; cs_was_paused := false |}) [])
      | Unavailable, _ => NotEnabled
      | Faults, _ => Faulted
      | _, None => Overflowed
      end
  | InSession s, CTurn t =>
      if ct_stop t then session_over y (y_ring y) s (ct_now t) []
      else
        match policy, ct_paused t with
        | BlockingPausePolicy, true => consumer_completes y (shared_release (y_ring y)) s t
        | _, _ => Goes (consumer_moves y (shared_release (y_ring y)) (Receiving s t false) [])
        end
  | Receiving s t _, CPeek n =>
      match shared_peek n (y_ring y) with
      | Unavailable => NotEnabled
      | Faults => Faulted
      | Gives None r => Goes (consumer_moves y r (Receiving s t true) [])
      | Gives (Some record) r => consumer_completes y r s (with_packet t (Some record) no_peer None)
      end
  | Receiving s t true, CGiveUp sees alive =>
      if ct_paused t then consumer_completes y (y_ring y) s (with_packet t None no_peer None)
      else if sees && negb (Z.eqb (state_code (y_state y)) (state_code ProducerFinished)) then NotEnabled
      else
        let r := if sees then shared_sync (y_ring y) else y_ring y in
        let peer := source_peer_status (fun _ => alive) (Some (r_cons r)) producer_pid
                      (state_code (if sees then ProducerFinished else Ready)) in
        let t := with_packet t None peer None in
        if finished peer || negb (peer_alive peer) then Goes (consumer_moves y r (LastCall s t) [])
        else consumer_completes y r s t
  | LastCall s t, CLastPeek n =>
      match shared_peek n (shared_release (y_ring y)) with
      | Unavailable => NotEnabled
      | Faults => Faulted
      | Gives last r => consumer_completes y r s (with_packet t None (ct_peer t) last)
      end
  | _, _ => NotEnabled
  end.

Definition system_step (y : system) (c : choice) : step_result :=
  match c with
  | PTurn _ | PReserve _ | PGiveUp | PBuild | PCommitSlot | PDestroy => producer_step y c
  | CAttach _ _ _ | CTurn _ | CPeek _ | CGiveUp _ _ | CLastPeek _ => consumer_step y c
  end.

Fixpoint system_run (schedule : list choice) (y : system) : step_result :=
  match schedule with
  | [] => Goes y
  | c :: schedule => match system_step y c with Goes y => system_run schedule y | result => result end
  end.

(** A fresh ring of [area mem] bytes, the producer at the head of its loop,
    the consumer not yet attached. *)
Definition system_start (mem : bytes) (gen : generator) (limiter : RateLimiter) (timer : PeriodicTimer) (now : Z)
    (v : PacketValidator) (stats : ConsumerStats) : system := {|
  y_ring := initial_ring mem; y_state := Ready; y_producer := AtHead (initial_producer gen limiter timer now);
  y_consumer := Detached v stats; y_sent := []; y_got := [] |}.
End System.

(** ** What a consumer has taken *)

(** The records a consumer took off the ring, each with its validation result
    if it was processed, [None] if it was discarded. *)
Definition taken (es : list consumer_event) : list (bytes * option ValidationResult) :=
  omap (fun e => match e with CProcess record _ r => Some (record, Some r) | CDiscard record => Some (record, None) | _ => None end) es.

(** A session ended because the stream was finished. *)
Definition stream_ended (es : list consumer_event) : bool :=
  existsb (fun e => match e with CStreamEnd true => true | _ => false end) es.

(** The results fit the positions of their records in the stream. *)
Definition judged (n : nat) (l : list (bytes * option ValidationResult)) : Prop :=
  forall i record r, l !! i = Some (record, Some r) -> accepted (Z.of_nat (n + i)) r.

Lemma taken_app a b : taken (a ++ b) = taken a ++ taken b.
Proof. apply omap_app. Qed.

Lemma stream_ended_app a b : stream_ended (a ++ b) = stream_ended a || stream_ended b.
Proof. apply existsb_app. Qed.

Lemma judged_app n a b : judged n a -> judged (n + length a) b -> judged n (a ++ b).
Proof.
  intros Ha Hb i record r Hi. apply lookup_app_Some in Hi as [Hi | [Hle Hi]]; [by eapply Ha|].
  apply Hb in Hi. by replace (n + length a + (i - length a))%nat with (n + i)%nat in Hi by lia.
Qed.

Lemma sealed_from_at find size n a r b : sealed_from find size n (a ++ r :: b) ->
  exists ts, is_i64 ts /\ sealed_record find (u64 (n + Z.of_nat (length a))) ts r.
Proof.
  revert n. induction a as [|x a IH]; intros n H; cbn [app sealed_from length] in H.
  - rewrite Z.add_0_r. apply H.
  - destruct H as (_ & _ & H). apply IH in H. by replace (n + Z.of_nat (length (x :: a))) with (n + 1 + Z.of_nat (length a)) by (cbn; lia).
Qed.

(** ** One turn of a session, against the stream *)

Section Turns.
Context (find : Z -> option IChecksum) `{!RegistryLaws find} (cconfig : ConsumerConfig) (policy : pause_policy).

(** The validator expects record [h] of the stream, except while records are
    being discarded: resuming clears its baseline. *)
Definition tracks (h : nat) (s : consumer_state) : Prop :=
  policy = BlockingPausePolicy \/ cs_was_paused s = false ->
  has_baseline (cs_validator s) = true -> expected_sequence (cs_validator s) = u64 (Z.of_nat h).

(** The record a turn takes. *)
Definition turn_packet (t : consumer_turn) : option bytes :=
  match policy, ct_paused t, ct_packet t with
  | BlockingPausePolicy, true, _ => None
  | _, _, Some packet => Some packet
  | _, true, None => None
  | _, false, None => if finished (ct_peer t) || negb (peer_alive (ct_peer t)) then ct_last t else None
  end.

Lemma note_pause_tracks h s paused notes s1 : note_pause policy s paused = (notes, s1) -> tracks h s ->
  taken notes = [] /\ stream_ended notes = false /\ cs_was_paused s1 = paused /\ tracks h s1.
Proof.
  unfold note_pause, tracks. intros E H. destruct (Bool.eqb paused (cs_was_paused s)) eqn:Hp; injection E as <- <-.
  - apply eqb_prop in Hp. by split_and!.
  - split_and!; [done..|]. cbn [cs_was_paused cs_validator]. destruct paused, policy; cbn; intros [? | ?]; try done; apply H; by left.
Qed.

Lemma report_tracks h s t es s1 : c_report_if_due s t = Some (es, s1) -> tracks h s ->
  taken es = [] /\ stream_ended es = false /\ tracks h s1.
Proof. unfold c_report_if_due. destruct (due _ _) as [[[] timer]|]; [| |discriminate]; by intros [= <- <-]. Qed.

Lemma process_tracks h s packet now es s1 : tracks h s -> cs_was_paused s = false ->
  (exists ts, is_i64 ts /\ sealed_record find (u64 (Z.of_nat h)) ts packet) -> process find cconfig s packet now = Some (es, s1) ->
  exists r, taken es = [(packet, Some r)] /\ accepted (Z.of_nat h) r /\ stream_ended es = false /\ tracks (S h) s1.
Proof.
  intros Ht Hnp (ts & Hts & Hseal) Hp. unfold process in Hp.
  destruct (validate find (cs_validator s) packet now) as [[r v]|] eqn:Hv; [|discriminate].
  destruct (record (cs_stats s) r (Z.of_nat (length packet))) as [stats|]; [|discriminate].
  destruct (sealed_accepted find _ _ _ _ _ _ _ Hts Hseal (Ht (or_intror Hnp)) Hv) as (Ha & _ & Hexp).
  injection Hp as <- <-. exists r. split_and!; [by destruct (_ && _) | done | by destruct (_ && _) |].
  intros _ _. cbn. rewrite Hexp. f_equal. lia.
Qed.

(** A turn in which the consumer finds out that nothing can come any more. *)
Definition turn_ends (t : consumer_turn) : Prop :=
  ct_paused t = false /\ ct_packet t = None /\ finished (ct_peer t) || negb (peer_alive (ct_peer t)) = true /\ ct_last t = None.

(** What a turn promises: it takes its record, judges it by its place in the
    stream, and ends the session exactly if nothing can come any more,
    announcing the end of the stream only if it saw it. *)
Definition turn_promise (h : nat) (t : consumer_turn) (result : turn_result) : Prop :=
  match result with
  | Overflows => True
  | Continue es s => map fst (taken es) = option_list (turn_packet t) /\ judged h (taken es) /\ stream_ended es = false /\
      tracks (h + length (taken es)) s /\ ~ turn_ends t
  | Break es s => taken es = [] /\ turn_packet t = None /\ turn_ends t /\
      CStreamEnd (finished (ct_peer t)) ∈ es /\ (stream_ended es = true -> ct_paused t = false /\ finished (ct_peer t) = true)
  end.

Lemma then_report_promise h t before s :
  map fst (taken before) = option_list (turn_packet t) -> judged h (taken before) -> stream_ended before = false ->
  tracks (h + length (taken before)) s -> ~ turn_ends t -> turn_promise h t (then_report before s t).
Proof.
  intros Ht Hj He Hs Hne. unfold then_report. destruct (c_report_if_due s t) as [[es s1]|] eqn:E; [|done].
  destruct (report_tracks _ _ _ _ _ E Hs) as (Ht1 & He1 & Hs1). cbn. by rewrite taken_app, stream_ended_app, Ht1, He1, He, app_nil_r.
Qed.

(** The record in hand, processed after the pause notes of the turn. *)
Lemma processed_promise h s1 t notes packet now es s2 : tracks h s1 -> cs_was_paused s1 = false ->
  taken notes = [] -> stream_ended notes = false -> turn_packet t = Some packet ->
  (exists ts, is_i64 ts /\ sealed_record find (u64 (Z.of_nat h)) ts packet) -> process find cconfig s1 packet now = Some (es, s2) ->
  map fst (taken (notes ++ es)) = option_list (turn_packet t) /\ judged h (taken (notes ++ es)) /\
  stream_ended (notes ++ es) = false /\ tracks (h + length (taken (notes ++ es))) s2.
Proof.
  intros Hs1 Hw Hn He Htp Hseal Ep. destruct (process_tracks h s1 packet now es s2 Hs1 Hw Hseal Ep) as (r & Ht & Ha & He2 & Hs2).
  rewrite taken_app, stream_ended_app, Hn, He, Ht, He2, Htp. cbn [app map fst option_list length]. split_and!; try done.
  - intros [|i] record r' Hi; [|done]. injection Hi as <- <-. by rewrite Nat.add_0_r.
  - by rewrite Nat.add_1_r.
Qed.

(** A paused turn takes what it discards, and never ends the session. *)
Lemma paused_promise h s1 t notes : tracks h s1 -> cs_was_paused s1 = true -> ct_paused t = true ->
  taken notes = [] -> stream_ended notes = false ->
  let '(events, stats) := while_paused policy (ct_packet t) (cs_stats s1) in
  turn_promise h t (then_report (notes ++ events) (set_cs_stats s1 stats) t).
Proof.
  intros Hs1 Hw Hp Hn He. assert (Hgo : ~ turn_ends t) by (intros (? & _); congruence).
  assert (Hdisc : policy = DiscardingPausePolicy -> forall k v, tracks k (set_cs_stats s1 v)).
  { intros Epol k v [? | Hw1]; [congruence|]. cbn in Hw1. congruence. }
  assert (Htp : turn_packet t = match policy with BlockingPausePolicy => None | DiscardingPausePolicy => ct_packet t end).
  { unfold turn_packet. rewrite Hp. destruct policy; [done | by destruct (ct_packet t)]. }
  unfold while_paused. destruct policy eqn:Epol; [|destruct (ct_packet t) as [packet|]].
  all: apply then_report_promise; rewrite ?taken_app, ?stream_ended_app, ?Hn, ?He, ?Htp; try done; try (by apply Hdisc).
  - by rewrite Nat.add_0_r.
  - by intros [|i] record r Hi.
Qed.

Lemma body_promise h s t : tracks h s ->
  (forall packet, turn_packet t = Some packet ->
     exists ts, is_i64 ts /\ sealed_record find (u64 (Z.of_nat h)) ts packet) ->
  turn_promise h t (session_body find cconfig policy s t).
Proof.
  intros Hs Hpacket. unfold session_body. destruct (note_pause policy s (ct_paused t)) as [notes s1] eqn:En.
  destruct (note_pause_tracks h _ _ _ _ En Hs) as (Hn & He & Hw & Hs1). destruct (ct_paused t) eqn:Hp.
  { pose proof (paused_promise h s1 t notes Hs1 Hw Hp Hn He) as H. by destruct (while_paused _ _ _). }
  assert (Htp : turn_packet t = match ct_packet t with
    | Some packet => Some packet
    | None => if finished (ct_peer t) || negb (peer_alive (ct_peer t)) then ct_last t else None end).
  { unfold turn_packet. rewrite Hp. by destruct policy, (ct_packet t). }
  destruct (ct_packet t) as [packet|] eqn:Epkt; [|destruct (finished (ct_peer t) || negb (peer_alive (ct_peer t))) eqn:Hend].
  - destruct (process _ _ s1 packet (ct_wall_clock t)) as [[es s2]|] eqn:Ep; [|done].
    destruct (processed_promise h s1 t notes packet _ es s2 Hs1 Hw Hn He Htp (Hpacket packet Htp) Ep) as (K1 & K2 & K3 & K4).
    apply then_report_promise; try done. intros (_ & ? & _). congruence.
  - destruct (ct_last t) as [packet|] eqn:El.
    + destruct (process _ _ s1 packet (ct_wall_clock t)) as [[es s2]|] eqn:Ep; [|done].
      destruct (processed_promise h s1 t notes packet _ es s2 Hs1 Hw Hn He Htp (Hpacket packet Htp) Ep) as (K1 & K2 & K3 & K4).
      cbn. split_and!; try done. intros (_ & _ & _ & ?). congruence.
    + cbn. rewrite taken_app, stream_ended_app, Hn, He. split_and!; [done | done | done | |].
      * apply elem_of_app. right. by constructor.
      * cbn. destruct (finished (ct_peer t)); [done | discriminate].
  - apply then_report_promise; rewrite ?Hn, ?Htp; try done; [by rewrite Nat.add_0_r | intros (_ & _ & ? & _); congruence].
Qed.
End Turns.

(** ** The invariant *)

Section Invariant.
Context (cap : Z) (Hcap : is_capacity cap).
Context (find : Z -> option IChecksum) `{!RegistryLaws find} (kind : Z) (checksum : IChecksum) (Hfind : find kind = Some checksum).
Context (pconfig : ProducerConfig) (g : generator).
Context (Hpayload : 0 <= pc_payload_size pconfig) (Hsmall : kHeaderSize + pc_payload_size pconfig < 2 ^ 32).
Context (cconfig : ConsumerConfig) (policy : pause_policy) (producer_pid : Z).
(* What was released before the present consumer process started. *)
Context (base : list bytes).

Definition packet_size : nat := Z.to_nat (kHeaderSize + pc_payload_size pconfig).
Definition report_period : Z := pc_report_interval pconfig * 1000000.

Definition clocks_ok (t : producer_turn) : Prop := is_i64 (pt_wall_clock t) /\ is_i64 (pt_now t + report_period).

Definition choice_ok (c : choice) : Prop := match c with PTurn t => clocks_ok t | _ => True end.

(** The producer's state after the given records. *)
Definition sent_so_far (records : list bytes) (s : producer_state generator) : Prop :=
  after generator_ok packet_size report_period (Z.of_nat (length records)) 0 (Z.of_nat (length records)) s /\
  sealed_from find packet_size 0 records /\
  forall k, payloads fill (packet_size - 32) (length records + k) g =
            map (drop 32) records ++ payloads fill (packet_size - 32) k (pr_gen s).

(** What a process that has no state left leaves behind. *)
Definition stream_good (records : list bytes) : Prop :=
  sealed_from find packet_size 0 records /\
  map (drop 32) records = payloads fill (packet_size - 32) (length records) g.

(** The turn's clock values suffice for its pacing, which does not overflow. *)
Definition paced (s : producer_state generator) (t : producer_turn) : Prop :=
  is_Some (wait_for_slot (pr_limiter s) (pt_clock t).1 (pt_clock t).2) /\
  slot_defined (pr_limiter s) (pt_clock t).1 (pt_clock t).2 = true.

Definition producer_rel (p : producer_place) (r : ring) (records : list bytes) : Prop :=
  match p with
  | AtHead s => sent_so_far records s
  | Reserving s t _ => sent_so_far records s /\ clocks_ok t /\ pt_paused t = false /\ paced s t
  | Building s t => sent_so_far records s /\ clocks_ok t /\ pt_paused t = false /\ paced s t /\
      p_pending (r_prod r) = kRecordPrefixSize + Z.of_nat packet_size
  | Committing s events => p_pending (r_prod r) <> 0 /\
      exists record, commits events = [record] /\ slot_bytes r = Some record /\ sent_so_far (records ++ [record]) s
  | RunReturned | SinkDestroyed => stream_good records
  end.

Definition consumer_rel (c : consumer_place) (p : producer_place) (r : ring) (done q : list bytes)
    (got : list (bytes * option ValidationResult)) : Prop :=
  let next := (length base + length got)%nat in
  match c with
  | Detached _ _ => map fst got = done
  | InSession s => tracks policy next s /\ exists view, holds r q view /\ map fst got = done ++ option_list view
  | Receiving s t _ => tracks policy next s /\ holds r q None /\ map fst got = done /\
      (policy = BlockingPausePolicy -> ct_paused t = false)
  | LastCall s t => tracks policy next s /\ holds r q None /\ map fst got = done /\
      ct_packet t = None /\ ct_paused t = false /\
      finished (ct_peer t) || negb (peer_alive (ct_peer t)) = true /\
      (finished (ct_peer t) = true -> p = SinkDestroyed /\ exists h, r_heads r = [h])
  end.

Record system_inv (y : system) : Prop := {
  sy_queue : exists done q, ring_rel cap (y_ring y) q /\ commits (y_sent y) = base ++ done ++ q /\
    consumer_rel (y_consumer y) (y_producer y) (y_ring y) done q (taken (y_got y)) /\
    (stream_ended (y_got y) = true -> y_producer y = SinkDestroyed /\ q = []);
  sy_producer : producer_rel (y_producer y) (y_ring y) (commits (y_sent y));
  sy_judged : judged (length base) (taken (y_got y));
  sy_state : y_state y = ProducerFinished <-> y_producer y = SinkDestroyed;
}.

Definition result_ok (result : step_result) : Prop :=
  match result with NotEnabled | Overflowed => True | Faulted => False | Goes y => system_inv y end.

(** *** Producer *)

Lemma payloads_snoc {S} (gen_fill : S -> nat -> bytes * S) n k s :
  exists p, payloads gen_fill n (k + 1) s = payloads gen_fill n k s ++ [p].
Proof.
  revert s. induction k as [|k IH]; intros s; cbn [Nat.add payloads].
  - destruct (gen_fill s n) as [p s']. by exists p.
  - destruct (gen_fill s n) as [p s']. destruct (IH s') as [p' ->]. by exists p'.
Qed.

Lemma record_size_packet : record_size pconfig = Z.of_nat packet_size.
Proof. unfold record_size, packet_size, kHeaderSize in *. rewrite u64_small by (unfold is_u; lia). lia. Qed.

Lemma packet_size_range : (32 <= packet_size)%nat /\ Z.of_nat packet_size < 2 ^ 32.
Proof. unfold packet_size, kHeaderSize in *. lia. Qed.

Lemma sent_good records s : sent_so_far records s -> stream_good records.
Proof. intros (_ & Hs & Hp). split; [done|]. specialize (Hp 0%nat). by rewrite Nat.add_0_r, app_nil_r in Hp. Qed.

(** A commit's effect on the records, and a turn without one. *)
Lemma sent_next records s r s' : sent_so_far records s ->
  sealed_from find packet_size (Z.of_nat (length records)) [r] ->
  (drop 32 r, pr_gen s') = fill (pr_gen s) (packet_size - 32) ->
  after generator_ok packet_size report_period (Z.of_nat (length records) + 1) 0 (Z.of_nat (length records) + 1) s' ->
  sent_so_far (records ++ [r]) s'.
Proof.
  intros (_ & Hs & Hp) Hseal Hfill Ha. unfold sent_so_far. rewrite length_app, Nat2Z.inj_add. split_and!; [exact Ha | |].
  - by apply sealed_from_app; rewrite ?Z.add_0_l.
  - intros k. rewrite map_app, <- app_assoc. cbn [length map app]. rewrite <- Nat.add_assoc, Hp. cbn [Nat.add payloads].
    by rewrite <- Hfill.
Qed.

Lemma sent_same records s s' : sent_so_far records s -> pr_gen s' = pr_gen s ->
  after generator_ok packet_size report_period (Z.of_nat (length records)) 0 (Z.of_nat (length records)) s' -> sent_so_far records s'.
Proof. intros (_ & Hs & Hp) Hg Ha. split_and!; [done..|]. intros k. by rewrite Hg. Qed.

Lemma report_commits {G} (s : producer_state G) t es s' : p_report_if_due s t = Some (es, s') -> commits es = [].
Proof. unfold p_report_if_due. destruct (due _ _) as [[[] timer]|]; [| |discriminate]; by intros [= <- _]. Qed.

(** The packets of a turn's events: the one in its slot. *)
Lemma body_commits size (s : producer_state generator) t es s' :
  producer_body fill checksum size s t = Next es s' ->
  if pt_paused t then commits es = [] else (commits es = [] <-> pt_slot t = None).
Proof.
  unfold producer_body. set (notes := if negb (Bool.eqb (pt_paused t) _) then [PStateChanged _] else []). assert (Hn : commits notes = []) by (unfold notes; by destruct (negb _)).
  assert (Hrep : forall before s0, reporting before s0 t = Next es s' -> commits es = commits before).
  { intros before s0. unfold reporting. destruct (p_report_if_due s0 t) as [[reports s2]|] eqn:E; [|discriminate].
    intros [= <- _]. by rewrite commits_app, (report_commits _ _ _ _ E), app_nil_r. }
  destruct (pt_paused t); [intros H; apply Hrep in H; congruence|].
  destruct (negb (slot_defined _ _ _)); [discriminate|].
  destruct (wait_for_slot _ _ _) as [[[[? ?] ?] l]|]; [|discriminate].
  destruct (pt_slot t) as [slot|]; [|intros H; apply Hrep in H; by rewrite H].
  destruct (build _ _ _ _ _ _) as [[record g']|]; [|discriminate]. intros H. apply Hrep in H.
  rewrite H, commits_app, Hn. by split.
Qed.

(** The ring and the consumer seen from a producer step. *)
Lemma producer_frame y r p events done q added :
  system_inv y -> y_producer y <> SinkDestroyed ->
  commits (y_sent y) = base ++ done ++ q ->
  consumer_rel (y_consumer y) (y_producer y) (y_ring y) done q (taken (y_got y)) ->
  ring_rel cap r (q ++ added) -> r_cons r = r_cons (y_ring y) -> commits events = added ->
  producer_rel p r (commits (y_sent y) ++ added) ->
  p <> SinkDestroyed ->
  system_inv (producer_moves y r p events).
Proof.
  intros Hinv Hp Hsent Hc Hrel Hcons Hev Hprod Hp'. destruct Hinv as [(done' & q' & _ & _ & _ & Hend) _ Hj Hst].
  constructor; cbn; [|by rewrite commits_app, Hev | done | rewrite Hst; by split].
  exists done, (q ++ added). rewrite commits_app, Hev, Hsent, <- !app_assoc. split_and!; [done | done | |].
  - assert (Hh : forall view, holds (y_ring y) q view -> holds r (q ++ added) view).
    { intros [record|]; unfold holds; rewrite Hcons; [|done]. intros [? Hhead]. split; [done|]. by destruct q. }
    destruct (y_consumer y) as [v stats | s | s t tried | s t]; cbn [consumer_rel] in *.
    + done.
    + destruct Hc as (? & view & ? & ?). split; [done|]. exists view. split; [by apply Hh | done].
    + destruct Hc as (? & ? & ? & ?). split_and!; [done | by apply Hh | done | done].
    + destruct Hc as (? & ? & ? & ? & ? & ? & Hf). split_and!; try done; [by apply Hh|]. intros E. destruct (Hf E); congruence.
  - intros E. destruct (Hend E); congruence.
Qed.

Lemma idle_turn t : clocks_ok t -> turn_ok packet_size report_period (with_slot t None).
Proof. intros [? ?]. by split_and!. Qed.

Lemma after_idle y s t :
  system_inv y -> y_producer y <> SinkDestroyed -> sent_so_far (commits (y_sent y)) s -> clocks_ok t -> paces s t ->
  result_ok (producer_idles checksum pconfig y s t).
Proof.
  intros Hinv Hp Hs Ht Hpace. unfold producer_idles. rewrite record_size_packet.
  destruct packet_size_range as [Hlo Hhi]. pose proof Hs as (Ha & _).
  pose proof (body_after fill generator_ok find kind checksum Hfind packet_size Hlo Hhi report_period
    (Z.of_nat (length (commits (y_sent y)))) 0 _ s (with_slot t None) ltac:(lia) (idle_turn t Ht) Hpace Ha) as Hb.
  destruct (producer_body _ _ _ _ _) as [events s' | events s' |] eqn:E; [| done | done].
  assert (Hnone : commits events = []) by (apply body_commits in E; cbn in E; destruct (pt_paused t); [done | by apply E]).
  destruct Hb as [(_ & Ha' & Hg) | (r & Hr & _)]; [|congruence].
  pose proof Hinv as [(done & q & Hrel & Hsent & Hc & _) _ _ _].
  cbn [result_ok]. apply (producer_frame y _ _ _ done q []); rewrite ?app_nil_r; try done.
  by eapply sent_same.
Qed.

Lemma after_build y s t : system_inv y -> y_producer y = Building s t -> result_ok (producer_step checksum pconfig y PBuild).
Proof.
  intros Hinv Hpl. unfold producer_step. rewrite Hpl. pose proof Hinv as [(done & q & Hrel & Hsent & Hc & _) Hprod _ _].
  rewrite Hpl in Hprod. cbn [producer_rel] in Hprod. destruct Hprod as (Hs & Ht & Hnp & [_ Hpaced] & Hpend).
  destruct packet_size_range as [Hlo Hhi].
  destruct (slot_contract cap Hcap (y_ring y) q Hrel) as (old & -> & Hob & Hol); [unfold kRecordPrefixSize in *; lia|].
  rewrite Hpend in Hol. rewrite record_size_packet. pose proof Hs as (Ha & _).
  assert (Hturn : turn_ok packet_size report_period (with_slot t (Some old))).
  { split_and!; [|apply Ht..]. intros slot [= <-]. split; [lia | done]. }
  pose proof (body_after fill generator_ok find kind checksum Hfind packet_size Hlo Hhi report_period
    (Z.of_nat (length (commits (y_sent y)))) 0 _ s (with_slot t (Some old)) ltac:(lia) Hturn (or_intror Hpaced) Ha) as Hb.
  destruct (producer_body _ _ _ _ _) as [events s' | events s' |] eqn:E; [| done | done].
  apply body_commits in E. cbn in E. rewrite Hnp in E.
  destruct Hb as [(Hnil & _) | (record & Hev & Hseal & Hfill & Ha')]; [by apply E in Hnil|]. rewrite Hev.
  assert (Hlen : length record = packet_size /\ all_bytes record).
  { destruct Hseal as ((ts & Hts & Hrec) & Hlen & _). split; [done|].
    by destruct (sealed_record_intact find _ _ _ (u64_range _) Hts Hrec) as (_ & Hb & _). }
  destruct Hlen as [Hlen Hbytes].
  destruct (write_contract cap Hcap record (y_ring y) q Hrel) as (r & -> & Hrel' & Hslot & Hpr & Hco & _);
    [unfold kRecordPrefixSize in *; lia | done | unfold kRecordPrefixSize in *; lia |].
  cbn [result_ok]. apply (producer_frame y r _ _ done q []); rewrite ?app_nil_r; try done; [by rewrite Hpl|].
  cbn [producer_rel]. rewrite Hpr. split; [unfold kRecordPrefixSize in *; lia|]. exists record. split_and!; try done.
  by eapply sent_next.
Qed.

Lemma producer_preserves y c : system_inv y -> choice_ok c -> result_ok (producer_step checksum pconfig y c).
Proof.
  intros Hinv Hc. destruct (y_producer y) as [s | s t tried | s t | s rest | |] eqn:Hpl.
  all: pose proof Hinv as [(done & q & Hrel & Hsent & Hcr & Hend) Hprod Hj Hst]; rewrite Hpl in Hprod; cbn [producer_rel] in Hprod.
  all: destruct c as [t' | n | | | | | | | | |]; try (unfold producer_step; rewrite Hpl; try destruct tried; exact I).
  - unfold producer_step. rewrite Hpl. destruct (_ || _).
    { cbn [result_ok]. apply (producer_frame y _ _ _ done q []); rewrite ?app_nil_r; try done; [by rewrite Hpl | by eapply sent_good]. }
    destruct (pt_paused t') eqn:Hpaused; [apply after_idle; try done; [by rewrite Hpl | by left]|].
    destruct (slot_defined _ _ _) eqn:Hdefined; [|done]. cbn [negb].
    destruct (wait_for_slot _ _ _) eqn:Hpaced; [|done]. cbn [result_ok].
    apply (producer_frame y _ _ _ done q []); rewrite ?app_nil_r; try done; by rewrite Hpl.
  - destruct Hprod as (Hs & Ht & Hnp & Hpaced).
    pose proof (reserve_contract cap Hcap n (record_size pconfig) (y_ring y) q Hrel ltac:(apply u64_range)) as Hcon.
    unfold producer_step. rewrite Hpl.
    assert (Hgoal : forall span r, shared_reserve n (record_size pconfig) (y_ring y) = Gives span r ->
      system_inv (producer_moves y r (if span is Some _ then Building s t else Reserving s t true) [])).
    { intros span r E. rewrite E in Hcon. destruct Hcon as (Hrel' & Hco & _ & Hpend).
      apply (producer_frame y r _ _ done q []); rewrite ?app_nil_r; try done; [by rewrite Hpl | | by destruct span].
      destruct span as [span|]; [|done]. cbn [producer_rel]. split_and!; try done. rewrite <- record_size_packet.
      apply Hpend. by eexists. }
    destruct (shared_reserve n (record_size pconfig) (y_ring y)) as [| | [span|] r]; destruct tried; try done; exact (Hgoal _ _ eq_refl).
  - unfold producer_step. rewrite Hpl. destruct Hprod as (Hs & Ht & Hnp & Hpaced). destruct tried; [|exact I].
    apply after_idle; try done; [by rewrite Hpl | right; apply Hpaced].
  - by eapply after_build.
  - unfold producer_step. rewrite Hpl. destruct Hprod as (Hne & record & Hev & Hslot & Hs). cbn [result_ok].
    destruct (commit_contract cap Hcap record (y_ring y) q Hrel Hne Hslot) as [Hrel' Hco].
    apply (producer_frame y _ _ _ done q [record]); try done; by rewrite Hpl.
  - unfold producer_step. rewrite Hpl. cbn [result_ok]. constructor; cbn; try done. exists done, q. split_and!; try done.
    + destruct (y_consumer y) as [v stats | s | s t tried | s t]; try exact Hcr. cbn [consumer_rel] in *.
      destruct Hcr as (? & ? & ? & ? & ? & ? & Hf). split_and!; try done. intros E'. destruct (Hf E'). congruence.
    + intros E'. destruct (Hend E'); congruence.
Qed.

(** *** Consumer *)

Lemma sealed_so_far p r records : producer_rel p r records -> sealed_from find packet_size 0 records.
Proof.
  destruct p; cbn [producer_rel]; [by intros (_ & ? & _) | by intros ((_ & ? & _) & _) | by intros ((_ & ? & _) & _) | | by intros [? _]..].
  intros (_ & record & _ & _ & _ & Hs & _). by eapply sealed_from_take.
Qed.

Lemma stream_so_far p r records : producer_rel p r records ->
  map (drop 32) records = payloads fill (packet_size - 32) (length records) g.
Proof.
  assert (Hlast : forall l x, map (drop 32) (l ++ [x]) = payloads fill (packet_size - 32) (length (l ++ [x])) g ->
    map (drop 32) l = payloads fill (packet_size - 32) (length l) g).
  { intros l x E. rewrite length_app, map_app in E. cbn [length map] in E.
    destruct (payloads_snoc fill (packet_size - 32) (length l) g) as [p' Hp]. rewrite Hp in E. by apply app_inj_2 in E as [E _]. }
  destruct p; cbn [producer_rel]; [by intros H; apply sent_good in H as [_ ?] | intros [H _]; by apply sent_good in H as [_ ?] |
    intros [H _]; by apply sent_good in H as [_ ?] | | by intros [_ ?]..].
  intros (_ & record & _ & _ & H). apply sent_good in H as [_ H]. by eapply Hlast.
Qed.

(** The taken records are the oldest ones, and all of them once the queue is empty. *)
Lemma taken_prefix c p r records done q got : records = done ++ q -> consumer_rel c p r done q got ->
  map fst got = take (length got) records /\ (q = [] -> map fst got = records).
Proof.
  intros -> Hc. assert (Hview : exists view, map fst got = done ++ option_list view /\ (view = None \/ head q = view)).
  { destruct c; cbn [consumer_rel] in Hc.
    - exists None. cbn in *. rewrite app_nil_r. split; [done | by left].
    - destruct Hc as (_ & view & Hh & ->). exists view. split; [done|]. destruct view; [right; apply Hh | by left].
    - destruct Hc as (_ & _ & <- & _). exists None. cbn. rewrite app_nil_r. split; [done | by left].
    - destruct Hc as (_ & _ & <- & _). exists None. cbn. rewrite app_nil_r. split; [done | by left]. }
  destruct Hview as (view & E & Hv). rewrite <- (length_map fst got), E. split.
  - destruct view as [x|]; cbn [option_list].
    + destruct Hv as [? | Hv]; [done|]. destruct q as [|x' q]; [done|]. injection Hv as ->.
      rewrite cons_middle, app_assoc. by rewrite take_app_length.
    + by rewrite app_nil_r, take_app_length.
  - intros ->. destruct view; [by destruct Hv | done].
Qed.

(** The producer and the records seen from a consumer step. *)
Lemma consumer_frame y r c events done q : system_inv y ->
  ring_rel cap r q -> r_prod r = r_prod (y_ring y) -> r_mem r = r_mem (y_ring y) -> commits (y_sent y) = base ++ done ++ q ->
  consumer_rel c (y_producer y) r done q (taken (y_got y ++ events)) ->
  judged (length base + length (taken (y_got y))) (taken events) ->
  (stream_ended (y_got y ++ events) = true -> y_producer y = SinkDestroyed /\ q = []) ->
  system_inv (consumer_moves y r c events).
Proof.
  intros [_ Hprod Hj Hst] Hrel Hpr Hmem Hsent Hc Hjudged Hend. constructor; cbn; [|  | |done].
  - by exists done, q.
  - assert (Hslot : slot_bytes r = slot_bytes (y_ring y)) by (unfold slot_bytes; by rewrite Hpr, Hmem).
    destruct (y_producer y); cbn [producer_rel] in *; by rewrite ?Hslot, ?Hpr.
  - rewrite taken_app. by apply judged_app.
Qed.

(** A turn on the record at the front of the queue keeps its promise. *)
Lemma body_promised y r s t done q : system_inv y -> commits (y_sent y) = base ++ done ++ q ->
  holds r q (turn_packet policy t) -> map fst (taken (y_got y)) = done ->
  tracks policy (length base + length (taken (y_got y))) s ->
  turn_promise policy (length base + length (taken (y_got y))) t (session_body find cconfig policy s t).
Proof.
  intros Hinv Hsent Hholds Hdone Htracks. apply body_promise; [done | done|]. intros packet Hp. rewrite Hp in Hholds.
  destruct Hholds as [_ Hhead]. destruct q as [|x q]; [done|]. injection Hhead as ->.
  pose proof (sealed_so_far _ _ _ (sy_producer _ Hinv)) as Hs. rewrite Hsent, app_assoc in Hs. apply sealed_from_at in Hs.
  by rewrite length_app, <- Hdone, length_map in Hs.
Qed.

Lemma completes_ok y r s t done q : system_inv y ->
  ring_rel cap r q -> r_prod r = r_prod (y_ring y) -> r_mem r = r_mem (y_ring y) -> commits (y_sent y) = base ++ done ++ q ->
  holds r q (turn_packet policy t) -> map fst (taken (y_got y)) = done ->
  tracks policy (length base + length (taken (y_got y))) s ->
  (stream_ended (y_got y) = true -> y_producer y = SinkDestroyed /\ q = []) ->
  (turn_packet policy t = None -> ct_paused t = false -> finished (ct_peer t) = true ->
     y_producer y = SinkDestroyed /\ q = []) ->
  result_ok (consumer_completes find cconfig policy y r s t).
Proof.
  intros Hinv Hrel Hpr Hmem Hsent Hholds Hdone Htracks Hend Hlast.
  pose proof (body_promised y r s t done q Hinv Hsent Hholds Hdone Htracks) as Hbody. unfold consumer_completes.
  destruct (session_body find cconfig policy s t) as [events s' | events s' |]; [| | done]; cbn [turn_promise] in Hbody.
  - destruct Hbody as (Htaken & Hj & He & Ht' & _). cbn [result_ok]. apply (consumer_frame y r _ _ done q); try done.
    + cbn [consumer_rel]. rewrite taken_app, length_app, Nat.add_assoc. split; [done|]. exists (turn_packet policy t).
      split; [done|]. by rewrite map_app, Hdone, Htaken.
    + rewrite stream_ended_app, He, orb_false_r. done.
  - destruct Hbody as (Htaken & Hnone & _ & _ & He). rewrite Hnone in Hholds.
    destruct (release_contract cap Hcap r q None Hrel Hholds) as (q' & Hq & Hrel' & Hpend & Hpr' & Hmem' & _). cbn in Hq. subst q'.
    cbn [session_over result_ok]. apply (consumer_frame y _ _ _ done q); try done; try congruence.
    + cbn [consumer_rel]. rewrite !taken_app, Htaken. cbn. by rewrite app_nil_r.
    + rewrite taken_app, Htaken. intros i record r0 Hi. done.
    + rewrite !stream_ended_app. intros E. apply orb_true_iff in E as [E | E]; [by apply Hend|].
      cbn in E. rewrite orb_false_r in E. destruct (He E). by apply Hlast.
Qed.

(** What a release at the start of a consumer step leaves. *)
Lemma released y view done q : system_inv y -> ring_rel cap (y_ring y) q -> commits (y_sent y) = base ++ done ++ q ->
  holds (y_ring y) q view -> map fst (taken (y_got y)) = done ++ option_list view ->
  (stream_ended (y_got y) = true -> y_producer y = SinkDestroyed /\ q = []) ->
  let r := shared_release (y_ring y) in
  exists q', ring_rel cap r q' /\ r_prod r = r_prod (y_ring y) /\ r_mem r = r_mem (y_ring y) /\ r_heads r = r_heads (y_ring y) /\
    commits (y_sent y) = base ++ (done ++ option_list view) ++ q' /\ holds r q' None /\
    (stream_ended (y_got y) = true -> y_producer y = SinkDestroyed /\ q' = []).
Proof.
  intros Hinv Hrel Hsent Hholds Hgot Hend r.
  destruct (release_contract cap Hcap (y_ring y) q view Hrel Hholds) as (q' & -> & Hrel' & Hpend & Hpr & Hmem & Hheads).
  exists q'. split_and!; try done; [by rewrite Hsent, <- app_assoc|]. intros E. destruct (Hend E) as [? Hq].
  split; [done|]. by apply app_nil in Hq as [_ ?].
Qed.

Lemma attach_ok y v stats n reset_at now : system_inv y -> y_consumer y = Detached v stats ->
  result_ok (consumer_step find cconfig policy producer_pid y (CAttach n reset_at now)).
Proof.
  intros Hinv Hcl. pose proof Hinv as [(done & q & Hrel & Hsent & Hc & Hend) _ _ _]. rewrite Hcl in Hc. cbn [consumer_rel] in Hc.
  unfold consumer_step. rewrite Hcl. pose proof (attach_contract cap Hcap n (y_ring y) q Hrel) as Hcon.
  destruct (shared_attach n (y_ring y)) as [| | [] r]; [done.. |]. destruct Hcon as (Hrel' & Hpend & Hpr & Hmem).
  destruct (new_timer _ now) as [timer|]; [|done]. cbn [result_ok]. apply (consumer_frame y r _ _ done q); rewrite ?app_nil_r; try done.
  cbn [consumer_rel]. split; [by intros _|]. exists None. split; [done|]. cbn. by rewrite app_nil_r.
Qed.

Lemma turn_ok_step y s t : system_inv y -> y_consumer y = InSession s ->
  result_ok (consumer_step find cconfig policy producer_pid y (CTurn t)).
Proof.
  intros Hinv Hcl. pose proof Hinv as [(done & q & Hrel & Hsent & Hc & Hend) _ _ _]. rewrite Hcl in Hc.
  destruct Hc as (Htr & view & Hholds & Hgot).
  destruct (released y view done q Hinv Hrel Hsent Hholds Hgot Hend) as (q' & Hrel' & Hpr & Hmem & _ & Hsent' & Hholds' & Hend').
  unfold consumer_step. rewrite Hcl. destruct (ct_stop t).
  { cbn [session_over result_ok]. apply (consumer_frame y _ _ _ (done ++ option_list view) q'); try done.
    - cbn [consumer_rel app]. rewrite taken_app. cbn. by rewrite app_nil_r.
      - rewrite stream_ended_app. cbn. by rewrite orb_false_r. }
  assert (Hreceive : (policy = BlockingPausePolicy -> ct_paused t = false) ->
    system_inv (consumer_moves y (shared_release (y_ring y)) (Receiving s t false) [])).
  { intros Hp. apply (consumer_frame y _ _ _ (done ++ option_list view) q'); rewrite ?app_nil_r; try done. }
  destruct policy eqn:Epol, (ct_paused t) eqn:Hpaused; try (apply Hreceive; done).
  rewrite <- Epol. apply (completes_ok y _ _ _ (done ++ option_list view) q'); rewrite ?Epol; try done.
  - by cbn [turn_packet]; rewrite Hpaused.
  - rewrite Hpaused. done.
Qed.

Lemma peek_ok y s t tried n : system_inv y -> y_consumer y = Receiving s t tried ->
  result_ok (consumer_step find cconfig policy producer_pid y (CPeek n)).
Proof.
  intros Hinv Hcl. pose proof Hinv as [(done & q & Hrel & Hsent & Hc & Hend) _ _ _]. rewrite Hcl in Hc.
  destruct Hc as (Htr & Hholds & Hgot & Hnp). pose proof (peek_contract cap Hcap n (y_ring y) q Hrel Hholds) as Hcon.
  assert (E : consumer_step find cconfig policy producer_pid y (CPeek n) =
    match shared_peek n (y_ring y) with
    | Unavailable => NotEnabled
    | Faults => Faulted
    | Gives None r => Goes (consumer_moves y r (Receiving s t true) [])
    | Gives (Some record) r => consumer_completes find cconfig policy y r s (with_packet t (Some record) no_peer None)
    end) by (unfold consumer_step; rewrite Hcl; by destruct tried).
  rewrite E. destruct (shared_peek n (y_ring y)) as [| | [record|] r]; [done | done | |]; destruct Hcon as (Hrel' & Hholds' & Hpr & Hmem & _).
  - assert (Htp : turn_packet policy (with_packet t (Some record) no_peer None) = Some record).
    { unfold turn_packet. cbn. destruct policy; [by rewrite Hnp | by destruct (ct_paused t)]. }
    apply (completes_ok y r _ _ done q); rewrite ?Htp; done.
  - cbn [result_ok]. apply (consumer_frame y r _ _ done q); rewrite ?app_nil_r; try done.
Qed.

Lemma give_up_ok y s t sees alive : system_inv y -> y_consumer y = Receiving s t true ->
  result_ok (consumer_step find cconfig policy producer_pid y (CGiveUp sees alive)).
Proof.
  intros Hinv Hcl. pose proof Hinv as [(done & q & Hrel & Hsent & Hc & Hend) _ _ Hst]. rewrite Hcl in Hc.
  destruct Hc as (Htr & Hholds & Hgot & Hnp). unfold consumer_step. rewrite Hcl. destruct (ct_paused t) eqn:Hpaused.
  { apply (completes_ok y _ _ _ done q); try done.
    unfold turn_packet. cbn. rewrite Hpaused. by destruct policy. }
  destruct (sees && _) eqn:Hsees; [done|]. set (r := if sees then _ else _).
  assert (Hr : ring_rel cap r q /\ r_cons r = r_cons (y_ring y) /\ r_prod r = r_prod (y_ring y) /\ r_mem r = r_mem (y_ring y) /\
    (sees = true -> y_producer y = SinkDestroyed /\ exists h, r_heads r = [h])).
  { unfold r. destruct sees; [|by split_and!]. destruct (sync_contract cap (y_ring y) q Hrel) as (H1 & H2 & H3).
    split_and!; try done. intros _. split; [|done]. apply Hst. cbn [andb] in Hsees. by destruct (y_state y). }
  destruct Hr as (Hrel' & Hco & Hpr & Hmem & Hfin).
  set (peer := source_peer_status _ _ _ _).
  assert (Hpeer : finished peer = sees).
  { unfold peer. cbn. rewrite (not_corrupted cap r q Hrel'). by destruct sees. }
  assert (Hholds' : holds r q None) by (unfold holds in *; by rewrite Hco).
  destruct (finished peer || negb (peer_alive peer)) eqn:Hover.
  - cbn [result_ok]. apply (consumer_frame y r _ _ done q); rewrite ?app_nil_r; try done.
    cbn [consumer_rel with_packet ct_packet ct_paused ct_peer]. rewrite Hpeer in *. by split_and!.
  - assert (Htp : turn_packet policy (with_packet t None peer None) = None).
    { unfold turn_packet. cbn [with_packet ct_packet ct_paused ct_peer ct_last]. rewrite Hpaused, Hover. by destruct policy. }
    apply (completes_ok y r _ _ done q); try done; [by rewrite Htp|]. intros _ _ Hf. cbn [with_packet ct_peer] in Hf. by rewrite Hf in Hover.
Qed.

Lemma last_peek_ok y s t n : system_inv y -> y_consumer y = LastCall s t ->
  result_ok (consumer_step find cconfig policy producer_pid y (CLastPeek n)).
Proof.
  intros Hinv Hcl. pose proof Hinv as [(done & q & Hrel & Hsent & Hc & Hend) _ _ _]. rewrite Hcl in Hc.
  destruct Hc as (Htr & Hholds & Hgot & Hpkt & Hnp & Hover & Hfin). unfold consumer_step. rewrite Hcl.
  destruct (released y None done q Hinv Hrel Hsent Hholds) as (q' & Hrel' & Hpr & Hmem & Hheads & Hsent' & Hholds' & Hend');
    [cbn; by rewrite app_nil_r | done|]. cbn [option_list] in Hsent'. rewrite app_nil_r in Hsent'.
  pose proof (peek_contract cap Hcap n _ q' Hrel' Hholds') as Hcon.
  destruct (shared_peek n (shared_release (y_ring y))) as [| | last r]; [done | done |].
  destruct Hcon as (Hrel2 & Hholds2 & Hpr2 & Hmem2 & Hone).
  assert (Htp : turn_packet policy (with_packet t None (ct_peer t) last) = last).
  { unfold turn_packet. cbn [with_packet ct_packet ct_paused ct_peer ct_last]. rewrite Hnp, Hover. by destruct policy. }
  apply (completes_ok y r _ _ done q'); rewrite ?Htp; try done; try congruence.
  intros Hl _ Hf. cbn [with_packet ct_peer] in Hf. destruct (Hfin Hf) as (Hdead & h & Hh). rewrite <- Hheads in Hh.
  split; [done|]. by apply (Hone h Hh).
Qed.

Lemma step_ok y c : system_inv y -> choice_ok c -> result_ok (system_step checksum pconfig find cconfig policy producer_pid y c).
Proof.
  intros Hinv Hc. destruct c as [t | n | | | | | n reset_at now | t | n | sees alive | n]; cbn [system_step];
    try (by apply producer_preserves).
  all: destruct (y_consumer y) as [v stats | s | s t' tried | s t'] eqn:Hcl;
    try (unfold consumer_step; rewrite Hcl; try destruct tried; exact I).
  - by eapply attach_ok.
  - by eapply turn_ok_step.
  - by eapply peek_ok.
  - destruct tried; [by eapply give_up_ok | by unfold consumer_step; rewrite Hcl].
  - by eapply last_peek_ok.
Qed.

Lemma run_ok_system schedule y : system_inv y -> Forall choice_ok schedule ->
  result_ok (system_run checksum pconfig find cconfig policy producer_pid schedule y).
Proof.
  intros Hinv Hs. revert y Hinv. induction Hs as [|c schedule Hc Hs IH]; intros y Hinv; cbn [system_run]; [done|].
  pose proof (step_ok y c Hinv Hc) as Hstep. destruct (system_step _ _ _ _ _ _ y c); try done. by apply IH.
Qed.

Lemma start_ok mem limiter timer now v stats : base = [] -> area mem = cap -> all_bytes mem -> generator_ok g ->
  t_period timer = report_period -> system_inv (system_start mem g limiter timer now v stats).
Proof.
  intros Hb Ha Hm Hg Ht. constructor; cbn; [| | by intros i record r Hi | done].
  - exists [], []. rewrite Hb. split_and!; try done. rewrite <- Ha. apply initial_ring_rel; [by rewrite Ha | done].
  - by split_and!.
Qed.
End Invariant.

(** ** Committed records only grow in number *)

Section Growth.
Context (checksum : IChecksum) (pconfig : ProducerConfig).
Context (find : Z -> option IChecksum) (cconfig : ConsumerConfig) (policy : pause_policy) (producer_pid : Z).
Abbreviation step := (system_step checksum pconfig find cconfig policy producer_pid).
Abbreviation run := (system_run checksum pconfig find cconfig policy producer_pid).

(** [y'] comes after [y] on the producer's side. *)
Definition follows (y y' : system) : Prop :=
  exists events, y_sent y' = y_sent y ++ events /\
    (y_producer y = SinkDestroyed -> y_producer y' = SinkDestroyed /\ events = []).

#[export] Instance follows_preorder : PreOrder follows.
Proof.
  split; [intros y; exists []; by rewrite app_nil_r|]. intros a b c (e1 & E1 & H1) (e2 & E2 & H2).
  exists (e1 ++ e2). rewrite E2, E1, app_assoc. split; [done|]. intros H. destruct (H1 H) as [Hb ->]. by apply H2 in Hb as [? ->].
Qed.

Lemma consumer_moves_follows y r c events : follows y (consumer_moves y r c events).
Proof. exists []. by rewrite app_nil_r. Qed.

Lemma consumer_step_moves y c y' : consumer_step find cconfig policy producer_pid y c = Goes y' ->
  exists r p events, y' = consumer_moves y r p events.
Proof.
  assert (Hover : forall r s now es, session_over y r s now es = Goes y' -> exists r p events, y' = consumer_moves y r p events)
    by (intros r s now es [= <-]; by do 3 eexists).
  assert (Hcomp : forall r s t, consumer_completes find cconfig policy y r s t = Goes y' -> exists r p events, y' = consumer_moves y r p events).
  { intros r s t. unfold consumer_completes. destruct (session_body _ _ _ _ _); [|by apply Hover|done]. intros [= <-]. by do 3 eexists. }
  unfold consumer_step. intros E. repeat (case_match; simplify_eq; eauto). all: by do 3 eexists.
Qed.

Lemma producer_step_keeps y c y' : producer_step checksum pconfig y c = Goes y' -> y_consumer y' = y_consumer y /\ y_got y' = y_got y.
Proof.
  assert (Hidle : forall s t, producer_idles checksum pconfig y s t = Goes y' -> y_consumer y' = y_consumer y /\ y_got y' = y_got y).
  { intros s t. unfold producer_idles. destruct (producer_body _ _ _ _ _); [|done..]. by intros [= <-]. }
  unfold producer_step. intros E. repeat (case_match; simplify_eq); first [done | by eapply Hidle].
Qed.

Lemma producer_step_follows y c y' : producer_step checksum pconfig y c = Goes y' -> follows y y'.
Proof.
  assert (Hmoves : forall r p es, y_producer y <> SinkDestroyed -> follows y (producer_moves y r p es)).
  { intros r p es H. exists es. by split. }
  assert (Hidle : forall s t, y_producer y <> SinkDestroyed -> producer_idles checksum pconfig y s t = Goes y' -> follows y y').
  { intros s t H. unfold producer_idles. destruct (producer_body _ _ _ _ _); [|done..]. intros [= <-]. by apply Hmoves. }
  unfold producer_step. intros E. destruct (y_producer y) eqn:Ep; repeat (case_match; simplify_eq).
  all: first [apply Hmoves; congruence | eapply Hidle; [congruence | eassumption] | exists []; by rewrite app_nil_r, Ep].
Qed.

Lemma step_follows y c y' : step y c = Goes y' -> follows y y'.
Proof.
  destruct c; cbn [system_step]; first [apply producer_step_follows | intros (r & p & es & ->)%consumer_step_moves; apply consumer_moves_follows].
Qed.

Lemma run_follows schedule y y' : run schedule y = Goes y' -> follows y y'.
Proof.
  revert y. induction schedule as [|c schedule IH]; intros y; cbn [system_run]; [intros [= <-]; reflexivity|].
  destruct (step y c) as [| | |y1] eqn:E; try done. intros H. etransitivity; [by eapply step_follows | by apply IH].
Qed.
End Growth.

(** ** Properties *)

(** What is given when the two processes start: the producer's configuration
    and checksum, a ring of [area mem] bytes, a packet size below 2^32. *)
Record system_setup (m : cpu) (kind_name : string) (seed k : Z) (g : generator) (checksum : IChecksum) (pconfig : ProducerConfig)
    (mem : bytes) (timer : PeriodicTimer) (now : Z) : Prop := {
  ss_cpu : CpuSpec m;
  ss_generator : make_payload_generator kind_name seed = Ret g;
  ss_checksum : registry_find m k = Some checksum;
  ss_payload : 0 <= pc_payload_size pconfig;
  ss_packet : kHeaderSize + pc_payload_size pconfig < 2 ^ 32;
  ss_capacity : is_capacity (area mem);
  ss_bytes : all_bytes mem;
  ss_timer : new_timer (pc_report_interval pconfig) now = Some timer;
}.

Lemma setup_inv m kind_name seed k g checksum pconfig mem timer now policy limiter v stats :
  system_setup m kind_name seed k g checksum pconfig mem timer now ->
  system_inv (area mem) (registry_find m) pconfig g policy [] (system_start mem g limiter timer now v stats).
Proof.
  intros [Hm Hg Hfind Hp Hsmall Hcap Hmem Ht]. apply make_generator_ok in Hg. apply start_ok; try done.
  unfold new_timer in Ht. destruct (checked_i64 _) as [p|] eqn:E; cbn [mbind option_bind] in Ht; [|discriminate].
  apply checked_i64_inv in E as [-> _]. destruct (checked_i64 (_ + _)); cbn in Ht; [|discriminate]. by injection Ht as <-.
Qed.

Lemma setup_run m kind_name seed k g checksum pconfig mem timer now cconfig policy pid base schedule y :
  system_setup m kind_name seed k g checksum pconfig mem timer now -> Forall (choice_ok pconfig) schedule ->
  system_inv (area mem) (registry_find m) pconfig g policy base y ->
  result_ok (area mem) (registry_find m) pconfig g policy base
    (system_run checksum pconfig (registry_find m) cconfig policy pid schedule y).
Proof.
  intros [Hm Hg Hfind Hp Hsmall Hcap Hmem Ht] Hs Hinv.
  by apply (run_ok_system (area mem) Hcap (registry_find m) k checksum Hfind pconfig g Hp Hsmall).
Qed.

(** C1. No packet is lost, invented, reordered or misjudged, whatever the
    schedule of the two processes: stale loads, timeouts, pauses under either
    policy, any number of consumer sessions.  At every moment the packets the
    consumer has taken (processed, or discarded while paused) are the first
    packets the producer committed, in order; those are sealed, numbered and
    filled as one stream; each processed one is accepted with its own sequence
    number, no gap being reported for the discarded ones; and when a session
    ends because the stream is finished, every committed packet has been taken:
    the acquire load that sees the end, and the one more non-blocking read,
    suffice.  No access leaves the mapping or the slot. *)
Theorem no_packet_lost m kind_name seed k g checksum pconfig cconfig policy pid mem limiter timer now v stats schedule :
  system_setup m kind_name seed k g checksum pconfig mem timer now -> Forall (choice_ok pconfig) schedule ->
  match system_run checksum pconfig (registry_find m) cconfig policy pid schedule
          (system_start mem g limiter timer now v stats) with
  | NotEnabled | Overflowed => True
  | Faulted => False
  | Goes y =>
      let records := commits (y_sent y) in
      let got := taken (y_got y) in
      map fst got = take (length got) records /\
      sealed_from (registry_find m) (packet_size pconfig) 0 records /\
      map (drop 32) records = payloads fill (packet_size pconfig - 32) (length records) g /\
      (forall i record r, got !! i = Some (record, Some r) -> accepted (Z.of_nat i) r) /\
      (stream_ended (y_got y) = true -> map fst got = records /\ y_producer y = SinkDestroyed)
  end.
Proof.
  intros Hsetup Hs. assert (Hrun := setup_run _ _ _ _ _ _ _ _ _ _ cconfig policy pid [] schedule _ Hsetup Hs
    (setup_inv _ _ _ _ _ _ _ _ _ _ policy limiter v stats Hsetup)).
  destruct (system_run _ _ _ _ _ _ _ _) as [| | | y]; try done.
  destruct Hrun as [(done & q & Hrel & Hsent & Hc & Hend) Hprod Hj _].
  cbn [app] in Hsent. destruct (taken_prefix _ _ _ _ _ _ _ _ _ Hsent Hc) as [Hpre Hall].
  split_and!; [done | by eapply sealed_so_far | by eapply stream_so_far | exact Hj |].
  intros E. destruct (Hend E) as [? ->]. split; [|done]. by apply Hall.
Qed.

(** A run on a ring of 64 bytes, which holds one packet of 40 bytes at a time:
    the consumer processes the first packet, discards the second while paused,
    processes the third, and ends with the stream. *)
Definition demo_schedule : list choice :=
  let send t := [PTurn (demo_turn None t); PReserve 0; PBuild; PCommitSlot] in
  let turn paused := CTurn {| ct_stop := false; ct_paused := paused; ct_packet := None; ct_wall_clock := 100;
    ct_peer := no_peer; ct_last := None; ct_now := 100; ct_queue := {| used_bytes := 0; capacity_bytes := 64 |} |} in
  [CAttach 0 5 10; turn false; CPeek 0] ++ send 10 ++
  [CPeek 0] ++ [CPeek 1; turn true] ++ [PTurn (demo_turn None 20); PReserve 0; PReserve 1; PBuild] ++
  [CPeek 0; CGiveUp false true; turn true; PCommitSlot; CPeek 1; turn false] ++
  [PTurn (demo_turn None 30); PReserve 1; PBuild; PCommitSlot; CPeek 1] ++
  [PTurn (demo_turn None 40); PDestroy; turn false; CPeek 0; CGiveUp true false; CLastPeek 0].

Definition demo_three : ProducerConfig := {|
  pc_payload_size := 4; pc_max_packets := 3; pc_report_interval := 1000; pc_wait_for_consumer := false |}.

Abbreviation demo_start := (system_start (repeat 0 64) (Sequential 0) (new_limiter false 0 0) {| t_period := 1000000000; t_next := 1000000000 |} 0
    (new_validator 0) (new_stats 0)).

Abbreviation demo_system :=
  (system_run Crc32 demo_three (registry_find sse42) demo_consumer_config DiscardingPausePolicy 41 demo_schedule demo_start).

(** Packets sent, how each taken one was dealt with (processed or not), and
    whether the stream's end was announced. *)
Definition progress (result : step_result) : option (nat * list bool * bool) :=
  match result with
  | Goes y => Some (length (commits (y_sent y)), map (fun x => bool_decide (is_Some x.2)) (taken (y_got y)), stream_ended (y_got y))
  | _ => None
  end.

Lemma demo_system_progress : progress demo_system = Some (3%nat, [true; false; true], true).
Proof. vm_compute. reflexivity. Qed.

Lemma demo_setup_system :
  system_setup sse42 "sequential" 0 1 (Sequential 0) Crc32 demo_three (repeat 0 64) {| t_period := 1000000000; t_next := 1000000000 |} 0.
Proof.
  constructor; [apply _ | reflexivity | reflexivity | by_decide | by_decide | | by_decide | reflexivity].
  exists 6. split; [lia | reflexivity].
Qed.

Lemma no_packet_lost_witness :
  exists y, demo_system = Goes y /\ map fst (taken (y_got y)) = commits (y_sent y) /\ length (commits (y_sent y)) = 3%nat /\
    exists record r, taken (y_got y) !! 2%nat = Some (record, Some r) /\ accepted 2 r.
Proof.
  assert (H := no_packet_lost sse42 "sequential" 0 1 (Sequential 0) Crc32 demo_three demo_consumer_config DiscardingPausePolicy 41
    (repeat 0 64) (new_limiter false 0 0) {| t_period := 1000000000; t_next := 1000000000 |} 0 (new_validator 0) (new_stats 0)
    demo_schedule demo_setup_system ltac:(repeat constructor; by_decide)).
  pose proof demo_system_progress as Hd.
  destruct (system_run _ _ _ _ _ _ _ _) as [| | | y]; [discriminate Hd.. |]. injection Hd as Hsent Hgot Hend.
  destruct H as (_ & _ & _ & Hacc & Hall). destruct (Hall Hend) as [Hall' _]. exists y. split_and!; try done.
  destruct (taken (y_got y)) as [|a [|b [|[record [r|]] l]]]; try discriminate Hgot.
  exists record, r. split; [done|]. by apply (Hacc 2%nat record r).
Defined.
