(* ===== verification/SystemApps.v ===== *)
(** The system runs the applications: the calls that [System] makes one by one
    are those of the loops of [ProducerApp] and [ConsumerApp].

    Whatever the schedule, the events of either process are those of its
    application's run over a list of turns, in which each [reserve] and
    [receive] returned what the ring gave. *)
From Stdlib Require Import ZArith Lia.
From stdpp Require Import base numbers list strings.
From S2P Require Import Prelude Checksum Packet Memory RingBuffer RingProtocol PayloadGenerator PacketBuilder PacketValidator Stats Transport RateLimiter.
From S2P Require Import ProducerApp ConsumerApp EndToEnd SharedRing System.

Lemma prepend_prepend {S E} (a b : list E) (r : run_result S E) : prepend a (prepend b r) = prepend (a ++ b) r.
Proof. destruct r; cbn; by rewrite ?app_assoc. Qed.

(** ** Loops, turn by turn *)

Section Loops.
Context (checksum : IChecksum) (pconfig : ProducerConfig).
Context (find : Z -> option IChecksum) (cconfig : ConsumerConfig) (policy : pause_policy) (pid : Z).
Context (s0 : producer_state generator) (v0 : PacketValidator) (stats0 : ConsumerStats).

Abbreviation body := (producer_body fill checksum (record_size pconfig)).
Abbreviation loop := (producer_loop fill checksum pconfig (record_size pconfig)).

(** The loop head lets the turn pass. *)
Definition enters (s : producer_state generator) (t : producer_turn) : Prop :=
  pt_stop t || (negb (Z.eqb (pc_max_packets pconfig) 0) && Z.leb (pc_max_packets pconfig) (pr_sequence s)) = false.

(** The producer's loop has come to [s] with these events; whatever turns come,
    it goes on from there. *)
Definition loop_at (events : list producer_event) (s : producer_state generator) : Prop :=
  exists turns, forall more, loop (turns ++ more) s0 = prepend events (loop more s).

Lemma loop_at_start : loop_at [] s0.
Proof. exists []. intros more. cbn. by destruct (loop more s0). Qed.

Lemma loop_at_next events s t more_events s' : loop_at events s -> enters s t -> body s t = Next more_events s' ->
  loop_at (events ++ more_events) s'.
Proof.
  intros [turns H] Hin Hbody. exists (turns ++ [t]). intros more. rewrite <- app_assoc, H. cbn [app producer_loop].
  unfold enters in Hin. apply orb_false_iff in Hin as [-> ->]. by rewrite Hbody, prepend_prepend.
Qed.

(** What the producer's events are, seen from its place. *)
Definition producer_runs (p : producer_place) (events : list producer_event) : Prop :=
  match p with
  | AtHead s => loop_at events s
  | Reserving s t _ | Building s t => loop_at events s /\ enters s t
  | Committing s' more => exists s t slot, loop_at events s /\ enters s t /\ body s (with_slot t slot) = Next more s'
  | RunReturned | SinkDestroyed => exists turns s, loop turns s0 = Returned 0 s events
  end.

Lemma idles_run y s t y' : loop_at (y_sent y) s -> enters s t -> producer_idles checksum pconfig y s t = Goes y' ->
  producer_runs (y_producer y') (y_sent y').
Proof.
  intros Hloop Hin. unfold producer_idles. destruct (producer_body _ _ _ _ _) as [es s' | |] eqn:E; try done.
  intros [= <-]. cbn. by eapply (loop_at_next _ s (with_slot t None)).
Qed.

Lemma producer_runs_step y c y' : producer_runs (y_producer y) (y_sent y) -> producer_step checksum pconfig y c = Goes y' ->
  producer_runs (y_producer y') (y_sent y').
Proof.
  intros Hrun E. unfold producer_step in E.
  destruct (y_producer y) as [s | s t tried | s t | s rest | |] eqn:Ep; destruct c; try (by destruct tried); try done; cbn [producer_runs] in Hrun.
  - destruct (_ || _) eqn:Hhead.
    + injection E as <-. destruct Hrun as [turns H]. cbn. exists (turns ++ [t]). eexists. rewrite H. cbn [producer_loop].
      apply orb_true_iff in Hhead as [-> | Hmax]; [done|]. rewrite Hmax. by destruct (pt_stop t).
    + destruct (pt_paused t); [by eapply idles_run|]. destruct (negb (slot_defined _ _ _)); [done|].
      destruct (wait_for_slot _ _ _); [|done]. injection E as <-. cbn.
      rewrite app_nil_r. by split.
  - assert (E' : exists r p, y' = producer_moves y r p [] /\ (p = Building s t \/ p = Reserving s t true)).
    { destruct (shared_reserve _ _ _) as [| | [] r]; destruct tried; try done; injection E as <-; eexists _, _; (split; [done | auto]). }
    destruct E' as (r & p & -> & Hp). cbn. rewrite app_nil_r. by destruct Hp as [-> | ->].
  - destruct tried; [|done]. destruct Hrun. by eapply idles_run.
  - destruct (slot_bytes _) as [old|]; [|done]. destruct (producer_body _ _ _ _ _) as [es s' | |] eqn:Eb; try done.
    destruct (commits es) as [|record [|]]; try done. destruct (shared_write _ _); try done. injection E as <-. cbn. rewrite app_nil_r.
    destruct Hrun. by exists s, t, (Some old).
  - injection E as <-. cbn. destruct Hrun as (s1 & t & slot & Hl & Hin & Hb). by eapply (loop_at_next _ s1 (with_slot t slot)).
  - by injection E as <-.
Qed.

(** *** Consumer *)

(** The configuration without [--once]: the system may go on after a session. *)
Definition many : ConsumerConfig := {|
  cc_report_interval := cc_report_interval cconfig; cc_max_defect_logs := cc_max_defect_logs cconfig; cc_once := false |}.

Abbreviation application := (run_consumer find many policy).
Abbreviation session := (run_session find many policy).
Abbreviation turns_of := (session_loop find many policy).

(** The application has these sessions behind it. *)
Definition app_at (sessions : list (list consumer_event)) (v : PacketValidator) (stats : ConsumerStats) : Prop :=
  exists rounds, forall more, application v0 stats0 (rounds ++ more) = prepend sessions (application v stats more).

(** A session on [v] and [stats] has come to [s] with these events. *)
Definition session_at (events : list consumer_event) (v : PacketValidator) (stats : ConsumerStats) (reset_at now : Z) (s : consumer_state)
    : Prop :=
  exists turns, forall more, session v stats reset_at now (turns ++ more) = prepend events (turns_of more s).

Definition within (events : list consumer_event) (s : consumer_state) : Prop :=
  exists sessions v stats current reset_at now, app_at sessions v stats /\ session_at current v stats reset_at now s /\
    events = concat sessions ++ current.

Definition consumer_runs (c : consumer_place) (events : list consumer_event) : Prop :=
  match c with
  | Detached v stats => exists sessions, app_at sessions v stats /\ events = concat sessions
  | InSession s => within events s
  | Receiving s t _ | LastCall s t => within events s /\ ct_stop t = false
  end.

Lemma app_at_start : app_at [] v0 stats0.
Proof. exists []. intros more. cbn [app]. by destruct (run_consumer _ _ _ v0 stats0 more). Qed.

Lemma within_next events s t more_events s' : within events s -> ct_stop t = false ->
  session_body find cconfig policy s t = Continue more_events s' -> within (events ++ more_events) s'.
Proof.
  intros (sessions & v & stats & current & reset_at & now & Happ & [turns H] & ->) Hstop Hbody.
  exists sessions, v, stats, (current ++ more_events), reset_at, now. split; [done|]. split; [|by rewrite app_assoc].
  exists (turns ++ [t]). intros more. rewrite <- app_assoc, H. cbn [app session_loop]. rewrite Hstop.
  change (session_body find many policy s t) with (session_body find cconfig policy s t). by rewrite Hbody, prepend_prepend.
Qed.

(** The session returns in turn [t]. *)
Definition session_returns (s : consumer_state) (t : consumer_turn) (events : list consumer_event) (s' : consumer_state) : Prop :=
  (ct_stop t = true /\ events = [] /\ s' = s) \/ (ct_stop t = false /\ session_body find cconfig policy s t = Break events s').

Lemma within_over events s t last_events s' ended : within events s -> session_returns s t last_events s' ->
  exists sessions, app_at sessions (cs_validator s') (cs_stats s') /\
    events ++ (last_events ++ [CRelease; CDisconnect; CSummary (totals (cs_stats s')) (elapsed (cs_stats s') ended)]) = concat sessions.
Proof.
  intros (sessions & v & stats & current & reset_at & now & [rounds Happ] & [turns H] & ->) Hret.
  assert (Hsession : session v stats reset_at now (turns ++ [t]) = Returned 0 s' (current ++ last_events ++ [CRelease])).
  { rewrite H. cbn [session_loop]. destruct Hret as [(-> & -> & ->) | [-> Hbody]]; [done|].
    change (session_body find many policy s t) with (session_body find cconfig policy s t). by rewrite Hbody. }
  set (final := (current ++ last_events ++ [CRelease]) ++ [CDisconnect; CSummary (totals (cs_stats s')) (elapsed (cs_stats s') ended)]).
  exists (sessions ++ [final]). split.
  - exists (rounds ++ [{| cr_stop := false; cr_connected := true; cr_reset_at := reset_at; cr_now := now; cr_turns := turns ++ [t]; cr_ended := ended |}]).
    intros more. rewrite <- app_assoc, Happ. cbn [app run_consumer cr_stop cr_connected cr_reset_at cr_now cr_turns cr_ended orb negb].
    rewrite Hsession. cbn [many cc_once]. fold final. by rewrite prepend_prepend.
  - rewrite concat_app. cbn [concat]. rewrite app_nil_r. unfold final. by rewrite <- !app_assoc.
Qed.

Lemma completes_runs y r s t y' : within (y_got y) s -> ct_stop t = false -> consumer_completes find cconfig policy y r s t = Goes y' ->
  consumer_runs (y_consumer y') (y_got y').
Proof.
  intros Hin Hstop. unfold consumer_completes. destruct (session_body _ _ _ _ _) as [es s' | es s' |] eqn:E; [| |done].
  - intros [= <-]. cbn. by eapply within_next.
  - intros [= <-]. cbn [consumer_moves y_consumer y_got consumer_runs]. eapply within_over; [done|]. by right.
Qed.

Lemma consumer_runs_step y c y' : consumer_runs (y_consumer y) (y_got y) -> consumer_step find cconfig policy pid y c = Goes y' ->
  consumer_runs (y_consumer y') (y_got y').
Proof.
  intros Hrun E. unfold consumer_step in E.
  destruct (y_consumer y) as [v stats | s | s t tried | s t] eqn:Ec; destruct c; try (by destruct tried); try done; cbn [consumer_runs] in Hrun.
  - destruct (shared_attach _ _) as [| | ? r], (new_timer (cc_report_interval cconfig) now) as [timer|] eqn:Et; try done. injection E as <-. cbn. rewrite app_nil_r.
    destruct Hrun as (sessions & Happ & ->). exists sessions, v, stats, [], reset_at, now. split; [done|]. split; [|by rewrite app_nil_r].
    exists []. intros more. cbn [app]. unfold run_session. change (cc_report_interval many) with (cc_report_interval cconfig).
    rewrite Et. by destruct (session_loop _ _ _ more _).
  - destruct (ct_stop t) eqn:Hstop.
    + injection E as <-. cbn [consumer_moves y_consumer y_got consumer_runs].
      apply (within_over (y_got y) s t [] s (ct_now t)); [done | by left].
    + assert (Hreceive : Goes (consumer_moves y (shared_release (y_ring y)) (Receiving s t false) []) = Goes y' ->
        consumer_runs (y_consumer y') (y_got y')) by (intros [= <-]; cbn; by rewrite app_nil_r).
      destruct policy eqn:Epol, (ct_paused t); try by apply Hreceive. rewrite <- Epol in E. by apply (fun H => completes_runs _ _ _ _ _ Hrun H E).
  - destruct Hrun as [Hin Hstop]. destruct (shared_peek _ _) as [| | [record|] r]; try (by destruct tried).
    + assert (E' : consumer_completes find cconfig policy y r s (with_packet t (Some record) no_peer None) = Goes y') by (by destruct tried).
      by apply (fun H => completes_runs _ _ _ _ _ Hin H E').
    + assert (E' : y' = consumer_moves y r (Receiving s t true) []) by (destruct tried; by injection E as <-). subst y'. cbn. by rewrite app_nil_r.
  - destruct tried; [|done]. destruct Hrun as [Hin Hstop]. destruct (ct_paused t); [by apply (fun H => completes_runs _ _ _ _ _ Hin H E)|].
    destruct (_ && _); [done|]. destruct (_ || _); [injection E as <-; cbn; by rewrite app_nil_r | by apply (fun H => completes_runs _ _ _ _ _ Hin H E)].
  - destruct Hrun as [Hin Hstop]. destruct (shared_peek _ _) as [| | last r]; try done. by apply (fun H => completes_runs _ _ _ _ _ Hin H E).
Qed.
End Loops.

(** ** Properties *)

(** C4. The system is the two applications on one ring: after any schedule the
    producer's events are those of [ProducerApp]'s loop on some turns, which
    has returned exactly if the process is past it, and the consumer's events
    those of [ConsumerApp]'s [run] on some rounds of sessions, from the same
    initial states.  So what holds of the applications' loops whatever their
    environment holds of the processes in the system. *)
Theorem system_runs_the_applications checksum pconfig find cconfig policy pid mem g limiter timer now v stats schedule y :
  system_run checksum pconfig find cconfig policy pid schedule (system_start mem g limiter timer now v stats) = Goes y ->
  (exists turns s, producer_loop fill checksum pconfig (record_size pconfig) turns (initial_producer g limiter timer now) =
     match y_producer y with RunReturned | SinkDestroyed => Returned 0 s (y_sent y) | _ => Running s (y_sent y) end) /\
  (exists rounds last sessions, run_consumer find (many cconfig) policy v stats rounds = Running last sessions /\ concat sessions = y_got y).
Proof.
  intros Hrun. set (s0 := initial_producer g limiter timer now).
  assert (H : producer_runs checksum pconfig s0 (y_producer y) (y_sent y) /\ consumer_runs find cconfig policy v stats (y_consumer y) (y_got y)).
  { assert (Hstart : producer_runs checksum pconfig s0 (y_producer (system_start mem g limiter timer now v stats)) [] /\
      consumer_runs find cconfig policy v stats (y_consumer (system_start mem g limiter timer now v stats)) []).
    { split; [apply loop_at_start|]. exists []. split; [apply app_at_start | done]. }
    change (@nil producer_event) with (y_sent (system_start mem g limiter timer now v stats)) in Hstart.
    change (@nil consumer_event) with (y_got (system_start mem g limiter timer now v stats)) in Hstart.
    revert Hrun Hstart. generalize (system_start mem g limiter timer now v stats). induction schedule as [|c schedule IH]; intros y0; cbn [system_run].
    - by intros [= <-].
    - destruct (system_step _ _ _ _ _ _ y0 c) as [| | |y1] eqn:E; try done. intros Hrun [Hp Hc]. apply (IH y1 Hrun).
      destruct c; cbn [system_step] in E.
      all: first [split; [by eapply producer_runs_step | apply producer_step_keeps in E as [-> ->]; exact Hc]
                 | split; [apply consumer_step_moves in E as (r & p & es & ->); exact Hp | by eapply consumer_runs_step]]. }
  destruct H as [Hp Hc]. split.
  - assert (Hat : forall s, loop_at checksum pconfig s0 (y_sent y) s -> exists turns s',
      producer_loop fill checksum pconfig (record_size pconfig) turns s0 = Running s' (y_sent y)).
    { intros s [turns H]. exists turns, s. specialize (H []). rewrite app_nil_r in H. rewrite H. cbn. by rewrite app_nil_r. }
    destruct (y_producer y); cbn [producer_runs] in Hp; [by eapply Hat | by eapply Hat, Hp | by eapply Hat, Hp | | done | done].
    destruct Hp as (s1 & t & slot & Hl & _). by eapply Hat.
  - assert (Hin : forall s, within find cconfig policy v stats (y_got y) s ->
      exists rounds last sessions, run_consumer find (many cconfig) policy v stats rounds = Running last sessions /\ concat sessions = y_got y).
    { intros s (sessions & v1 & stats1 & current & reset_at & start & [rounds Happ] & [turns H] & ->).
      exists (rounds ++ [{| cr_stop := false; cr_connected := true; cr_reset_at := reset_at; cr_now := start; cr_turns := turns; cr_ended := 0 |}]).
      rewrite Happ. cbn [run_consumer cr_stop cr_connected cr_reset_at cr_now cr_turns cr_ended orb negb].
      specialize (H []). rewrite app_nil_r in H. rewrite H. cbn [session_loop prepend]. rewrite app_nil_r. eexists _, _. split; [done|].
      rewrite concat_app. cbn. by rewrite app_nil_r. }
    destruct (y_consumer y) as [v1 stats1 | s | s t tried | s t]; cbn [consumer_runs] in Hc; [| by eapply Hin | by eapply Hin, Hc | by eapply Hin, Hc].
    destruct Hc as (sessions & [rounds Happ] & E). specialize (Happ []). rewrite app_nil_r in Happ.
    exists rounds, (v1, stats1), sessions. rewrite Happ. cbn. by rewrite app_nil_r.
Qed.

(** The demonstration of [System]: the producer has returned, having committed
    three packets. *)
Lemma system_runs_the_applications_witness :
  exists turns s events, producer_loop fill Crc32 demo_three (record_size demo_three) turns
      (initial_producer (Sequential 0) (new_limiter false 0 0) {| t_period := 1000000000; t_next := 1000000000 |} 0) = Returned 0 s events /\
    length (commits events) = 3%nat.
Proof.
  assert (E : (fun result => match result with
      | Goes y => Some (length (commits (y_sent y)), match y_producer y with SinkDestroyed => true | _ => false end)
      | _ => None end) demo_system = Some (3%nat, true)) by (vm_compute; reflexivity).
  assert (H := system_runs_the_applications Crc32 demo_three (registry_find sse42) demo_consumer_config DiscardingPausePolicy 41
    (repeat 0 64) (Sequential 0) (new_limiter false 0 0) {| t_period := 1000000000; t_next := 1000000000 |} 0 (new_validator 0) (new_stats 0)
    demo_schedule).
  destruct (system_run _ _ _ _ _ _ _ _) as [| | |y]; [discriminate E.. |]. injection E as Hlen Hdead.
  destruct (H y eq_refl) as [(turns & s & Hloop) _]. exists turns, s, (y_sent y). split; [|exact Hlen].
  rewrite Hloop. by destruct (y_producer y).
Defined.
