(* ===== verification/Crash.v ===== *)
(** Consumers that die and are replaced: [ShmPacketSource::try_attach] lets a
    new process take over the ring of a consumer that no longer exists
    (shm_transport.cpp, [process_alive(expected)]).

    A life is what one consumer process does from its start to its death,
    which may come at any step of [System].  Of a dead process only its stores
    to the shared mapping remain; the private cursor of its ring end, its
    validator and its statistics are gone, and the next process reads [tail]
    from the control block.  That the stores of a dead process are visible to
    the one that finds it dead is an assumption on the system, as in
    [shared_attach]. *)
From Stdlib Require Import ZArith Lia.
From stdpp Require Import base numbers list strings.
From S2P Require Import Prelude Checksum Packet Memory RingBuffer RingProtocol PayloadGenerator PacketBuilder PacketValidator Stats Transport RateLimiter.
From S2P Require Import ProducerApp ConsumerApp EndToEnd SharedRing System.

(** ** Dying and starting *)

(** A fresh process in the place of the consumer. *)
Definition consumer_starts (v : PacketValidator) (stats : ConsumerStats) (y : system) : system := {|
  y_ring := y_ring y; y_state := y_state y; y_producer := y_producer y; y_consumer := Detached v stats;
  y_sent := y_sent y; y_got := [] |}.

(** The records a consumer has taken and not released. *)
Definition in_hand (y : system) : nat :=
  match y_consumer y with
  | InSession _ => if Z.eqb (c_pending (r_cons (y_ring y))) 0 then 0%nat else 1%nat
  | _ => 0%nat
  end.

(** How a process starts, and its life as a schedule of both processes. *)
Record life := { li_validator : PacketValidator; li_stats : ConsumerStats; li_schedule : list choice }.

Section Lives.
Context (checksum : IChecksum) (pconfig : ProducerConfig).
Context (find : Z -> option IChecksum) (cconfig : ConsumerConfig) (policy : pause_policy) (producer_pid : Z).

(** The lives of successive consumers: what each saw, how many records it had
    in hand when it died; and the system at the end of the last one. *)
Fixpoint consumer_lives (lives : list life) (y : system) : list (list consumer_event * nat) * step_result :=
  match lives with
  | [] => ([], Goes y)
  | l :: lives =>
      match system_run checksum pconfig find cconfig policy producer_pid (li_schedule l)
              (consumer_starts (li_validator l) (li_stats l) y) with
      | Goes y => let '(seen, result) := consumer_lives lives y in ((y_got y, in_hand y) :: seen, result)
      | result => ([], result)
      end
  end.
End Lives.

(** ** What the successors get *)

(** Each process sees the records in order, the first one from position [n] of
    the stream, the next ones from the first record their predecessor had not
    released. *)
Fixpoint resumed (records : list bytes) (n : nat) (seen : list (list consumer_event * nat)) : Prop :=
  match seen with
  | [] => True
  | (events, held) :: seen =>
      let got := taken events in
      map fst got = take (length got) (drop n records) /\ (n + length got <= length records)%nat /\
      judged n got /\ (stream_ended events = true -> (n + length got)%nat = length records) /\
      (held <= 1 /\ held <= length got)%nat /\ resumed records (n + length got - held) seen
  end.

(** ** The system invariant across a death *)

Section Death.
Context (cap : Z) (find : Z -> option IChecksum) (pconfig : ProducerConfig) (g : generator) (policy : pause_policy).
Abbreviation inv := (system_inv cap find pconfig g policy).

Lemma view_in_hand r q view : holds r q view ->
  (if Z.eqb (c_pending (r_cons r)) 0 then 0 else 1)%nat = length (option_list view).
Proof.
  destruct view as [record|]; cbn [holds option_list length]; [intros [Hne _]; by rewrite (proj2 (Z.eqb_neq _ _)) | by intros ->].
Qed.

Lemma in_hand_spec base y : inv base y -> exists done q,
  commits (y_sent y) = base ++ done ++ q /\ ring_rel cap (y_ring y) q /\
  take (length (taken (y_got y)) - in_hand y) (map fst (taken (y_got y))) = done /\
  length done = (length (taken (y_got y)) - in_hand y)%nat /\ (in_hand y <= 1 /\ in_hand y <= length (taken (y_got y)))%nat.
Proof.
  intros [(done & q & Hrel & Hsent & Hc & _) _ _ _]. exists done, q. unfold in_hand.
  assert (Hnone : map fst (taken (y_got y)) = done -> take (length (taken (y_got y)) - 0) (map fst (taken (y_got y))) = done /\
    length done = (length (taken (y_got y)) - 0)%nat).
  { intros <-. rewrite Nat.sub_0_r, length_map. split; [by rewrite take_ge by (by rewrite length_map) | done]. }
  destruct (y_consumer y) as [v stats | s | s t tried | s t]; cbn [consumer_rel] in Hc.
  - destruct (Hnone Hc). split_and!; try done; lia.
  - destruct Hc as (_ & view & Hh & E). rewrite (view_in_hand _ _ _ Hh).
    assert (Hl : length (taken (y_got y)) = (length done + length (option_list view))%nat) by (by rewrite <- length_app, <- E, length_map).
    rewrite Hl, Nat.add_sub, E, take_app_length. split_and!; try done; destruct view; cbn; lia.
  - destruct Hc as (_ & _ & Hc & _). destruct (Hnone Hc). split_and!; try done; lia.
  - destruct Hc as (_ & _ & Hc & _). destruct (Hnone Hc). split_and!; try done; lia.
Qed.

(** What the dead process had released is out of the ring; what it had in
    hand is again the oldest record of the queue. *)
Lemma death_ok base y v stats : inv base y ->
  let n := (length (taken (y_got y)) - in_hand y)%nat in
  inv (base ++ take n (map fst (taken (y_got y)))) (consumer_starts v stats y) /\
  length (base ++ take n (map fst (taken (y_got y)))) = (length base + n)%nat.
Proof.
  intros Hinv n. destruct (in_hand_spec base y Hinv) as (done & q & Hsent & Hrel & Htake & Hlen & _). fold n in Htake, Hlen.
  rewrite Htake. split; [|by rewrite length_app, Hlen]. destruct Hinv as [_ Hprod _ Hst].
  constructor; cbn; [|done | by intros i record r Hi | done]. exists [], q.
  split; [done|]. split; [by rewrite <- app_assoc | done].
Qed.
End Death.

(** ** Properties *)

Section Lifetimes.
Context (m : cpu) (kind_name : string) (seed k : Z) (g : generator) (checksum : IChecksum) (pconfig : ProducerConfig).
Context (mem : bytes) (timer : PeriodicTimer) (now : Z) (cconfig : ConsumerConfig) (policy : pause_policy) (pid : Z).
Context (Hsetup : system_setup m kind_name seed k g checksum pconfig mem timer now).
Abbreviation inv := (system_inv (area mem) (registry_find m) pconfig g policy).
Abbreviation lives_of := (consumer_lives checksum pconfig (registry_find m) cconfig policy pid).

(** The records a life saw, read in the final stream. *)
Lemma life_resumes base y records : inv base y ->
  (exists events, records = commits (y_sent y) ++ commits events /\ (y_producer y = SinkDestroyed -> events = [])) ->
  let got := taken (y_got y) in let n := length base in
  map fst got = take (length got) (drop n records) /\ (n + length got <= length records)%nat /\
  judged n got /\ (stream_ended (y_got y) = true -> (n + length got)%nat = length records).
Proof.
  intros [(done & q & _ & Hsent & Hc & Hend) _ Hj _] (events & -> & Hlast) got n.
  destruct (taken_prefix _ _ _ _ _ _ _ _ _ eq_refl Hc) as [Hpre Hall]. fold got in Hpre, Hall, Hj.
  assert (Hle : (length got <= length (done ++ q))%nat) by (rewrite <- (length_map fst got), Hpre, length_take; lia).
  rewrite Hsent, <- app_assoc. unfold n. rewrite drop_app_length. split_and!; [| |done|].
  - rewrite take_app_le by done. done.
  - rewrite !length_app in *. lia.
  - intros E. destruct (Hend E) as [Hdead ->]. rewrite (Hlast Hdead), app_nil_r in *. specialize (Hall eq_refl).
    cbn [commits omap list_omap]. rewrite app_nil_r, length_app, <- Hall. by rewrite length_map.
Qed.

Lemma lives_resume lives : forall base y, (forall v stats, inv base (consumer_starts v stats y)) ->
  Forall (fun l => Forall (choice_ok pconfig) (li_schedule l)) lives ->
  match lives_of lives y with
  | (_, NotEnabled) | (_, Overflowed) => True
  | (_, Faulted) => False
  | (seen, Goes y') => follows y y' /\ resumed (commits (y_sent y')) (length base) seen
  end.
Proof.
  induction lives as [|l lives IH]; intros base y Hstart Hok; cbn [consumer_lives]; [by split|].
  apply Forall_cons in Hok as [Hl Hok].
  pose proof (setup_run _ _ _ _ _ _ _ _ _ _ cconfig policy pid base _ _ Hsetup Hl (Hstart (li_validator l) (li_stats l))) as Hrun.
  destruct (system_run _ _ _ _ _ _ (li_schedule l) _) as [| | |y1] eqn:Erun; try done.
  assert (Hfollow : follows y y1) by (apply run_follows in Erun as (es & ? & ?); by exists es).
  specialize (IH _ y1 (fun v stats => proj1 (death_ok _ _ _ _ _ base y1 v stats Hrun)) Hok).
  destruct (lives_of lives y1) as [seen [| | |y2]]; try done. destruct IH as [Hfollow2 Hres].
  split; [by etransitivity|]. destruct Hfollow2 as (es & Es & Hdead). cbn [resumed].
  destruct (life_resumes base y1 (commits (y_sent y2)) Hrun) as (H1 & H2 & H3 & H4).
  { exists es. rewrite Es, commits_app. split; [done|]. by intros []%Hdead. }
  destruct (in_hand_spec _ _ _ _ _ base y1 Hrun) as (_ & _ & _ & _ & _ & _ & Hheld).
  split_and!; try done; [apply Hheld.. |]. rewrite (proj2 (death_ok _ _ _ _ _ base y1 (li_validator l) (li_stats l) Hrun)) in Hres.
  by rewrite Nat.add_sub_assoc in Hres by apply Hheld.
Qed.

(** C2. A consumer may die at any moment, and another process take its place:
    whatever the schedules of their lives, each process goes on exactly where
    its predecessor stopped releasing.  Nothing is skipped; a record is seen
    again only if the dead process had it in hand, and that is at most one;
    the packets a new process sees are accepted, none is counted as missing or
    rewound because of the change; a process that sees the end of the stream
    has seen the last record.  No access leaves the mapping or the slot. *)
Theorem crash_repeats_at_most_one limiter v stats lives :
  Forall (fun l => Forall (choice_ok pconfig) (li_schedule l)) lives ->
  match lives_of lives (system_start mem g limiter timer now v stats) with
  | (_, NotEnabled) | (_, Overflowed) => True
  | (_, Faulted) => False
  | (seen, Goes y) => resumed (commits (y_sent y)) 0 seen
  end.
Proof.
  intros Hok. pose proof (lives_resume lives [] (system_start mem g limiter timer now v stats)) as H.
  destruct (lives_of _ _) as [seen [| | |y]]; try (apply H; [|done]; intros v' stats'; by eapply setup_inv).
Qed.
End Lifetimes.

(** On a ring of 64 bytes: the first process dies with the first packet in
    hand, its successor takes it again, and the second packet. *)
Definition demo_lives : list life :=
  let send t := [PTurn (demo_turn None t); PReserve 0; PBuild; PCommitSlot] in
  let turn := CTurn {| ct_stop := false; ct_paused := false; ct_packet := None; ct_wall_clock := 100;
    ct_peer := no_peer; ct_last := None; ct_now := 100; ct_queue := {| used_bytes := 0; capacity_bytes := 64 |} |} in
  [{| li_validator := new_validator 0; li_stats := new_stats 0;
      li_schedule := [CAttach 0 5 10] ++ send 10 ++ [turn; CPeek 1] |};
   {| li_validator := new_validator 0; li_stats := new_stats 0;
      li_schedule := [CAttach 0 20 20; turn; CPeek 0; turn] ++ [PTurn (demo_turn None 20); PReserve 1; PBuild; PCommitSlot; CPeek 1] |}].

Lemma crash_repeats_at_most_one_witness :
  exists y seen1 seen2, consumer_lives Crc32 demo_three (registry_find sse42) demo_consumer_config BlockingPausePolicy 41 demo_lives demo_start
      = ([(seen1, 1%nat); (seen2, 1%nat)], Goes y) /\
    map fst (taken seen1) = take 1 (commits (y_sent y)) /\ map fst (taken seen2) = commits (y_sent y) /\ length (commits (y_sent y)) = 2%nat.
Proof.
  assert (H := crash_repeats_at_most_one sse42 "sequential" 0 1 (Sequential 0) Crc32 demo_three (repeat 0 64)
    {| t_period := 1000000000; t_next := 1000000000 |} 0 demo_consumer_config BlockingPausePolicy 41 demo_setup_system
    (new_limiter false 0 0) (new_validator 0) (new_stats 0) demo_lives ltac:(repeat constructor; by_decide)).
  assert (E : (fun '(seen, result) => (map snd seen, map (fun x => length (taken (fst x))) seen, progress result))
    (consumer_lives Crc32 demo_three (registry_find sse42) demo_consumer_config BlockingPausePolicy 41 demo_lives demo_start)
    = ([1; 1]%nat, [1; 2]%nat, Some (2%nat, [true; true], false))) by (vm_compute; reflexivity).
  destruct (consumer_lives _ _ _ _ _ _ _ _) as [seen [| | |y]]; [discriminate E.. |].
  destruct seen as [|[s1 h1] [|[s2 h2] [|? seen]]]; try discriminate E. injection E as -> -> E1 E2 E3 _ _.
  cbn [resumed] in H. rewrite E1, E2 in H. destruct H as (H1 & _ & _ & _ & _ & H2 & _). cbn [Nat.add Nat.sub drop] in H1, H2.
  exists y, s1, s2. split_and!; try done. rewrite H2, drop_0. apply take_ge. by rewrite E3.
Defined.
