(* ===== verification/Definedness.v ===== *)
(** The arithmetic of the running system stays defined.

    [System]'s steps distinguish [Overflowed]: the signed 64-bit clock
    arithmetic of a report timer, of the rate limiter, of the validator or of
    the latency sum has overflowed, which is undefined behaviour.  Here the wall
    clock stays in a window of [span] nanoseconds, and the steady clock a report
    interval, and the limiter's intervals, away from its limits; then no schedule
    reaches it, because every packet on the ring carries a time stamp of the
    window and a latency is at most [span]. *)
From Stdlib Require Import ZArith Lia.
From stdpp Require Import base numbers list strings.
From S2P Require Import Prelude Checksum Packet Memory RingBuffer RingProtocol PayloadGenerator PacketBuilder PacketValidator Stats Transport RateLimiter.
From S2P Require Import ProducerApp ConsumerApp EndToEnd SharedRing System.

Section Definedness.
Context (cap : Z) (Hcap : is_capacity cap).
Context (find : Z -> option IChecksum) `{!RegistryLaws find} (kind : Z) (checksum : IChecksum) (Hfind : find kind = Some checksum).
Context (pconfig : ProducerConfig) (g : generator).
Context (Hpayload : 0 <= pc_payload_size pconfig) (Hsmall : kHeaderSize + pc_payload_size pconfig < 2 ^ 32).
Context (cconfig : ConsumerConfig) (policy : pause_policy) (producer_pid : Z) (base : list bytes).
(* The wall clock's window and the validator's tolerance. *)
Context (first span tolerance : Z).
(* The limiter's readings of the steady clock. *)
Context (lo hi : Z).

Definition in_window (ns : Z) : Prop := first <= ns <= first + span.

(** The clocks that a choice brings with it. *)
Definition session_period : Z := cc_report_interval cconfig * 1000000.

Definition turn_sane (t : consumer_turn) : Prop := in_window (ct_wall_clock t) /\ is_i64 (ct_now t + session_period).

Definition sane (c : choice) : Prop :=
  match c with
  | PTurn t => in_window (pt_wall_clock t) /\ is_i64 (pt_now t + report_period pconfig) /\ reads_in lo hi (pt_clock t)
  | CAttach _ _ now => is_i64 (now + session_period)
  | CTurn t => turn_sane t
  | _ => True
  end.

(** The window and the intervals themselves, over [steps] steps. *)
Record clocks_fit (steps : Z) : Prop := {
  cf_period : is_i64 session_period;
  cf_span : 0 <= span;
  cf_first : is_i64 first;
  cf_last : is_i64 (first + span);
  cf_first_tolerated : is_i64 (first + tolerance);
  cf_last_tolerated : is_i64 (first + span + tolerance);
  cf_steps : span * steps <= I64_MAX;
}.

(** A record with a time stamp of the window. *)
Definition stamped (record : bytes) : Prop := exists h, read_header record = Some h /\ in_window (timestamp_ns h).

(** *** Producer *)

(** A packet carries the wall clock of its turn. *)
Lemma build_stamped n slot (s : generator) wall_clock record s' : generator_ok s -> all_bytes slot -> (32 <= length slot)%nat ->
  Z.of_nat (length slot) < 2 ^ 32 -> is_i64 wall_clock -> in_window wall_clock ->
  build fill checksum slot s (u64 n) wall_clock = Some (record, s') -> stamped record.
Proof.
  intros Hok Hb Hlen Hlt Hi Hw E. pose proof (rl_laws kind checksum Hfind) as Hlaws.
  pose proof (build_is_seal fill generator_ok checksum slot s (u64 n) wall_clock Hok Hb Hlen) as H.
  pose proof (gl_bytes s (length slot - 32) Hok) as Hpb. pose proof (gl_length s (length slot - 32) Hok) as Hpl.
  destruct (fill s (length slot - 32)%nat) as [payload g']. cbn [fst snd] in *. destruct H as (sealed & E' & Hseal & _).
  assert (sealed = record) as -> by congruence.
  assert (Hs : sealed_record find (u64 n) wall_clock record).
  { exists kind, checksum, (take 32 slot ++ payload). rewrite length_app, length_take, Hpl. split_and!; try done; try lia.
    apply Forall_app. split; [by apply Forall_take | done]. }
  destruct (sealed_record_intact find _ _ _ (u64_range n) Hi Hs) as (_ & _ & _ & h & Hh & _ & Ht).
  exists h. by rewrite Ht.
Qed.

Lemma body_stamped n m s t es s' : after generator_ok (packet_size pconfig) (report_period pconfig) n 0 m s ->
  turn_ok (packet_size pconfig) (report_period pconfig) t -> in_window (pt_wall_clock t) ->
  producer_body fill checksum (record_size pconfig) s t = Next es s' -> Forall stamped (commits es).
Proof.
  intros (Hok & Hseq & _) (Hslot & Hi & _) Hw. destruct (packet_size_range pconfig Hpayload Hsmall) as [Hlo Hhi].
  unfold producer_body. set (changed := negb _). set (notes := if changed then _ else _). set (s1 := if changed then _ else s).
  assert (Hn : commits notes = []) by (unfold notes; by destruct changed).
  assert (H1 : pr_gen s1 = pr_gen s /\ pr_sequence s1 = pr_sequence s) by (unfold s1; by destruct changed). destruct H1 as [Hg1 Hs1].
  assert (Hrep : forall before s2, reporting before s2 t = Next es s' -> commits es = commits before).
  { intros before s2. unfold reporting. destruct (p_report_if_due s2 t) as [[reports s3]|] eqn:E; [|discriminate].
    intros [= <- _]. by rewrite commits_app, (report_commits _ _ _ _ E), app_nil_r. }
  destruct (pt_paused t); [intros H; apply Hrep in H; by rewrite H, Hn|].
  destruct (negb (slot_defined _ _ _)); [discriminate|].
  destruct (wait_for_slot _ _ _) as [[[[? ?] ?] l]|]; [|discriminate].
  destruct (pt_slot t) as [slot|]; [|intros H; apply Hrep in H; by rewrite H, Hn].
  destruct (Hslot slot eq_refl) as [Hlen Hb]. cbn [set_limiter pr_gen pr_sequence]. rewrite Hg1, Hs1, Hseq.
  destruct (build _ _ _ _ _ _) as [[record g']|] eqn:E; [|discriminate]. intros H. apply Hrep in H. rewrite H, commits_app, Hn.
  cbn. repeat constructor. eapply build_stamped, E; try done; lia.
Qed.

(** *** Consumer *)

(** A session's state after [k] steps of the system. *)
Record session_sane (k : Z) (s : consumer_state) : Prop := {
  sn_timer : t_period (cs_timer s) = session_period;
  sn_latency : Z.abs (sum_ns (latency (cs_stats s))) <= span * k;
  sn_tolerance : future_tolerance_ns (cs_validator s) = tolerance;
}.

Context (steps : Z) (Hfit : clocks_fit steps).

Lemma session_sane_mono k k' s : k <= k' -> session_sane k s -> session_sane k' s.
Proof. intros Hk [? Hl ?]. pose proof (cf_span _ Hfit). constructor; [done | nia | done]. Qed.

Lemma note_sane k s paused notes s1 : note_pause policy s paused = (notes, s1) -> session_sane k s -> session_sane k s1.
Proof.
  unfold note_pause. intros E [Ht Hl Hv]. destruct (Bool.eqb _ _); injection E as _ <-; [done|].
  constructor; cbn; try done. by destruct paused, policy.
Qed.

Lemma report_defined k s t : 0 <= k -> session_sane k s -> is_i64 (ct_now t + session_period) ->
  exists es s', c_report_if_due s t = Some (es, s') /\ session_sane k s'.
Proof.
  intros Hk [Ht Hl Hv] Hnow. pose proof (cf_span _ Hfit). unfold c_report_if_due, due. rewrite Ht.
  destruct (Z.ltb _ _); [|rewrite checked_i64_Some by done; cbn [mbind option_bind]]; do 2 eexists; (split; [done|]).
  - by constructor.
  - constructor; cbn; [done | lia | done].
Qed.

(** A latency is at most the span, and the sum has room for it. *)
Lemma process_defined k s packet now : 0 <= k -> k + 1 <= steps -> session_sane k s -> stamped packet -> in_window now ->
  exists es s', process find cconfig s packet now = Some (es, s') /\ session_sane (k + 1) s'.
Proof.
  intros Hk Hks Hs (h & Hh & Ht) Hnow. destruct Hfit as [_ H0 H1 H2 H3 H4 H5].
  destruct Hs as [Hs1 Hs2 Hs3] eqn:E; clear E. unfold in_window, is_i64, I64_MIN, I64_MAX in *.
  assert (Hspan : span * (k + 1) <= 9223372036854775807) by nia.
  assert (Hval : exists r v, validate find (cs_validator s) packet now = Some (r, v) /\ future_tolerance_ns v = tolerance /\
    Z.abs (latency_ns r) <= span).
  { destruct (intact find packet) eqn:Hi.
    - rewrite (validate_intact find _ packet now h Hi Hh), Hs3.
      rewrite !checked_i64_Some by (unfold is_i64, I64_MIN, I64_MAX; nia). cbn [mbind option_bind].
      do 2 eexists. split; [done|]. cbn. split; [done | lia].
    - destruct (validate_corrupted find (cs_validator s) packet now Hi) as (r & -> & _ & _ & Hl). do 2 eexists. split; [done|].
      rewrite Hl. by split. }
  destruct Hval as (r & v & Ev & Htol & Hlat). unfold process. rewrite Ev.
  assert (Hrec : exists stats, record (cs_stats s) r (Z.of_nat (length packet)) = Some stats /\
    Z.abs (sum_ns (latency stats)) <= span * (k + 1)).
  { unfold record. destruct (corrupted r); [eexists; split; [done|]; cbn; nia|].
    unfold latency_add. rewrite checked_i64_Some by (unfold is_i64, I64_MIN, I64_MAX; nia). cbn [mbind option_bind].
    eexists. split; [done|]. cbn. nia. }
  destruct Hrec as (stats & -> & Hsum). do 2 eexists. split; [done|]. by constructor.
Qed.

Definition turn_defined (k : Z) (result : turn_result) : Prop :=
  match result with Continue _ s | Break _ s => session_sane k s | Overflows => False end.

Lemma then_report_defined k before s t : 0 <= k -> session_sane k s -> turn_sane t -> turn_defined k (then_report before s t).
Proof. intros Hk Hs [_ Ht]. unfold then_report. by destruct (report_defined k s t Hk Hs Ht) as (es & s' & -> & ?). Qed.

(** A turn on a stamped record, if it takes one. *)
Lemma body_defined k s t : 0 <= k -> k + 1 <= steps -> session_sane k s -> turn_sane t ->
  (forall packet, turn_packet policy t = Some packet -> stamped packet) ->
  turn_defined (k + 1) (session_body find cconfig policy s t).
Proof.
  intros Hk Hks Hs Ht Hpacket. unfold session_body. destruct (note_pause policy s (ct_paused t)) as [notes s1] eqn:En.
  apply (note_sane k) in En; [|done]. pose proof (session_sane_mono k (k + 1) s1 ltac:(lia) En) as Hs1. destruct Ht as [Hw Hnow].
  unfold turn_packet in Hpacket. destruct (ct_paused t) eqn:Hp.
  { destruct (while_paused _ _ _) as [events stats] eqn:Ew. apply then_report_defined; [lia | | done].
    assert (Hl : latency stats = latency (cs_stats s1)).
    { unfold while_paused in Ew. destruct policy, (ct_packet t); by injection Ew as _ <-. }
    destruct Hs1. constructor; cbn; by rewrite ?Hl. }
  assert (Hproc : forall packet, stamped packet -> exists es s2, process find cconfig s1 packet (ct_wall_clock t) = Some (es, s2) /\
    session_sane (k + 1) s2) by (intros packet H; by apply process_defined).
  destruct (ct_packet t) as [packet|]; [|destruct (_ || _); [destruct (ct_last t) as [packet|]|]].
  - destruct (Hproc packet) as (es & s2 & -> & H2); [apply Hpacket; by destruct policy|]. apply then_report_defined; [lia | done | done].
  - destruct (Hproc packet) as (es & s2 & -> & H2); [apply Hpacket; by destruct policy|]. done.
  - done.
  - apply then_report_defined; [lia | done | done].
Qed.

(** *** The system *)

(** The limiter has room for a wait in each of the steps that are left; a turn
    in progress has not used its own up. *)
Definition producer_sane (k : Z) (p : producer_place) : Prop :=
  match p with
  | AtHead s => limiter_fits lo hi (steps - k) (pr_limiter s)
  | Reserving s t _ | Building s t => in_window (pt_wall_clock t) /\ reads_in lo hi (pt_clock t) /\
      limiter_fits lo hi (steps - k + 1) (pr_limiter s)
  | Committing s events => Forall stamped (commits events) /\ limiter_fits lo hi (steps - k) (pr_limiter s)
  | RunReturned | SinkDestroyed => True
  end.

Definition consumer_sane (k : Z) (c : consumer_place) : Prop :=
  match c with
  | Detached v _ => future_tolerance_ns v = tolerance
  | InSession s => session_sane k s
  | Receiving s t _ | LastCall s t => session_sane k s /\ turn_sane t
  end.

Record system_sane (k : Z) (y : system) : Prop := {
  sa_stamped : Forall stamped (commits (y_sent y));
  sa_producer : producer_sane k (y_producer y);
  sa_consumer : consumer_sane k (y_consumer y);
}.

(** A step neither overflows nor leaves the clocks' bounds. *)
Definition step_sane (k : Z) (result : step_result) : Prop :=
  match result with NotEnabled | Faulted => True | Overflowed => False | Goes y => system_sane k y end.

Lemma consumer_sane_next k c : consumer_sane k c -> consumer_sane (k + 1) c.
Proof. destruct c; cbn; [done|..]; intros H; intuition eauto using session_sane_mono with lia. all: eapply session_sane_mono; [|done]; lia. Qed.

Lemma producer_sane_next k p : producer_sane k p -> producer_sane (k + 1) p.
Proof.
  assert (Hmono : forall a b l, b <= a -> limiter_fits lo hi a l -> limiter_fits lo hi b l) by (intros a b l; apply limiter_fits_mono).
  destruct p; cbn [producer_sane]; [| | | |done..]; intros H; intuition eauto with lia.
  all: by eapply Hmono; [|eassumption]; lia.
Qed.

Lemma producer_moves_sane k y r p events : system_sane k y -> Forall stamped (commits events) -> producer_sane (k + 1) p ->
  system_sane (k + 1) (producer_moves y r p events).
Proof. intros [Hs _ Hc] He Hp. constructor; cbn; [|done | by apply consumer_sane_next]. rewrite commits_app. by apply Forall_app. Qed.

Lemma consumer_moves_sane k y r c events : system_sane k y -> consumer_sane (k + 1) c -> system_sane (k + 1) (consumer_moves y r c events).
Proof. intros [Hs Hp _] Hc. constructor; [done | by apply producer_sane_next | done]. Qed.

Abbreviation invariant := (system_inv cap find pconfig g policy base).

(** A producer's turn: it paces itself and reports in time, commits what is
    stamped, and uses up the room of one wait. *)
Lemma turn_defined_stamped j records s t : sent_so_far find pconfig g records s ->
  turn_ok (packet_size pconfig) (report_period pconfig) t -> in_window (pt_wall_clock t) ->
  0 <= j -> reads_in lo hi (pt_clock t) -> limiter_fits lo hi (j + 1) (pr_limiter s) ->
  match producer_body fill checksum (record_size pconfig) s t with
  | Next es s' => Forall stamped (commits es) /\ limiter_fits lo hi j (pr_limiter s') | Pacing _ _ => True | Overflow => False
  end.
Proof.
  intros (Ha & _) Ht Hw Hj Hread Hroom. destruct (packet_size_range pconfig Hpayload Hsmall) as [Hlo Hhi].
  pose proof (body_after fill generator_ok find kind checksum Hfind (packet_size pconfig) Hlo Hhi (report_period pconfig)
    (Z.of_nat (length records)) 0 _ s t ltac:(lia) Ht (reads_pace lo hi j s t Hj Hread Hroom) Ha) as Hb.
  rewrite <- (record_size_packet pconfig Hpayload Hsmall) in Hb.
  destruct (producer_body _ _ _ _ _) eqn:E; [|done | done]. split; [by eapply body_stamped|].
  rewrite (record_size_packet pconfig Hpayload Hsmall) in E. by eapply body_limiter.
Qed.

Lemma idles_sane k y s t : k + 1 <= steps -> system_sane k y -> sent_so_far find pconfig g (commits (y_sent y)) s -> clocks_ok pconfig t ->
  in_window (pt_wall_clock t) -> reads_in lo hi (pt_clock t) -> limiter_fits lo hi (steps - k) (pr_limiter s) ->
  step_sane (k + 1) (producer_idles checksum pconfig y s t).
Proof.
  intros Hks Hy Hs Ht Hw Hread Hroom. unfold producer_idles.
  replace (steps - k) with (steps - (k + 1) + 1) in Hroom by lia.
  pose proof (turn_defined_stamped (steps - (k + 1)) _ s (with_slot t None) Hs (idle_turn pconfig t Ht) Hw ltac:(lia) Hread Hroom) as H.
  destruct (producer_body _ _ _ _ _); try done. destruct H as [? ?]. by apply producer_moves_sane.
Qed.

Lemma window_clock ns : in_window ns -> is_i64 ns.
Proof. destruct Hfit as [_ _ H1 H2 _ _ _]. unfold in_window, is_i64 in *. lia. Qed.

Lemma producer_step_sane k y c : k + 1 <= steps -> invariant y -> system_sane k y -> sane c ->
  step_sane (k + 1) (producer_step checksum pconfig y c).
Proof.
  intros Hks Hinv Hy Hc. unfold producer_step.
  pose proof Hinv as [(done & q & Hrel & _ & _ & _) Hprod _ _]. pose proof (sa_producer _ _ Hy) as Hw.
  destruct (y_producer y) as [s | s t tried | s t | s rest | |] eqn:Hpl; destruct c; try (by destruct tried); try done;
    cbn [producer_rel producer_sane sane] in *.
  - destruct Hc as (Hw' & Hnow & Hread). destruct (_ || _); [by apply producer_moves_sane|].
    destruct (pt_paused t); [apply idles_sane; try done; by split; [apply window_clock|]|].
    rewrite (slot_defined_fits lo hi (steps - (k + 1))); [| lia | by destruct (pt_clock t) | by replace (steps - (k + 1) + 1) with (steps - k) by lia].
    cbn [negb]. destruct (wait_for_slot _ _ _); [|done]. apply producer_moves_sane; [done | done |].
    cbn [producer_sane]. by replace (steps - (k + 1) + 1) with (steps - k) by lia.
  - apply (producer_sane_next k (Reserving s t tried)) in Hw.
    destruct (shared_reserve _ _ _) as [| | [] r]; destruct tried; try done; by apply producer_moves_sane.
  - destruct tried; [|done]. destruct Hprod as (? & ? & _), Hw as (? & ? & Hroom). apply idles_sane; try done.
    by apply (limiter_fits_mono lo hi (steps - k + 1)); [lia|].
  - destruct Hprod as (Hs & Ht & _ & _ & Hpend), Hw as (Hw & Hread & Hroom). destruct (packet_size_range pconfig Hpayload Hsmall) as [Hlo Hhi].
    destruct (slot_contract cap Hcap (y_ring y) q Hrel) as (old & -> & Hob & Hol); [unfold kRecordPrefixSize in *; lia|].
    assert (Hturn : turn_ok (packet_size pconfig) (report_period pconfig) (with_slot t (Some old))).
    { split_and!; [|apply Ht..]. intros slot [= <-]. rewrite Hpend in Hol. split; [unfold kRecordPrefixSize in *; lia | exact Hob]. }
    pose proof (turn_defined_stamped (steps - k) _ s _ Hs Hturn Hw ltac:(lia) Hread Hroom) as H.
    destruct (producer_body _ _ _ _ _) as [es s' | |]; try done. destruct H as [Hst Hl].
    destruct (commits es) as [|record [|]] eqn:Ec; try done. destruct (shared_write _ _); try done.
    apply producer_moves_sane; [done | done|]. cbn. rewrite Ec. split; [done|]. by apply (limiter_fits_mono lo hi (steps - k)); [lia|].
  - destruct Hw as [Hst Hl]. apply producer_moves_sane; [done | done|]. by apply (limiter_fits_mono lo hi (steps - k)); [lia|].
  - destruct Hy as [Hs _ Hcs]. constructor; cbn; [done | done | by apply consumer_sane_next].
Qed.

Lemma completes_sane k y r s t : 0 <= k -> k + 1 <= steps -> system_sane k y -> session_sane k s -> turn_sane t ->
  (forall packet, turn_packet policy t = Some packet -> stamped packet) ->
  step_sane (k + 1) (consumer_completes find cconfig policy y r s t).
Proof.
  intros Hk Hks Hy Hs Ht Hp. pose proof (body_defined k s t Hk Hks Hs Ht Hp) as H. unfold consumer_completes.
  destruct (session_body _ _ _ _ _); [| |done]; (apply consumer_moves_sane; [done|]); [exact H | apply H].
Qed.

(** The record in the consumer's hands is one of the committed ones. *)
Lemma held_stamped k y r done q packet : system_sane k y -> commits (y_sent y) = base ++ done ++ q -> holds r q (Some packet) -> stamped packet.
Proof.
  intros [Hs _ _] E [_ Hh]. rewrite E in Hs. destruct q as [|x q]; [done|]. injection Hh as ->.
  apply Forall_app in Hs as [_ Hs]. apply Forall_app in Hs as [_ Hs]. by inversion Hs.
Qed.

Lemma consumer_step_sane k y c : 0 <= k -> k + 1 <= steps -> invariant y -> system_sane k y -> sane c ->
  step_sane (k + 1) (consumer_step find cconfig policy producer_pid y c).
Proof.
  intros Hk Hks Hinv Hy Hc. unfold consumer_step.
  pose proof Hinv as [(done & q & Hrel & Hsent & Hcr & _) _ _ _]. pose proof (sa_consumer _ _ Hy) as Hs.
  destruct (y_consumer y) as [v stats | s | s t tried | s t] eqn:Hcl; destruct c as [| | | | | | n reset_at now | t' | n | sees alive | n];
    try (by destruct tried); try done; cbn [consumer_rel consumer_sane sane] in *.
  - unfold new_timer. fold session_period. rewrite (checked_i64_Some session_period) by apply Hfit. cbn [mbind option_bind]. rewrite checked_i64_Some by done. cbn [mbind option_bind].
    destruct (shared_attach _ _); try done. apply consumer_moves_sane; [done|]. pose proof (cf_span _ Hfit).
    constructor; cbn; [done | nia | done].
  - destruct (ct_stop t'); [apply consumer_moves_sane; [done|]; apply Hs|].
    assert (Hreceive : step_sane (k + 1) (Goes (consumer_moves y (shared_release (y_ring y)) (Receiving s t' false) []))).
    { apply consumer_moves_sane; [done|]. split; [|done]. by eapply session_sane_mono, Hs; lia. }
    destruct policy eqn:Epol, (ct_paused t') eqn:Hp; try apply Hreceive.
    rewrite <- Epol. apply completes_sane; try done. intros packet. unfold turn_packet. by rewrite Epol, Hp.
  - destruct Hcr as (_ & Hholds & _ & Hnp), Hs as [Hs Ht]. pose proof (peek_contract cap Hcap n (y_ring y) q Hrel Hholds) as Hcon.
    assert (Hsame : forall packet r, shared_peek n (y_ring y) = Gives (Some packet) r ->
      step_sane (k + 1) (consumer_completes find cconfig policy y r s (with_packet t (Some packet) no_peer None))).
    { intros packet r E. rewrite E in Hcon. destruct Hcon as (_ & Hh & _). apply completes_sane; try done.
      intros p Hp. assert (p = packet) as ->; [|by eapply held_stamped].
      unfold turn_packet in Hp. cbn in Hp. destruct policy, (ct_paused t); congruence. }
    destruct (shared_peek n (y_ring y)) as [| | [packet|] r]; destruct tried; try done; try (by apply Hsame);
      (apply consumer_moves_sane; [done|]; split; [by eapply session_sane_mono, Hs; lia | done]).
  - destruct tried; [|done]. destruct Hs as [Hs Ht]. destruct (ct_paused t) eqn:Hp.
    { apply completes_sane; try done. intros packet. unfold turn_packet. cbn. rewrite Hp. by destruct policy. }
    destruct (_ && _); [done|]. destruct (_ || _) eqn:Hover.
    + apply consumer_moves_sane; [done|]. split; [by eapply session_sane_mono, Hs; lia | done].
    + apply completes_sane; try done. intros packet. unfold turn_packet. cbn [with_packet ct_paused ct_packet ct_peer ct_last].
      rewrite Hp, Hover. by destruct policy.
  - destruct Hcr as (_ & Hholds & Hgot & Hpkt & Hnp & Hover & _), Hs as [Hs Ht].
    destruct (release_contract cap Hcap (y_ring y) q None Hrel Hholds) as (q' & Eq & Hrel' & Hpend & _). cbn in Eq. subst q'.
    pose proof (peek_contract cap Hcap n _ q Hrel' Hpend) as Hcon. destruct (shared_peek _ _) as [| | last r]; try done.
    destruct Hcon as (_ & Hh & _). apply completes_sane; try done. intros packet Hp. eapply held_stamped; [done | done |].
    unfold turn_packet in Hp. cbn [with_packet ct_paused ct_packet ct_peer ct_last] in Hp. rewrite Hnp, Hover in Hp.
    assert (E : last = Some packet) by (by destruct policy). by rewrite E in Hh.
Qed.

Abbreviation step := (system_step checksum pconfig find cconfig policy producer_pid).
Abbreviation run := (system_run checksum pconfig find cconfig policy producer_pid).

Lemma step_defined k y c : 0 <= k -> k + 1 <= steps -> invariant y -> system_sane k y -> sane c -> step_sane (k + 1) (step y c).
Proof. intros. destruct c; cbn [system_step]; first [by apply producer_step_sane | by apply consumer_step_sane]. Qed.

Lemma sane_ok c : sane c -> choice_ok pconfig c.
Proof. destruct c; try done. intros (? & ? & _). by split; [apply window_clock|]. Qed.

Lemma run_defined schedule k y : 0 <= k -> k + Z.of_nat (length schedule) <= steps -> invariant y -> system_sane k y -> Forall sane schedule ->
  match run schedule y with
  | NotEnabled => True
  | Overflowed | Faulted => False
  | Goes y => system_sane (k + Z.of_nat (length schedule)) y
  end.
Proof.
  intros Hk Hks Hinv Hy Hs. revert k y Hk Hks Hinv Hy. induction Hs as [|c schedule Hc Hs IH]; intros k y Hk Hks Hinv Hy;
    cbn [system_run length] in *; [by rewrite Z.add_0_r|].
  pose proof (step_ok cap Hcap find kind checksum Hfind pconfig g Hpayload Hsmall cconfig policy producer_pid base y c Hinv (sane_ok c Hc)) as Hok.
  pose proof (step_defined k y c Hk ltac:(lia) Hinv Hy Hc) as Hdef.
  destruct (step y c) as [| | | y']; try done.
  replace (k + Z.of_nat (S (length schedule))) with (k + 1 + Z.of_nat (length schedule)) by lia.
  apply IH; [lia | lia | exact Hok | exact Hdef].
Qed.
Lemma sane_start mem limiter timer now v stats : future_tolerance_ns v = tolerance -> limiter_fits lo hi steps limiter ->
  system_sane 0 (system_start mem g limiter timer now v stats).
Proof. intros Hv Hroom. constructor; [constructor | | exact Hv]. cbn. by rewrite Z.sub_0_r. Qed.
End Definedness.

(** ** Property *)

(** C5. The clock arithmetic of the running system stays defined.  Suppose that
    the two processes read wall clocks in a window of [span] nanoseconds, with
    room in 63 bits for the tolerance and for [span] times the number of steps,
    that the steady clocks leave room for a report interval, and that the rate
    limiter's readings of it are between [lo] and [hi] with room for as many
    intervals as there are steps.  Then no schedule makes the report timers, the
    limiter's sums, the validator's [now - timestamp] and [now + tolerance] or
    the sum of the latencies overflow, nor makes an access leave the mapping or
    the slot; and every committed packet is stamped with a time of the window. *)
Theorem system_is_defined m kind_name seed k g checksum pconfig cconfig policy pid mem limiter timer now v stats first span lo hi schedule :
  system_setup m kind_name seed k g checksum pconfig mem timer now ->
  clocks_fit cconfig first span (future_tolerance_ns v) (Z.of_nat (length schedule)) ->
  limiter_fits lo hi (Z.of_nat (length schedule)) limiter ->
  Forall (sane pconfig cconfig first span lo hi) schedule ->
  match system_run checksum pconfig (registry_find m) cconfig policy pid schedule (system_start mem g limiter timer now v stats) with
  | NotEnabled => True
  | Overflowed | Faulted => False
  | Goes y => Forall (stamped first span) (commits (y_sent y))
  end.
Proof.
  intros Hsetup Hfit Hroom Hs. pose proof (setup_inv _ _ _ _ _ _ _ _ _ _ policy limiter v stats Hsetup) as Hinv.
  destruct Hsetup as [Hm Hg Hfind Hp Hsmall Hcap Hmem Ht].
  pose proof (run_defined (area mem) Hcap (registry_find m) k checksum Hfind pconfig g Hp Hsmall cconfig policy pid [] first span
    (future_tolerance_ns v) lo hi (Z.of_nat (length schedule)) Hfit schedule 0 _ ltac:(lia) ltac:(lia) Hinv
    (sane_start _ _ _ _ _ _ _ _ _ _ _ _ _ _ eq_refl Hroom) Hs) as H.
  destruct (system_run _ _ _ _ _ _ _ _); try done. apply H.
Qed.

(** The schedule of [System], with all clocks between 0 and 100 nanoseconds, the
    producer limited to one packet in ten nanoseconds. *)
Abbreviation demo_limited_start := (system_start (repeat 0 64) (Sequential 0) (new_limiter true 10 0)
  {| t_period := 1000000000; t_next := 1000000000 |} 0 (new_validator 0) (new_stats 0)).

Abbreviation demo_limited :=
  (system_run Crc32 demo_three (registry_find sse42) demo_consumer_config DiscardingPausePolicy 41 demo_schedule demo_limited_start).

Lemma demo_limited_progress : progress demo_limited = Some (3%nat, [true; false; true], true).
Proof. vm_compute. reflexivity. Qed.

Lemma system_is_defined_witness :
  exists y, demo_limited = Goes y /\ length (commits (y_sent y)) = 3%nat /\ Forall (stamped 0 100) (commits (y_sent y)).
Proof.
  assert (H := system_is_defined sse42 "sequential" 0 1 (Sequential 0) Crc32 demo_three demo_consumer_config DiscardingPausePolicy 41
    (repeat 0 64) (new_limiter true 10 0) {| t_period := 1000000000; t_next := 1000000000 |} 0 (new_validator 0) (new_stats 0) 0 100 0 100
    demo_schedule demo_setup_system ltac:(constructor; by_decide) ltac:(intros _; by_decide) ltac:(repeat constructor; by_decide)).
  pose proof demo_limited_progress as Hd.
  destruct (system_run _ _ _ _ _ _ _ _) as [| | | y]; [discriminate Hd.. |]. injection Hd as Hsent _ _. by exists y.
Defined.
