(* ===== verification/Liveness.v ===== *)
(** The consumer reaches the end: what [System] promises once the producer is
    gone and the consumer goes on taking turns, by a measure of the packets it
    has not taken. *)
From Stdlib Require Import ZArith Lia.
From stdpp Require Import base numbers list strings.
From S2P Require Import Prelude Checksum Packet Memory RingBuffer RingProtocol PayloadGenerator PacketBuilder PacketValidator Stats Transport RateLimiter.
From S2P Require Import ProducerApp ConsumerApp EndToEnd SharedRing System Definedness.

(** ** Schedules of a consumer left alone *)

(** A step of the consumer, in turns that are neither paused nor stopped. *)
Definition attentive (c : choice) : Prop :=
  match c with
  | CTurn t => ct_stop t = false /\ ct_paused t = false
  | CAttach _ _ _ | CPeek _ | CGiveUp _ _ | CLastPeek _ => True
  | PTurn _ | PReserve _ | PGiveUp | PBuild | PCommitSlot | PDestroy => False
  end.

Definition is_turn (c : choice) : nat := match c with CTurn _ => 1 | _ => 0 end.

Definition turns (schedule : list choice) : nat := sum_list_with is_turn schedule.

(** The turns of a schedule, with the clock values that they read. *)
Definition turn_of (c : choice) : option consumer_turn := match c with CTurn t => Some t | _ => None end.

Definition turns_in (schedule : list choice) : list consumer_turn := omap turn_of schedule.

Lemma turns_length schedule : turns schedule = length (turns_in schedule).
Proof. induction schedule as [|c schedule IH]; [done|]. unfold turns in *. cbn. rewrite IH. by destruct c. Qed.

(** A step of a consumer left alone that sees the stream finished, and attaches
    with these clock values. *)
Definition draining (reset_at started : Z) (c : choice) : Prop :=
  attentive c /\ match c with CGiveUp sees _ => sees = true | CAttach _ r s => r = reset_at /\ s = started | _ => True end.

(** A step of the producer. *)
Definition of_producer (c : choice) : Prop :=
  match c with PTurn _ | PReserve _ | PGiveUp | PBuild | PCommitSlot | PDestroy => True | _ => False end.

(** The newest value of [head] is the only one the consumer may still read. *)
Definition fresh (y : system) : Prop := exists h, r_heads (y_ring y) = [h].

(** Each time the consumer gives up waiting it finds the producer gone: it
    sees that the stream is finished, or the process does not exist any more
    and its last store is visible. *)
Definition finds_gone (y : system) (c : choice) : Prop :=
  match c with CGiveUp sees alive => sees = true \/ (fresh y /\ alive = false) | _ => True end.

Definition producer_gone (y : system) (schedule : list choice) : Prop :=
  Forall (fun c => match c with CGiveUp sees _ => sees = true | _ => True end) schedule \/
  (fresh y /\ Forall (fun c => match c with CGiveUp _ alive => alive = false | _ => True end) schedule).

(** The consumer is between two turns. *)
Definition between_turns (y : system) : Prop :=
  match y_consumer y with Detached _ _ | InSession _ => True | _ => False end.

#[export] Instance ring_state_eq_dec : EqDecision RingState.
Proof. solve_decision. Defined.

(** ** The measure *)

Section Measure.
Context (cap : Z) (Hcap : is_capacity cap).
Context (find : Z -> option IChecksum) `{!RegistryLaws find} (kind : Z) (checksum : IChecksum) (Hfind : find kind = Some checksum).
Context (pconfig : ProducerConfig) (g : generator).
Context (Hpayload : 0 <= pc_payload_size pconfig) (Hsmall : kHeaderSize + pc_payload_size pconfig < 2 ^ 32).
Context (cconfig : ConsumerConfig) (policy : pause_policy) (pid : Z) (base : list bytes).
Abbreviation inv := (system_inv cap find pconfig g policy base).
Abbreviation step := (system_step checksum pconfig find cconfig policy pid).
Abbreviation run := (system_run checksum pconfig find cconfig policy pid).

Definition unseen (y : system) : nat := (length (commits (y_sent y)) - length base - length (taken (y_got y)))%nat.

(** One more turn is needed to find the end, unless the present turn will. *)
Definition slack (y : system) : nat :=
  match y_consumer y with
  | Detached _ _ | InSession _ => 1
  | Receiving _ t _ => if ct_paused t then 1 else 0
  | LastCall _ _ => match r_heads (y_ring y) with [_] => 0 | _ => 1 end
  end%nat.

Definition concluded (y y' : system) : Prop :=
  exists new b, y_got y' = y_got y ++ new /\ CStreamEnd b ∈ new /\ unseen y' = 0%nat.

Definition advances (y : system) (c : choice) (y' : system) : Prop :=
  (unseen y' + slack y' + is_turn c <= unseen y + slack y)%nat \/ concluded y y'.

Lemma unseen_queue y done q : commits (y_sent y) = base ++ done ++ q -> map fst (taken (y_got y)) = done -> unseen y = length q.
Proof. intros E H. unfold unseen. rewrite E, !length_app, <- H, length_map. lia. Qed.

(** The end of a turn: its packet is taken, or nothing can come any more and
    the end is announced. *)
Lemma completes_advances y r s t done q y' : inv y -> commits (y_sent y) = base ++ done ++ q ->
  holds r q (turn_packet policy t) -> map fst (taken (y_got y)) = done ->
  tracks policy (length base + length (taken (y_got y))) s ->
  consumer_completes find cconfig policy y r s t = Goes y' ->
  (unseen y' + length (option_list (turn_packet policy t)) = unseen y)%nat /\ slack y' = 1%nat /\
  (turn_ends t -> exists new b, y_got y' = y_got y ++ new /\ CStreamEnd b ∈ new).
Proof.
  intros Hinv Hsent Hholds Hdone Htracks. rewrite (unseen_queue y done q Hsent Hdone).
  pose proof (body_promised cap find pconfig g cconfig policy base y r s t done q Hinv Hsent Hholds Hdone Htracks) as Hbody.
  unfold consumer_completes. destruct (session_body find cconfig policy s t) as [events s' | events s' |]; [| |done].
  - destruct Hbody as (Htaken & _ & _ & _ & Hgo). intros [= <-]. split_and!; [| done | by intros ?%Hgo].
    unfold unseen. cbn [y_sent y_got consumer_moves]. rewrite taken_app, Hsent, !length_app, <- Hdone, !length_map.
    apply (f_equal length) in Htaken. rewrite length_map in Htaken. rewrite Htaken.
    destruct (turn_packet policy t) as [packet|]; cbn in *; [|lia].
    destruct Hholds as [_ Hhead]. destruct q; [done|]. cbn in *. lia.
  - destruct Hbody as (Htaken & Hnone & _ & Hin & _). intros [= <-]. rewrite Hnone. split_and!; [| done |].
    + unfold unseen. cbn [y_sent y_got consumer_moves option_list length]. rewrite !taken_app, Htaken, Hsent, !length_app, <- Hdone, !length_map.
      cbn. lia.
    + intros _. eexists _, _. split; [reflexivity|]. apply elem_of_app. by left.
Qed.

Lemma fresh_shrinks r n h l : r_heads r = [h] -> visible n (r_heads r) = Some l -> l = (h, [h]).
Proof. intros ->. unfold visible. destruct n as [|n]; cbn; [by intros [= <-] | by rewrite drop_nil]. Qed.

(** Steps that only move the consumer, with nothing taken. *)
Lemma silent_advances y r p c :
  let y' := consumer_moves y r p [] in (slack y' + is_turn c <= slack y)%nat -> advances y c y'.
Proof. intros y' Hs. left. unfold y', unseen in *. cbn [y_sent y_got consumer_moves]. rewrite app_nil_r. lia. Qed.

(** What the front of the queue means for the end of a turn. *)
Lemma front_advances y r s t c done q y' : inv y -> commits (y_sent y) = base ++ done ++ q ->
  holds r q (turn_packet policy t) -> map fst (taken (y_got y)) = done ->
  tracks policy (length base + length (taken (y_got y))) s ->
  consumer_completes find cconfig policy y r s t = Goes y' -> is_turn c = 0%nat ->
  (is_Some (turn_packet policy t) \/ slack y = 1%nat \/ (turn_ends t /\ q = [])) -> advances y c y'.
Proof.
  intros Hinv Hsent Hholds Hdone Htracks E Hc Hcase.
  destruct (completes_advances y r s t done q y' Hinv Hsent Hholds Hdone Htracks E) as (Hu & Hs & Hend).
  destruct Hcase as [[packet Hp] | [Hslack | [Hends ->]]].
  - left. rewrite Hp in Hu. cbn in Hu. lia.
  - left. lia.
  - right. destruct (Hend Hends) as (new & b & Hnew & Hin). exists new, b. split_and!; try done.
    rewrite (unseen_queue y done [] Hsent Hdone) in Hu. cbn in Hu. lia.
Qed.

Lemma peek_advances y s t tried n y' : inv y -> y_consumer y = Receiving s t tried -> step y (CPeek n) = Goes y' -> advances y (CPeek n) y'.
Proof.
  intros Hinv Hcl. pose proof Hinv as [(done & q & Hrel & Hsent & Hc & _) _ _ _]. rewrite Hcl in Hc.
  destruct Hc as (Htr & Hholds & Hgot & Hnp). pose proof (peek_contract cap Hcap n (y_ring y) q Hrel Hholds) as Hcon.
  cbn [system_step]. unfold consumer_step. rewrite Hcl.
  assert (Hgo : forall view r, shared_peek n (y_ring y) = Gives view r ->
    match view with
    | None => Goes (consumer_moves y r (Receiving s t true) [])
    | Some record => consumer_completes find cconfig policy y r s (with_packet t (Some record) no_peer None)
    end = Goes y' -> advances y (CPeek n) y').
  { intros view r E Hstep. rewrite E in Hcon. destruct Hcon as (_ & Hholds' & _). destruct view as [record|].
    - assert (Htp : turn_packet policy (with_packet t (Some record) no_peer None) = Some record).
      { unfold turn_packet. cbn. destruct policy; [by rewrite Hnp | by destruct (ct_paused t)]. }
      apply (front_advances y r s (with_packet t (Some record) no_peer None) _ done q y' Hinv Hsent); rewrite ?Htp; try done. left. by eexists.
    - injection Hstep as <-. apply silent_advances. unfold slack. rewrite Hcl. cbn. lia. }
  destruct (shared_peek n (y_ring y)) as [| | view r]; [by destruct tried.. |].
  intros E. apply (Hgo view r eq_refl). by destruct view, tried.
Qed.

Lemma give_up_advances y s t sees alive y' : inv y -> y_consumer y = Receiving s t true ->
  finds_gone y (CGiveUp sees alive) -> step y (CGiveUp sees alive) = Goes y' -> advances y (CGiveUp sees alive) y'.
Proof.
  intros Hinv Hcl Hgone. pose proof Hinv as [(done & q & Hrel & Hsent & Hc & _) _ _ Hst]. rewrite Hcl in Hc.
  destruct Hc as (Htr & Hholds & Hgot & Hnp). cbn [system_step]. unfold consumer_step. rewrite Hcl. destruct (ct_paused t) eqn:Hpaused.
  { assert (Htp : turn_packet policy (with_packet t None no_peer None) = None) by (unfold turn_packet; cbn; rewrite Hpaused; by destruct policy).
    intros E. apply (front_advances y (y_ring y) s (with_packet t None no_peer None) _ done q y' Hinv Hsent); rewrite ?Htp; try done.
    right. left. unfold slack. by rewrite Hcl, Hpaused. }
  destruct (sees && _) eqn:Hsees; [done|]. set (r := if sees then _ else _). set (peer := source_peer_status _ _ _ _).
  assert (Hr : exists h, r_heads r = [h]).
  { unfold r. destruct sees; [by destruct (sync_contract cap (y_ring y) q Hrel) as (_ & _ & ?)|]. by destruct Hgone as [? | [? _]]. }
  assert (Hover : finished peer || negb (peer_alive peer) = true).
  { unfold peer. destruct Hgone as [-> | [_ ->]]; [done|]. cbn. unfold process_alive. destruct (Z.leb _ _); by rewrite orb_true_r. }
  rewrite Hover. intros [= <-]. apply silent_advances. unfold slack. cbn. destruct Hr as [h ->]. lia.
Qed.

Lemma last_peek_advances y s t n y' : inv y -> y_consumer y = LastCall s t -> step y (CLastPeek n) = Goes y' -> advances y (CLastPeek n) y'.
Proof.
  intros Hinv Hcl. pose proof Hinv as [(done & q & Hrel & Hsent & Hc & Hend) _ _ _]. rewrite Hcl in Hc.
  destruct Hc as (Htr & Hholds & Hgot & Hpkt & Hnp & Hover & _). cbn [system_step]. unfold consumer_step. rewrite Hcl.
  destruct (released cap Hcap find pconfig g policy base y None done q Hinv Hrel Hsent Hholds)
    as (q' & Hrel' & _ & _ & Hheads & Hsent' & Hholds' & _); [cbn; by rewrite app_nil_r | done|].
  cbn [option_list] in Hsent'. rewrite app_nil_r in Hsent'.
  pose proof (peek_contract cap Hcap n _ q' Hrel' Hholds') as Hcon.
  destruct (shared_peek n (shared_release (y_ring y))) as [| | last r]; [done | done |]. destruct Hcon as (_ & Hholds2 & _ & _ & Hone).
  assert (Htp : turn_packet policy (with_packet t None (ct_peer t) last) = last).
  { unfold turn_packet. cbn [with_packet ct_packet ct_paused ct_peer ct_last]. rewrite Hnp, Hover. by destruct policy. }
  intros E. apply (front_advances y r s (with_packet t None (ct_peer t) last) _ done q' y' Hinv Hsent'); rewrite ?Htp; try done.
  destruct last as [record|]; [left; by eexists|]. right. rewrite Hheads in Hone. unfold slack. rewrite Hcl.
  destruct (r_heads (y_ring y)) as [|h [|h2 heads]]; [by left | right | by left]. split; [by split_and! | by apply (Hone h)].
Qed.

Lemma step_advances y c y' : inv y -> attentive c -> finds_gone y c -> step y c = Goes y' -> advances y c y'.
Proof.
  intros Hinv Hc Hgone. destruct c as [t | n | | | | | n reset_at now | t | n | sees alive | n]; try by destruct Hc.
  all: destruct (y_consumer y) as [v stats | s | s t' tried | s t'] eqn:Hcl;
    try (cbn [system_step]; unfold consumer_step; rewrite Hcl; try destruct tried; discriminate).
  - cbn [system_step]. unfold consumer_step. rewrite Hcl. destruct (shared_attach n (y_ring y)) as [| | [] r], (new_timer (cc_report_interval cconfig) now); try done.
    intros [= <-]. apply silent_advances. unfold slack. rewrite Hcl. cbn. lia.
  - destruct Hc as [Hstop Hpaused]. cbn [system_step]. unfold consumer_step. rewrite Hcl, Hstop, Hpaused.
    intros E. assert (E' : Goes (consumer_moves y (shared_release (y_ring y)) (Receiving s t false) []) = Goes y') by (by destruct policy).
    injection E' as <-. apply silent_advances. unfold slack. rewrite Hcl. cbn. rewrite Hpaused. lia.
  - by eapply peek_advances.
  - destruct tried; [by eapply give_up_advances | cbn [system_step]; unfold consumer_step; rewrite Hcl; discriminate].
  - by eapply last_peek_advances.
Qed.

(** Once only the newest [head] can be read it stays so: the consumer's calls
    never make older values visible. *)
Definition keeps_fresh (r r' : ring) : Prop := forall h, r_heads r = [h] -> r_heads r' = [h].

#[local] Instance keeps_fresh_preorder : PreOrder keeps_fresh.
Proof. split; [by intros r h | intros a b c Hab Hbc h Ha; by apply Hbc, Hab]. Qed.

Lemma release_keeps r : keeps_fresh r (shared_release r).
Proof. intros h. unfold shared_release. by destruct (release (r_cons r)). Qed.

Lemma peek_keeps n r view r' : shared_peek n r = Gives view r' -> keeps_fresh r r'.
Proof.
  intros E h Hh. unfold shared_peek in E. destruct (visible n (r_heads r)) as [[v newer]|] eqn:Hv; [|done].
  apply (fresh_shrinks _ _ _ _ Hh) in Hv as [= -> ->].
  destruct (try_peek _ _ _) as [[[[off len]|] c]|]; [destruct (load_bytes _ _ _) | |]; try done.
  all: injection E as <- <-; cbn; by destruct (peek_loads_head _).
Qed.

Lemma attach_keeps n r u r' : shared_attach n r = Gives u r' -> keeps_fresh r r'.
Proof.
  intros E h Hh. unfold shared_attach in E. destruct (visible n (r_heads r)) as [[v newer]|] eqn:Hv; [|done].
  destruct (last (r_tails r)); [|done].
  apply (fresh_shrinks _ _ _ _ Hh) in Hv as [= -> ->]. by injection E as _ <-.
Qed.

Lemma sync_keeps r : keeps_fresh r (shared_sync r).
Proof. intros h Hh. unfold shared_sync. by rewrite Hh. Qed.

Lemma consumer_keeps y c y' : consumer_step find cconfig policy pid y c = Goes y' -> keeps_fresh (y_ring y) (y_ring y').
Proof.
  assert (Hover : forall r s now es, session_over y r s now es = Goes y' -> keeps_fresh (y_ring y) r -> keeps_fresh (y_ring y) (y_ring y')).
  { intros r s now es [= <-] Hr. etransitivity; [exact Hr | apply release_keeps]. }
  assert (Hcomp : forall r s t, consumer_completes find cconfig policy y r s t = Goes y' -> keeps_fresh (y_ring y) r ->
    keeps_fresh (y_ring y) (y_ring y')).
  { intros r s t E Hr. unfold consumer_completes in E. destruct (session_body _ _ _ _ _); [by injection E as <- | by eapply Hover | done]. }
  unfold consumer_step. intros E. pose proof (release_keeps (y_ring y)) as Hrel. repeat (case_match; simplify_eq).
  all: try first [eapply Hcomp; [eassumption|] | eapply Hover; [eassumption|]]; cbn [y_ring consumer_moves]; try done.
  all: first [by apply sync_keeps | by eapply peek_keeps | by eapply attach_keeps | etransitivity; [done | by eapply peek_keeps]].
Qed.

Lemma fresh_step y c y' : attentive c -> fresh y -> step y c = Goes y' -> fresh y'.
Proof. intros Hc [h Hh] E. exists h. destruct c; try by destruct Hc. all: by eapply consumer_keeps. Qed.

Lemma attentive_sent y c y' : attentive c -> step y c = Goes y' -> y_sent y' = y_sent y /\ exists events, y_got y' = y_got y ++ events.
Proof.
  intros Hc E. destruct c; try by destruct Hc. all: apply consumer_step_moves in E as (r & p & events & ->); split; [done | by exists events].
Qed.

Lemma concluded_stays y y1 c y2 : concluded y y1 -> attentive c -> step y1 c = Goes y2 -> concluded y y2.
Proof.
  intros (new & b & Hg & Hin & Hu) Hc E. destruct (attentive_sent _ _ _ Hc E) as [Hs [events Hg2]].
  exists (new ++ events), b. rewrite Hg2, Hg, app_assoc. split_and!; [done | apply elem_of_app; by left |].
  unfold unseen in *. rewrite Hs, Hg2, taken_app, length_app. lia.
Qed.

Lemma attentive_ok c : attentive c -> choice_ok pconfig c.
Proof. by destruct c. Qed.

Lemma run_advances schedule : forall y y', inv y -> Forall attentive schedule -> producer_gone y schedule -> run schedule y = Goes y' ->
  inv y' /\ ((unseen y' + slack y' + turns schedule <= unseen y + slack y)%nat \/ concluded y y').
Proof.
  induction schedule as [|c schedule IH]; intros y y' Hinv Hatt Hgone; cbn [system_run].
  { intros [= <-]. split; [done|]. left. cbn. lia. }
  apply Forall_cons in Hatt as [Hc Hatt]. destruct (step y c) as [| | |y1] eqn:E; try done. intros Hrun.
  assert (Hinv1 : inv y1).
  { pose proof (step_ok cap Hcap find kind checksum Hfind pconfig g Hpayload Hsmall cconfig policy pid base y c Hinv (attentive_ok c Hc)) as H.
    by rewrite E in H. }
  assert (Hnow : finds_gone y c /\ producer_gone y1 schedule).
  { destruct Hgone as [Hg | [Hf Hg]]; apply Forall_cons in Hg as [Hg1 Hg]; (split; [destruct c; try done; cbn in *; auto|]).
    - by left.
    - right. split; [by eapply fresh_step | done]. }
  destruct Hnow as [Hnow Hgone1]. pose proof (step_advances y c y1 Hinv Hc Hnow E) as Hstep.
  destruct (IH y1 y' Hinv1 Hatt Hgone1 Hrun) as [Hinv' Hrest]. split; [done|].
  assert (Hstay : forall a b, concluded y a -> Forall attentive schedule -> run schedule a = Goes b -> concluded y b).
  { clear. induction schedule as [|c schedule IH]; intros a b Ha Hatt; cbn [system_run]; [by intros [= <-]|].
    apply Forall_cons in Hatt as [Hc Hatt]. destruct (step a c) as [| | |a1] eqn:E; try done. apply IH; [by eapply concluded_stays | done]. }
  destruct Hstep as [Hle | Hcon]; [|right; by eapply Hstay]. destruct Hrest as [Hle2 | (new & b & Hg & Hin & Hu)].
  - left. unfold turns in *. cbn [sum_list_with]. lia.
  - right. destruct (attentive_sent _ _ _ Hc E) as [_ [events Hg1]]. exists (events ++ new), b.
    rewrite Hg, Hg1, <- app_assoc. split_and!; [done | apply elem_of_app; by right | done].
Qed.

Lemma run_sent schedule : forall y y', Forall attentive schedule -> run schedule y = Goes y' -> y_sent y' = y_sent y.
Proof.
  induction schedule as [|c schedule IH]; intros y y' Hatt; cbn [system_run]; [by intros [= <-]|].
  apply Forall_cons in Hatt as [Hc Hatt]. destruct (step y c) as [| | |y1] eqn:E; try done. intros Hrun.
  rewrite (IH y1 y' Hatt Hrun). by apply (attentive_sent y c y1).
Qed.

(** *** A turn ends without the other process *)

(** How many more steps of its own a process needs to end its turn. *)
Definition consumer_rank (y : system) : nat :=
  match y_consumer y with Detached _ _ | InSession _ => 0 | Receiving _ _ false => 3 | Receiving _ _ true => 2 | LastCall _ _ => 1 end.

Definition producer_rank (y : system) : nat :=
  match y_producer y with
  | AtHead _ | SinkDestroyed => 0
  | Reserving _ _ false => 3
  | Building _ _ => 2
  | Reserving _ _ true | Committing _ _ | RunReturned => 1
  end.

Lemma newest_visible l : l <> [] -> is_Some (visible (length l - 1) l).
Proof.
  intros Hl. unfold visible. destruct (drop (length l - 1) l) eqn:E; [|by eexists].
  apply (f_equal length) in E. rewrite length_drop in E. destruct l; [done | cbn in E; lia].
Qed.

Lemma orders_nonempty r q : ring_rel cap r q -> r_heads r <> [] /\ r_tails r <> [].
Proof.
  intros (T & T' & ts & m0 & ms & _ & _ & Hp & Hc). rewrite (pi_tails _ _ _ _ _ _ _ _ Hp), (ci_heads _ _ _ _ _ _ _ Hc).
  pose proof (pi_last _ _ _ _ _ _ _ _ Hp). pose proof (ci_last _ _ _ _ _ _ _ Hc). by destruct ms, ts.
Qed.

(** The step is made, up to an overflow of signed arithmetic, and leaves a
    system with [P]. *)
Definition makes (y : system) (c : choice) (P : system -> Prop) : Prop :=
  match step y c with Goes y' => P y' | Overflowed => True | NotEnabled | Faulted => False end.

(** At most [n] steps of kind [p], with the turns [ts] among them, lead to [P];
    an overflow may cut them short. *)
Definition reaches (p : choice -> Prop) (n : nat) (ts : list consumer_turn) (y : system) (P : system -> Prop) : Prop :=
  exists schedule, (length schedule <= n)%nat /\ Forall p schedule /\
    match run schedule y with
    | Goes y' => P y' /\ turns_in schedule = ts
    | Overflowed => turns_in schedule `prefix_of` ts
    | NotEnabled | Faulted => False
    end.

Lemma run_app a b y : run (a ++ b) y = match run a y with Goes y' => run b y' | result => result end.
Proof. revert y. induction a as [|c a IH]; intros y; [done|]. cbn [app system_run]. by destruct (step y c). Qed.

Lemma reaches_now p y (P : system -> Prop) : P y -> reaches p 0 [] y P.
Proof. intros HP. by exists []. Qed.

Lemma reaches_step (p : choice -> Prop) y c (P : system -> Prop) : p c -> makes y c P -> reaches p 1 (turns_in [c]) y P.
Proof.
  intros Hc Hm. exists [c]. split; [cbn; lia|]. split; [by repeat constructor|]. unfold makes in Hm. cbn [system_run].
  destruct (step y c); done.
Qed.

Lemma reaches_trans p n1 ts1 n2 ts2 y (P Q : system -> Prop) :
  reaches p n1 ts1 y P -> (forall y', P y' -> reaches p n2 ts2 y' Q) -> reaches p (n1 + n2) (ts1 ++ ts2) y Q.
Proof.
  intros (s1 & L1 & F1 & R1) Hnext. destruct (run s1 y) as [| | |y1] eqn:E1; try done.
  - exists s1. rewrite E1. split; [lia|]. split; [done|]. by apply prefix_app_r.
  - destruct R1 as [HP T1]. destruct (Hnext y1 HP) as (s2 & L2 & F2 & R2). exists (s1 ++ s2).
    rewrite length_app, run_app, E1. split; [lia|]. split; [by apply Forall_app|]. unfold turns_in in *. rewrite omap_app, T1.
    destruct (run s2 y1) as [| | |y2]; try done; [by apply prefix_app | by destruct R2 as [? ->]].
Qed.

Lemma inv_step y c : inv y -> choice_ok pconfig c -> result_ok cap find pconfig g policy base (step y c).
Proof. by apply (step_ok cap Hcap find kind checksum Hfind). Qed.

(** A step into [P] is one into the invariant as well. *)
Lemma makes_inv y c (P : system -> Prop) : inv y -> choice_ok pconfig c -> makes y c P -> makes y c (fun y' => inv y' /\ P y').
Proof. intros Hinv Hc Hm. pose proof (inv_step y c Hinv Hc) as Hs. unfold makes in *. by destruct (step y c). Qed.

(** If each state of positive rank in [J] has a step of kind [p] to a lower
    rank, steps of kind [p] bring the rank to zero. *)
Lemma rank_descends (J : system -> Prop) (p : choice -> Prop) (rank : system -> nat) :
  (forall c, p c -> choice_ok pconfig c /\ turn_of c = None) ->
  (forall y c y', J y -> p c -> step y c = Goes y' -> J y') ->
  (forall y, inv y -> J y -> rank y <> 0%nat -> exists c, p c /\ makes y c (fun y' => rank y' < rank y)%nat) ->
  forall k y, inv y -> J y -> (rank y <= k)%nat -> reaches p k [] y (fun y' => inv y' /\ J y' /\ rank y' = 0%nat).
Proof.
  intros Hok HJ Hdown. induction k as [|k IH]; intros y Hinv Hy Hk.
  { apply reaches_now. split; [done|]. split; [done | lia]. }
  destruct (decide (rank y = 0%nat)) as [E | E].
  { exists []. split; [cbn; lia|]. by split. }
  destruct (Hdown y Hinv Hy E) as (c & Hc & Hm). destruct (Hok c Hc) as [Hcok Hct].
  apply (reaches_trans p 1 [] k [] y (fun y1 => inv y1 /\ J y1 /\ (rank y1 <= k)%nat)); [|by intros y1 (? & ? & ?); apply IH].
  replace [] with (turns_in [c]) by (unfold turns_in; cbn; by rewrite Hct). apply reaches_step; [done|].
  pose proof (makes_inv y c _ Hinv Hcok Hm) as Hm'. unfold makes in *.
  destruct (step y c) as [| | |y1] eqn:Ec; try done. destruct Hm' as [? ?]. split_and!; [done | by eapply HJ | lia].
Qed.

(** The newest loads, and giving up as soon as nothing is there. *)
Definition prompt (st : RingState) (c : choice) : Prop :=
  attentive c /\ turn_of c = None /\
  match c with CGiveUp sees _ => st = ProducerFinished -> sees = true | CAttach _ _ _ => False | _ => True end.

Lemma consumer_descends y : inv y -> consumer_rank y <> 0%nat ->
  exists c, prompt (y_state y) c /\ makes y c (fun y' => consumer_rank y' < consumer_rank y)%nat.
Proof.
  intros Hinv Hr. pose proof Hinv as [(done & q & Hrel & _ & _ & _) _ _ _]. pose proof (orders_nonempty _ _ Hrel) as [Hheads _].
  destruct (newest_visible _ Hheads) as [[h newer] Hv]. set (n := (length (r_heads (y_ring y)) - 1)%nat) in Hv.
  assert (Hdone : forall r s t k, (0 < k)%nat ->
    match consumer_completes find cconfig policy y r s t with
    | Goes y' => (consumer_rank y' < k)%nat | Overflowed => True | NotEnabled | Faulted => False end).
  { intros r s t k Hk. unfold consumer_completes. by destruct (session_body _ _ _ _ _). }
  unfold consumer_rank in Hr |- *. destruct (y_consumer y) as [v stats | s | s t tried | s t] eqn:Hcl; try done.
  - destruct tried.
    + destruct (decide (y_state y = ProducerFinished)) as [Hfin | Hfin].
      * exists (CGiveUp true true). split; [by split_and!|]. unfold makes. cbn [system_step]. unfold consumer_step. rewrite Hcl, Hfin.
        destruct (ct_paused t); [apply Hdone; lia|]. cbn. lia.
      * exists (CGiveUp false true). split; [by split_and!|]. unfold makes. cbn [system_step]. unfold consumer_step. rewrite Hcl.
        destruct (ct_paused t); [apply Hdone; lia|]. cbn [andb]. set (peer := source_peer_status _ _ _ _).
        destruct (_ || _); [cbn; lia | apply Hdone; lia].
    + exists (CPeek n). split; [by split_and!|]. pose proof (inv_step y (CPeek n) Hinv I) as Hs. unfold makes.
      cbn [system_step] in *. unfold consumer_step, shared_peek in *. rewrite Hcl, Hv in *.
      destruct (try_peek _ _ _) as [[[[off len]|] c]|]; [destruct (load_bytes _ _ _) | |]; try done; [apply Hdone; lia | cbn; lia].
  - exists (CLastPeek n). split; [by split_and!|]. pose proof (inv_step y (CLastPeek n) Hinv I) as Hs. unfold makes.
    assert (Hsame : r_heads (shared_release (y_ring y)) = r_heads (y_ring y)) by (unfold shared_release; by destruct (release _)).
    cbn [system_step] in *. unfold consumer_step, shared_peek in *. rewrite Hcl, Hsame, Hv in *.
    destruct (try_peek _ _ _) as [[[[off len]|] c]|]; [destruct (load_bytes _ _ _) | |]; try done; apply Hdone; lia.
Qed.

(** A step of the producer inside a turn. *)
Definition producer_continues (c : choice) : Prop :=
  match c with PReserve _ | PGiveUp | PBuild | PCommitSlot | PDestroy => True | _ => False end.

Lemma paced_body size s t slot events s' : paced s t -> producer_body fill checksum size s (with_slot t slot) <> Pacing events s'.
Proof.
  intros [[x Hx] Hd]. unfold producer_body, reporting. cbn [with_slot pt_paused pt_clock pt_slot pt_wall_clock].
  set (s1 := if negb _ then _ else _). assert (Hl : pr_limiter s1 = pr_limiter s) by (unfold s1; by destruct (negb _)).
  rewrite Hl, Hx, Hd. destruct x as [[[? ?] ?] l]. by destruct (pt_paused t), slot; repeat case_match.
Qed.

Lemma producer_descends y : inv y -> producer_rank y <> 0%nat ->
  exists c, producer_continues c /\ makes y c (fun y' => producer_rank y' < producer_rank y)%nat.
Proof.
  intros Hinv Hr. pose proof Hinv as [(done & q & Hrel & _ & _ & _) Hprod _ _]. pose proof (orders_nonempty _ _ Hrel) as [_ Htails].
  destruct (newest_visible _ Htails) as [[v newer] Hv]. set (n := (length (r_tails (y_ring y)) - 1)%nat) in Hv.
  unfold producer_rank in Hr |- *. destruct (y_producer y) as [s | s t tried | s t | s rest | |] eqn:Hpl; try done; cbn [producer_rel] in Hprod.
  - destruct Hprod as (_ & _ & _ & Hpaced). destruct tried.
    + exists PGiveUp. split; [done|]. unfold makes. cbn [system_step]. unfold producer_step, producer_idles. rewrite Hpl.
      pose proof (paced_body (record_size pconfig) s t None) as Hb. destruct (producer_body _ _ _ _ _); [cbn; lia | by eapply Hb | done].
    + exists (PReserve n). split; [done|]. pose proof (inv_step y (PReserve n) Hinv I) as Hs. unfold makes.
      cbn [system_step] in *. unfold producer_step, shared_reserve in *. rewrite Hpl, Hv in *.
      destruct (try_reserve _ _ _ _) as [[[[span|] p'] mem]|]; try done; cbn; lia.
  - destruct Hprod as (_ & _ & _ & Hpaced & _). exists PBuild. split; [done|]. pose proof (inv_step y PBuild Hinv I) as Hs. unfold makes.
    cbn [system_step] in *. unfold producer_step in *. rewrite Hpl in *. destruct (slot_bytes _) as [old|]; [|done].
    pose proof (paced_body (record_size pconfig) s t (Some old)) as Hb. destruct (producer_body _ _ _ _ _) as [es s' | es s' |]; [|by eapply Hb | done].
    destruct (commits es) as [|record [|]]; try done. destruct (shared_write _ _); try done. cbn. lia.
  - exists PCommitSlot. split; [done|]. unfold makes. cbn [system_step]. unfold producer_step. rewrite Hpl. cbn. lia.
  - exists PDestroy. split; [done|]. unfold makes. cbn [system_step]. unfold producer_step. rewrite Hpl. cbn. lia.
Qed.

(** *** Draining *)

(** What stays while only the consumer moves, once the producer has finished. *)
Definition finished_with (sent : list producer_event) (y : system) : Prop :=
  y_producer y = SinkDestroyed /\ y_state y = ProducerFinished /\ y_sent y = sent.

Lemma finished_stays sent y c y' : finished_with sent y -> attentive c -> step y c = Goes y' -> finished_with sent y'.
Proof.
  intros H Hc E. destruct c; try by destruct Hc. all: by apply consumer_step_moves in E as (r & p & events & ->).
Qed.


Lemma reaches_mono (p p' : choice -> Prop) n ts y P : (forall c, p c -> p' c) -> reaches p n ts y P -> reaches p' n ts y P.
Proof. intros Hp (l & L & F & R). exists l. split; [done|]. split; [by eapply Forall_impl | done]. Qed.

(** Between two turns of the consumer, the producer having finished. *)
Definition resting (sent : list producer_event) (y : system) : Prop := inv y /\ finished_with sent y /\ consumer_rank y = 0%nat.

(* The clock values of the turns to come, and of attaching. *)
Context (reset_at started : Z).
Abbreviation drains := (draining reset_at started).

Lemma finish_turn sent y : inv y -> finished_with sent y -> reaches drains 3 [] y (resting sent).
Proof.
  intros Hinv Hfin. apply (reaches_mono (prompt ProducerFinished)).
  { intros c (Ha & _ & Hs). split; [done|]. destruct c; try done. by apply Hs. }
  apply rank_descends; try done.
  - intros c (Ha & Ht & _). by split; [apply attentive_ok|].
  - intros y1 c y2 H (Ha & _). by apply finished_stays.
  - intros y1 Hinv1 (_ & Hst & _) Hr. destruct (consumer_descends y1 Hinv1 Hr) as (c & Hc & Hm). exists c. by rewrite Hst in Hc.
  - unfold consumer_rank. destruct (y_consumer y) as [| | ? ? [] |]; lia.
Qed.

Lemma take_turn sent t y : ct_stop t = false -> ct_paused t = false -> resting sent y -> reaches drains 5 [t] y (resting sent).
Proof.
  intros Hstop Hpaused (Hinv & Hfin & Hr).
  assert (Hturn : forall y s, inv y -> finished_with sent y -> y_consumer y = InSession s -> reaches drains 4 [t] y (resting sent)).
  { clear y Hinv Hfin Hr. intros y s Hinv Hfin Hcl. apply (reaches_trans drains 1 [t] 3 [] y (fun y1 => inv y1 /\ finished_with sent y1));
      [|intros y1 [? ?]; by apply finish_turn].
    apply (reaches_step drains y (CTurn t)); [by split_and!|]. apply makes_inv; [done..|]. unfold makes.
    destruct (step y (CTurn t)) as [| | |y1] eqn:E; try done; try (by apply (finished_stays sent y (CTurn t) y1)).
    all: cbn [system_step] in E; unfold consumer_step in E; rewrite Hcl, Hstop, Hpaused in E; by destruct policy. }
  unfold consumer_rank in Hr. destruct (y_consumer y) as [v stats | s | ? ? [] | ] eqn:Hcl; try done.
  - pose proof Hinv as [(done & q & Hrel & _ & _ & _) _ _ _]. pose proof (orders_nonempty _ _ Hrel) as [Hheads _].
    destruct (newest_visible _ Hheads) as [[h newer] Hv]. set (n := (length (r_heads (y_ring y)) - 1)%nat) in Hv.
    apply (reaches_trans drains 1 [] 4 [t] y (fun y1 => inv y1 /\ finished_with sent y1 /\ exists s, y_consumer y1 = InSession s));
      [|intros y1 (? & ? & s & ?); by eapply Hturn].
    apply (reaches_step drains y (CAttach n reset_at started)); [by split|]. apply makes_inv; [done..|]. unfold makes.
    cbn [system_step]. unfold consumer_step, shared_attach. rewrite Hcl, Hv, (newest_tail cap _ q Hrel). destruct (new_timer _ started); [|done].
    split; [done | by eexists].
  - destruct (Hturn y s Hinv Hfin Hcl) as (l & L & H). exists l. split; [lia | done].
Qed.

Lemma take_turns sent ts : Forall (fun t => ct_stop t = false /\ ct_paused t = false) ts ->
  forall y, resting sent y -> reaches drains (length ts * 5) ts y (resting sent).
Proof.
  induction 1 as [|t ts [Hstop Hpaused] _ IH]; intros y Hy; [by apply reaches_now|].
  apply (reaches_trans drains 5 [t] (length ts * 5) ts y (resting sent)); [by apply take_turn | apply IH].
Qed.

Lemma can_drain sent ts y : Forall (fun t => ct_stop t = false /\ ct_paused t = false) ts -> inv y -> finished_with sent y ->
  reaches drains (3 + length ts * 5) ts y (resting sent).
Proof.
  intros Hts Hinv Hfin. apply (reaches_trans drains 3 [] (length ts * 5) ts y (resting sent)); [by apply finish_turn | by apply take_turns].
Qed.
End Measure.

(** ** Properties *)

Section Liveness.
Context (m : cpu) (kind_name : string) (seed k : Z) (g : generator) (checksum : IChecksum) (pconfig : ProducerConfig).
Context (mem : bytes) (timer : PeriodicTimer) (now : Z) (cconfig : ConsumerConfig) (policy : pause_policy) (pid : Z).
Context (Hsetup : system_setup m kind_name seed k g checksum pconfig mem timer now).
Abbreviation run := (system_run checksum pconfig (registry_find m) cconfig policy pid).

(** Everything committed is taken, and the end announced, by the end of one
    turn more than there are packets left. *)
Lemma drained_by limiter v stats schedule y rest y' :
  Forall (choice_ok pconfig) schedule -> run schedule (system_start mem g limiter timer now v stats) = Goes y ->
  Forall attentive rest -> producer_gone y rest -> run rest y = Goes y' -> between_turns y' ->
  (length (commits (y_sent y)) < length (taken (y_got y)) + turns rest)%nat ->
  map fst (taken (y_got y')) = commits (y_sent y) /\ exists new b, y_got y' = y_got y ++ new /\ CStreamEnd b ∈ new.
Proof.
  intros Hs Hrun. pose proof (setup_run _ _ _ _ _ _ _ _ _ _ cconfig policy pid [] schedule _ Hsetup Hs
    (setup_inv _ _ _ _ _ _ _ _ _ _ policy limiter v stats Hsetup)) as Hinv. rewrite Hrun in Hinv. cbn [result_ok] in Hinv.
  pose proof Hsetup as [Hm Hg Hfind Hp Hsmall Hcap Hmem Ht]. intros Hatt Hgone Hrest Hbetween Hturns.
  destruct (run_advances _ Hcap _ k _ Hfind _ _ Hp Hsmall _ _ _ _ rest y y' Hinv Hatt Hgone Hrest) as [Hinv' Hcase].
  pose proof (run_sent _ _ _ _ _ _ rest y y' Hatt Hrest) as Hsent.
  assert (Hslack : slack y' = 1%nat) by (unfold slack, between_turns in *; by destruct (y_consumer y')).
  assert (Hle : (slack y <= 1)%nat).
  { unfold slack. destruct (y_consumer y) as [| | ? t ? |]; [lia | lia | destruct (ct_paused t); lia | destruct (r_heads _) as [|? []]; lia]. }
  assert (Htaken : (length (taken (y_got y)) <= length (commits (y_sent y)))%nat).
  { destruct Hinv as [(done & q & _ & Hq & Hc & _) _ _ _]. cbn [app] in Hq. destruct (taken_prefix _ _ _ _ _ _ _ _ _ Hq Hc) as [Hpre _].
    apply (f_equal length) in Hpre. rewrite length_map, length_take in Hpre. lia. }
  destruct Hcase as [Hbudget | (new & b & Hnew & Hin & Hu)]; [unfold unseen in Hbudget; cbn [length] in Hbudget; lia|].
  split; [|by exists new, b]. destruct Hinv' as [(done & q & _ & Hq & Hc & _) _ _ _]. cbn [app] in Hq.
  destruct (taken_prefix _ _ _ _ _ _ _ _ _ Hq Hc) as [Hpre _]. rewrite <- Hsent, Hpre. apply take_ge.
  unfold unseen in Hu. cbn [length] in Hu. lia.
Qed.

(** The turns to come are sane, and so are the steps made of them. *)
Lemma draining_sane first span lo hi reset_at started rest :
  Forall (fun t => turn_sane cconfig first span t) (turns_in rest) -> is_i64 (started + session_period cconfig) ->
  Forall (draining reset_at started) rest -> Forall (sane pconfig cconfig first span lo hi) rest.
Proof.
  intros Hts Hstart. induction 1 as [|c rest [Ha Hc] _ IH]; [done|]. unfold turns_in in *.
  destruct c as [t | n | | | | | n r0 s0 | t | n | sees alive | n]; try done; cbn in Hts; constructor; cbn; auto.
  - by destruct Hc as [_ ->].
  - by inversion Hts.
  - by inversion Hts; auto.
Qed.


(** C35. No turn waits for the other process.  From every reachable state, each
    process can bring its turn to an end by at most three steps of its own,
    with the newest values of its loads: the consumer comes to be between two
    turns, the producer at the head of its loop, or through with its
    destructor; only an overflow of signed arithmetic could stop it.  So
    neither of them is ever blocked by the ring beyond its timeout, a full or
    empty ring and a dead peer included. *)
Theorem turns_end_alone limiter v stats schedule y :
  Forall (choice_ok pconfig) schedule -> run schedule (system_start mem g limiter timer now v stats) = Goes y ->
  (exists rest, (length rest <= 3)%nat /\ Forall attentive rest /\
     match run rest y with Goes y' => between_turns y' /\ turns rest = 0%nat | Overflowed => True | NotEnabled | Faulted => False end) /\
  (exists rest, (length rest <= 3)%nat /\ Forall producer_continues rest /\
     match run rest y with
     | Goes y' => (exists s, y_producer y' = AtHead s) \/ y_producer y' = SinkDestroyed
     | Overflowed => True
     | NotEnabled | Faulted => False
     end).
Proof.
  intros Hs Hrun. pose proof (setup_run _ _ _ _ _ _ _ _ _ _ cconfig policy pid [] schedule _ Hsetup Hs
    (setup_inv _ _ _ _ _ _ _ _ _ _ policy limiter v stats Hsetup)) as Hinv. rewrite Hrun in Hinv. cbn [result_ok] in Hinv.
  pose proof Hsetup as [Hm Hg Hfind Hp Hsmall Hcap Hmem Ht].
  pose proof (rank_descends _ Hcap _ k checksum Hfind pconfig g Hp Hsmall cconfig policy pid [] (fun _ => True)) as Hdown. split.
  - destruct (Hdown (fun c => attentive c /\ turn_of c = None) consumer_rank) with (k := 3%nat) (y := y) as (rest & Hl & Hall & Hr); try done.
    + intros c [Ha Hc]. by split; [apply attentive_ok|].
    + intros y1 Hinv1 _ Hr. destruct (consumer_descends _ Hcap _ _ checksum Hfind _ _ Hp Hsmall cconfig policy pid _ y1 Hinv1 Hr)
        as (c & (Ha & Hc & _) & Hmake). by exists c.
    + unfold consumer_rank. destruct (y_consumer y) as [| | ? ? [] |]; lia.
    + exists rest. split_and!; [done | by eapply Forall_impl; [exact Hall | intros c []] |].
      destruct (system_run _ _ _ _ _ _ rest y) as [| | |y']; try done. destruct Hr as [(_ & _ & Hrank) Hturns]. split; [|by rewrite turns_length, Hturns].
      unfold consumer_rank, between_turns in *. by destruct (y_consumer y') as [| | ? ? [] |].
  - destruct (Hdown producer_continues producer_rank) with (k := 3%nat) (y := y) as (rest & Hl & Hall & Hr); try done.
    + by intros [].
    + intros y1 Hinv1 _ Hr. by apply (producer_descends _ Hcap _ _ checksum Hfind _ g Hp Hsmall cconfig policy pid []).
    + unfold producer_rank. destruct (y_producer y) as [|? ? [] | | | |]; lia.
    + exists rest. split_and!; [done..|]. destruct (system_run _ _ _ _ _ _ rest y) as [| | |y']; try done.
      destruct Hr as [(_ & _ & Hrank) _]. unfold producer_rank in Hrank.
      destruct (y_producer y') as [s|? ? [] | | | |]; try done; [left; by exists s | by right].
Qed.
End Liveness.

(** A ring of 128 bytes, filled with three packets before the sink is
    destroyed; the consumer, attached from the start, drains it. *)
Definition demo_filled : list choice :=
  let send n t := [PTurn (demo_turn None t); PReserve n; PBuild; PCommitSlot] in
  [CAttach 0 5 10] ++ send 0%nat 10 ++ send 0%nat 20 ++ send 0%nat 30 ++ [PTurn (demo_turn None 40); PDestroy].

Definition idle_consumer_turn : consumer_turn := {|
  ct_stop := false; ct_paused := false; ct_packet := None; ct_wall_clock := 90; ct_peer := no_peer; ct_last := None;
  ct_now := 95; ct_queue := {| used_bytes := 0; capacity_bytes := 0 |} |}.

Definition demo_drain : list choice :=
  let turn := CTurn idle_consumer_turn in
  [turn; CPeek 1; turn; CPeek 0; CGiveUp true true; CLastPeek 0; turn; CPeek 0; turn; CPeek 0; CGiveUp true false; CLastPeek 0].

Abbreviation demo_wide := (system_start (repeat 0 128) (Sequential 0) (new_limiter false 0 0) {| t_period := 1000000000; t_next := 1000000000 |} 0
    (new_validator 0) (new_stats 0)).
Abbreviation demo_run := (system_run Crc32 demo_three (registry_find sse42) demo_consumer_config BlockingPausePolicy 41).

Lemma demo_setup_wide :
  system_setup sse42 "sequential" 0 1 (Sequential 0) Crc32 demo_three (repeat 0 128) {| t_period := 1000000000; t_next := 1000000000 |} 0.
Proof.
  constructor; [apply _ | reflexivity | reflexivity | by_decide | by_decide | | by_decide | reflexivity].
  exists 7. split; [lia | reflexivity].
Qed.

Definition drained (result : step_result) : option (nat * nat * bool * bool) :=
  match result with
  | Goes y => Some (length (commits (y_sent y)), length (taken (y_got y)), match y_producer y with SinkDestroyed => true | _ => false end,
                    match y_consumer y with Detached _ _ | InSession _ => true | _ => false end)
  | _ => None
  end.


(** In the middle of a turn of each process: the producer waits for a slot, the
    consumer for a packet. *)
Definition demo_middle : list choice :=
  [CAttach 0 5 10; CTurn idle_consumer_turn; PTurn (demo_turn None 10)].

Lemma turns_end_alone_witness :
  exists y rest, demo_run demo_middle demo_wide = Goes y /\ ~ between_turns y /\ (length rest <= 3)%nat /\ Forall attentive rest /\
    match demo_run rest y with Goes y' => between_turns y' | Overflowed => True | _ => False end.
Proof.
  assert (E : drained (demo_run demo_middle demo_wide) = Some (0%nat, 0%nat, false, false)) by (vm_compute; reflexivity).
  destruct (demo_run demo_middle demo_wide) as [| | |y] eqn:Hy; [discriminate E.. |]. injection E as _ _ _ Hmid.
  destruct (turns_end_alone sse42 "sequential" 0 1 (Sequential 0) Crc32 demo_three (repeat 0 128)
    {| t_period := 1000000000; t_next := 1000000000 |} 0 demo_consumer_config BlockingPausePolicy 41 demo_setup_wide
    (new_limiter false 0 0) (new_validator 0) (new_stats 0) demo_middle y ltac:(repeat constructor; by_decide) Hy)
    as [(rest & Hl & Hall & Hrest) _].
  exists y, rest. split; [reflexivity|]. split; [unfold between_turns; intros Hb; by destruct (y_consumer y)|].
  split; [exact Hl|]. split; [exact Hall|]. destruct (demo_run rest y); [done..| apply Hrest].
Defined.

(** A stream that ends in good order can be announced as lost: the consumer
    loads the state while the stream is open, the producer finishes and exits,
    and then the consumer asks whether the process exists. *)
Definition demo_race : list choice :=
  [CAttach 0 5 10; CTurn idle_consumer_turn; CPeek 0;
   PTurn {| pt_stop := true; pt_paused := false; pt_clock := (0, []); pt_slot := None; pt_wall_clock := 0; pt_now := 0;
            pt_queue := {| used_bytes := 0; capacity_bytes := 0 |} |};
   PDestroy; CGiveUp false false; CLastPeek 0].

Lemma orderly_end_misreported :
  exists y, demo_run demo_race demo_wide = Goes y /\ y_producer y = SinkDestroyed /\ CStreamEnd false ∈ y_got y /\ stream_ended (y_got y) = false.
Proof.
  assert (E : match demo_run demo_race demo_wide with
    | Goes y => (match y_producer y with SinkDestroyed => true | _ => false end,
                 existsb (fun e => match e with CStreamEnd false => true | _ => false end) (y_got y), stream_ended (y_got y)) = (true, true, false)
    | _ => False end) by (vm_compute; reflexivity).
  destruct (demo_run demo_race demo_wide) as [| | |y]; [done..|]. injection E as Hdead Hin Hend. exists y. split; [reflexivity|].
  split; [by destruct (y_producer y)|]. split; [|exact Hend].
  apply existsb_exists in Hin as (e & Hin & He). apply list_elem_of_In. by destruct e as [| | | | | | [] | |].
Qed.
